(* ===== verification/_CoqProject ===== *)
-Q . S2P
Prelude.v
Wire.v
Payload.v
Replay.v
Suite.v
Crypto.v
Cipher.v
Keying.v
Esp.v
Protected.v
Eap.v
Identity.v
State.v
Negotiate.v
Exchange.v
Mschap.v
Peap.v
Auth.v
Handshake.v
EapPeer.v
Rekey.v
Running.v
RunInvariant.v
RunPeer.v
RunTunnel.v
RunProps.v
RekeyAgree.v
Hub.v
Transport.v
Tunnel.v
PipelineRun.v
ClassifyID.v
Debug.v
TlsEngine.v
PublicConfig.v
Session.v
EndToEnd.v
Lifecycle.v
