(* ===== verification/Prelude.v ===== *)
(** * swan: a verification library for the swan IKEv2 client

    swan (src/) is a userspace, initiator-only IKEv2/ESP client: it runs an
    IKE_SA_INIT and IKE_AUTH handshake with EAP (PEAP, MSCHAPv2) over a wire the
    caller injects, installs a CHILD_SA, carries IP packets through it, rekeys
    both SAs and closes them. The library models that code as executable
    functions and step relations and proves what makes it correct.

    ** The program and its files

    Codecs.
    - Prelude.v: outcomes of Go code ([res]: a value, an error, a panic, a loop
      that has not ended), the monad [go] of fallible code over a state, record
      update, slices, machine integers with their wrap-around, the big-endian
      fields of wire/be.go, shared lemmas, tactics and hint databases.
    - Wire.v: IKE header, payload chain, SKF header and message builder
      (wire/header.go, message.go, builder.go, consts.go).
    - Payload.v: every payload codec of wire/payload, with the class [Codec] of
      lawful encoder/decoder pairs.
    - ClassifyID.v: identity strings (wire/payload/id.go, ClassifyID).

    Cryptography and the data plane.
    - Suite.v: proposal strings, transform registry and selection (xcrypto).
    - Crypto.v, Cipher.v: CBC, GCM, CCM, HMAC, one-shot and prepared, over the
      class [Crypto] of the Go library's block and hash functions; Keying.v: prf,
      prf+ and the key derivations.
    - Replay.v, Esp.v: the anti-replay window, the ESP codecs and the pipeline's
      codec table (esp/replay.go, outflow.go, inflow.go, pipeline.go);
      PipelineRun.v: Pipeline.Run with its two workers, their channels and pooled
      buffers as a step relation.

    The control plane.
    - Protected.v: SK/SKF sealing, fragmentation, reassembly (control/protected.go).
    - Eap.v, Mschap.v, Peap.v: the EAP packet codec and worker, MSCHAPv2 with MD4,
      PEAP (eap/...). The class [Method] is what the worker asks of a method.
      TlsEngine.v: the TLS engine under PEAP (eap/peap/tls.go), its relay, handshake
      goroutine and calls as a step relation, certificates and key export.
    - State.v, Identity.v, Negotiate.v, Exchange.v, Auth.v, Handshake.v: the SA
      state and configuration, responder identity and rekey collisions, proposals
      between two ends, request/response exchanges with retransmission, the AUTH
      payloads, and the run of the handshake (control/*.go); EapPeer.v: the worker
      and the mailbox behind the EAP rounds (control/eap_peer.go).
    - Rekey.v, Running.v: the helpers and all handlers of the running actor and
      its loop (control/rekey.go, config_apply.go, running.go, running_rekey.go);
      RunInvariant.v (a program logic for the handlers and the invariant),
      RunPeer.v, RunTunnel.v, RunProps.v (its properties), RekeyAgree.v (the two
      ends of an IKE rekey run against each other).

    The session around them.
    - Hub.v: the event hub (events/hub.go) as a step relation.
    - Transport.v: NAT-T frames, the writer and the reader of the wire, the
      stream adapter (transport/frame.go, workers.go, wire.go).
    - Tunnel.v: the raw-IP surface (tunnel.go).
    - PublicConfig.v: configuration, options, NewSession, error text (config.go,
      options.go, errors.go, session.go).
    - Session.v: key halves of a child and control-plane updates (session.go);
      Lifecycle.v: Start, Stop, fail and the watchers as a step relation.
    - EndToEnd.v: two sessions with a common child SA, from the packets written into
      one tunnel to the packets read from the other.
    - Debug.v: name tables and renderers of the debug logger (debug/*.go).

    ** How state and effects are represented

    A Go function is a function; a method that mutates its receiver takes and
    returns the record. An [error] is [Err] with its format string, an index or
    slice out of range is [Panic]. Values of crypto/rand, math/rand and the clock
    are arguments. One goroutine with a [select] is a function over the events it
    observes (Exchange, Handshake, the running loop, the writer); goroutines that
    share state are step relations (Hub, the reader of Transport, PipelineRun,
    EapPeer, TlsEngine, Lifecycle); a blocking call of the tunnel is given what the others do before each of its
    channel operations. Go library code that is not modelled is a class: [Crypto]
    (AES, hashes), [X25519], [X509], [DES]; each has the laws the code relies on and
    a concrete instance in the witnesses. The PEAP state machine is proved against
    the class [Engine] of TLS tunnels; in TlsEngine.v the TLS client itself is
    whatever reads and writes its end of the pipe.

    ** What the theorems show

    - Codecs: parsing is total, builders and decoders round trip, identities have
      an unambiguous text.
    - Data plane: sealing and opening are inverse and exact; the replay window
      refines a set; packets between two sessions with mirrored children are
      delivered as the replay specification says; sequence numbers never repeat;
      the pipeline's workers compute what a sequential pipeline computes, own every
      pooled buffer once and stop; end to end, the packets read are packets written.
    - Control plane: protected messages survive fragmentation, reordering and
      duplication; exchanges complete, retransmit exactly as configured and end;
      an established handshake was authenticated and has the derived keys; every
      failure erases them; the two ends of a rekey agree; requests are executed
      once; unauthenticated packets change nothing; the running actor keeps its
      invariant and the tunnel moves make-before-break.
    - EAP: MSCHAPv2 and PEAP give a key only after their server proved itself; the
      mailbox of the EAP worker is a call of the method and ends; the TLS bridge
      carries every byte once and in order and never leaves the last flight behind;
      its goroutines end on a close, though the call of Close does not.
    - Session: writer and reader lose, duplicate and reorder nothing and account
      for every pooled buffer; tunnel reads refine a queue of packets; the hub
      never stalls and delivers in order; the data plane follows the control
      plane; start, stop and failure are announced in order and at most once, and
      stopping ends.

    ** Fuel and bounds

    Loops that are not structural have fuel that is proved, or by construction,
    enough: ParsePayloads and the raw walk have the length of the buffer plus one
    (every iteration consumes a byte), prf+ 257 (a block counter of one byte),
    fragment construction the number of fragments, the glob matcher the product of
    both lengths, the protected receiver the number of events plus one, UTF-8
    decoding and TrimSpace the number of bytes, p_hash the output length plus one,
    the PEAP fragmenter the payload length, SA_INIT three attempts and EAP 64
    rounds (the constants of the code), hub dispatch the number of subscribers,
    write loops the number of bytes or datagrams left (each call takes one), the
    digits of itoa the 20 bytes of its buffer, IPv6 text its eight groups. A model
    that runs out says [Hang], which the totality theorems exclude.

    ** Not modelled

    Sockets and net.PacketConn, the third-party TLS client under PEAP (utls; its
    handshake and record layer), the test clients (tests/...), sync.Pool contents
    (buffers are named, their reuse is not), the Go scheduler beyond arbitrary
    interleaving, the logger (its records are the result of a renderer), and the
    float NearWrapThreshold (the sequence number it gives is an argument). The
    Diffie-Hellman arithmetic and the certificate checks of the Go library are the
    classes above. *)

From stdpp Require Export base list numbers strings gmap.
From Stdlib Require Export ZArith Lia.
#[global] Open Scope Z_scope.

(* ------------------------------------------------------------------ *)
(** ** Outcomes of Go code *)

(** What a Go call can do: return a value, return a non-nil [error] (whose
    text is kept, without the values substituted by [fmt]), panic (an index or
    slice expression out of range, or an explicit [panic]), or keep looping
    when the fuel a model gives to a loop runs out. *)
Inductive res (A : Type) : Type :=
  | Ok (a : A)
  | Err (e : string)
  | Panic
  | Hang.
Arguments Ok {A} a.
Arguments Err {A} e.
Arguments Panic {A}.
Arguments Hang {A}.

#[global] Instance res_ret : MRet res := @Ok.
#[global] Instance res_bind : MBind res := λ A B f m,
  match m with Ok a => f a | Err e => Err e | Panic => Panic | Hang => Hang end.

(** [fmt.Errorf "text: %w" err]: the wrapped error keeps the inner text. *)
Definition wrap {A} (text : string) (m : res A) : res A :=
  match m with Err e => Err (text +:+ e) | _ => m end.

(** The call returns to its caller: no panic, no endless loop. *)
Definition fine {A} (m : res A) : Prop :=
  match m with Ok _ | Err _ => True | Panic | Hang => False end.

(** Go code over a mutable state [S] that may fail: the state it leaves, and
    the outcome ([Hang]: it has not returned). *)
Definition go (S A : Type) : Type := S → S * res A.

#[global] Instance go_ret S : MRet (go S) := λ A a s, (s, Ok a).
#[global] Instance go_bind S : MBind (go S) := λ A B f m s,
  match m s with
  | (s, Ok a) => f a s
  | (s, Err e) => (s, Err e)
  | (s, Panic) => (s, Panic)
  | (s, Hang) => (s, Hang)
  end.

(** A pure call, a read, and an assignment. *)
Definition lift {S A} (r : res A) : go S A := λ s, (s, r).
Definition gets {S A} (f : S → A) : go S A := λ s, (s, Ok (f s)).
Definition modify {S} (f : S → S) : go S unit := λ s, (f s, Ok tt).
(** [return …, fmt.Errorf(…)] *)
Definition throw {S A} (e : string) : go S A := λ s, (s, Err e).

Lemma go_bind_Ok {S A B} (m : go S A) (f : A → go S B) s s' b :
  (m ≫= f) s = (s', Ok b) → ∃ s1 a, m s = (s1, Ok a) ∧ f a s1 = (s', Ok b).
Proof. unfold mbind, go_bind. destruct (m s) as [s1 [a| | |]]; [eauto|done..]. Qed.

(** The call returns a nil error. *)
Definition is_ok {A} (m : res A) : bool :=
  match m with Ok _ => true | _ => false end.

(* ------------------------------------------------------------------ *)
(** ** Byte slices *)

(** [len(b)]; Go's [int] is 64 bits wide, far above any datagram size. *)
Definition len {A} (l : list A) : Z := Z.of_nat (length l).

(** [b[i]] *)
Definition idx {A} (b : list A) (i : Z) : res A :=
  if i <? 0 then Panic
  else match b !! Z.to_nat i with Some v => Ok v | None => Panic end.

(** [b[lo:hi]]. Go allows [hi] up to the capacity of [b]; here it panics as
    soon as [hi] exceeds the length, so that "does not panic" is proved for the
    stricter rule and no byte outside the slice is ever observed. *)
Definition slice {A} (b : list A) (lo hi : Z) : res (list A) :=
  if (0 <=? lo) && (lo <=? hi) && (hi <=? len b)
  then Ok (take (Z.to_nat (hi - lo)) (drop (Z.to_nat lo) b))
  else Panic.

(** [b[lo:]] *)
Definition slice_from {A} (b : list A) (lo : Z) : res (list A) := slice b lo (len b).

(** Stores [v] at offset [off] of a buffer that is long enough. *)
Definition splice {A} (b : list A) (off : Z) (v : list A) : list A :=
  take (Z.to_nat off) b ++ v ++ drop (Z.to_nat off + length v) b.

Declare Scope go_scope.
Delimit Scope go_scope with go.
Notation "b '.[' i ']'" := (idx b i)
  (at level 1, i at level 50, left associativity, format "b .[ i ]") : go_scope.
Notation "b '.[' lo ',' hi ']'" := (slice b lo hi)
  (at level 1, lo at level 50, hi at level 50, left associativity,
   format "b .[ lo ,  hi ]") : go_scope.
#[global] Open Scope go_scope.

(** Machine-width truncations. *)
Definition u8 (z : Z) : Z := z mod 2 ^ 8.
(** Signed 64-bit wrap-around (time.Duration). *)
Definition i64 (z : Z) : Z := (z + 2 ^ 63) mod 2 ^ 64 - 2 ^ 63.
Definition u16 (z : Z) : Z := z mod 2 ^ 16.
Definition u32 (z : Z) : Z := z mod 2 ^ 32.
Definition u64 (z : Z) : Z := z mod 2 ^ 64.

#[global] Arguments u8 : simpl never.
#[global] Arguments u16 : simpl never.
#[global] Arguments u32 : simpl never.
#[global] Arguments u64 : simpl never.
#[global] Arguments len : simpl never.
#[global] Arguments slice : simpl never.
#[global] Arguments splice : simpl never.

(** A list of Z that is really a Go [[]byte]. *)
Definition is_byte (z : Z) : Prop := 0 <= z < 256.
Definition bytes (b : list Z) : Prop := Forall is_byte b.
#[global] Instance is_byte_dec z : Decision (is_byte z).
Proof. unfold is_byte. apply _. Defined.
#[global] Instance bytes_dec b : Decision (bytes b).
Proof. unfold bytes. apply _. Defined.

(** A [for] loop: [step] returns either the next loop state or the value the
    function returns with. [fuel] bounds the iterations; [loop_fine] below
    shows that a bound on a decreasing measure is enough. *)
Fixpoint loop {S R} (fuel : nat) (step : S → res (S + R)) (s : S) : res R :=
  match fuel with
  | O => Hang
  | Datatypes.S f =>
      r ← step s;
      match r with inl s' => loop f step s' | inr x => Ok x end
  end.

(* ------------------------------------------------------------------ *)
(** ** Record updates *)

(** A record is rebuilt field by field by [eta]; [update] replaces one
    projection in that expression. *)
Class Eta (R : Type) := eta : R → R.
Class Update {R T : Type} (proj : R → T) := update : (T → T) → R → R.
Arguments update {R T} proj {_} f r /.

#[global] Hint Extern 1 (@Update ?R ?T ?proj) =>
  let e := constr:(_ : Eta R) in
  let e := eval unfold eta in (@eta R e) in
  let e := eval hnf in e in
  lazymatch eval pattern proj in e with
  | (λ _, ?rest) _ => fail "the record is not rebuilt with" proj
  | ?rebuild _ => exact (λ f : T → T, rebuild (λ r, f (proj r)))
  end : typeclass_instances.
#[global] Hint Mode Update + + + : typeclass_instances.

Declare Scope upd_scope.
Notation "r <| f := v |>" := (update f (λ _, v) r)
  (at level 12, left associativity, f at level 9, format "r  <| f  :=  v |>") : upd_scope.
#[global] Open Scope upd_scope.

(* ------------------------------------------------------------------ *)
(** ** Generic lemmas *)

Create HintDb go.
Create Rewrite HintDb len.

Lemma len_nonneg {A} (l : list A) : 0 <= len l.
Proof. unfold len. lia. Qed.

Lemma len_nil {A} : len (@nil A) = 0.
Proof. reflexivity. Qed.

Lemma len_cons {A} (x : A) l : len (x :: l) = 1 + len l.
Proof. unfold len. simpl. lia. Qed.

Lemma len_app {A} (l k : list A) : len (l ++ k) = len l + len k.
Proof. unfold len. rewrite length_app. lia. Qed.

Lemma len_take {A} (n : nat) (l : list A) : len (take n l) = Z.min (Z.of_nat n) (len l).
Proof. unfold len. rewrite length_take. lia. Qed.

Lemma len_drop {A} (n : nat) (l : list A) : len (drop n l) = Z.max 0 (len l - Z.of_nat n).
Proof. unfold len. rewrite length_drop. lia. Qed.

Lemma len_replicate {A} (n : nat) (x : A) : len (replicate n x) = Z.of_nat n.
Proof. unfold len. by rewrite length_replicate. Qed.

Lemma len_fmap {A B} (f : A → B) l : len (f <$> l) = len l.
Proof. unfold len. by rewrite length_fmap. Qed.

Lemma len_0_inv {A} (l : list A) : len l = 0 → l = [].
Proof. destruct l; [done|]. rewrite len_cons. pose proof (len_nonneg l). lia. Qed.

Lemma len_length {A} (l : list A) : len l = Z.of_nat (length l).
Proof. reflexivity. Qed.

#[export] Hint Rewrite @len_nil @len_cons @len_app @len_take @len_drop @len_replicate @len_fmap
  : len.

(** Closes arithmetic goals about lengths: lengths of syntactic lists are
    computed and every remaining [len l] is known to be non-negative. *)
Ltac len_norm :=
  autorewrite with len in *;
  repeat match goal with
  | |- context [len ?l] =>
      lazymatch goal with
      | _ : 0 <= len l |- _ => fail
      | _ => pose proof (len_nonneg l)
      end
  | _ : context [len ?l] |- _ =>
      lazymatch goal with
      | _ : 0 <= len l |- _ => fail
      | _ => pose proof (len_nonneg l)
      end
  end.
Ltac llia := len_norm; lia.

(** Arithmetic with division and remainder by constants. *)
Ltac divlia := Z.to_euclidean_division_equations; lia.

(** Padding fills a plaintext of [n] bytes to whole blocks. *)
Lemma pad_bounds bl n : 0 < bl <= 16 → 0 <= n →
  let padLen := Z.rem (bl - Z.rem n bl) bl in
  0 <= padLen < 16 ∧ (n + padLen) mod bl = 0.
Proof.
  intros Hb Hn. simpl. rewrite (Z.rem_mod_nonneg n) by lia.
  pose proof (Z.mod_pos_bound n bl ltac:(lia)).
  rewrite Z.rem_mod_nonneg by lia. pose proof (Z.mod_pos_bound (bl - n mod bl) bl ltac:(lia)).
  split; [lia|]. rewrite Z.add_mod_idemp_r by lia. rewrite <- Z.add_mod_idemp_l by lia.
  replace (_ + (bl - _)) with bl by lia. apply Z.mod_same. lia.
Qed.

Lemma andb3_true a b c : a && b && c = true ↔ a = true ∧ b = true ∧ c = true.
Proof. destruct a, b, c; naive_solver. Qed.

Lemma idx_ok {A} (b : list A) i v : idx b i = Ok v ↔ 0 <= i ∧ b !! Z.to_nat i = Some v.
Proof.
  unfold idx. destruct (i <? 0) eqn:E.
  - split; [done|]. intros [? _]. lia.
  - destruct (b !! Z.to_nat i) eqn:L; split; [intros [= ->]; split; [lia|done]|..];
      naive_solver.
Qed.

Lemma idx_in_range {A} (b : list A) i : 0 <= i < len b → ∃ v, idx b i = Ok v.
Proof.
  intros H. destruct (lookup_lt_is_Some_2 b (Z.to_nat i)) as [v Hv].
  { unfold len in H. lia. }
  exists v. apply idx_ok. split; [lia|done].
Qed.

Lemma idx_fine {A} (b : list A) i : 0 <= i < len b → fine (idx b i).
Proof. intros H. by destruct (idx_in_range b i H) as [v ->]. Qed.

Lemma idx_Ok_range {A} (b : list A) i v : idx b i = Ok v → 0 <= i < len b.
Proof.
  intros [? H]%idx_ok. apply lookup_lt_Some in H. unfold len. lia.
Qed.

Lemma idx_app_l {A} (b c : list A) i : i < len b → idx (b ++ c) i = idx b i.
Proof.
  intros H. unfold idx. destruct (i <? 0) eqn:E; [done|].
  rewrite lookup_app_l; [done|]. unfold len in H. lia.
Qed.

Lemma idx_app_r {A} (b c : list A) i : len b <= i → idx (b ++ c) i = idx c (i - len b).
Proof.
  intros H. pose proof (len_nonneg b). unfold idx.
  replace (i <? 0) with false by lia. replace (i - len b <? 0) with false by lia.
  rewrite lookup_app_r by (unfold len in *; lia).
  replace (Z.to_nat i - length b)%nat with (Z.to_nat (i - len b)) by (unfold len in *; lia).
  done.
Qed.

Lemma idx_app_at {A} (a : list A) x r i : i = len a → (a ++ x :: r).[i] = Ok x.
Proof.
  intros ->. rewrite idx_app_r, Z.sub_diag by lia. done.
Qed.

Lemma bytes_idx b i v : bytes b → idx b i = Ok v → is_byte v.
Proof. intros Hb [_ H]%idx_ok. by eapply Forall_lookup_1. Qed.

Lemma slice_ok {A} (b : list A) lo hi s :
  slice b lo hi = Ok s ↔
  (0 <= lo ∧ lo <= hi ∧ hi <= len b) ∧ s = take (Z.to_nat (hi - lo)) (drop (Z.to_nat lo) b).
Proof.
  unfold slice. destruct (_ && _) eqn:E; split; intros H; simplify_eq/=.
  - apply andb3_true in E. split; [lia|done].
  - by destruct H as [_ ->].
  - exfalso. destruct H as [H _]. rewrite <- not_true_iff_false, andb3_true in E. lia.
Qed.

Lemma slice_fine {A} (b : list A) lo hi :
  0 <= lo → lo <= hi → hi <= len b → fine (slice b lo hi).
Proof.
  intros. unfold slice. replace (_ && _) with true; [done|]. symmetry. apply andb3_true. lia.
Qed.

Lemma slice_len {A} (b : list A) lo hi s : slice b lo hi = Ok s → len s = hi - lo.
Proof. intros [? ->]%slice_ok. rewrite len_take, len_drop. lia. Qed.

Lemma slice_range {A} (b : list A) lo hi s :
  slice b lo hi = Ok s → 0 <= lo ∧ lo <= hi ∧ hi <= len b.
Proof. by intros [? ->]%slice_ok. Qed.

Lemma bytes_slice b lo hi s : bytes b → slice b lo hi = Ok s → bytes s.
Proof. intros Hb [_ ->]%slice_ok. by apply Forall_take, Forall_drop. Qed.

(** The cut of a concatenation at its seams. *)
Lemma slice_mid {A} (a s c : list A) lo hi :
  lo = len a → hi = len a + len s → slice (a ++ s ++ c) lo hi = Ok s.
Proof.
  intros -> ->. apply slice_ok. split; [llia|].
  replace (len a + len s - len a) with (len s) by lia.
  unfold len. rewrite !Nat2Z.id, drop_app_length, take_app_length. done.
Qed.

Lemma slice_prefix {A} (s c : list A) hi : hi = len s → slice (s ++ c) 0 hi = Ok s.
Proof. intros ->. by apply (slice_mid []). Qed.

Lemma slice_suffix {A} (a s : list A) lo hi :
  lo = len a → hi = len a + len s → slice (a ++ s) lo hi = Ok s.
Proof. intros. pose proof (slice_mid a s [] lo hi) as H'. rewrite app_nil_r in H'. auto. Qed.

Lemma slice_from_suffix {A} (a s : list A) lo : lo = len a → slice_from (a ++ s) lo = Ok s.
Proof. intros ->. unfold slice_from. apply slice_suffix; [done|]. by rewrite len_app. Qed.

Lemma slice_from_fine {A} (b : list A) lo : 0 <= lo <= len b → fine (slice_from b lo).
Proof. intros. apply slice_fine; lia. Qed.

(** A successful slice splits the list at its two offsets. *)
Lemma slice_split {A} (b : list A) lo hi s :
  slice b lo hi = Ok s →
  b = take (Z.to_nat lo) b ++ s ++ drop (Z.to_nat hi) b.
Proof.
  intros [(?&?&?) ->]%slice_ok.
  rewrite <- (take_drop (Z.to_nat lo) b) at 1. f_equal.
  rewrite <- (take_drop (Z.to_nat (hi - lo)) (drop (Z.to_nat lo) b)) at 1. f_equal.
  rewrite drop_drop. f_equal. lia.
Qed.

(** Walks through a buffer from a field to the next. *)
Lemma slice_drop {A} (b : list A) lo hi s :
  slice b lo hi = Ok s → drop (Z.to_nat lo) b = s ++ drop (Z.to_nat hi) b.
Proof.
  intros [(?&?&?) ->]%slice_ok.
  rewrite <- (take_drop (Z.to_nat (hi - lo)) (drop (Z.to_nat lo) b)) at 1. f_equal.
  rewrite drop_drop. f_equal. lia.
Qed.

Lemma idx_drop {A} (b : list A) i v :
  idx b i = Ok v → drop (Z.to_nat i) b = v :: drop (Z.to_nat (i + 1)) b.
Proof.
  intros [? H]%idx_ok. rewrite (drop_S _ _ _ H). do 2 f_equal. lia.
Qed.

(** Reads a field at literal offsets of a buffer with a known prefix. *)
Lemma slice_eq {A} (b : list A) lo hi s :
  0 <= lo → lo <= hi → hi <= len b → take (Z.to_nat (hi - lo)) (drop (Z.to_nat lo) b) = s →
  slice b lo hi = Ok s.
Proof. intros. by apply slice_ok. Qed.

Lemma splice_app {A} (a old c new : list A) off :
  off = len a → len new = len old → splice (a ++ old ++ c) off new = a ++ new ++ c.
Proof.
  intros -> Hl. unfold splice, len in *. rewrite Nat2Z.id, take_app_length.
  replace (length new) with (length old) by lia.
  rewrite drop_app_ge by lia.
  replace (length a + length old - length a)%nat with (length old) by lia.
  by rewrite drop_app_length.
Qed.

Lemma splice_app_r {A} (a b v : list A) off :
  len a <= off → splice (a ++ b) off v = a ++ splice b (off - len a) v.
Proof.
  intros H. pose proof (len_nonneg a). unfold splice, len in *.
  rewrite take_app_ge, drop_app_ge, <- app_assoc by lia.
  repeat f_equal; lia.
Qed.

Lemma splice_app_l {A} (a b v : list A) off :
  0 <= off → off + len v <= len a → splice (a ++ b) off v = splice a off v ++ b.
Proof.
  intros H H'. unfold splice, len in *.
  rewrite take_app_le, drop_app_le by lia. by rewrite <- !app_assoc.
Qed.

Lemma len_splice {A} (b v : list A) off :
  0 <= off → off + len v <= len b → len (splice b off v) = len b.
Proof. intros. unfold splice. autorewrite with len. unfold len in *. lia. Qed.

(** Compositionality of [fine]. *)
Lemma fine_bind {A B} (m : res A) (f : A → res B) :
  fine m → (∀ a, m = Ok a → fine (f a)) → fine (m ≫= f).
Proof. destruct m; simpl; intros; auto. Qed.

Lemma fine_wrap {A} text (m : res A) : fine m → fine (wrap text m).
Proof. by destruct m. Qed.

Lemma bind_Ok {A B} (m : res A) (f : A → res B) b :
  m ≫= f = Ok b ↔ ∃ a, m = Ok a ∧ f a = Ok b.
Proof. destruct m; simpl; naive_solver. Qed.

Lemma Ok_inj {A} (a b : A) : Ok a = Ok b → a = b.
Proof. by intros [= ->]. Qed.

Lemma wrap_Ok {A} text (m : res A) a : wrap text m = Ok a ↔ m = Ok a.
Proof. destruct m; naive_solver. Qed.

Lemma is_ok_true {A} (m : res A) : is_ok m = true ↔ ∃ a, m = Ok a.
Proof. destruct m; naive_solver. Qed.

Lemma loop_S {S R} f (step : S → res (S + R)) s :
  loop (Datatypes.S f) step s
  = (r ← step s; match r with inl s' => loop f step s' | inr x => Ok x end).
Proof. reflexivity. Qed.

Lemma loop_inl {S R} f (step : S → res (S + R)) s s' :
  step s = Ok (inl s') → loop (Datatypes.S f) step s = loop f step s'.
Proof. intros E. by rewrite loop_S, E. Qed.

Lemma loop_inr {S R} f (step : S → res (S + R)) s r :
  step s = Ok (inr r) → loop (Datatypes.S f) step s = Ok r.
Proof. intros E. by rewrite loop_S, E. Qed.

(** A loop whose body always returns, keeps an invariant and decreases a
    measure returns within a fuel above the measure. *)
Lemma loop_fine {S R} (I : S → Prop) (μ : S → nat) (step : S → res (S + R)) :
  (∀ s, I s → fine (step s)) →
  (∀ s s', I s → step s = Ok (inl s') → I s' ∧ (μ s' < μ s)%nat) →
  ∀ fuel s, I s → (μ s < fuel)%nat → fine (loop fuel step s).
Proof.
  intros Hf Hd. induction fuel as [|f IH]; intros s Hi Hs; [lia|]. simpl.
  apply fine_bind; [by apply Hf|]. intros [s'|r] E; [|done].
  destruct (Hd _ _ Hi E). apply IH; [done|lia].
Qed.

(** More fuel does not change the outcome of a loop that returned. *)
Lemma loop_mono {S R} (step : S → res (S + R)) f f' s :
  (f <= f')%nat → loop f step s ≠ Hang → loop f' step s = loop f step s.
Proof.
  revert f' s. induction f as [|f IH]; intros f' s Hle Hn; [done|].
  destruct f' as [|f']; [lia|]. simpl in *.
  destruct (step s) as [[s'|r]|e| |]; simpl in *; try done. apply IH; [lia|done].
Qed.

(** The successful end of a loop, by induction over its iterations. *)
Lemma loop_ind {S R} (step : S → res (S + R)) (P : S → R → Prop) :
  (∀ s r, step s = Ok (inr r) → P s r) →
  (∀ s s' r, step s = Ok (inl s') → P s' r → P s r) →
  ∀ fuel s r, loop fuel step s = Ok r → P s r.
Proof.
  intros Hb Hs. induction fuel as [|f IH]; intros s r H; [done|]. simpl in H.
  apply bind_Ok in H as ([s'|r'] & E & H); simplify_eq; eauto.
Qed.

(* ------------------------------------------------------------------ *)
(** ** Proof automation *)

(** Opens a chain of successful monadic steps in a hypothesis. *)
Ltac inv_ok :=
  repeat match goal with
  | H : mbind _ _ = Ok _ |- _ => apply bind_Ok in H; destruct H as (? & ? & H)
  | H : wrap _ _ = Ok _ |- _ => apply wrap_Ok in H
  | H : Ok _ = Ok _ |- _ => injection H; clear H; intros; subst
  | H : Err _ = Ok _ |- _ => discriminate H
  | H : Panic = Ok _ |- _ => discriminate H
  | H : Hang = Ok _ |- _ => discriminate H
  | H : inl _ = inr _ |- _ => discriminate H
  | H : inr _ = inl _ |- _ => discriminate H
  | H : inl _ = inl _ |- _ => injection H; clear H; intros; subst
  | H : inr _ = inr _ |- _ => injection H; clear H; intros; subst
  | H : (if ?b then _ else _) = Ok _ |- _ => destruct b eqn:?
  | H : (let '(_, _) := ?p in _) = Ok _ |- _ => destruct p
  | H : (let (_, _) := ?p in _) = Ok _ |- _ => destruct p
  | H : mret _ = Ok _ |- _ => injection H; clear H; intros; subst
  end.

(** Records what a successful index or slice says about lengths. *)
Ltac slice_facts :=
  repeat match goal with
  | H : slice ?b ?lo ?hi = Ok ?s |- _ =>
      lazymatch goal with
      | _ : len s = _ |- _ => fail
      | _ => pose proof (slice_len _ _ _ _ H); pose proof (slice_range _ _ _ _ H)
      end
  end.

(* ------------------------------------------------------------------ *)
(** ** Big-endian integers (wire/be.go, wire/payload/be.go and
       encoding/binary's BigEndian) *)

Definition beUint16 (b : list Z) : res Z :=
  b0 ← b.[0]; b1 ← b.[1];
  Ok (Z.lor (Z.shiftl b0 8) b1).

Definition beUint32 (b : list Z) : res Z :=
  b0 ← b.[0]; b1 ← b.[1]; b2 ← b.[2]; b3 ← b.[3];
  Ok (Z.lor (Z.lor (Z.lor (Z.shiftl b0 24) (Z.shiftl b1 16)) (Z.shiftl b2 8)) b3).

Definition beUint64 (b : list Z) : res Z :=
  b0 ← b.[0]; b1 ← b.[1]; b2 ← b.[2]; b3 ← b.[3];
  b4 ← b.[4]; b5 ← b.[5]; b6 ← b.[6]; b7 ← b.[7];
  Ok (Z.lor (Z.lor (Z.lor (Z.lor (Z.lor (Z.lor (Z.lor
       (Z.shiftl b0 56) (Z.shiftl b1 48)) (Z.shiftl b2 40)) (Z.shiftl b3 32))
       (Z.shiftl b4 24)) (Z.shiftl b5 16)) (Z.shiftl b6 8)) b7).

(** The bytes the [put*] functions store at the start of their argument. *)
Definition putUint16 (v : Z) : list Z := [u8 (Z.shiftr v 8); u8 v].

Definition putUint32 (v : Z) : list Z :=
  [u8 (Z.shiftr v 24); u8 (Z.shiftr v 16); u8 (Z.shiftr v 8); u8 v].

Definition putUint64 (v : Z) : list Z :=
  [u8 (Z.shiftr v 56); u8 (Z.shiftr v 48); u8 (Z.shiftr v 40); u8 (Z.shiftr v 32);
   u8 (Z.shiftr v 24); u8 (Z.shiftr v 16); u8 (Z.shiftr v 8); u8 v].

#[global] Arguments beUint16 : simpl never.
#[global] Arguments beUint32 : simpl never.
#[global] Arguments beUint64 : simpl never.
#[global] Arguments putUint16 : simpl never.
#[global] Arguments putUint32 : simpl never.
#[global] Arguments putUint64 : simpl never.

(** Runs the bind of a step whose outcome is known. *)
Ltac run := cbn [mbind mret res_bind res_ret].

Lemma u8_byte z : is_byte (u8 z).
Proof. unfold u8, is_byte. change (2 ^ 8) with 256. divlia. Qed.

Lemma u8_small z : is_byte z → u8 z = z.
Proof. intros. unfold u8. by apply Z.mod_small. Qed.

(** A byte below a shifted value is a digit of it. *)
Lemma land_shifted a b k : 0 <= k → 0 <= b < 2 ^ k → Z.land (a * 2 ^ k) b = 0.
Proof.
  intros Hk Hb. apply Z.bits_inj'. intros n Hn. rewrite Z.land_spec, Z.bits_0, andb_false_iff.
  destruct (Z_lt_le_dec n k) as [Hlt|Hle].
  - left. apply Z.mul_pow2_bits_low. lia.
  - right. rewrite <- (Z.mod_small b (2 ^ k)) by done. by apply Z.mod_pow2_bits_high.
Qed.

Lemma lor_shiftl a b k : 0 <= k → 0 <= b < 2 ^ k → Z.lor (Z.shiftl a k) b = a * 2 ^ k + b.
Proof.
  intros Hk Hb. rewrite Z.shiftl_mul_pow2 by done.
  rewrite <- Z.lxor_lor, <- Z.add_nocarry_lxor; auto using land_shifted.
Qed.

Lemma lor_shiftl_nest k k' acc b : 0 <= k → k' = k + 8 →
  Z.lor (Z.shiftl acc k') (Z.shiftl b k) = Z.shiftl (Z.lor (Z.shiftl acc 8) b) k.
Proof. intros. rewrite Z.shiftl_lor, Z.shiftl_shiftl by lia. do 2 f_equal. lia. Qed.

(** The value of a byte string, most significant byte first. *)
Definition be_value (b : list Z) : Z := foldl (λ acc x, acc * 256 + x) 0 b.

Lemma beUint16_value b0 b1 r : bytes [b0; b1] →
  beUint16 (b0 :: b1 :: r) = Ok (be_value [b0; b1]).
Proof.
  intros H. unfold beUint16, be_value. simpl. repeat (apply Forall_cons in H as [? H]).
  by rewrite lor_shiftl.
Qed.

Lemma beUint32_value b0 b1 b2 b3 r : bytes [b0; b1; b2; b3] →
  beUint32 (b0 :: b1 :: b2 :: b3 :: r) = Ok (be_value [b0; b1; b2; b3]).
Proof.
  intros H. repeat (apply Forall_cons in H as [? H]). unfold beUint32, be_value. simpl.
  rewrite (lor_shiftl_nest 16), (lor_shiftl_nest 8) by done.
  by rewrite !lor_shiftl by done.
Qed.

Lemma beUint64_value b0 b1 b2 b3 b4 b5 b6 b7 r : bytes [b0; b1; b2; b3; b4; b5; b6; b7] →
  beUint64 (b0 :: b1 :: b2 :: b3 :: b4 :: b5 :: b6 :: b7 :: r)
  = Ok (be_value [b0; b1; b2; b3; b4; b5; b6; b7]).
Proof.
  intros H. repeat (apply Forall_cons in H as [? H]). unfold beUint64, be_value. simpl.
  rewrite (lor_shiftl_nest 48), (lor_shiftl_nest 40), (lor_shiftl_nest 32),
    (lor_shiftl_nest 24), (lor_shiftl_nest 16), (lor_shiftl_nest 8) by done.
  by rewrite !lor_shiftl by done.
Qed.

Ltac be_arith :=
  unfold be_value, u8, is_byte in *; simpl;
  rewrite ?Z.shiftr_div_pow2 by lia;
  change (2 ^ 8) with 256 in *; change (2 ^ 16) with 65536 in *;
  change (2 ^ 24) with 16777216 in *; change (2 ^ 32) with 4294967296 in *;
  change (2 ^ 40) with 1099511627776 in *; change (2 ^ 48) with 281474976710656 in *;
  change (2 ^ 56) with 72057594037927936 in *;
  change (2 ^ 64) with 18446744073709551616 in *;
  divlia.

Lemma putUint16_bytes v : bytes (putUint16 v).
Proof. repeat constructor; apply u8_byte. Qed.
Lemma putUint32_bytes v : bytes (putUint32 v).
Proof. repeat constructor; apply u8_byte. Qed.
Lemma putUint64_bytes v : bytes (putUint64 v).
Proof. repeat constructor; apply u8_byte. Qed.

Lemma len_putUint16 v : len (putUint16 v) = 2.
Proof. reflexivity. Qed.
Lemma len_putUint32 v : len (putUint32 v) = 4.
Proof. reflexivity. Qed.
Lemma len_putUint64 v : len (putUint64 v) = 8.
Proof. reflexivity. Qed.

#[export] Hint Rewrite len_putUint16 len_putUint32 len_putUint64 : len.
#[export] Hint Resolve putUint16_bytes putUint32_bytes putUint64_bytes u8_byte : go.

Lemma beUint16_put v r : 0 <= v < 2 ^ 16 → beUint16 (putUint16 v ++ r) = Ok v.
Proof.
  intros. unfold putUint16. simpl app. rewrite beUint16_value by apply putUint16_bytes.
  f_equal. be_arith.
Qed.

Lemma beUint32_put v r : 0 <= v < 2 ^ 32 → beUint32 (putUint32 v ++ r) = Ok v.
Proof.
  intros. unfold putUint32. simpl app. rewrite beUint32_value by apply putUint32_bytes.
  f_equal. be_arith.
Qed.

Lemma beUint64_put v r : 0 <= v < 2 ^ 64 → beUint64 (putUint64 v ++ r) = Ok v.
Proof.
  intros. unfold putUint64. simpl app. rewrite beUint64_value by apply putUint64_bytes.
  f_equal. be_arith.
Qed.

Lemma putUint16_inv b v : bytes b → len b = 2 → beUint16 b = Ok v → putUint16 v = b.
Proof.
  intros Hb Hl. destruct b as [|b0 [|b1 [|]]]; try (unfold len in Hl; simpl in Hl; lia).
  rewrite beUint16_value by done. intros [= <-].
  repeat (apply Forall_cons in Hb as [? Hb]). unfold putUint16. repeat f_equal; be_arith.
Qed.

Lemma putUint32_inv b v : bytes b → len b = 4 → beUint32 b = Ok v → putUint32 v = b.
Proof.
  intros Hb Hl. destruct b as [|b0 [|b1 [|b2 [|b3 [|]]]]]; try (unfold len in Hl; simpl in Hl; lia).
  rewrite beUint32_value by done. intros [= <-].
  repeat (apply Forall_cons in Hb as [? Hb]). unfold putUint32. repeat f_equal; be_arith.
Qed.

Lemma putUint64_inv b v : bytes b → len b = 8 → beUint64 b = Ok v → putUint64 v = b.
Proof.
  intros Hb Hl. destruct b as [|b0 [|b1 [|b2 [|b3 [|b4 [|b5 [|b6 [|b7 [|]]]]]]]]]; try (unfold len in Hl; simpl in Hl; lia).
  rewrite beUint64_value by done. intros [= <-].
  repeat (apply Forall_cons in Hb as [? Hb]). unfold putUint64. repeat f_equal; be_arith.
Qed.

Lemma beUint16_put' v : 0 <= v < 2 ^ 16 → beUint16 (putUint16 v) = Ok v.
Proof. intros. rewrite <- (app_nil_r (putUint16 v)). by apply beUint16_put. Qed.
Lemma beUint32_put' v : 0 <= v < 2 ^ 32 → beUint32 (putUint32 v) = Ok v.
Proof. intros. rewrite <- (app_nil_r (putUint32 v)). by apply beUint32_put. Qed.
Lemma beUint64_put' v : 0 <= v < 2 ^ 64 → beUint64 (putUint64 v) = Ok v.
Proof. intros. rewrite <- (app_nil_r (putUint64 v)). by apply beUint64_put. Qed.

Lemma beUint16_range b v : bytes b → beUint16 b = Ok v → 0 <= v < 2 ^ 16.
Proof.
  intros Hb H. destruct b as [|b0 [|b1 r]]; try done.
  apply Forall_cons in Hb as [? Hb]. apply Forall_cons in Hb as [? Hb].
  rewrite beUint16_value in H by (by repeat apply Forall_cons_2). injection H as <-. be_arith.
Qed.

Lemma beUint32_range b v : bytes b → beUint32 b = Ok v → 0 <= v < 2 ^ 32.
Proof.
  intros Hb H. destruct b as [|b0 [|b1 [|b2 [|b3 r]]]]; try done.
  do 4 (apply Forall_cons in Hb as [? Hb]).
  rewrite beUint32_value in H by (by repeat apply Forall_cons_2). injection H as <-. be_arith.
Qed.

(** Bytes read from a byte slice are bytes, and integers read are in range. *)
Ltac bytes_facts :=
  repeat match goal with
  | E : slice ?b _ _ = Ok ?s, Hb : bytes ?b |- _ =>
      lazymatch goal with _ : bytes s |- _ => fail | _ => pose proof (bytes_slice _ _ _ _ Hb E) end
  | E : slice_from ?b _ = Ok ?s, Hb : bytes ?b |- _ =>
      lazymatch goal with _ : bytes s |- _ => fail | _ => pose proof (bytes_slice _ _ _ _ Hb E) end
  | E : idx ?b _ = Ok ?s, Hb : bytes ?b |- _ =>
      lazymatch goal with _ : is_byte s |- _ => fail | _ => pose proof (bytes_idx _ _ _ Hb E) end
  | E : beUint16 ?s = Ok ?v, Hb : bytes ?s |- _ =>
      lazymatch goal with _ : 0 <= v < _ |- _ => fail | _ => pose proof (beUint16_range s v Hb E) end
  | E : beUint32 ?s = Ok ?v, Hb : bytes ?s |- _ =>
      lazymatch goal with _ : 0 <= v < _ |- _ => fail | _ => pose proof (beUint32_range s v Hb E) end
  end.

(** Closes a bounds obligation from the guards met on the way. *)
Ltac bounds := bytes_facts; unfold is_byte in *; slice_facts; len_norm; lia.

(** Shows that a model returns: bounds checks are discharged by [lia] from the
    guards met on the way; called functions by the hints of database [go]. *)
Ltac fine_step :=
  match goal with
  | |- fine (Ok _) => exact I
  | |- fine (Err _) => exact I
  | |- fine (mret _) => exact I
  | |- fine (wrap _ _) => apply fine_wrap
  | |- fine (mbind _ _) => apply fine_bind; [|intros ? ?]
  | |- fine (idx _ _) => apply idx_fine; bounds
  | |- fine (slice _ _ _) => apply slice_fine; bounds
  | |- fine (slice_from _ _) => apply slice_from_fine; bounds
  | |- fine (if ?b then _ else _) => destruct b eqn:?
  | |- fine (let '(_, _) := ?p in _) => destruct p
  | |- fine (match ?o with Some _ => _ | None => _ end) => destruct o eqn:?
  | |- fine _ => solve [eauto with go]
  end.
Ltac fine_solve := repeat fine_step; try bounds.

#[export] Hint Resolve fine_wrap : go.

Lemma beUint16_fine b : 2 <= len b → fine (beUint16 b).
Proof. intros. unfold beUint16. fine_solve. Qed.
Lemma beUint32_fine b : 4 <= len b → fine (beUint32 b).
Proof. intros. unfold beUint32. fine_solve. Qed.
Lemma beUint64_fine b : 8 <= len b → fine (beUint64 b).
Proof. intros. unfold beUint64. fine_solve. Qed.

#[export] Hint Extern 1 (fine (beUint16 _)) => apply beUint16_fine; bounds : go.
#[export] Hint Extern 1 (fine (beUint32 _)) => apply beUint32_fine; bounds : go.
#[export] Hint Extern 1 (fine (beUint64 _)) => apply beUint64_fine; bounds : go.

