(* ===== verification/Wire.v ===== *)
(** * IKEv2 message envelope (src/wire)

    The 28-byte header ([Header], [ParseHeader], [MarshalTo]), the outer
    payload chain ([ParsePayloads], [ParseMessage]), the SKF fragment header
    and the append-style [Builder]. The theorems show that the parsers return
    on every input (no bounds check is missing, the chain walk terminates),
    that header and chain round-trip, and that what [Builder] finishes is
    parsed back to exactly the pushed payloads. *)

From S2P Require Import Prelude.

(* ------------------------------------------------------------------ *)
(** ** Constants (wire/consts.go) *)

Definition HeaderLen : Z := 28.
Definition PayloadHeaderLen : Z := 4.
Definition SkfHeaderLen : Z := 4.
Definition IKEDefaultVersion : Z := 32.

Definition FlagInitiator : Z := 8.
Definition FlagVersion : Z := 16.
Definition FlagResponse : Z := 32.

Definition PayloadTypeNone : Z := 0.
Definition PayloadTypeSA : Z := 33.
Definition PayloadTypeKE : Z := 34.
Definition PayloadTypeIDi : Z := 35.
Definition PayloadTypeIDr : Z := 36.
Definition PayloadTypeCert : Z := 37.
Definition PayloadTypeAuth : Z := 39.
Definition PayloadTypeNonce : Z := 40.
Definition PayloadTypeNotify : Z := 41.
Definition PayloadTypeDelete : Z := 42.
Definition PayloadTypeTSi : Z := 44.
Definition PayloadTypeTSr : Z := 45.
Definition PayloadTypeSK : Z := 46.
Definition PayloadTypeCP : Z := 47.
Definition PayloadTypeEAP : Z := 48.
Definition PayloadTypeSKF : Z := 53.

Definition ExchangeIkeSAInit : Z := 34.
Definition ExchangeIkeAuth : Z := 35.
Definition ExchangeCreateChild : Z := 36.
Definition ExchangeInformational : Z := 37.

(** NOTIFY message types, CERT encodings, AUTH methods, TS types. *)
Definition NotifyNoProposalChosen : Z := 14.
Definition NotifyInvalidKePayload : Z := 17.
Definition NotifyAuthenticationFailed : Z := 24.
Definition NotifySinglePairRequired : Z := 34.
Definition NotifyNoAdditionalSAs : Z := 35.
Definition NotifyInternalAddressFailure : Z := 36.
Definition NotifyTemporaryFailure : Z := 43.
Definition NotifyChildSANotFound : Z := 44.
Definition NotifyFailedCPRequired : Z := 37.
Definition NotifyTSUnacceptable : Z := 38.
Definition NotifyInvalidSelectors : Z := 39.
Definition NotifyInitialContact : Z := 16384.
Definition NotifyAdditionalTSPossible : Z := 16386.
Definition NotifyIPCompSupported : Z := 16387.
Definition NotifyNATDetectionSourceIP : Z := 16388.
Definition NotifyNATDetectionDestinationIP : Z := 16389.
Definition NotifyCookie : Z := 16390.
Definition NotifyUseTransportMode : Z := 16391.
Definition NotifyEspTFCPaddingNotSupported : Z := 16394.
Definition NotifyNonFirstFragmentsAlso : Z := 16395.
Definition NotifyMobikeSupported : Z := 16396.
Definition NotifyNoAdditionalAddresses : Z := 16399.
Definition NotifyMultipleAuthSupported : Z := 16404.
Definition NotifyEapOnlyAuthentication : Z := 16417.
Definition NotifyIKEv2MessageIDSyncSupported : Z := 16420.
Definition NotifyIKEv2MessageIDSync : Z := 16422.
Definition NotifyFragmentationSupported : Z := 16430.
Definition NotifySignatureHashAlgorithms : Z := 16431.
Definition NotifyRekeySA : Z := 16393.
Definition NotifyIntermediateExchangeSupported : Z := 16438.
Definition CertEncodingX509Signature : Z := 4.
Definition AuthRsaDigitalSignature : Z := 1.
Definition AuthSharedKeyMIC : Z := 2.
Definition AuthDssDigitalSignature : Z := 3.
Definition AuthDigitalSignature : Z := 14.

(* ------------------------------------------------------------------ *)
(** ** Header (wire/header.go) *)

(** [type SPI [8]byte] *)
Abbreviation SPI := (list Z).

Definition Uint64SPI (v : Z) : SPI := putUint64 v.
Definition SPI_Uint64 (s : SPI) : res Z := beUint64 s.
Definition SPI_IsZero (s : SPI) : bool := bool_decide (s = replicate 8 0).

Record Header := mkHeader {
  InitiatorSPI : SPI;
  ResponderSPI : SPI;
  NextPayload : Z;
  Version : Z;
  ExchangeType : Z;
  Flags : Z;
  MessageID : Z;
  Length : Z }.

Record Payload := mkPayload {
  Payload_Type : Z;
  Critical : bool;
  Next : Z;
  Body : list Z }.

Record SkfHeader := mkSkfHeader {
  FragmentNumber : Z;
  TotalFragments : Z }.

Definition flagsMask : Z := Z.lor (Z.lor FlagResponse FlagVersion) FlagInitiator.

Definition ParseHeader (b : list Z) : res (Header * list Z) :=
  if len b <? HeaderLen then
    Err "ike packet too short: have %d, want at least %d"
  else
  lf ← b.[24, 28]; declared ← beUint32 lf;
  if declared <? HeaderLen then
    Err "invalid ike total length %d: below header size"
  else if len b <? declared then
    Err "invalid ike total length %d: only %d bytes available"
  else
  ispi ← b.[0, 8];
  rspi ← b.[8, 16];
  np ← b.[16];
  ver ← b.[17];
  ex ← b.[18];
  fl ← b.[19];
  mf ← b.[20, 24]; mid ← beUint32 mf;
  let h := {| InitiatorSPI := ispi; ResponderSPI := rspi; NextPayload := np;
              Version := ver; ExchangeType := ex; Flags := fl;
              MessageID := mid; Length := u32 declared |} in
  if negb (Version h =? IKEDefaultVersion) then
    Err "unexpected ike version 0x%02x"
  else if negb (Z.ldiff (Flags h) flagsMask =? 0) then
    Err "invalid ike flags 0x%02x"
  else
  rest ← b.[HeaderLen, declared];
  Ok (h, rest).

(** [MarshalTo] appends 28 zero bytes to [dst] and fills them in place. *)
Definition MarshalTo (h : Header) (dst : list Z) : list Z :=
  let start := len dst in
  let dst := dst ++ replicate (Z.to_nat HeaderLen) 0 in
  let dst := splice dst start (InitiatorSPI h) in
  let dst := splice dst (start + 8) (ResponderSPI h) in
  let dst := splice dst (start + 16) [u8 (NextPayload h)] in
  let dst := splice dst (start + 17) [Version h] in
  let dst := splice dst (start + 18) [u8 (ExchangeType h)] in
  let dst := splice dst (start + 19) [u8 (Flags h)] in
  let dst := splice dst (start + 20) (putUint32 (MessageID h)) in
  splice dst (start + 24) (putUint32 (Length h)).

Definition ParseSkfHeader (b : list Z) : res (SkfHeader * list Z) :=
  if len b <? SkfHeaderLen then
    Err "skf fragment header too short: have %d, want %d"
  else
  f1 ← b.[0, 2]; fn ← beUint16 f1;
  f2 ← b.[2, 4]; tf ← beUint16 f2;
  if (fn =? 0) || (tf =? 0) || (tf <? fn) then
    Err "invalid skf fragment numbers %d/%d"
  else
  rest ← slice_from b SkfHeaderLen;
  Ok ({| FragmentNumber := fn; TotalFragments := tf |}, rest).

(* ------------------------------------------------------------------ *)
(** ** Message (wire/message.go) *)

Record EncryptedPayload := mkEncryptedPayload {
  Enc_Type : Z;
  InnerNext : Z;
  Fragmented : bool;
  Frag : SkfHeader;
  Enc_Body : list Z }.

Record Message := mkMessage {
  Msg_Header : Header;
  Payloads : list Payload;
  Encrypted : option EncryptedPayload }.

(** Variables of the loop in [ParsePayloads]: [rest], [next], [payloads]. *)
Definition chain_state : Type := list Z * Z * list Payload.

(** One iteration of the loop, or the code after it once [next] is None. *)
Definition ParsePayloads_step (stopAtEncrypted : bool) (s : chain_state) :
    res (chain_state + (list Payload * option EncryptedPayload)) :=
  let '(rest, next, payloads) := s in
  if next =? PayloadTypeNone then
    if negb (len rest =? 0) then
      Err "invalid payload chain: %d trailing bytes after next-payload end"
    else Ok (inr (payloads, None))
  else
  if len rest <? PayloadHeaderLen then
    Err "payload type %d too short for its header: %d bytes remaining"
  else
  payloadNext ← rest.[0];
  flag ← rest.[1];
  let critical := negb (Z.land flag 128 =? 0) in
  lf ← rest.[2, 4]; length ← beUint16 lf;
  if length <? PayloadHeaderLen then
    Err "payload type %d length out of bounds: declared %d bytes"
  else if len rest <? length then
    Err "payload type %d length out of bounds: declared %d bytes"
  else
  body ← rest.[PayloadHeaderLen, length];
  if (next =? PayloadTypeSK) || (next =? PayloadTypeSKF) then
    if negb stopAtEncrypted then
      Err "payload type %d is only valid as a terminal outer payload"
    else if negb (length =? len rest) then
      Err "payload type %d must terminate the outer payload chain: %d trailing bytes"
    else if next =? PayloadTypeSKF then
      '(frag, tail) ← ParseSkfHeader body;
      Ok (inr (payloads, Some {| Enc_Type := next; InnerNext := payloadNext;
        Fragmented := true; Frag := frag; Enc_Body := tail |}))
    else
      Ok (inr (payloads, Some {| Enc_Type := next; InnerNext := payloadNext;
        Fragmented := false; Frag := {| FragmentNumber := 0; TotalFragments := 0 |};
        Enc_Body := body |}))
  else
  rest' ← slice_from rest length;
  Ok (inl (rest', payloadNext,
    payloads ++ [{| Payload_Type := next; Critical := critical;
                    Next := payloadNext; Body := body |}])).

(** Every iteration consumes at least the four header bytes, so the buffer
    length bounds the iterations. *)
Definition ParsePayloads (buf : list Z) (first : Z) (stopAtEncrypted : bool) :
    res (list Payload * option EncryptedPayload) :=
  loop (S (length buf)) (ParsePayloads_step stopAtEncrypted) (buf, first, []).

Definition ParseMessage (b : list Z) : res Message :=
  '(hdr, rest) ← ParseHeader b;
  '(payloads, encrypted) ← ParsePayloads rest (NextPayload hdr) true;
  Ok {| Msg_Header := hdr; Payloads := payloads; Encrypted := encrypted |}.

Definition FindPayload (m : Message) (t : Z) : option Payload :=
  head (filter (λ p, Payload_Type p = t) (Payloads m)).

(* ------------------------------------------------------------------ *)
(** ** Builder (wire/builder.go) *)

Record Builder := mkBuilder {
  buf : list Z;
  first : Z;
  firstSet : bool;
  lastNextOffset : Z;
  header : Header }.

Definition NewBuilder (h : Header) : Builder :=
  {| buf := MarshalTo h []; first := PayloadTypeNone; firstSet := false;
     lastNextOffset := 16; header := h |}.

(** [Push] returns the builder it leaves behind; an error leaves it alone. *)
Definition Push (b : Builder) (t : Z) (critical : bool) (body : list Z) : res Builder :=
  if t =? PayloadTypeNone then Err "payload type %d: cannot push None as a payload" else
  let total := PayloadHeaderLen + len body in
  if 65535 <? total then Err "payload type %d too long: %d bytes"
  else if 65535 + HeaderLen <? len (buf b) + total then Err "ike packet too long: %d bytes"
  else
  let start := len (buf b) in
  let bf := buf b ++ [0; 0; 0; 0] in
  let bf := splice bf start [PayloadTypeNone] in
  let bf := splice bf (start + 1) [if critical then 128 else 0] in
  let bf := splice bf (start + 2) (putUint16 (u16 total)) in
  let bf := if 0 <=? lastNextOffset b then splice bf (lastNextOffset b) [u8 t] else bf in
  Ok {| buf := bf ++ body;
        first := if firstSet b then first b else t;
        firstSet := true;
        lastNextOffset := start;
        header := header b |}.

Definition FirstPayload (b : Builder) : Z :=
  if negb (firstSet b) then PayloadTypeNone else first b.

Definition PatchLength (b : Builder) : Builder :=
  {| buf := splice (buf b) 24 (putUint32 (u32 (len (buf b)))); first := first b;
     firstSet := firstSet b; lastNextOffset := lastNextOffset b; header := header b |}.

Definition Finish (b : Builder) : list Z :=
  buf (PatchLength
    {| buf := splice (buf b) 16 [u8 (FirstPayload b)]; first := first b;
       firstSet := firstSet b; lastNextOffset := lastNextOffset b; header := header b |}).

(** A sequence of pushes, stopping at the first error as the callers do. *)
Fixpoint PushAll (b : Builder) (ps : list (Z * bool * list Z)) : res Builder :=
  match ps with
  | [] => Ok b
  | (t, c, body) :: ps => b' ← Push b t c body; PushAll b' ps
  end.

(* ------------------------------------------------------------------ *)
(** ** Header: layout and round trips *)

(** A header as the Go types bound it. *)
Record header_wf (h : Header) : Prop := {
  wf_ispi : len (InitiatorSPI h) = 8;
  wf_rspi : len (ResponderSPI h) = 8;
  wf_ispi_bytes : bytes (InitiatorSPI h);
  wf_rspi_bytes : bytes (ResponderSPI h);
  wf_np : is_byte (NextPayload h);
  wf_ver : is_byte (Version h);
  wf_ex : is_byte (ExchangeType h);
  wf_fl : is_byte (Flags h);
  wf_mid : 0 <= MessageID h < 2 ^ 32;
  wf_len : 0 <= Length h < 2 ^ 32 }.

(** The wire layout of RFC 7296 3.1. *)
Definition header_bytes (h : Header) : list Z :=
  InitiatorSPI h ++ ResponderSPI h ++
  [u8 (NextPayload h); Version h; u8 (ExchangeType h); u8 (Flags h)] ++
  putUint32 (MessageID h) ++ putUint32 (Length h).

Lemma len8_inv (s : list Z) : len s = 8 →
  ∃ a b c d e f g h, s = [a; b; c; d; e; f; g; h].
Proof.
  intros H. unfold len in H.
  destruct s as [|? [|? [|? [|? [|? [|? [|? [|? [|]]]]]]]]]; simpl in H; try lia.
  by repeat eexists.
Qed.

Lemma len_header_bytes h : len (InitiatorSPI h) = 8 → len (ResponderSPI h) = 8 →
  len (header_bytes h) = HeaderLen.
Proof. intros. unfold header_bytes, HeaderLen. llia. Qed.

Lemma MarshalTo_bytes h dst : len (InitiatorSPI h) = 8 → len (ResponderSPI h) = 8 →
  MarshalTo h dst = dst ++ header_bytes h.
Proof.
  intros H1 H2. unfold MarshalTo, header_bytes.
  destruct (len8_inv _ H1) as (?&?&?&?&?&?&?&?&->).
  destruct (len8_inv _ H2) as (?&?&?&?&?&?&?&?&->).
  rewrite !splice_app_r, Z.sub_diag, !Z.add_simpl_l by lia. reflexivity.
Qed.

Lemma ParseHeader_fine b : fine (ParseHeader b).
Proof.
  unfold ParseHeader, HeaderLen. fine_solve.
Qed.

Lemma ParseSkfHeader_fine b : fine (ParseSkfHeader b).
Proof. unfold ParseSkfHeader, SkfHeaderLen. fine_solve. Qed.
#[export] Hint Resolve ParseHeader_fine ParseSkfHeader_fine : go.

(** A well-formed header in front of [rest] is parsed back; bytes after the
    declared length are ignored. *)
Lemma ParseHeader_header_bytes h rest extra :
  header_wf h → Version h = IKEDefaultVersion → Z.ldiff (Flags h) flagsMask = 0 →
  Length h = HeaderLen + len rest →
  ParseHeader (header_bytes h ++ rest ++ extra) = Ok (h, rest).
Proof.
  intros W Hv Hf Hl. destruct W. pose proof (len_nonneg rest). pose proof (len_nonneg extra).
  destruct h as [isp rsp np ve ex fl mid ln]; simpl in *. unfold HeaderLen in *.
  destruct (len8_inv _ wf_ispi0) as (i0&i1&i2&i3&i4&i5&i6&i7&->).
  destruct (len8_inv _ wf_rspi0) as (r0&r1&r2&r3&r4&r5&r6&r7&->).
  unfold ParseHeader, header_bytes, HeaderLen; cbn [InitiatorSPI ResponderSPI NextPayload
    Version ExchangeType Flags MessageID Length].
  set (b := (_ ++ rest ++ extra)).
  assert (Hb : len b = 28 + len rest + len extra) by (subst b; llia).
  replace (len b <? 28) with false by lia.
  rewrite (slice_eq b 24 28 (putUint32 ln)) by (lia || reflexivity). run.
  rewrite beUint32_put' by done. run.
  replace (ln <? 28) with false by lia. replace (len b <? ln) with false by lia.
  rewrite (slice_eq b 0 8 [i0;i1;i2;i3;i4;i5;i6;i7]) by (lia || reflexivity). run.
  rewrite (slice_eq b 8 16 [r0;r1;r2;r3;r4;r5;r6;r7]) by (lia || reflexivity). run.
  replace (b.[16]) with (Ok (u8 np)) by reflexivity.
  replace (b.[17]) with (Ok ve) by reflexivity.
  replace (b.[18]) with (Ok (u8 ex)) by reflexivity.
  replace (b.[19]) with (Ok (u8 fl)) by reflexivity. run.
  rewrite (slice_eq b 20 24 (putUint32 mid)) by (lia || reflexivity). run.
  rewrite beUint32_put' by done. run. cbn [Version Flags].
  rewrite !u8_small, Hv, Hf by done. cbn [negb Z.eqb].
  assert (slice b 28 ln = Ok rest) as -> by (subst b; apply slice_mid; llia).
  run. unfold u32. by rewrite Z.mod_small.
Qed.

(** What a successful [ParseHeader] says about its input. *)
Lemma ParseHeader_inv b h rest : bytes b → ParseHeader b = Ok (h, rest) →
  header_wf h ∧ Version h = IKEDefaultVersion ∧ Z.ldiff (Flags h) flagsMask = 0 ∧
  Length h = HeaderLen + len rest ∧ bytes rest ∧
  b = header_bytes h ++ rest ++ drop (Z.to_nat (Length h)) b.
Proof.
  intros Hb H. unfold ParseHeader in H. inv_ok. simpl in *.
  bytes_facts. slice_facts.
  match goal with E : slice b 24 28 = Ok ?s, E' : beUint32 ?s = Ok ?v |- _ =>
    rename v into ln; rename E into El; rename E' into Eln end.
  assert (Hu : u32 ln = ln) by (unfold u32; apply Z.mod_small; lia).
  split_and!; try done; try lia.
  - constructor; simpl; try done; lia.
  - unfold header_bytes; cbn [InitiatorSPI ResponderSPI NextPayload Version ExchangeType
      Flags MessageID Length].
    rewrite Hu, !u8_small by done.
    repeat match goal with E : beUint32 ?s = Ok ?v |- context [putUint32 ?v] =>
      rewrite (putUint32_inv s v) by (done || lia) end.
    change b with (drop (Z.to_nat 0) b) at 1.
    erewrite slice_drop, slice_drop, idx_drop, idx_drop, idx_drop, idx_drop, slice_drop,
      slice_drop, slice_drop by eassumption.
    by rewrite <- !app_assoc.
Qed.

(* ------------------------------------------------------------------ *)
(** ** Payload chain *)

Lemma ParsePayloads_step_fine stop s : fine (ParsePayloads_step stop s).
Proof.
  destruct s as [[rest next] ps]. unfold ParsePayloads_step, PayloadHeaderLen. fine_solve.
Qed.

(** Every iteration that continues drops the header and body it parsed. *)
Lemma ParsePayloads_step_shrinks stop rest next ps rest' next' ps' :
  ParsePayloads_step stop (rest, next, ps) = Ok (inl (rest', next', ps')) →
  (length rest' < length rest)%nat.
Proof.
  unfold ParsePayloads_step, PayloadHeaderLen, slice_from. intros H. inv_ok. slice_facts.
  unfold len in *. lia.
Qed.

Lemma ParsePayloads_fine b first stop : fine (ParsePayloads b first stop).
Proof.
  apply (loop_fine (λ _, True) (λ s, length s.1.1)); simpl; auto using ParsePayloads_step_fine.
  intros [[rest next] ps] [[rest' next'] ps'] _ H. split; [done|].
  by eapply ParsePayloads_step_shrinks.
Qed.
#[export] Hint Resolve ParsePayloads_fine : go.

Lemma ParseMessage_fine b : fine (ParseMessage b).
Proof. unfold ParseMessage. fine_solve. Qed.
#[export] Hint Resolve ParseMessage_fine : go.

(** One payload on the wire: generic header with next-payload [nxt], then the
    body. *)
Definition payload_bytes (critical : bool) (body : list Z) (nxt : Z) : list Z :=
  [nxt; if critical then 128 else 0] ++ putUint16 (PayloadHeaderLen + len body) ++ body.

(** A payload as the callers of [Push] give it: type, critical bit, body. *)
Abbreviation outgoing := (Z * bool * list Z)%type.

Definition first_type (ps : list outgoing) (nxt : Z) : Z :=
  match ps with [] => nxt | (t, _, _) :: _ => t end.

(** A chain whose last payload announces [nxt]. *)
Fixpoint chain_bytes (ps : list outgoing) (nxt : Z) : list Z :=
  match ps with
  | [] => []
  | (_, c, body) :: ps => payload_bytes c body (first_type ps nxt) ++ chain_bytes ps nxt
  end.

(** The same chain as the parser reports it. *)
Fixpoint chain_payloads (ps : list outgoing) (nxt : Z) : list Payload :=
  match ps with
  | [] => []
  | (t, c, body) :: ps =>
      {| Payload_Type := t; Critical := c; Next := first_type ps nxt; Body := body |}
      :: chain_payloads ps nxt
  end.

(** A payload that can sit inside a chain: a type other than None, SK and SKF
    (those end the chain) and a body that fits the 16-bit length. *)
Definition outgoing_wf (p : outgoing) : Prop :=
  let '(t, _, body) := p in
  is_byte t ∧ t ≠ PayloadTypeNone ∧ t ≠ PayloadTypeSK ∧ t ≠ PayloadTypeSKF ∧
  PayloadHeaderLen + len body < 2 ^ 16.

Lemma first_type_app ps qs nxt :
  first_type (ps ++ qs) nxt = first_type ps (first_type qs nxt).
Proof. by destruct ps as [|[[??]?] ?]. Qed.

Lemma chain_bytes_app ps qs nxt :
  chain_bytes (ps ++ qs) nxt = chain_bytes ps (first_type qs nxt) ++ chain_bytes qs nxt.
Proof.
  induction ps as [|[[t c] body] ps IH]; [done|]. cbn [chain_bytes app].
  by rewrite first_type_app, IH, app_assoc.
Qed.

Lemma len_payload_bytes c body nxt :
  len (payload_bytes c body nxt) = PayloadHeaderLen + len body.
Proof. unfold payload_bytes, PayloadHeaderLen. llia. Qed.

Lemma len_chain_bytes ps n n' : len (chain_bytes ps n) = len (chain_bytes ps n').
Proof.
  induction ps as [|[[t c] body] ps IH]; [done|]. cbn [chain_bytes].
  rewrite !len_app, !len_payload_bytes. lia.
Qed.

(** One iteration of the walk over a well-formed payload. *)
Lemma ParsePayloads_step_payload stop t c body nxt rest acc :
  outgoing_wf (t, c, body) → is_byte nxt →
  ParsePayloads_step stop (payload_bytes c body nxt ++ rest, t, acc)
  = Ok (inl (rest, nxt, acc ++ [{| Payload_Type := t; Critical := c; Next := nxt;
                                   Body := body |}])).
Proof.
  intros (Ht & Hn & Hsk & Hskf & Hl) Hx. pose proof (len_nonneg body). pose proof (len_nonneg rest).
  unfold ParsePayloads_step.
  replace (t =? PayloadTypeNone) with false by (symmetry; by apply Z.eqb_neq).
  set (b := payload_bytes c body nxt ++ rest).
  assert (Hb : len b = 4 + len body + len rest).
  { subst b. rewrite len_app, len_payload_bytes. unfold PayloadHeaderLen. lia. }
  unfold PayloadHeaderLen in *. replace (len b <? 4) with false by lia.
  replace (b.[0]) with (Ok nxt) by reflexivity.
  replace (b.[1]) with (Ok (if c then 128 else 0)) by reflexivity. run.
  rewrite (slice_eq b 2 4 (putUint16 (4 + len body))) by (lia || reflexivity). run.
  rewrite beUint16_put' by lia. run.
  replace (4 + len body <? 4) with false by lia.
  replace (len b <? 4 + len body) with false by lia.
  assert (slice b 4 (4 + len body) = Ok body) as ->.
  { subst b. unfold payload_bytes. rewrite <- !app_assoc, (app_assoc [nxt; _]).
    apply slice_mid; llia. }
  run. replace ((t =? PayloadTypeSK) || (t =? PayloadTypeSKF)) with false.
  2: { symmetry. apply orb_false_iff. split; by apply Z.eqb_neq. }
  assert (slice_from b (4 + len body) = Ok rest) as ->.
  { apply slice_from_suffix. by rewrite len_payload_bytes. }
  run. by destruct c.
Qed.

(** The walk over a well-formed prefix of a chain. *)
Lemma ParsePayloads_prefix stop ps nxt rest acc fuel :
  Forall outgoing_wf ps → is_byte nxt →
  loop (length ps + fuel) (ParsePayloads_step stop)
    (chain_bytes ps nxt ++ rest, first_type ps nxt, acc)
  = loop fuel (ParsePayloads_step stop) (rest, nxt, acc ++ chain_payloads ps nxt).
Proof.
  intros Hps Hn. revert acc. induction Hps as [|[[t c] body] ps Hp Hps IH]; intros acc.
  - simpl. by rewrite app_nil_r.
  - cbn [length Nat.add]. rewrite loop_S. cbn [chain_bytes first_type].
    rewrite <- app_assoc, ParsePayloads_step_payload; [|done|].
    2: { destruct ps as [|[[t' ?] ?] ?]; [done|]. by apply Forall_cons in Hps as [(?&_) _]. }
    run. rewrite IH. cbn [chain_payloads]. by rewrite <- app_assoc.
Qed.

Lemma length_chain_bytes ps nxt : (length ps <= length (chain_bytes ps nxt))%nat.
Proof.
  induction ps as [|[[t c] body] ps IH]; simpl; [lia|]. rewrite !length_app. simpl. lia.
Qed.

(** Enough fuel for a walk. *)
Lemma ParsePayloads_loop b first stop fuel :
  loop fuel (ParsePayloads_step stop) (b, first, []) ≠ Hang →
  ParsePayloads b first stop = loop fuel (ParsePayloads_step stop) (b, first, []).
Proof.
  intros H. pose proof (ParsePayloads_fine b first stop) as F. unfold ParsePayloads in *.
  destruct (Nat.le_ge_cases fuel (S (length b))).
  - by apply loop_mono.
  - symmetry. apply loop_mono; [done|]. by intros E; rewrite E in F.
Qed.

Lemma ParsePayloads_chain ps stop :
  Forall outgoing_wf ps →
  ParsePayloads (chain_bytes ps PayloadTypeNone) (first_type ps PayloadTypeNone) stop
  = Ok (chain_payloads ps PayloadTypeNone, None).
Proof.
  intros Hps. pose proof (ParsePayloads_prefix stop ps PayloadTypeNone [] [] 1 Hps) as E.
  rewrite app_nil_r in E. rewrite (ParsePayloads_loop _ _ _ (length ps + 1)); rewrite E; done.
Qed.

(* ------------------------------------------------------------------ *)
(** ** Builder *)

Definition with_next (h : Header) (np : Z) : Header :=
  {| InitiatorSPI := InitiatorSPI h; ResponderSPI := ResponderSPI h; NextPayload := np;
     Version := Version h; ExchangeType := ExchangeType h; Flags := Flags h;
     MessageID := MessageID h; Length := Length h |}.

Definition with_length (h : Header) (n : Z) : Header :=
  {| InitiatorSPI := InitiatorSPI h; ResponderSPI := ResponderSPI h;
     NextPayload := NextPayload h;
     Version := Version h; ExchangeType := ExchangeType h; Flags := Flags h;
     MessageID := MessageID h; Length := n |}.

(** Stores into the header of a packet. *)
Lemma splice_header_next h rest v : len (InitiatorSPI h) = 8 → len (ResponderSPI h) = 8 →
  splice (header_bytes h ++ rest) 16 [u8 v] = header_bytes (with_next h v) ++ rest.
Proof.
  intros H1 H2. rewrite splice_app_l by (rewrite ?len_header_bytes by done; unfold HeaderLen; llia).
  unfold header_bytes. cbn.
  destruct (len8_inv _ H1) as (?&?&?&?&?&?&?&?&->).
  by destruct (len8_inv _ H2) as (?&?&?&?&?&?&?&?&->).
Qed.

Lemma splice_header_length h rest v : len (InitiatorSPI h) = 8 → len (ResponderSPI h) = 8 →
  splice (header_bytes h ++ rest) 24 (putUint32 v) = header_bytes (with_length h v) ++ rest.
Proof.
  intros H1 H2. rewrite splice_app_l by (rewrite ?len_header_bytes by done; unfold HeaderLen; llia).
  unfold header_bytes. cbn.
  destruct (len8_inv _ H1) as (?&?&?&?&?&?&?&?&->).
  by destruct (len8_inv _ H2) as (?&?&?&?&?&?&?&?&->).
Qed.

(** The offset of the next-payload field the next [Push] rewrites. *)
Definition next_offset (ps : list outgoing) : Z :=
  match last ps with
  | None => 16
  | Some _ => HeaderLen + len (chain_bytes (removelast ps) PayloadTypeNone)
  end.

(** The builder after the payloads [ps] were pushed onto the header [h]. *)
Record built (h : Header) (ps : list outgoing) (b : Builder) : Prop := {
  built_buf : buf b = header_bytes (with_next h (first_type ps (NextPayload h)))
                      ++ chain_bytes ps PayloadTypeNone;
  built_first : FirstPayload b = first_type ps PayloadTypeNone;
  built_set : firstSet b = bool_decide (ps ≠ []);
  built_off : lastNextOffset b = next_offset ps }.

Lemma NewBuilder_built h : len (InitiatorSPI h) = 8 → len (ResponderSPI h) = 8 →
  built h [] (NewBuilder h).
Proof.
  intros. constructor; try done. simpl. rewrite MarshalTo_bytes by done.
  rewrite app_nil_r. by destruct h.
Qed.

(** Rewiring the previous next-payload field. *)
Lemma splice_next h ps t rest :
  len (InitiatorSPI h) = 8 → len (ResponderSPI h) = 8 → is_byte t →
  splice (header_bytes (with_next h (first_type ps (NextPayload h)))
          ++ chain_bytes ps PayloadTypeNone ++ rest) (next_offset ps) [u8 t]
  = header_bytes (with_next h (first_type ps t)) ++ chain_bytes ps t ++ rest.
Proof.
  intros H1 H2 Ht. unfold next_offset.
  destruct ps as [|[[t0 c0] b0] ps0 _] using rev_ind.
  { simpl. rewrite splice_header_next by done. done. }
  rewrite last_snoc, removelast_last, !chain_bytes_app, !first_type_app. cbn [first_type chain_bytes].
  rewrite !app_nil_r, <- !app_assoc.
  rewrite (app_assoc (header_bytes _)). rewrite splice_app_r.
  2: { rewrite len_app, len_header_bytes by done. by rewrite (len_chain_bytes _ t0 PayloadTypeNone). }
  rewrite len_app, len_header_bytes by done.
  rewrite (len_chain_bytes _ t0 PayloadTypeNone), Z.sub_diag, u8_small by done.
  by rewrite <- app_assoc.
Qed.

Lemma Push_built h ps b t c body b' :
  len (InitiatorSPI h) = 8 → len (ResponderSPI h) = 8 → is_byte t →
  built h ps b → Push b t c body = Ok b' →
  built h (ps ++ [(t, c, body)]) b' ∧ PayloadHeaderLen + len body < 2 ^ 16
  ∧ t ≠ PayloadTypeNone ∧ len (buf b') <= 65535 + HeaderLen.
Proof.
  intros H1 H2 Ht [Hbuf Hfirst Hset Hoff]. unfold Push. cbv zeta.
  destruct (t =? PayloadTypeNone) eqn:En; [done|].
  destruct (65535 <? PayloadHeaderLen + len body) eqn:El; [done|].
  destruct (65535 + HeaderLen <? _) eqn:Ep; [done|].
  intros H. injection H as Eb.
  assert (Hu : u16 (PayloadHeaderLen + len body) = PayloadHeaderLen + len body).
  { unfold u16. apply Z.mod_small. unfold PayloadHeaderLen in *. llia. }
  assert (Hpos : 0 <= next_offset ps).
  { unfold next_offset, HeaderLen. destruct (last ps); llia. }
  assert (Hb' : buf b' = header_bytes (with_next h (first_type ps t))
            ++ chain_bytes ps t ++ payload_bytes c body PayloadTypeNone).
  { subst b'; simpl. replace (0 <=? lastNextOffset b) with true by (rewrite Hoff; lia).
    rewrite !splice_app_r, Z.sub_diag, !Z.add_simpl_l by lia.
    rewrite Hbuf, Hoff, Hu, <- !app_assoc, splice_next by done.
    rewrite <- !app_assoc. unfold payload_bytes. done. }
  split_and!; [constructor|..].
  - rewrite Hb', chain_bytes_app, first_type_app. cbn [chain_bytes first_type].
    by rewrite app_nil_r.
  - subst b'. unfold FirstPayload in *. cbn [firstSet first negb]. rewrite first_type_app.
    destruct (firstSet b) eqn:E; cbn in *; [by rewrite Hfirst; destruct ps as [|[[]]]|].
    by destruct ps.
  - subst b'. simpl. symmetry. apply bool_decide_eq_true. by destruct ps.
  - subst b'. cbn [lastNextOffset]. unfold next_offset at 1. rewrite last_snoc, removelast_last.
    rewrite Hbuf, len_app, len_header_bytes; done.
  - unfold PayloadHeaderLen in *. lia.
  - by apply Z.eqb_neq.
  - rewrite Hb'. rewrite Hbuf in *. rewrite !len_app, !len_header_bytes in * by done.
    rewrite len_payload_bytes, (len_chain_bytes _ t PayloadTypeNone). lia.
Qed.

Lemma PushAll_built h ps0 b ps b' :
  len (InitiatorSPI h) = 8 → len (ResponderSPI h) = 8 →
  Forall (λ p : outgoing, is_byte p.1.1 ∧ p.1.1 ≠ PayloadTypeSK ∧ p.1.1 ≠ PayloadTypeSKF) ps →
  built h ps0 b → Forall outgoing_wf ps0 → len (buf b) <= 65535 + HeaderLen →
  PushAll b ps = Ok b' →
  built h (ps0 ++ ps) b' ∧ Forall outgoing_wf (ps0 ++ ps) ∧ len (buf b') <= 65535 + HeaderLen.
Proof.
  intros H1 H2 Hps. revert ps0 b. induction Hps as [|[[t c] body] ps (Ht&Hs&Hf) Hps IH];
    intros ps0 b Hb Hw Hl; cbn [PushAll]; intros H.
  - injection H as <-. rewrite app_nil_r. done.
  - apply bind_Ok in H as (b1 & E & H).
    destruct (Push_built _ _ _ _ _ _ _ H1 H2 Ht Hb E) as (Hb1 & ? & ? & ?).
    rewrite cons_middle, app_assoc. apply (IH _ b1); [done| |done|done].
    apply Forall_app. split; [done|]. repeat constructor; try done; apply Ht.
Qed.

Lemma Finish_built h ps b :
  len (InitiatorSPI h) = 8 → len (ResponderSPI h) = 8 →
  built h ps b → len (buf b) <= 65535 + HeaderLen →
  Finish b = header_bytes (with_length (with_next h (first_type ps PayloadTypeNone))
                             (HeaderLen + len (chain_bytes ps PayloadTypeNone)))
             ++ chain_bytes ps PayloadTypeNone.
Proof.
  intros H1 H2 [Hbuf Hfirst _ _] Hl. unfold Finish, PatchLength. cbn [buf].
  unfold FirstPayload in Hfirst.
  rewrite Hbuf. change (FirstPayload _) with (if negb (firstSet b) then PayloadTypeNone else first b).
  rewrite Hfirst, splice_header_next by done. rewrite splice_header_length by done.
  do 3 f_equal. rewrite len_app, len_header_bytes by done.
  unfold u32. apply Z.mod_small. rewrite Hbuf, len_app, len_header_bytes in Hl by done.
  unfold HeaderLen in *. llia.
Qed.

(** Fixed and payload part of what the parser keeps of a packet. *)
Definition critical_flag (flag : Z) : bool := negb (Z.land flag 128 =? 0).

(** A parsed payload with the flag byte it was read with. *)
Definition raw_payload (flag : Z) (p : Payload) : list Z :=
  [Next p; flag] ++ putUint16 (PayloadHeaderLen + len (Body p)) ++ Body p.

Definition skf_bytes (e : EncryptedPayload) : list Z :=
  if Fragmented e
  then putUint16 (FragmentNumber (Frag e)) ++ putUint16 (TotalFragments (Frag e)) else [].

(** The terminal SK/SKF payload, up to its protected body. *)
Definition raw_enc_header (flag : Z) (e : EncryptedPayload) : list Z :=
  [InnerNext e; flag] ++
  putUint16 (PayloadHeaderLen + len (skf_bytes e) + len (Enc_Body e)) ++ skf_bytes e.

Definition raw_tail (flag : Z) (enc : option EncryptedPayload) : list Z :=
  match enc with None => [] | Some e => raw_enc_header flag e ++ Enc_Body e end.

(** Each payload is of the type its predecessor announced. *)
Fixpoint chained (next : Z) (ps : list Payload) (enc : option EncryptedPayload) : Prop :=
  match ps with
  | [] => next = match enc with None => PayloadTypeNone | Some e => Enc_Type e end
  | p :: ps => Payload_Type p = next ∧ chained (Next p) ps enc
  end.

Lemma ParseSkfHeader_inv b f rest : bytes b → ParseSkfHeader b = Ok (f, rest) →
  b = putUint16 (FragmentNumber f) ++ putUint16 (TotalFragments f) ++ rest ∧
  1 <= FragmentNumber f <= TotalFragments f ∧ TotalFragments f < 2 ^ 16 ∧ bytes rest.
Proof.
  intros Hb H. unfold ParseSkfHeader, slice_from, SkfHeaderLen in H. inv_ok. bytes_facts.
  slice_facts. cbn [FragmentNumber TotalFragments].
  repeat match goal with E : beUint16 ?s = Ok ?v |- context [putUint16 ?v] =>
    rewrite (putUint16_inv s v) by (done || lia) end.
  split_and!; try lia; [|done].
  change b with (drop (Z.to_nat 0) b) at 1.
  erewrite slice_drop, slice_drop, slice_drop by eassumption.
  rewrite drop_ge, app_nil_r; [done|]. unfold len. lia.
Qed.

(** What one continuing iteration consumed. *)
Lemma ParsePayloads_step_inv stop rest next ps rest' next' ps' :
  bytes rest → ParsePayloads_step stop (rest, next, ps) = Ok (inl (rest', next', ps')) →
  ∃ flag p, ps' = ps ++ [p] ∧ rest = raw_payload flag p ++ rest' ∧ is_byte flag ∧
    Payload_Type p = next ∧ Next p = next' ∧ Critical p = critical_flag flag ∧ bytes rest' ∧
    PayloadHeaderLen + len (Body p) < 2 ^ 16 ∧ is_byte next'.
Proof.
  intros Hb H. unfold ParsePayloads_step, slice_from, PayloadHeaderLen in H. inv_ok.
  bytes_facts. slice_facts.
  match goal with E : idx rest 1 = Ok ?v |- _ => exists v end. eexists. split; [done|].
  unfold raw_payload, PayloadHeaderLen. cbn [Next Body Critical Payload_Type].
  split_and!; try done; try lia.
  match goal with E : beUint16 ?s = Ok ?v, Hl : len ?bd = ?v - 4 |- context [putUint16 (4 + len ?bd)] =>
    replace (4 + len bd) with v by lia; rewrite (putUint16_inv s v) by (done || lia) end.
  change rest with (drop (Z.to_nat 0) rest) at 1.
  erewrite idx_drop, idx_drop, slice_drop, slice_drop, slice_drop by eassumption.
  rewrite (drop_ge rest) by (unfold len; lia). by rewrite app_nil_r, <- !app_assoc.
Qed.

(** What the final iteration consumed. *)
Lemma ParsePayloads_step_end stop rest next acc ps enc :
  bytes rest → ParsePayloads_step stop (rest, next, acc) = Ok (inr (ps, enc)) →
  ps = acc ∧ ∃ flag, is_byte flag ∧ rest = raw_tail flag enc ∧ chained next [] enc.
Proof.
  intros Hb H. unfold ParsePayloads_step, slice_from, PayloadHeaderLen in H. inv_ok.
  - split; [done|]. exists 0. split_and!; [done| |].
    + apply len_0_inv. lia.
    + simpl. lia.
  - bytes_facts. slice_facts. split; [done|].
    match goal with E : idx rest 1 = Ok ?v |- _ => exists v; split; [done|] end.
    match goal with E : ParseSkfHeader ?bd = Ok _ |- _ =>
      destruct (ParseSkfHeader_inv bd _ _ ltac:(done) E) as (-> & Hf & Ht & ?) end.
    split; [|done]. unfold raw_tail, raw_enc_header, skf_bytes, PayloadHeaderLen.
    cbn [InnerNext Fragmented Frag Enc_Body].
    autorewrite with len in *.
    match goal with E : beUint16 ?s = Ok ?v |- context [putUint16 (?x + len ?y)] =>
      replace (x + len y) with v by lia; rewrite (putUint16_inv s v) by (done || lia) end.
    change rest with (drop (Z.to_nat 0) rest) at 1.
    erewrite idx_drop, idx_drop, slice_drop, slice_drop by eassumption.
    rewrite (drop_ge rest) by (unfold len in *; lia). by rewrite app_nil_r, <- !app_assoc.
  - bytes_facts. slice_facts. split; [done|].
    match goal with E : idx rest 1 = Ok ?v |- _ => exists v; split; [done|] end.
    split; [|done]. unfold raw_tail, raw_enc_header, skf_bytes, PayloadHeaderLen.
    cbn [InnerNext Fragmented Frag Enc_Body]. rewrite len_nil, app_nil_r.
    match goal with E : beUint16 ?s = Ok ?v |- context [putUint16 (?x + len ?y)] =>
      replace (x + len y) with v by lia; rewrite (putUint16_inv s v) by (done || lia) end.
    change rest with (drop (Z.to_nat 0) rest) at 1.
    erewrite idx_drop, idx_drop, slice_drop, slice_drop by eassumption.
    rewrite (drop_ge rest) by (unfold len in *; lia). by rewrite app_nil_r, <- !app_assoc.
Qed.

(** A parsed chain accounts for every byte of its input. *)
Lemma ParsePayloads_lossless b first stop ps enc :
  bytes b → ParsePayloads b first stop = Ok (ps, enc) →
  ∃ flags flag, length flags = length ps ∧ is_byte flag ∧
    Forall2 (λ f p, is_byte f ∧ Critical p = critical_flag f) flags ps ∧
    chained first ps enc ∧
    Forall (λ p, PayloadHeaderLen + len (Body p) < 2 ^ 16) ps ∧
    b = concat (zip_with raw_payload flags ps) ++ raw_tail flag enc.
Proof.
  intros Hb H. unfold ParsePayloads in H.
  cut (∃ new flags flag, ps = [] ++ new ∧ length flags = length new ∧ is_byte flag ∧
    Forall2 (λ f p, is_byte f ∧ Critical p = critical_flag f) flags new ∧
    chained first new enc ∧
    Forall (λ p, PayloadHeaderLen + len (Body p) < 2 ^ 16) new ∧
    b = concat (zip_with raw_payload flags new) ++ raw_tail flag enc).
  { intros (new & flags & flag & -> & ?). by exists flags, flag. }
  revert Hb. change (bytes b) with (bytes (b, first, @nil Payload).1.1).
  refine (loop_ind (ParsePayloads_step stop)
    (λ s r, bytes s.1.1 → ∃ new flags flag, r.1 = s.2 ++ new ∧ length flags = length new ∧
      is_byte flag ∧ Forall2 (λ f p, is_byte f ∧ Critical p = critical_flag f) flags new ∧
      chained s.1.2 new r.2 ∧ Forall (λ p, PayloadHeaderLen + len (Body p) < 2 ^ 16) new ∧
      s.1.1 = concat (zip_with raw_payload flags new) ++ raw_tail flag r.2)
    _ _ _ _ _ H); clear H b first ps enc.
  - intros [[rest next] acc] [ps enc] E Hb. simpl in *.
    destruct (ParsePayloads_step_end _ _ _ _ _ _ Hb E) as (-> & flag & ? & -> & ?).
    exists [], [], flag. rewrite app_nil_r. by split_and!.
  - intros [[rest next] acc] [[rest' next'] acc'] [ps enc] E IH Hb. simpl in *.
    destruct (ParsePayloads_step_inv _ _ _ _ _ _ _ Hb E)
      as (f & p & -> & -> & Hf & <- & <- & Hc & Hr & Hl & _).
    destruct (IH Hr) as (new & flags & flag & -> & Hlen & Hfl & Hall & Hch & Hlens & ->).
    exists (p :: new), (f :: flags), flag. simpl. rewrite <- !app_assoc. simpl.
    split_and!; auto; by constructor.
Qed.

Lemma ParseMessage_Finish h ps b :
  header_wf h → Version h = IKEDefaultVersion → Z.ldiff (Flags h) flagsMask = 0 →
  Forall (λ p : outgoing, is_byte p.1.1 ∧ p.1.1 ≠ PayloadTypeSK ∧ p.1.1 ≠ PayloadTypeSKF) ps →
  PushAll (NewBuilder h) ps = Ok b →
  ParseMessage (Finish b) =
    Ok {| Msg_Header := with_length (with_next h (first_type ps PayloadTypeNone))
                          (len (Finish b));
          Payloads := chain_payloads ps PayloadTypeNone; Encrypted := None |}.
Proof.
  intros W Hv Hf Hps H. pose proof (wf_ispi h W) as H1. pose proof (wf_rspi h W) as H2.
  assert (Hl0 : len (buf (NewBuilder h)) <= 65535 + HeaderLen).
  { simpl. rewrite MarshalTo_bytes, len_app, len_header_bytes by done. done. }
  destruct (PushAll_built h [] _ ps b H1 H2 Hps (NewBuilder_built h H1 H2)
    ltac:(constructor) Hl0 H) as (Hb & Hwf & Hl).
  simpl in Hb, Hwf. rewrite (Finish_built h ps b) by done.
  rewrite len_app, len_header_bytes by done.
  assert (Hc : HeaderLen + len (chain_bytes ps PayloadTypeNone) <= 65535 + HeaderLen).
  { rewrite (built_buf _ _ _ Hb), len_app, len_header_bytes in Hl by done. done. }
  unfold ParseMessage.
  rewrite <- (app_nil_r (chain_bytes ps _)) at 2. rewrite ParseHeader_header_bytes; simpl; try done.
  2: { destruct W. constructor; simpl; try done.
       - destruct ps as [|[[t c] body] ps]; [done|]. by apply Forall_cons in Hps as [(?&?&?) _].
       - unfold HeaderLen in *. llia. }
  by rewrite ParsePayloads_chain by done.
Qed.

(* ------------------------------------------------------------------ *)
(** ** Properties *)

(** The parser of inbound IKE datagrams returns, with a message or an
    error, on every byte string: no index or slice expression is out of range
    and the chain walk terminates. *)
Theorem ParseMessage_total (b : list Z) :
  (∃ m, ParseMessage b = Ok m) ∨ (∃ e, ParseMessage b = Err e).
Proof. pose proof (ParseMessage_fine b). destruct (ParseMessage b); naive_solver. Qed.

(** Header round trip: what [MarshalTo] appends is parsed back to the same
    header and the bytes that follow up to the declared length. *)
Theorem header_roundtrip (h : Header) (rest extra : list Z) :
  header_wf h → Version h = IKEDefaultVersion → Z.ldiff (Flags h) flagsMask = 0 →
  Length h = HeaderLen + len rest →
  ParseHeader (MarshalTo h [] ++ rest ++ extra) = Ok (h, rest).
Proof.
  intros W. intros. rewrite MarshalTo_bytes by apply W. by apply ParseHeader_header_bytes.
Qed.

(** Conversely every accepted datagram starts with exactly the bytes
    [MarshalTo] writes for the parsed header, followed by the returned rest. *)
Theorem header_canonical (b : list Z) (h : Header) (rest : list Z) :
  bytes b → ParseHeader b = Ok (h, rest) →
  take (Z.to_nat (Length h)) b = MarshalTo h [] ++ rest.
Proof.
  intros Hb H. destruct (ParseHeader_inv b h rest Hb H) as (W & _ & _ & Hl & _ & E).
  rewrite MarshalTo_bytes by apply W. simpl. rewrite E at 1. rewrite app_assoc.
  apply take_app_length'. destruct W.
  pose proof (len_header_bytes h ltac:(done) ltac:(done)). rewrite length_app.
  unfold len, HeaderLen in *. lia.
Qed.

(** [C38] Whatever sequence of payloads is pushed successfully onto a builder,
    the finished packet is parsed back to exactly these payloads, in order and
    correctly chained, with the header completed by first payload and length. *)
Theorem builder_roundtrip (h : Header) (ps : list outgoing) (b : Builder) :
  header_wf h → Version h = IKEDefaultVersion → Z.ldiff (Flags h) flagsMask = 0 →
  Forall (λ p : outgoing, is_byte p.1.1 ∧ p.1.1 ≠ PayloadTypeSK ∧ p.1.1 ≠ PayloadTypeSKF) ps →
  PushAll (NewBuilder h) ps = Ok b →
  ParseMessage (Finish b) =
    Ok {| Msg_Header := with_length (with_next h (first_type ps PayloadTypeNone))
                          (len (Finish b));
          Payloads := chain_payloads ps PayloadTypeNone; Encrypted := None |}.
Proof. exact (ParseMessage_Finish h ps b). Qed.

Definition sample_header : Header :=
  {| InitiatorSPI := [1;2;3;4;5;6;7;8]; ResponderSPI := [0;0;0;0;0;0;0;0]; NextPayload := 0;
     Version := 32; ExchangeType := 34; Flags := 8; MessageID := 0; Length := 28 |}.

Lemma sample_header_wf : header_wf sample_header.
Proof. by constructor; try apply (bool_decide_unpack _). Qed.

Lemma header_roundtrip_witness :
  ParseHeader (MarshalTo sample_header [] ++ [] ++ [9]) = Ok (sample_header, []).
Proof.
  apply (header_roundtrip sample_header [] [9]); [apply sample_header_wf|reflexivity..].
Defined.

Lemma header_canonical_witness :
  take (Z.to_nat 28) (MarshalTo sample_header [] ++ [7]) = MarshalTo sample_header [] ++ [].
Proof.
  apply (header_canonical (MarshalTo sample_header [] ++ [7]) sample_header []).
  - by apply (bool_decide_unpack _).
  - by vm_compute.
Defined.

Lemma builder_roundtrip_witness :
  ∃ b, PushAll (NewBuilder sample_header) [(33, true, [1;2;3]); (40, false, [])] = Ok b ∧
  ParseMessage (Finish b) =
    Ok {| Msg_Header := with_length (with_next sample_header 33) (len (Finish b));
          Payloads := chain_payloads [(33, true, [1;2;3]); (40, false, [])] PayloadTypeNone;
          Encrypted := None |}.
Proof.
  eexists. split; [vm_compute; reflexivity|].
  apply (builder_roundtrip sample_header [(33, true, [1;2;3]); (40, false, [])]);
    [apply sample_header_wf|reflexivity|reflexivity| |vm_compute; reflexivity].
  by apply (bool_decide_unpack _).
Defined.
