(* ===== verification/Payload.v ===== *)
(** * Payload bodies (src/wire/payload)

    One encoder/decoder pair per IKEv2 payload body. Encoders append to a
    destination buffer and panic on inputs the wire cannot represent; decoders
    return an error on malformed bodies. The theorems show that all decoders
    return on every input, that encoders and decoders are inverse, and that
    the accepted SA and TS bodies satisfy the structural rules of RFC 7296. *)

From S2P Require Import Prelude Wire.

(* ------------------------------------------------------------------ *)
(** ** Constants (wire/payload/doc.go, wire/consts.go) *)

Definition ProposalHeaderLen : Z := 8.
Definition TransformHeaderLen : Z := 8.
Definition NotifyFixedLen : Z := 4.
Definition DeleteFixedLen : Z := 4.
Definition KeFixedLen : Z := 4.
Definition IDFixedLen : Z := 4.
Definition AuthFixedLen : Z := 4.
Definition ConfigFixedLen : Z := 4.
Definition ConfigAttrFixedLen : Z := 4.
Definition TsSelectorFixedLen : Z := 4.
Definition TsEntryFixedLen : Z := 8.

Definition NotifyProtocolNone : Z := 0.
Definition DeleteProtocolIKE : Z := 1.
Definition DeleteProtocolAH : Z := 2.
Definition DeleteProtocolESP : Z := 3.

Definition TransformChainLast : Z := 0.
Definition ProposalChainMore : Z := 2.
Definition TransformChainMore : Z := 3.
Definition TransformAttrKeyLength : Z := 14.
Definition TransformAttrFormatTV : Z := 32768.

Definition ConfigTypeRequest : Z := 1.
Definition ConfigTypeReply : Z := 2.
Definition ConfigTypeSet : Z := 3.
Definition ConfigTypeAck : Z := 4.
Definition ConfigAttrInternalIPv4Address : Z := 1.
Definition ConfigAttrInternalIPv4DNS : Z := 3.
Definition ConfigAttrInternalAddressExpiry : Z := 5.
Definition ConfigAttrInternalIPv6Address : Z := 8.
Definition ConfigAttrInternalIPv6DNS : Z := 10.

(* ------------------------------------------------------------------ *)
(** ** AUTH, CERT, ID, KE, NONCE *)

Record Auth := mkAuth { Auth_Method : Z; Auth_Data : list Z }.

Definition AppendAuth (dst : list Z) (a : Auth) : list Z :=
  (dst ++ [Auth_Method a; 0; 0; 0]) ++ Auth_Data a.

Definition ParseAuth (b : list Z) : res Auth :=
  if len b <? AuthFixedLen then Err "auth payload too short: %d bytes" else
  b1 ← b.[1]; b2 ← b.[2]; b3 ← b.[3];
  if negb (b1 =? 0) || negb (b2 =? 0) || negb (b3 =? 0) then
    Err "auth payload has non-zero reserved bytes"
  else
  m ← b.[0]; d ← slice_from b AuthFixedLen;
  Ok {| Auth_Method := m; Auth_Data := d |}.

Record Cert := mkCert { Cert_Encoding : Z; DER : list Z }.

Definition AppendCert (dst : list Z) (c : Cert) : list Z :=
  (dst ++ [Cert_Encoding c]) ++ DER c.

Definition ParseCert (b : list Z) : res Cert :=
  if len b <? 1 then Err "cert payload too short" else
  der ← slice_from b 1;
  if len der =? 0 then Err "cert payload is missing der data" else
  e ← b.[0];
  Ok {| Cert_Encoding := e; DER := der |}.

Record ID := mkID { ID_Type : Z; ID_Data : list Z }.

Definition AppendID (dst : list Z) (id : ID) : list Z :=
  (dst ++ [ID_Type id; 0; 0; 0]) ++ ID_Data id.

Definition ParseID (b : list Z) : res ID :=
  if len b <? IDFixedLen then Err "id payload too short: %d bytes" else
  data ← slice_from b IDFixedLen;
  if len data =? 0 then Err "id payload is missing identity data" else
  t ← b.[0];
  Ok {| ID_Type := t; ID_Data := data |}.

Record KeyExchange := mkKeyExchange { DHGroup : Z; KE_Data : list Z }.

Definition AppendKE (dst : list Z) (ke : KeyExchange) : list Z :=
  let start := len dst in
  let dst := dst ++ [0; 0; 0; 0] in
  let dst := splice dst start (putUint16 (DHGroup ke)) in
  dst ++ KE_Data ke.

Definition ParseKE (b : list Z) : res KeyExchange :=
  if len b <? KeFixedLen then Err "ke payload too short: %d bytes" else
  data ← slice_from b KeFixedLen;
  if len data =? 0 then Err "ke payload is missing public key data" else
  g ← b.[0, 2]; group ← beUint16 g;
  Ok {| DHGroup := group; KE_Data := data |}.

Definition AppendNonce (dst nonce : list Z) : list Z := dst ++ nonce.

Definition ParseNonce (b : list Z) : res (list Z) :=
  if len b =? 0 then Err "nonce payload is empty" else Ok b.

(* ------------------------------------------------------------------ *)
(** ** NOTIFY and DELETE *)

Record Notify := mkNotify {
  Notify_ProtocolID : Z; Notify_SPI : list Z; Notify_Type : Z; Notify_Data : list Z }.

Definition AppendNotify (dst : list Z) (n : Notify) : res (list Z) :=
  if 255 <? len (Notify_SPI n) then Panic else
  let start := len dst in
  let dst := dst ++ [Notify_ProtocolID n; u8 (len (Notify_SPI n)); 0; 0] in
  let dst := splice dst (start + 2) (putUint16 (Notify_Type n)) in
  let dst := dst ++ Notify_SPI n in
  Ok (dst ++ Notify_Data n).

Definition checkNotifyScope (protocolID spiLen : Z) : res unit :=
  if spiLen =? 0 then
    if negb (protocolID =? NotifyProtocolNone) && negb (protocolID =? DeleteProtocolIKE) then
      Err "notify without spi must use protocol 0 or ike, got %d"
    else Ok tt
  else if negb (protocolID =? DeleteProtocolAH) && negb (protocolID =? DeleteProtocolESP) then
    Err "notify with spi must target ah or esp, got %d"
  else Ok tt.

Definition ParseNotify (b : list Z) : res Notify :=
  if len b <? NotifyFixedLen then Err "notify payload too short: %d bytes" else
  spiSize ← b.[1];
  if len b <? NotifyFixedLen + spiSize then
    Err "notify payload spi exceeds remaining bytes"
  else
  proto ← b.[0];
  spi ← b.[NotifyFixedLen, NotifyFixedLen + spiSize];
  tf ← b.[2, 4]; typ ← beUint16 tf;
  data ← slice_from b (NotifyFixedLen + spiSize);
  let n := {| Notify_ProtocolID := proto; Notify_SPI := spi; Notify_Type := typ;
              Notify_Data := data |} in
  _ ← checkNotifyScope (Notify_ProtocolID n) (len (Notify_SPI n));
  Ok n.

Record Delete := mkDelete { Delete_ProtocolID : Z; SPIs : list Z }.

Definition AppendDelete (dst : list Z) (d : Delete) : res (list Z) :=
  _ ← (if Delete_ProtocolID d =? DeleteProtocolIKE then
         if negb (len (SPIs d) =? 0) then Panic else Ok tt
       else if Delete_ProtocolID d =? DeleteProtocolESP then
         if (len (SPIs d) =? 0) || (65535 <? len (SPIs d)) then Panic else Ok tt
       else Panic);
  let spiSize := if Delete_ProtocolID d =? DeleteProtocolESP then 4 else 0 in
  let start := len dst in
  let dst := dst ++ [Delete_ProtocolID d; spiSize; 0; 0] in
  let dst := splice dst (start + 2) (putUint16 (u16 (len (SPIs d)))) in
  Ok (foldl (λ dst spi,
        let dst := dst ++ [0; 0; 0; 0] in
        splice dst (len dst - 4) (putUint32 spi)) dst (SPIs d)).

(** The loop [for off := 4; off < len(b); off += 4]. *)
Definition ParseDelete_step (b : list Z) (s : Z * list Z) : res (Z * list Z + list Z) :=
  let '(off, spis) := s in
  if off <? len b then
    f ← b.[off, off + 4]; v ← beUint32 f;
    Ok (inl (off + 4, spis ++ [v]))
  else Ok (inr spis).

Definition ParseDelete (b : list Z) : res Delete :=
  if len b <? DeleteFixedLen then Err "delete payload too short: %d bytes" else
  protocolID ← b.[0];
  spiSize ← b.[1];
  cf ← b.[2, 4]; count ← beUint16 cf;
  _ ← (if protocolID =? DeleteProtocolIKE then
         if negb (spiSize =? 0) then Err "ike delete must not carry spi values"
         else if negb (count =? 0) then Err "ike delete must not carry spi count"
         else Ok tt
       else if protocolID =? DeleteProtocolESP then
         if negb (spiSize =? 4) then Err "esp delete must carry 4-byte spis, got size %d"
         else if count =? 0 then Err "esp delete must carry at least one spi"
         else Ok tt
       else Err "unsupported delete protocol %d");
  let expected := DeleteFixedLen + count * spiSize in
  if negb (len b =? expected) then
    Err "invalid delete payload length: declared %d, have %d"
  else
  spis ← loop (S (length b)) (ParseDelete_step b) (DeleteFixedLen, []);
  Ok {| Delete_ProtocolID := protocolID; SPIs := spis |}.

(* ------------------------------------------------------------------ *)
(** ** SA: transforms, proposals and key-length attributes *)

Record Transform := mkTransform { Transform_Type : Z; Transform_ID : Z; Attrs : list Z }.

Record Proposal := mkProposal {
  Num : Z; ProtocolID : Z; Proposal_SPI : list Z; Transforms : list Transform }.

Definition AppendTransform (dst : list Z) (t : Transform) (last : bool) : res (list Z) :=
  if 65535 <? TransformHeaderLen + len (Attrs t) then Panic else
  let start := len dst in
  let dst := dst ++ [0; 0; 0; 0; Transform_Type t; 0; 0; 0] in
  let dst := splice dst start [if last then TransformChainLast else TransformChainMore] in
  let dst := splice dst (start + 2) (putUint16 (u16 (TransformHeaderLen + len (Attrs t)))) in
  let dst := splice dst (start + 6) (putUint16 (Transform_ID t)) in
  Ok (dst ++ Attrs t).

Definition ParseTransform (b : list Z) : res (Transform * list Z) :=
  if len b <? TransformHeaderLen then Err "transform too short: %d bytes" else
  lf ← b.[2, 4]; length ← beUint16 lf;
  if length <? TransformHeaderLen then Err "invalid transform length %d"
  else if len b <? length then Err "transform length %d exceeds remaining %d"
  else
  typ ← b.[4];
  f ← b.[6, 8]; id ← beUint16 f;
  attrs ← b.[TransformHeaderLen, length];
  rest ← slice_from b length;
  Ok ({| Transform_Type := typ; Transform_ID := id; Attrs := attrs |}, rest).

(** [for i := range p.Transforms { AppendTransform(dst, ..., i == len-1) }] *)
Fixpoint AppendTransforms (dst : list Z) (ts : list Transform) : res (list Z) :=
  match ts with
  | [] => Ok dst
  | t :: ts => dst ← AppendTransform dst t (bool_decide (ts = [])); AppendTransforms dst ts
  end.

#[global] Instance Transform_eq_dec : EqDecision Transform.
Proof. solve_decision. Defined.
#[global] Instance Proposal_eq_dec : EqDecision Proposal.
Proof. solve_decision. Defined.

Definition AppendProposal (dst : list Z) (p : Proposal) (more : bool) : res (list Z) :=
  if 255 <? len (Proposal_SPI p) then Panic
  else if 255 <? len (Transforms p) then Panic
  else
  let transformLen :=
    foldl (λ acc t, acc + (TransformHeaderLen + len (Attrs t))) 0 (Transforms p) in
  let total := ProposalHeaderLen + len (Proposal_SPI p) + transformLen in
  if 65535 <? total then Panic else
  let start := len dst in
  let dst := dst ++ [0; 0; 0; 0; Num p; ProtocolID p; u8 (len (Proposal_SPI p));
                     u8 (len (Transforms p))] in
  let dst := splice dst start [if more then ProposalChainMore else TransformChainLast] in
  let dst := splice dst (start + 2) (putUint16 (u16 total)) in
  let dst := dst ++ Proposal_SPI p in
  AppendTransforms dst (Transforms p).

(** One iteration of the transform loop of [ParseProposal]: the variables are
    [i], [rest] and [p.Transforms]; the loop ends with the final [rest]. *)
Definition ParseProposal_step (numTransforms : Z) (s : Z * list Z * list Transform) :
    res (Z * list Z * list Transform + list Z * list Transform) :=
  let '(i, rest, ts) := s in
  if i <? numTransforms then
    if len rest <? TransformHeaderLen then Err "transform %d too short: %d bytes" else
    marker ← rest.[0];
    '(t, tail) ← ParseTransform rest;
    let last := i =? numTransforms - 1 in
    if marker =? TransformChainLast then
      if negb last then Err "transform chain ended after %d of %d transforms"
      else Ok (inr (tail, ts ++ [t]))
    else if negb (marker =? TransformChainMore) then
      Err "invalid transform chain marker 0x%02x"
    else if last then Err "transform chain missing last marker"
    else Ok (inl (i + 1, tail, ts ++ [t]))
  else Ok (inr (rest, ts)).

Definition ParseProposal (b : list Z) : res (Proposal * list Z) :=
  if len b <? ProposalHeaderLen then Err "proposal too short: %d bytes" else
  lf ← b.[2, 4]; length ← beUint16 lf;
  if length <? ProposalHeaderLen then Err "invalid proposal length %d"
  else if len b <? length then Err "proposal length %d exceeds remaining %d"
  else
  spiSize ← b.[6];
  numTransforms ← b.[7];
  if length <? ProposalHeaderLen + spiSize then Err "proposal spi exceeds declared length"
  else if numTransforms =? 0 then Err "proposal declares no transforms"
  else
  num ← b.[4];
  proto ← b.[5];
  spi ← b.[ProposalHeaderLen, ProposalHeaderLen + spiSize];
  rest ← b.[ProposalHeaderLen + spiSize, length];
  '(rest, ts) ← loop (S (Z.to_nat numTransforms)) (ParseProposal_step numTransforms) (0, rest, []);
  if negb (len rest =? 0) then Err "proposal has %d trailing bytes" else
  tail ← slice_from b length;
  Ok ({| Num := num; ProtocolID := proto; Proposal_SPI := spi; Transforms := ts |}, tail).

(** [type SA struct { Proposals []Proposal }] *)
Abbreviation SA := (list Proposal).

Fixpoint AppendSA (dst : list Z) (sa : SA) : res (list Z) :=
  match sa with
  | [] => Ok dst
  | p :: sa => dst ← AppendProposal dst p (bool_decide (sa ≠ [])); AppendSA dst sa
  end.

Definition ParseSA_step (s : list Z * SA) : res (list Z * SA + SA) :=
  let '(rest, sa) := s in
  if len rest =? 0 then Ok (inr sa)
  else if len rest <? ProposalHeaderLen then Err "sst proposal short: %d bytes"
  else
  '(p, tail) ← ParseProposal rest;
  let sa := sa ++ [p] in
  marker ← rest.[0];
  if len tail =? 0 then
    if negb (marker =? TransformChainLast) then Err "proposal chain missing last marker"
    else Ok (inr sa)
  else if negb (marker =? ProposalChainMore) then
    Err "proposal chain marker 0x%02x before remaining proposals"
  else Ok (inl (tail, sa)).

Definition ParseSA (b : list Z) : res SA :=
  sa ← loop (S (length b)) ParseSA_step (b, []);
  if len sa =? 0 then Err "missing sa proposals" else Ok sa.

Definition KeyLengthAttr (bits : Z) : list Z :=
  let out := replicate 4 0 in
  let out := splice out 0 (putUint16 (Z.lor TransformAttrKeyLength TransformAttrFormatTV)) in
  splice out 2 (putUint16 bits).

Definition ParseKeyLengthAttr (attrs : list Z) : res Z :=
  if negb (len attrs =? 4) then Err "invalid key length attribute size %d" else
  f ← attrs.[0, 2]; typ ← beUint16 f;
  if Z.land typ TransformAttrFormatTV =? 0 then Err "key length must use tv attribute format"
  else if negb (Z.ldiff typ TransformAttrFormatTV =? TransformAttrKeyLength) then
    Err "unsupported transform attribute 0x%04x"
  else
  g ← attrs.[2, 4]; beUint16 g.

(* ------------------------------------------------------------------ *)
(** ** net.IP: an address is its byte string; nil is the empty one *)

Abbreviation IP := (list Z).

Definition v4InV6Prefix : list Z := [0;0;0;0;0;0;0;0;0;0;255;255].

Definition IPv4 (a b c d : Z) : IP := v4InV6Prefix ++ [a; b; c; d].

(** [ip.To4()]: [None] is the nil result. *)
Definition To4 (ip : IP) : option IP :=
  if len ip =? 4 then Some ip
  else if (len ip =? 16) && bool_decide (take 12 ip = v4InV6Prefix) then Some (drop 12 ip)
  else None.

Definition To16 (ip : IP) : option IP :=
  if len ip =? 4 then Some (v4InV6Prefix ++ ip)
  else if len ip =? 16 then Some ip
  else None.

(* ------------------------------------------------------------------ *)
(** ** CP *)

Record ConfigAttribute := mkConfigAttribute { Attr_Type : Z; Value : list Z }.

Record ConfigPayload := mkConfigPayload { Kind : Z; Attributes : list ConfigAttribute }.

Definition appendConfigAttribute (dst : list Z) (attr : ConfigAttribute) : res (list Z) :=
  if 65535 <? len (Value attr) then Panic else
  let start := len dst in
  let dst := dst ++ [0; 0; 0; 0] in
  let dst := splice dst start (putUint16 (Attr_Type attr)) in
  let dst := splice dst (start + 2) (putUint16 (u16 (len (Value attr)))) in
  Ok (dst ++ Value attr).

Fixpoint appendConfigAttributes (dst : list Z) (attrs : list ConfigAttribute) : res (list Z) :=
  match attrs with
  | [] => Ok dst
  | a :: attrs => dst ← appendConfigAttribute dst a; appendConfigAttributes dst attrs
  end.

Definition AppendConfigPayload (dst : list Z) (cp : ConfigPayload) : res (list Z) :=
  let cfgType := if Kind cp =? 0 then ConfigTypeRequest else Kind cp in
  appendConfigAttributes (dst ++ [cfgType; 0; 0; 0]) (Attributes cp).

Definition parseConfigAttribute (b : list Z) : res (ConfigAttribute * list Z) :=
  if len b <? ConfigAttrFixedLen then Err "configuration attribute too short: %d bytes" else
  tf ← b.[0, 2]; typ ← beUint16 tf;
  lf ← b.[2, 4]; valueLen ← beUint16 lf;
  if len b <? ConfigAttrFixedLen + valueLen then
    Err "configuration attribute value exceeds remaining bytes"
  else
  v ← b.[ConfigAttrFixedLen, ConfigAttrFixedLen + valueLen];
  rest ← slice_from b (ConfigAttrFixedLen + valueLen);
  Ok ({| Attr_Type := typ; Value := v |}, rest).

Definition ParseConfigPayload_step (s : list Z * list ConfigAttribute) :
    res (list Z * list ConfigAttribute + list ConfigAttribute) :=
  let '(rest, attrs) := s in
  if 0 <? len rest then
    '(attr, tail) ← parseConfigAttribute rest;
    Ok (inl (tail, attrs ++ [attr]))
  else Ok (inr attrs).

Definition ParseConfigPayload (b : list Z) : res ConfigPayload :=
  if len b <? ConfigFixedLen then Err "configuration payload too short: %d bytes" else
  k ← b.[0];
  if negb ((k =? ConfigTypeRequest) || (k =? ConfigTypeReply) || (k =? ConfigTypeSet)
           || (k =? ConfigTypeAck)) then
    Err "unsupported configuration payload type %d"
  else
  b1 ← b.[1]; b2 ← b.[2]; b3 ← b.[3];
  if negb (b1 =? 0) || negb (b2 =? 0) || negb (b3 =? 0) then
    Err "configuration payload has non-zero reserved bytes"
  else
  rest ← slice_from b ConfigFixedLen;
  attrs ← loop (S (length b)) ParseConfigPayload_step (rest, []);
  Ok {| Kind := k; Attributes := attrs |}.

Definition AppendConfigRequest (dst : list Z) : res (list Z) :=
  AppendConfigPayload dst
    {| Kind := ConfigTypeRequest;
       Attributes := (λ typ, {| Attr_Type := typ; Value := [] |}) <$>
         [ConfigAttrInternalIPv4Address; ConfigAttrInternalIPv4DNS;
          ConfigAttrInternalIPv6Address; ConfigAttrInternalIPv6DNS] |}.

Record ConfigRenewRequest := mkConfigRenewRequest {
  Renew_InternalIPv4 : IP; Renew_InternalIPv6 : IP; Renew_InternalIPv6Prefix : Z }.

Definition AppendConfigRenewRequest (dst : list Z) (req : ConfigRenewRequest) : res (list Z) :=
  let attrs4 := match To4 (Renew_InternalIPv4 req) with
    | Some v4 => [{| Attr_Type := ConfigAttrInternalIPv4Address; Value := v4 |}]
    | None => [] end in
  let dns4 := [{| Attr_Type := ConfigAttrInternalIPv4DNS; Value := [] |}] in
  let attrs6 := match To16 (Renew_InternalIPv6 req) with
    | Some v6 => [{| Attr_Type := ConfigAttrInternalIPv6Address;
                     Value := v6 ++ [Renew_InternalIPv6Prefix req] |}]
    | None => [] end in
  let dns6 := [{| Attr_Type := ConfigAttrInternalIPv6DNS; Value := [] |}] in
  AppendConfigPayload dst
    {| Kind := ConfigTypeRequest; Attributes := attrs4 ++ dns4 ++ attrs6 ++ dns6 |}.

(* ------------------------------------------------------------------ *)
(** ** TSi/TSr *)

Record Selector := mkSelector {
  TS_Type : Z; TS_ProtocolID : Z; StartPort : Z; EndPort : Z;
  StartAddr : IP; EndAddr : IP }.

(** [ipOctets]: To4 when it applies, To16 (nil for other widths) otherwise. *)
Definition ipOctets (ip : IP) : IP :=
  match To4 ip with
  | Some v4 => v4
  | None => match To16 ip with Some v6 => v6 | None => [] end
  end.

Definition cloneIP (p : list Z) : res IP :=
  if len p =? 4 then
    a ← p.[0]; b ← p.[1]; c ← p.[2]; d ← p.[3]; Ok (IPv4 a b c d)
  else if len p =? 16 then Ok p
  else Ok [].

(** [compareIP]: shorter first, then bytewise; the result is -1, 0 or 1. *)
Fixpoint compareIP_loop (a b : list Z) : res Z :=
  match a with
  | [] => Ok 0
  | x :: a =>
      match b with
      | [] => Panic
      | y :: b => if x <? y then Ok (-1) else if y <? x then Ok 1 else compareIP_loop a b
      end
  end.
Definition compareIP (a b : IP) : res Z :=
  if negb (len a - len b =? 0) then
    if len a <? len b then Ok (-1) else Ok 1
  else compareIP_loop a b.

Definition addrLen (tsType : Z) : res Z :=
  if tsType =? 7 then Ok 4
  else if tsType =? 8 then Ok 16
  else Err "unsupported traffic selector type %d".

Definition appendTrafficSelector (dst : list Z) (s : Selector) : res (list Z) :=
  let startWidth := len (ipOctets (StartAddr s)) in
  let endWidth := len (ipOctets (EndAddr s)) in
  if (startWidth =? 0) || (endWidth =? 0) || negb (startWidth =? endWidth) then Panic else
  let width := startWidth in
  let start := len dst in
  let dst := dst ++ [TS_Type s; TS_ProtocolID s; 0; 0; 0; 0; 0; 0] in
  let dst := splice dst (start + 2) (putUint16 (u16 (TsEntryFixedLen + 2 * width))) in
  let dst := splice dst (start + 4) (putUint16 (StartPort s)) in
  let dst := splice dst (start + 6) (putUint16 (EndPort s)) in
  let dst := dst ++ ipOctets (StartAddr s) in
  Ok (dst ++ ipOctets (EndAddr s)).

Fixpoint appendTrafficSelectors (dst : list Z) (ts : list Selector) : res (list Z) :=
  match ts with
  | [] => Ok dst
  | s :: ts => dst ← appendTrafficSelector dst s; appendTrafficSelectors dst ts
  end.

(** [type TrafficSelectors struct { Selectors []Selector }] *)
Definition AppendTS (dst : list Z) (ts : list Selector) : res (list Z) :=
  if 255 <? len ts then Panic else
  appendTrafficSelectors (dst ++ [u8 (len ts); 0; 0; 0]) ts.

Definition parseTrafficSelector (b : list Z) : res (Selector * list Z) :=
  if len b <? TsEntryFixedLen then Err "entry too short: %d bytes" else
  typ ← b.[0];
  width ← addrLen typ;
  proto ← b.[1];
  if negb (proto =? 0) then Err "mvp traffic selector must use protocol 0, got %d" else
  lf ← b.[2, 4]; entryLen ← beUint16 lf;
  let want := TsEntryFixedLen + 2 * width in
  if negb (entryLen =? want) then Err "invalid entry length %d for address width %d"
  else if len b <? entryLen then Err "entry length %d exceeds remaining %d"
  else
  f1 ← b.[4, 6]; startPort ← beUint16 f1;
  f2 ← b.[6, 8]; endPort ← beUint16 f2;
  if endPort <? startPort then Err "port range reversed: %d-%d" else
  addrs ← b.[TsEntryFixedLen, entryLen];
  a1 ← addrs.[0, width]; startAddr ← cloneIP a1;
  a2 ← slice_from addrs width; endAddr ← cloneIP a2;
  reversed ← (if negb (len startAddr =? 0) then c ← compareIP startAddr endAddr; Ok (0 <? c)
              else Ok false);
  if (reversed : bool) then Err "address range reversed" else
  rest ← slice_from b entryLen;
  Ok ({| TS_Type := typ; TS_ProtocolID := proto; StartPort := startPort; EndPort := endPort;
         StartAddr := startAddr; EndAddr := endAddr |}, rest).

Definition ParseTS_step (count : Z) (s : Z * list Z * list Selector) :
    res (Z * list Z * list Selector + list Z * list Selector) :=
  let '(i, rest, ts) := s in
  if i <? count then
    '(s, tail) ← wrap "traffic selector %d: " (parseTrafficSelector rest);
    Ok (inl (i + 1, tail, ts ++ [s]))
  else Ok (inr (rest, ts)).

Definition ParseTS (b : list Z) : res (list Selector) :=
  if len b <? TsSelectorFixedLen then Err "traffic selector payload too short: %d bytes" else
  count ← b.[0];
  r ← b.[1, TsSelectorFixedLen];
  b1 ← b.[1]; b2 ← b.[2]; b3 ← b.[3];
  if (len r =? 0) || negb (b1 =? 0) || negb (b2 =? 0) || negb (b3 =? 0) then
    Err "traffic selector payload has non-zero reserved bytes"
  else
  rest ← slice_from b TsSelectorFixedLen;
  '(rest, ts) ← loop (S (Z.to_nat count)) (ParseTS_step count) (0, rest, []);
  if negb (len rest =? 0) then Err "traffic selector payload has %d trailing bytes"
  else Ok ts.

(* ------------------------------------------------------------------ *)
(** ** Every decoder returns *)

Ltac unfold_lens :=
  unfold AuthFixedLen, IDFixedLen, KeFixedLen, NotifyFixedLen, DeleteFixedLen, ConfigFixedLen,
    ConfigAttrFixedLen, TsSelectorFixedLen, TsEntryFixedLen, ProposalHeaderLen,
    TransformHeaderLen, slice_from in *.

Lemma ParseAuth_fine b : fine (ParseAuth b).
Proof. unfold ParseAuth; unfold_lens. fine_solve. Qed.
Lemma ParseCert_fine b : fine (ParseCert b).
Proof. unfold ParseCert; unfold_lens. fine_solve. Qed.
Lemma ParseID_fine b : fine (ParseID b).
Proof. unfold ParseID; unfold_lens. fine_solve. Qed.
Lemma ParseKE_fine b : fine (ParseKE b).
Proof. unfold ParseKE; unfold_lens. fine_solve. Qed.
Lemma ParseNonce_fine b : fine (ParseNonce b).
Proof. unfold ParseNonce. fine_solve. Qed.

Lemma checkNotifyScope_fine p n : fine (checkNotifyScope p n).
Proof. unfold checkNotifyScope. fine_solve. Qed.
#[export] Hint Resolve checkNotifyScope_fine : go.

Lemma ParseNotify_fine b : bytes b → fine (ParseNotify b).
Proof.
  intros Hb. unfold ParseNotify; unfold_lens. fine_solve.
Qed.

Lemma ParseDelete_fine b : fine (ParseDelete b).
Proof.
  unfold ParseDelete; unfold_lens. fine_step; [done|].
  do 3 (fine_step; [fine_solve|]). fine_step; [fine_solve|].
  fine_step; [fine_solve|]. fine_step; [done|].
  fine_step; [|done].
  apply (loop_fine (λ s, 4 <= s.1 ∧ s.1 mod 4 = 0 ∧ s.1 <= len b)
           (λ s, Z.to_nat (len b + 1 - s.1))); simpl.
  - intros [off spis] (H4 & Hm & Hl). simpl in *. unfold ParseDelete_step.
    assert (len b mod 4 = 0).
    { inv_ok; unfold DeleteProtocolIKE, DeleteProtocolESP in *; divlia. }
    assert (off < len b → off + 4 <= len b) by divlia. fine_solve.
  - intros [off spis] [off' spis'] (H4 & Hm & Hl) HH. simpl in *. unfold ParseDelete_step in HH.
    inv_ok. slice_facts. split_and!; try lia. divlia.
  - split_and!; [lia|done|lia].
  - unfold len. lia.
Qed.

Lemma ParseTransform_fine b : fine (ParseTransform b).
Proof. unfold ParseTransform; unfold_lens. fine_solve. Qed.
#[export] Hint Resolve ParseTransform_fine : go.

Lemma ParseProposal_loop_fine n rest :
  fine (loop (S (Z.to_nat n)) (ParseProposal_step n) (0, rest, [])).
Proof.
  apply (loop_fine (λ s, True) (λ s, Z.to_nat (n - s.1.1))); simpl; [| |done|lia].
  - intros [[i rst] ts] _. unfold ParseProposal_step; unfold_lens. fine_solve.
  - intros [[i rst] ts] [[i' rst'] ts'] _ H'. unfold ParseProposal_step in H'. inv_ok. simpl. lia.
Qed.
#[export] Hint Resolve ParseProposal_loop_fine : go.

Lemma ParseProposal_fine b : bytes b → fine (ParseProposal b).
Proof. intros Hb. unfold ParseProposal; unfold_lens. fine_solve. Qed.
#[export] Hint Resolve ParseProposal_fine : go.

(** The tail of a parsed proposal is a shorter suffix of the input. *)
Lemma ParseProposal_tail b p tail : bytes b → ParseProposal b = Ok (p, tail) →
  bytes tail ∧ (length tail < length b)%nat.
Proof.
  intros Hb H. unfold ParseProposal in H; unfold_lens. inv_ok. bytes_facts. split; [done|].
  slice_facts. unfold len in *. lia.
Qed.

Lemma ParseSA_fine b : bytes b → fine (ParseSA b).
Proof.
  intros Hb. unfold ParseSA. fine_step; [|fine_solve].
  apply (loop_fine (λ s, bytes s.1) (λ s, length s.1)); simpl; [| |done|lia].
  - intros [rest sa] Hr. simpl in *. unfold ParseSA_step; unfold_lens. fine_solve.
  - intros [rest sa] [rest' sa'] Hr H. simpl in *. unfold ParseSA_step in H. inv_ok.
    by eapply ParseProposal_tail.
Qed.

Lemma ParseKeyLengthAttr_fine b : fine (ParseKeyLengthAttr b).
Proof. unfold ParseKeyLengthAttr. fine_solve. Qed.

Lemma parseConfigAttribute_fine b : bytes b → fine (parseConfigAttribute b).
Proof. intros. unfold parseConfigAttribute; unfold_lens. fine_solve. Qed.
#[export] Hint Resolve parseConfigAttribute_fine : go.

Lemma ParseConfigPayload_fine b : bytes b → fine (ParseConfigPayload b).
Proof.
  intros Hb. unfold ParseConfigPayload; unfold_lens.
  repeat match goal with |- fine (loop _ _ _) => fail 1 | _ => fine_step end.
  apply (loop_fine (λ s, bytes s.1) (λ s, length s.1)); simpl.
  - intros [rest attrs] Hr. simpl in *. unfold ParseConfigPayload_step. fine_solve.
  - intros [rest attrs] [rest' attrs'] Hr H'. simpl in *.
    unfold ParseConfigPayload_step, parseConfigAttribute in H'; unfold_lens.
    inv_ok. bytes_facts. split; [done|]. slice_facts. unfold len in *. lia.
  - by bytes_facts.
  - slice_facts. unfold len in *. lia.
Qed.

Lemma cloneIP_fine p : fine (cloneIP p).
Proof. unfold cloneIP. fine_solve. Qed.
Lemma addrLen_fine t : fine (addrLen t).
Proof. unfold addrLen. fine_solve. Qed.
Lemma compareIP_fine a b : fine (compareIP a b).
Proof.
  unfold compareIP. fine_step; [fine_solve|].
  assert (H : len a = len b) by lia. clear Heqb0. revert b H.
  induction a as [|x a IH]; intros [|y b] H; simpl; try done.
  repeat fine_step. apply IH. rewrite !len_cons in H. lia.
Qed.
#[export] Hint Resolve cloneIP_fine addrLen_fine compareIP_fine : go.

Lemma addrLen_cases t w : addrLen t = Ok w → (t = 7 ∧ w = 4) ∨ (t = 8 ∧ w = 16).
Proof. unfold addrLen. intros. inv_ok; lia. Qed.

Lemma parseTrafficSelector_fine b : fine (parseTrafficSelector b).
Proof.
  unfold parseTrafficSelector; unfold_lens. fine_step; [done|]. do 2 (fine_step; [fine_solve|]).
  match goal with H : addrLen _ = Ok ?w |- _ => apply addrLen_cases in H; assert (0 < w) by lia end.
  fine_solve.
Qed.
#[export] Hint Resolve parseTrafficSelector_fine : go.

Lemma ParseTS_loop_fine n rest : fine (loop (S (Z.to_nat n)) (ParseTS_step n) (0, rest, [])).
Proof.
  apply (loop_fine (λ s, True) (λ s, Z.to_nat (n - s.1.1))); simpl; [| |done|lia].
  - intros [[i rst] ts] _. unfold ParseTS_step. fine_solve.
  - intros [[i rst] ts] [[i' rst'] ts'] _ H'. unfold ParseTS_step in H'. inv_ok. simpl. lia.
Qed.
#[export] Hint Resolve ParseTS_loop_fine : go.

Lemma ParseTS_fine b : fine (ParseTS b).
Proof. unfold ParseTS; unfold_lens. fine_solve. Qed.

(* ------------------------------------------------------------------ *)
(** ** Wire layouts *)

Definition ke_bytes (ke : KeyExchange) : list Z := putUint16 (DHGroup ke) ++ [0; 0] ++ KE_Data ke.

Definition notify_bytes (n : Notify) : list Z :=
  [Notify_ProtocolID n; len (Notify_SPI n)] ++ putUint16 (Notify_Type n)
  ++ Notify_SPI n ++ Notify_Data n.

Definition delete_bytes (d : Delete) : list Z :=
  [Delete_ProtocolID d; if Delete_ProtocolID d =? DeleteProtocolESP then 4 else 0]
  ++ putUint16 (len (SPIs d)) ++ concat (putUint32 <$> SPIs d).

Definition transform_bytes (t : Transform) (last : bool) : list Z :=
  [if last then TransformChainLast else TransformChainMore; 0]
  ++ putUint16 (TransformHeaderLen + len (Attrs t)) ++ [Transform_Type t; 0]
  ++ putUint16 (Transform_ID t) ++ Attrs t.

Fixpoint transforms_bytes (ts : list Transform) : list Z :=
  match ts with
  | [] => []
  | t :: ts => transform_bytes t (bool_decide (ts = [])) ++ transforms_bytes ts
  end.

Definition proposal_bytes (p : Proposal) (more : bool) : list Z :=
  [if more then ProposalChainMore else TransformChainLast; 0]
  ++ putUint16 (ProposalHeaderLen + len (Proposal_SPI p) + len (transforms_bytes (Transforms p)))
  ++ [Num p; ProtocolID p; len (Proposal_SPI p); len (Transforms p)]
  ++ Proposal_SPI p ++ transforms_bytes (Transforms p).

Fixpoint sa_bytes (sa : SA) : list Z :=
  match sa with
  | [] => []
  | p :: sa => proposal_bytes p (bool_decide (sa ≠ [])) ++ sa_bytes sa
  end.

Definition attribute_bytes (a : ConfigAttribute) : list Z :=
  putUint16 (Attr_Type a) ++ putUint16 (len (Value a)) ++ Value a.

Definition selector_bytes (s : Selector) : list Z :=
  [TS_Type s; TS_ProtocolID s] ++ putUint16 (TsEntryFixedLen + 2 * len (ipOctets (StartAddr s)))
  ++ putUint16 (StartPort s) ++ putUint16 (EndPort s)
  ++ ipOctets (StartAddr s) ++ ipOctets (EndAddr s).

Lemma u16_small z : 0 <= z < 2 ^ 16 → u16 z = z.
Proof. intros. unfold u16. by apply Z.mod_small. Qed.
Lemma u32_small z : 0 <= z < 2 ^ 32 → u32 z = z.
Proof. intros. unfold u32. by apply Z.mod_small. Qed.

(** Stores at the end of a buffer: moves them onto the freshly appended bytes,
    which are a literal list. *)
Ltac splices := rewrite ?splice_app_r, ?Z.sub_diag, ?Z.add_simpl_l by lia.

Lemma AppendKE_bytes dst ke : AppendKE dst ke = dst ++ ke_bytes ke.
Proof. unfold AppendKE, ke_bytes. splices. rewrite <- app_assoc. done. Qed.

Lemma AppendNotify_bytes dst n : len (Notify_SPI n) <= 255 →
  AppendNotify dst n = Ok (dst ++ notify_bytes n).
Proof.
  intros. unfold AppendNotify, notify_bytes. replace (255 <? _) with false by lia. cbv zeta.
  rewrite u8_small by (unfold is_byte; llia). splices. by rewrite <- !app_assoc.
Qed.

Lemma AppendDelete_loop dst spis :
  foldl (λ dst spi, let dst := dst ++ [0; 0; 0; 0] in
     splice dst (len dst - 4) (putUint32 spi)) dst spis = dst ++ concat (putUint32 <$> spis).
Proof.
  revert dst. induction spis as [|x spis IH]; intros dst; simpl foldl; [by rewrite app_nil_r|].
  rewrite IH. rewrite len_app. replace (len dst + len [0;0;0;0] - 4) with (len dst) by llia.
  splices. cbn [fmap list_fmap concat]. by rewrite <- app_assoc.
Qed.

Lemma AppendDelete_bytes dst d :
  (Delete_ProtocolID d = DeleteProtocolIKE ∧ SPIs d = []) ∨
  (Delete_ProtocolID d = DeleteProtocolESP ∧ 1 <= len (SPIs d) <= 65535) →
  AppendDelete dst d = Ok (dst ++ delete_bytes d).
Proof.
  intros H. unfold AppendDelete, delete_bytes. cbv zeta.
  rewrite AppendDelete_loop. splices.
  destruct H as [[-> ->]|[-> H]].
  - cbn [concat fmap list_fmap]. by rewrite app_nil_r.
  - replace ((len (SPIs d) =? 0) || (65535 <? len (SPIs d))) with false by lia. simpl.
    rewrite u16_small by lia. by rewrite <- app_assoc.
Qed.

Lemma AppendTransform_bytes dst t last : TransformHeaderLen + len (Attrs t) <= 65535 →
  AppendTransform dst t last = Ok (dst ++ transform_bytes t last).
Proof.
  intros. unfold AppendTransform, transform_bytes. replace (65535 <? _) with false by lia. cbv zeta.
  rewrite u16_small by (unfold TransformHeaderLen in *; llia). splices.
  by rewrite <- !app_assoc.
Qed.

Lemma len_transform_bytes t last : len (transform_bytes t last) = TransformHeaderLen + len (Attrs t).
Proof. unfold transform_bytes, TransformHeaderLen. llia. Qed.

Lemma transform_len_sum ts acc :
  foldl (λ acc t, acc + (TransformHeaderLen + len (Attrs t))) acc ts
  = acc + len (transforms_bytes ts).
Proof.
  revert acc. induction ts as [|t ts IH]; intros acc; simpl foldl.
  { change (len (transforms_bytes [])) with 0. lia. }
  rewrite IH. cbn [transforms_bytes]. rewrite len_app, len_transform_bytes. lia.
Qed.

Lemma AppendTransforms_bytes dst ts : len (transforms_bytes ts) <= 65535 →
  AppendTransforms dst ts = Ok (dst ++ transforms_bytes ts).
Proof.
  revert dst. induction ts as [|t ts IH]; intros dst H; cbn [AppendTransforms transforms_bytes] in *.
  { by rewrite app_nil_r. }
  rewrite len_app, len_transform_bytes in H.
  rewrite AppendTransform_bytes by llia. run. rewrite IH by (unfold TransformHeaderLen in *; llia).
  by rewrite <- app_assoc.
Qed.

Definition proposal_fits (p : Proposal) : Prop :=
  len (Proposal_SPI p) <= 255 ∧ len (Transforms p) <= 255 ∧
  ProposalHeaderLen + len (Proposal_SPI p) + len (transforms_bytes (Transforms p)) <= 65535.

Lemma AppendProposal_bytes dst p more : proposal_fits p →
  AppendProposal dst p more = Ok (dst ++ proposal_bytes p more).
Proof.
  intros (H1 & H2 & H3). unfold AppendProposal, proposal_bytes. rewrite transform_len_sum, Z.add_0_l.
  replace (255 <? len (Proposal_SPI p)) with false by lia.
  replace (255 <? len (Transforms p)) with false by lia.
  replace (65535 <? _) with false by lia. cbv zeta.
  rewrite u16_small by (unfold ProposalHeaderLen in *; llia).
  rewrite !u8_small by (unfold is_byte; llia).
  rewrite AppendTransforms_bytes by (unfold ProposalHeaderLen in *; llia).
  splices. by rewrite <- !app_assoc.
Qed.

Lemma AppendSA_bytes dst sa : Forall proposal_fits sa → AppendSA dst sa = Ok (dst ++ sa_bytes sa).
Proof.
  intros H. revert dst. induction H as [|p sa Hp H IH]; intros dst; cbn [AppendSA sa_bytes].
  { by rewrite app_nil_r. }
  rewrite AppendProposal_bytes by done. run. by rewrite IH, <- app_assoc.
Qed.

Lemma appendConfigAttributes_bytes dst attrs : Forall (λ a, len (Value a) <= 65535) attrs →
  appendConfigAttributes dst attrs = Ok (dst ++ concat (attribute_bytes <$> attrs)).
Proof.
  intros H. revert dst. induction H as [|a attrs Ha H IH]; intros dst; cbn [appendConfigAttributes].
  { by rewrite app_nil_r. }
  unfold appendConfigAttribute. replace (65535 <? _) with false by lia. run.
  rewrite u16_small by llia. splices. rewrite IH. cbn [fmap list_fmap concat].
  unfold attribute_bytes. by rewrite <- !app_assoc.
Qed.

Lemma appendTrafficSelectors_bytes dst ts :
  Forall (λ s, len (ipOctets (StartAddr s)) = len (ipOctets (EndAddr s)) ∧
               0 < len (ipOctets (StartAddr s)) <= 16) ts →
  appendTrafficSelectors dst ts = Ok (dst ++ concat (selector_bytes <$> ts)).
Proof.
  intros H. revert dst. induction H as [|s ts (He & Hw) H IH]; intros dst;
    cbn [appendTrafficSelectors]. { by rewrite app_nil_r. }
  unfold appendTrafficSelector. rewrite <- He.
  replace (_ || _) with false by (rewrite Z.eqb_refl; lia). cbv zeta. run.
  rewrite u16_small by (unfold TsEntryFixedLen; lia). splices. rewrite IH.
  cbn [fmap list_fmap concat]. unfold selector_bytes. by rewrite <- !app_assoc.
Qed.

(* ------------------------------------------------------------------ *)
(** ** Decoding what was encoded *)

Lemma ParseAuth_append a : ParseAuth (AppendAuth [] a) = Ok a.
Proof.
  destruct a as [m d]. unfold ParseAuth, AppendAuth, AuthFixedLen. cbn [Auth_Method Auth_Data app].
  replace (len _ <? 4) with false by llia. rewrite (slice_from_suffix [m; 0; 0; 0] d) by done.
  reflexivity.
Qed.

Lemma ParseCert_append c : DER c ≠ [] → ParseCert (AppendCert [] c) = Ok c.
Proof.
  destruct c as [e d]. unfold ParseCert, AppendCert. cbn [DER Cert_Encoding app]. intros Hd.
  replace (len _ <? 1) with false by llia. rewrite (slice_from_suffix [e] d) by done. run.
  destruct (len d =? 0) eqn:E; [|done]. exfalso. by apply Hd, len_0_inv, Z.eqb_eq.
Qed.

Lemma ParseID_append id : ID_Data id ≠ [] → ParseID (AppendID [] id) = Ok id.
Proof.
  destruct id as [t d]. unfold ParseID, AppendID, IDFixedLen. cbn [ID_Data ID_Type app]. intros Hd.
  replace (len _ <? 4) with false by llia. rewrite (slice_from_suffix [t; 0; 0; 0] d) by done. run.
  destruct (len d =? 0) eqn:E; [|done]. exfalso. by apply Hd, len_0_inv, Z.eqb_eq.
Qed.

Lemma ParseKE_append ke : KE_Data ke ≠ [] → 0 <= DHGroup ke < 2 ^ 16 →
  ParseKE (AppendKE [] ke) = Ok ke.
Proof.
  destruct ke as [g d]. rewrite AppendKE_bytes. unfold ParseKE, ke_bytes, KeFixedLen.
  cbn [KE_Data DHGroup]. intros Hd Hg. set (b := [] ++ _).
  assert (Hb : len b = 4 + len d) by (subst b; llia). pose proof (len_nonneg d).
  replace (len b <? 4) with false by lia.
  assert (slice_from b 4 = Ok d) as -> by (apply (slice_from_suffix (putUint16 g ++ [0; 0]) d); done).
  run. destruct (len d =? 0) eqn:E. { exfalso. by apply Hd, len_0_inv, Z.eqb_eq. }
  rewrite (slice_eq b 0 2 (putUint16 g)) by (lia || reflexivity). run.
  by rewrite beUint16_put'.
Qed.

Definition notify_wf (n : Notify) : Prop :=
  0 <= Notify_Type n < 2 ^ 16 ∧ len (Notify_SPI n) <= 255 ∧
  checkNotifyScope (Notify_ProtocolID n) (len (Notify_SPI n)) = Ok tt.

Lemma ParseNotify_bytes n : notify_wf n → ParseNotify (notify_bytes n) = Ok n.
Proof.
  destruct n as [p spi t d]. intros (Ht & Hs & Hc).
  cbn [Notify_ProtocolID Notify_SPI Notify_Type Notify_Data] in *.
  unfold ParseNotify, notify_bytes, NotifyFixedLen.
  cbn [Notify_ProtocolID Notify_SPI Notify_Type Notify_Data].
  set (b := [p; len spi] ++ _). pose proof (len_nonneg d). pose proof (len_nonneg spi).
  assert (Hb : len b = 4 + len spi + len d) by (subst b; llia).
  replace (len b <? 4) with false by lia.
  replace (b.[1]) with (Ok (len spi)) by reflexivity.
  replace (b.[0]) with (Ok p) by reflexivity. run.
  replace (len b <? 4 + len spi) with false by lia.
  assert (slice b 4 (4 + len spi) = Ok spi) as ->.
  { subst b. rewrite app_assoc. apply slice_mid; llia. }
  rewrite (slice_eq b 2 4 (putUint16 t)) by (lia || reflexivity). run.
  rewrite beUint16_put' by done. run.
  assert (slice_from b (4 + len spi) = Ok d) as ->.
  { subst b. rewrite !app_assoc. apply slice_from_suffix. llia. }
  run. cbn [Notify_ProtocolID Notify_SPI]. by rewrite Hc.
Qed.

Definition delete_wf (d : Delete) : Prop :=
  Forall (λ s, 0 <= s < 2 ^ 32) (SPIs d) ∧
  ((Delete_ProtocolID d = DeleteProtocolIKE ∧ SPIs d = []) ∨
   (Delete_ProtocolID d = DeleteProtocolESP ∧ 1 <= len (SPIs d) <= 65535)).

Lemma len_concat_put32 spis : len (concat (putUint32 <$> spis)) = 4 * len spis.
Proof.
  induction spis as [|x spis IH]; [done|]. cbn [fmap list_fmap concat].
  rewrite len_app, IH, len_putUint32, len_cons. lia.
Qed.

Lemma ParseDelete_loop pre spis acc fuel :
  Forall (λ s, 0 <= s < 2 ^ 32) spis → (length spis < fuel)%nat →
  loop fuel (ParseDelete_step (pre ++ concat (putUint32 <$> spis))) (len pre, acc)
  = Ok (acc ++ spis).
Proof.
  intros H. revert pre acc fuel. induction H as [|x spis Hx H IH]; intros pre acc fuel Hf.
  - destruct fuel as [|f]; [simpl in *; lia|]. rewrite loop_S. unfold ParseDelete_step.
    replace (_ <? _) with false by (cbn [fmap list_fmap concat]; llia). run. by rewrite app_nil_r.
  - destruct fuel as [|f]; [lia|]. rewrite loop_S. cbn [fmap list_fmap concat].
    assert (E : ParseDelete_step (pre ++ putUint32 x ++ concat (putUint32 <$> spis)) (len pre, acc)
      = Ok (inl (len pre + 4, acc ++ [x]))).
    { unfold ParseDelete_step. replace (_ <? _) with true by llia.
      rewrite slice_mid by llia. run. by rewrite beUint32_put'. }
    rewrite E. run. rewrite app_assoc.
    replace (len pre + 4) with (len (pre ++ putUint32 x)) by llia.
    rewrite IH by (simpl in *; lia). by rewrite <- app_assoc.
Qed.

Lemma ParseDelete_bytes d : delete_wf d → ParseDelete (delete_bytes d) = Ok d.
Proof.
  destruct d as [p spis]. intros (Hs & Hp). cbn [SPIs Delete_ProtocolID] in *.
  unfold ParseDelete, delete_bytes, DeleteFixedLen. cbn [SPIs Delete_ProtocolID].
  assert (Hn : 0 <= len spis < 2 ^ 16) by (destruct Hp as [[_ ->]|[_ ?]]; [done|lia]).
  set (z := if p =? DeleteProtocolESP then 4 else 0).
  assert (Hz : len spis * z = 4 * len spis).
  { destruct Hp as [[-> ->]|[-> _]]; subst z; [done|]. simpl. lia. }
  set (b := [p; z] ++ _). pose proof (len_concat_put32 spis) as Hc.
  assert (Hb : len b = 4 + 4 * len spis) by (subst b; llia).
  replace (len b <? 4) with false by lia.
  replace (b.[0]) with (Ok p) by reflexivity. replace (b.[1]) with (Ok z) by reflexivity. run.
  rewrite (slice_eq b 2 4 (putUint16 (len spis))) by (lia || reflexivity). run.
  rewrite beUint16_put' by done. run. rewrite Hz, Hb, Z.eqb_refl. cbn [negb].
  assert (L : loop (S (length b)) (ParseDelete_step b) (4, []) = Ok spis).
  { subst b. rewrite app_assoc.
    apply (ParseDelete_loop ([p; z] ++ putUint16 (len spis)) spis []); [done|].
    unfold len in *. rewrite app_assoc, length_app in Hb. rewrite length_app. simpl in *. lia. }
  rewrite L. run. destruct Hp as [[-> ->]|[-> Hl]]; [done|]. subst z. simpl.
  by replace (len spis =? 0) with false by lia.
Qed.

Definition transform_wf (t : Transform) : Prop :=
  is_byte (Transform_Type t) ∧ 0 <= Transform_ID t < 2 ^ 16 ∧
  TransformHeaderLen + len (Attrs t) <= 65535.

Lemma ParseTransform_bytes t last rest : transform_wf t →
  ParseTransform (transform_bytes t last ++ rest) = Ok (t, rest).
Proof.
  intros (Ht & Hi & Hl). pose proof (len_nonneg (Attrs t)). pose proof (len_nonneg rest).
  unfold ParseTransform, TransformHeaderLen in *.
  set (b := transform_bytes t last ++ rest).
  assert (Hb : len b = 8 + len (Attrs t) + len rest).
  { subst b. rewrite len_app, len_transform_bytes. done. }
  replace (len b <? 8) with false by lia.
  rewrite (slice_eq b 2 4 (putUint16 (8 + len (Attrs t)))) by (lia || reflexivity). run.
  rewrite beUint16_put' by lia. run.
  replace (8 + len (Attrs t) <? 8) with false by lia.
  replace (len b <? 8 + len (Attrs t)) with false by lia.
  replace (b.[4]) with (Ok (Transform_Type t)) by reflexivity. run.
  rewrite (slice_eq b 6 8 (putUint16 (Transform_ID t))) by (lia || reflexivity). run.
  rewrite beUint16_put' by lia. run.
  assert (slice b 8 (8 + len (Attrs t)) = Ok (Attrs t)) as ->.
  { subst b. unfold transform_bytes, TransformHeaderLen. rewrite <- !app_assoc, !(app_assoc _ _ (Attrs t ++ _)).
    apply slice_mid; llia. }
  assert (slice_from b (8 + len (Attrs t)) = Ok rest) as ->.
  { apply slice_from_suffix. by rewrite len_transform_bytes. }
  by destruct t.
Qed.

Lemma len_transforms_bytes ts : 8 * len ts <= len (transforms_bytes ts).
Proof.
  induction ts as [|t ts IH]; [done|]. cbn [transforms_bytes].
  rewrite len_app, len_transform_bytes, len_cons. unfold TransformHeaderLen. llia.
Qed.

Lemma ParseProposal_loop ts i n acc fuel :
  Forall transform_wf ts → ts ≠ [] → n = i + len ts → (length ts <= fuel)%nat →
  loop fuel (ParseProposal_step n) (i, transforms_bytes ts, acc) = Ok ([], acc ++ ts).
Proof.
  intros H. revert i acc fuel. induction H as [|t ts Ht H IH]; intros i acc fuel Hne Hn Hf; [done|].
  destruct fuel as [|f]; [simpl in Hf; lia|]. rewrite len_cons in Hn.
  pose proof (len_nonneg ts). cbn [transforms_bytes].
  set (b := _ ++ transforms_bytes ts).
  assert (Hb : 8 <= len b).
  { subst b. rewrite len_app, len_transform_bytes. unfold TransformHeaderLen. llia. }
  assert (Hm : b.[0] = Ok (if bool_decide (ts = []) then TransformChainLast else TransformChainMore))
    by reflexivity.
  assert (E : ParseProposal_step n (i, b, acc) =
    Ok (if bool_decide (ts = []) then inr (transforms_bytes ts, acc ++ [t])
        else inl (i + 1, transforms_bytes ts, acc ++ [t]))).
  { unfold ParseProposal_step. replace (i <? n) with true by lia.
    unfold TransformHeaderLen. replace (len b <? 8) with false by lia. rewrite Hm. run.
    subst b. rewrite ParseTransform_bytes by done. run. case_bool_decide as Ets.
    - subst ts. rewrite (@len_nil Transform) in *. by replace (i =? n - 1) with true by lia.
    - replace (i =? n - 1) with false; [done|]. symmetry. apply Z.eqb_neq.
      intros ?. apply Ets, len_0_inv. lia. }
  destruct ts as [|t' ts'].
  - by rewrite (loop_inr _ _ _ _ E).
  - rewrite (loop_inl _ _ _ _ E), IH; [by rewrite <- app_assoc|done|lia|simpl in *; lia].
Qed.

Definition proposal_wf (p : Proposal) : Prop :=
  is_byte (Num p) ∧ is_byte (ProtocolID p) ∧ Transforms p ≠ [] ∧
  Forall transform_wf (Transforms p) ∧ proposal_fits p.

Lemma len_proposal_bytes p more : len (proposal_bytes p more) =
  ProposalHeaderLen + len (Proposal_SPI p) + len (transforms_bytes (Transforms p)).
Proof. unfold proposal_bytes, ProposalHeaderLen. llia. Qed.

Lemma ParseProposal_bytes p more rest : proposal_wf p →
  ParseProposal (proposal_bytes p more ++ rest) = Ok (p, rest).
Proof.
  intros (Hn & Hp & Hne & Ht & Hs & Hc & Hl).
  unfold ParseProposal, ProposalHeaderLen in *.
  set (b := proposal_bytes p more ++ rest). set (tb := transforms_bytes (Transforms p)) in *.
  pose proof (len_nonneg (Proposal_SPI p)). pose proof (len_nonneg tb). pose proof (len_nonneg rest).
  assert (Hb : len b = 8 + len (Proposal_SPI p) + len tb + len rest).
  { subst b. rewrite len_app, len_proposal_bytes. unfold ProposalHeaderLen. subst tb. lia. }
  replace (len b <? 8) with false by lia.
  rewrite (slice_eq b 2 4 (putUint16 (8 + len (Proposal_SPI p) + len tb))) by (lia || reflexivity). run.
  rewrite beUint16_put' by lia. run.
  replace (_ <? 8) with false by lia. replace (len b <? _) with false by lia.
  replace (b.[6]) with (Ok (len (Proposal_SPI p))) by reflexivity.
  replace (b.[7]) with (Ok (len (Transforms p))) by reflexivity.
  replace (b.[4]) with (Ok (Num p)) by reflexivity.
  replace (b.[5]) with (Ok (ProtocolID p)) by reflexivity. run.
  replace (_ <? 8 + len (Proposal_SPI p)) with false by lia.
  replace (len (Transforms p) =? 0) with false.
  2: { symmetry. apply Z.eqb_neq. intros E. by apply Hne, len_0_inv. }
  assert (Eb : b = ([if more then ProposalChainMore else TransformChainLast; 0]
     ++ putUint16 (8 + len (Proposal_SPI p) + len tb)
     ++ [Num p; ProtocolID p; len (Proposal_SPI p); len (Transforms p)])
     ++ Proposal_SPI p ++ tb ++ rest).
  { subst b. unfold proposal_bytes. by rewrite <- !app_assoc. }
  assert (slice b 8 (8 + len (Proposal_SPI p)) = Ok (Proposal_SPI p)) as ->.
  { rewrite Eb. apply slice_mid; llia. }
  run.
  assert (slice b (8 + len (Proposal_SPI p)) (8 + len (Proposal_SPI p) + len tb) = Ok tb) as ->.
  { rewrite Eb, (app_assoc _ (Proposal_SPI p)). apply slice_mid; llia. }
  run. subst tb. rewrite ParseProposal_loop; [|done|done|lia|unfold len; lia]. run.
  assert (slice_from b (8 + len (Proposal_SPI p) + len (transforms_bytes (Transforms p))) = Ok rest) as ->.
  { apply slice_from_suffix. by rewrite len_proposal_bytes. }
  by destruct p.
Qed.

Lemma ParseSA_loop sa acc fuel : Forall proposal_wf sa → sa ≠ [] → (length sa <= fuel)%nat →
  loop fuel ParseSA_step (sa_bytes sa, acc) = Ok (acc ++ sa).
Proof.
  intros H. revert acc fuel. induction H as [|p sa Hp H IH]; intros acc fuel Hne Hf; [done|].
  destruct fuel as [|f]; [simpl in Hf; lia|]. cbn [sa_bytes].
  set (b := _ ++ sa_bytes sa).
  assert (Hb : 8 <= len b).
  { subst b. rewrite len_app, len_proposal_bytes. unfold ProposalHeaderLen. llia. }
  assert (Hm : b.[0] = Ok (if bool_decide (sa ≠ []) then ProposalChainMore else TransformChainLast))
    by reflexivity.
  assert (E : ParseSA_step (b, acc) =
    Ok (if bool_decide (sa ≠ []) then inl (sa_bytes sa, acc ++ [p]) else inr (acc ++ [p]))).
  { unfold ParseSA_step, ProposalHeaderLen.
    replace (len b =? 0) with false by lia. replace (len b <? 8) with false by lia.
    subst b. rewrite ParseProposal_bytes by done. run. rewrite Hm. run.
    destruct sa as [|p' sa']; [by rewrite bool_decide_false by naive_solver|].
    rewrite bool_decide_true by done.
    replace (len (sa_bytes (p' :: sa')) =? 0) with false; [done|].
    cbn [sa_bytes]. rewrite len_app, len_proposal_bytes. unfold ProposalHeaderLen. llia. }
  destruct sa as [|p' sa'].
  - by rewrite (loop_inr _ _ _ _ E).
  - rewrite (loop_inl _ _ _ _ E), IH; [by rewrite <- app_assoc|done|simpl in *; lia].
Qed.

Lemma length_sa_bytes sa : (length sa <= length (sa_bytes sa))%nat.
Proof.
  induction sa as [|p sa IH]; [done|]. cbn [sa_bytes length]. rewrite length_app.
  pose proof (len_proposal_bytes p (bool_decide (sa ≠ []))). unfold ProposalHeaderLen, len in *. lia.
Qed.

Lemma ParseSA_bytes sa : sa ≠ [] → Forall proposal_wf sa → ParseSA (sa_bytes sa) = Ok sa.
Proof.
  intros Hne Hw. unfold ParseSA. rewrite ParseSA_loop; [|done|done|pose proof (length_sa_bytes sa); lia].
  run. replace (len _ =? 0) with false; [done|]. symmetry. apply Z.eqb_neq.
  intros E. by apply Hne, len_0_inv.
Qed.

Definition attribute_wf (a : ConfigAttribute) : Prop :=
  0 <= Attr_Type a < 2 ^ 16 ∧ len (Value a) <= 65535.

Lemma parseConfigAttribute_bytes a rest : attribute_wf a →
  parseConfigAttribute (attribute_bytes a ++ rest) = Ok (a, rest).
Proof.
  intros (Ht & Hl). destruct a as [t v]. cbn [Attr_Type Value] in *.
  unfold parseConfigAttribute, ConfigAttrFixedLen. set (b := _ ++ rest).
  pose proof (len_nonneg v). pose proof (len_nonneg rest).
  assert (Hb : len b = 4 + len v + len rest) by (subst b; unfold attribute_bytes; cbn; llia).
  assert (Eb : b = (putUint16 t ++ putUint16 (len v)) ++ v ++ rest).
  { subst b. unfold attribute_bytes. cbn [Attr_Type Value]. by rewrite <- !app_assoc. }
  replace (len b <? 4) with false by lia.
  rewrite (slice_eq b 0 2 (putUint16 t)) by (lia || reflexivity). run.
  rewrite beUint16_put' by done. run.
  rewrite (slice_eq b 2 4 (putUint16 (len v))) by (lia || reflexivity). run.
  rewrite beUint16_put' by lia. run. replace (len b <? 4 + len v) with false by lia.
  assert (slice b 4 (4 + len v) = Ok v) as -> by (rewrite Eb; apply slice_mid; llia).
  run. assert (slice_from b (4 + len v) = Ok rest) as ->.
  { rewrite Eb, app_assoc. apply slice_from_suffix. llia. }
  done.
Qed.

Lemma ParseConfigPayload_loop attrs acc fuel : Forall attribute_wf attrs →
  (length attrs < fuel)%nat →
  loop fuel ParseConfigPayload_step (concat (attribute_bytes <$> attrs), acc) = Ok (acc ++ attrs).
Proof.
  intros H. revert acc fuel. induction H as [|a attrs Ha H IH]; intros acc fuel Hf;
    (destruct fuel as [|f]; [lia|]).
  - by rewrite (loop_inr _ _ _ acc), app_nil_r.
  - erewrite loop_inl.
    2: { cbn [fmap list_fmap concat]. unfold ParseConfigPayload_step.
         replace (0 <? _) with true by (unfold attribute_bytes; llia).
         rewrite parseConfigAttribute_bytes by done. reflexivity. }
    rewrite IH by (simpl in *; lia). by rewrite <- app_assoc.
Qed.

Definition config_wf (cp : ConfigPayload) : Prop :=
  1 <= Kind cp <= 4 ∧ Forall attribute_wf (Attributes cp).

Lemma length_concat_attrs attrs : (length attrs <= length (concat (attribute_bytes <$> attrs)))%nat.
Proof.
  induction attrs as [|a attrs IH]; [done|]. cbn [fmap list_fmap concat]. rewrite length_app. simpl. lia.
Qed.

Lemma ParseConfigPayload_bytes cp : config_wf cp →
  ParseConfigPayload ([Kind cp; 0; 0; 0] ++ concat (attribute_bytes <$> Attributes cp)) = Ok cp.
Proof.
  destruct cp as [k attrs]. intros (Hk & Ha). cbn [Kind Attributes] in *.
  unfold ParseConfigPayload, ConfigFixedLen. set (b := [k; 0; 0; 0] ++ _).
  replace (len b <? 4) with false by (subst b; llia).
  replace (b.[0]) with (Ok k) by reflexivity. run.
  replace (negb _) with false.
  2: { unfold ConfigTypeRequest, ConfigTypeReply, ConfigTypeSet, ConfigTypeAck. lia. }
  replace (b.[1]) with (Ok 0) by reflexivity. replace (b.[2]) with (Ok 0) by reflexivity.
  replace (b.[3]) with (Ok 0) by reflexivity. run. cbn [Z.eqb negb orb].
  assert (slice_from b 4 = Ok (concat (attribute_bytes <$> attrs))) as ->
    by (by apply slice_from_suffix).
  run. rewrite ParseConfigPayload_loop; [done|done|].
  subst b. rewrite length_app. pose proof (length_concat_attrs attrs). lia.
Qed.

(** A selector in the form [ParseTS] returns: an IPv4 range in the 16-byte
    mapped form, or an IPv6 range that is not IPv4-mapped. *)
Definition selector_wf (s : Selector) : Prop :=
  TS_ProtocolID s = 0 ∧ 0 <= StartPort s <= EndPort s ∧ EndPort s < 2 ^ 16 ∧
  (∃ c, compareIP (StartAddr s) (EndAddr s) = Ok c ∧ c <= 0) ∧
  len (StartAddr s) = 16 ∧ len (EndAddr s) = 16 ∧
  ((TS_Type s = 7 ∧ take 12 (StartAddr s) = v4InV6Prefix ∧ take 12 (EndAddr s) = v4InV6Prefix) ∨
   (TS_Type s = 8 ∧ take 12 (StartAddr s) ≠ v4InV6Prefix ∧ take 12 (EndAddr s) ≠ v4InV6Prefix)).

Lemma ipOctets_16 ip : len ip = 16 →
  ipOctets ip = if bool_decide (take 12 ip = v4InV6Prefix) then drop 12 ip else ip.
Proof. intros H. unfold ipOctets, To4, To16. rewrite H. cbn. by case_bool_decide. Qed.

Lemma len4_inv (s : list Z) : len s = 4 → ∃ a b c d, s = [a; b; c; d].
Proof.
  intros H. unfold len in H. destruct s as [|? [|? [|? [|? [|]]]]]; simpl in H; try lia.
  by do 4 eexists.
Qed.

Lemma cloneIP_mapped ip : len ip = 16 → take 12 ip = v4InV6Prefix → cloneIP (drop 12 ip) = Ok ip.
Proof.
  intros Hl Ht. rewrite <- (take_drop 12 ip) at 2. rewrite Ht.
  destruct (len4_inv (drop 12 ip)) as (a&b&c&d&->); [|done].
  rewrite len_drop, Hl. done.
Qed.

Lemma cloneIP_16 ip : len ip = 16 → cloneIP ip = Ok ip.
Proof. intros H. unfold cloneIP. by rewrite H. Qed.

(** The octets of a well-formed selector have the width of its type and are
    read back to its addresses. *)
Lemma selector_octets s : selector_wf s → ∃ w, addrLen (TS_Type s) = Ok w ∧
  (w = 4 ∨ w = 16) ∧
  len (ipOctets (StartAddr s)) = w ∧ len (ipOctets (EndAddr s)) = w ∧
  cloneIP (ipOctets (StartAddr s)) = Ok (StartAddr s) ∧
  cloneIP (ipOctets (EndAddr s)) = Ok (EndAddr s).
Proof.
  intros (_ & _ & _ & _ & H1 & H2 & [(Ht & Ha & Hb)|(Ht & Ha & Hb)]);
    rewrite !ipOctets_16 by done; rewrite Ht.
  - rewrite !bool_decide_true by done. exists 4.
    rewrite !cloneIP_mapped, !len_drop, H1, H2 by done. by auto 10.
  - rewrite !bool_decide_false by done. exists 16. rewrite !cloneIP_16 by done. by auto 10.
Qed.

Lemma parseTrafficSelector_bytes s rest : selector_wf s →
  parseTrafficSelector (selector_bytes s ++ rest) = Ok (s, rest).
Proof.
  intros W. destruct (selector_octets s W) as (w & Hw & Hww & Hl1 & Hl2 & Hc1 & Hc2).
  destruct W as (Hp & Hpo & Hpe & (c & Hc & Hc0) & Hs16 & He16 & _).
  unfold parseTrafficSelector, TsEntryFixedLen. set (b := _ ++ rest).
  set (o1 := ipOctets (StartAddr s)) in *. set (o2 := ipOctets (EndAddr s)) in *.
  pose proof (len_nonneg rest).
  assert (Eb : b = ([TS_Type s; TS_ProtocolID s] ++ putUint16 (8 + 2 * len o1)
     ++ putUint16 (StartPort s) ++ putUint16 (EndPort s)) ++ (o1 ++ o2) ++ rest).
  { subst b o1 o2. unfold selector_bytes, TsEntryFixedLen. by rewrite <- !app_assoc. }
  assert (Hb : len b = 8 + 2 * w + len rest) by (rewrite Eb; llia).
  replace (len b <? 8) with false by lia.
  replace (b.[0]) with (Ok (TS_Type s)) by reflexivity. run. rewrite Hw. run.
  replace (b.[1]) with (Ok (TS_ProtocolID s)) by reflexivity. run. rewrite Hp. cbn [Z.eqb negb].
  rewrite (slice_eq b 2 4 (putUint16 (8 + 2 * len o1))) by (lia || reflexivity). run.
  rewrite beUint16_put' by lia. run. rewrite Hl1, Z.eqb_refl. cbn [negb].
  replace (len b <? 8 + 2 * w) with false by lia.
  rewrite (slice_eq b 4 6 (putUint16 (StartPort s))) by (lia || reflexivity). run.
  rewrite beUint16_put' by lia. run.
  rewrite (slice_eq b 6 8 (putUint16 (EndPort s))) by (lia || reflexivity). run.
  rewrite beUint16_put' by lia. run. replace (EndPort s <? StartPort s) with false by lia.
  assert (slice b 8 (8 + 2 * w) = Ok (o1 ++ o2)) as -> by (rewrite Eb; apply slice_mid; llia).
  run. rewrite slice_prefix by done. run. rewrite Hc1. run.
  rewrite slice_from_suffix by done. run. rewrite Hc2. run.
  rewrite Hs16. cbn [Z.eqb negb]. rewrite Hc. run. replace (0 <? c) with false by lia.
  assert (slice_from b (8 + 2 * w) = Ok rest) as ->.
  { rewrite Eb, app_assoc. apply slice_from_suffix. llia. }
  run. rewrite <- Hp. by destruct s.
Qed.

Lemma ParseTS_loop ts i n acc fuel : Forall selector_wf ts → n = i + len ts →
  (length ts < fuel)%nat →
  loop fuel (ParseTS_step n) (i, concat (selector_bytes <$> ts), acc) = Ok ([], acc ++ ts).
Proof.
  intros H. revert i acc fuel. induction H as [|s ts Hs H IH]; intros i acc fuel Hn Hf;
    (destruct fuel as [|f]; [lia|]).
  - erewrite loop_inr; [by rewrite app_nil_r|]. unfold ParseTS_step.
    rewrite (@len_nil Selector) in *. by replace (i <? n) with false by lia.
  - rewrite len_cons in Hn. pose proof (len_nonneg ts). erewrite loop_inl.
    2: { cbn [fmap list_fmap concat]. unfold ParseTS_step. replace (i <? n) with true by lia.
         rewrite parseTrafficSelector_bytes by done. reflexivity. }
    rewrite IH by (simpl in *; lia). by rewrite <- app_assoc.
Qed.

Lemma ParseTS_bytes ts : Forall selector_wf ts → len ts <= 255 →
  ParseTS ([len ts; 0; 0; 0] ++ concat (selector_bytes <$> ts)) = Ok ts.
Proof.
  intros Hw Hl. unfold ParseTS, TsSelectorFixedLen. set (b := [len ts; 0; 0; 0] ++ _).
  assert (4 <= len b) by (subst b; llia). replace (len b <? 4) with false by lia.
  replace (b.[0]) with (Ok (len ts)) by reflexivity. run.
  rewrite (slice_eq b 1 4 [0;0;0]) by (lia || reflexivity). run.
  replace (b.[1]) with (Ok 0) by reflexivity. replace (b.[2]) with (Ok 0) by reflexivity.
  replace (b.[3]) with (Ok 0) by reflexivity. run. cbn [Z.eqb negb orb len].
  change (len [0; 0; 0] =? 0) with false. cbn [orb].
  assert (slice_from b 4 = Ok (concat (selector_bytes <$> ts))) as -> by (by apply slice_from_suffix).
  run. by rewrite ParseTS_loop by (done || lia || (unfold len; lia)).
Qed.

Lemma AppendTS_bytes dst ts : Forall selector_wf ts → len ts <= 255 →
  AppendTS dst ts = Ok (dst ++ [len ts; 0; 0; 0] ++ concat (selector_bytes <$> ts)).
Proof.
  intros Hw Hl. unfold AppendTS. replace (255 <? len ts) with false by lia.
  rewrite u8_small by (unfold is_byte; llia).
  rewrite appendTrafficSelectors_bytes; [by rewrite <- app_assoc|].
  eapply Forall_impl; [exact Hw|]. intros s W.
  destruct (selector_octets s W) as (w & _ & ? & ? & ? & _). lia.
Qed.

Lemma AppendConfigPayload_bytes dst cp : config_wf cp →
  AppendConfigPayload dst cp
  = Ok (dst ++ [Kind cp; 0; 0; 0] ++ concat (attribute_bytes <$> Attributes cp)).
Proof.
  intros (Hk & Ha). unfold AppendConfigPayload. replace (Kind cp =? 0) with false by lia.
  rewrite appendConfigAttributes_bytes; [by rewrite <- app_assoc|].
  eapply Forall_impl; [exact Ha|]. by intros a (_ & ?).
Qed.

(* ------------------------------------------------------------------ *)
(** ** The codec interface *)

(** What the message layer relies on: an append-style encoder and a decoder of
    payload bodies. *)
Class Codec (A : Type) := {
  codec_wf : A → Prop;
  encode : list Z → A → res (list Z);
  decode : list Z → res A }.

Class CodecLaws (A : Type) `{!Codec A} := {
  encode_appends dst x : codec_wf x → ∃ b, encode [] x = Ok b ∧ encode dst x = Ok (dst ++ b);
  decode_encode x b : codec_wf x → encode [] x = Ok b → decode b = Ok x;
  decode_returns b : bytes b → fine (decode b) }.

#[global] Instance Auth_codec : Codec Auth :=
  {| codec_wf _ := True; encode dst a := Ok (AppendAuth dst a); decode := ParseAuth |}.
#[global] Instance Cert_codec : Codec Cert :=
  {| codec_wf c := DER c ≠ []; encode dst c := Ok (AppendCert dst c); decode := ParseCert |}.
#[global] Instance ID_codec : Codec ID :=
  {| codec_wf i := ID_Data i ≠ []; encode dst i := Ok (AppendID dst i); decode := ParseID |}.
#[global] Instance KE_codec : Codec KeyExchange :=
  {| codec_wf k := KE_Data k ≠ [] ∧ 0 <= DHGroup k < 2 ^ 16;
     encode dst k := Ok (AppendKE dst k); decode := ParseKE |}.
#[global] Instance Notify_codec : Codec Notify :=
  {| codec_wf := notify_wf; encode := AppendNotify; decode := ParseNotify |}.
#[global] Instance Delete_codec : Codec Delete :=
  {| codec_wf := delete_wf; encode := AppendDelete; decode := ParseDelete |}.
#[global] Instance SA_codec : Codec SA :=
  {| codec_wf sa := sa ≠ [] ∧ Forall proposal_wf sa; encode := AppendSA; decode := ParseSA |}.
#[global] Instance CP_codec : Codec ConfigPayload :=
  {| codec_wf := config_wf; encode := AppendConfigPayload; decode := ParseConfigPayload |}.
#[global] Instance TS_codec : Codec (list Selector) :=
  {| codec_wf ts := Forall selector_wf ts ∧ len ts <= 255; encode := AppendTS;
     decode := ParseTS |}.

#[global] Instance Auth_laws : CodecLaws Auth.
Proof.
  split; simpl.
  - intros dst x _. eexists; split; [done|]. unfold AppendAuth. by rewrite <- app_assoc.
  - intros x b _ [= <-]. apply ParseAuth_append.
  - intros. apply ParseAuth_fine.
Qed.
#[global] Instance Cert_laws : CodecLaws Cert.
Proof.
  split; simpl.
  - intros dst x _. eexists; split; [done|]. unfold AppendCert. by rewrite <- app_assoc.
  - intros x b ? [= <-]. by apply ParseCert_append.
  - intros. apply ParseCert_fine.
Qed.
#[global] Instance ID_laws : CodecLaws ID.
Proof.
  split; simpl.
  - intros dst x _. eexists; split; [done|]. unfold AppendID. by rewrite <- app_assoc.
  - intros x b ? [= <-]. by apply ParseID_append.
  - intros. apply ParseID_fine.
Qed.
#[global] Instance KE_laws : CodecLaws KeyExchange.
Proof.
  split; simpl.
  - intros dst x _. eexists; split; [done|]. by rewrite !AppendKE_bytes.
  - intros x b [??] [= <-]. by apply ParseKE_append.
  - intros. apply ParseKE_fine.
Qed.
#[global] Instance Notify_laws : CodecLaws Notify.
Proof.
  split; simpl.
  - intros dst x (?&?&?). rewrite !AppendNotify_bytes by done. eauto.
  - intros x b W. pose proof W as (?&?&?). rewrite AppendNotify_bytes by done.
    intros [= <-]. by apply ParseNotify_bytes.
  - apply ParseNotify_fine.
Qed.
#[global] Instance Delete_laws : CodecLaws Delete.
Proof.
  split; simpl.
  - intros dst x (?&?). rewrite !AppendDelete_bytes by done. eauto.
  - intros x b W. pose proof W as (?&?). rewrite AppendDelete_bytes by done.
    intros [= <-]. by apply ParseDelete_bytes.
  - intros. apply ParseDelete_fine.
Qed.
Lemma proposal_wf_fits sa : Forall proposal_wf sa → Forall proposal_fits sa.
Proof. intros H. eapply Forall_impl; [exact H|]. by intros p (?&?&?&?&?). Qed.
#[global] Instance SA_laws : CodecLaws SA.
Proof.
  split; simpl.
  - intros dst x (?&?). rewrite !AppendSA_bytes by (by apply proposal_wf_fits). eauto.
  - intros x b (?&?). rewrite AppendSA_bytes by (by apply proposal_wf_fits).
    intros [= <-]. by apply ParseSA_bytes.
  - apply ParseSA_fine.
Qed.
#[global] Instance CP_laws : CodecLaws ConfigPayload.
Proof.
  split; simpl.
  - intros dst x ?. rewrite !AppendConfigPayload_bytes by done. eauto.
  - intros x b ?. rewrite AppendConfigPayload_bytes by done.
    intros [= <-]. by apply ParseConfigPayload_bytes.
  - apply ParseConfigPayload_fine.
Qed.
#[global] Instance TS_laws : CodecLaws (list Selector).
Proof.
  split; simpl.
  - intros dst x (?&?). rewrite !AppendTS_bytes by done. eauto.
  - intros x b (?&?). rewrite AppendTS_bytes by done. intros [= <-]. by apply ParseTS_bytes.
  - intros. apply ParseTS_fine.
Qed.

(** A payload of type [t] behind others of different types is the first one
    found. *)
Lemma find_chain_payload before t c body after nxt :
  Forall (λ p : outgoing, p.1.1 ≠ t) before →
  head (filter (λ p, Payload_Type p = t)
    (chain_payloads (before ++ [(t, c, body)] ++ after) nxt))
  = Some {| Payload_Type := t; Critical := c; Next := first_type after nxt; Body := body |}.
Proof.
  induction 1 as [|[[t' c'] body'] before Ht H IH]; cbn [app chain_payloads].
  - by rewrite filter_cons_True.
  - by rewrite filter_cons_False.
Qed.

(* ------------------------------------------------------------------ *)
(** ** Properties *)

(** Every payload decoder returns, with a value or an error, on every
    byte string the peer can send. *)
Theorem payload_decoders_total (b : list Z) : bytes b →
  fine (ParseAuth b) ∧ fine (ParseCert b) ∧ fine (ParseID b) ∧ fine (ParseKE b) ∧
  fine (ParseNonce b) ∧ fine (ParseNotify b) ∧ fine (ParseDelete b) ∧ fine (ParseSA b) ∧
  fine (ParseConfigPayload b) ∧ fine (ParseTS b) ∧ fine (ParseKeyLengthAttr b).
Proof.
  intros Hb. split_and!; auto using ParseAuth_fine, ParseCert_fine, ParseID_fine, ParseKE_fine,
    ParseNonce_fine, ParseNotify_fine, ParseDelete_fine, ParseSA_fine, ParseConfigPayload_fine,
    ParseTS_fine, ParseKeyLengthAttr_fine.
Qed.

(** SA round trip: proposals and their transforms, with the chain markers
    and the nested 16-bit lengths, are decoded to the encoded value. *)
Theorem sa_roundtrip (sa : SA) : sa ≠ [] → Forall proposal_wf sa →
  ∃ b, AppendSA [] sa = Ok b ∧ ParseSA b = Ok sa.
Proof.
  intros Hn Hw. rewrite AppendSA_bytes by (by apply proposal_wf_fits).
  eexists. split; [done|]. by apply ParseSA_bytes.
Qed.

(** Traffic-selector round trip for IPv4 ranges and for IPv6 ranges that
    are not IPv4-mapped. *)
Theorem ts_roundtrip (ts : list Selector) : Forall selector_wf ts → len ts <= 255 →
  ∃ b, AppendTS [] ts = Ok b ∧ ParseTS b = Ok ts.
Proof.
  intros Hw Hl. rewrite AppendTS_bytes by done. eexists. split; [done|]. by apply ParseTS_bytes.
Qed.

(** An IPv6 range that is IPv4-mapped is accepted by [ParseTS], but
    [AppendTS] then writes 4-byte addresses under the IPv6 selector type, a
    body that no longer parses: such selectors do not survive a round trip. *)
Theorem ts_mapped_not_roundtrip :
  ∃ b ts b', ParseTS b = Ok ts ∧ AppendTS [] ts = Ok b' ∧ ∃ e, ParseTS b' = Err e.
Proof.
  exists ([1;0;0;0; 8;0;0;40; 0;0;255;255] ++ IPv4 10 0 0 1 ++ IPv4 10 0 0 9).
  do 2 eexists. split_and!; [vm_compute; reflexivity..|]. eexists. vm_compute. reflexivity.
Qed.

(** Any payload type with a lawful codec travels through a message: when a
    well-formed value is encoded and pushed among other payloads, the receiver
    of the finished packet finds it by its type and decodes the same value. *)
Theorem message_carries {A} `{CodecLaws A} (h : Header) (before after : list outgoing)
    (t : Z) (critical : bool) (x : A) (body : list Z) (b : Builder) :
  header_wf h → Version h = IKEDefaultVersion → Z.ldiff (Flags h) flagsMask = 0 →
  Forall (λ p : outgoing, is_byte p.1.1 ∧ p.1.1 ≠ PayloadTypeSK ∧ p.1.1 ≠ PayloadTypeSKF)
    (before ++ [(t, critical, body)] ++ after) →
  Forall (λ p : outgoing, p.1.1 ≠ t) before →
  codec_wf x → encode [] x = Ok body →
  PushAll (NewBuilder h) (before ++ [(t, critical, body)] ++ after) = Ok b →
  ∃ m p, ParseMessage (Finish b) = Ok m ∧ FindPayload m t = Some p ∧ decode (Body p) = Ok x.
Proof.
  intros Hw Hv Hf Hps Hbf Hx He Hpush.
  do 2 eexists. split; [by apply ParseMessage_Finish|].
  split; [by apply find_chain_payload|]. by eapply decode_encode.
Qed.

Definition sample_sa : SA :=
  [{| Num := 1; ProtocolID := 3; Proposal_SPI := [1;2;3;4];
      Transforms := [{| Transform_Type := 1; Transform_ID := 20; Attrs := KeyLengthAttr 256 |};
                     {| Transform_Type := 5; Transform_ID := 0; Attrs := [] |}] |};
   {| Num := 2; ProtocolID := 3; Proposal_SPI := [1;2;3;4];
      Transforms := [{| Transform_Type := 1; Transform_ID := 12; Attrs := KeyLengthAttr 128 |}] |}].

Lemma sample_sa_wf : Forall proposal_wf sample_sa.
Proof.
  repeat constructor; vm_compute; try done; try (intros; discriminate).
Qed.

Lemma payload_decoders_total_witness :
  fine (ParseAuth [1;2;3]) ∧ fine (ParseCert [1;2;3]) ∧ fine (ParseID [1;2;3]) ∧
  fine (ParseKE [1;2;3]) ∧ fine (ParseNonce [1;2;3]) ∧ fine (ParseNotify [1;2;3]) ∧
  fine (ParseDelete [1;2;3]) ∧ fine (ParseSA [1;2;3]) ∧ fine (ParseConfigPayload [1;2;3]) ∧
  fine (ParseTS [1;2;3]) ∧ fine (ParseKeyLengthAttr [1;2;3]).
Proof. apply (payload_decoders_total [1;2;3]). by apply (bool_decide_unpack _). Defined.

Lemma sa_roundtrip_witness : ∃ b, AppendSA [] sample_sa = Ok b ∧ ParseSA b = Ok sample_sa.
Proof. apply (sa_roundtrip sample_sa); [done|apply sample_sa_wf]. Defined.

Definition sample_ts : list Selector :=
  [{| TS_Type := 7; TS_ProtocolID := 0; StartPort := 0; EndPort := 65535;
      StartAddr := IPv4 0 0 0 0; EndAddr := IPv4 255 255 255 255 |};
   {| TS_Type := 8; TS_ProtocolID := 0; StartPort := 0; EndPort := 65535;
      StartAddr := replicate 16 0; EndAddr := replicate 16 255 |}].

Lemma sample_ts_wf : Forall selector_wf sample_ts.
Proof.
  apply Forall_cons; split; [|apply Forall_cons; split; [|constructor]];
    (split; [done|]); (split; [done|]); (split; [done|]);
    (split; [by eexists; split; [vm_compute; reflexivity|]|]);
    (split; [done|]); (split; [done|]); [left|right]; by split_and!.
Qed.

Lemma ts_roundtrip_witness : ∃ b, AppendTS [] sample_ts = Ok b ∧ ParseTS b = Ok sample_ts.
Proof. apply (ts_roundtrip sample_ts); [apply sample_ts_wf|done]. Defined.

Lemma message_carries_witness :
  ∃ b m p, ParseMessage (Finish b) = Ok m ∧ FindPayload m 33 = Some p ∧
    decode (Body p) = Ok sample_sa.
Proof.
  eexists.
  apply (message_carries sample_header [(40, false, [9;9])] [(41, false, [])] 33 false sample_sa
    (sa_bytes sample_sa));
    [apply sample_header_wf|reflexivity|reflexivity| | |split; [done|apply sample_sa_wf]
    |vm_compute; reflexivity|vm_compute; reflexivity];
    by apply (bool_decide_unpack _).
Defined.
