(* ===== verification/Replay.v ===== *)
(** * ESP anti-replay window (src/esp/replay.go)

    [ReplayWindow] keeps the highest accepted sequence number and a 64-bit
    bitmap in machine words. The abstract specification keeps the set of all
    sequence numbers accepted so far; [Accept] refines it: a number is accepted
    exactly when it is non-zero, was never accepted before and does not lie 64
    or more below the highest one. *)

From S2P Require Import Prelude.

(* ------------------------------------------------------------------ *)
(** ** The window *)

Record ReplayWindow := mkReplayWindow { highest : Z; bitmap : Z }.

(** The zero value of the Go struct. *)
Definition zero_window : ReplayWindow := {| highest := 0; bitmap := 0 |}.

(** [Accept] returns the updated window and its verdict. [highest] and [seq]
    are uint32, [bitmap] is uint64: a shift drops the bits above 63. *)
Definition Accept (w : ReplayWindow) (seq : Z) : ReplayWindow * bool :=
  if seq =? 0 then (w, false)
  else if highest w =? 0 then ({| highest := seq; bitmap := 1 |}, true)
  else if highest w <? seq then
    let delta := u32 (seq - highest w) in
    let bm := if 64 <=? delta then 1
              else Z.lor (u64 (Z.shiftl (bitmap w) delta)) 1 in
    ({| highest := seq; bitmap := bm |}, true)
  else
  let delta := u32 (highest w - seq) in
  if 64 <=? delta then (w, false)
  else
  let bit := u64 (Z.shiftl 1 delta) in
  if negb (Z.land (bitmap w) bit =? 0) then (w, false)
  else ({| highest := highest w; bitmap := Z.lor (bitmap w) bit |}, true).

Definition Reset (w : ReplayWindow) : ReplayWindow := {| highest := 0; bitmap := 0 |}.

(** A run over received sequence numbers: the window it leaves and the verdict
    for each number. *)
Fixpoint AcceptAll (w : ReplayWindow) (seqs : list Z) : ReplayWindow * list bool :=
  match seqs with
  | [] => (w, [])
  | s :: seqs =>
      let '(w, v) := Accept w s in
      let '(w, vs) := AcceptAll w seqs in
      (w, v :: vs)
  end.

(* ------------------------------------------------------------------ *)
(** ** The abstract specification *)

Definition window_size : Z := 64.

(** The largest accepted number, 0 before the first. *)
Definition top (seen : gset Z) : Z := set_fold Z.max 0 seen.

(** The decision of RFC 4303 on the set of accepted numbers. *)
Definition spec_accepts (seen : gset Z) (seq : Z) : bool :=
  bool_decide (seq ≠ 0 ∧ (seq ∉ seen) ∧ top seen - seq < window_size).

Definition spec_step (seen : gset Z) (seq : Z) : gset Z * bool :=
  if spec_accepts seen seq then ({[seq]} ∪ seen, true) else (seen, false).

Fixpoint spec_all (seen : gset Z) (seqs : list Z) : gset Z * list bool :=
  match seqs with
  | [] => (seen, [])
  | s :: seqs =>
      let '(seen, v) := spec_step seen s in
      let '(seen, vs) := spec_all seen seqs in
      (seen, v :: vs)
  end.

(** The simulation relation: the words of the window describe the set. *)
Record window_rep (w : ReplayWindow) (seen : gset Z) : Prop := {
  rep_range : ∀ s, s ∈ seen → 1 <= s <= highest w;
  rep_high : highest w = 0 ∧ seen = ∅ ∨ highest w ∈ seen;
  rep_u32 : 0 <= highest w < 2 ^ 32;
  rep_u64 : 0 <= bitmap w < 2 ^ 64;
  rep_bits : ∀ i, 0 <= i < window_size →
    Z.testbit (bitmap w) i = bool_decide (highest w - i ∈ seen) }.

(* ------------------------------------------------------------------ *)
(** ** Lemmas *)

Lemma top_spec seen : (∀ s, s ∈ seen → 0 <= s) →
  (∀ s, s ∈ seen → s <= top seen) ∧ (seen = ∅ ∧ top seen = 0 ∨ top seen ∈ seen).
Proof.
  unfold top.
  apply (set_fold_ind_L (λ m X, (∀ s, s ∈ X → 0 <= s) →
    (∀ s, s ∈ X → s <= m) ∧ (X = ∅ ∧ m = 0 ∨ m ∈ X))).
  - set_solver.
  - intros x X r Hx IH H0. destruct IH as [IH1 IH2]; [set_solver|].
    assert (0 <= x) by (apply H0; set_solver).
    split.
    + intros s [->%elem_of_singleton|Hs]%elem_of_union; [lia|]. specialize (IH1 s Hs). lia.
    + right. destruct IH2 as [[-> ->]|Hr].
      * rewrite Z.max_l by lia. set_solver.
      * destruct (Z.max_spec x r) as [[_ ->]|[_ ->]]; set_solver.
Qed.

Lemma rep_top w seen : window_rep w seen → top seen = highest w.
Proof.
  intros R. destruct (top_spec seen) as [H1 H2].
  { intros s Hs. apply (rep_range _ _ R) in Hs. lia. }
  destruct (rep_high _ _ R) as [[Hz ->]|Hh].
  - destruct H2 as [[_ ->]|H2]; [by rewrite Hz|set_solver].
  - specialize (H1 _ Hh). destruct H2 as [[-> _]|H2]; [set_solver|].
    apply (rep_range _ _ R) in H2. lia.
Qed.

Lemma zero_window_rep : window_rep zero_window ∅.
Proof.
  constructor; simpl; try lia; [set_solver|by left|].
  intros i Hi. rewrite Z.bits_0. symmetry. apply bool_decide_eq_false. set_solver.
Qed.

(** Testing one bit with a mask. *)
Lemma land_bit a d : 0 <= d → (Z.land a (Z.shiftl 1 d) =? 0) = negb (Z.testbit a d).
Proof.
  intros Hd. rewrite Z.shiftl_1_l. destruct (Z.testbit a d) eqn:E; simpl.
  - apply Z.eqb_neq. intros H. apply (f_equal (λ z, Z.testbit z d)) in H.
    rewrite Z.land_spec, E, Z.pow2_bits_true, Z.bits_0 in H by lia. done.
  - apply Z.eqb_eq. apply Z.bits_inj'. intros n Hn. rewrite Z.land_spec, Z.bits_0.
    destruct (decide (n = d)) as [->|]; [by rewrite E|].
    by rewrite Z.pow2_bits_false, andb_false_r by lia.
Qed.

Lemma u64_bits z i : 0 <= i < 64 → Z.testbit (u64 z) i = Z.testbit z i.
Proof. intros. unfold u64. apply Z.mod_pow2_bits_low; lia. Qed.

Lemma u64_range z : 0 <= u64 z < 2 ^ 64.
Proof. unfold u64. apply Z.mod_pos_bound. lia. Qed.

Lemma lor_u64_range a b : 0 <= a < 2 ^ 64 → 0 <= b < 2 ^ 64 → 0 <= Z.lor a b < 2 ^ 64.
Proof.
  intros Ha Hb. assert (0 <= Z.lor a b) by (apply Z.lor_nonneg; lia). split; [done|].
  destruct (decide (Z.lor a b = 0)) as [->|]; [lia|].
  apply Z.log2_lt_pow2; [lia|]. rewrite Z.log2_lor by lia.
  assert (∀ x, 0 <= x < 2 ^ 64 → Z.log2 x < 64).
  { intros x Hx. destruct (decide (x = 0)) as [->|]; [done|]. apply Z.log2_lt_pow2; lia. }
  apply Z.max_lub_lt; auto.
Qed.

Lemma u64_bit d : 0 <= d < 64 → u64 (Z.shiftl 1 d) = Z.shiftl 1 d.
Proof.
  intros. unfold u64. rewrite Z.shiftl_1_l. apply Z.mod_small. split; [lia|].
  apply Z.pow_lt_mono_r; lia.
Qed.

Lemma u32_sub a b : 0 <= b <= a → a < 2 ^ 32 → u32 (a - b) = a - b.
Proof. intros. unfold u32. apply Z.mod_small. lia. Qed.

(** The three branches of [Accept] that change the window. *)
Lemma rep_first seq w seen : window_rep w seen → highest w = 0 → 1 <= seq < 2 ^ 32 →
  window_rep {| highest := seq; bitmap := 1 |} ({[seq]} ∪ seen).
Proof.
  intros R Hz Hs. assert (seen = ∅) as ->.
  { destruct (rep_high _ _ R) as [[_ ->]|H]; [done|]. apply (rep_range _ _ R) in H. lia. }
  constructor; simpl; try lia.
  - intros s. set_unfold. lia.
  - right. set_solver.
  - intros i Hi. destruct (decide (i = 0)) as [->|].
    + rewrite bool_decide_true; [done|]. rewrite Z.sub_0_r. set_solver.
    + rewrite bool_decide_false by (set_unfold; lia).
      change 1 with (2 ^ 0). apply Z.pow2_bits_false. lia.
Qed.

Lemma rep_advance seq w seen : window_rep w seen → highest w <> 0 → highest w < seq < 2 ^ 32 →
  window_rep {| highest := seq; bitmap :=
    if 64 <=? seq - highest w then 1
    else Z.lor (u64 (Z.shiftl (bitmap w) (seq - highest w))) 1 |} ({[seq]} ∪ seen).
Proof.
  intros R Hz Hs. pose proof (rep_u32 _ _ R). set (d := seq - highest w). constructor; simpl.
  - intros s [->%elem_of_singleton|Hm]%elem_of_union; [lia|].
    apply (rep_range _ _ R) in Hm. lia.
  - right. set_solver.
  - lia.
  - destruct (64 <=? d); [lia|]. apply lor_u64_range; [apply u64_range|lia].
  - intros i Hi. unfold window_size in *.
    assert (Hone : Z.testbit 1 i = bool_decide (i = 0)).
    { destruct (decide (i = 0)) as [->|]; [done|]. rewrite bool_decide_false by done.
      change 1 with (2 ^ 0). apply Z.pow2_bits_false. lia. }
    assert (Hold : d <= i ∨ (seq - i ∈ {[seq]} ∪ seen ↔ i = 0)).
    { destruct (decide (d <= i)); [by left|]. right. set_unfold. split; [|lia].
      intros [?|Hm]; [lia|]. apply (rep_range _ _ R) in Hm. lia. }
    destruct (64 <=? d) eqn:Ed.
    { destruct Hold as [?|Hold]; [lia|]. rewrite Hone. by apply bool_decide_ext. }
    rewrite Z.lor_spec, u64_bits, Z.shiftl_spec by lia.
    destruct (decide (d <= i)) as [Hdi|Hdi].
    + rewrite Hone, (bool_decide_false (i = 0)), orb_false_r, (rep_bits _ _ R) by (unfold window_size; lia).
      apply bool_decide_ext. replace (highest w - (i - d)) with (seq - i) by lia.
      set_unfold. split; [auto|]. intros [?|?]; [lia|done].
    + destruct Hold as [?|Hold]; [lia|]. rewrite Z.testbit_neg_r, orb_false_l, Hone by lia.
      by apply bool_decide_ext.
Qed.

Lemma rep_fill seq w seen : window_rep w seen → 1 <= seq <= highest w →
  highest w - seq < 64 →
  window_rep {| highest := highest w;
    bitmap := Z.lor (bitmap w) (Z.shiftl 1 (highest w - seq)) |} ({[seq]} ∪ seen).
Proof.
  intros R Hs Hd. constructor; simpl.
  - intros s [->%elem_of_singleton|Hm]%elem_of_union; [lia|]. by apply (rep_range _ _ R).
  - right. destruct (rep_high _ _ R) as [[? _]|?]; [lia|set_solver].
  - apply R.
  - apply lor_u64_range; [apply R|]. rewrite <- u64_bit by lia. apply u64_range.
  - intros i Hi. rewrite Z.lor_spec, Z.shiftl_1_l, (rep_bits _ _ R) by done.
    destruct (decide (i = highest w - seq)) as [->|].
    + rewrite Z.pow2_bits_true, orb_true_r by lia. symmetry. apply bool_decide_eq_true.
      set_unfold. lia.
    + rewrite Z.pow2_bits_false, orb_false_r by lia. apply bool_decide_ext. set_unfold.
      split; [auto|]. intros [?|?]; [lia|done].
Qed.

(** One step of the window simulates one step of the specification. *)
Lemma Accept_refines w seen seq : window_rep w seen → 0 <= seq < 2 ^ 32 →
  (Accept w seq).2 = spec_accepts seen seq ∧
  window_rep (Accept w seq).1 (spec_step seen seq).1.
Proof.
  intros R Hs. pose proof (rep_top _ _ R) as Ht. pose proof (rep_u32 _ _ R) as Hu.
  unfold spec_step. assert (Hdec : ∀ b : bool, (b ↔ seq ≠ 0 ∧ (seq ∉ seen) ∧ top seen - seq < window_size) →
    b = spec_accepts seen seq).
  { intros b Hb. unfold spec_accepts. destruct b; symmetry.
    - by apply bool_decide_eq_true, Hb.
    - by apply bool_decide_eq_false; intros ?%Hb. }
  unfold Accept. destruct (seq =? 0) eqn:E0.
  { rewrite <- (Hdec false); [done|]. simpl. split; [done|]. lia. }
  destruct (highest w =? 0) eqn:E1.
  { rewrite <- (Hdec true). { split; [done|]. apply rep_first with w; [done|lia|lia]. }
    split; [|done]. intros _. split_and!; [lia| |unfold window_size; lia].
    intros Hm. apply (rep_range _ _ R) in Hm. lia. }
  destruct (highest w <? seq) eqn:E2.
  { rewrite <- (Hdec true). { rewrite u32_sub by lia. split; [done|]. apply rep_advance; [done|lia|lia]. }
    split; [|done]. intros _. split_and!; [lia| |unfold window_size; lia].
    intros Hm. apply (rep_range _ _ R) in Hm. lia. }
  rewrite u32_sub by lia. destruct (64 <=? highest w - seq) eqn:E3.
  { rewrite <- (Hdec false); [done|]. unfold window_size. split; [done|]. lia. }
  rewrite u64_bit, land_bit, negb_involutive by lia.
  pose proof (rep_bits _ _ R (highest w - seq) ltac:(unfold window_size; lia)) as Hb.
  replace (highest w - (highest w - seq)) with seq in Hb by lia. rewrite Hb.
  destruct (bool_decide (seq ∈ seen)) eqn:E4.
  { apply bool_decide_eq_true in E4. rewrite <- (Hdec false); [done|]. split; [done|]. naive_solver. }
  apply bool_decide_eq_false in E4. rewrite <- (Hdec true).
  { split; [done|]. apply rep_fill; [done|lia|lia]. }
  split; [|done]. intros _. split_and!; [lia|done|unfold window_size; lia].
Qed.

(** A rejected number leaves the window as it is. *)
Lemma Accept_reject w seq : (Accept w seq).2 = false → (Accept w seq).1 = w.
Proof. unfold Accept. by repeat case_match. Qed.

Definition seqs_ok (seqs : list Z) : Prop := Forall (λ s, 0 <= s < 2 ^ 32) seqs.

Lemma AcceptAll_refines seqs w seen : window_rep w seen → seqs_ok seqs →
  (AcceptAll w seqs).2 = (spec_all seen seqs).2 ∧
  window_rep (AcceptAll w seqs).1 (spec_all seen seqs).1.
Proof.
  intros R H. revert w seen R. induction H as [|s seqs Hs H IH]; intros w seen R; simpl; [done|].
  destruct (Accept_refines w seen s R Hs) as [Hv Hr].
  destruct (Accept w s) as [w' v] eqn:EA, (spec_step seen s) as [seen' v'] eqn:ES. simpl in *.
  assert (v = v') as ->.
  { rewrite Hv. unfold spec_step in ES. destruct (spec_accepts seen s); by injection ES. }
  destruct (IH w' seen' Hr) as [Hv' Hr'].
  destruct (AcceptAll w' seqs), (spec_all seen' seqs). simpl in *. by subst.
Qed.

(** The accepted numbers of a run, in order. *)
Definition accepted (seqs : list Z) (vs : list bool) : list Z :=
  (fst <$> filter (λ p, p.2 = true) (zip seqs vs)).

Lemma spec_all_fresh seqs seen :
  NoDup (accepted seqs (spec_all seen seqs).2) ∧
  (∀ s, s ∈ accepted seqs (spec_all seen seqs).2 → s ∉ seen).
Proof.
  revert seen. induction seqs as [|s seqs IH]; intros seen.
  { split; [constructor|set_solver]. }
  cbn [spec_all]. unfold spec_step. destruct (spec_accepts seen s) eqn:E.
  - destruct (IH ({[s]} ∪ seen)) as [H1 H2]. destruct (spec_all _ seqs) as [w vs]. simpl in *.
    unfold accepted in *. cbn [zip_with snd]. rewrite filter_cons_True by done.
    cbn [fmap list_fmap fst]. split.
    + constructor; [|done]. intros Hin. apply H2 in Hin. set_solver.
    + intros x [->|Hx]%elem_of_cons.
      * unfold spec_accepts in E. apply bool_decide_eq_true in E. tauto.
      * apply H2 in Hx. set_solver.
  - destruct (IH seen) as [H1 H2]. destruct (spec_all _ seqs) as [w vs]. simpl in *.
    unfold accepted in *. cbn [zip_with snd]. by rewrite filter_cons_False by done.
Qed.

(* ------------------------------------------------------------------ *)
(** ** Properties *)

(** [C6] Refinement: over any sequence of 32-bit sequence numbers, starting
    from a fresh window, the bitmap implementation takes exactly the decisions
    of the set-based specification and its words describe the set of accepted
    numbers. *)
Theorem replay_refinement (seqs : list Z) : seqs_ok seqs →
  (AcceptAll zero_window seqs).2 = (spec_all ∅ seqs).2 ∧
  window_rep (AcceptAll zero_window seqs).1 (spec_all ∅ seqs).1.
Proof. apply AcceptAll_refines, zero_window_rep. Qed.

(** No sequence number is ever accepted twice in the lifetime of a
    window, whatever the arrival order. *)
Theorem replay_no_duplicates (seqs : list Z) : seqs_ok seqs →
  NoDup (accepted seqs (AcceptAll zero_window seqs).2).
Proof.
  intros H. destruct (AcceptAll_refines seqs _ _ zero_window_rep H) as [-> _].
  apply spec_all_fresh.
Qed.

Lemma replay_refinement_witness :
  (AcceptAll zero_window [5; 3; 5; 80; 4; 0]).2 = (spec_all ∅ [5; 3; 5; 80; 4; 0]).2 ∧
  window_rep (AcceptAll zero_window [5; 3; 5; 80; 4; 0]).1 (spec_all ∅ [5; 3; 5; 80; 4; 0]).1.
Proof. apply (replay_refinement [5; 3; 5; 80; 4; 0]). by apply (bool_decide_unpack _). Defined.

Lemma replay_no_duplicates_witness :
  NoDup (accepted [7; 7; 9; 8; 7; 9] (AcceptAll zero_window [7; 7; 9; 8; 7; 9]).2).
Proof. apply (replay_no_duplicates [7; 7; 9; 8; 7; 9]). by apply (bool_decide_unpack _). Defined.
