(* ===== verification/Suite.v ===== *)
(** * Algorithm registry and negotiation (src/xcrypto: suite.go, cipher.go,
      hmac.go, prf.go, dh.go)

    The static descriptions of ciphers, integrity transforms, PRFs and the DH
    group, the strongSwan-style proposal parser and [Select]. The theorems show
    which proposals the parser lets through, that a selection is sound (every
    algorithm was offered by both sides, AEAD and integrity are consistent) and
    follows the local preference order, and when a proposal can be negotiated
    at all. *)

From Stdlib Require Import Ascii.
From stdpp Require Import pretty.
From S2P Require Import Prelude.

(* ------------------------------------------------------------------ *)
(** ** Transform identifiers (suite.go) *)

Definition TransformDHCurve25519 : Z := 31.
Definition TransformPRFHMACSHA1 : Z := 2.
Definition TransformPRFHMACSHA256 : Z := 5.
Definition TransformPRFHMACSHA512 : Z := 7.
Definition TransformIntegrityNone : Z := 0.
Definition TransformIntegrityHMACSHA196 : Z := 2.
Definition TransformIntegrityHMACSHA2256128 : Z := 12.
Definition TransformIntegrityHMACSHA2384192 : Z := 13.
Definition TransformIntegrityHMACSHA2512256 : Z := 14.
Definition TransformEncryptionAESCBC : Z := 12.
Definition TransformEncryptionAESCCM8 : Z := 14.
Definition TransformEncryptionAESCCM12 : Z := 15.
Definition TransformEncryptionAESCCM16 : Z := 16.
Definition TransformEncryptionAESGCM12 : Z := 19.
Definition TransformEncryptionAESGCM16 : Z := 20.

Record EncryptionID := mkEncryptionID { EncID_TransformID : Z; EncID_KeyLen : Z }.

#[global] Instance EncryptionID_eq_dec : EqDecision EncryptionID.
Proof. solve_decision. Defined.

Record Proposal := mkProposal {
  Encryption : list EncryptionID;
  Integrities : list Z;
  PRFs : list Z;
  DHs : list Z }.

(** The hash constructors passed to [crypto/hmac] ([sha1.New] and so on). *)
Inductive HashKind := HashSHA1 | HashSHA256 | HashSHA384 | HashSHA512.

#[global] Instance HashKind_eq_dec : EqDecision HashKind.
Proof. solve_decision. Defined.

(* ------------------------------------------------------------------ *)
(** ** Algorithm descriptions *)

(** cipher.go *)
Record EncryptionAlg := mkEncryptionAlg {
  Enc_TransformID : Z;
  Enc_Name : string;
  TransformKeyLen : Z;
  Enc_KeyLen : Z;
  SaltLen : Z;
  IVLen : Z;
  BlockLen : Z;
  ICVLen : Z;
  AEAD : bool }.

Definition NewEncryption (transformID keyLen : Z) : res EncryptionAlg :=
  if negb (keyLen =? 16) && negb (keyLen =? 32) then
    Err "xcrypto: unsupported AES key length %d"
  else
  let kl := keyLen in
  let baseName := if kl =? 32 then "aes256"%string else "aes128"%string in
  if transformID =? TransformEncryptionAESCBC then
    Ok {| Enc_TransformID := transformID; Enc_Name := baseName;
          TransformKeyLen := kl; Enc_KeyLen := kl; SaltLen := 0;
          IVLen := 16; BlockLen := 16; ICVLen := 0; AEAD := false |}
  else if (transformID =? TransformEncryptionAESCCM8)
       || (transformID =? TransformEncryptionAESCCM12)
       || (transformID =? TransformEncryptionAESCCM16) then
    let tag := if transformID =? TransformEncryptionAESCCM12 then 12
               else if transformID =? TransformEncryptionAESCCM16 then 16 else 8 in
    Ok {| Enc_TransformID := transformID; Enc_Name := baseName +:+ "ccm" +:+ pretty tag;
          TransformKeyLen := kl; Enc_KeyLen := kl + 3; SaltLen := 3;
          IVLen := 8; BlockLen := 1; ICVLen := tag; AEAD := true |}
  else if (transformID =? TransformEncryptionAESGCM12)
       || (transformID =? TransformEncryptionAESGCM16) then
    let tag := if transformID =? TransformEncryptionAESGCM16 then 16 else 12 in
    Ok {| Enc_TransformID := transformID; Enc_Name := baseName +:+ "gcm" +:+ pretty tag;
          TransformKeyLen := kl; Enc_KeyLen := kl + 4; SaltLen := 4;
          IVLen := 8; BlockLen := 1; ICVLen := tag; AEAD := true |}
  else Err "xcrypto: unsupported encryption transform %d".

(** hmac.go; [newHMAC] is nil for the AEAD placeholder. *)
Record Integrity := mkIntegrity {
  Integ_TransformID : Z;
  Integ_OutputLen : Z;
  Integ_KeyLen : Z;
  Integ_newHMAC : option HashKind }.

Definition NewIntegrity (id : Z) : res Integrity :=
  if id =? TransformIntegrityNone then
    Ok {| Integ_TransformID := id; Integ_OutputLen := 0; Integ_KeyLen := 0;
          Integ_newHMAC := None |}
  else if id =? TransformIntegrityHMACSHA196 then
    Ok {| Integ_TransformID := id; Integ_OutputLen := 12; Integ_KeyLen := 20;
          Integ_newHMAC := Some HashSHA1 |}
  else if id =? TransformIntegrityHMACSHA2256128 then
    Ok {| Integ_TransformID := id; Integ_OutputLen := 16; Integ_KeyLen := 32;
          Integ_newHMAC := Some HashSHA256 |}
  else if id =? TransformIntegrityHMACSHA2384192 then
    Ok {| Integ_TransformID := id; Integ_OutputLen := 24; Integ_KeyLen := 48;
          Integ_newHMAC := Some HashSHA384 |}
  else if id =? TransformIntegrityHMACSHA2512256 then
    Ok {| Integ_TransformID := id; Integ_OutputLen := 32; Integ_KeyLen := 64;
          Integ_newHMAC := Some HashSHA512 |}
  else Err "xcrypto: unsupported integrity transform %d".

(** prf.go *)
Record PRF := mkPRF {
  PRF_TransformID : Z;
  PRF_OutputLen : Z;
  PRF_newHMAC : option HashKind }.

Definition NewPRF (id : Z) : res PRF :=
  if id =? TransformPRFHMACSHA1 then
    Ok {| PRF_TransformID := id; PRF_OutputLen := 20; PRF_newHMAC := Some HashSHA1 |}
  else if id =? TransformPRFHMACSHA256 then
    Ok {| PRF_TransformID := id; PRF_OutputLen := 32; PRF_newHMAC := Some HashSHA256 |}
  else if id =? TransformPRFHMACSHA512 then
    Ok {| PRF_TransformID := id; PRF_OutputLen := 64; PRF_newHMAC := Some HashSHA512 |}
  else Err "xcrypto: unsupported PRF transform %d".

(** dh.go *)
Record DH := mkDH { DH_TransformID : Z; DH_Name : string }.

Definition newDH (group : Z) : res DH :=
  if group =? TransformDHCurve25519 then
    Ok {| DH_TransformID := group; DH_Name := "curve25519" |}
  else Err "xcrypto: unsupported DH group %d".

(** The pointers of a [Selection]: [None] is nil. *)
Record Selection := mkSelection {
  Sel_Encryption : option EncryptionAlg;
  Sel_Integrity : option Integrity;
  Sel_PRF : option PRF;
  Sel_DH : option DH }.

(* ------------------------------------------------------------------ *)
(** ** Token tables and the proposal parser *)

Local Open Scope string_scope.

Definition encryptionTokens : gmap string EncryptionID := list_to_map
  [("aes", mkEncryptionID TransformEncryptionAESCBC 16);
   ("aes128", mkEncryptionID TransformEncryptionAESCBC 16);
   ("aes256", mkEncryptionID TransformEncryptionAESCBC 32);
   ("aes128ccm8", mkEncryptionID TransformEncryptionAESCCM8 16);
   ("aes128ccm64", mkEncryptionID TransformEncryptionAESCCM8 16);
   ("aes128ccm12", mkEncryptionID TransformEncryptionAESCCM12 16);
   ("aes128ccm96", mkEncryptionID TransformEncryptionAESCCM12 16);
   ("aes128ccm16", mkEncryptionID TransformEncryptionAESCCM16 16);
   ("aes128ccm128", mkEncryptionID TransformEncryptionAESCCM16 16);
   ("aes256ccm8", mkEncryptionID TransformEncryptionAESCCM8 32);
   ("aes256ccm64", mkEncryptionID TransformEncryptionAESCCM8 32);
   ("aes256ccm12", mkEncryptionID TransformEncryptionAESCCM12 32);
   ("aes256ccm96", mkEncryptionID TransformEncryptionAESCCM12 32);
   ("aes256ccm16", mkEncryptionID TransformEncryptionAESCCM16 32);
   ("aes256ccm128", mkEncryptionID TransformEncryptionAESCCM16 32);
   ("aes128gcm12", mkEncryptionID TransformEncryptionAESGCM12 16);
   ("aes128gcm96", mkEncryptionID TransformEncryptionAESGCM12 16);
   ("aes128gcm", mkEncryptionID TransformEncryptionAESGCM16 16);
   ("aes128gcm16", mkEncryptionID TransformEncryptionAESGCM16 16);
   ("aes128gcm128", mkEncryptionID TransformEncryptionAESGCM16 16);
   ("aes256gcm12", mkEncryptionID TransformEncryptionAESGCM12 32);
   ("aes256gcm96", mkEncryptionID TransformEncryptionAESGCM12 32);
   ("aes256gcm", mkEncryptionID TransformEncryptionAESGCM16 32);
   ("aes256gcm16", mkEncryptionID TransformEncryptionAESGCM16 32);
   ("aes256gcm128", mkEncryptionID TransformEncryptionAESGCM16 32)].

Definition integrityTokens : gmap string Z := list_to_map
  [("sha", TransformIntegrityHMACSHA196);
   ("sha1", TransformIntegrityHMACSHA196);
   ("sha256", TransformIntegrityHMACSHA2256128);
   ("sha2_256", TransformIntegrityHMACSHA2256128);
   ("sha384", TransformIntegrityHMACSHA2384192);
   ("sha2_384", TransformIntegrityHMACSHA2384192);
   ("sha512", TransformIntegrityHMACSHA2512256);
   ("sha2_512", TransformIntegrityHMACSHA2512256)].

Definition prfTokens : gmap string Z := list_to_map
  [("prfsha1", TransformPRFHMACSHA1);
   ("prfsha256", TransformPRFHMACSHA256);
   ("prfsha2_256", TransformPRFHMACSHA256);
   ("prfsha512", TransformPRFHMACSHA512);
   ("prfsha2_512", TransformPRFHMACSHA512)].

Definition dhTokens : gmap string Z := list_to_map
  [("curve25519", TransformDHCurve25519); ("x25519", TransformDHCurve25519)].

Local Close Scope string_scope.

(** The byte-wise scan shared by [splitTokens] and [commaSplit]: [cur] is the
    text since the last separator. *)
Fixpoint split_at (sep : ascii) (cur s : string) : list string :=
  match s with
  | EmptyString => [cur]
  | String c s =>
      if bool_decide (c = sep) then cur :: split_at sep ""%string s
      else split_at sep (cur +:+ String c ""%string) s
  end.

Definition splitTokens (s : string) : list string := split_at "-"%char ""%string s.

(** Drops leading spaces. *)
Fixpoint trim_left (s : string) : string :=
  match s with
  | String c s' => if bool_decide (c = " "%char) then trim_left s' else s
  | EmptyString => s
  end.
(** Drops trailing spaces. *)
Fixpoint trim_right (s : string) : string :=
  match s with
  | EmptyString => ""%string
  | String c s' =>
      match trim_right s' with
      | EmptyString => if bool_decide (c = " "%char) then ""%string else String c ""%string
      | r => String c r
      end
  end.

Definition commaSplit (s : string) : list string :=
  filter (λ part, part ≠ ""%string) ((λ part, trim_right (trim_left part)) <$> split_at ","%char ""%string s).

(** [pushEncryption], [pushU16]: append unless present. *)
Definition push_new {A} `{EqDecision A} (l : list A) (v : A) : list A :=
  if bool_decide (v ∈ l) then l else l ++ [v].

Definition pushEncryption (l : list EncryptionID) (v : EncryptionID) : list EncryptionID :=
  push_new l v.
Definition pushU16 (l : list Z) (v : Z) : list Z := push_new l v.
Definition hasEncryption (l : list EncryptionID) (v : EncryptionID) : bool := bool_decide (v ∈ l).
Definition hasU16 (l : list Z) (v : Z) : bool := bool_decide (v ∈ l).

Definition prfFromIntegrity (id : Z) : Z :=
  if id =? TransformIntegrityHMACSHA196 then TransformPRFHMACSHA1
  else if id =? TransformIntegrityHMACSHA2256128 then TransformPRFHMACSHA256
  else if id =? TransformIntegrityHMACSHA2512256 then TransformPRFHMACSHA512
  else 0.

(** One token of the first loop of [ParseProposal]. *)
Definition ParseProposal_token (p : Proposal) (token : string) : res Proposal :=
  if bool_decide (token = ""%string) then Ok p else
  match encryptionTokens !! token with
  | Some enc => Ok {| Encryption := pushEncryption (Encryption p) enc;
      Integrities := Integrities p; PRFs := PRFs p; DHs := DHs p |}
  | None =>
  match integrityTokens !! token with
  | Some id => Ok {| Encryption := Encryption p;
      Integrities := pushU16 (Integrities p) id; PRFs := PRFs p; DHs := DHs p |}
  | None =>
  match prfTokens !! token with
  | Some id => Ok {| Encryption := Encryption p;
      Integrities := Integrities p; PRFs := pushU16 (PRFs p) id; DHs := DHs p |}
  | None =>
  match dhTokens !! token with
  | Some id => Ok {| Encryption := Encryption p;
      Integrities := Integrities p; PRFs := PRFs p; DHs := pushU16 (DHs p) id |}
  | None => Err "xcrypto: unsupported strongswan proposal token %q"
  end end end end.

Fixpoint ParseProposal_tokens (p : Proposal) (tokens : list string) : res Proposal :=
  match tokens with
  | [] => Ok p
  | t :: ts => p ← ParseProposal_token p t; ParseProposal_tokens p ts
  end.

(** The loop that computes [hasAEAD] and [hasNonAEAD]. *)
Fixpoint aead_flags (encs : list EncryptionID) (hasAEAD hasNonAEAD : bool) : res (bool * bool) :=
  match encs with
  | [] => Ok (hasAEAD, hasNonAEAD)
  | enc :: encs =>
      alg ← NewEncryption (EncID_TransformID enc) (EncID_KeyLen enc);
      if AEAD alg then aead_flags encs true hasNonAEAD else aead_flags encs hasAEAD true
  end.

(** The loop that fills in default PRFs. *)
Fixpoint default_prfs (prfs integs : list Z) : res (list Z) :=
  match integs with
  | [] => Ok prfs
  | id :: integs =>
      let def := prfFromIntegrity id in
      if def =? 0 then
        Err "xcrypto: integrity transform %d has no default PRF; add an explicit PRF"
      else default_prfs (pushU16 prfs def) integs
  end.

Definition ParseProposal (s : string) : res Proposal :=
  p ← ParseProposal_tokens (mkProposal [] [] [] []) (splitTokens s);
  if len (Encryption p) =? 0 then Err "xcrypto: proposal is missing an encryption transform"
  else if len (DHs p) =? 0 then Err "xcrypto: proposal is missing a DH group"
  else
  '(hasAEAD, hasNonAEAD) ← aead_flags (Encryption p) false false;
  if hasAEAD && hasNonAEAD then
    Err "xcrypto: mixed AEAD and non-AEAD encryption transforms in one proposal"
  else
  _ ← (if (hasAEAD : bool) then
         if negb (len (Integrities p) =? 0) then
           Err "xcrypto: AEAD proposal must not include integrity transforms"
         else Ok tt
       else if len (Integrities p) =? 0 then
         Err "xcrypto: non-AEAD proposal is missing an integrity transform"
       else Ok tt);
  prfs ← (if len (PRFs p) =? 0 then default_prfs (PRFs p) (Integrities p) else Ok (PRFs p));
  if len prfs =? 0 then Err "xcrypto: proposal is missing a PRF"
  else Ok {| Encryption := Encryption p; Integrities := Integrities p; PRFs := prfs;
             DHs := DHs p |}.

Fixpoint ParseProposals_parts (parts : list string) : res (list Proposal) :=
  match parts with
  | [] => Ok []
  | part :: parts =>
      p ← ParseProposal part; ps ← ParseProposals_parts parts; Ok (p :: ps)
  end.

Definition ParseProposals (s : string) : res (list Proposal) :=
  out ← ParseProposals_parts (commaSplit s);
  if bool_decide (commaSplit s = []) then Err "xcrypto: proposal list is empty" else Ok out.

(* ------------------------------------------------------------------ *)
(** ** Negotiation *)

Definition prfMatchesIntegrity (prf : Z) (integ : option Integrity) : bool :=
  match integ with
  | None => false
  | Some i =>
      if Integ_TransformID i =? TransformIntegrityNone then true
      else prfFromIntegrity (Integ_TransformID i) =? prf
  end.

Fixpoint selectEncryption_loop (p remote : Proposal) (wants : list EncryptionID) :
    res EncryptionAlg :=
  match wants with
  | [] => Err "xcrypto: no compatible encryption transform"
  | want :: wants =>
      if negb (hasEncryption (Encryption remote) want) then selectEncryption_loop p remote wants
      else
      alg ← NewEncryption (EncID_TransformID want) (EncID_KeyLen want);
      if AEAD alg && (negb (len (Integrities p) =? 0) || negb (len (Integrities remote) =? 0)) then
        Err "xcrypto: AEAD proposal must not negotiate integrity transforms"
      else Ok alg
  end.
Definition selectEncryption (p remote : Proposal) : res EncryptionAlg :=
  selectEncryption_loop p remote (Encryption p).

Fixpoint selectIntegrity_loop (remote : Proposal) (wants : list Z) : res Integrity :=
  match wants with
  | [] => Err "xcrypto: no compatible integrity transform"
  | want :: wants =>
      if negb (hasU16 (Integrities remote) want) then selectIntegrity_loop remote wants
      else NewIntegrity want
  end.
Definition selectIntegrity (p remote : Proposal) : res Integrity :=
  selectIntegrity_loop remote (Integrities p).

Fixpoint selectPRF_loop (remote : Proposal) (i : Integrity) (wants : list Z) : res PRF :=
  match wants with
  | [] =>
      if negb (Integ_TransformID i =? TransformIntegrityNone) then
        let id := prfFromIntegrity (Integ_TransformID i) in
        if negb (id =? 0) && hasU16 (PRFs remote) id then NewPRF id
        else Err "xcrypto: no compatible PRF transform"
      else Err "xcrypto: no compatible PRF transform"
  | want :: wants =>
      if negb (prfMatchesIntegrity want (Some i)) || negb (hasU16 (PRFs remote) want)
      then selectPRF_loop remote i wants
      else NewPRF want
  end.
Definition selectPRF (p remote : Proposal) (integ : option Integrity) : res PRF :=
  match integ with
  | None => Err "xcrypto: no integrity selection for PRF negotiation"
  | Some i => selectPRF_loop remote i (PRFs p)
  end.

Fixpoint selectDH_loop (remote : Proposal) (wants : list Z) : res DH :=
  match wants with
  | [] => Err "xcrypto: no compatible DH group"
  | want :: wants =>
      if negb (hasU16 (DHs remote) want) then selectDH_loop remote wants
      else if want =? TransformDHCurve25519 then
        Ok {| DH_TransformID := want; DH_Name := "curve25519" |}
      else selectDH_loop remote wants
  end.
Definition selectDH (p remote : Proposal) : res DH := selectDH_loop remote (DHs p).

(** [Select]; [remote] is never nil at the call sites, a nil argument is an
    error. *)
Definition Select (p : Proposal) (remote : option Proposal) : res Selection :=
  match remote with
  | None => Err "xcrypto: nil remote proposal"
  | Some remote =>
      enc ← selectEncryption p remote;
      integ ← (if AEAD enc then NewIntegrity TransformIntegrityNone
               else selectIntegrity p remote);
      prf ← selectPRF p remote (Some integ);
      dh ← selectDH p remote;
      Ok {| Sel_Encryption := Some enc; Sel_Integrity := Some integ; Sel_PRF := Some prf;
            Sel_DH := Some dh |}
  end.

(* ------------------------------------------------------------------ *)
(** ** Lemmas: algorithm descriptions *)

(** What every cipher description the registry hands out satisfies. *)
Record enc_wf (a : EncryptionAlg) : Prop := {
  ew_key : Enc_KeyLen a = TransformKeyLen a + SaltLen a;
  ew_aes : TransformKeyLen a = 16 ∨ TransformKeyLen a = 32;
  ew_iv : 0 < IVLen a;
  ew_block : BlockLen a = if AEAD a then 1 else 16;
  ew_icv : if AEAD a then 8 <= ICVLen a <= 16 ∧ IVLen a = 8 else ICVLen a = 0 ∧ IVLen a = 16;
  ew_salt : SaltLen a = if AEAD a then (if Enc_TransformID a <=? 16 then 3 else 4) else 0 }.

Lemma NewEncryption_wf id kl a : NewEncryption id kl = Ok a →
  enc_wf a ∧ Enc_TransformID a = id ∧ TransformKeyLen a = kl.
Proof.
  unfold NewEncryption. intros H.
  destruct (negb (kl =? 16) && negb (kl =? 32)) eqn:Ek; [done|].
  destruct (id =? TransformEncryptionAESCBC) eqn:E1.
  { injection H as <-. split; [|done]. constructor; simpl; lia. }
  destruct (_ || _ || _) eqn:E2 in H.
  { injection H as <-. split; [|done].
    unfold TransformEncryptionAESCCM8, TransformEncryptionAESCCM12, TransformEncryptionAESCCM16 in *.
    constructor; simpl; try lia.
    - destruct (id =? 15), (id =? 16); lia.
    - by replace (id <=? 16) with true by lia. }
  destruct (_ || _) eqn:E3 in H; [|done]. injection H as <-. split; [|done].
  unfold TransformEncryptionAESGCM12, TransformEncryptionAESGCM16 in *.
  constructor; simpl; try lia.
  - destruct (id =? 20); lia.
  - by replace (id <=? 16) with false by lia.
Qed.

Lemma NewIntegrity_id id i : NewIntegrity id = Ok i → Integ_TransformID i = id.
Proof. unfold NewIntegrity. intros H. repeat (case_match; [by inv_ok|]). done. Qed.

Lemma NewPRF_id id i : NewPRF id = Ok i → PRF_TransformID i = id.
Proof. unfold NewPRF. intros H. repeat (case_match; [by inv_ok|]). done. Qed.

(** Registered identifiers resolve. *)
Definition enc_known (e : EncryptionID) : bool :=
  is_ok (NewEncryption (EncID_TransformID e) (EncID_KeyLen e)).
Definition integ_known (id : Z) : bool := is_ok (NewIntegrity id) && negb (id =? 0).
Definition prf_known (id : Z) : bool := is_ok (NewPRF id).

(** What the tables of [ParseProposal] can put into a proposal. *)
Record tokens_wf (p : Proposal) : Prop := {
  tw_enc : Forall (λ e, enc_known e = true) (Encryption p) ∧ NoDup (Encryption p);
  tw_int : Forall (λ i, integ_known i = true) (Integrities p) ∧ NoDup (Integrities p);
  tw_prf : Forall (λ i, prf_known i = true) (PRFs p) ∧ NoDup (PRFs p);
  tw_dh : Forall (λ i, i = TransformDHCurve25519) (DHs p) ∧ NoDup (DHs p) }.

Lemma encryptionTokens_known : map_Forall (λ _ e, enc_known e = true) encryptionTokens.
Proof. apply (bool_decide_unpack _). vm_compute. done. Qed.
Lemma integrityTokens_known : map_Forall (λ _ i, integ_known i = true) integrityTokens.
Proof. apply (bool_decide_unpack _). vm_compute. done. Qed.
Lemma prfTokens_known : map_Forall (λ _ i, prf_known i = true) prfTokens.
Proof. apply (bool_decide_unpack _). vm_compute. done. Qed.
Lemma dhTokens_known : map_Forall (λ _ i, i = TransformDHCurve25519) dhTokens.
Proof. apply (bool_decide_unpack _). vm_compute. done. Qed.

Lemma push_new_wf {A} `{EqDecision A} (P : A → Prop) l v :
  P v → Forall P l ∧ NoDup l → Forall P (push_new l v) ∧ NoDup (push_new l v).
Proof.
  intros Hv [Hf Hn]. unfold push_new. case_bool_decide as E; [done|]. split.
  - apply Forall_app. auto.
  - apply NoDup_app. split_and!; [done| |apply NoDup_singleton].
    intros x Hx ->%list_elem_of_singleton. done.
Qed.

Lemma ParseProposal_token_wf p t p' : tokens_wf p → ParseProposal_token p t = Ok p' → tokens_wf p'.
Proof.
  intros [He Hi Hp Hd]. unfold ParseProposal_token. case_bool_decide; [by intros [= <-]|].
  destruct (encryptionTokens !! t) eqn:E1.
  { intros [= <-]. constructor; simpl; auto.
    apply (push_new_wf (λ e, enc_known e = true)); [|done]. by eapply encryptionTokens_known. }
  destruct (integrityTokens !! t) eqn:E2.
  { intros [= <-]. constructor; simpl; auto.
    apply (push_new_wf (λ e, integ_known e = true)); [|done]. by eapply integrityTokens_known. }
  destruct (prfTokens !! t) eqn:E3.
  { intros [= <-]. constructor; simpl; auto.
    apply (push_new_wf (λ e, prf_known e = true)); [|done]. by eapply prfTokens_known. }
  destruct (dhTokens !! t) eqn:E4; [|done]. intros [= <-]. constructor; simpl; auto.
  apply (push_new_wf (λ e, e = TransformDHCurve25519)); [|done]. by eapply dhTokens_known.
Qed.

Lemma ParseProposal_tokens_wf ts p p' : tokens_wf p → ParseProposal_tokens p ts = Ok p' →
  tokens_wf p'.
Proof.
  revert p. induction ts as [|t ts IH]; intros p Hp; simpl; [by intros [= <-]|].
  intros (p1 & E & H)%bind_Ok. apply (IH p1); [|done]. by eapply ParseProposal_token_wf.
Qed.

(** Whether a known transform is an AEAD. *)
Definition is_aead (e : EncryptionID) : bool :=
  match NewEncryption (EncID_TransformID e) (EncID_KeyLen e) with Ok a => AEAD a | _ => false end.

Lemma aead_flags_spec encs a n r : Forall (λ e, enc_known e = true) encs →
  aead_flags encs a n = Ok r →
  r = (a || existsb is_aead encs, n || existsb (λ e, negb (is_aead e)) encs).
Proof.
  intros H. revert a n. induction H as [|e encs He H IH]; intros a n; simpl.
  { intros [= <-]. by rewrite !orb_false_r. }
  unfold enc_known, is_aead in *. destruct (NewEncryption _ _); try done. simpl.
  destruct (AEAD a0); intros E; rewrite (IH _ _ E); simpl; by rewrite ?orb_true_r.
Qed.

Lemma default_prfs_wf prfs integs r : default_prfs prfs integs = Ok r →
  Forall (λ i, prf_known i = true) prfs ∧ NoDup prfs →
  (Forall (λ i, prf_known i = true) r ∧ NoDup r) ∧ prfs ⊆ r ∧
  Forall (λ i, prfFromIntegrity i ∈ r) integs.
Proof.
  revert prfs. induction integs as [|i integs IH]; intros prfs; simpl.
  { intros [= <-] ?. split; [done|]. split; [set_solver|constructor]. }
  destruct (prfFromIntegrity i =? 0) eqn:E; [done|]. intros H W.
  assert (Hk : prf_known (prfFromIntegrity i) = true).
  { unfold prfFromIntegrity in *. destruct (i =? TransformIntegrityHMACSHA196); [done|].
    destruct (i =? TransformIntegrityHMACSHA2256128); [done|].
    by destruct (i =? TransformIntegrityHMACSHA2512256). }
  destruct (IH _ H (push_new_wf _ _ _ Hk W)) as (HW & Hsub & Hall).
  assert (Hpush : prfFromIntegrity i ∈ pushU16 prfs (prfFromIntegrity i) ∧
                  prfs ⊆ pushU16 prfs (prfFromIntegrity i)).
  { unfold pushU16, push_new. case_bool_decide; set_solver. }
  split_and!; [apply HW|apply HW|set_solver|]. constructor; [set_solver|done].
Qed.

(** The invariant of accepted proposals. *)
Record proposal_ok (p : Proposal) : Prop := {
  po_tokens : tokens_wf p;
  po_enc : Encryption p ≠ [];
  po_dh : DHs p ≠ [];
  po_prf : PRFs p ≠ [];
  po_aead : if existsb is_aead (Encryption p)
            then forallb is_aead (Encryption p) = true ∧ Integrities p = []
            else Integrities p ≠ [] }.

Lemma len_eqb_nil {A} (l : list A) : (len l =? 0) = false → l ≠ [].
Proof. by intros H ->. Qed.

Lemma existsb_negb_forallb {A} (f : A → bool) l :
  existsb (λ x, negb (f x)) l = false → forallb f l = true.
Proof. induction l as [|x l IH]; simpl; [done|]. destruct (f x); simpl; auto. Qed.

Lemma ParseProposal_ok s p : ParseProposal s = Ok p → proposal_ok p.
Proof.
  unfold ParseProposal. intros (p0 & E0 & H)%bind_Ok.
  assert (W : tokens_wf p0).
  { eapply ParseProposal_tokens_wf; [|exact E0]. repeat constructor. }
  destruct (len (Encryption p0) =? 0) eqn:Ee; [done|]. destruct (len (DHs p0) =? 0) eqn:Ed; [done|].
  apply bind_Ok in H as ([a n] & Ea & H). destruct (a && n) eqn:Ean; [done|].
  apply bind_Ok in H as ([] & Ei & H). apply bind_Ok in H as (prfs & Ep & H).
  destruct (len prfs =? 0) eqn:El; [done|]. injection H as <-.
  apply aead_flags_spec in Ea as [= -> ->]; [|apply W]. simpl in *.
  constructor; simpl; try (by apply len_eqb_nil).
  - destruct W as [We Wi Wp Wd]. constructor; simpl; try done.
    destruct (len (PRFs p0) =? 0); [by eapply default_prfs_wf|by injection Ep as <-].
  - destruct (existsb is_aead (Encryption p0)).
    + simpl in Ean. split; [by apply existsb_negb_forallb|].
      destruct (len (Integrities p0) =? 0) eqn:Ez; [|done]. apply len_0_inv. lia.
    + destruct (len (Integrities p0) =? 0) eqn:Ez; [done|]. by apply len_eqb_nil.
Qed.

(* ------------------------------------------------------------------ *)
(** ** Lemmas: negotiation *)

(** [v] is the first element of [l] that the peer offers as well. *)
Definition first_common {A} (l remote : list A) (v : A) : Prop :=
  ∃ before after, l = before ++ v :: after ∧ v ∈ remote ∧ Forall (λ x, x ∉ remote) before.

Lemma first_common_cons {A} (x : A) l remote v : (x ∉ remote) → first_common l remote v →
  first_common (x :: l) remote v.
Proof. intros Hx (b & a & -> & Hv & Hb). exists (x :: b), a. split_and!; [done|done|by constructor]. Qed.

Lemma first_common_here {A} (x : A) l remote : x ∈ remote → first_common (x :: l) remote x.
Proof. intros. exists [], l. by split_and!. Qed.

Lemma selectEncryption_spec p remote alg : selectEncryption p remote = Ok alg →
  ∃ e, first_common (Encryption p) (Encryption remote) e ∧
    NewEncryption (EncID_TransformID e) (EncID_KeyLen e) = Ok alg ∧
    (AEAD alg = true → Integrities p = [] ∧ Integrities remote = []).
Proof.
  unfold selectEncryption. generalize (Encryption p) as wants. intros wants.
  induction wants as [|w wants IH]; simpl; [done|]. unfold hasEncryption.
  case_bool_decide as Ew; simpl.
  - intros (a & E & H)%bind_Ok. destruct (_ && _) eqn:Ea in H; [done|]. injection H as <-.
    exists w. split_and!; [by apply first_common_here|done|]. intros Hx. rewrite Hx in Ea. simpl in Ea.
    apply orb_false_iff in Ea as [E1 E2]. split; apply len_0_inv; lia.
  - intros H. destruct (IH H) as (e & ? & ? & ?). exists e. split_and!; auto using first_common_cons.
Qed.

Lemma selectIntegrity_spec p remote i : selectIntegrity p remote = Ok i →
  first_common (Integrities p) (Integrities remote) (Integ_TransformID i) ∧
  NewIntegrity (Integ_TransformID i) = Ok i.
Proof.
  unfold selectIntegrity. induction (Integrities p) as [|w wants IH]; simpl; [done|].
  unfold hasU16. case_bool_decide as Ew; simpl.
  - intros H. rewrite (NewIntegrity_id _ _ H). auto using first_common_here.
  - intros H. destruct (IH H). auto using first_common_cons.
Qed.

Lemma selectDH_spec p remote d : selectDH p remote = Ok d →
  DH_TransformID d = TransformDHCurve25519 ∧ DH_TransformID d ∈ DHs p ∧ DH_TransformID d ∈ DHs remote.
Proof.
  unfold selectDH. induction (DHs p) as [|w wants IH]; simpl; [done|]. unfold hasU16.
  case_bool_decide as Ew; simpl.
  - destruct (w =? TransformDHCurve25519) eqn:E.
    + intros [= <-]. simpl. split_and!; [lia|set_solver|done].
    + intros H. destruct (IH H) as (?&?&?). split_and!; [done|set_solver|done].
  - intros H. destruct (IH H) as (?&?&?). split_and!; [done|set_solver|done].
Qed.

Lemma selectPRF_spec p remote i f : selectPRF p remote (Some i) = Ok f →
  NewPRF (PRF_TransformID f) = Ok f ∧ PRF_TransformID f ∈ PRFs remote ∧
  (PRF_TransformID f ∈ PRFs p ∨ PRF_TransformID f = prfFromIntegrity (Integ_TransformID i)) ∧
  (Integ_TransformID i = TransformIntegrityNone ∨
   prfFromIntegrity (Integ_TransformID i) = PRF_TransformID f).
Proof.
  simpl. induction (PRFs p) as [|w wants IH]; cbn [selectPRF_loop].
  - destruct (Integ_TransformID i =? TransformIntegrityNone) eqn:E; simpl; [done|].
    unfold hasU16. destruct (prfFromIntegrity _ =? 0); simpl; [done|].
    case_bool_decide; simpl; [|done]. intros H'. rewrite (NewPRF_id _ _ H'). auto.
  - unfold hasU16, prfMatchesIntegrity. destruct (_ || _) eqn:E.
    + intros H. destruct (IH H) as (?&?&?&?). split_and!; [done|done| |done]. set_solver.
    + apply orb_false_iff in E as [E1%negb_false_iff E2%negb_false_iff].
      apply bool_decide_eq_true in E2. intros H. rewrite (NewPRF_id _ _ H).
      split_and!; [done|done|set_solver|].
      destruct (Integ_TransformID i =? TransformIntegrityNone) eqn:E3; [left; lia|right; lia].
Qed.

(** [Select] on a proposal against itself, step by step. *)
Lemma selectEncryption_self p : proposal_ok p → ∃ alg, selectEncryption p p = Ok alg ∧
  AEAD alg = existsb is_aead (Encryption p).
Proof.
  intros [W He _ _ Ha]. unfold selectEncryption. destruct W as [[We _] _ _ _].
  destruct (Encryption p) as [|e es] eqn:Ep; [done|]. simpl. rewrite Ep.
  unfold hasEncryption. rewrite bool_decide_true by set_solver. simpl.
  apply Forall_cons in We as [Hk _]. unfold enc_known in Hk.
  assert (Hi : is_aead e = match NewEncryption (EncID_TransformID e) (EncID_KeyLen e) with
    | Ok a => AEAD a | _ => false end) by done.
  destruct (NewEncryption _ _) as [alg| | |]; try done. exists alg. simpl in *.
  rewrite Hi in *. destruct (AEAD alg); simpl in *; [by destruct Ha as [_ ->]|].
  split; [done|]. destruct (existsb is_aead es); [|done]. by destruct Ha as [? _].
Qed.

Lemma selectDH_self p : proposal_ok p → ∃ d, selectDH p p = Ok d.
Proof.
  intros [[_ _ _ [Wd _]] _ Hd _ _]. unfold selectDH. destruct (DHs p) as [|d ds] eqn:E; [done|].
  simpl. rewrite E. unfold hasU16. rewrite bool_decide_true by set_solver. simpl.
  apply Forall_cons in Wd as [-> _]. simpl. eauto.
Qed.

Lemma selectPRF_self p i : proposal_ok p →
  (Integ_TransformID i = TransformIntegrityNone ∨ prfFromIntegrity (Integ_TransformID i) ∈ PRFs p) →
  ∃ f, selectPRF p p (Some i) = Ok f.
Proof.
  intros [[_ _ [Wp _] _] _ _ Hp _] H. simpl.
  assert (∀ wants, wants ⊆ PRFs p → (Integ_TransformID i = TransformIntegrityNone → wants ≠ []) →
    ∃ f, selectPRF_loop p i wants = Ok f) as L; [|by apply L].
  assert (Hres : ∀ w, w ∈ PRFs p → ∃ f, NewPRF w = Ok f).
  { intros w Hw. rewrite Forall_forall in Wp. apply is_ok_true, Wp. done. }
  induction wants as [|w wants IH]; intros Hsub Hne; cbn [selectPRF_loop].
  - destruct (Integ_TransformID i =? TransformIntegrityNone) eqn:E; [by destruct Hne; [lia|]|].
    simpl. destruct H as [?|H]; [lia|]. unfold hasU16. rewrite bool_decide_true by done.
    destruct (Hres _ H) as [f Hf]. rewrite andb_true_r.
    destruct (prfFromIntegrity _ =? 0) eqn:Ez; [|by exists f].
    apply Z.eqb_eq in Ez. rewrite Ez in Hf. done.
  - unfold hasU16. rewrite (bool_decide_true (w ∈ PRFs p)) by set_solver.
    simpl. rewrite orb_false_r. destruct (Integ_TransformID i =? TransformIntegrityNone) eqn:E; simpl.
    + apply Hres. set_solver.
    + destruct (_ =? w); simpl; [apply Hres; set_solver|]. apply IH; [set_solver|lia].
Qed.

Lemma selectIntegrity_self p : proposal_ok p → ∀ i rest, Integrities p = i :: rest →
  ∃ integ, selectIntegrity p p = Ok integ ∧ Integ_TransformID integ = i ∧ i <> 0.
Proof.
  intros [[_ [Wi _] _ _] _ _ _ _] i rest E. unfold selectIntegrity. rewrite E. simpl. rewrite E.
  unfold hasU16. rewrite bool_decide_true by set_solver. simpl.
  rewrite E in Wi. apply Forall_cons in Wi as [Hk _]. unfold integ_known in Hk.
  apply andb_true_iff in Hk as [Hk Hz]. apply is_ok_true in Hk as [integ Hi]. exists integ.
  split_and!; [done|by apply NewIntegrity_id|lia].
Qed.

(** The algorithms of an established SA: registered ones, with a real HMAC
    where the cipher does not authenticate. *)
Record negotiated (sel : option Selection) (enc : EncryptionAlg) (ig : Integrity) : Prop := {
  ng_sel : ∃ prf dh, sel = Some (mkSelection (Some enc) (Some ig) prf dh);
  ng_enc : ∃ id kl, NewEncryption id kl = Ok enc;
  ng_integ : ∃ id, NewIntegrity id = Ok ig;
  ng_hmac : AEAD enc = false → Integ_newHMAC ig ≠ None }.

(* ------------------------------------------------------------------ *)
(** ** Properties *)

(** Every proposal string [ParseProposal] accepts yields a well-formed
    proposal: encryption, PRF and DH lists are non-empty, without duplicates
    and made of registered transforms; either all ciphers are AEAD and there is
    no integrity transform, or none is and there is at least one. *)
Theorem ParseProposal_wf (s : string) (p : Proposal) :
  ParseProposal s = Ok p → proposal_ok p.
Proof. apply ParseProposal_ok. Qed.

(** Soundness and preference order of [Select]: the cipher is the first
    local one the peer offers; an AEAD cipher comes without integrity transform
    on either side, any other cipher with the first common one; the PRF is
    offered by the peer and belongs to the integrity family; the DH group is
    X25519, offered by both. *)
Theorem Select_sound (p remote : Proposal) (sel : Selection) :
  Select p (Some remote) = Ok sel →
  ∃ e enc integ prf dh,
    sel = {| Sel_Encryption := Some enc; Sel_Integrity := Some integ; Sel_PRF := Some prf;
             Sel_DH := Some dh |} ∧
    first_common (Encryption p) (Encryption remote) e ∧
    NewEncryption (EncID_TransformID e) (EncID_KeyLen e) = Ok enc ∧ enc_wf enc ∧
    (if AEAD enc
     then Integrities p = [] ∧ Integrities remote = [] ∧ Integ_KeyLen integ = 0
     else first_common (Integrities p) (Integrities remote) (Integ_TransformID integ) ∧
          (Integ_TransformID integ = TransformIntegrityNone ∨
           prfFromIntegrity (Integ_TransformID integ) = PRF_TransformID prf)) ∧
    NewIntegrity (Integ_TransformID integ) = Ok integ ∧
    NewPRF (PRF_TransformID prf) = Ok prf ∧ PRF_TransformID prf ∈ PRFs remote ∧
    DH_TransformID dh ∈ DHs p ∧ DH_TransformID dh ∈ DHs remote.
Proof.
  simpl. intros (enc & Ee & H)%bind_Ok. apply bind_Ok in H as (integ & Ei & H).
  apply bind_Ok in H as (prf & Ep & H). apply bind_Ok in H as (dh & Ed & H). injection H as <-.
  apply selectEncryption_spec in Ee as (e & Hc & Hn & Ha).
  apply selectPRF_spec in Ep as (Hp1 & Hp2 & _ & Hp4).
  apply selectDH_spec in Ed as (_ & Hd1 & Hd2).
  exists e, enc, integ, prf, dh. pose proof (NewEncryption_wf _ _ _ Hn) as (W & _ & _).
  split_and!; try done.
  - destruct (AEAD enc). { injection Ei as <-. by destruct (Ha eq_refl). }
    by apply selectIntegrity_spec in Ei as [Hi _].
  - destruct (AEAD enc). { by injection Ei as <-. } by apply selectIntegrity_spec in Ei as [_ ?].
Qed.

(** Exactly when an accepted proposal can be negotiated against itself
    (as the initiator does before sending IKE_SA_INIT): when it is an AEAD
    proposal, or when it lists the PRF of the HMAC family of its first
    integrity transform. *)
Theorem Select_self (s : string) (p : Proposal) : ParseProposal s = Ok p →
  is_ok (Select p (Some p)) = true ↔
  match Integrities p with
  | [] => True
  | i :: _ => prfFromIntegrity i ∈ PRFs p
  end.
Proof.
  intros Hp%ParseProposal_ok. destruct (selectEncryption_self p Hp) as (enc & Ee & Ha).
  destruct (selectDH_self p Hp) as (d & Ed). unfold Select. rewrite Ee. run.
  pose proof (po_aead p Hp) as Hx. rewrite <- Ha in Hx. destruct (AEAD enc).
  - destruct Hx as [_ ->]. change (NewIntegrity TransformIntegrityNone) with (Ok (mkIntegrity 0 0 0 None)).
    run. destruct (selectPRF_self p (mkIntegrity 0 0 0 None) Hp) as [f Hf].
    { by left. } rewrite Hf. run. rewrite Ed. done.
  - destruct (Integrities p) as [|i rest] eqn:Ei; [done|].
    destruct (selectIntegrity_self p Hp i rest Ei) as (integ & Hi & Hid & Hz). rewrite Hi. run. split.
    + intros (sel & (f & Hf & _)%bind_Ok)%is_ok_true.
      apply selectPRF_spec in Hf as (_ & Hf & _ & [Hn|Heq]); [by rewrite Hid in Hn|].
      rewrite Hid in Heq. by rewrite Heq.
    + intros Hin. destruct (selectPRF_self p integ Hp) as [f Hf]; [right; by rewrite Hid|].
      rewrite Hf. run. by rewrite Ed.
Qed.

(** HMAC-SHA2-384-192 is accepted by the parser when an explicit PRF is
    given, but a proposal whose first integrity transform it is can never be
    negotiated: it has no PRF family. *)
Theorem sha384_never_selected (s : string) (p : Proposal) (rest : list Z) :
  ParseProposal s = Ok p → Integrities p = TransformIntegrityHMACSHA2384192 :: rest →
  is_ok (Select p (Some p)) = false.
Proof.
  intros Hp Hi. apply not_true_iff_false. intros H.
  apply ParseProposal_ok in Hp as Hok. destruct (selectEncryption_self p Hok) as (enc & Ee & Ha).
  apply is_ok_true in H as (sel & H). unfold Select in H. rewrite Ee in H.
  pose proof (po_aead p Hok) as Hx. rewrite <- Ha in Hx. cbn [mbind res_bind] in H.
  destruct (AEAD enc); [by destruct Hx as [_ Hx]; rewrite Hx in Hi|].
  destruct (selectIntegrity_self p Hok _ rest Hi) as (integ & Hs & Hid & _). rewrite Hs in H.
  cbn [mbind res_bind] in H. apply bind_Ok in H as (f & Hf & _).
  apply selectPRF_spec in Hf as (Hn & _ & _ & [Hz|Hz]); rewrite Hid in Hz; [done|].
  cbn in Hz. rewrite <- Hz in Hn. done.
Qed.

Lemma ParseProposal_wf_witness :
  ∃ p, ParseProposal "aes256gcm16-prfsha512-curve25519" = Ok p ∧ proposal_ok p.
Proof.
  eexists. split; [vm_compute; reflexivity|].
  apply (ParseProposal_wf "aes256gcm16-prfsha512-curve25519"). vm_compute. reflexivity.
Defined.

Definition sample_proposal : Proposal :=
  {| Encryption := [mkEncryptionID 12 32; mkEncryptionID 12 16]; Integrities := [12; 14];
     PRFs := [5; 7]; DHs := [31] |}.
Definition sample_remote : Proposal :=
  {| Encryption := [mkEncryptionID 12 16]; Integrities := [14]; PRFs := [7]; DHs := [31] |}.

Lemma Select_sound_witness : ∃ sel, Select sample_proposal (Some sample_remote) = Ok sel ∧
  ∃ e enc integ prf dh,
    sel = {| Sel_Encryption := Some enc; Sel_Integrity := Some integ; Sel_PRF := Some prf;
             Sel_DH := Some dh |} ∧
    first_common (Encryption sample_proposal) (Encryption sample_remote) e ∧
    NewEncryption (EncID_TransformID e) (EncID_KeyLen e) = Ok enc ∧ enc_wf enc ∧
    (if AEAD enc
     then Integrities sample_proposal = [] ∧ Integrities sample_remote = [] ∧ Integ_KeyLen integ = 0
     else first_common (Integrities sample_proposal) (Integrities sample_remote)
            (Integ_TransformID integ) ∧
          (Integ_TransformID integ = TransformIntegrityNone ∨
           prfFromIntegrity (Integ_TransformID integ) = PRF_TransformID prf)) ∧
    NewIntegrity (Integ_TransformID integ) = Ok integ ∧
    NewPRF (PRF_TransformID prf) = Ok prf ∧ PRF_TransformID prf ∈ PRFs sample_remote ∧
    DH_TransformID dh ∈ DHs sample_proposal ∧ DH_TransformID dh ∈ DHs sample_remote.
Proof.
  eexists. split; [vm_compute; reflexivity|].
  apply (Select_sound sample_proposal sample_remote). vm_compute. reflexivity.
Defined.

Lemma Select_self_witness : ∃ p, ParseProposal "aes256-sha256-x25519" = Ok p ∧
  (is_ok (Select p (Some p)) = true ↔
   match Integrities p with [] => True | i :: _ => prfFromIntegrity i ∈ PRFs p end).
Proof.
  eexists. split; [vm_compute; reflexivity|].
  apply (Select_self "aes256-sha256-x25519"). vm_compute. reflexivity.
Defined.

Lemma sha384_never_selected_witness : ∃ p, ParseProposal "aes256-sha384-prfsha512-x25519" = Ok p ∧
  is_ok (Select p (Some p)) = false.
Proof.
  eexists. split; [vm_compute; reflexivity|].
  apply (sha384_never_selected "aes256-sha384-prfsha512-x25519" _ []); vm_compute; reflexivity.
Defined.
