(* ===== verification/Crypto.v ===== *)
(** * Go's cryptographic standard library, as far as xcrypto uses it

    The block cipher and the digests are an interface ([Crypto]) with the laws
    the protocol code relies on ([CryptoLaws]): AES is a permutation of 16-byte
    blocks for every valid key and a digest has its fixed size. The modes of
    operation built from them - CBC, CTR and GCM of [crypto/cipher], HMAC of
    [crypto/hmac] - are written out here. *)

From S2P Require Import Prelude Suite.

(* ------------------------------------------------------------------ *)
(** ** The primitives *)

Class Crypto := {
  aes_encrypt : list Z → list Z → list Z;
  aes_decrypt : list Z → list Z → list Z;
  digest : HashKind → list Z → list Z }.

Definition hash_size (h : HashKind) : Z :=
  match h with HashSHA1 => 20 | HashSHA256 => 32 | HashSHA384 => 48 | HashSHA512 => 64 end.
Definition hash_block (h : HashKind) : Z :=
  match h with HashSHA1 | HashSHA256 => 64 | HashSHA384 | HashSHA512 => 128 end.

Definition is_block (b : list Z) : Prop := len b = 16 ∧ bytes b.
Definition aes_key (k : list Z) : Prop := bytes k ∧ (len k = 16 ∨ len k = 24 ∨ len k = 32).

Class CryptoLaws `{!Crypto} : Prop := {
  aes_encrypt_block k b : aes_key k → is_block b → is_block (aes_encrypt k b);
  aes_decrypt_block k b : aes_key k → is_block b → is_block (aes_decrypt k b);
  aes_decrypt_encrypt k b : aes_key k → is_block b → aes_decrypt k (aes_encrypt k b) = b;
  aes_encrypt_decrypt k b : aes_key k → is_block b → aes_encrypt k (aes_decrypt k b) = b;
  digest_len h m : len (digest h m) = hash_size h;
  digest_bytes h m : bytes (digest h m) }.

(* ------------------------------------------------------------------ *)
(** ** Byte-string helpers *)

Definition xor_bytes (a b : list Z) : list Z := zip_with Z.lxor a b.
Definition zeros (n : Z) : list Z := replicate (Z.to_nat n) 0.

(** [copy(dst, src)]: the new content of [dst]. *)
Definition copy_to (dst src : list Z) : list Z :=
  take (length dst) src ++ drop (length src) dst.

(** The [n] low-order bytes of [v], most significant first. *)
Fixpoint be_bytes (n : nat) (v : Z) : list Z :=
  match n with O => [] | S m => be_bytes m (Z.shiftr v 8) ++ [u8 v] end.

Section Modes.
Context {C : Crypto}.

(** [aes.NewCipher]: a [cipher.Block] is represented by its key. *)
Definition NewCipher (key : list Z) : res (list Z) :=
  if (len key =? 16) || (len key =? 24) || (len key =? 32) then Ok key
  else Err "crypto/aes: invalid key size".

(** ** CBC *)

Fixpoint cbc_encrypt (n : nat) (key prev src : list Z) : list Z :=
  match n with
  | O => []
  | S m => let c := aes_encrypt key (xor_bytes (take 16 src) prev) in
           c ++ cbc_encrypt m key c (drop 16 src)
  end.

Fixpoint cbc_decrypt (n : nat) (key prev src : list Z) : list Z :=
  match n with
  | O => []
  | S m => xor_bytes (aes_decrypt key (take 16 src)) prev ++
           cbc_decrypt m key (take 16 src) (drop 16 src)
  end.

(** [cipher.NewCBCEncrypter(block, iv).CryptBlocks(out, src)] *)
Definition CBC_encrypt (key iv src : list Z) : res (list Z) :=
  if negb (len iv =? 16) then Panic
  else if negb (len src mod 16 =? 0) then Panic
  else Ok (cbc_encrypt (length src / 16) key iv src).

Definition CBC_decrypt (key iv src : list Z) : res (list Z) :=
  if negb (len iv =? 16) then Panic
  else if negb (len src mod 16 =? 0) then Panic
  else Ok (cbc_decrypt (length src / 16) key iv src).

(** ** CTR *)

(** [n] blocks of keystream; block [i] encrypts [counter i]. *)
Definition keystream_blocks (key : list Z) (counter : nat → list Z) (n : nat) : list Z :=
  concat ((λ i, aes_encrypt key (counter i)) <$> seq 0 n).

(** The first [n] bytes of the keystream. *)
Definition keystream (key : list Z) (counter : nat → list Z) (n : nat) : list Z :=
  take n (keystream_blocks key counter (S (n / 16))).

(** [cipher.Stream] of [cipher.NewCTR]; [pos] bytes were already used. *)
Record CTR := mkCTR { ctr_key : list Z; ctr_iv : list Z; ctr_pos : nat }.

Definition NewCTR (key iv : list Z) : res CTR :=
  if negb (len iv =? 16) then Panic
  else Ok {| ctr_key := key; ctr_iv := iv; ctr_pos := 0 |}.

(** The counter is the whole block, as one 128-bit integer that wraps. *)
Definition ctr_counter (iv : list Z) (i : nat) : list Z := be_bytes 16 (be_value iv + Z.of_nat i).

Definition XORKeyStream (c : CTR) (src : list Z) : CTR * list Z :=
  let n := (ctr_pos c + length src)%nat in
  ({| ctr_key := ctr_key c; ctr_iv := ctr_iv c; ctr_pos := n |},
   xor_bytes src (drop (ctr_pos c) (keystream (ctr_key c) (ctr_counter (ctr_iv c)) n))).

(** ** GCM (NIST SP 800-38D) with 12-byte nonces *)

(** Multiplication in GF(2^128), bit 127 of the integer being the coefficient
    of x^0. *)
Fixpoint gf128_mul (n : nat) (x v acc : Z) : Z :=
  match n with
  | O => acc
  | S m =>
      let acc' := if Z.testbit x (Z.of_nat m) then Z.lxor acc v else acc in
      let v' := if Z.testbit v 0 then Z.lxor (Z.shiftr v 1) (Z.shiftl 225 120)
                else Z.shiftr v 1 in
      gf128_mul m x v' acc'
  end.

Fixpoint ghash (n : nat) (h acc : Z) (data : list Z) : Z :=
  match n with
  | O => acc
  | S m => ghash m h (gf128_mul 128 (Z.lxor acc (be_value (take 16 data))) h 0) (drop 16 data)
  end.

Definition pad16 (b : list Z) : list Z := b ++ zeros (- len b mod 16).

Definition gcm_counter (nonce : list Z) (i : nat) : list Z := nonce ++ be_bytes 4 (Z.of_nat i + 2).

Definition gcm_crypt (key nonce src : list Z) : list Z :=
  xor_bytes src (keystream key (gcm_counter nonce) (length src)).

Definition gcm_auth (key nonce aad ct : list Z) : list Z :=
  let data := pad16 aad ++ pad16 ct ++ be_bytes 8 (8 * len aad) ++ be_bytes 8 (8 * len ct) in
  let h := be_value (aes_encrypt key (zeros 16)) in
  xor_bytes (be_bytes 16 (ghash (length data / 16) h 0 data))
            (aes_encrypt key (nonce ++ [0; 0; 0; 1])).

(** [cipher.AEAD] of [NewGCM] and [NewGCMWithTagSize]. *)
Record GCM := mkGCM { gcm_key : list Z; gcm_tagSize : Z }.

Definition NewGCM (key : list Z) : res GCM := Ok {| gcm_key := key; gcm_tagSize := 16 |}.

Definition NewGCMWithTagSize (key : list Z) (tag : Z) : res GCM :=
  if (tag <? 12) || (16 <? tag) then Err "cipher: incorrect tag size given to GCM"
  else Ok {| gcm_key := key; gcm_tagSize := tag |}.

Definition gcm_max : Z := (2 ^ 32 - 2) * 16.

Definition GCM_Seal (g : GCM) (dst nonce plain aad : list Z) : res (list Z) :=
  if negb (len nonce =? 12) then Panic
  else if gcm_max <? len plain then Panic
  else
    let ct := gcm_crypt (gcm_key g) nonce plain in
    Ok (dst ++ ct ++ take (Z.to_nat (gcm_tagSize g)) (gcm_auth (gcm_key g) nonce aad ct)).

Definition GCM_Open (g : GCM) (dst nonce ciphertext aad : list Z) : res (list Z) :=
  if negb (len nonce =? 12) then Panic
  else if len ciphertext <? gcm_tagSize g then Err "cipher: message authentication failed"
  else if gcm_max + gcm_tagSize g <? len ciphertext then
    Err "cipher: message authentication failed"
  else
    let n := Z.to_nat (len ciphertext - gcm_tagSize g) in
    let ct := take n ciphertext in
    let tag := drop n ciphertext in
    if bool_decide (take (Z.to_nat (gcm_tagSize g)) (gcm_auth (gcm_key g) nonce aad ct) = tag)
    then Ok (dst ++ gcm_crypt (gcm_key g) nonce ct)
    else Err "cipher: message authentication failed".

(** ** HMAC *)

(** [hmac.New(h, key)] with the bytes written since the last [Reset]. *)
Record HMAC := mkHMAC { hmac_hash : HashKind; hmac_key : list Z; hmac_buf : list Z }.

Definition hmac_New (h : HashKind) (key : list Z) : HMAC :=
  {| hmac_hash := h; hmac_key := key; hmac_buf := [] |}.
Definition hmac_Reset (m : HMAC) : HMAC := hmac_New (hmac_hash m) (hmac_key m).
Definition hmac_Write (m : HMAC) (p : list Z) : HMAC :=
  {| hmac_hash := hmac_hash m; hmac_key := hmac_key m; hmac_buf := hmac_buf m ++ p |}.

(** RFC 2104 *)
Definition hmac (h : HashKind) (key msg : list Z) : list Z :=
  let k := if hash_block h <? len key then digest h key else key in
  let k := k ++ zeros (hash_block h - len k) in
  digest h ((Z.lxor 92 <$> k) ++ digest h ((Z.lxor 54 <$> k) ++ msg)).

(** [Sum] does not change the state. *)
Definition hmac_Sum (m : HMAC) : list Z := hmac (hmac_hash m) (hmac_key m) (hmac_buf m).

End Modes.

(* ------------------------------------------------------------------ *)
(** ** Lemmas on the modes *)

Lemma len_xor a b : len b >= len a → len (xor_bytes a b) = len a.
Proof. unfold xor_bytes, len. rewrite length_zip_with. lia. Qed.

Lemma len_zeros n : 0 <= n → len (zeros n) = n.
Proof. intros. unfold zeros. rewrite len_replicate. lia. Qed.

Lemma xor_xor a b : (length a <= length b)%nat → xor_bytes (xor_bytes a b) b = a.
Proof.
  revert b. induction a as [|x a IH]; intros [|y b] H; simpl in *; try done; [lia|].
  f_equal; [by rewrite Z.lxor_assoc, Z.lxor_nilpotent, Z.lxor_0_r|]. apply IH. lia.
Qed.

(** Bitwise combinations of bytes are bytes. *)
Lemma bits_byte c : 0 <= c → (∀ n, 8 <= n → Z.testbit c n = false) → is_byte c.
Proof.
  intros Hc Hb. split; [done|]. change 256 with (2 ^ 8).
  assert (H : c = c mod 2 ^ 8); [|rewrite H; apply Z.mod_pos_bound; lia].
  apply Z.bits_inj'. intros n Hn. destruct (Z_lt_le_dec n 8).
  - by rewrite Z.mod_pow2_bits_low.
  - by rewrite Z.mod_pow2_bits_high, Hb by lia.
Qed.

Lemma byte_bits a n : is_byte a → 8 <= n → Z.testbit a n = false.
Proof.
  intros [??] Hn. rewrite <- (Z.mod_small a (2 ^ 8)) by (change (2 ^ 8) with 256; lia).
  by apply Z.mod_pow2_bits_high.
Qed.

Lemma lxor_byte a b : is_byte a → is_byte b → is_byte (Z.lxor a b).
Proof.
  intros Ha Hb. apply bits_byte; [destruct Ha, Hb; by apply Z.lxor_nonneg|].
  intros n Hn. by rewrite Z.lxor_spec, !byte_bits by done.
Qed.

Lemma lor_byte a b : is_byte a → is_byte b → is_byte (Z.lor a b).
Proof.
  intros Ha Hb. apply bits_byte; [destruct Ha, Hb; by apply Z.lor_nonneg|].
  intros n Hn. by rewrite Z.lor_spec, !byte_bits by done.
Qed.

Lemma xor_bytes_bytes a b : bytes a → bytes b → bytes (xor_bytes a b).
Proof.
  intros Ha. revert b. induction Ha as [|x a Hx Ha IH]; intros [|y b] Hb; simpl;
    try apply Forall_nil_2.
  apply Forall_cons in Hb as [? Hb]. apply Forall_cons_2; [by apply lxor_byte|by apply IH].
Qed.

Lemma zeros_bytes n : bytes (zeros n).
Proof. apply Forall_replicate. unfold is_byte. lia. Qed.

Lemma len_be_bytes n v : len (be_bytes n v) = Z.of_nat n.
Proof. revert v. induction n as [|n IH]; intros v; [done|]. simpl. rewrite len_app, IH. llia. Qed.

Lemma be_bytes_bytes n v : bytes (be_bytes n v).
Proof.
  revert v. induction n as [|n IH]; intros v; simpl; [by apply Forall_nil_2|].
  apply Forall_app_2; [apply IH|]. apply Forall_cons_2; [apply u8_byte|by apply Forall_nil_2].
Qed.

Lemma len_copy_to dst src : len (copy_to dst src) = len dst.
Proof. unfold copy_to, len. rewrite length_app, length_take, length_drop. lia. Qed.

Lemma copy_to_bytes dst src : bytes dst → bytes src → bytes (copy_to dst src).
Proof. intros. apply Forall_app_2; [by apply Forall_take|by apply Forall_drop]. Qed.

#[export] Hint Rewrite len_be_bytes len_copy_to : len.

Lemma bytes_app a b : bytes a → bytes b → bytes (a ++ b).
Proof. apply Forall_app_2. Qed.
Lemma bytes_take n a : bytes a → bytes (take n a).
Proof. apply Forall_take. Qed.
Lemma bytes_drop n a : bytes a → bytes (drop n a).
Proof. apply Forall_drop. Qed.
Lemma bytes_cons x a : is_byte x → bytes a → bytes (x :: a).
Proof. apply Forall_cons_2. Qed.
Lemma bytes_nil : bytes [].
Proof. apply Forall_nil_2. Qed.
Lemma bytes_splice b off v : bytes b → bytes v → bytes (splice b off v).
Proof. intros. unfold splice. auto using bytes_app, bytes_take, bytes_drop. Qed.

(** Closes [bytes] goals about concatenations of known parts. *)
Create HintDb bytes.
#[export] Hint Resolve lxor_byte lor_byte u8_byte xor_bytes_bytes zeros_bytes be_bytes_bytes
  copy_to_bytes bytes_app bytes_take bytes_drop bytes_cons bytes_nil bytes_splice
  putUint16_bytes putUint32_bytes putUint64_bytes : bytes.
Ltac bytes_solve := change (Forall is_byte) with bytes in *; auto 10 with bytes.


(* ------------------------------------------------------------------ *)
(** ** hash.go *)

(** A digest description; [newHash = None] is the nil constructor. *)
Record Hash := mkHash { Hash_Kind : HashKind; Hash_OutputLen : Z; newHash : option HashKind }.

Definition SHA1 : Hash := mkHash HashSHA1 20 (Some HashSHA1).
Definition SHA256 : Hash := mkHash HashSHA256 32 (Some HashSHA256).
Definition SHA384 : Hash := mkHash HashSHA384 48 (Some HashSHA384).
Definition SHA512 : Hash := mkHash HashSHA512 64 (Some HashSHA512).

(** [Hash.New] of a description that may be nil; a nil state panics when used. *)
Definition Hash_New (h : option Hash) : option HashKind := h ≫= newHash.
Definition Hash_Sum {C : Crypto} (h : option Hash) (data : list Z) : res (list Z) :=
  match Hash_New h with Some k => Ok (digest k data) | None => Panic end.
Definition Hash_ready (h : option Hash) : res unit :=
  match Hash_New h with Some _ => Ok tt | None => Err "xcrypto: uninitialized hash" end.

(** [Sum] is safe exactly on a description that is ready, and a registered digest
    has the length it declares. *)
Lemma Hash_Sum_ready {C : Crypto} {L : CryptoLaws} (h : option Hash) (data : list Z) :
  (Hash_ready h = Ok tt ↔ ∃ out, Hash_Sum h data = Ok out) ∧
  ∀ d, d ∈ [SHA1; SHA256; SHA384; SHA512] → ∃ out, Hash_Sum (Some d) data = Ok out ∧ len out = Hash_OutputLen d.
Proof.
  split.
  - unfold Hash_ready, Hash_Sum. destruct (Hash_New h); split; [by eexists|done|done|by intros [? ?]].
  - intros d Hd. repeat (apply elem_of_cons in Hd as [->|Hd]; [eexists; split; [reflexivity|apply digest_len]|]).
    by apply elem_of_nil in Hd.
Qed.

Section ModeLemmas.
Context {C : Crypto} {L : CryptoLaws}.

Lemma xor_block a b : is_block a → is_block b → is_block (xor_bytes a b).
Proof. intros [? ?] [? ?]. split; [rewrite len_xor; lia|by apply xor_bytes_bytes]. Qed.

Lemma take_block n src : bytes src → len src = 16 * Z.of_nat (S n) → is_block (take 16 src).
Proof. intros ? ?. split; [rewrite len_take; lia|by apply Forall_take]. Qed.

Lemma cbc_encrypt_bytes n key prev src :
  aes_key key → is_block prev → bytes src → len src = 16 * Z.of_nat n →
  bytes (cbc_encrypt n key prev src) ∧ len (cbc_encrypt n key prev src) = len src.
Proof.
  intros Hk. revert prev src. induction n as [|n IH]; intros prev src Hp Hb Hl; simpl.
  { split; [by apply Forall_nil_2|]. rewrite Hl. done. }
  pose proof (take_block n src Hb Hl) as Ht.
  destruct (aes_encrypt_block key _ Hk (xor_block _ _ Ht Hp)) as [El Eb].
  destruct (IH _ (drop 16 src) (conj El Eb)) as [Rb Rl];
    [by apply Forall_drop|rewrite len_drop; lia|].
  split; [by apply Forall_app_2|]. rewrite len_app, El, Rl, len_drop. lia.
Qed.

Lemma cbc_decrypt_bytes n key prev src :
  aes_key key → is_block prev → bytes src → len src = 16 * Z.of_nat n →
  bytes (cbc_decrypt n key prev src) ∧ len (cbc_decrypt n key prev src) = len src.
Proof.
  intros Hk. revert prev src. induction n as [|n IH]; intros prev src Hp Hb Hl; simpl.
  { split; [by apply Forall_nil_2|]. rewrite Hl. done. }
  pose proof (take_block n src Hb Hl) as Ht.
  destruct (xor_block _ _ (aes_decrypt_block key _ Hk Ht) Hp) as [El Eb].
  destruct (IH (take 16 src) (drop 16 src) Ht) as [Rb Rl];
    [by apply Forall_drop|rewrite len_drop; lia|].
  split; [by apply Forall_app_2|]. rewrite len_app, El, Rl, len_drop. lia.
Qed.

Lemma take_drop_app_block (c r : list Z) : len c = 16 → take 16 (c ++ r) = c ∧ drop 16 (c ++ r) = r.
Proof.
  intros Hl. assert (length c = 16%nat) as E by (unfold len in Hl; lia).
  rewrite <- E at 1. rewrite take_app_length. rewrite <- E. by rewrite drop_app_length.
Qed.

Lemma cbc_roundtrip n key prev src :
  aes_key key → is_block prev → bytes src → len src = 16 * Z.of_nat n →
  cbc_decrypt n key prev (cbc_encrypt n key prev src) = src.
Proof.
  intros Hk. revert prev src. induction n as [|n IH]; intros prev src Hp Hb Hl; simpl.
  { symmetry. apply len_0_inv. lia. }
  pose proof (take_block n src Hb Hl) as Ht. pose proof (xor_block _ _ Ht Hp) as Hx.
  pose proof (aes_encrypt_block key _ Hk Hx) as Hc.
  destruct (take_drop_app_block (aes_encrypt key (xor_bytes (take 16 src) prev))
    (cbc_encrypt n key (aes_encrypt key (xor_bytes (take 16 src) prev)) (drop 16 src)) (proj1 Hc))
    as [-> ->].
  rewrite aes_decrypt_encrypt, xor_xor by (destruct Ht, Hp; unfold len in *; done || lia).
  rewrite IH; [apply take_drop|done|by apply Forall_drop|rewrite len_drop; lia].
Qed.

Lemma cbc_roundtrip' n key prev src :
  aes_key key → is_block prev → bytes src → len src = 16 * Z.of_nat n →
  cbc_encrypt n key prev (cbc_decrypt n key prev src) = src.
Proof.
  intros Hk. revert prev src. induction n as [|n IH]; intros prev src Hp Hb Hl; simpl.
  { symmetry. apply len_0_inv. lia. }
  pose proof (take_block n src Hb Hl) as Ht.
  pose proof (aes_decrypt_block key _ Hk Ht) as Hd. pose proof (xor_block _ _ Hd Hp) as Hx.
  destruct (take_drop_app_block (xor_bytes (aes_decrypt key (take 16 src)) prev)
    (cbc_decrypt n key (take 16 src) (drop 16 src)) (proj1 Hx)) as [-> ->].
  rewrite xor_xor by (destruct Hd, Hp; unfold len in *; lia).
  rewrite aes_encrypt_decrypt by done.
  rewrite IH; [apply take_drop|done|by apply Forall_drop|rewrite len_drop; lia].
Qed.

Lemma len_concat_blocks (l : list nat) (f : nat → list Z) :
  (∀ i, len (f i) = 16) → len (concat (f <$> l)) = 16 * len l.
Proof.
  intros H. induction l as [|i l IH]; [done|].
  rewrite fmap_cons. cbn [concat]. rewrite len_app, IH, H, len_cons. lia.
Qed.

Lemma len_keystream key counter n :
  aes_key key → (∀ i, is_block (counter i)) → length (keystream key counter n) = n.
Proof.
  intros Hk Hc. unfold keystream, keystream_blocks. rewrite length_take.
  assert (H := len_concat_blocks (seq 0 (S (n / 16))) (λ i, aes_encrypt key (counter i))
    (λ i, proj1 (aes_encrypt_block key _ Hk (Hc i)))).
  unfold len in H. rewrite length_seq in H.
  pose proof (Nat.div_mod_eq n 16). pose proof (Nat.mod_upper_bound n 16). lia.
Qed.

Lemma ctr_counter_block iv i : is_block (ctr_counter iv i).
Proof. split; [apply len_be_bytes|apply be_bytes_bytes]. Qed.

Lemma gcm_counter_block nonce i : len nonce = 12 → bytes nonce → is_block (gcm_counter nonce i).
Proof.
  intros. unfold gcm_counter. split; [rewrite len_app, len_be_bytes; lia|].
  apply Forall_app_2; [done|apply be_bytes_bytes].
Qed.

(** Encrypting twice at the same position of the stream is the identity. *)
Lemma XORKeyStream_spec c src : aes_key (ctr_key c) →
  let '(c', out) := XORKeyStream c src in
  len out = len src ∧ XORKeyStream c out = (c', src) ∧ ctr_key c' = ctr_key c ∧
  ctr_pos c' = (ctr_pos c + length src)%nat.
Proof.
  intros Hk. unfold XORKeyStream. cbn [ctr_key ctr_pos].
  pose proof (len_keystream (ctr_key c) (ctr_counter (ctr_iv c)) (ctr_pos c + length src) Hk
    (ctr_counter_block _)) as Hl.
  set (ks := keystream _ _ _) in *.
  assert (Hd : length (drop (ctr_pos c) ks) = length src) by (rewrite length_drop; lia).
  assert (Hx : length (xor_bytes src (drop (ctr_pos c) ks)) = length src)
    by (unfold xor_bytes; rewrite length_zip_with; lia).
  split; [by unfold len; rewrite Hx|]. rewrite Hx. fold ks. rewrite xor_xor by lia. done.
Qed.

Lemma keystream_bytes key counter n :
  aes_key key → (∀ i, is_block (counter i)) → bytes (keystream key counter n).
Proof.
  intros Hk Hc. apply Forall_take, Forall_concat, Forall_fmap, Forall_forall.
  intros i _. apply (aes_encrypt_block key _ Hk (Hc i)).
Qed.

Lemma XORKeyStream_bytes c src : aes_key (ctr_key c) → bytes src → bytes (XORKeyStream c src).2.
Proof.
  intros Hk Hb. simpl. apply xor_bytes_bytes; [done|]. apply Forall_drop, keystream_bytes; [done|].
  apply ctr_counter_block.
Qed.

Lemma gcm_crypt_len key nonce src : aes_key key → len nonce = 12 → bytes nonce →
  len (gcm_crypt key nonce src) = len src.
Proof.
  intros. unfold gcm_crypt. apply len_xor. unfold len. rewrite len_keystream; [lia|done|].
  intros. by apply gcm_counter_block.
Qed.

Lemma gcm_crypt_twice key nonce src : aes_key key → len nonce = 12 → bytes nonce →
  gcm_crypt key nonce (gcm_crypt key nonce src) = src.
Proof.
  intros Hk Hn Hb. pose proof (gcm_crypt_len key nonce src Hk Hn Hb) as Hl.
  unfold gcm_crypt at 1. replace (length (gcm_crypt key nonce src)) with (length src)
    by (unfold len in Hl; lia).
  unfold gcm_crypt. apply xor_xor. rewrite len_keystream; [lia|done|].
  intros. by apply gcm_counter_block.
Qed.

Lemma gcm_crypt_bytes key nonce src : aes_key key → len nonce = 12 → bytes nonce → bytes src →
  bytes (gcm_crypt key nonce src).
Proof.
  intros. apply xor_bytes_bytes; [done|]. apply keystream_bytes; [done|].
  intros. by apply gcm_counter_block.
Qed.

Lemma gcm_auth_block key nonce aad ct : aes_key key → len nonce = 12 → bytes nonce →
  is_block (gcm_auth key nonce aad ct).
Proof.
  intros Hk Hn Hb. unfold gcm_auth. apply xor_block.
  - split; [apply len_be_bytes|apply be_bytes_bytes].
  - apply aes_encrypt_block; [done|]. split; [llia|]. apply Forall_app_2; [done|].
    by repeat constructor.
Qed.

Lemma hmac_len h key msg : len (hmac h key msg) = hash_size h.
Proof. apply digest_len. Qed.

Lemma hmac_bytes h key msg : bytes (hmac h key msg).
Proof. apply digest_bytes. Qed.

End ModeLemmas.

(* ------------------------------------------------------------------ *)
(** ** A model of the interface *)

(** A one-time-pad "block cipher" and a checksum "digest" that satisfy the
    laws; concrete evaluations use them. *)
Definition checksum (m : list Z) : Z := foldl (λ acc x, acc * 31 + x + 1) 7 m.

Definition xor_crypto : Crypto := {|
  aes_encrypt k b := xor_bytes b (take 16 k);
  aes_decrypt k b := xor_bytes b (take 16 k);
  digest h m := be_bytes (Z.to_nat (hash_size h)) (checksum m) |}.

Lemma key_block k : aes_key k → is_block (take 16 k).
Proof. intros [Hb Hl]. split; [rewrite len_take; lia|by apply Forall_take]. Qed.

Lemma xor_crypto_laws : @CryptoLaws xor_crypto.
Proof.
  assert (X : ∀ k b, aes_key k → is_block b → xor_bytes (xor_bytes b (take 16 k)) (take 16 k) = b).
  { intros k b Hk%key_block Hb. apply xor_xor. destruct Hk, Hb. unfold len in *. lia. }
  assert (Y : ∀ k b, aes_key k → is_block b → is_block (xor_bytes b (take 16 k))).
  { intros k b Hk%key_block Hb. by apply xor_block. }
  constructor; simpl; auto.
  - intros h m. rewrite len_be_bytes. by destruct h.
  - intros. apply be_bytes_bytes.
Qed.
