(* ===== verification/Cipher.v ===== *)
(** * Ciphers and integrity transforms (xcrypto/cipher.go, hmac.go,
      prepared.go, prepared_hmac.go)

    [Seal]/[Open] for AES-CBC, AES-GCM and the hand-written AES-CCM, the keyed
    variants that ESP prepares once per CHILD_SA, and HMAC integrity. *)

From S2P Require Import Prelude Suite Crypto.

Section Cipher.
Context {C : Crypto}.

(* ------------------------------------------------------------------ *)
(** ** cipher.go *)

(** Returns the algorithm the (possibly nil) receiver points to. *)
Definition checkKeyIV (a : option EncryptionAlg) (key iv : list Z) : res EncryptionAlg :=
  match a with
  | None => Err "xcrypto: nil encryption algorithm"
  | Some a =>
      if negb (len key =? Enc_KeyLen a) then Err "xcrypto: %s key length %d, want %d"
      else if negb (len iv =? IVLen a) then Err "xcrypto: %s IV length %d, want %d"
      else Ok a
  end.

Definition isCCM (a : EncryptionAlg) : bool :=
  (TransformEncryptionAESCCM8 <=? Enc_TransformID a)
  && (Enc_TransformID a <=? TransformEncryptionAESCCM16).

Definition splitAEADKey (a : EncryptionAlg) (key : list Z) : res (list Z * list Z) :=
  aesKey ← key.[0, TransformKeyLen a];
  salt ← slice_from key (TransformKeyLen a);
  Ok (aesKey, salt).

Definition cbcSeal (key iv plain : list Z) : res (list Z) :=
  if negb (len plain mod 16 =? 0) then
    Err "xcrypto: AES-CBC plaintext length %d not a multiple of 16"
  else
    block ← NewCipher key;
    CBC_encrypt block iv plain.

Definition cbcOpen (key iv ciphertext : list Z) : res (list Z) :=
  if negb (len ciphertext mod 16 =? 0) then
    Err "xcrypto: AES-CBC ciphertext length %d not a multiple of 16"
  else
    block ← NewCipher key;
    CBC_decrypt block iv ciphertext.

Definition saltLenGCM : Z := 4.
Definition ivLenGCM : Z := 8.
Definition saltLenCCM : Z := 3.
Definition ivLenCCM : Z := 8.

(** [copy(nonce[:saltLen], salt); copy(nonce[saltLen:], iv)] on a zeroed nonce. *)
Definition join_nonce (saltLen ivLen : Z) (salt iv : list Z) : list Z :=
  copy_to (zeros saltLen) salt ++ copy_to (zeros ivLen) iv.

Definition gcmNonce (a : EncryptionAlg) (key iv : list Z) : res (list Z) :=
  '(_, salt) ← splitAEADKey a key;
  Ok (join_nonce saltLenGCM ivLenGCM salt iv).

Definition newGCM (key : list Z) (tag : Z) : res GCM :=
  block ← NewCipher key;
  if tag =? 16 then NewGCM block else NewGCMWithTagSize block tag.

Definition gcmSeal (a : EncryptionAlg) (key iv aad plain : list Z) : res (list Z) :=
  '(aesKey, _) ← splitAEADKey a key;
  nonce ← gcmNonce a key iv;
  g ← newGCM aesKey (ICVLen a);
  GCM_Seal g [] nonce plain aad.

Definition gcmOpen (a : EncryptionAlg) (key iv aad ciphertext : list Z) : res (list Z) :=
  '(aesKey, _) ← splitAEADKey a key;
  nonce ← gcmNonce a key iv;
  g ← newGCM aesKey (ICVLen a);
  wrap "xcrypto: AES-GCM auth/open: " (GCM_Open g [] nonce ciphertext aad).

Definition ccmNonce (a : EncryptionAlg) (key iv : list Z) : res (list Z) :=
  '(_, salt) ← splitAEADKey a key;
  Ok (join_nonce saltLenCCM ivLenCCM salt iv).

Definition ccmLenParameter : Z := 4.

(** A0 = flags || nonce || counter 0 *)
Definition ccmCounterIV (nonce : list Z) : list Z :=
  u8 (ccmLenParameter - 1) :: copy_to (zeros 15) nonce.

(** [putCCMSize(dst, n)] fills the whole of [dst]. *)
Definition putCCMSize (dstLen : nat) (n : Z) : list Z := be_bytes dstLen n.

Definition aadEncoding (aad : list Z) : list Z :=
  if len aad =? 0 then []
  else
    let out := if len aad <? 65280 then putCCMSize 2 (len aad) ++ aad
               else [255; 254] ++ putUint32 (len aad) ++ aad in
    let pad := len out mod 16 in
    if negb (pad =? 0) then out ++ zeros (16 - pad) else out.

(** The CBC-MAC of the zero-padded blocks of [data]; each round consumes at
    least one byte. *)
Fixpoint ccmProcess (fuel : nat) (block x data : list Z) : res (list Z) :=
  if 0 <? len data then
    match fuel with
    | O => Hang
    | S f =>
        let n := if 16 <? len data then 16 else len data in
        head ← data.[0, n];
        let buf := copy_to (zeros 16) head in
        let x' := aes_encrypt block (xor_bytes buf x) in
        rest ← slice_from data n;
        ccmProcess f block x' rest
    end
  else Ok x.

Definition ccmMAC (block nonce aad msg : list Z) (tagLen : Z) : res (list Z) :=
  let flags := u8 (Z.shiftl (u8 (Z.quot (tagLen - 2) 2)) 3) in
  let flags := if negb (len aad =? 0) then Z.lor flags 64 else flags in
  let flags := Z.lor flags (u8 (ccmLenParameter - 1)) in
  let b0 := flags :: copy_to (zeros 15) nonce in
  let b0 := splice b0 (16 - ccmLenParameter) (putCCMSize (Z.to_nat ccmLenParameter) (len msg)) in
  let x := aes_encrypt block b0 in
  let enc := aadEncoding aad in
  x ← ccmProcess (length enc) block x enc;
  ccmProcess (length msg) block x msg.

Definition ccmSeal (a : EncryptionAlg) (key iv aad plain : list Z) : res (list Z) :=
  aesKey ← key.[0, TransformKeyLen a];
  block ← NewCipher aesKey;
  nonce ← ccmNonce a key iv;
  fullTag ← ccmMAC block nonce aad plain (ICVLen a);
  ctr ← NewCTR block (ccmCounterIV nonce);
  let '(ctr, tagKs) := XORKeyStream ctr (zeros 16) in
  let fullTag := xor_bytes fullTag tagKs in
  let '(_, ct) := XORKeyStream ctr plain in
  tag ← fullTag.[0, ICVLen a];
  Ok (ct ++ tag).

Definition ccmOpen (a : EncryptionAlg) (key iv aad ciphertext : list Z) : res (list Z) :=
  if len ciphertext <? ICVLen a then Err "xcrypto: AES-CCM ciphertext too short: %d"
  else
    let dataLen := len ciphertext - ICVLen a in
    aesKey ← key.[0, TransformKeyLen a];
    block ← NewCipher aesKey;
    nonce ← ccmNonce a key iv;
    ctr ← NewCTR block (ccmCounterIV nonce);
    let '(ctr, tagKs) := XORKeyStream ctr (zeros 16) in
    data ← ciphertext.[0, dataLen];
    let '(_, out) := XORKeyStream ctr data in
    received ← slice_from ciphertext dataLen;
    tagMask ← tagKs.[0, ICVLen a];
    let tag := xor_bytes received tagMask in
    full ← ccmMAC block nonce aad out (ICVLen a);
    expected ← full.[0, ICVLen a];
    if bool_decide (tag = expected) then Ok out else Err "xcrypto: AES-CCM auth failed".

Definition Seal (a : option EncryptionAlg) (key iv aad plain : list Z) : res (list Z) :=
  a ← checkKeyIV a key iv;
  if negb (AEAD a) then cbcSeal key iv plain
  else if isCCM a then ccmSeal a key iv aad plain
  else gcmSeal a key iv aad plain.

Definition Open (a : option EncryptionAlg) (key iv aad ciphertext : list Z) : res (list Z) :=
  a ← checkKeyIV a key iv;
  if negb (AEAD a) then cbcOpen key iv ciphertext
  else if isCCM a then ccmOpen a key iv aad ciphertext
  else gcmOpen a key iv aad ciphertext.

(* ------------------------------------------------------------------ *)
(** ** prepared.go *)

Record PreparedEncryption := mkPreparedEncryption {
  pe_alg : EncryptionAlg;
  pe_block : option (list Z);
  pe_gcm : option GCM;
  pe_salt : list Z }.

Definition Prepare (a : option EncryptionAlg) (key : list Z) : res PreparedEncryption :=
  match a with
  | None => Err "xcrypto: nil encryption algorithm"
  | Some a =>
      if negb (len key =? Enc_KeyLen a) then Err "xcrypto: %s key length %d, want %d"
      else if negb (AEAD a) then
        block ← NewCipher key;
        Ok (mkPreparedEncryption a (Some block) None [])
      else if isCCM a then
        aesKey ← key.[0, TransformKeyLen a];
        block ← NewCipher aesKey;
        salt ← slice_from key (TransformKeyLen a);
        Ok (mkPreparedEncryption a (Some block) None salt)
      else
        '(aesKey, salt) ← splitAEADKey a key;
        g ← newGCM aesKey (ICVLen a);
        Ok (mkPreparedEncryption a None (Some g) salt)
  end.

(** Following a pointer field of the prepared state. *)
Definition deref {A} (o : option A) : res A := match o with Some x => Ok x | None => Panic end.

Definition checkIV (p : option PreparedEncryption) (iv : list Z) : res PreparedEncryption :=
  match p with
  | None => Err "xcrypto: nil prepared encryption"
  | Some p => if negb (len iv =? IVLen (pe_alg p)) then Err "xcrypto: %s IV length %d, want %d"
              else Ok p
  end.

(** [growDst] extends [dst]; every byte of the extension is then overwritten,
    so the result is [dst] followed by what the cipher writes. *)
Definition pe_cbcSeal (p : PreparedEncryption) (dst iv plain : list Z) : res (list Z) :=
  if negb (len plain mod 16 =? 0) then
    Err "xcrypto: AES-CBC plaintext length %d not a multiple of 16"
  else
    block ← deref (pe_block p);
    out ← CBC_encrypt block iv plain;
    Ok (dst ++ out).

Definition pe_cbcOpenTo (p : PreparedEncryption) (dst iv ciphertext : list Z) : res (list Z) :=
  if negb (len ciphertext mod 16 =? 0) then
    Err "xcrypto: AES-CBC ciphertext length %d not a multiple of 16"
  else
    block ← deref (pe_block p);
    out ← CBC_decrypt block iv ciphertext;
    Ok (dst ++ out).

Definition pe_gcmNonce (p : PreparedEncryption) (iv : list Z) : list Z :=
  join_nonce saltLenGCM ivLenGCM (pe_salt p) iv.

Definition pe_gcmSeal (p : PreparedEncryption) (dst iv aad plain : list Z) : res (list Z) :=
  g ← deref (pe_gcm p);
  GCM_Seal g dst (pe_gcmNonce p iv) plain aad.

Definition pe_gcmOpenTo (p : PreparedEncryption) (dst iv aad ciphertext : list Z) : res (list Z) :=
  g ← deref (pe_gcm p);
  wrap "xcrypto: AES-GCM auth/open: " (GCM_Open g dst (pe_gcmNonce p iv) ciphertext aad).

Definition pe_ccmNonce (p : PreparedEncryption) (iv : list Z) : list Z :=
  join_nonce saltLenCCM ivLenCCM (pe_salt p) iv.

Definition pe_ccmSeal (p : PreparedEncryption) (dst iv aad plain : list Z) : res (list Z) :=
  let nonce := pe_ccmNonce p iv in
  block ← deref (pe_block p);
  fullTag ← ccmMAC block nonce aad plain (ICVLen (pe_alg p));
  ctr ← NewCTR block (ccmCounterIV nonce);
  let '(ctr, tagKs) := XORKeyStream ctr (zeros 16) in
  let fullTag := xor_bytes fullTag tagKs in
  let '(_, ct) := XORKeyStream ctr plain in
  tag ← fullTag.[0, ICVLen (pe_alg p)];
  Ok (dst ++ ct ++ tag).

Definition pe_ccmOpenTo (p : PreparedEncryption) (dst iv aad ciphertext : list Z) : res (list Z) :=
  if len ciphertext <? ICVLen (pe_alg p) then Err "xcrypto: AES-CCM ciphertext too short: %d"
  else
    let dataLen := len ciphertext - ICVLen (pe_alg p) in
    let nonce := pe_ccmNonce p iv in
    block ← deref (pe_block p);
    ctr ← NewCTR block (ccmCounterIV nonce);
    let '(ctr, tagKs) := XORKeyStream ctr (zeros 16) in
    data ← ciphertext.[0, dataLen];
    let '(_, plain) := XORKeyStream ctr data in
    let out := dst ++ plain in
    received ← slice_from ciphertext dataLen;
    tagMask ← tagKs.[0, ICVLen (pe_alg p)];
    let tag := xor_bytes received tagMask in
    body ← slice_from out (len dst);
    full ← ccmMAC block nonce aad body (ICVLen (pe_alg p));
    expected ← full.[0, ICVLen (pe_alg p)];
    if bool_decide (tag = expected) then Ok out else Err "xcrypto: AES-CCM auth failed".

Definition SealTo (p : option PreparedEncryption) (dst iv aad plain : list Z) : res (list Z) :=
  p ← checkIV p iv;
  if negb (AEAD (pe_alg p)) then pe_cbcSeal p dst iv plain
  else if isCCM (pe_alg p) then pe_ccmSeal p dst iv aad plain
  else pe_gcmSeal p dst iv aad plain.

Definition OpenTo (p : option PreparedEncryption) (dst iv aad ciphertext : list Z) : res (list Z) :=
  p ← checkIV p iv;
  if negb (AEAD (pe_alg p)) then pe_cbcOpenTo p dst iv ciphertext
  else if isCCM (pe_alg p) then pe_ccmOpenTo p dst iv aad ciphertext
  else pe_gcmOpenTo p dst iv aad ciphertext.

(* ------------------------------------------------------------------ *)
(** ** hmac.go and prepared_hmac.go *)

Definition Sign (i : option Integrity) (key msg : list Z) : res (list Z) :=
  match i with
  | Some {| Integ_OutputLen := outLen; Integ_KeyLen := keyLen; Integ_newHMAC := Some h |} =>
      if negb (len key =? keyLen) then Err "xcrypto: integrity key length %d, want %d"
      else (hmac_Sum (hmac_Write (hmac_New h key) msg)).[0, outLen]
  | _ => Err "xcrypto: no integrity transform (AEAD carries its own tag)"
  end.

Definition Verify (i : option Integrity) (key msg icv : list Z) : bool :=
  match Sign i key msg with
  | Ok got => (len got =? len icv) && bool_decide (got = icv)
  | _ => false
  end.

Record PreparedIntegrity := mkPreparedIntegrity { pi_outputLen : Z; pi_h : HMAC }.

Definition PrepareIntegrity (i : option Integrity) (key : list Z) : res PreparedIntegrity :=
  match i with
  | Some {| Integ_OutputLen := outLen; Integ_KeyLen := keyLen; Integ_newHMAC := Some h |} =>
      if negb (len key =? keyLen) then Err "xcrypto: integrity key length %d, want %d"
      else Ok {| pi_outputLen := outLen; pi_h := hmac_New h key |}
  | _ => Err "xcrypto: no integrity transform (AEAD carries its own tag)"
  end.

(** The HMAC state is shared by all calls, so signing returns the new state. *)
Definition PreparedSign (p : PreparedIntegrity) (msg : list Z) :
    PreparedIntegrity * res (list Z) :=
  let h := hmac_Write (hmac_Reset (pi_h p)) msg in
  ({| pi_outputLen := pi_outputLen p; pi_h := h |}, (hmac_Sum h).[0, pi_outputLen p]).

Definition PreparedVerify (p : PreparedIntegrity) (msg icv : list Z) : PreparedIntegrity * bool :=
  let '(p', r) := PreparedSign p msg in
  (p', match r with
       | Ok got => (len got =? len icv) && bool_decide (got = icv)
       | _ => false
       end).

End Cipher.

(* ------------------------------------------------------------------ *)
(** ** Lemmas *)

(** The three families of the registry. *)
Inductive family (a : EncryptionAlg) : Prop :=
  | FamCBC : AEAD a = false → Enc_KeyLen a = TransformKeyLen a → IVLen a = 16 → ICVLen a = 0 →
             family a
  | FamCCM : AEAD a = true → isCCM a = true → Enc_KeyLen a = TransformKeyLen a + 3 →
             IVLen a = 8 → 8 <= ICVLen a <= 16 → family a
  | FamGCM : AEAD a = true → isCCM a = false → Enc_KeyLen a = TransformKeyLen a + 4 →
             IVLen a = 8 → 12 <= ICVLen a <= 16 → family a.

Lemma enc_family id kl a : NewEncryption id kl = Ok a →
  (TransformKeyLen a = 16 ∨ TransformKeyLen a = 32) ∧ family a.
Proof.
  unfold NewEncryption. intros H.
  destruct (negb (kl =? 16) && negb (kl =? 32)) eqn:Ek; [done|].
  destruct (id =? TransformEncryptionAESCBC) eqn:E1.
  { injection H as <-. split; [simpl; lia|]. by apply FamCBC. }
  unfold TransformEncryptionAESCCM8, TransformEncryptionAESCCM12, TransformEncryptionAESCCM16,
    TransformEncryptionAESGCM12, TransformEncryptionAESGCM16 in *.
  destruct (_ || _ || _) eqn:E2 in H.
  { injection H as <-. split; [simpl; lia|].
    apply FamCCM; simpl; try done; [unfold isCCM; simpl|destruct (id =? 15), (id =? 16); lia].
    unfold TransformEncryptionAESCCM8, TransformEncryptionAESCCM16. lia. }
  destruct (_ || _) eqn:E3 in H; [|done]. injection H as <-. split; [simpl; lia|].
  apply FamGCM; simpl; try done; [unfold isCCM; simpl|destruct (id =? 20); lia].
  unfold TransformEncryptionAESCCM8, TransformEncryptionAESCCM16. lia.
Qed.

Lemma xor_take n a b : xor_bytes (take n a) (take n b) = take n (xor_bytes a b).
Proof.
  revert a b. induction n as [|n IH]; intros a b; [done|].
  destruct a as [|x a], b as [|y b]; try done. unfold xor_bytes in *. simpl. by rewrite IH.
Qed.

Lemma slice_take {A} (b : list A) n : 0 <= n <= len b → b.[0, n] = Ok (take (Z.to_nat n) b).
Proof. intros. apply slice_eq; [lia..|]. by rewrite Z.sub_0_r. Qed.

Lemma slice_from_drop {A} (b : list A) n : 0 <= n <= len b →
  slice_from b n = Ok (drop (Z.to_nat n) b).
Proof.
  intros. apply slice_eq; [lia..|]. apply take_ge. unfold len in *. rewrite length_drop. lia.
Qed.

Section CipherLemmas.
Context {C : Crypto} {L : CryptoLaws}.

Lemma NewCipher_ok key : (len key = 16 ∨ len key = 24 ∨ len key = 32) → NewCipher key = Ok key.
Proof. intros H. unfold NewCipher. by replace (_ || _ || _) with true by lia. Qed.

Lemma NewCTR_ok block iv : len iv = 16 → NewCTR block iv = Ok (mkCTR block iv 0).
Proof. intros H. unfold NewCTR. by rewrite H. Qed.

Lemma len_join_nonce sl il salt iv : 0 <= sl → 0 <= il → len (join_nonce sl il salt iv) = sl + il.
Proof. intros. unfold join_nonce. rewrite len_app, !len_copy_to, !len_zeros; lia. Qed.

Lemma join_nonce_bytes sl il salt iv : bytes salt → bytes iv → bytes (join_nonce sl il salt iv).
Proof. intros. unfold join_nonce. bytes_solve. Qed.

Lemma ccmCounterIV_len nonce : len (ccmCounterIV nonce) = 16.
Proof. unfold ccmCounterIV. rewrite len_cons, len_copy_to, len_zeros; lia. Qed.

(** The CBC-MAC loop ends and yields a block. *)
Lemma ccmProcess_ok block : aes_key block → ∀ fuel x data,
  is_block x → bytes data → (length data <= fuel)%nat →
  ∃ y, ccmProcess fuel block x data = Ok y ∧ is_block y.
Proof.
  intros Hk. induction fuel as [|f IH]; intros x data Hx Hb Hl; simpl;
    destruct (0 <? len data) eqn:E; eauto; [unfold len in E; lia|].
  set (n := if 16 <? len data then 16 else len data).
  assert (Hn : 0 < n <= len data ∧ n <= 16) by (unfold n; destruct (16 <? len data) eqn:?; lia).
  rewrite slice_take, slice_from_drop by lia. run. apply IH.
  - apply aes_encrypt_block; [done|]. apply xor_block; [|done].
    split; [by rewrite len_copy_to|bytes_solve].
  - by apply Forall_drop.
  - rewrite length_drop. unfold len in *. lia.
Qed.

Lemma aadEncoding_bytes aad : bytes aad → bytes (aadEncoding aad).
Proof.
  intros Hb. unfold aadEncoding. destruct (len aad =? 0); [bytes_solve|].
  assert (bytes (if len aad <? 65280 then putCCMSize 2 (len aad) ++ aad
                 else [255; 254] ++ putUint32 (len aad) ++ aad)).
  { destruct (_ <? _); unfold putCCMSize; [bytes_solve|].
    apply bytes_app; [by repeat constructor|bytes_solve]. }
  destruct (negb _); bytes_solve.
Qed.

Lemma ccmMAC_ok block nonce aad msg t :
  aes_key block → bytes nonce → bytes aad → bytes msg →
  ∃ m, ccmMAC block nonce aad msg t = Ok m ∧ is_block m.
Proof.
  intros Hk Hn Ha Hm. unfold ccmMAC.
  set (flags := Z.lor _ _). set (b0 := splice _ _ _).
  assert (Hf : is_byte flags).
  { apply lor_byte; [|apply u8_byte]. destruct (negb _); [apply lor_byte; [apply u8_byte|done]|].
    apply u8_byte. }
  assert (Hb : is_block b0).
  { unfold b0. split.
    - rewrite len_splice; [|done|]; rewrite ?len_cons, len_copy_to, len_zeros by lia; [done|].
      unfold putCCMSize. rewrite len_be_bytes. unfold ccmLenParameter. lia.
    - unfold putCCMSize. bytes_solve. }
  destruct (ccmProcess_ok block Hk (length (aadEncoding aad)) _ (aadEncoding aad)
    (aes_encrypt_block _ _ Hk Hb) (aadEncoding_bytes _ Ha)) as (y & -> & Hy); [done|]. run.
  by apply ccmProcess_ok.
Qed.

(** The CCM keystream after the 16 bytes that mask the tag. *)
Definition ccm_mask (block nonce : list Z) : list Z :=
  (XORKeyStream (mkCTR block (ccmCounterIV nonce) 0) (zeros 16)).2.
Definition ccm_stream (block nonce data : list Z) : list Z :=
  (XORKeyStream (XORKeyStream (mkCTR block (ccmCounterIV nonce) 0) (zeros 16)).1 data).2.

Lemma len_ccm_mask block nonce : aes_key block → len (ccm_mask block nonce) = 16.
Proof.
  intros Hk. pose proof (XORKeyStream_spec (mkCTR block (ccmCounterIV nonce) 0) (zeros 16) Hk) as H.
  unfold ccm_mask. destruct (XORKeyStream _ _) as [c out]. destruct H as [H _]. exact H.
Qed.

Lemma ccm_stream_spec block nonce data : aes_key block →
  len (ccm_stream block nonce data) = len data ∧
  ccm_stream block nonce (ccm_stream block nonce data) = data.
Proof.
  intros Hk. pose proof (XORKeyStream_spec (mkCTR block (ccmCounterIV nonce) 0) (zeros 16) Hk) as H.
  unfold ccm_stream. destruct (XORKeyStream _ (zeros 16)) as [c ks]. destruct H as (_ & _ & Hc & _).
  pose proof (XORKeyStream_spec c data) as H'. rewrite Hc in H'. specialize (H' Hk). cbn [fst].
  destruct (XORKeyStream c data) as [c' out] eqn:E. destruct H' as (Hl & Hx & _).
  cbn [snd]. by rewrite Hx.
Qed.

Lemma ccm_stream_bytes block nonce data : aes_key block → bytes data →
  bytes (ccm_stream block nonce data).
Proof. intros Hk Hb. by apply XORKeyStream_bytes. Qed.

(** The key and nonce of a CCM algorithm. *)
Record ccm_setup (a : EncryptionAlg) (key iv block nonce : list Z) : Prop := {
  cs_block : key.[0, TransformKeyLen a] = Ok block;
  cs_cipher : NewCipher block = Ok block;
  cs_nonce : ccmNonce a key iv = Ok nonce;
  cs_key : aes_key block;
  cs_len : len nonce = 11;
  cs_bytes : bytes nonce }.

Lemma split_key a key : (TransformKeyLen a = 16 ∨ TransformKeyLen a = 32) →
  TransformKeyLen a <= len key → bytes key →
  ∃ k salt, splitAEADKey a key = Ok (k, salt) ∧ key.[0, TransformKeyLen a] = Ok k ∧
    slice_from key (TransformKeyLen a) = Ok salt ∧ aes_key k ∧ bytes salt ∧
    len salt = len key - TransformKeyLen a ∧ NewCipher k = Ok k.
Proof.
  intros Ht Hl Hb. unfold splitAEADKey. rewrite slice_take, slice_from_drop by lia. run.
  assert (Hk : len (take (Z.to_nat (TransformKeyLen a)) key) = TransformKeyLen a)
    by (rewrite len_take; lia).
  eexists _, _. split_and!; try done.
  - split; [by apply bytes_take|lia].
  - by apply bytes_drop.
  - rewrite len_drop. lia.
  - apply NewCipher_ok. lia.
Qed.

Lemma ccm_setup_ok a key iv : (TransformKeyLen a = 16 ∨ TransformKeyLen a = 32) →
  len key = TransformKeyLen a + 3 → bytes key → bytes iv →
  ∃ block nonce, ccm_setup a key iv block nonce.
Proof.
  intros Ht Hl Hb Hi. destruct (split_key a key Ht) as (k & salt & Es & E1 & E2 & Hk & Hs & _ & Hc);
    [lia|done|].
  exists k, (join_nonce saltLenCCM ivLenCCM salt iv). constructor; try done.
  - unfold ccmNonce. by rewrite Es.
  - by rewrite len_join_nonce.
  - by apply join_nonce_bytes.
Qed.

Lemma ccmSeal_eq a key iv block nonce aad plain m :
  ccm_setup a key iv block nonce → ICVLen a <= 16 → 0 <= ICVLen a →
  ccmMAC block nonce aad plain (ICVLen a) = Ok m → is_block m →
  ccmSeal a key iv aad plain =
    Ok (ccm_stream block nonce plain
        ++ take (Z.to_nat (ICVLen a)) (xor_bytes m (ccm_mask block nonce))).
Proof.
  intros [E1 E2 E3 Hk Hn Hb] Hi Hi' Em [Hml _]. unfold ccmSeal. rewrite E1. run. rewrite E2. run.
  rewrite E3. run. rewrite Em. run. rewrite NewCTR_ok by apply ccmCounterIV_len. run.
  pose proof (len_ccm_mask block nonce Hk) as Hm. unfold ccm_stream, ccm_mask in *.
  destruct (XORKeyStream _ (zeros 16)) as [c ks]. cbn [fst snd] in *.
  destruct (XORKeyStream c plain) as [c' out]. cbn [snd].
  rewrite slice_take by (rewrite len_xor; lia). done.
Qed.

Lemma ccmOpen_eq a key iv block nonce aad ct plain m :
  ccm_setup a key iv block nonce → 0 <= ICVLen a <= 16 → ICVLen a <= len ct →
  plain = ccm_stream block nonce (take (Z.to_nat (len ct - ICVLen a)) ct) →
  ccmMAC block nonce aad plain (ICVLen a) = Ok m → is_block m →
  ccmOpen a key iv aad ct =
    if bool_decide (xor_bytes (drop (Z.to_nat (len ct - ICVLen a)) ct)
                      (take (Z.to_nat (ICVLen a)) (ccm_mask block nonce))
                    = take (Z.to_nat (ICVLen a)) m)
    then Ok plain else Err "xcrypto: AES-CCM auth failed".
Proof.
  intros [E1 E2 E3 Hk Hn Hb] Hi Hc Hp Em [Hml _]. unfold ccmOpen.
  replace (len ct <? ICVLen a) with false by lia. rewrite E1. run. rewrite E2. run.
  rewrite E3. run. rewrite NewCTR_ok by apply ccmCounterIV_len. run.
  pose proof (len_ccm_mask block nonce Hk) as Hm. unfold ccm_stream, ccm_mask in *.
  destruct (XORKeyStream _ (zeros 16)) as [c ks]. cbn [fst snd] in *.
  rewrite (slice_take ct) by lia. run. destruct (XORKeyStream c _) as [c' out]. cbn [snd] in Hp. subst out.
  rewrite slice_from_drop by lia. run. rewrite (slice_take ks) by lia. run. rewrite Em. run.
  by rewrite slice_take by lia.
Qed.

Lemma ccm_iff a key iv aad plain ct :
  (TransformKeyLen a = 16 ∨ TransformKeyLen a = 32) → 8 <= ICVLen a <= 16 →
  len key = TransformKeyLen a + 3 → bytes key → bytes iv → bytes aad → bytes plain → bytes ct →
  ccmSeal a key iv aad plain = Ok ct ↔ ccmOpen a key iv aad ct = Ok plain.
Proof.
  intros Ht Hi Hl Hbk Hbi Hba Hbp Hbc.
  destruct (ccm_setup_ok a key iv Ht Hl Hbk Hbi) as (block & nonce & Hs). pose proof Hs as [_ _ _ Hk _ Hn].
  destruct (ccmMAC_ok block nonce aad plain (ICVLen a) Hk Hn Hba Hbp) as (m & Em & Hm).
  pose proof (len_ccm_mask block nonce Hk) as Hmask. pose proof Hm as [Hml _].
  destruct (ccm_stream_spec block nonce plain Hk) as [Sl Sr].
  rewrite (ccmSeal_eq a key iv block nonce aad plain m) by (done || lia).
  set (M := Z.to_nat (ICVLen a)) in *. set (mask := ccm_mask block nonce) in *.
  assert (Hx : length (xor_bytes m mask) = 16%nat)
    by (unfold xor_bytes; rewrite length_zip_with; unfold len in *; lia).
  split.
  - intros [= <-]. set (s := ccm_stream block nonce plain) in *.
    assert (Hn' : Z.to_nat (len (s ++ take M (xor_bytes m mask)) - ICVLen a) = length s).
    { rewrite len_app, len_take. unfold len. rewrite Hx. lia. }
    rewrite (ccmOpen_eq a key iv block nonce aad _ plain m); try done; [|lia| |].
    + rewrite Hn', drop_app_length, <- xor_take, bool_decide_eq_true_2; [done|].
      apply xor_xor. rewrite !length_take. fold mask. unfold len in *. lia.
    + rewrite len_app, len_take. unfold len. rewrite Hx. lia.
    + by rewrite Hn', take_app_length.
  - intros Ho. assert (Hc : ICVLen a <= len ct).
    { unfold ccmOpen in Ho. destruct (len ct <? ICVLen a) eqn:E; [done|]. lia. }
    set (n := Z.to_nat (len ct - ICVLen a)) in *.
    destruct (ccmMAC_ok block nonce aad (ccm_stream block nonce (take n ct)) (ICVLen a) Hk Hn Hba)
      as (m' & Em' & Hm'). { apply ccm_stream_bytes; bytes_solve. }
    rewrite (ccmOpen_eq a key iv block nonce aad ct _ m' Hs ltac:(lia) Hc eq_refl Em' Hm') in Ho.
    fold n M mask in Ho. destruct (bool_decide _) eqn:Eb; [|done]. injection Ho as Ho.
    apply bool_decide_eq_true_1 in Eb. rewrite Ho, Em in Em'. injection Em' as <-.
    destruct (ccm_stream_spec block nonce (take n ct) Hk) as [_ Sr'].
    rewrite <- Ho, Sr', <- xor_take, <- Eb, xor_xor; [by rewrite take_drop|].
    rewrite length_drop, length_take. fold mask. unfold n, M. unfold len in *. lia.
Qed.

Lemma blocks_of {A} (l : list A) : len l mod 16 = 0 → len l = 16 * Z.of_nat (length l / 16).
Proof.
  unfold len. intros H. pose proof (Nat.div_mod_eq (length l) 16).
  rewrite Nat2Z.inj_div. change (Z.of_nat 16) with 16. divlia.
Qed.

Lemma cbcSeal_eq key iv plain : aes_key key → len iv = 16 → len plain mod 16 = 0 →
  cbcSeal key iv plain = Ok (cbc_encrypt (length plain / 16) key iv plain).
Proof.
  intros [_ Hk] Hi Hp. unfold cbcSeal, CBC_encrypt. rewrite Hp, Hi. simpl.
  by rewrite NewCipher_ok by lia.
Qed.

Lemma cbcOpen_eq key iv ct : aes_key key → len iv = 16 → len ct mod 16 = 0 →
  cbcOpen key iv ct = Ok (cbc_decrypt (length ct / 16) key iv ct).
Proof.
  intros [_ Hk] Hi Hp. unfold cbcOpen, CBC_decrypt. rewrite Hp, Hi. simpl.
  by rewrite NewCipher_ok by lia.
Qed.

Lemma cbc_iff key iv plain ct :
  aes_key key → is_block iv → bytes plain → bytes ct →
  cbcSeal key iv plain = Ok ct ↔ cbcOpen key iv ct = Ok plain.
Proof.
  intros Hk Hi Hp Hc. pose proof Hi as [Hil _]. split; intros H.
  - destruct (negb (len plain mod 16 =? 0)) eqn:E; [unfold cbcSeal in H; by rewrite E in H|].
    rewrite cbcSeal_eq in H by (done || lia). apply Ok_inj in H. subst ct.
    pose proof (blocks_of plain ltac:(lia)) as Hb.
    destruct (cbc_encrypt_bytes (length plain / 16) key iv plain Hk Hi Hp Hb) as [_ Hl].
    rewrite cbcOpen_eq by (rewrite ?Hl; done || lia).
    replace (length (cbc_encrypt _ _ _ _)) with (length plain) by (unfold len in Hl; lia).
    f_equal. by apply cbc_roundtrip.
  - destruct (negb (len ct mod 16 =? 0)) eqn:E; [unfold cbcOpen in H; by rewrite E in H|].
    rewrite cbcOpen_eq in H by (done || lia). apply Ok_inj in H. subst plain.
    pose proof (blocks_of ct ltac:(lia)) as Hb.
    destruct (cbc_decrypt_bytes (length ct / 16) key iv ct Hk Hi Hc Hb) as [_ Hl].
    rewrite cbcSeal_eq by (rewrite ?Hl; done || lia).
    replace (length (cbc_decrypt _ _ _ _)) with (length ct) by (unfold len in Hl; lia).
    f_equal. by apply cbc_roundtrip'.
Qed.

Lemma newGCM_ok key tag : aes_key key → 12 <= tag <= 16 → newGCM key tag = Ok (mkGCM key tag).
Proof.
  intros [_ Hk] Ht. unfold newGCM. rewrite NewCipher_ok by lia. run.
  destruct (tag =? 16) eqn:E; [unfold NewGCM; do 2 f_equal; lia|].
  unfold NewGCMWithTagSize. by replace (_ || _) with false by lia.
Qed.

(** GCM_Open accepts exactly the outputs of GCM_Seal. *)
Lemma GCM_iff key tag nonce aad plain ct :
  aes_key key → 12 <= tag <= 16 → len nonce = 12 → bytes nonce →
  GCM_Seal (mkGCM key tag) [] nonce plain aad = Ok ct ↔
  GCM_Open (mkGCM key tag) [] nonce ct aad = Ok plain.
Proof.
  intros Hk Ht Hn Hb. unfold GCM_Seal, GCM_Open. rewrite Hn. cbn [negb Z.eqb Pos.eqb].
  cbn [gcm_key gcm_tagSize app]. set (c := gcm_crypt key nonce plain).
  pose proof (gcm_crypt_len key nonce plain Hk Hn Hb) as Hl. fold c in Hl.
  assert (Hauth : ∀ x, len (gcm_auth key nonce aad x) = 16).
  { intros x. by destruct (gcm_auth_block key nonce aad x Hk Hn Hb). }
  split.
  - destruct (gcm_max <? len plain) eqn:E; [done|]. intros [= <-].
    rewrite !len_app, !len_take, Hauth, Hl. pose proof (len_nonneg plain).
    replace (Z.min (Z.of_nat (Z.to_nat tag)) 16) with tag by lia.
    replace (len plain + tag <? tag) with false by lia.
    replace (gcm_max + tag <? len plain + tag) with false by lia.
    replace (Z.to_nat (len plain + tag - tag)) with (length c) by (unfold len in *; lia).
    rewrite take_app_length, drop_app_length, bool_decide_eq_true_2 by done.
    unfold c. by rewrite gcm_crypt_twice.
  - destruct (len ct <? tag) eqn:E1; [done|]. destruct (_ <? len ct) eqn:E2; [done|].
    destruct (bool_decide _) eqn:Eb; [|done]. intros [= Hp]. apply bool_decide_eq_true_1 in Eb.
    assert (Ec : c = take (Z.to_nat (len ct - tag)) ct).
    { unfold c. by rewrite <- Hp, gcm_crypt_twice. }
    replace (gcm_max <? len plain) with false.
    + by rewrite Ec, Eb, take_drop.
    + rewrite <- Hl, Ec, len_take. symmetry. apply Z.ltb_ge. apply Z.ltb_ge in E1, E2. lia.
Qed.

Lemma gcm_eq a key iv : (TransformKeyLen a = 16 ∨ TransformKeyLen a = 32) →
  12 <= ICVLen a <= 16 → len key = TransformKeyLen a + 4 → bytes key → bytes iv →
  ∃ k nonce, aes_key k ∧ len nonce = 12 ∧ bytes nonce ∧
    (∀ aad plain, gcmSeal a key iv aad plain = GCM_Seal (mkGCM k (ICVLen a)) [] nonce plain aad) ∧
    (∀ aad ct, gcmOpen a key iv aad ct =
      wrap "xcrypto: AES-GCM auth/open: " (GCM_Open (mkGCM k (ICVLen a)) [] nonce ct aad)).
Proof.
  intros Ht Hi Hl Hb Hv. destruct (split_key a key Ht) as (k & salt & Es & E1 & E2 & Hk & Hs & _ & Hc);
    [lia|done|].
  exists k, (join_nonce saltLenGCM ivLenGCM salt iv). split_and!; [done| |by apply join_nonce_bytes|..].
  - by rewrite len_join_nonce.
  - intros. unfold gcmSeal, gcmNonce. rewrite Es. run. by rewrite newGCM_ok.
  - intros. unfold gcmOpen, gcmNonce. rewrite Es. run. by rewrite newGCM_ok.
Qed.

Lemma gcm_iff a key iv aad plain ct :
  (TransformKeyLen a = 16 ∨ TransformKeyLen a = 32) →
  12 <= ICVLen a <= 16 → len key = TransformKeyLen a + 4 → bytes key → bytes iv →
  gcmSeal a key iv aad plain = Ok ct ↔ gcmOpen a key iv aad ct = Ok plain.
Proof.
  intros Ht Hi Hl Hb Hv. destruct (gcm_eq a key iv Ht Hi Hl Hb Hv) as (k & nonce & Hk & Hn & Hnb & -> & ->).
  rewrite wrap_Ok. by apply GCM_iff.
Qed.

Lemma checkKeyIV_ok a key iv a' : checkKeyIV (Some a) key iv = Ok a' →
  a' = a ∧ len key = Enc_KeyLen a ∧ len iv = IVLen a.
Proof. simpl. intros H. inv_ok. split; [done|lia]. Qed.

Lemma checkKeyIV_good a key iv : len key = Enc_KeyLen a → len iv = IVLen a →
  checkKeyIV (Some a) key iv = Ok a.
Proof. intros H1 H2. simpl. by rewrite H1, H2, !Z.eqb_refl. Qed.

(** Sealing succeeds on every input of the right shape. *)
Lemma ccmSeal_total a key iv aad plain :
  (TransformKeyLen a = 16 ∨ TransformKeyLen a = 32) → 8 <= ICVLen a <= 16 →
  len key = TransformKeyLen a + 3 → bytes key → bytes iv → bytes aad → bytes plain →
  ∃ ct, ccmSeal a key iv aad plain = Ok ct ∧ len ct = len plain + ICVLen a ∧ bytes ct.
Proof.
  intros Ht Hi Hl Hbk Hbi Hba Hbp.
  destruct (ccm_setup_ok a key iv Ht Hl Hbk Hbi) as (block & nonce & Hs). pose proof Hs as [_ _ _ Hk _ Hn].
  destruct (ccmMAC_ok block nonce aad plain (ICVLen a) Hk Hn Hba Hbp) as (m & Em & Hm).
  pose proof (len_ccm_mask block nonce Hk) as Hmask. pose proof Hm as [Hml Hmb].
  destruct (ccm_stream_spec block nonce plain Hk) as [Sl _].
  rewrite (ccmSeal_eq a key iv block nonce aad plain m) by (done || lia).
  eexists. split; [done|]. split; [rewrite len_app, len_take, len_xor, Sl by lia; lia|].
  apply bytes_app; [by apply ccm_stream_bytes|]. apply bytes_take, xor_bytes_bytes; [done|].
  apply XORKeyStream_bytes; [done|apply zeros_bytes].
Qed.

Lemma gcmSeal_total a key iv aad plain :
  (TransformKeyLen a = 16 ∨ TransformKeyLen a = 32) → 12 <= ICVLen a <= 16 →
  len key = TransformKeyLen a + 4 → bytes key → bytes iv → bytes plain → len plain <= gcm_max →
  ∃ ct, gcmSeal a key iv aad plain = Ok ct ∧ len ct = len plain + ICVLen a ∧ bytes ct.
Proof.
  intros Ht Hi Hl Hb Hv Hp Hm. destruct (gcm_eq a key iv Ht Hi Hl Hb Hv) as (k & nonce & Hk & Hn & Hnb & -> & _).
  unfold GCM_Seal. rewrite Hn. cbn [negb Z.eqb Pos.eqb]. replace (gcm_max <? len plain) with false by lia.
  cbn [gcm_key gcm_tagSize app]. eexists. split; [done|].
  destruct (gcm_auth_block k nonce aad (gcm_crypt k nonce plain) Hk Hn Hnb) as [Al Ab].
  split; [rewrite len_app, len_take, gcm_crypt_len, Al by done; lia|].
  apply bytes_app; [by apply gcm_crypt_bytes|by apply bytes_take].
Qed.

Lemma cbcSeal_total key iv plain : aes_key key → is_block iv → bytes plain →
  len plain mod 16 = 0 →
  ∃ ct, cbcSeal key iv plain = Ok ct ∧ len ct = len plain ∧ bytes ct.
Proof.
  intros Hk Hi Hp Hm. pose proof Hi as [Hil _]. rewrite cbcSeal_eq by done. eexists. split; [done|].
  destruct (cbc_encrypt_bytes (length plain / 16) key iv plain Hk Hi Hp (blocks_of _ Hm)) as [Hb Hl].
  by split.
Qed.

Lemma Seal_total id kl a key iv aad plain : NewEncryption id kl = Ok a →
  len key = Enc_KeyLen a → len iv = IVLen a → bytes key → bytes iv → bytes aad → bytes plain →
  len plain <= gcm_max → (AEAD a = false → len plain mod 16 = 0) →
  ∃ ct, Seal (Some a) key iv aad plain = Ok ct ∧ len ct = len plain + ICVLen a ∧ bytes ct.
Proof.
  intros Ha Hk Hi Hbk Hbi Hba Hbp Hm Hcbc. unfold Seal. rewrite checkKeyIV_good by done. run.
  destruct (enc_family _ _ _ Ha) as [Ht [EA Ek Ei Ec|EA EC Ek Ei Ec|EA EC Ek Ei Ec]];
    rewrite EA; cbn [negb].
  - rewrite Ec, Z.add_0_r. apply cbcSeal_total; auto; split; auto; lia.
  - rewrite EC. apply ccmSeal_total; auto; lia.
  - rewrite EC. apply gcmSeal_total; auto; lia.
Qed.

(** [Open] accepts a ciphertext exactly when it is what [Seal] produces for the
    plaintext it returns. *)
Lemma Seal_iff_Open id kl a key iv aad plain ct : NewEncryption id kl = Ok a →
  bytes key → bytes iv → bytes aad → bytes plain → bytes ct →
  Seal (Some a) key iv aad plain = Ok ct ↔ Open (Some a) key iv aad ct = Ok plain.
Proof.
  intros Ha Hbk Hbi Hba Hbp Hbc. unfold Seal, Open.
  destruct (checkKeyIV (Some a) key iv) as [a'|e| |] eqn:E; run; try done.
  apply checkKeyIV_ok in E as (-> & Hk & Hi).
  destruct (enc_family _ _ _ Ha) as [Ht [EA Ek Ei Ec|EA EC Ek Ei Ec|EA EC Ek Ei Ec]];
    rewrite EA; cbn [negb].
  - apply cbc_iff; auto; split; auto; lia.
  - rewrite EC. apply ccm_iff; auto; lia.
  - rewrite EC. apply gcm_iff; auto; lia.
Qed.

(** No input makes decryption panic. *)
Lemma Open_fine id kl a key iv aad ct : NewEncryption id kl = Ok a →
  bytes key → bytes iv → bytes aad → bytes ct → fine (Open (Some a) key iv aad ct).
Proof.
  intros Ha Hbk Hbi Hba Hbc. unfold Open. apply fine_bind; [simpl; fine_solve|].
  intros a' (-> & Hk & Hi)%checkKeyIV_ok.
  destruct (enc_family _ _ _ Ha) as [Ht [EA Ek Ei Ec|EA EC Ek Ei Ec|EA EC Ek Ei Ec]];
    rewrite EA, ?EC; cbn [negb].
  - unfold cbcOpen, CBC_decrypt. destruct (negb (len ct mod 16 =? 0)) eqn:E; [done|].
    rewrite NewCipher_ok by lia. run. rewrite Hi, Ei. done.
  - destruct (len ct <? ICVLen a) eqn:E; [unfold ccmOpen; by rewrite E|].
    destruct (ccm_setup_ok a key iv Ht) as (block & nonce & Hs); [lia|done..|].
    pose proof Hs as [_ _ _ Hkb _ Hn].
    destruct (ccmMAC_ok block nonce aad (ccm_stream block nonce (take (Z.to_nat (len ct - ICVLen a)) ct))
      (ICVLen a) Hkb Hn Hba) as (m & Em & Hm). { apply ccm_stream_bytes; bytes_solve. }
    rewrite (ccmOpen_eq a key iv block nonce aad ct _ m Hs ltac:(lia) ltac:(lia) eq_refl Em Hm).
    by destruct (bool_decide _).
  - destruct (gcm_eq a key iv Ht) as (k & nonce & Hkk & Hn & Hnb & _ & ->); [lia..|done|done|].
    apply fine_wrap. unfold GCM_Open. rewrite Hn. cbn [negb Z.eqb Pos.eqb].
    destruct (_ <? _); [done|]. destruct (_ <? _); [done|]. by destruct (bool_decide _).
Qed.

Lemma Open_bytes id kl a key iv aad ct plain : NewEncryption id kl = Ok a →
  bytes key → bytes iv → bytes aad → bytes ct → Open (Some a) key iv aad ct = Ok plain → bytes plain.
Proof.
  intros Ha Hbk Hbi Hba Hbc Ho. unfold Open in Ho. apply bind_Ok in Ho as (a' & Ec & Ho).
  apply checkKeyIV_ok in Ec as (-> & Hk & Hi).
  destruct (enc_family _ _ _ Ha) as [Ht [EA Ek Ei Eic|EA EC Ek Ei Eic|EA EC Ek Ei Eic]];
    rewrite EA, ?EC in Ho; cbn [negb] in Ho.
  - assert (Hkey : aes_key key) by (split; [done|lia]). assert (Hiv : is_block iv) by (split; [lia|done]).
    destruct (negb (len ct mod 16 =? 0)) eqn:E; [unfold cbcOpen in Ho; by rewrite E in Ho|].
    rewrite cbcOpen_eq in Ho by (done || lia). apply Ok_inj in Ho. subst plain.
    apply cbc_decrypt_bytes; try done. apply blocks_of. lia.
  - destruct (len ct <? ICVLen a) eqn:E; [unfold ccmOpen in Ho; by rewrite E in Ho|].
    destruct (ccm_setup_ok a key iv Ht) as (block & nonce & Hs); [lia|done..|].
    pose proof Hs as [_ _ _ Hkb _ Hn].
    assert (Hb : bytes (ccm_stream block nonce (take (Z.to_nat (len ct - ICVLen a)) ct)))
      by (apply ccm_stream_bytes; bytes_solve).
    destruct (ccmMAC_ok block nonce aad _ (ICVLen a) Hkb Hn Hba Hb) as (m & Em & Hm).
    rewrite (ccmOpen_eq a key iv block nonce aad ct _ m Hs ltac:(lia) ltac:(lia) eq_refl Em Hm) in Ho.
    destruct (bool_decide _); [|done]. by injection Ho as <-.
  - destruct (gcm_eq a key iv Ht) as (k & nonce & Hkk & Hn & Hnb & _ & Eo); [lia..|done|done|].
    rewrite Eo in Ho. apply wrap_Ok in Ho. unfold GCM_Open in Ho. cbn [app] in Ho.
    repeat (case_match; [done|]). case_match; [|done]. injection Ho as <-.
    apply gcm_crypt_bytes; bytes_solve.
Qed.

End CipherLemmas.

(* ------------------------------------------------------------------ *)
(** ** The prepared variants *)

Section PreparedLemmas.
Context {C : Crypto}.

Lemma GCM_Seal_dst g dst nonce plain aad :
  GCM_Seal g dst nonce plain aad = (r ← GCM_Seal g [] nonce plain aad; Ok (dst ++ r)).
Proof. unfold GCM_Seal. by repeat case_match. Qed.

Lemma GCM_Open_dst g dst nonce ct aad :
  GCM_Open g dst nonce ct aad = (r ← GCM_Open g [] nonce ct aad; Ok (dst ++ r)).
Proof. unfold GCM_Open. by repeat case_match. Qed.

Lemma wrap_bind {A B} text (m : res A) (f : A → B) :
  wrap text (r ← m; Ok (f r)) = (r ← wrap text m; Ok (f r)).
Proof. by destruct m. Qed.

Lemma bind_assoc {A B D} (m : res A) (f : A → res B) (g : B → res D) :
  (r ← (x ← m; f x); g r) = (x ← m; r ← f x; g r).
Proof. by destruct m. Qed.

(** What a successful [Prepare] holds. *)
Lemma Prepare_ok a key p : Prepare (Some a) key = Ok p →
  len key = Enc_KeyLen a ∧ pe_alg p = a ∧
  if negb (AEAD a) then pe_block p = Some key ∧ NewCipher key = Ok key
  else if isCCM a then
    ∃ k, key.[0, TransformKeyLen a] = Ok k ∧ NewCipher k = Ok k ∧ pe_block p = Some k ∧
      slice_from key (TransformKeyLen a) = Ok (pe_salt p)
  else ∃ k g, splitAEADKey a key = Ok (k, pe_salt p) ∧ newGCM k (ICVLen a) = Ok g ∧ pe_gcm p = Some g.
Proof.
  assert (N : ∀ k b, NewCipher k = Ok b → b = k ∧ NewCipher k = Ok k).
  { unfold NewCipher. intros k b H. case_match; [|done]. by injection H as ->. }
  simpl. intros H. destruct (negb (len key =? Enc_KeyLen a)) eqn:E; [done|]. split; [lia|].
  destruct (negb (AEAD a)); [|destruct (isCCM a)].
  - apply bind_Ok in H as (b & [-> Hn]%N & H). by injection H as <-.
  - apply bind_Ok in H as (k & E1 & H). apply bind_Ok in H as (b & [-> Hn]%N & H).
    apply bind_Ok in H as (salt & E2 & H). injection H as <-. simpl. eauto 6.
  - apply bind_Ok in H as ([k salt] & E1 & H). apply bind_Ok in H as (g & E2 & H). injection H as <-.
    simpl. eauto 6.
Qed.

Lemma Seal_prepared a key p dst iv aad plain : Prepare (Some a) key = Ok p →
  SealTo (Some p) dst iv aad plain = (r ← Seal (Some a) key iv aad plain; Ok (dst ++ r)).
Proof.
  intros (Hk & Ha & Hp)%Prepare_ok. unfold SealTo, Seal, checkIV, checkKeyIV. rewrite Ha, Hk, Z.eqb_refl.
  cbn [negb]. destruct (negb (len iv =? IVLen a)); [done|]. run. rewrite Ha.
  destruct (negb (AEAD a)); [|destruct (isCCM a)].
  - destruct Hp as [Eb Ec]. unfold pe_cbcSeal, cbcSeal. destruct (negb _); [done|].
    by rewrite Eb, Ec.
  - destruct Hp as (k & E1 & E2 & E3 & E4). unfold pe_ccmSeal, ccmSeal, ccmNonce, splitAEADKey, pe_ccmNonce.
    rewrite E1. run. rewrite E2, E3, E4, Ha. unfold deref. run. rewrite bind_assoc.
    destruct (ccmMAC _ _ _ _ _); run; try done. rewrite bind_assoc.
    destruct (NewCTR _ _); run; try done.
    destruct (XORKeyStream _ (zeros 16)) as [c ks]. destruct (XORKeyStream c plain) as [c' out].
    rewrite bind_assoc. done.
  - destruct Hp as (k & g & E1 & E2 & E3). unfold pe_gcmSeal, gcmSeal, gcmNonce, pe_gcmNonce.
    rewrite E1, E3. unfold deref. run. rewrite E2. run. apply GCM_Seal_dst.
Qed.

Lemma Open_prepared a key p dst iv aad ct : Prepare (Some a) key = Ok p →
  OpenTo (Some p) dst iv aad ct = (r ← Open (Some a) key iv aad ct; Ok (dst ++ r)).
Proof.
  intros (Hk & Ha & Hp)%Prepare_ok. unfold OpenTo, Open, checkIV, checkKeyIV. rewrite Ha, Hk, Z.eqb_refl.
  cbn [negb]. destruct (negb (len iv =? IVLen a)); [done|]. run. rewrite Ha.
  destruct (negb (AEAD a)); [|destruct (isCCM a)].
  - destruct Hp as [Eb Ec]. unfold pe_cbcOpenTo, cbcOpen. destruct (negb _); [done|].
    by rewrite Eb, Ec.
  - destruct Hp as (k & E1 & E2 & E3 & E4). unfold pe_ccmOpenTo, ccmOpen, ccmNonce, splitAEADKey, pe_ccmNonce.
    rewrite E1, E3, E4, Ha. destruct (_ <? _); [done|]. run. rewrite E2. unfold deref. run.
    rewrite bind_assoc. destruct (NewCTR _ _) as [ctr|e| |]; run; try done.
    destruct (XORKeyStream ctr (zeros 16)) as [c ks]. rewrite bind_assoc.
    destruct (slice ct _ _) as [data|e| |]; run; try done. destruct (XORKeyStream c data) as [c' out].
    rewrite (slice_from_suffix dst out) by done. rewrite bind_assoc.
    destruct (slice_from ct _); run; try done. rewrite bind_assoc. destruct (slice ks _ _); run; try done.
    rewrite bind_assoc. destruct (ccmMAC _ _ _ _ _) as [m|e| |]; run; try done. rewrite bind_assoc.
    destruct (slice m _ _); run; try done. by destruct (bool_decide _).
  - destruct Hp as (k & g & E1 & E2 & E3). unfold pe_gcmOpenTo, gcmOpen, gcmNonce, pe_gcmNonce.
    rewrite E1, E3. unfold deref. run. rewrite E2. run. rewrite GCM_Open_dst. apply wrap_bind.
Qed.

(** Sealing appends to its destination. *)
Lemma SealTo_prefix p dst iv aad plain d : SealTo p dst iv aad plain = Ok d → ∃ r, d = dst ++ r.
Proof.
  unfold SealTo, checkIV. destruct p as [p|]; [|done]. destruct (negb _); [done|]. run.
  destruct (negb _); [|destruct (isCCM _)].
  - unfold pe_cbcSeal. destruct (negb _); [done|]. intros H. inv_ok. eauto.
  - unfold pe_ccmSeal. intros H. apply bind_Ok in H as (b & _ & H). apply bind_Ok in H as (t & _ & H).
    apply bind_Ok in H as (c & _ & H). destruct (XORKeyStream c _) as [c1 ks].
    destruct (XORKeyStream c1 _) as [c2 ct]. apply bind_Ok in H as (g & _ & H). injection H as <-. eauto.
  - unfold pe_gcmSeal. intros H. apply bind_Ok in H as (g & _ & H). rewrite GCM_Seal_dst in H.
    apply bind_Ok in H as (r & _ & H). injection H as <-. eauto.
Qed.

(** The HMAC state carries no message from one call to the next. *)
Lemma PreparedSign_state p msg h k : hmac_hash (pi_h p) = h → hmac_key (pi_h p) = k →
  (PreparedSign p msg).2 = (hmac h k msg).[0, pi_outputLen p] ∧
  pi_outputLen (PreparedSign p msg).1 = pi_outputLen p ∧
  hmac_hash (pi_h (PreparedSign p msg).1) = h ∧ hmac_key (pi_h (PreparedSign p msg).1) = k.
Proof. by intros <- <-. Qed.

(** The state after a history of signed messages. *)
Definition after_signing (p : PreparedIntegrity) (msgs : list (list Z)) : PreparedIntegrity :=
  foldl (λ p m, (PreparedSign p m).1) p msgs.

Lemma after_signing_state p msgs h k : hmac_hash (pi_h p) = h → hmac_key (pi_h p) = k →
  pi_outputLen (after_signing p msgs) = pi_outputLen p ∧
  hmac_hash (pi_h (after_signing p msgs)) = h ∧ hmac_key (pi_h (after_signing p msgs)) = k.
Proof.
  revert p. induction msgs as [|m msgs IH]; intros p Hh Hk; [done|]. cbn [after_signing foldl].
  destruct (PreparedSign_state p m h k Hh Hk) as (_ & El & Eh & Ek).
  destruct (IH _ Eh Ek) as (IHl & IHs). split; [|done]. rewrite <- El. apply IHl.
Qed.

Lemma Sign_prepared i key p history msg : PrepareIntegrity i key = Ok p →
  (PreparedSign (after_signing p history) msg).2 = Sign i key msg.
Proof.
  unfold PrepareIntegrity, Sign. destruct i as [[id ol klen [h|]]|]; try done.
  destruct (negb _) eqn:E; [done|]. intros [= <-].
  destruct (after_signing_state {| pi_outputLen := ol; pi_h := hmac_New h key |} history h key)
    as (El & Eh & Ek); [done..|].
  destruct (PreparedSign_state _ msg h key Eh Ek) as (-> & _). by rewrite El.
Qed.

Lemma Verify_prepared i key p history msg icv : PrepareIntegrity i key = Ok p →
  (PreparedVerify (after_signing p history) msg icv).2 = Verify i key msg icv.
Proof.
  intros H. pose proof (Sign_prepared i key p history msg H) as Hs. unfold PreparedVerify, Verify.
  destruct (PreparedSign _ msg) as [p' r]. cbn [snd] in *. by rewrite Hs.
Qed.

End PreparedLemmas.

(* ------------------------------------------------------------------ *)
(** ** Properties *)

(** [C5] Every registered cipher encrypts and decrypts faithfully: a plaintext
    of the right shape (whole blocks for CBC, within GCM's limit) seals to a
    ciphertext exactly [ICVLen] bytes longer, [Open] returns that plaintext,
    and no other ciphertext opens to it under the same key, IV and associated
    data - in particular every other tag is refused. *)
Theorem seal_open_exact {C : Crypto} {L : CryptoLaws} (id kl : Z) (a : EncryptionAlg)
    (key iv aad plain : list Z) :
  NewEncryption id kl = Ok a → len key = Enc_KeyLen a → len iv = IVLen a →
  bytes key → bytes iv → bytes aad → bytes plain → len plain <= gcm_max →
  (AEAD a = false → len plain mod 16 = 0) →
  ∃ ct, Seal (Some a) key iv aad plain = Ok ct ∧ len ct = len plain + ICVLen a ∧ bytes ct ∧
    Open (Some a) key iv aad ct = Ok plain ∧
    ∀ ct', bytes ct' → Open (Some a) key iv aad ct' = Ok plain → ct' = ct.
Proof.
  intros Ha Hk Hi Hbk Hbi Hba Hbp Hm Hcbc.
  destruct (Seal_total id kl a key iv aad plain) as (ct & Hs & Hl & Hb); try done.
  exists ct. split_and!; try done; [by eapply Seal_iff_Open|].
  intros ct' Hb' Ho. assert (H : Seal (Some a) key iv aad plain = Ok ct') by (by eapply Seal_iff_Open).
  rewrite Hs in H. by injection H.
Qed.

(** [C39] "Byte-identical": the cipher and HMAC states prepared once per
    CHILD_SA produce and accept, on every packet and whatever was processed
    before, exactly what the unprepared functions do with the key, errors
    included. *)
Theorem prepared_identical {C : Crypto} (a : EncryptionAlg) (i : Integrity) (key ikey : list Z)
    (p : PreparedEncryption) (q : PreparedIntegrity) :
  Prepare (Some a) key = Ok p → PrepareIntegrity (Some i) ikey = Ok q →
  (∀ dst iv aad body,
     SealTo (Some p) dst iv aad body = (r ← Seal (Some a) key iv aad body; Ok (dst ++ r)) ∧
     OpenTo (Some p) dst iv aad body = (r ← Open (Some a) key iv aad body; Ok (dst ++ r))) ∧
  (∀ history msg icv,
     (PreparedSign (after_signing q history) msg).2 = Sign (Some i) ikey msg ∧
     (PreparedVerify (after_signing q history) msg icv).2 = Verify (Some i) ikey msg icv).
Proof.
  intros Hp Hq. split; intros.
  - split; [by apply Seal_prepared|by apply Open_prepared].
  - split; [by apply Sign_prepared|by apply Verify_prepared].
Qed.

Definition sample_key (n : Z) : list Z := Z.of_nat <$> seq 1 (Z.to_nat n).

Lemma seal_open_exact_witness :
  ∃ a, NewEncryption TransformEncryptionAESCCM8 16 = Ok a ∧
  ∃ ct, Seal (C := xor_crypto) (Some a) (sample_key 19) (sample_key 8) [1; 2; 3] [9; 8; 7] = Ok ct ∧
    len ct = len [9; 8; 7] + ICVLen a ∧ bytes ct ∧
    Open (C := xor_crypto) (Some a) (sample_key 19) (sample_key 8) [1; 2; 3] ct = Ok [9; 8; 7] ∧
    ∀ ct', bytes ct' →
      Open (C := xor_crypto) (Some a) (sample_key 19) (sample_key 8) [1; 2; 3] ct' = Ok [9; 8; 7] →
      ct' = ct.
Proof.
  eexists. split; [reflexivity|].
  apply (seal_open_exact (C := xor_crypto) (L := xor_crypto_laws) TransformEncryptionAESCCM8 16);
    try reflexivity; try (by apply (bool_decide_unpack _); vm_compute).
Defined.

Lemma prepared_identical_witness :
  ∃ a i p q, NewEncryption TransformEncryptionAESCBC 16 = Ok a ∧
  NewIntegrity TransformIntegrityHMACSHA196 = Ok i ∧
  Prepare (Some a) (sample_key 16) = Ok p ∧
  PrepareIntegrity (Some i) (sample_key 20) = Ok q ∧
  (∀ dst iv aad body,
     SealTo (C := xor_crypto) (Some p) dst iv aad body
       = (r ← Seal (C := xor_crypto) (Some a) (sample_key 16) iv aad body; Ok (dst ++ r)) ∧
     OpenTo (C := xor_crypto) (Some p) dst iv aad body
       = (r ← Open (C := xor_crypto) (Some a) (sample_key 16) iv aad body; Ok (dst ++ r))) ∧
  (∀ history msg icv,
     (PreparedSign (C := xor_crypto) (after_signing (C := xor_crypto) q history) msg).2
       = Sign (C := xor_crypto) (Some i) (sample_key 20) msg ∧
     (PreparedVerify (C := xor_crypto) (after_signing (C := xor_crypto) q history) msg icv).2
       = Verify (C := xor_crypto) (Some i) (sample_key 20) msg icv).
Proof.
  eexists _, _, _, _. do 4 (split; [reflexivity|]).
  apply (prepared_identical (C := xor_crypto)); reflexivity.
Defined.
