(* ===== verification/Keying.v ===== *)
(** * Key derivation (xcrypto/prf.go, keying.go, hash.go)

    The HMAC-based PRF, prf+ and the key schedules of the IKE SA and of
    CHILD_SAs. Randomness ([crypto/rand]) is an argument of the two generators. *)

From S2P Require Import Prelude Suite Crypto Cipher Payload.

Section Keying.
Context {C : Crypto}.

(* ------------------------------------------------------------------ *)
(** ** prf.go *)

(** [p.ready()], returning the hash the PRF is built on. *)
Definition ready (p : option PRF) : res HashKind :=
  match p with
  | Some {| PRF_newHMAC := Some h |} => Ok h
  | _ => Err "xcrypto: uninitialized PRF"
  end.

Definition Sum (p : option PRF) (key data : list Z) : res (list Z) :=
  h ← ready p;
  Ok (hmac_Sum (hmac_Write (hmac_New h key) data)).

(** [Fill] overwrites [out]. *)
Definition Fill (p : option PRF) (key data out : list Z) : res (list Z) :=
  h ← ready p;
  match p with
  | None => Panic
  | Some p =>
      if negb (len out =? PRF_OutputLen p) then Err "xcrypto: PRF output buffer length %d, want %d"
      else Ok (copy_to out (hmac_Sum (hmac_Write (hmac_New h key) data)))
  end.

(** One iteration of the loop of [Plus]: (counter, out, previous). *)
Definition Plus_step (h : HashKind) (key seed : list Z) (outLen : Z)
    (s : Z * list Z * list Z) : res (Z * list Z * list Z + list Z) :=
  let '(counter, out, previous) := s in
  if len out <? outLen then
    if 255 <? counter then Err "xcrypto: PRF+ output exceeds 255 blocks"
    else
      let m := hmac_New h key in
      let m := hmac_Write m previous in
      let m := hmac_Write m seed in
      let m := hmac_Write m [u8 counter] in
      let previous := hmac_Sum m in
      Ok (inl (counter + 1, out ++ previous, previous))
  else
    r ← out.[0, outLen];
    Ok (inr r).

Definition Plus (p : option PRF) (key seed : list Z) (outLen : Z) : res (list Z) :=
  h ← ready p;
  if outLen <? 0 then Err "xcrypto: negative PRF+ output length"
  else loop 257 (Plus_step h key seed outLen) (1, [], []).

(* ------------------------------------------------------------------ *)
(** ** keying.go *)

Definition AuthKeyPad : list Z :=
  [75; 101; 121; 32; 80; 97; 100; 32; 102; 111; 114; 32; 73; 75; 69; 118; 50].

Record IKEKeys := mkIKEKeys {
  SKd : list Z; SKai : list Z; SKar : list Z; SKei : list Z; SKer : list Z;
  SKpi : list Z; SKpr : list Z }.

Record ChildKeys := mkChildKeys {
  Child_SKei : list Z; Child_SKai : list Z; Child_SKer : list Z; Child_SKar : list Z }.

Definition SKEYSEED (prf : option PRF) (Ni Nr sharedSecret : list Z) : res (list Z) :=
  Sum prf (Ni ++ Nr) sharedSecret.

Definition RekeySKEYSEED (prf : option PRF) (skdOld sharedSecret Ni Nr : list Z) : res (list Z) :=
  Sum prf skdOld (sharedSecret ++ Ni ++ Nr).

(** The [take] closure: the next [n] bytes of [keymat] and the new offset. *)
Definition take_key (keymat : list Z) (off n : Z) : res (list Z * Z) :=
  out ← keymat.[off, off + n];
  Ok (out, off + n).

Definition DeriveIKEKeys (prf : PRF) (skeyseed Ni Nr : list Z) (spiI spiR : Z)
    (enc : EncryptionAlg) (integ : option Integrity) : res IKEKeys :=
  let seed := Ni ++ Nr ++ putUint64 spiI ++ putUint64 spiR in
  let integLen := match integ with Some i => Integ_KeyLen i | None => 0 end in
  let total := PRF_OutputLen prf + 2 * integLen + 2 * Enc_KeyLen enc + 2 * PRF_OutputLen prf in
  keymat ← Plus (Some prf) skeyseed seed total;
  '(d, off) ← take_key keymat 0 (PRF_OutputLen prf);
  '(ai, off) ← take_key keymat off integLen;
  '(ar, off) ← take_key keymat off integLen;
  '(ei, off) ← take_key keymat off (Enc_KeyLen enc);
  '(er, off) ← take_key keymat off (Enc_KeyLen enc);
  '(pi, off) ← take_key keymat off (PRF_OutputLen prf);
  '(pr, off) ← take_key keymat off (PRF_OutputLen prf);
  Ok (mkIKEKeys d ai ar ei er pi pr).

Definition DeriveChildKeys (prf : option PRF) (skd Ni Nr sharedSecret : list Z)
    (enc : EncryptionAlg) (integ : option Integrity) : res ChildKeys :=
  let seed := sharedSecret ++ Ni ++ Nr in
  let integLen := match integ with Some i => Integ_KeyLen i | None => 0 end in
  keymat ← Plus prf skd seed (2 * (Enc_KeyLen enc + integLen));
  '(ei, off) ← take_key keymat 0 (Enc_KeyLen enc);
  '(ai, off) ← take_key keymat off integLen;
  '(er, off) ← take_key keymat off (Enc_KeyLen enc);
  '(ar, off) ← take_key keymat off integLen;
  Ok (mkChildKeys ei ai er ar).

Definition NatDetectionHash (spiI spiR : Z) (ip : list Z) (port : Z) : res (list Z) :=
  let ipBytes := match To4 ip with Some b => Some b | None => To16 ip end in
  match ipBytes with
  | None => Err "xcrypto: invalid NAT-D address"
  | Some b => Ok (digest HashSHA1 (putUint64 spiI ++ putUint64 spiR ++ b ++ putUint16 port))
  end.

Definition MACedID (prf : option PRF) (key idPayload : list Z) : res (list Z) :=
  Sum prf key idPayload.

Definition AuthMAC (prf : option PRF) (secret octets : list Z) : res (list Z) :=
  key ← Sum prf secret AuthKeyPad;
  Sum prf key octets.

(** [random] is what [crypto/rand.Read] does with the buffer. *)
Definition GenerateSPI (random : res (list Z)) : res Z :=
  b ← wrap "xcrypto: generate SPI: " random;
  v ← beUint64 b;
  Ok (if v =? 0 then 1 else v).

Definition GenerateNonce (random : Z → res (list Z)) (n : Z) : res (list Z) :=
  if n <=? 0 then Err "xcrypto: invalid nonce length %d"
  else wrap "xcrypto: generate nonce: " (random n).

(* ------------------------------------------------------------------ *)
(** ** Specification of prf+ (RFC 7296, section 2.13) *)

(** T1 = prf (K, S | 0x01), Tn = prf (K, Tn-1 | S | n) *)
Fixpoint T (h : HashKind) (key seed : list Z) (n : nat) : list Z :=
  match n with
  | O => []
  | S m => hmac h key (T h key seed m ++ seed ++ [Z.of_nat n])
  end.

(** T1 | ... | Tn *)
Fixpoint prf_stream (h : HashKind) (key seed : list Z) (n : nat) : list Z :=
  match n with
  | O => []
  | S m => prf_stream h key seed m ++ T h key seed n
  end.

Definition prf_plus (h : HashKind) (key seed : list Z) (outLen : Z) : res (list Z) :=
  if outLen <=? 255 * hash_size h then Ok (take (Z.to_nat outLen) (prf_stream h key seed 255))
  else Err "xcrypto: PRF+ output exceeds 255 blocks".

End Keying.

(* ------------------------------------------------------------------ *)
(** ** Lemmas *)

Section KeyingLemmas.
Context {C : Crypto} {L : CryptoLaws}.

Lemma len_prf_stream h key seed n : len (prf_stream h key seed n) = Z.of_nat n * hash_size h.
Proof.
  induction n as [|n IH]; [done|]. cbn [prf_stream T]. rewrite len_app, IH, hmac_len. lia.
Qed.

Lemma prf_stream_bytes h key seed n : bytes (prf_stream h key seed n).
Proof.
  induction n as [|n IH]; [apply bytes_nil|]. cbn [prf_stream T].
  apply bytes_app; [done|apply hmac_bytes].
Qed.

Lemma prf_stream_prefix h key seed n m : (n <= m)%nat →
  prf_stream h key seed n `prefix_of` prf_stream h key seed m.
Proof.
  induction 1 as [|m _ IH]; [done|]. etrans; [exact IH|]. cbn [prf_stream]. by eexists.
Qed.

Lemma prefix_take {A} (l k : list A) n : l `prefix_of` k → (n <= length l)%nat → take n k = take n l.
Proof. intros [r ->] H. by rewrite take_app_le. Qed.

Lemma hash_size_pos h : 20 <= hash_size h <= 64.
Proof. destruct h; simpl; lia. Qed.

(** The [k]-th iteration of the loop of [Plus]. *)
Lemma Plus_iter h key seed outLen k : 0 <= outLen →
  Plus_step h key seed outLen (Z.of_nat k + 1, prf_stream h key seed k, T h key seed k) =
  if Z.of_nat k * hash_size h <? outLen then
    if 255 <? Z.of_nat k + 1 then Err "xcrypto: PRF+ output exceeds 255 blocks"
    else Ok (inl (Z.of_nat (S k) + 1, prf_stream h key seed (S k), T h key seed (S k)))
  else Ok (inr (take (Z.to_nat outLen) (prf_stream h key seed k))).
Proof.
  intros Ho. unfold Plus_step. rewrite len_prf_stream.
  destruct (Z.of_nat k * hash_size h <? outLen) eqn:E.
  - destruct (255 <? Z.of_nat k + 1) eqn:E'; [done|]. cbn [prf_stream T].
    unfold hmac_Sum, hmac_Write, hmac_New. cbn [hmac_hash hmac_key hmac_buf app].
    rewrite <- app_assoc, (u8_small (Z.of_nat k + 1)) by (unfold is_byte; lia).
    by replace (Z.of_nat (S k)) with (Z.of_nat k + 1) by lia.
  - by rewrite slice_take by (rewrite len_prf_stream; lia).
Qed.

Lemma Plus_loop h key seed outLen : 0 <= outLen → ∀ m k fuel, (k + m = 255)%nat →
  (m + 1 < fuel)%nat →
  loop fuel (Plus_step h key seed outLen)
    (Z.of_nat k + 1, prf_stream h key seed k, T h key seed k) = prf_plus h key seed outLen.
Proof.
  intros Ho. pose proof (hash_size_pos h).
  induction m as [|m IH]; intros k fuel Hk Hf; destruct fuel as [|f]; try lia;
    rewrite loop_S, Plus_iter by done; unfold prf_plus in *;
    destruct (Z.of_nat k * hash_size h <? outLen) eqn:E.
  - replace (255 <? Z.of_nat k + 1) with true by lia. run.
    replace (Z.of_nat k) with 255 in E by lia.
    by replace (outLen <=? 255 * hash_size h) with false by lia.
  - replace (Z.of_nat k) with 255 in E by lia. replace k with 255%nat by lia. by replace (outLen <=? 255 * hash_size h) with true by lia.
  - replace (255 <? Z.of_nat k + 1) with false by lia. run. apply IH; lia.
  - replace (outLen <=? 255 * hash_size h) with true by nia. run. f_equal.
    symmetry. apply prefix_take; [apply prf_stream_prefix; lia|].
    pose proof (len_prf_stream h key seed k). unfold len in *. lia.
Qed.

Lemma Plus_eq p h key seed outLen : PRF_newHMAC p = Some h → 0 <= outLen →
  Plus (Some p) key seed outLen = prf_plus h key seed outLen.
Proof.
  intros Hp Ho. unfold Plus. replace (ready (Some p)) with (Ok h) by (destruct p; by simplify_eq/=). run.
  replace (outLen <? 0) with false by lia. apply (Plus_loop h key seed outLen Ho 255 0); lia.
Qed.

Lemma len_prf_plus h key seed outLen out : 0 <= outLen →
  prf_plus h key seed outLen = Ok out → len out = outLen ∧ bytes out.
Proof.
  unfold prf_plus. intros Ho H. destruct (_ <=? _) eqn:E; [|done]. apply Ok_inj in H. subst out.
  split; [rewrite len_take, len_prf_stream; lia|apply bytes_take, prf_stream_bytes].
Qed.

Lemma take_key_ok keymat off n : 0 <= off → 0 <= n → off + n <= len keymat →
  ∃ k, take_key keymat off n = Ok (k, off + n) ∧ len k = n ∧
    k ++ drop (Z.to_nat (off + n)) keymat = drop (Z.to_nat off) keymat.
Proof.
  intros Ho Hn Hl. unfold take_key. destruct (slice keymat off (off + n)) as [k|e| |] eqn:E.
  - exists k. split; [done|]. split; [apply slice_len in E; lia|]. symmetry. by apply slice_drop.
  - by unfold slice in E; case_match.
  - exfalso. assert (H : fine (slice keymat off (off + n))) by (apply slice_fine; lia). by rewrite E in H.
  - by unfold slice in E; case_match.
Qed.

Lemma NewPRF_cases id p : NewPRF id = Ok p →
  ∃ h, PRF_newHMAC p = Some h ∧ PRF_OutputLen p = hash_size h.
Proof. unfold NewPRF. intros H. repeat (case_match; [injection H as <-; eauto|]). done. Qed.

Lemma NewIntegrity_keylen id i : NewIntegrity id = Ok i → 0 <= Integ_KeyLen i <= 64.
Proof. unfold NewIntegrity. intros H. repeat (case_match; [injection H as <-; simpl; lia|]). done. Qed.

Lemma NewEncryption_keylen id kl a : NewEncryption id kl = Ok a → 16 <= Enc_KeyLen a <= 36.
Proof. intros H. destruct (enc_family _ _ _ H) as [? [| |]]; lia. Qed.

(** Takes the next key from [keymat] in a derivation. *)
Ltac next_key :=
  match goal with
  | |- context [take_key ?km ?off ?n] =>
      let k := fresh "k" in let Hk := fresh "Hk" in let Hl := fresh "Hl" in let Hs := fresh "Hs" in
      destruct (take_key_ok km off n) as (k & Hk & Hl & Hs); [lia|lia|lia|];
      rewrite Hk; cbn [mbind res_bind]
  end.

Lemma DeriveIKEKeys_ok prf h skeyseed Ni Nr spiI spiR enc integ :
  PRF_newHMAC prf = Some h → PRF_OutputLen prf = hash_size h →
  0 <= Enc_KeyLen enc <= 36 → 0 <= Integ_KeyLen integ <= 64 →
  ∃ k, DeriveIKEKeys prf skeyseed Ni Nr spiI spiR enc (Some integ) = Ok k ∧
    prf_plus h skeyseed (Ni ++ Nr ++ putUint64 spiI ++ putUint64 spiR)
      (3 * hash_size h + 2 * Integ_KeyLen integ + 2 * Enc_KeyLen enc)
      = Ok (SKd k ++ SKai k ++ SKar k ++ SKei k ++ SKer k ++ SKpi k ++ SKpr k) ∧
    len (SKd k) = hash_size h ∧ len (SKpi k) = hash_size h ∧ len (SKpr k) = hash_size h ∧
    len (SKai k) = Integ_KeyLen integ ∧ len (SKar k) = Integ_KeyLen integ ∧
    len (SKei k) = Enc_KeyLen enc ∧ len (SKer k) = Enc_KeyLen enc.
Proof.
  intros Hp Hl He Hi. pose proof (hash_size_pos h) as Hh. unfold DeriveIKEKeys. rewrite Hl.
  set (seed := Ni ++ _). rewrite (Plus_eq prf h) by (done || lia).
  replace (hash_size h + 2 * Integ_KeyLen integ + 2 * Enc_KeyLen enc + 2 * hash_size h)
    with (3 * hash_size h + 2 * Integ_KeyLen integ + 2 * Enc_KeyLen enc) by lia.
  destruct (prf_plus h skeyseed seed _) as [km|e| |] eqn:E;
    [|unfold prf_plus in E; case_match; [done|lia]..].
  pose proof E as Hkm. apply len_prf_plus in Hkm as [Hkm _]; [|lia]. run.
  next_key. next_key. next_key. next_key. next_key. next_key. next_key.
  eexists. split; [done|]. cbn [SKd SKai SKar SKei SKer SKpi SKpr].
  split_and!; try done; [|lia..]. f_equal.
  rewrite (drop_ge km) in Hs5 by (unfold len in *; lia). rewrite app_nil_r in Hs5. subst k5.
  change km with (drop (Z.to_nat 0) km) at 1. rewrite <- Hs, <- Hs0, <- Hs1, <- Hs2, <- Hs3, <- Hs4.
  done.
Qed.

Lemma DeriveChildKeys_ok prf h skd Ni Nr secret enc integ :
  PRF_newHMAC prf = Some h → PRF_OutputLen prf = hash_size h →
  0 <= Enc_KeyLen enc <= 36 → 0 <= Integ_KeyLen integ <= 64 →
  ∃ k, DeriveChildKeys (Some prf) skd Ni Nr secret enc (Some integ) = Ok k ∧
    prf_plus h skd (secret ++ Ni ++ Nr) (2 * (Enc_KeyLen enc + Integ_KeyLen integ))
      = Ok (Child_SKei k ++ Child_SKai k ++ Child_SKer k ++ Child_SKar k) ∧
    len (Child_SKei k) = Enc_KeyLen enc ∧ len (Child_SKer k) = Enc_KeyLen enc ∧
    len (Child_SKai k) = Integ_KeyLen integ ∧ len (Child_SKar k) = Integ_KeyLen integ.
Proof.
  intros Hp Hl He Hi. pose proof (hash_size_pos h) as Hh. unfold DeriveChildKeys.
  rewrite (Plus_eq prf h) by (done || lia).
  destruct (prf_plus h skd _ _) as [km|e| |] eqn:E;
    [|unfold prf_plus in E; case_match; [done|lia]..].
  pose proof E as Hkm. apply len_prf_plus in Hkm as [Hkm _]; [|lia]. run.
  next_key. next_key. next_key. next_key.
  eexists. split; [done|]. cbn [Child_SKei Child_SKai Child_SKer Child_SKar].
  split_and!; try done; [|lia..]. f_equal.
  rewrite (drop_ge km) in Hs2 by (unfold len in *; lia). rewrite app_nil_r in Hs2. subst k2.
  change km with (drop (Z.to_nat 0) km) at 1. by rewrite <- Hs, <- Hs0, <- Hs1.
Qed.

(** Keys of the right length are accepted by the ciphers. *)
Lemma Prepare_accepts id kl a key : NewEncryption id kl = Ok a → len key = Enc_KeyLen a →
  is_ok (Prepare (Some a) key) = true.
Proof.
  intros Ha Hk. simpl. rewrite Hk, Z.eqb_refl. cbn [negb].
  destruct (enc_family _ _ _ Ha) as [Ht [EA Ek Ei Ec|EA EC Ek Ei Ec|EA EC Ek Ei Ec]];
    rewrite EA, ?EC; cbn [negb]; unfold splitAEADKey, newGCM.
  - by rewrite NewCipher_ok by lia.
  - rewrite slice_take, slice_from_drop by lia. run. by rewrite NewCipher_ok by (rewrite len_take; lia).
  - rewrite slice_take, slice_from_drop by lia. run. rewrite NewCipher_ok by (rewrite len_take; lia).
    run. destruct (_ =? 16); [done|]. unfold NewGCMWithTagSize.
    by replace (_ || _) with false by lia.
Qed.

Lemma PrepareIntegrity_accepts i h key : Integ_newHMAC i = Some h → len key = Integ_KeyLen i →
  is_ok (PrepareIntegrity (Some i) key) = true.
Proof. destruct i. simpl. intros -> ->. by rewrite Z.eqb_refl. Qed.

Lemma NewIntegrity_hmac id ig h : NewIntegrity id = Ok ig → Integ_newHMAC ig = Some h →
  0 < Integ_OutputLen ig <= hash_size h ∧ Integ_OutputLen ig <= 32 ∧ Integ_KeyLen ig = hash_size h.
Proof.
  unfold NewIntegrity. intros H.
  repeat (case_match; [injection H as <-; simpl; intros E; simplify_eq; simpl; lia|]). done.
Qed.

Lemma NewIntegrity_outlen id ig : NewIntegrity id = Ok ig → 0 <= Integ_OutputLen ig <= 32.
Proof. unfold NewIntegrity. intros H. repeat (case_match; [injection H as <-; simpl; lia|]). done. Qed.

Lemma Sign_total id ig h key msg : NewIntegrity id = Ok ig → Integ_newHMAC ig = Some h →
  len key = Integ_KeyLen ig →
  ∃ icv, Sign (Some ig) key msg = Ok icv ∧ len icv = Integ_OutputLen ig ∧ bytes icv.
Proof.
  intros Hi Hh Hk. destruct (NewIntegrity_hmac id ig h Hi Hh) as (Ho & _ & _).
  destruct ig as [tid ol klen nh]. simpl in *. subst nh. rewrite Hk, Z.eqb_refl. cbn [negb].
  unfold hmac_Sum, hmac_Write, hmac_New. cbn [hmac_hash hmac_key hmac_buf app].
  rewrite slice_take by (rewrite hmac_len; lia). eexists. split; [done|].
  split; [rewrite len_take, hmac_len; lia|apply bytes_take, hmac_bytes].
Qed.

Lemma Verify_Sign ig key msg icv : Verify (Some ig) key msg icv = true ↔ Sign (Some ig) key msg = Ok icv.
Proof.
  unfold Verify. destruct (Sign (Some ig) key msg) as [got|e| |]; try done.
  rewrite andb_true_iff, bool_decide_eq_true. split; [by intros [_ ->]|]. intros [= ->].
  split; [lia|done].
Qed.

(** CBC does not look at the associated data. *)
Lemma cbc_ignores_aad a key iv aad aad' body : AEAD a = false →
  Seal (Some a) key iv aad body = Seal (Some a) key iv aad' body ∧
  Open (Some a) key iv aad body = Open (Some a) key iv aad' body.
Proof.
  intros Ha. unfold Seal, Open. destruct (checkKeyIV (Some a) key iv) as [a'|e| |] eqn:E; run; try done.
  apply checkKeyIV_ok in E as (-> & _ & _). by rewrite Ha.
Qed.

End KeyingLemmas.

(* ------------------------------------------------------------------ *)
(** ** Properties *)

(** [PRF.Plus] computes prf+ of RFC 7296: for every registered PRF it
    returns the first [outLen] bytes of T1 | T2 | ..., and an error exactly
    when [outLen] is negative or exceeds 255 blocks. *)
Theorem prf_plus_correct {C : Crypto} {L : CryptoLaws} (id : Z) (p : PRF) :
  NewPRF id = Ok p →
  ∃ h, PRF_newHMAC p = Some h ∧ PRF_OutputLen p = hash_size h ∧
    ∀ key seed outLen,
      Plus (Some p) key seed outLen =
      if outLen <? 0 then Err "xcrypto: negative PRF+ output length"
      else if outLen <=? 255 * hash_size h
           then Ok (take (Z.to_nat outLen) (prf_stream h key seed 255))
           else Err "xcrypto: PRF+ output exceeds 255 blocks".
Proof.
  intros (h & Hh & Hl)%NewPRF_cases. exists h. split_and!; [done..|]. intros key seed outLen.
  destruct (outLen <? 0) eqn:E; [|apply Plus_eq; [done|lia]].
  unfold Plus. replace (ready (Some p)) with (Ok h) by (destruct p; by simplify_eq/=). run. by rewrite E.
Qed.

(** Key derivation never fails for negotiated transforms, slices the
    key material in the order of RFC 7296 (SK_d, SK_ai, SK_ar, SK_ei, SK_er,
    SK_pi, SK_pr for the IKE SA; SK_ei, SK_ai, SK_er, SK_ar for a CHILD_SA)
    without gap or overlap, and hands out keys the ciphers and the HMACs
    accept. *)
Theorem derived_keys_usable {C : Crypto} {L : CryptoLaws} (pid eid kl iid : Z) (prf : PRF)
    (enc : EncryptionAlg) (integ : Integrity) (seed skd Ni Nr secret : list Z) (spiI spiR : Z) :
  NewPRF pid = Ok prf → NewEncryption eid kl = Ok enc → NewIntegrity iid = Ok integ →
  ∃ h k c, PRF_newHMAC prf = Some h ∧
    DeriveIKEKeys prf seed Ni Nr spiI spiR enc (Some integ) = Ok k ∧
    Plus (Some prf) seed (Ni ++ Nr ++ putUint64 spiI ++ putUint64 spiR)
      (3 * hash_size h + 2 * Integ_KeyLen integ + 2 * Enc_KeyLen enc)
      = Ok (SKd k ++ SKai k ++ SKar k ++ SKei k ++ SKer k ++ SKpi k ++ SKpr k) ∧
    len (SKd k) = hash_size h ∧ len (SKpi k) = hash_size h ∧ len (SKpr k) = hash_size h ∧
    DeriveChildKeys (Some prf) skd Ni Nr secret enc (Some integ) = Ok c ∧
    Plus (Some prf) skd (secret ++ Ni ++ Nr) (2 * (Enc_KeyLen enc + Integ_KeyLen integ))
      = Ok (Child_SKei c ++ Child_SKai c ++ Child_SKer c ++ Child_SKar c) ∧
    Forall (λ key, is_ok (Prepare (Some enc) key) = true)
      [SKei k; SKer k; Child_SKei c; Child_SKer c] ∧
    Forall (λ key, len key = Integ_KeyLen integ ∧
              (Integ_newHMAC integ ≠ None → is_ok (PrepareIntegrity (Some integ) key) = true))
      [SKai k; SKar k; Child_SKai c; Child_SKar c].
Proof.
  intros (h & Hh & Hl)%NewPRF_cases He Hi. pose proof (NewEncryption_keylen _ _ _ He) as Hek.
  pose proof (NewIntegrity_keylen _ _ Hi) as Hik. pose proof (hash_size_pos h).
  destruct (DeriveIKEKeys_ok prf h seed Ni Nr spiI spiR enc integ Hh Hl) as
    (k & E1 & E2 & ? & ? & ? & ? & ? & ? & ?); [lia..|].
  destruct (DeriveChildKeys_ok prf h skd Ni Nr secret enc integ Hh Hl) as
    (c & E3 & E4 & ? & ? & ? & ?); [lia..|].
  assert (P : ∀ key, len key = Integ_KeyLen integ → len key = Integ_KeyLen integ ∧
    (Integ_newHMAC integ ≠ None → is_ok (PrepareIntegrity (Some integ) key) = true)).
  { intros key Hk. split; [done|]. destruct (Integ_newHMAC integ) as [hm|] eqn:Em; [|done].
    intros _. by apply (PrepareIntegrity_accepts integ hm). }
  exists h, k, c. rewrite !(Plus_eq prf h) by (done || lia). split_and!; try done.
  - repeat apply Forall_cons_2; [by eapply Prepare_accepts..|by apply Forall_nil_2].
  - repeat apply Forall_cons_2; [by apply P..|by apply Forall_nil_2].
Qed.

(** The IKE SPI the generator returns is never zero (zero marks the
    missing responder SPI) and fits in 64 bits. *)
Theorem GenerateSPI_nonzero (b : list Z) : bytes b → len b = 8 →
  ∃ v, GenerateSPI (Ok b) = Ok v ∧ 0 < v < 2 ^ 64.
Proof.
  intros Hb Hl. destruct b as [|b0 [|b1 [|b2 [|b3 [|b4 [|b5 [|b6 [|b7 [|]]]]]]]]];
    try (unfold len in Hl; simpl in Hl; lia).
  unfold GenerateSPI, wrap. run. rewrite beUint64_value by done. run. eexists. split; [done|].
  repeat (apply Forall_cons in Hb as [? Hb]).
  assert (0 <= be_value [b0; b1; b2; b3; b4; b5; b6; b7] < 2 ^ 64) by be_arith.
  destruct (_ =? 0) eqn:E; lia.
Qed.

Lemma prf_plus_correct_witness : ∃ p, NewPRF TransformPRFHMACSHA256 = Ok p ∧
  ∃ h, PRF_newHMAC p = Some h ∧ PRF_OutputLen p = hash_size h ∧
    ∀ key seed outLen,
      Plus (C := xor_crypto) (Some p) key seed outLen =
      if outLen <? 0 then Err "xcrypto: negative PRF+ output length"
      else if outLen <=? 255 * hash_size h
           then Ok (take (Z.to_nat outLen) (prf_stream (C := xor_crypto) h key seed 255))
           else Err "xcrypto: PRF+ output exceeds 255 blocks".
Proof.
  eexists. split; [reflexivity|].
  apply (prf_plus_correct (C := xor_crypto) (L := xor_crypto_laws) TransformPRFHMACSHA256).
  reflexivity.
Defined.

Lemma derived_keys_usable_witness :
  ∃ prf enc integ, NewPRF TransformPRFHMACSHA256 = Ok prf ∧
  NewEncryption TransformEncryptionAESCBC 32 = Ok enc ∧
  NewIntegrity TransformIntegrityHMACSHA2256128 = Ok integ ∧
  ∃ h k c, PRF_newHMAC prf = Some h ∧
    DeriveIKEKeys (C := xor_crypto) prf [1] [2] [3] 4 5 enc (Some integ) = Ok k ∧
    Plus (C := xor_crypto) (Some prf) [1] ([2] ++ [3] ++ putUint64 4 ++ putUint64 5)
      (3 * hash_size h + 2 * Integ_KeyLen integ + 2 * Enc_KeyLen enc)
      = Ok (SKd k ++ SKai k ++ SKar k ++ SKei k ++ SKer k ++ SKpi k ++ SKpr k) ∧
    len (SKd k) = hash_size h ∧ len (SKpi k) = hash_size h ∧ len (SKpr k) = hash_size h ∧
    DeriveChildKeys (C := xor_crypto) (Some prf) [6] [2] [3] [] enc (Some integ) = Ok c ∧
    Plus (C := xor_crypto) (Some prf) [6] ([] ++ [2] ++ [3])
      (2 * (Enc_KeyLen enc + Integ_KeyLen integ))
      = Ok (Child_SKei c ++ Child_SKai c ++ Child_SKer c ++ Child_SKar c) ∧
    Forall (λ key, is_ok (Prepare (Some enc) key) = true)
      [SKei k; SKer k; Child_SKei c; Child_SKer c] ∧
    Forall (λ key, len key = Integ_KeyLen integ ∧
              (Integ_newHMAC integ ≠ None → is_ok (PrepareIntegrity (Some integ) key) = true))
      [SKai k; SKar k; Child_SKai c; Child_SKar c].
Proof.
  eexists _, _, _. do 3 (split; [reflexivity|]).
  apply (derived_keys_usable (C := xor_crypto) (L := xor_crypto_laws) TransformPRFHMACSHA256
    TransformEncryptionAESCBC 32 TransformIntegrityHMACSHA2256128); reflexivity.
Defined.

Lemma GenerateSPI_nonzero_witness : ∃ v, GenerateSPI (Ok (zeros 8)) = Ok v ∧ 0 < v < 2 ^ 64.
Proof. apply (GenerateSPI_nonzero (zeros 8)); [by apply (bool_decide_unpack _)|reflexivity]. Defined.
