(* ===== verification/Esp.v ===== *)
(** * ESP data plane (src/esp/outflow.go, inflow.go, pipeline.go)

    The outbound and inbound codecs as state transformers: a call returns the
    new codec state and its outcome. Randomness ([xcrypto.Fill]) is an argument
    of the outbound step. Buffers taken from [sync.Pool] hold no state a later
    call reads, so the values they carry are modelled, not their reuse. The
    pipeline keeps the table of inbound codecs by SPI for make-before-break
    rekeying. *)

From stdpp Require Import sorting.
From S2P Require Import Prelude Suite Crypto Cipher Payload Keying Replay.

Definition espHeaderLen : Z := 8.
Definition nextHeaderIPv4 : Z := 4.
Definition nextHeaderIPv6 : Z := 41.
Definition MaxWireDatagram : Z := 65535.

Definition ErrSeqWrapped : string := "github.com/wsm25/swan/esp: ESP sequence number wrapped after 2^32-1 packets".

(* ------------------------------------------------------------------ *)
(** ** outflow.go *)

Record FlowLimit := mkFlowLimit { FL_Bytes : Z; FL_Packets : Z }.

(** [FlowWarn] is a channel: here, whether it is non-nil. *)
Record OutboundConfig := mkOutboundConfig {
  Out_SPI : Z;
  Out_Selection : option Selection;
  Out_Keys : option ChildKeys;
  WarnAt : Z;
  FlowWarn : bool;
  Out_FlowLimit : FlowLimit }.

Record Outbound := mkOutbound {
  o_cfg : OutboundConfig;
  o_seq : Z;
  o_wrapped : bool;
  o_packets : Z;
  o_bytesOut : Z;
  o_warned : bool;
  o_enc : option PreparedEncryption;
  o_integ : option PreparedIntegrity;
  o_stateErr : option string }.

(** The keyed state of a direction: [encKey], [integKey] are SK_ei, SK_ai for
    the outbound and SK_er, SK_ar for the inbound codec. *)
Definition prepareDirection (what : string) (sel : option Selection)
    (keys : option ChildKeys) (encKey integKey : ChildKeys → list Z) :
    res (PreparedEncryption * option PreparedIntegrity) :=
  match sel, keys with
  | Some {| Sel_Encryption := Some enc; Sel_Integrity := integ |}, Some k =>
      state ← wrap "github.com/wsm25/swan/esp: prepare ESP encryption: " (Prepare (Some enc) (encKey k));
      if negb (AEAD enc) then
        match integ with
        | None => Err "github.com/wsm25/swan/esp: CBC requires an integrity transform"
        | Some i =>
            q ← wrap "github.com/wsm25/swan/esp: prepare ESP integrity: " (PrepareIntegrity (Some i) (integKey k));
            Ok (state, Some q)
        end
      else Ok (state, None)
  | _, _ => Err what
  end.

Definition prepareOutbound (cfg : OutboundConfig) :
    res (PreparedEncryption * option PreparedIntegrity) :=
  prepareDirection "github.com/wsm25/swan/esp: outbound configuration is incomplete" (Out_Selection cfg) (Out_Keys cfg)
    Child_SKei Child_SKai.

(** [Prepare] panics only for algorithms outside the registry. *)
Definition NewOutbound (cfg : OutboundConfig) : res Outbound :=
  match prepareOutbound cfg with
  | Ok (enc, integ) => Ok (mkOutbound cfg 1 false 0 0 false (Some enc) integ None)
  | Err e => Ok (mkOutbound cfg 1 false 0 0 false None None (Some e))
  | Panic => Panic
  | Hang => Hang
  end.

Definition ipNextHeader (firstByte : Z) : res Z :=
  if Z.shiftr firstByte 4 =? 4 then Ok nextHeaderIPv4
  else if Z.shiftr firstByte 4 =? 6 then Ok nextHeaderIPv6
  else Err "github.com/wsm25/swan/esp: unsupported outbound IP version %d".

Definition integOuterICV (integ : option Integrity) : Z :=
  match integ with Some i => Integ_OutputLen i | None => 0 end.

(** Returns the new state and whether it sends to [FlowWarn] (a non-blocking
    send: it is lost when the channel is full). *)
Definition checkFlowTriggers (p : Outbound) : Outbound * bool :=
  let cfg := o_cfg p in
  if o_warned p || negb (FlowWarn cfg) then (p, false)
  else
    let limitHit := (0 <? FL_Bytes (Out_FlowLimit cfg))
                    && (FL_Bytes (Out_FlowLimit cfg) <=? o_bytesOut p) in
    let limitHit := limitHit || ((0 <? FL_Packets (Out_FlowLimit cfg))
                                 && (FL_Packets (Out_FlowLimit cfg) <=? o_packets p)) in
    let seqHit := (0 <? WarnAt cfg) && (WarnAt cfg <=? o_seq p) in
    if negb limitHit && negb seqHit then (p, false)
    else (mkOutbound (o_cfg p) (o_seq p) (o_wrapped p) (o_packets p) (o_bytesOut p) true
            (o_enc p) (o_integ p) (o_stateErr p), true).

(** ESP padding: 1, 2, ..., padLen. *)
Definition esp_padding (padLen : Z) : list Z :=
  (λ i, u8 (Z.of_nat i)) <$> seq 1 (Z.to_nat padLen).

Section Esp.
Context {C : Crypto}.

(** [integ.Sign] on the codec's HMAC state. *)
Definition out_sign (p : Outbound) (datagram : list Z) : Outbound * res (list Z) :=
  match o_integ p with
  | None => (p, Err "github.com/wsm25/swan/esp: CBC requires an integrity transform")
  | Some q =>
      let '(q', r) := PreparedSign q datagram in
      (mkOutbound (o_cfg p) (o_seq p) (o_wrapped p) (o_packets p) (o_bytesOut p) (o_warned p)
         (o_enc p) (Some q') (o_stateErr p),
       icv ← wrap "github.com/wsm25/swan/esp: sign ESP ICV: " r; Ok (datagram ++ icv))
  end.

(** The rest of [process] once the sequence number is taken. *)
Definition out_seal (p : Outbound) (enc : EncryptionAlg) (integ : option Integrity)
    (seq : Z) (iv plain : list Z) : Outbound * res (list Z) :=
  let trailerICV := if AEAD enc then ICVLen enc else integOuterICV integ in
  let wireLen := espHeaderLen + IVLen enc + len plain + trailerICV in
  if MaxWireDatagram <? wireLen then
    (p, Err "github.com/wsm25/swan/esp: encapsulated packet %d bytes exceeds transport limit %d")
  else
    let header := putUint32 (Out_SPI (o_cfg p)) ++ putUint32 seq in
    match wrap "github.com/wsm25/swan/esp: encrypt ESP: " (SealTo (o_enc p) (header ++ iv) iv header plain) with
    | Ok datagram => if negb (AEAD enc) then out_sign p datagram else (p, Ok datagram)
    | other => (p, other)
    end.

(** [process], returning the new state, whether the flow trigger fired and the
    outcome. [random n] is what [xcrypto.Fill] writes into the [n]-byte IV. *)
Definition process (p : Outbound) (random : Z → res (list Z)) (packet : list Z) :
    Outbound * bool * res (list Z) :=
  if o_wrapped p then (p, false, Err ErrSeqWrapped)
  else match o_stateErr p with Some e => (p, false, Err e) | None =>
  if len packet =? 0 then (p, false, Err "github.com/wsm25/swan/esp: outbound packet is empty")
  else
  match (first ← packet.[0]; ipNextHeader first) with
  | Err e => (p, false, Err e) | Panic => (p, false, Panic) | Hang => (p, false, Hang)
  | Ok nextHeader =>
  match Out_Selection (o_cfg p) with
  | Some {| Sel_Encryption := Some enc; Sel_Integrity := integ |} =>
      let padLen := Z.rem (BlockLen enc - Z.rem (len packet + 2) (BlockLen enc)) (BlockLen enc) in
      let plain := packet ++ esp_padding padLen ++ [u8 padLen; nextHeader] in
      match random (IVLen enc) with
      | Err e => (p, false, Err ("github.com/wsm25/swan/esp: generate ESP IV: " +:+ e))
      | Panic => (p, false, Panic) | Hang => (p, false, Hang)
      | Ok iv =>
          if o_seq p =? 0 then
            (mkOutbound (o_cfg p) (o_seq p) true (o_packets p) (o_bytesOut p) (o_warned p)
               (o_enc p) (o_integ p) (o_stateErr p), false, Err ErrSeqWrapped)
          else
            let seq := o_seq p in
            let p := mkOutbound (o_cfg p) (u32 (seq + 1)) (o_wrapped p) (u64 (o_packets p + 1))
                       (u64 (o_bytesOut p + len packet)) (o_warned p) (o_enc p) (o_integ p)
                       (o_stateErr p) in
            let '(p, trigger) := checkFlowTriggers p in
            let '(p, r) := out_seal p enc integ seq iv plain in
            (p, trigger, r)
      end
  | _ => (p, false, Panic)
  end end end.

(* ------------------------------------------------------------------ *)
(** ** inflow.go *)

Record InboundConfig := mkInboundConfig {
  In_SPI : Z;
  In_Selection : option Selection;
  In_Keys : option ChildKeys }.

Record Inbound := mkInbound {
  i_cfg : InboundConfig;
  i_window : ReplayWindow;
  i_enc : option PreparedEncryption;
  i_integ : option PreparedIntegrity;
  i_stateErr : option string }.

Definition prepareInbound (cfg : InboundConfig) :
    res (PreparedEncryption * option PreparedIntegrity) :=
  prepareDirection "github.com/wsm25/swan/esp: inbound configuration is incomplete" (In_Selection cfg) (In_Keys cfg)
    Child_SKer Child_SKar.

Definition NewInbound (cfg : InboundConfig) : res Inbound :=
  match prepareInbound cfg with
  | Ok (enc, integ) => Ok (mkInbound cfg zero_window (Some enc) integ None)
  | Err e => Ok (mkInbound cfg zero_window None None (Some e))
  | Panic => Panic
  | Hang => Hang
  end.

Definition AcceptSPI (p : Inbound) (datagram : list Z) : res bool :=
  if len datagram <? espHeaderLen then Ok false
  else
    b ← datagram.[0, 4];
    spi ← beUint32 b;
    Ok (spi =? In_SPI (i_cfg p)).

Definition set_integ (p : Inbound) (q : option PreparedIntegrity) : Inbound :=
  mkInbound (i_cfg p) (i_window p) (i_enc p) q (i_stateErr p).
Definition set_window (p : Inbound) (w : ReplayWindow) : Inbound :=
  mkInbound (i_cfg p) w (i_enc p) (i_integ p) (i_stateErr p).

(** Everything before decryption: the guards on the header and the cut of the
    datagram into IV and the rest. *)
Definition in_header (p : Inbound) (datagram : list Z) :
    res (EncryptionAlg * Z * Z * list Z * list Z) :=
  ok ← AcceptSPI p datagram;
  if negb ok then Err "github.com/wsm25/swan/esp: ESP SPI does not match the inbound SPI"
  else if len datagram <? espHeaderLen then Err "github.com/wsm25/swan/esp: ESP packet too short for header"
  else
  sb ← datagram.[4, 8];
  seq ← beUint32 sb;
  if seq =? 0 then Err "github.com/wsm25/swan/esp: ESP sequence number 0 is invalid"
  else
  match In_Selection (i_cfg p) with
  | Some {| Sel_Encryption := Some enc; Sel_Integrity := integ |} =>
      icvLen ← (if negb (AEAD enc)
                then match integ with
                     | None => Err "github.com/wsm25/swan/esp: CBC requires an integrity transform"
                     | Some i => Ok (Integ_OutputLen i)
                     end
                else Ok (ICVLen enc));
      body ← slice_from datagram espHeaderLen;
      if len body <? IVLen enc + icvLen then Err "github.com/wsm25/swan/esp: ESP packet too short for IV and ICV"
      else
        iv ← body.[0, IVLen enc];
        rest ← slice_from body (IVLen enc);
        Ok (enc, seq, icvLen, iv, rest)
  | _ => Panic
  end.

(** Authentication and decryption. *)
Definition in_open (p : Inbound) (datagram : list Z) (enc : EncryptionAlg) (icvLen : Z)
    (iv rest : list Z) : Inbound * res (list Z) :=
  if AEAD enc then
    (p, aad ← datagram.[0, espHeaderLen];
        wrap "github.com/wsm25/swan/esp: decrypt ESP: " (OpenTo (i_enc p) [] iv aad rest))
  else
    match i_integ p with
    | None => (p, Err "github.com/wsm25/swan/esp: CBC requires an integrity transform")
    | Some q =>
        let cipherLen := len rest - icvLen in
        match (ciphertext ← rest.[0, cipherLen];
               receivedICV ← slice_from rest cipherLen;
               authArea ← datagram.[0, len datagram - icvLen];
               Ok (ciphertext, receivedICV, authArea)) with
        | Ok (ciphertext, receivedICV, authArea) =>
            let '(q', ok) := PreparedVerify q authArea receivedICV in
            (set_integ p (Some q'),
             if ok then wrap "github.com/wsm25/swan/esp: decrypt ESP: " (OpenTo (i_enc p) [] iv [] ciphertext)
             else Err "github.com/wsm25/swan/esp: ESP integrity check failed")
        | Err e => (p, Err e) | Panic => (p, Panic) | Hang => (p, Hang)
        end
    end.

(** The ESP trailer. *)
Definition in_strip (plain : list Z) : res (list Z) :=
  if len plain <? 2 then Err "github.com/wsm25/swan/esp: ESP plaintext is missing the trailer"
  else
    padLen ← plain.[len plain - 2];
    nextHeader ← plain.[len plain - 1];
    if len plain <? padLen + 2 then Err "github.com/wsm25/swan/esp: ESP padding length does not fit the plaintext"
    else if negb (nextHeader =? nextHeaderIPv4) && negb (nextHeader =? nextHeaderIPv6) then
      Err "github.com/wsm25/swan/esp: unsupported inner protocol %d"
    else
      inner ← plain.[0, len plain - padLen - 2];
      if len inner =? 0 then Err "github.com/wsm25/swan/esp: empty inner packet" else Ok inner.

Definition ProcessPooled (p : Inbound) (datagram : list Z) : Inbound * res (list Z) :=
  match i_stateErr p with
  | Some e => (p, Err e)
  | None =>
  match in_header p datagram with
  | Ok (enc, seq, icvLen, iv, rest) =>
      let '(p, r) := in_open p datagram enc icvLen iv rest in
      match (plain ← r; in_strip plain) with
      | Ok inner =>
          let '(w, ok) := Accept (i_window p) seq in
          (set_window p w,
           if ok then Ok inner else Err "github.com/wsm25/swan/esp: ESP replay window rejected the packet")
      | other => (p, other)
      end
  | Err e => (p, Err e) | Panic => (p, Panic) | Hang => (p, Hang)
  end
  end.

End Esp.

(* ------------------------------------------------------------------ *)
(** ** Lemmas: padding and trailer *)

Lemma len_esp_padding n : 0 <= n → len (esp_padding n) = n.
Proof. intros. unfold esp_padding. rewrite len_fmap. unfold len. rewrite length_seq. lia. Qed.

Lemma esp_padding_bytes n : bytes (esp_padding n).
Proof. apply Forall_fmap, Forall_forall. intros i _. apply u8_byte. Qed.

(** The receiver strips exactly what the sender added. *)
Lemma in_strip_pad packet padLen nextHeader : packet ≠ [] → 0 <= padLen < 256 →
  nextHeader = nextHeaderIPv4 ∨ nextHeader = nextHeaderIPv6 →
  in_strip (packet ++ esp_padding padLen ++ [u8 padLen; nextHeader]) = Ok packet.
Proof.
  intros Hne Hp Hn. rewrite u8_small by (unfold is_byte; lia).
  pose proof (len_esp_padding padLen ltac:(lia)) as Hl. unfold in_strip.
  set (plain := packet ++ _).
  assert (Hlen : len plain = len packet + padLen + 2) by (unfold plain; llia).
  pose proof (len_nonneg packet). rewrite Hlen.
  replace (len packet + padLen + 2 <? 2) with false by lia.
  assert (E1 : plain.[len packet + padLen + 2 - 2] = Ok padLen).
  { unfold plain. rewrite app_assoc. apply idx_app_at. llia. }
  assert (E2 : plain.[len packet + padLen + 2 - 1] = Ok nextHeader).
  { unfold plain. rewrite (app_assoc packet), (app_assoc _ [padLen] [nextHeader] : _ ++ [_; _] = _).
    apply idx_app_at. llia. }
  rewrite E1, E2. run. replace (len packet + padLen + 2 <? padLen + 2) with false by lia.
  replace (negb _ && negb _) with false by (destruct Hn as [-> | ->]; done).
  unfold plain. rewrite slice_prefix by lia. run.
  destruct (len packet =? 0) eqn:E; [|done]. exfalso. apply Hne, len_0_inv. lia.
Qed.

(* ------------------------------------------------------------------ *)
(** ** Lemmas: keyed codec states *)

Section EspLemmas.
Context {C : Crypto} {L : CryptoLaws}.

(** A cipher and HMAC state prepared from the keys [ek], [ik], after any
    number of packets. *)
Record keyed (enc : EncryptionAlg) (ig : Integrity) (ek ik : list Z)
    (pe : option PreparedEncryption) (pi : option PreparedIntegrity) : Prop := {
  kd_enc : ∃ p, pe = Some p ∧ Prepare (Some enc) ek = Ok p;
  kd_integ : AEAD enc = false →
    ∃ q h, pi = Some (after_signing q h) ∧ PrepareIntegrity (Some ig) ik = Ok q }.

Record out_ok (spi : Z) (enc : EncryptionAlg) (ig : Integrity) (ek ik : list Z) (o : Outbound) : Prop := {
  oo_spi : Out_SPI (o_cfg o) = spi;
  oo_sel : negotiated (Out_Selection (o_cfg o)) enc ig;
  oo_key : keyed enc ig ek ik (o_enc o) (o_integ o);
  oo_err : o_stateErr o = None }.

Record in_ok (spi : Z) (enc : EncryptionAlg) (ig : Integrity) (ek ik : list Z) (i : Inbound) : Prop := {
  io_spi : In_SPI (i_cfg i) = spi;
  io_sel : negotiated (In_Selection (i_cfg i)) enc ig;
  io_key : keyed enc ig ek ik (i_enc i) (i_integ i);
  io_err : i_stateErr i = None }.

Lemma after_signing_snoc p h m : (PreparedSign (after_signing p h) m).1 = after_signing p (h ++ [m]).
Proof. unfold after_signing. by rewrite foldl_app. Qed.

Lemma PreparedVerify_state p m icv : (PreparedVerify p m icv).1 = (PreparedSign p m).1.
Proof. done. Qed.

Lemma bind_nil (m : res (list Z)) : (r ← m; Ok ([] ++ r)) = m.
Proof. by destruct m. Qed.

(** The bytes of an ESP datagram. *)
Definition esp_header (spi seq : Z) : list Z := putUint32 spi ++ putUint32 seq.

Lemma len_esp_header spi seq : len (esp_header spi seq) = 8.
Proof. done. Qed.

(** What a sent datagram consists of. *)
Record esp_datagram (spi : Z) (enc : EncryptionAlg) (ig : Integrity) (ek ik : list Z)
    (seq : Z) (plain d iv ct icv : list Z) : Prop := {
  ed_shape : d = esp_header spi seq ++ iv ++ ct ++ icv;
  ed_iv : len iv = IVLen enc;
  ed_seal : Seal (Some enc) ek iv (esp_header spi seq) plain = Ok ct;
  ed_len : len ct = len plain + ICVLen enc;
  ed_icv : if AEAD enc then icv = []
           else Sign (Some ig) ik (esp_header spi seq ++ iv ++ ct) = Ok icv ∧
                len icv = Integ_OutputLen ig;
  ed_bytes : bytes iv ∧ bytes ct ∧ bytes icv }.

(** Only fields that [process] does not read for this decision differ. *)
Definition same_codec (o o' : Outbound) : Prop :=
  o_cfg o' = o_cfg o ∧ o_seq o' = o_seq o ∧ o_wrapped o' = o_wrapped o ∧ o_warned o' = o_warned o.

Lemma keyed_len enc ig ek ik pe pi : keyed enc ig ek ik pe pi → len ek = Enc_KeyLen enc.
Proof. intros [(p & _ & H) _]. by apply Prepare_ok in H as [? _]. Qed.

Lemma keyed_ilen enc ig ek ik pe pi : keyed enc ig ek ik pe pi → AEAD enc = false →
  len ik = Integ_KeyLen ig ∧ ∃ h, Integ_newHMAC ig = Some h.
Proof.
  intros [_ H] Ha. destruct (H Ha) as (q & h & _ & Hq). unfold PrepareIntegrity in Hq.
  destruct ig as [id ol klen [hk|]]; [|done]. destruct (negb _) eqn:E; [done|]. simpl. split; [lia|eauto].
Qed.

Lemma out_seal_spec spi enc ig ek ik o seq iv plain :
  out_ok spi enc ig ek ik o → bytes ek → bytes iv → bytes plain → len iv = IVLen enc →
  len plain mod BlockLen enc = 0 →
  espHeaderLen + IVLen enc + len plain + (if AEAD enc then ICVLen enc else Integ_OutputLen ig) <= MaxWireDatagram →
  ∃ o' d ct icv, out_seal o enc (Some ig) seq iv plain = (o', Ok d) ∧
    out_ok spi enc ig ek ik o' ∧ same_codec o o' ∧
    esp_datagram spi enc ig ek ik seq plain d iv ct icv.
Proof.
  intros Ho Hbk Hbi Hbp Hi Hm Hmax. pose proof Ho as [Espi Hsel Hk He].
  pose proof Hsel as [_ (id & kl & Hne) (iid & Hni) Hh].
  pose proof (keyed_len _ _ _ _ _ _ Hk) as Hkl. destruct (NewEncryption_wf _ _ _ Hne) as (W & _ & _).
  pose proof (NewIntegrity_outlen _ _ Hni) as Hol.
  assert (Hblk : AEAD enc = false → len plain mod 16 = 0).
  { intros Ha. pose proof (ew_block _ W) as Hb. rewrite Ha in Hb. by rewrite Hb in Hm. }
  destruct (Seal_total id kl enc ek iv (esp_header spi seq) plain) as (ct & Hs & Hl & Hbc); try done.
  { apply bytes_app; apply putUint32_bytes. }
  { pose proof (ew_icv _ W). unfold gcm_max, espHeaderLen, MaxWireDatagram in *. destruct (AEAD enc); lia. }
  pose proof Hk as [(p & Ep & Hp) Hint].
  assert (Eseal : SealTo (o_enc o) (esp_header spi seq ++ iv) iv (esp_header spi seq) plain
    = Ok (esp_header spi seq ++ iv ++ ct)).
  { rewrite Ep, (Seal_prepared enc ek) by done. rewrite Hs. run. by rewrite <- app_assoc. }
  pose proof (ew_icv _ W) as Hicv. unfold out_seal. fold (esp_header (Out_SPI (o_cfg o)) seq).
  rewrite Espi, Eseal. cbn [wrap]. unfold integOuterICV, espHeaderLen, MaxWireDatagram in *.
  destruct (AEAD enc) eqn:Ea; cbn [negb].
  - replace (65535 <? _) with false by lia.
    exists o, (esp_header spi seq ++ iv ++ ct), ct, []. split_and!; [done..|].
    constructor; rewrite ?Ea, ?app_nil_r; auto using bytes_nil.
  - replace (65535 <? _) with false by lia.
    destruct (Hint eq_refl) as (q & h & Eq & Hq).
    destruct (keyed_ilen _ _ _ _ _ _ Hk Ea) as (Hik & hk & Hhk).
    destruct (Sign_total iid ig hk ik (esp_header spi seq ++ iv ++ ct) Hni Hhk Hik) as (icv & Es & Hli & Hbi').
    pose proof (Sign_prepared (Some ig) ik q h (esp_header spi seq ++ iv ++ ct) Hq) as Esp.
    pose proof (after_signing_snoc q h (esp_header spi seq ++ iv ++ ct)) as Esn.
    unfold out_sign. rewrite Eq.
    destruct (PreparedSign (after_signing q h) _) as [q' r] eqn:E. cbn [fst snd] in *. rewrite Esp, Es.
    cbn [wrap mbind res_bind]. eexists _, _, ct, icv. split_and!; [done| | |].
    + constructor; cbn [o_cfg o_enc o_integ o_stateErr]; try done. constructor; [eauto|].
      intros _. exists q, (h ++ [esp_header spi seq ++ iv ++ ct]). by rewrite Esn.
    + done.
    + constructor; rewrite ?Ea; try done. by rewrite <- !app_assoc.
Qed.

Lemma in_header_spec spi enc ig ek ik i seq plain d iv ct icv :
  in_ok spi enc ig ek ik i → 0 <= spi < 2 ^ 32 → 1 <= seq < 2 ^ 32 →
  esp_datagram spi enc ig ek ik seq plain d iv ct icv →
  in_header i d = Ok (enc, seq, if AEAD enc then ICVLen enc else Integ_OutputLen ig, iv, ct ++ icv).
Proof.
  intros [Espi [(prf & dh & Esel) _ (iid & Hni) _] _ _] Hspi Hseq [-> Hiv _ Hl Hicv _].
  unfold in_header, AcceptSPI, esp_header.
  set (tail := iv ++ ct ++ icv).
  assert (E1 : ((putUint32 spi ++ putUint32 seq) ++ tail).[0, 4] = Ok (putUint32 spi)).
  { rewrite <- app_assoc. by apply slice_prefix. }
  assert (E2 : ((putUint32 spi ++ putUint32 seq) ++ tail).[4, 8] = Ok (putUint32 seq)).
  { rewrite <- app_assoc. by apply slice_mid. }
  assert (Hlen : len ((putUint32 spi ++ putUint32 seq) ++ tail) = 8 + len tail) by llia.
  pose proof (len_nonneg tail). rewrite E1, E2, Hlen. unfold espHeaderLen.
  replace (8 + len tail <? 8) with false by lia. run.
  rewrite (beUint32_put' spi) by done. run. rewrite Espi, Z.eqb_refl. cbn [negb].
  rewrite (beUint32_put' seq) by lia. run. replace (seq =? 0) with false by lia. rewrite Esel.
  rewrite (slice_from_suffix (putUint32 spi ++ putUint32 seq) tail) by done.
  assert (Hicvlen : len tail >= IVLen enc + if AEAD enc then ICVLen enc else Integ_OutputLen ig).
  { unfold tail. rewrite !len_app, Hiv, Hl. pose proof (len_nonneg plain). pose proof (len_nonneg icv).
    pose proof (len_nonneg ct). destruct (AEAD enc); [lia|]. destruct Hicv as [_ ->].
    lia. }
  assert (E3 : tail.[0, IVLen enc] = Ok iv) by by apply slice_prefix.
  assert (E4 : slice_from tail (IVLen enc) = Ok (ct ++ icv)) by by apply slice_from_suffix.
  destruct (AEAD enc); cbn [negb]; run; (replace (len tail <? _) with false by lia);
    rewrite E3; run; by rewrite E4.
Qed.

Lemma in_open_spec spi enc ig ek ik i seq plain d iv ct icv :
  in_ok spi enc ig ek ik i → bytes ek → bytes plain →
  esp_datagram spi enc ig ek ik seq plain d iv ct icv →
  ∃ i', in_open i d enc (if AEAD enc then ICVLen enc else Integ_OutputLen ig) iv (ct ++ icv)
        = (i', Ok plain) ∧
    in_ok spi enc ig ek ik i' ∧ i_window i' = i_window i.
Proof.
  intros Hi Hbk Hbp [-> Hiv Hs Hl Hicv (Bi & Bc & Bv)]. pose proof Hi as [Espi Hsel Hk He].
  pose proof Hsel as [_ (id & kl & Hne) _ _]. pose proof Hk as [(p & Ep & Hp) Hint].
  assert (Hopen : Open (Some enc) ek iv (esp_header spi seq) ct = Ok plain).
  { apply (Seal_iff_Open id kl); try done. apply bytes_app; apply putUint32_bytes. }
  unfold in_open. destruct (AEAD enc) eqn:Ea.
  - subst icv. rewrite app_nil_r. exists i. split_and!; [|done..].
    rewrite (slice_prefix (esp_header spi seq)) by done. run.
    rewrite Ep, (Open_prepared enc ek) by done. rewrite Hopen. done.
  - destruct Hicv as [Es Hli]. destruct (Hint eq_refl) as (q & h & Eq & Hq). rewrite Eq.
    pose proof (proj2 (Verify_Sign _ _ _ _) Es) as Hv.
    rewrite (slice_prefix ct) by llia. rewrite (slice_from_suffix ct) by llia. run.
    replace (esp_header spi seq ++ iv ++ ct ++ icv) with ((esp_header spi seq ++ iv ++ ct) ++ icv)
      by by rewrite <- !app_assoc.
    rewrite (slice_prefix (esp_header spi seq ++ iv ++ ct)) by llia. run.
    pose proof (Verify_prepared (Some ig) ik q h (esp_header spi seq ++ iv ++ ct) icv Hq) as Evp.
    pose proof (PreparedVerify_state (after_signing q h) (esp_header spi seq ++ iv ++ ct) icv) as Evs.
    rewrite after_signing_snoc in Evs.
    destruct (PreparedVerify (after_signing q h) _ icv) as [q' ok]. cbn [fst snd] in *. subst ok q'.
    rewrite Hv, Ep, (Open_prepared enc ek) by done.
    rewrite (proj2 (cbc_ignores_aad enc ek iv [] (esp_header spi seq) ct Ea)), Hopen.
    eexists. split_and!; [done| |done]. constructor; simpl; try done. constructor; [eauto|].
    intros _. eauto.
Qed.

(** An IP packet that fits, with a random source that fills the IV. *)
Record valid_send (enc : EncryptionAlg) (random : Z → res (list Z)) (packet : list Z) : Prop := {
  vs_random : ∃ iv, random (IVLen enc) = Ok iv ∧ bytes iv ∧ len iv = IVLen enc;
  vs_bytes : bytes packet;
  vs_len : len packet <= 65400;
  vs_version : ∃ b r, packet = b :: r ∧ (Z.shiftr b 4 = 4 ∨ Z.shiftr b 4 = 6) }.

(** The datagram carries [packet] under [seq]. *)
Definition carries (spi : Z) (enc : EncryptionAlg) (ig : Integrity) (ek ik : list Z) (seq : Z)
    (packet d : list Z) : Prop := len d <= MaxWireDatagram ∧
  ∃ padLen nextHeader iv ct icv, 0 <= padLen < 256 ∧ bytes packet ∧ packet ≠ [] ∧
    (nextHeader = nextHeaderIPv4 ∨ nextHeader = nextHeaderIPv6) ∧
    esp_datagram spi enc ig ek ik seq
      (packet ++ esp_padding padLen ++ [u8 padLen; nextHeader]) d iv ct icv.

Lemma version_next b : Z.shiftr b 4 = 4 ∨ Z.shiftr b 4 = 6 →
  ∃ nh, ipNextHeader b = Ok nh ∧ (nh = nextHeaderIPv4 ∨ nh = nextHeaderIPv6).
Proof. unfold ipNextHeader. intros [-> | ->]; simpl; eauto. Qed.

Lemma trailer_bytes packet padLen nh : bytes packet → nh = nextHeaderIPv4 ∨ nh = nextHeaderIPv6 →
  bytes (packet ++ esp_padding padLen ++ [u8 padLen; nh]).
Proof.
  intros Hb Hn. apply bytes_app; [done|]. apply bytes_app; [apply esp_padding_bytes|].
  repeat apply bytes_cons; [apply u8_byte| |apply bytes_nil]. by destruct Hn as [-> | ->].
Qed.

Lemma checkFlowTriggers_codec o o' t : checkFlowTriggers o = (o', t) →
  o_cfg o' = o_cfg o ∧ o_seq o' = o_seq o ∧ o_wrapped o' = o_wrapped o ∧ o_enc o' = o_enc o ∧
  o_integ o' = o_integ o ∧ o_stateErr o' = o_stateErr o.
Proof.
  unfold checkFlowTriggers. destruct (_ || negb _); [by intros [= <- <-]|].
  destruct (negb _ && negb _); by intros [= <- <-].
Qed.

(** The padded packet is sealed, or does not fit a datagram. *)
Lemma out_seal_packet spi enc ig ek ik o seq iv packet nh :
  out_ok spi enc ig ek ik o → bytes ek → bytes iv → len iv = IVLen enc → bytes packet → packet ≠ [] →
  nh = nextHeaderIPv4 ∨ nh = nextHeaderIPv6 →
  let padLen := Z.rem (BlockLen enc - Z.rem (len packet + 2) (BlockLen enc)) (BlockLen enc) in
  let r := out_seal o enc (Some ig) seq iv (packet ++ esp_padding padLen ++ [u8 padLen; nh]) in
  (∃ e, r = (o, Err e) ∧ 65400 < len packet) ∨
  (∃ o' d, r = (o', Ok d) ∧ out_ok spi enc ig ek ik o' ∧ same_codec o o' ∧ carries spi enc ig ek ik seq packet d).
Proof.
  intros Ho Hbk Hbi Hli Hbp Hne Hnh padLen. set (plain := packet ++ _).
  pose proof (oo_sel _ _ _ _ _ _ Ho) as [_ (id & kl & Hen) (iid & Hni) _].
  destruct (NewEncryption_wf _ _ _ Hen) as (W & _ & _). pose proof (ew_block _ W) as Hblk.
  destruct (pad_bounds (BlockLen enc) (len packet + 2)) as [Hpad Hmod];
    [destruct (AEAD enc); lia|pose proof (len_nonneg packet); lia|]. fold padLen in Hpad, Hmod.
  assert (Hlen : len plain = len packet + padLen + 2).
  { unfold plain. rewrite !len_app, len_esp_padding by lia. llia. }
  destruct (Z_le_gt_dec (espHeaderLen + IVLen enc + len plain + (if AEAD enc then ICVLen enc else Integ_OutputLen ig))
    MaxWireDatagram) as [Hfit|Hbig].
  - right. destruct (out_seal_spec spi enc ig ek ik o seq iv plain) as (o2 & d & ct & icv & E2 & Ho2 & Hsame & Hd); try done.
    + by apply trailer_bytes.
    + rewrite Hlen. by replace (len packet + padLen + 2) with (len packet + 2 + padLen) by lia.
    + exists o2, d. split_and!; [done..|]. split; [|by exists padLen, nh, iv, ct, icv; split_and!; destruct (AEAD enc); lia || done].
      pose proof (ew_icv _ W). destruct Hd as [-> Hd1 _ Hd2 Hd3 _].
      rewrite !len_app, len_esp_header. unfold espHeaderLen, MaxWireDatagram in *.
      destruct (AEAD enc); [subst icv; change (len []) with 0|destruct Hd3]; lia.
  - left. unfold out_seal, integOuterICV. cbv zeta. replace (MaxWireDatagram <? _) with true by lia. eexists. split; [done|].
    pose proof (ew_icv _ W). pose proof (ew_iv _ W). pose proof (NewIntegrity_outlen _ _ Hni).
    unfold espHeaderLen, MaxWireDatagram in Hbig. destruct (AEAD enc); lia.
Qed.

Lemma process_spec spi enc ig ek ik o random packet :
  out_ok spi enc ig ek ik o → o_wrapped o = false → 1 <= o_seq o < 2 ^ 32 → bytes ek →
  valid_send enc random packet →
  ∃ o' t d, process o random packet = (o', t, Ok d) ∧ out_ok spi enc ig ek ik o' ∧
    o_wrapped o' = false ∧ o_seq o' = u32 (o_seq o + 1) ∧
    carries spi enc ig ek ik (o_seq o) packet d.
Proof.
  intros Ho Hw Hseq Hbk [(iv & Er & Hbi & Hli) Hbp Hlp (b & r & Epk & Hv)].
  pose proof Ho as [Espi Hsel Hk He]. pose proof Hsel as [(prf & dh & Es) _ _ _].
  unfold process. rewrite Hw, He. replace (len packet =? 0) with false by (subst packet; llia).
  destruct (version_next b Hv) as (nh & Enh & Hnh).
  replace (first ← packet.[0]; ipNextHeader first) with (Ok nh) by by subst packet.
  rewrite Es, Er. replace (o_seq o =? 0) with false by lia.
  match goal with |- context [checkFlowTriggers ?x] => destruct (checkFlowTriggers x) as [o1 t] eqn:Ec end.
  apply checkFlowTriggers_codec in Ec as (C1 & C2 & C3 & C4 & C5 & C6). simpl in *.
  assert (Ho1 : out_ok spi enc ig ek ik o1).
  { constructor; rewrite ?C1, ?C4, ?C5, ?C6; done. }
  destruct (out_seal_packet spi enc ig ek ik o1 (o_seq o) iv packet nh) as [(e & _ & Hbig)|(o2 & d & E2 & Ho2 & Hsame & Hd)];
    [done..|by subst packet|done|lia|].
  rewrite E2. destruct Hsame as (S1 & S2 & S3 & S4). eexists _, _, _. by split_and!; [done|done|congruence|congruence|].
Qed.

(** Whatever the packet, encryption returns. *)
Lemma process_total spi enc ig ek ik o random packet :
  out_ok spi enc ig ek ik o → bytes ek → bytes packet →
  (∃ e, random (IVLen enc) = Err e) ∨ (∃ iv, random (IVLen enc) = Ok iv ∧ bytes iv ∧ len iv = IVLen enc) →
  out_ok spi enc ig ek ik (process o random packet).1.1 ∧ fine (process o random packet).2.
Proof.
  intros Ho Hbk Hbp Hr. pose proof Ho as [Espi Hsel Hk He]. pose proof Hsel as [(prf & dh & Es) _ _ _].
  unfold process. destruct (o_wrapped o); [done|]. rewrite He. destruct packet as [|b r]; [done|].
  replace (len (b :: r) =? 0) with false by llia. change ((b :: r).[0]) with (Ok b : res Z). run.
  destruct (ipNextHeader b) as [nh| | |] eqn:Enh; try (by unfold ipNextHeader in Enh; repeat case_match).
  rewrite Es. destruct Hr as [[e ->]|(iv & Er & Hbi & Hli)]; [done|]. rewrite Er.
  destruct (o_seq o =? 0); [by split; [constructor|]|].
  match goal with |- context [checkFlowTriggers ?x] => destruct (checkFlowTriggers x) as [o1 t] eqn:Ec end.
  apply checkFlowTriggers_codec in Ec as (C1 & C2 & C3 & C4 & C5 & C6). simpl in *.
  assert (Ho1 : out_ok spi enc ig ek ik o1).
  { constructor; rewrite ?C1, ?C4, ?C5, ?C6; done. }
  assert (Hnh : nh = nextHeaderIPv4 ∨ nh = nextHeaderIPv6) by (unfold ipNextHeader in Enh; repeat case_match; naive_solver).
  destruct (out_seal_packet spi enc ig ek ik o1 (o_seq o) iv (b :: r) nh) as [(e & E2 & _)|(o2 & d & E2 & Ho2 & _)]; try done.
  all: cbn [app] in E2; by rewrite E2.
Qed.

Lemma receive_spec spi enc ig ek ik i seq packet d :
  in_ok spi enc ig ek ik i → 0 <= spi < 2 ^ 32 → 1 <= seq < 2 ^ 32 → bytes ek →
  carries spi enc ig ek ik seq packet d →
  ∃ i', ProcessPooled i d =
      (i', if (Accept (i_window i) seq).2 then Ok packet
           else Err "github.com/wsm25/swan/esp: ESP replay window rejected the packet") ∧
    in_ok spi enc ig ek ik i' ∧ i_window i' = (Accept (i_window i) seq).1.
Proof.
  intros Hi Hspi Hseq Hbk (_ & padLen & nh & iv & ct & icv & Hpad & Hbp & Hne & Hnh & Hd).
  unfold ProcessPooled. rewrite (io_err _ _ _ _ _ _ Hi).
  rewrite (in_header_spec spi enc ig ek ik i seq _ d iv ct icv Hi Hspi Hseq Hd).
  destruct (in_open_spec spi enc ig ek ik i seq _ d iv ct icv Hi Hbk (trailer_bytes _ _ _ Hbp Hnh) Hd)
    as (i1 & -> & Hi1 & Hw1). run. rewrite in_strip_pad by done. rewrite Hw1.
  destruct (Accept (i_window i) seq) as [w ok]. cbn [fst snd].
  eexists. split_and!; [done| |done]. by destruct Hi1.
Qed.

(** Sends and deliveries in sequence. *)
Fixpoint send_all (o : Outbound) (sends : list ((Z → res (list Z)) * list Z)) :
    Outbound * list (res (list Z)) :=
  match sends with
  | [] => (o, [])
  | (random, packet) :: sends =>
      let '(o, _, r) := process o random packet in
      let '(o, rs) := send_all o sends in
      (o, r :: rs)
  end.

Fixpoint receive_all (i : Inbound) (ds : list (list Z)) : Inbound * list (res (list Z)) :=
  match ds with
  | [] => (i, [])
  | d :: ds =>
      let '(i, r) := ProcessPooled i d in
      let '(i, rs) := receive_all i ds in
      (i, r :: rs)
  end.

Lemma send_all_spec spi enc ig ek ik sends : bytes ek → ∀ o,
  out_ok spi enc ig ek ik o → o_wrapped o = false → 1 <= o_seq o →
  o_seq o + len sends <= 2 ^ 32 → Forall (λ s, valid_send enc s.1 s.2) sends →
  ∃ ds, (send_all o sends).2 = Ok <$> ds ∧ length ds = length sends ∧
    ∀ k d s, ds !! k = Some d → sends !! k = Some s →
      carries spi enc ig ek ik (o_seq o + Z.of_nat k) s.2 d.
Proof.
  intros Hbk. induction sends as [|[rnd pkt] sends IH]; intros o Ho Hw Hseq Hmax Hv.
  { by exists []. }
  rewrite len_cons in Hmax. pose proof (len_nonneg sends). apply Forall_cons in Hv as [Hv Hvs].
  destruct (process_spec spi enc ig ek ik o rnd pkt Ho Hw ltac:(lia) Hbk Hv)
    as (o1 & t & d & E & Ho1 & Hw1 & Hs1 & Hd). cbn [send_all]. rewrite E.
  destruct sends as [|s0 sends'].
  { exists [d]. split_and!; [done..|]. intros [|k] d' s Hk Hk'; [|by destruct k]. simpl in *.
    simplify_eq. simpl. by rewrite Z.add_0_r. }
  rewrite len_cons in Hmax, H. pose proof (len_nonneg sends').
  assert (Hu : u32 (o_seq o + 1) = o_seq o + 1) by (unfold u32; apply Z.mod_small; lia).
  rewrite Hu in Hs1.
  destruct (IH o1 Ho1 Hw1 ltac:(lia) ltac:(rewrite len_cons; lia) Hvs) as (ds & Eds & Hlen & Hall).
  destruct (send_all o1 (s0 :: sends')) as [o2 rs]. cbn [snd] in *. exists (d :: ds).
  split; [by rewrite Eds|]. split; [simpl in *; lia|].
  intros [|k] d' s Hk Hk'; cbn [lookup list_lookup] in *.
  - simplify_eq. simpl. by rewrite Z.add_0_r.
  - replace (o_seq o + Z.of_nat (S k)) with (o_seq o1 + Z.of_nat k) by lia. by apply Hall.
Qed.

(** What a receiver returns for a delivered packet under the replay verdict. *)
Definition delivery (packet : list Z) (verdict : bool) : res (list Z) :=
  if verdict then Ok packet
  else Err "github.com/wsm25/swan/esp: ESP replay window rejected the packet".

Lemma receive_all_spec spi enc ig ek ik (arrivals : list (Z * list Z * list Z)) :
  bytes ek → 0 <= spi < 2 ^ 32 →
  Forall (λ '(seq, packet, d), 1 <= seq < 2 ^ 32 ∧ carries spi enc ig ek ik seq packet d) arrivals →
  ∀ i, in_ok spi enc ig ek ik i →
  (receive_all i (snd <$> arrivals)).2 =
    zip_with delivery ((λ a, a.1.2) <$> arrivals)
      (AcceptAll (i_window i) ((λ a, a.1.1) <$> arrivals)).2.
Proof.
  intros Hbk Hspi. induction 1 as [|[[seq packet] d] arrivals [Hseq Hd] _ IH]; intros i Hi; [done|].
  rewrite !fmap_cons. cbn [receive_all AcceptAll fst snd].
  destruct (receive_spec spi enc ig ek ik i seq packet d Hi Hspi Hseq Hbk Hd) as (i1 & -> & Hi1 & Hw1).
  destruct (Accept (i_window i) seq) as [w ok] eqn:Ea. cbn [fst snd] in *.
  specialize (IH i1 Hi1). rewrite Hw1 in IH.
  destruct (receive_all i1 _) as [i2 rs]. destruct (AcceptAll w _) as [w2 vs]. cbn [snd] in *.
  rewrite IH. done.
Qed.

(** ** Lemmas: constructors *)

Lemma prepareDirection_ok what sel enc ig k encKey integKey :
  negotiated sel enc ig → len (encKey k) = Enc_KeyLen enc → len (integKey k) = Integ_KeyLen ig →
  ∃ p q, prepareDirection what sel (Some k) encKey integKey = Ok (p, q) ∧
    keyed enc ig (encKey k) (integKey k) (Some p) q.
Proof.
  intros [(prf & dh & ->) (id & kl & Hne) (iid & Hni) Hh] Hk Hi. unfold prepareDirection.
  pose proof (Prepare_accepts id kl enc (encKey k) Hne Hk) as Hp. apply is_ok_true in Hp as (p & Ep).
  rewrite Ep. run. cbn [wrap]. run. destruct (AEAD enc) eqn:Ea; cbn [negb].
  - exists p, None. split; [done|]. constructor; [eauto|]. by rewrite Ea.
  - destruct (Integ_newHMAC ig) as [h|] eqn:Eh; [|by destruct (Hh eq_refl)].
    pose proof (PrepareIntegrity_accepts ig h (integKey k) Eh Hi) as Hq.
    apply is_ok_true in Hq as (q & Eq). rewrite Eq. cbn [wrap]. run.
    exists p, (Some q). split; [done|]. constructor; [eauto|]. intros _. by exists q, [].
Qed.

Lemma NewOutbound_ok cfg enc ig k : negotiated (Out_Selection cfg) enc ig → Out_Keys cfg = Some k →
  len (Child_SKei k) = Enc_KeyLen enc → len (Child_SKai k) = Integ_KeyLen ig →
  ∃ o, NewOutbound cfg = Ok o ∧ out_ok (Out_SPI cfg) enc ig (Child_SKei k) (Child_SKai k) o ∧
    o_wrapped o = false ∧ o_seq o = 1.
Proof.
  intros Hn Hk H1 H2. unfold NewOutbound, prepareOutbound. rewrite Hk.
  destruct (prepareDirection_ok "github.com/wsm25/swan/esp: outbound configuration is incomplete" _ enc ig k Child_SKei Child_SKai Hn H1 H2)
    as (p & q & -> & Hkd). eexists. split; [done|]. split; [|done]. by constructor.
Qed.

Lemma NewInbound_ok cfg enc ig k : negotiated (In_Selection cfg) enc ig → In_Keys cfg = Some k →
  len (Child_SKer k) = Enc_KeyLen enc → len (Child_SKar k) = Integ_KeyLen ig →
  ∃ i, NewInbound cfg = Ok i ∧ in_ok (In_SPI cfg) enc ig (Child_SKer k) (Child_SKar k) i ∧
    i_window i = zero_window.
Proof.
  intros Hn Hk H1 H2. unfold NewInbound, prepareInbound. rewrite Hk.
  destruct (prepareDirection_ok "github.com/wsm25/swan/esp: inbound configuration is incomplete" _ enc ig k Child_SKer Child_SKar Hn H1 H2)
    as (p & q & -> & Hkd). eexists. split; [done|]. split; [|done]. by constructor.
Qed.

(** ** Lemmas: the inbound codec on arbitrary datagrams *)

Lemma AcceptSPI_fine i d : fine (AcceptSPI i d).
Proof. unfold AcceptSPI, espHeaderLen. fine_solve. Qed.

Lemma in_header_fine spi enc ig ek ik i d : in_ok spi enc ig ek ik i → bytes d → fine (in_header i d).
Proof.
  intros [_ [(prf & dh & Es) (id & kl & Hne) (iid & Hni) _] _ _] Hb. unfold in_header. rewrite Es.
  destruct (NewEncryption_wf _ _ _ Hne) as (W & _ & _). pose proof (ew_iv _ W) as Hiv.
  pose proof (ew_icv _ W) as Hicv. pose proof (NewIntegrity_outlen _ _ Hni) as Hol.
  unfold espHeaderLen. apply fine_bind; [apply AcceptSPI_fine|]. intros ok _.
  destruct (negb ok); [done|]. destruct (len d <? 8) eqn:E; [done|].
  apply fine_bind; [fine_solve|]. intros sb Esb. apply fine_bind; [fine_solve|]. intros seq Eseq.
  destruct (seq =? 0); [done|]. apply fine_bind; [by destruct (negb _)|]. intros icvLen Eicv.
  assert (0 <= icvLen). { destruct (AEAD enc); simpl in Eicv; injection Eicv as <-; lia. }
  fine_solve.
Qed.

Lemma in_header_ok spi enc ig ek ik i d enc' seq icvLen iv rest :
  in_ok spi enc ig ek ik i → bytes d → in_header i d = Ok (enc', seq, icvLen, iv, rest) →
  enc' = enc ∧ icvLen = (if AEAD enc then ICVLen enc else Integ_OutputLen ig) ∧ bytes iv ∧ bytes rest ∧
  0 <= icvLen <= len rest ∧ len rest <= len d ∧ 8 <= len d.
Proof.
  intros [_ [(prf & dh & Es) (id & kl & Hne) (iid & Hni) _] _ _] Hb. unfold in_header. rewrite Es.
  destruct (NewEncryption_wf _ _ _ Hne) as (W & _ & _). pose proof (ew_iv _ W) as Hiv.
  pose proof (ew_icv _ W) as Hicv. pose proof (NewIntegrity_outlen _ _ Hni) as Hol.
  unfold espHeaderLen. intros H. apply bind_Ok in H as (ok & _ & H). destruct (negb ok); [done|].
  destruct (len d <? 8) eqn:E; [done|]. apply bind_Ok in H as (sb & _ & H).
  apply bind_Ok in H as (sq & _ & H). destruct (sq =? 0); [done|].
  apply bind_Ok in H as (icv & Eicv & H). apply bind_Ok in H as (body & Ebody & H).
  destruct (len body <? _) eqn:E2; [done|]. apply bind_Ok in H as (iv' & Eiv & H).
  apply bind_Ok in H as (rest' & Erest & H). injection H as <- <- <- <- <-.
  assert (icv = if AEAD enc then ICVLen enc else Integ_OutputLen ig) as ->.
  { destruct (AEAD enc); simpl in Eicv; by injection Eicv as <-. }
  pose proof (bytes_slice _ _ _ _ Hb Ebody) as Bb. unfold slice_from in *.
  pose proof (bytes_slice _ _ _ _ Bb Eiv). pose proof (bytes_slice _ _ _ _ Bb Erest).
  pose proof (slice_len _ _ _ _ Ebody). pose proof (slice_len _ _ _ _ Erest).
  destruct (AEAD enc); split_and!; try done; lia.
Qed.

Lemma OpenTo_fine enc ig ek ik pe pi iv aad ct :
  keyed enc ig ek ik pe pi → (∃ id kl, NewEncryption id kl = Ok enc) → bytes ek → bytes iv →
  bytes aad → bytes ct → fine (OpenTo pe [] iv aad ct).
Proof.
  intros [(p & -> & Hp) _] (id & kl & Hne) ????. rewrite (Open_prepared enc ek) by done.
  apply fine_bind; [by eapply Open_fine|done].
Qed.

Lemma in_strip_fine plain : bytes plain → fine (in_strip plain).
Proof.
  intros Hb. unfold in_strip. destruct (len plain <? 2) eqn:E; [done|].
  apply fine_bind; [fine_solve|]. intros padLen Ep. pose proof (bytes_idx _ _ _ Hb Ep) as [? _].
  fine_solve.
Qed.

Lemma OpenTo_bytes enc ig ek ik pe pi iv aad ct plain :
  keyed enc ig ek ik pe pi → (∃ id kl, NewEncryption id kl = Ok enc) → bytes ek → bytes iv →
  bytes aad → bytes ct → OpenTo pe [] iv aad ct = Ok plain → bytes plain.
Proof.
  intros [(p & -> & Hp) _] (id & kl & Hne) ????. rewrite (Open_prepared enc ek) by done. intros Hb.
  apply bind_Ok in Hb as (r & Ho & Hb). injection Hb as <-. by apply (Open_bytes id kl enc ek iv aad ct).
Qed.

(** Decryption returns, yields bytes and leaves the window alone. *)
Lemma in_open_total spi enc ig ek ik i d icvLen iv rest :
  in_ok spi enc ig ek ik i → bytes ek → bytes d → bytes iv → bytes rest → 8 <= len d →
  0 <= icvLen <= len rest → len rest <= len d →
  let '(i', r) := in_open i d enc icvLen iv rest in
  in_ok spi enc ig ek ik i' ∧ i_window i' = i_window i ∧ fine r ∧
  (∀ plain, r = Ok plain → bytes plain).
Proof.
  intros Hi Hbk Hbd Hbi Hbr Hd Hicv Hle. pose proof Hi as [Espi Hsel Hk He].
  pose proof Hsel as [_ Hne _ _]. pose proof Hk as [_ Hint]. unfold in_open, espHeaderLen.
  destruct (AEAD enc) eqn:Ea.
  - rewrite slice_take by lia. run. split_and!; [done..|apply fine_wrap, (OpenTo_fine enc ig ek ik _ (i_integ i)); bytes_solve|].
    intros plain H%wrap_Ok. apply (OpenTo_bytes enc ig ek ik _ (i_integ i)) in H; bytes_solve.
  - destruct (Hint eq_refl) as (q & h & Eq & Hq). rewrite Eq, slice_take, slice_from_drop by lia. run.
    rewrite slice_take by lia. run.
    set (auth := take _ d). set (ricv := drop _ rest). set (ct := take _ rest).
    pose proof (PreparedVerify_state (after_signing q h) auth ricv) as Evs.
    rewrite after_signing_snoc in Evs.
    destruct (PreparedVerify (after_signing q h) auth ricv) as [q' ok]. cbn [fst] in Evs. subst q'.
    split_and!.
    + constructor; simpl; try done. constructor; [by destruct Hk|]. intros _. eauto.
    + done.
    + destruct ok; [|done]. apply fine_wrap, (OpenTo_fine enc ig ek ik _ (i_integ i)); unfold ct; bytes_solve.
    + intros plain H. destruct ok; [|done]. apply wrap_Ok in H.
      apply (OpenTo_bytes enc ig ek ik _ (i_integ i)) in H; unfold ct; bytes_solve.
Qed.

(** One received datagram, whatever its content. *)
Lemma ProcessPooled_total spi enc ig ek ik i d : in_ok spi enc ig ek ik i → bytes ek → bytes d →
  let '(i', r) := ProcessPooled i d in
  in_ok spi enc ig ek ik i' ∧ fine r ∧ (is_ok r = false → i_window i' = i_window i).
Proof.
  intros Hi Hbk Hbd. unfold ProcessPooled. rewrite (io_err _ _ _ _ _ _ Hi).
  pose proof (in_header_fine spi enc ig ek ik i d Hi Hbd) as Hf.
  destruct (in_header i d) as [[[[[enc' seq] icvLen] iv] rest]|e| |] eqn:Eh; try done.
  destruct (in_header_ok _ _ _ _ _ _ _ _ _ _ _ _ Hi Hbd Eh) as (-> & _ & Bi & Br & H1 & H2 & H3).
  pose proof (in_open_total spi enc ig ek ik i d icvLen iv rest Hi Hbk Hbd Bi Br H3 H1 H2) as Ho.
  destruct (in_open i d enc icvLen iv rest) as [i1 r]. destruct Ho as (Hi1 & Hw & Hfr & Hb).
  assert (Hs : fine (plain ← r; in_strip plain)).
  { apply fine_bind; [done|]. intros plain Ep. apply in_strip_fine. by apply Hb. }
  destruct (plain ← r; in_strip plain) as [inner|e| |]; try done.
  destruct (Accept (i_window i1) seq) as [w ok] eqn:Ea. split_and!.
  - by destruct Hi1.
  - by destruct ok.
  - destruct ok; [done|]. intros _. cbn [set_window i_window]. rewrite <- Hw.
    pose proof (Accept_reject (i_window i1) seq) as R. rewrite Ea in R. by apply R.
Qed.

Lemma receive_all_total spi enc ig ek ik ds : bytes ek → Forall bytes ds → ∀ i,
  in_ok spi enc ig ek ik i → Forall fine (receive_all i ds).2 ∧ in_ok spi enc ig ek ik (receive_all i ds).1.
Proof.
  intros Hbk Hds. induction Hds as [|d ds Hd _ IH]; intros i Hi; [done|]. cbn [receive_all].
  pose proof (ProcessPooled_total spi enc ig ek ik i d Hi Hbk Hd) as H.
  destruct (ProcessPooled i d) as [i1 r]. destruct H as (Hi1 & Hf & _). destruct (IH i1 Hi1) as [I1 I2].
  destruct (receive_all i1 ds) as [i2 rs]. split; [by constructor|done].
Qed.

End EspLemmas.

(* ------------------------------------------------------------------ *)
(** ** Lemmas: sequence numbers and flow triggers *)

Section EspSequence.
Context {C : Crypto}.

Definition trigger_all (o : Outbound) (sends : list ((Z → res (list Z)) * list Z)) : list bool :=
  (fix go o sends := match sends with
   | [] => []
   | (random, packet) :: sends => let '(o, t, _) := process o random packet in t :: go o sends
   end) o sends.

(** The sequence number in a datagram's header. *)
Definition seq_of (d : list Z) : option Z :=
  match (b ← d.[4, 8]; beUint32 b) with Ok v => Some v | _ => None end.

Definition emitted (rs : list (res (list Z))) : list Z :=
  omap (λ r, match r with Ok d => seq_of d | _ => None end) rs.

Lemma seq_of_header spi seq tail : 0 <= seq < 2 ^ 32 → seq_of (esp_header spi seq ++ tail) = Some seq.
Proof.
  intros H. unfold seq_of, esp_header. rewrite <- app_assoc.
  rewrite (slice_mid (putUint32 spi)) by done. run. by rewrite beUint32_put'.
Qed.

(** How one call moves the counter, the trigger flag and the fatal flag. *)
Record process_step (o o' : Outbound) (t : bool) (r : res (list Z)) : Prop := {
  ps_ok : is_ok r = true → o_wrapped o = false ∧ o_seq o ≠ 0 ∧ o_seq o' = u32 (o_seq o + 1) ∧
          ∃ tail, r = Ok (esp_header (Out_SPI (o_cfg o)) (o_seq o) ++ tail);
  ps_seq : o_seq o' = o_seq o ∨ (o_seq o ≠ 0 ∧ o_seq o' = u32 (o_seq o + 1));
  ps_wrapped : o_wrapped o = true → o' = o ∧ r = Err ErrSeqWrapped;
  ps_fire : t = true → o_warned o = false ∧ o_warned o' = true;
  ps_once : o_warned o = true → o_warned o' = true }.

Lemma process_step_idle o r : is_ok r = false → (o_wrapped o = true → r = Err ErrSeqWrapped) →
  process_step o o false r.
Proof. intros Hr Hw. constructor; try done; [by rewrite Hr|by left|]. intros H. by split; [|apply Hw]. Qed.

Lemma out_seal_keeps o enc integ seq iv plain : let '(o', r) := out_seal o enc integ seq iv plain in
  o_seq o' = o_seq o ∧ o_warned o' = o_warned o ∧
  (∀ d, r = Ok d → ∃ tail, d = esp_header (Out_SPI (o_cfg o)) seq ++ tail).
Proof.
  unfold out_seal. fold (esp_header (Out_SPI (o_cfg o)) seq). destruct (_ <? _); [done|].
  destruct (SealTo _ _ _ _ _) as [d|e| |] eqn:E; cbn [wrap]; try done.
  apply SealTo_prefix in E as (r & ->). destruct (negb (AEAD enc)).
  - unfold out_sign. destruct (o_integ o) as [q|]; [|done]. destruct (PreparedSign q _) as [q' s].
    split_and!; [done..|]. intros d H. apply bind_Ok in H as (icv & _ & H). apply Ok_inj in H. subst d.
    rewrite <- !app_assoc. by eexists.
  - split_and!; [done..|]. intros d H. apply Ok_inj in H. subst d. rewrite <- app_assoc. by eexists.
Qed.

Lemma checkFlowTriggers_once o o' t : checkFlowTriggers o = (o', t) →
  (t = true → o_warned o = false ∧ o_warned o' = true) ∧ (o_warned o = true → o_warned o' = true).
Proof.
  unfold checkFlowTriggers. destruct (o_warned o) eqn:E; simpl; [intros [= <- <-]; by rewrite E|].
  destruct (negb (FlowWarn _)); [by intros [= <- <-]|]. destruct (negb _ && negb _); by intros [= <- <-].
Qed.

Lemma process_steps o random packet :
  let '(o', t, r) := process o random packet in process_step o o' t r.
Proof.
  unfold process. destruct (o_wrapped o) eqn:Ew; [by apply process_step_idle|].
  assert (I : ∀ r, is_ok r = false → process_step o o false r).
  { intros r Hr. apply process_step_idle; [done|]. by rewrite Ew. }
  destruct (o_stateErr o); [by apply I|]. destruct (len packet =? 0); [by apply I|].
  destruct (first ← _; _) as [nh|e| |]; try by apply I.
  destruct (Out_Selection _) as [[[enc|] integ prf dh]|]; try by apply I.
  destruct (random (IVLen enc)) as [iv|e| |]; try by apply I.
  destruct (o_seq o =? 0) eqn:E0.
  { constructor; simpl; try done; [by left|]. by rewrite Ew. }
  destruct (checkFlowTriggers _) as [o1 t] eqn:Ec.
  pose proof (checkFlowTriggers_codec _ _ _ Ec) as (C1 & C2 & C3 & _).
  destruct (checkFlowTriggers_once _ _ _ Ec) as [F1 F2]. simpl in *.
  match goal with |- context [out_seal ?a ?b ?c ?d ?e ?f] =>
    pose proof (out_seal_keeps a b c d e f) as K; destruct (out_seal a b c d e f) as [o2 r] end.
  destruct K as (K1 & K2 & K3). rewrite C1 in K3. constructor.
  - intros Hr. split_and!; [done|lia|congruence|]. apply is_ok_true in Hr as (d & ->).
    destruct (K3 d eq_refl) as (tail & ->). eauto.
  - right. split; [lia|congruence].
  - by rewrite Ew.
  - intros Ht. destruct (F1 Ht). split; [done|congruence].
  - intros Hw. rewrite K2. auto.
Qed.

Lemma u32_succ s : 0 <= s < 2 ^ 32 → u32 (s + 1) = if s =? 2 ^ 32 - 1 then 0 else s + 1.
Proof.
  intros Hs. unfold u32. destruct (s =? 2 ^ 32 - 1) eqn:E; [|apply Z.mod_small; lia].
  by replace (s + 1) with (2 ^ 32) by lia.
Qed.

Lemma send_all_sorted sends : ∀ o, 0 <= o_seq o < 2 ^ 32 →
  let es := emitted (send_all o sends).2 in
  StronglySorted Z.lt es ∧ Forall (λ s, 1 <= s ∧ o_seq o <= s < 2 ^ 32) es ∧ (o_seq o = 0 → es = []).
Proof.
  induction sends as [|[rnd pkt] sends IH]; intros o Ho; cbn [send_all].
  { split_and!; constructor. }
  pose proof (process_steps o rnd pkt) as P. destruct (process o rnd pkt) as [[o1 t] r].
  destruct P as [P1 P2 _ _ _].
  assert (Ho1 : 0 <= o_seq o1 < 2 ^ 32).
  { destruct P2 as [-> | [_ ->]]; [done|]. unfold u32. apply Z.mod_pos_bound. lia. }
  specialize (IH o1 Ho1). destruct (send_all o1 sends) as [o2 rs]. cbn [snd] in *.
  destruct IH as (I1 & I2 & I3). unfold emitted. cbn [omap list_omap]. fold (emitted rs).
  assert (Hup : o_seq o ≠ 0 → o_seq o1 = u32 (o_seq o + 1) →
    Forall (λ s, 1 <= s ∧ o_seq o < s < 2 ^ 32) (emitted rs)).
  { intros Hz E. rewrite u32_succ in E by done. destruct (_ =? _) eqn:Em.
    - by rewrite (I3 E).
    - eapply Forall_impl; [exact I2|]. simpl. lia. }
  destruct (is_ok r) eqn:Er.
  - destruct (P1 eq_refl) as (_ & Hz & Hs & tail & ->). rewrite seq_of_header by lia.
    specialize (Hup Hz Hs). split_and!; [|constructor; [lia|]|done].
    + constructor; [done|]. eapply Forall_impl; [exact Hup|]. simpl. lia.
    + eapply Forall_impl; [exact Hup|]. simpl. lia.
  - assert (Forall (λ s, 1 <= s ∧ o_seq o <= s < 2 ^ 32) (emitted rs)).
    { destruct P2 as [E|[Hz E]]; [by rewrite <- E|]. eapply Forall_impl; [by apply Hup|]. simpl. lia. }
    destruct r; try done; split_and!; try done; intros Hz; apply I3; destruct P2 as [|[]]; lia.
Qed.

Lemma send_all_sticky sends : ∀ o, o_wrapped o = true →
  Forall (λ r, r = Err ErrSeqWrapped) (send_all o sends).2.
Proof.
  induction sends as [|[rnd pkt] sends IH]; intros o Ho; cbn [send_all]; [constructor|].
  pose proof (process_steps o rnd pkt) as P. destruct (process o rnd pkt) as [[o1 t] r].
  destruct (ps_wrapped _ _ _ _ P Ho) as [-> ->]. specialize (IH o Ho).
  destruct (send_all o sends) as [o2 rs]. by constructor.
Qed.

Lemma trigger_all_once sends : ∀ o,
  (length (filter (λ t, t = true) (trigger_all o sends)) <= if o_warned o then 0 else 1)%nat.
Proof.
  induction sends as [|[rnd pkt] sends IH]; intros o; [simpl; lia|]. cbn [trigger_all].
  pose proof (process_steps o rnd pkt) as P. destruct (process o rnd pkt) as [[o1 t] r].
  specialize (IH o1). fold (trigger_all o1 sends). destruct P as [_ _ _ P1 P2].
  destruct t.
  - rewrite filter_cons_True by done. destruct (P1 eq_refl) as [-> E]. rewrite E in IH. simpl. lia.
  - rewrite filter_cons_False by done. destruct (o_warned o); [by rewrite P2 in IH|].
    destruct (o_warned o1); lia.
Qed.

End EspSequence.

(* ------------------------------------------------------------------ *)
(** ** pipeline.go *)

(** The atomically published codec table and outbound codec, and the error
    [fatalOnce] let through. A codec is stored under its own SPI only, so
    updating the entry is updating the shared object. *)
Record Pipeline := mkPipeline {
  pl_inbound : option (gmap Z Inbound);
  pl_outbound : option Outbound;
  pl_fatal : option string }.

Definition codec_spi (i : Inbound) : Z := In_SPI (i_cfg i).

Definition NewPipeline (inbound : option Inbound) (outbound : option Outbound) : Pipeline :=
  let table : gmap Z Inbound :=
    match inbound with Some i => {[codec_spi i := i]} | None => ∅ end in
  mkPipeline (Some table) outbound None.

Definition ReplaceChild (p : Pipeline) (inbound : option Inbound) (outbound : option Outbound)
    (oldInboundSPI : Z) : Pipeline :=
  match inbound with
  | None => p
  | Some i =>
      let table : gmap Z Inbound :=
        match pl_inbound p with
        | Some old => filter (λ e, e.1 ≠ codec_spi i) old
        | None => ∅
        end in
      mkPipeline (Some (<[codec_spi i := i]> table))
        (match outbound with Some o => Some o | None => pl_outbound p end) (pl_fatal p)
  end.

Definition DropInboundSPI (p : Pipeline) (spi : Z) : Pipeline :=
  if spi =? 0 then p
  else match pl_inbound p with
  | None => p
  | Some old =>
      match old !! spi with
      | None => p
      | Some _ => mkPipeline (Some (filter (λ e, e.1 ≠ spi) old)) (pl_outbound p) (pl_fatal p)
      end
  end.

Definition reportFatal (p : Pipeline) (err : string) : Pipeline :=
  match pl_fatal p with
  | Some _ => p
  | None => mkPipeline (pl_inbound p) (pl_outbound p) (Some err)
  end.

Section Pipeline.
Context {C : Crypto}.

Definition processInbound (p : Pipeline) (payload : list Z) : Pipeline * res (list Z) :=
  if len payload <? 4 then (p, Err "github.com/wsm25/swan/esp: ESP packet too short for SPI")
  else match pl_inbound p with
  | None => (p, Err "github.com/wsm25/swan/esp: inbound codec table missing")
  | Some table =>
      match (b ← payload.[0, 4]; beUint32 b) with
      | Ok spi =>
          match table !! spi with
          | None => (p, Err "github.com/wsm25/swan/esp: ESP SPI does not match a known inbound SPI")
          | Some codec =>
              let '(codec, r) := ProcessPooled codec payload in
              (mkPipeline (Some (<[spi := codec]> table)) (pl_outbound p) (pl_fatal p), r)
          end
      | Err e => (p, Err e) | Panic => (p, Panic) | Hang => (p, Hang)
      end
  end.

Lemma ReplaceChild_lookup p i out old table spi : pl_inbound p = Some table →
  ∃ table', pl_inbound (ReplaceChild p (Some i) out old) = Some table' ∧
    table' !! spi = if decide (spi = codec_spi i) then Some i else table !! spi.
Proof.
  intros Hp. simpl. rewrite Hp. eexists. split; [done|]. destruct (decide _) as [->|Hne].
  - by rewrite lookup_insert_eq.
  - rewrite lookup_insert_ne by done. destruct (table !! spi) eqn:E.
    + by apply map_lookup_filter_Some_2.
    + apply map_lookup_filter_None_2. by left.
Qed.

Lemma DropInboundSPI_lookup p table spi s : pl_inbound p = Some table → spi ≠ 0 →
  ∃ table', pl_inbound (DropInboundSPI p spi) = Some table' ∧
    table' !! s = if decide (s = spi) then None else table !! s.
Proof.
  intros Hp Hz. unfold DropInboundSPI. replace (spi =? 0) with false by lia. rewrite Hp.
  destruct (table !! spi) eqn:E.
  - eexists. split; [done|]. destruct (decide _) as [->|Hne].
    + apply map_lookup_filter_None_2. right. intros x _. by intros [].
    + destruct (table !! s) eqn:E'.
      * by apply map_lookup_filter_Some_2.
      * apply map_lookup_filter_None_2. by left.
  - exists table. split; [done|]. destruct (decide _) as [->|]; done.
Qed.

Lemma processInbound_known p table spi codec d : pl_inbound p = Some table → 4 <= len d →
  (b ← d.[0, 4]; beUint32 b) = Ok spi → table !! spi = Some codec →
  processInbound p d = (mkPipeline (Some (<[spi := (ProcessPooled codec d).1]> table)) (pl_outbound p)
                          (pl_fatal p), (ProcessPooled codec d).2).
Proof.
  intros Hp Hl Hspi Ht. unfold processInbound. replace (len d <? 4) with false by lia.
  rewrite Hp, Hspi, Ht. by destruct (ProcessPooled codec d).
Qed.

Lemma processInbound_unknown p table spi d : pl_inbound p = Some table → 4 <= len d →
  (b ← d.[0, 4]; beUint32 b) = Ok spi → table !! spi = None →
  processInbound p d = (p, Err "github.com/wsm25/swan/esp: ESP SPI does not match a known inbound SPI").
Proof.
  intros Hp Hl Hspi Ht. unfold processInbound. replace (len d <? 4) with false by lia.
  by rewrite Hp, Hspi, Ht.
Qed.

End Pipeline.

(* ------------------------------------------------------------------ *)
(** ** Properties *)

Lemma esp_delivers {C : Crypto} {L : CryptoLaws} (ocfg : OutboundConfig) (icfg : InboundConfig)
    (enc : EncryptionAlg) (ig : Integrity) (kx ky : ChildKeys)
    (sends : list ((Z → res (list Z)) * list Z)) (order : list nat) :
  negotiated (Out_Selection ocfg) enc ig → In_Selection icfg = Out_Selection ocfg →
  In_SPI icfg = Out_SPI ocfg → 0 <= Out_SPI ocfg < 2 ^ 32 →
  Out_Keys ocfg = Some kx → In_Keys icfg = Some ky →
  Child_SKer ky = Child_SKei kx → Child_SKar ky = Child_SKai kx →
  bytes (Child_SKei kx) → len (Child_SKei kx) = Enc_KeyLen enc →
  len (Child_SKai kx) = Integ_KeyLen ig →
  Forall (λ s, valid_send enc s.1 s.2) sends → len sends < 2 ^ 32 →
  Forall (λ k, (k < length sends)%nat) order →
  ∃ o i ds, NewOutbound ocfg = Ok o ∧ NewInbound icfg = Ok i ∧
    (send_all o sends).2 = Ok <$> ds ∧ length ds = length sends ∧
    (receive_all i ((λ k, ds !!! k) <$> order)).2 =
      zip_with delivery ((λ k, (snd <$> sends) !!! k) <$> order)
        (spec_all ∅ ((λ k, Z.of_nat k + 1) <$> order)).2.
Proof.
  intros Hn Hsel Hspi Hspir Hkx Hky He Ha Hb Hle Hla Hv Hlen Hord.
  destruct (NewOutbound_ok ocfg enc ig kx Hn Hkx Hle Hla) as (o & Eo & Ho & Hw & Hs).
  destruct (NewInbound_ok icfg enc ig ky) as (i & Ei & Hi & Hwin); [by rewrite Hsel|done|congruence..|].
  rewrite Hspi, He, Ha in Hi.
  destruct (send_all_spec (Out_SPI ocfg) enc ig (Child_SKei kx) (Child_SKai kx) sends Hb o)
    as (ds & Eds & Hdl & Hall); [done|done|lia|lia|done|].
  exists o, i, ds. split_and!; [done..|].
  set (arrivals := (λ k, (Z.of_nat k + 1, (snd <$> sends) !!! k, ds !!! k)) <$> order).
  assert (Hrec := receive_all_spec (Out_SPI ocfg) enc ig (Child_SKei kx) (Child_SKai kx) arrivals Hb Hspir).
  assert (Hf : Forall (λ '(seq, packet, d), 1 <= seq < 2 ^ 32 ∧
    carries (Out_SPI ocfg) enc ig (Child_SKei kx) (Child_SKai kx) seq packet d) arrivals).
  { apply Forall_fmap. eapply Forall_impl; [exact Hord|]. intros k Hk. cbv beta in Hk. unfold compose.
    split; [unfold len in Hlen; lia|].
    destruct (lookup_lt_is_Some_2 ds k) as [d Hd]; [lia|].
    destruct (lookup_lt_is_Some_2 sends k) as [[rnd pkt] Hp]; [lia|].
    rewrite (list_lookup_total_correct ds k d Hd).
    rewrite (list_lookup_total_correct (snd <$> sends) k pkt) by by rewrite list_lookup_fmap, Hp.
    replace (Z.of_nat k + 1) with (o_seq o + Z.of_nat k) by lia. by apply (Hall k d (rnd, pkt)). }
  specialize (Hrec Hf i Hi). rewrite Hwin in Hrec. unfold arrivals in Hrec.
  rewrite <- !list_fmap_compose in Hrec.
  assert (Hok : seqs_ok ((λ k, Z.of_nat k + 1) <$> order)).
  { apply Forall_fmap. eapply Forall_impl; [exact Hord|]. intros k Hk. cbv beta in Hk. unfold compose. unfold len in Hlen. lia. }
  destruct (AcceptAll_refines _ _ _ zero_window_rep Hok) as [<- _]. exact Hrec.
Qed.

(** End-to-end delivery over a CHILD_SA. With the sender's SK_ei/SK_ai as
    the receiver's SK_er/SK_ar, sending fewer than 2^32 IP packets succeeds for
    each of them, and when the datagrams arrive in any order, with any loss and
    duplication ([order] lists the arrivals), the receiver returns for every
    arrival exactly the packet that was sent, or the replay error - according
    to the set-based replay specification on the numbers 1, 2, .... *)
Theorem esp_delivery {C : Crypto} {L : CryptoLaws} (ocfg : OutboundConfig) (icfg : InboundConfig)
    (enc : EncryptionAlg) (ig : Integrity) (kx ky : ChildKeys)
    (sends : list ((Z → res (list Z)) * list Z)) (order : list nat) :
  negotiated (Out_Selection ocfg) enc ig → In_Selection icfg = Out_Selection ocfg →
  In_SPI icfg = Out_SPI ocfg → 0 <= Out_SPI ocfg < 2 ^ 32 →
  Out_Keys ocfg = Some kx → In_Keys icfg = Some ky →
  Child_SKer ky = Child_SKei kx → Child_SKar ky = Child_SKai kx →
  bytes (Child_SKei kx) → len (Child_SKei kx) = Enc_KeyLen enc →
  len (Child_SKai kx) = Integ_KeyLen ig →
  Forall (λ s, valid_send enc s.1 s.2) sends → len sends < 2 ^ 32 →
  Forall (λ k, (k < length sends)%nat) order →
  ∃ o i ds, NewOutbound ocfg = Ok o ∧ NewInbound icfg = Ok i ∧
    (send_all o sends).2 = Ok <$> ds ∧ length ds = length sends ∧
    (receive_all i ((λ k, ds !!! k) <$> order)).2 =
      zip_with delivery ((λ k, (snd <$> sends) !!! k) <$> order)
        (spec_all ∅ ((λ k, Z.of_nat k + 1) <$> order)).2.
Proof. apply esp_delivers. Qed.

(** A datagram from the network can neither crash the data plane nor move
    the replay window unless it is authenticated: after any sequence of
    datagrams, processing one more returns (a packet or an error), and an error
    leaves the window untouched. *)
Theorem inbound_robust {C : Crypto} {L : CryptoLaws} (cfg : InboundConfig) (enc : EncryptionAlg)
    (ig : Integrity) (k : ChildKeys) (history : list (list Z)) (d : list Z) :
  negotiated (In_Selection cfg) enc ig → In_Keys cfg = Some k →
  bytes (Child_SKer k) → len (Child_SKer k) = Enc_KeyLen enc →
  len (Child_SKar k) = Integ_KeyLen ig →
  Forall bytes history → bytes d →
  ∃ i, NewInbound cfg = Ok i ∧ Forall fine (receive_all i history).2 ∧
    let i1 := (receive_all i history).1 in
    fine (ProcessPooled i1 d).2 ∧
    (is_ok (ProcessPooled i1 d).2 = false → i_window (ProcessPooled i1 d).1 = i_window i1).
Proof.
  intros Hn Hk Hb Hle Hla Hh Hd.
  destruct (NewInbound_ok cfg enc ig k Hn Hk Hle Hla) as (i & Ei & Hi & _). exists i. split; [done|].
  destruct (receive_all_total _ _ _ _ _ history Hb Hh i Hi) as [Hf Hi1]. split; [done|]. cbv zeta.
  pose proof (ProcessPooled_total _ _ _ _ _ _ d Hi1 Hb Hd) as P.
  destruct (ProcessPooled _ d) as [i2 r]. by destruct P as (_ & ? & ?).
Qed.

(** [C40] Sequence numbers: whatever packets are sent on an SA (also ones that
    fail), the datagrams produced carry strictly increasing numbers between 1
    and 2^32-1; once the counter has wrapped every further call returns
    [ErrSeqWrapped]; and the rekey trigger fires at most once. *)
Theorem esp_sequence {C : Crypto} (cfg : OutboundConfig) (o : Outbound)
    (sends : list ((Z → res (list Z)) * list Z)) :
  NewOutbound cfg = Ok o →
  StronglySorted Z.lt (emitted (send_all o sends).2) ∧
  Forall (λ s, 1 <= s < 2 ^ 32) (emitted (send_all o sends).2) ∧
  (o_wrapped (send_all o sends).1 = true → ∀ more,
     Forall (λ r, r = Err ErrSeqWrapped) (send_all (send_all o sends).1 more).2) ∧
  (length (filter (λ t, t = true) (trigger_all o sends)) <= 1)%nat.
Proof.
  intros Ho. assert (Hs : o_seq o = 1 ∧ o_warned o = false).
  { unfold NewOutbound in Ho. destruct (prepareOutbound cfg) as [[e i]|e| |]; by simplify_eq. }
  destruct Hs as [Hs Hw]. destruct (send_all_sorted sends o ltac:(lia)) as (H1 & H2 & _).
  split_and!; [done| |intros; by apply send_all_sticky|].
  - eapply Forall_impl; [exact H2|]. simpl. lia.
  - pose proof (trigger_all_once sends o) as H. by rewrite Hw in H.
Qed.

(** Make-before-break: installing a new CHILD_SA keeps every other inbound
    codec working with its own replay state - a datagram with the old SPI is
    processed by the old codec and updates only that codec - until its SPI is
    dropped, after which the datagram is refused. This holds for every value of
    [oldInboundSPI], also 0 (the comment on [ReplaceChild] says that 0 keeps
    only the new codec). *)
Theorem make_before_break {C : Crypto} (pl : Pipeline) (table : gmap Z Inbound)
    (old new : Inbound) (out : option Outbound) (oldSPI spi : Z) (d : list Z) :
  pl_inbound pl = Some table → table !! spi = Some old → spi ≠ codec_spi new → spi ≠ 0 →
  4 <= len d → (b ← d.[0, 4]; beUint32 b) = Ok spi →
  let pl1 := ReplaceChild pl (Some new) out oldSPI in
  let pl2 := (processInbound pl1 d).1 in
  (processInbound pl1 d).2 = (ProcessPooled old d).2 ∧
  (∃ t, pl_inbound pl2 = Some t ∧ t !! spi = Some (ProcessPooled old d).1 ∧
        t !! codec_spi new = Some new ∧
        ∀ s, s ≠ spi → s ≠ codec_spi new → t !! s = table !! s) ∧
  (processInbound (DropInboundSPI pl2 spi) d).2 =
    Err "github.com/wsm25/swan/esp: ESP SPI does not match a known inbound SPI" ∧
  (∃ t, pl_inbound (DropInboundSPI pl2 spi) = Some t ∧ t !! codec_spi new = Some new).
Proof.
  intros Hp Ht Hne Hz Hl Hspi. cbv zeta.
  destruct (ReplaceChild_lookup pl new out oldSPI table spi Hp) as (t1 & E1 & L1).
  rewrite decide_False in L1 by done. rewrite Ht in L1.
  rewrite (processInbound_known _ t1 spi old d E1 Hl Hspi L1). cbn [fst snd].
  set (pl2 := mkPipeline _ _ _). set (t2 := <[spi := _]> t1) in *.
  assert (E2 : pl_inbound pl2 = Some t2) by done.
  assert (L2 : ∀ s, s ≠ spi → t2 !! s = if decide (s = codec_spi new) then Some new else table !! s).
  { intros s Hs. unfold t2. rewrite lookup_insert_ne by done.
    destruct (ReplaceChild_lookup pl new out oldSPI table s Hp) as (t1' & E1' & L1').
    rewrite E1 in E1'. by injection E1' as <-. }
  destruct (DropInboundSPI_lookup pl2 t2 spi spi E2 Hz) as (t3 & E3 & L3).
  rewrite decide_True in L3 by done.
  destruct (DropInboundSPI_lookup pl2 t2 spi (codec_spi new) E2 Hz) as (t3' & E3' & L3').
  rewrite decide_False in L3' by done. rewrite E3 in E3'. injection E3' as <-.
  split_and!; [done| | |].
  - exists t2. split_and!; [done|apply lookup_insert_eq| |].
    + rewrite L2 by done. by rewrite decide_True.
    + intros s H1 H2. rewrite L2 by done. by rewrite decide_False.
  - by rewrite (processInbound_unknown _ t3 spi).
  - exists t3. split; [done|]. rewrite L3', L2 by done. by rewrite decide_True.
Qed.

(* ------------------------------------------------------------------ *)
(** ** Witnesses *)

Definition sample_enc : EncryptionAlg :=
  mkEncryptionAlg TransformEncryptionAESCBC "aes128" 16 16 0 16 16 0 false.
Definition sample_integ : Integrity := mkIntegrity TransformIntegrityHMACSHA196 12 20 (Some HashSHA1).
Definition sample_selection : option Selection :=
  Some (mkSelection (Some sample_enc) (Some sample_integ) None None).
Definition sample_keys : ChildKeys :=
  mkChildKeys (sample_key 16) (sample_key 20) (sample_key 16) (sample_key 20).
Definition sample_ocfg : OutboundConfig :=
  mkOutboundConfig 4096 sample_selection (Some sample_keys) 0 true (mkFlowLimit 0 2).
Definition sample_icfg : InboundConfig := mkInboundConfig 4096 sample_selection (Some sample_keys).
Definition sample_sends : list ((Z → res (list Z)) * list Z) :=
  [((λ n, Ok (zeros n)), [69; 1; 2]); ((λ n, Ok (zeros n)), [96; 7])].

Lemma sample_negotiated : negotiated sample_selection sample_enc sample_integ.
Proof.
  constructor; [by eexists _, _|by exists TransformEncryptionAESCBC, 16|
    by exists TransformIntegrityHMACSHA196|done].
Qed.

Lemma sample_sends_valid : Forall (λ s, valid_send sample_enc s.1 s.2) sample_sends.
Proof.
  repeat apply Forall_cons_2; [..|by apply Forall_nil_2]; (constructor; simpl;
    [exists (zeros 16); split_and!; [done|apply zeros_bytes|done]
    |by apply (bool_decide_unpack _)|vm_compute; discriminate|]); eexists _, _; (split; [done|]).
  - by left.
  - by right.
Qed.

Lemma esp_delivery_witness : ∃ o i ds, NewOutbound sample_ocfg = Ok o ∧ NewInbound sample_icfg = Ok i ∧
    (send_all (C := xor_crypto) o sample_sends).2 = Ok <$> ds ∧ length ds = length sample_sends ∧
    (receive_all (C := xor_crypto) i ((λ k, ds !!! k) <$> [1%nat; 0%nat; 1%nat])).2 =
      zip_with delivery ((λ k, (snd <$> sample_sends) !!! k) <$> [1%nat; 0%nat; 1%nat])
        (spec_all ∅ ((λ k, Z.of_nat k + 1) <$> [1%nat; 0%nat; 1%nat])).2.
Proof.
  apply (esp_delivery (C := xor_crypto) (L := xor_crypto_laws) sample_ocfg sample_icfg sample_enc
    sample_integ sample_keys sample_keys); try reflexivity.
  - exact sample_negotiated.
  - simpl. lia.
  - by apply (bool_decide_unpack _).
  - exact sample_sends_valid.
  - by apply (bool_decide_unpack _).
Defined.

Lemma inbound_robust_witness : ∃ i, NewInbound sample_icfg = Ok i ∧
    Forall fine (receive_all (C := xor_crypto) i [[0; 0; 16; 0]; []]).2 ∧
    let i1 := (receive_all (C := xor_crypto) i [[0; 0; 16; 0]; []]).1 in
    fine (ProcessPooled (C := xor_crypto) i1 [1; 2; 3]).2 ∧
    (is_ok (ProcessPooled (C := xor_crypto) i1 [1; 2; 3]).2 = false →
     i_window (ProcessPooled (C := xor_crypto) i1 [1; 2; 3]).1 = i_window i1).
Proof.
  apply (inbound_robust (C := xor_crypto) (L := xor_crypto_laws) sample_icfg sample_enc sample_integ
    sample_keys); try reflexivity; [exact sample_negotiated|by apply (bool_decide_unpack _)..].
Defined.

Lemma esp_sequence_witness : ∃ o, NewOutbound sample_ocfg = Ok o ∧
  StronglySorted Z.lt (emitted (send_all (C := xor_crypto) o sample_sends).2) ∧
  Forall (λ s, 1 <= s < 2 ^ 32) (emitted (send_all (C := xor_crypto) o sample_sends).2) ∧
  (o_wrapped (send_all (C := xor_crypto) o sample_sends).1 = true → ∀ more,
     Forall (λ r, r = Err ErrSeqWrapped)
       (send_all (C := xor_crypto) (send_all (C := xor_crypto) o sample_sends).1 more).2) ∧
  (length (filter (λ t, t = true) (trigger_all (C := xor_crypto) o sample_sends)) <= 1)%nat.
Proof.
  eexists. split; [reflexivity|]. apply (esp_sequence (C := xor_crypto) sample_ocfg). reflexivity.
Defined.

Definition sample_inbound (spi : Z) : Inbound :=
  mkInbound (mkInboundConfig spi sample_selection (Some sample_keys)) zero_window None None None.
Definition sample_pipeline : Pipeline := NewPipeline (Some (sample_inbound 5)) None.

Lemma make_before_break_witness :
  let pl1 := ReplaceChild sample_pipeline (Some (sample_inbound 6)) None 5 in
  let pl2 := (processInbound (C := xor_crypto) pl1 [0; 0; 0; 5; 9]).1 in
  (processInbound (C := xor_crypto) pl1 [0; 0; 0; 5; 9]).2
    = (ProcessPooled (C := xor_crypto) (sample_inbound 5) [0; 0; 0; 5; 9]).2 ∧
  (∃ t, pl_inbound pl2 = Some t ∧
        t !! 5 = Some (ProcessPooled (C := xor_crypto) (sample_inbound 5) [0; 0; 0; 5; 9]).1 ∧
        t !! codec_spi (sample_inbound 6) = Some (sample_inbound 6) ∧
        ∀ s, s ≠ 5 → s ≠ codec_spi (sample_inbound 6) →
          t !! s = ({[5 := sample_inbound 5]} : gmap Z Inbound) !! s) ∧
  (processInbound (C := xor_crypto) (DropInboundSPI pl2 5) [0; 0; 0; 5; 9]).2 =
    Err "github.com/wsm25/swan/esp: ESP SPI does not match a known inbound SPI" ∧
  (∃ t, pl_inbound (DropInboundSPI pl2 5) = Some t ∧
        t !! codec_spi (sample_inbound 6) = Some (sample_inbound 6)).
Proof.
  apply (make_before_break (C := xor_crypto) sample_pipeline {[5 := sample_inbound 5]}
    (sample_inbound 5) (sample_inbound 6) None 5 5 [0; 0; 0; 5; 9]); try reflexivity; try done.
Defined.
