(* ===== verification/Protected.v ===== *)
(** * Protected IKE messages (src/control/protected.go)

    SK and SKF envelopes: padding, sealing under the directional IKE keys,
    fragmentation of large plaintexts, opening of received packets and the
    reassembly of fragments. A per-SA context is an [ikeEnvelope]; the only
    mutable state the receiving side touches is [state.InboundFragments]. Time
    is in nanoseconds and the clock reading is an argument. *)

From S2P Require Import Prelude Suite Crypto Cipher Payload Keying Wire.

Definition FragmentPlaintextLimit : Z := 1024.
Definition SkfReassemblyTimeout : Z := 15 * 1000000000.
Definition skfFirstPayloadUnset : Z := 255.

Record PeerCapabilities := mkPeerCapabilities {
  SupportsEAPOnlyAuthentication : bool;
  SupportsMessageIDSync : bool;
  SupportsFragmentation : bool }.

Record ikeEnvelope := mkIkeEnvelope {
  Env_InitiatorSPI : Z;
  Env_ResponderSPI : Z;
  Env_IsOriginalInitiator : bool;
  Env_SelectedIKE : option Selection;
  Env_IKEKeys : option IKEKeys;
  Env_Peer : PeerCapabilities }.

Record FragmentReassembly := mkFragmentReassembly {
  FR_ExchangeType : Z;
  FR_MessageID : Z;
  FirstInnerPayload : Z;
  Fragments : list (option (list Z));
  ExpiresAt : Z }.

(* ------------------------------------------------------------------ *)
(** ** Roles and keys *)

Definition requestFlags (env : ikeEnvelope) : Z :=
  if Env_IsOriginalInitiator env then FlagInitiator else 0.

Definition responseFlags (env : ikeEnvelope) : Z := Z.lor FlagResponse (requestFlags env).

Definition inboundKeyHalves (env : ikeEnvelope) : res (list Z * list Z) :=
  keys ← deref (Env_IKEKeys env);
  if Env_IsOriginalInitiator env then Ok (SKer keys, SKar keys) else Ok (SKei keys, SKai keys).

Definition outboundKeyHalves (env : ikeEnvelope) : res (list Z * list Z) :=
  keys ← deref (Env_IKEKeys env);
  if Env_IsOriginalInitiator env then Ok (SKei keys, SKai keys) else Ok (SKer keys, SKar keys).

(* ------------------------------------------------------------------ *)
(** ** Padding *)

Definition padIKEPlaintext (enc : EncryptionAlg) (plain : list Z) : list Z :=
  let block := if BlockLen enc <? 1 then 1 else BlockLen enc in
  let base := len plain + 1 in
  let padLen := Z.rem (block - Z.rem base block) block in
  plain ++ ((λ i, u8 (Z.of_nat i)) <$> seq 1 (Z.to_nat padLen)) ++ [u8 padLen].

Definition stripIKEPlaintext (plain : list Z) : res (list Z) :=
  if len plain =? 0 then Err "control: empty protected plaintext"
  else
    padLen ← plain.[len plain - 1];
    if len plain <=? padLen then Err "control: invalid protected padding length %d"
    else plain.[0, len plain - 1 - padLen].

Section Protected.
Context {C : Crypto}.

(* ------------------------------------------------------------------ *)
(** ** Sealing *)

(** [random n] is what [xcrypto.Fill] writes into the IV. *)
Definition sealProtectedEnvelope (env : ikeEnvelope) (exchange msgID innerNext encType : Z)
    (frag : option SkfHeader) (plaintext : list Z) (flags : Z) (random : Z → res (list Z)) :
    res (list Z) :=
  sel ← deref (Env_SelectedIKE env);
  enc ← deref (Sel_Encryption sel);
  let integ := Sel_Integrity sel in
  if match frag with
     | Some f => (FragmentNumber f =? 0) || (TotalFragments f =? 0)
                 || (TotalFragments f <? FragmentNumber f)
     | None => false
     end then Err "control: invalid SKF fragment numbers %d/%d"
  else
  let ivLen := IVLen enc in
  if ivLen <=? 0 then Err "control: invalid IKE cipher IV length %d"
  else
  outerICVLen ← (if AEAD enc then Ok 0
                 else match integ with
                      | None => Err "control: non-AEAD IKE cipher has no integrity transform"
                      | Some i =>
                          if Integ_KeyLen i =? 0
                          then Err "control: non-AEAD IKE cipher has no integrity transform"
                          else Ok (Integ_OutputLen i)
                      end);
  let hdr := {| InitiatorSPI := Uint64SPI (Env_InitiatorSPI env);
                ResponderSPI := Uint64SPI (Env_ResponderSPI env);
                NextPayload := encType; Version := IKEDefaultVersion; ExchangeType := exchange;
                Flags := flags; MessageID := msgID; Length := 0 |} in
  let pkt := MarshalTo hdr [] in
  let payloadHeaderOffset := len pkt in
  let pkt := pkt ++ [u8 innerNext; 0; 0; 0] in
  let fragHeaderLen := match frag with Some _ => SkfHeaderLen | None => 0 end in
  let pkt := match frag with
             | Some f =>
                 let fragStart := len pkt in
                 let pkt := pkt ++ [0; 0; 0; 0] in
                 let pkt := splice pkt fragStart (putUint16 (FragmentNumber f)) in
                 splice pkt (fragStart + 2) (putUint16 (TotalFragments f))
             | None => pkt
             end in
  let padded := padIKEPlaintext enc plaintext in
  let sealedLen := len padded + if AEAD enc then ICVLen enc else 0 in
  let payloadLen := PayloadHeaderLen + fragHeaderLen + ivLen + sealedLen + outerICVLen in
  if 65535 <? payloadLen then Err "control: protected payload too long: %d"
  else
  let packetLen := len pkt + ivLen + sealedLen + outerICVLen in
  if 2 ^ 32 - 1 <? packetLen then Err "control: protected packet too long: %d"
  else
  let pkt := splice pkt (payloadHeaderOffset + 2) (putUint16 (u16 payloadLen)) in
  let pkt := splice pkt 24 (putUint32 (u32 packetLen)) in
  let aad := if AEAD enc then pkt else [] in
  iv ← wrap "control: generate IKE IV: " (random ivLen);
  '(encKey, integKey) ← outboundKeyHalves env;
  sealed ← wrap "control: encrypt protected payload: " (Seal (Some enc) encKey iv aad padded);
  let pkt := pkt ++ iv ++ sealed in
  if negb (AEAD enc) then
    icv ← wrap "control: sign IKE packet: " (Sign integ integKey pkt);
    Ok (pkt ++ icv)
  else Ok pkt.

(** The fragment size and count of [buildProtectedEnvelopeAs]; [limit] is
    [cfg.FragmentPlaintextLimit] when a configuration is given. *)
Definition fragment_chunk (limit : option Z) : Z :=
  match limit with
  | Some l => if 0 <? l then l else FragmentPlaintextLimit
  | None => FragmentPlaintextLimit
  end.

Definition fragment_total (env : ikeEnvelope) (chunk n : Z) : Z :=
  if SupportsFragmentation (Env_Peer env) && (chunk <? n) then (n + chunk - 1) `quot` chunk else 1.

(** The loop over the fragments, from number [i]; [random i] is the random
    source of fragment [i]. *)
Fixpoint build_frames (env : ikeEnvelope) (chunk total exchange msgID nextPayload : Z)
    (plaintext : list Z) (flags : Z) (random : Z → Z → res (list Z)) (fuel : nat) (i : Z) :
    res (list (list Z)) :=
  if i <? total then
    match fuel with
    | O => Hang
    | S fuel =>
        part ← (if 1 <? total then
                  let start := i * chunk in
                  let fin := start + chunk in
                  let fin := if len plaintext <? fin then len plaintext else fin in
                  plaintext.[start, fin]
                else Ok plaintext);
        let innerNext := if i =? 0 then nextPayload else PayloadTypeNone in
        let encType := if 1 <? total then PayloadTypeSKF else PayloadTypeSK in
        let frag := if 1 <? total
                    then Some {| FragmentNumber := u16 (i + 1); TotalFragments := u16 total |}
                    else None in
        frame ← sealProtectedEnvelope env exchange msgID innerNext encType frag part flags (random i);
        frames ← build_frames env chunk total exchange msgID nextPayload plaintext flags random fuel (i + 1);
        Ok (frame :: frames)
    end
  else Ok [].

Definition buildProtectedEnvelopeAs (limit : option Z) (env : ikeEnvelope)
    (exchange msgID nextPayload : Z) (plaintext : list Z) (flags : Z)
    (random : Z → Z → res (list Z)) : res (list (list Z)) :=
  match Env_SelectedIKE env, Env_IKEKeys env with
  | Some _, Some _ =>
      if Env_InitiatorSPI env =? 0 then Err "control: initiator SPI missing for protected build"
      else
        let chunk := fragment_chunk limit in
        let total := fragment_total env chunk (len plaintext) in
        if 65535 <? total then Err "control: too many protected fragments: %d"
        else build_frames env chunk total exchange msgID nextPayload plaintext flags random
               (Z.to_nat total) 0
  | _, _ => Err "control: IKE cipher state missing for protected build"
  end.

(* ------------------------------------------------------------------ *)
(** ** Opening *)

Definition openEncryptedBody (sel : Selection) (encKey icvKey aad body : list Z) : res (list Z) :=
  enc ← deref (Sel_Encryption sel);
  if len body <? IVLen enc then Err "control: protected body shorter than IV"
  else
  iv ← body.[0, IVLen enc];
  rest ← slice_from body (IVLen enc);
  if AEAD enc then
    plain ← wrap "control: AEAD protected open failed: " (Open (Some enc) encKey iv aad rest);
    stripIKEPlaintext plain
  else
  match Sel_Integrity sel with
  | None => Err "control: non-AEAD IKE cipher has no integrity transform"
  | Some integ =>
      if Integ_KeyLen integ =? 0 then Err "control: non-AEAD IKE cipher has no integrity transform"
      else
      let icvLen := Integ_OutputLen integ in
      if len rest <? icvLen then Err "control: protected body shorter than ICV"
      else
      ct ← rest.[0, len rest - icvLen];
      icv ← slice_from rest (len rest - icvLen);
      let signed := aad ++ iv ++ ct in
      if negb (Verify (Some integ) icvKey signed icv) then Err "control: IKE integrity check failed"
      else
      plain ← wrap "control: IKE CBC protected open failed: " (Open (Some enc) encKey iv [] ct);
      stripIKEPlaintext plain
  end.

(** The cleartext payloads in front of the encrypted one, re-marshalled. *)
Fixpoint rebuild_payloads (ps : list Wire.Payload) : res (list Z) :=
  match ps with
  | [] => Ok []
  | p :: ps =>
      let length := PayloadHeaderLen + len (Body p) in
      if 65535 <? length then Err "control: cannot rebuild AAD: payload too long"
      else
        rest ← rebuild_payloads ps;
        Ok ([Next p; if Critical p then 128 else 0] ++ putUint16 (u16 length) ++ Body p ++ rest)
  end.

Definition rebuildPrefix (m : Message) : res (list Z) :=
  let aad := MarshalTo (Msg_Header m) [] in
  ps ← rebuild_payloads (Payloads m);
  match Encrypted m with
  | None => Err "control: cannot rebuild AAD: no encrypted payload"
  | Some enc =>
      let bodyLen := len (Enc_Body enc) + if Fragmented enc then SkfHeaderLen else 0 in
      let payloadLen := PayloadHeaderLen + bodyLen in
      if 65535 <? payloadLen then Err "control: cannot rebuild AAD: encrypted payload too long"
      else
        let ph := [InnerNext enc; 0] ++ putUint16 (u16 payloadLen) in
        let fh := if Fragmented enc
                  then putUint16 (FragmentNumber (Frag enc)) ++ putUint16 (TotalFragments (Frag enc))
                  else [] in
        Ok (aad ++ ps ++ ph ++ fh)
  end.

Definition openProtectedMessageEnvelope (env : ikeEnvelope) (raw : list Z) : res (list Wire.Payload) :=
  msg ← ParseMessage raw;
  match Encrypted msg with
  | None => Ok (Payloads msg)
  | Some enc =>
      if Fragmented enc then Err "control: fragmented old-SA IKE packet is unsupported"
      else
        aad ← rebuildPrefix msg;
        '(encKey, integKey) ← inboundKeyHalves env;
        sel ← deref (Env_SelectedIKE env);
        plain ← openEncryptedBody sel encKey integKey aad (Enc_Body enc);
        '(payloads, _) ← ParsePayloads plain (InnerNext enc) false;
        Ok payloads
  end.

(** [Handshake.openProtected] of a parsed message; [env] is the state of the SA. *)
Definition openProtected (env : ikeEnvelope) (m : option Message) : res (list Wire.Payload) :=
  match m ≫= Encrypted, m with
  | Some enc, Some msg =>
      if Fragmented enc then Err "control: SKF requires raw packet; use openProtectedRaw"
      else
      match Env_SelectedIKE env, Env_IKEKeys env with
      | Some sel, Some _ =>
          aad ← rebuildPrefix msg;
          '(encKey, integKey) ← inboundKeyHalves env;
          plain ← openEncryptedBody sel encKey integKey aad (Enc_Body enc);
          '(payloads, _) ← ParsePayloads plain (InnerNext enc) false;
          Ok payloads
      | _, _ => Err "control: IKE cipher state missing for protected open"
      end
  | _, _ => Err "control: message carries no encrypted payload"
  end.

(* ------------------------------------------------------------------ *)
(** ** Reassembly *)

(** [joined], once every slot is filled. *)
Fixpoint join_fragments (fs : list (option (list Z))) : option (list Z) :=
  match fs with
  | [] => Some []
  | None :: _ => None
  | Some part :: fs => (λ rest, part ++ rest) <$> join_fragments fs
  end.

(** [collectSKFragment]: the new [state.InboundFragments] and, on success,
    [Some joined] when the message is complete. *)
Definition collectSKFragment (frags : option FragmentReassembly) (enc : EncryptedPayload)
    (plain : list Z) (msgID exchange timeout now : Z) :
    option FragmentReassembly * res (option (list Z)) :=
  if negb (Enc_Type enc =? PayloadTypeSKF) || negb (Fragmented enc) then
    (frags, Err "control: collectFragment requires an SKF envelope")
  else
  let frag := Frag enc in
  if (FragmentNumber frag =? 0) || (TotalFragments frag =? 0)
     || (TotalFragments frag <? FragmentNumber frag) then
    (frags, Err "control: invalid SKF fragment numbers %d/%d")
  else
  let existing := match frags with
                  | Some e => if ExpiresAt e <? now then None else Some e
                  | None => None
                  end in
  let fresh := {| FR_ExchangeType := exchange; FR_MessageID := msgID;
                  FirstInnerPayload := skfFirstPayloadUnset;
                  Fragments := replicate (Z.to_nat (TotalFragments frag)) None;
                  ExpiresAt := 0 |} in
  match
    match existing with
    | None => inl fresh
    | Some e =>
        if negb (FR_ExchangeType e =? exchange) then inr "control: SKF exchange mismatch"
        else if negb (FR_MessageID e =? msgID) then inr "control: SKF message-id mismatch"
        else if len (Fragments e) <? TotalFragments frag then inl fresh
        else inl e
    end
  with
  | inr err => (existing, Err err)
  | inl e =>
      let e := mkFragmentReassembly (FR_ExchangeType e) (FR_MessageID e) (FirstInnerPayload e)
                 (Fragments e) (now + timeout) in
      if TotalFragments frag <? len (Fragments e) then (Some e, Ok None)
      else
      let slot := Z.to_nat (FragmentNumber frag - 1) in
      match
        if FragmentNumber frag =? 1 then
          if FirstInnerPayload e =? skfFirstPayloadUnset then inl (InnerNext enc)
          else if negb (FirstInnerPayload e =? InnerNext enc) then
            inr "control: SKF first-fragment payload mismatch"
          else inl (FirstInnerPayload e)
        else if negb (InnerNext enc =? PayloadTypeNone) then
          inr "control: non-initial SKF fragment must not carry next-payload"
        else inl (FirstInnerPayload e)
      with
      | inr err => (Some e, Err err)
      | inl firstInner =>
          match Fragments e !! slot with
          | None => (Some e, Panic)
          | Some stored =>
              let fs := match stored with
                        | None => <[slot := Some plain]> (Fragments e)
                        | Some _ => Fragments e
                        end in
              let e := mkFragmentReassembly (FR_ExchangeType e) (FR_MessageID e) firstInner fs
                         (ExpiresAt e) in
              match join_fragments fs with
              | None => (Some e, Ok None)
              | Some joined => (None, Ok (Some joined))
              end
          end
      end
  end.

(* ------------------------------------------------------------------ *)
(** ** openProtectedRawState *)

(** The walk over the outer chain: loop variables [next], [off]. The walk ends
    at the encrypted payload with its type, inner next-payload, fragment
    header, AAD and body. *)
Definition raw_walk_step (raw rest : list Z) (s : Z * Z) :
    res (Z * Z + (Z * Z * SkfHeader * list Z * list Z)) :=
  let '(next, off) := s in
  if next =? PayloadTypeNone then Err "control: protected packet has no encrypted payload"
  else if len rest - off <? PayloadHeaderLen then
    Err "control: protected packet payload header truncated"
  else
  lf ← rest.[off + 2, off + 4];
  length ← beUint16 lf;
  if (length <? PayloadHeaderLen) || (len rest <? off + length) then
    Err "control: protected packet payload length out of bounds"
  else
  let payloadStart := HeaderLen + off in
  let bodyStart := payloadStart + PayloadHeaderLen in
  innerNext ← raw.[payloadStart];
  if (next =? PayloadTypeSK) || (next =? PayloadTypeSKF) then
    if negb (off + length =? len rest) then
      Err "control: encrypted payload must terminate the outer chain"
    else
    let payloadEnd := payloadStart + length in
    '(frag, ivStart) ←
      (if next =? PayloadTypeSKF then
         if payloadEnd <? bodyStart + SkfHeaderLen then
           Err "control: truncated SKF fragment header"
         else
           fb ← raw.[bodyStart, bodyStart + SkfHeaderLen];
           '(frag, _) ← ParseSkfHeader fb;
           Ok (frag, bodyStart + SkfHeaderLen)
       else Ok ({| FragmentNumber := 0; TotalFragments := 0 |}, bodyStart));
    aad ← raw.[0, ivStart];
    body ← raw.[ivStart, payloadEnd];
    Ok (inr (next, innerNext, frag, aad, body))
  else Ok (inl (innerNext, off + length)).

Definition raw_walk (raw rest : list Z) (next : Z) :
    res (Z * Z * SkfHeader * list Z * list Z) :=
  loop (S (length rest)) (raw_walk_step raw rest) (next, 0).

(** [cfg.Timeouts.SkfReassemblyTimeout] with its default. *)
Definition skf_timeout (cfgTimeout : option Z) : Z :=
  let skfTimeout := match cfgTimeout with Some t => if 0 <? t then t else 0 | None => 0 end in
  if skfTimeout <=? 0 then SkfReassemblyTimeout else skfTimeout.

(** Returns the new [state.InboundFragments] and the outcome: [Some payloads]
    for a complete message, [None] while fragments are missing. *)
Definition openProtectedRawState (cfgTimeout : option Z) (env : ikeEnvelope)
    (frags : option FragmentReassembly) (now : Z) (raw : list Z) :
    option FragmentReassembly * res (option (list Wire.Payload)) :=
  let skfTimeout := skf_timeout cfgTimeout in
  match Env_SelectedIKE env, Env_IKEKeys env with
  | Some sel, Some _ =>
    match
      ('(hdr, rest) ← ParseHeader raw;
       '(encType, innerNext, frag, aad, body) ← raw_walk raw rest (NextPayload hdr);
       '(encKey, integKey) ← inboundKeyHalves env;
       plain ← openEncryptedBody sel encKey integKey aad body;
       Ok (hdr, encType, innerNext, frag, body, plain))
    with
    | Err e => (frags, Err e) | Panic => (frags, Panic) | Hang => (frags, Hang)
    | Ok (hdr, encType, innerNext, frag, body, plain) =>
        if negb (encType =? PayloadTypeSKF) then
          (frags, '(payloads, _) ← ParsePayloads plain innerNext false; Ok (Some payloads))
        else
          let envelope := {| Enc_Type := PayloadTypeSKF; InnerNext := innerNext;
                             Fragmented := true; Frag := frag; Enc_Body := body |} in
          let fragFirst := match frags with
                           | Some e => FirstInnerPayload e
                           | None => skfFirstPayloadUnset
                           end in
          let '(frags', r) := collectSKFragment frags envelope plain (MessageID hdr)
                                (ExchangeType hdr) skfTimeout now in
          (frags',
           done ← r;
           match done with
           | None => Ok None
           | Some joined =>
               let first := if negb (fragFirst =? skfFirstPayloadUnset) then fragFirst
                            else InnerNext envelope in
               '(payloads, _) ← ParsePayloads joined first false;
               Ok (Some payloads)
           end)
    end
  | _, _ => (frags, Err "control: IKE cipher state missing for protected open")
  end.

End Protected.

(* ------------------------------------------------------------------ *)
(** ** Lemmas: padding *)

Lemma pad_strip enc plain : 0 < BlockLen enc <= 16 → bytes plain →
  stripIKEPlaintext (padIKEPlaintext enc plain) = Ok plain ∧
  bytes (padIKEPlaintext enc plain) ∧ len (padIKEPlaintext enc plain) mod BlockLen enc = 0 ∧
  len plain < len (padIKEPlaintext enc plain) <= len plain + 16.
Proof.
  intros Hb Hp. unfold padIKEPlaintext. replace (BlockLen enc <? 1) with false by lia.
  pose proof (len_nonneg plain) as Hn.
  destruct (pad_bounds (BlockLen enc) (len plain + 1)) as [Hpad Hmod]; [lia..|].
  set (padLen := Z.rem _ _) in *. set (pad := _ <$> _).
  assert (Hpl : len pad = padLen).
  { unfold pad. rewrite len_fmap. unfold len. rewrite length_seq. lia. }
  assert (Hlen : len (plain ++ pad ++ [u8 padLen]) = len plain + padLen + 1) by llia.
  split_and!; rewrite ?Hlen; [| | |lia..].
  - unfold stripIKEPlaintext. rewrite Hlen.
    replace (len plain + padLen + 1 =? 0) with false by lia.
    rewrite app_assoc, idx_app_at by (rewrite len_app; lia). run.
    rewrite u8_small by (unfold is_byte; lia).
    replace (len plain + padLen + 1 <=? padLen) with false by lia.
    rewrite <- app_assoc. apply slice_prefix. lia.
  - apply bytes_app; [done|]. apply bytes_app; [|apply bytes_cons; [apply u8_byte|apply bytes_nil]].
    apply Forall_fmap, Forall_forall. intros i _. apply u8_byte.
  - by replace (len plain + padLen + 1) with (len plain + 1 + padLen) by lia.
Qed.

(** No padding length read from a decrypted packet makes the strip panic. *)
Lemma stripIKEPlaintext_fine plain : bytes plain → fine (stripIKEPlaintext plain).
Proof.
  intros Hb. unfold stripIKEPlaintext. destruct (len plain =? 0) eqn:E; [done|]. len_norm.
  apply fine_bind; [apply idx_fine; lia|]. intros p Hp. pose proof (bytes_idx _ _ _ Hb Hp) as [? _].
  destruct (len plain <=? p) eqn:E2; [done|]. apply slice_fine; lia.
Qed.

(* ------------------------------------------------------------------ *)
(** ** Lemmas: sealing and opening one packet *)

Section ProtectedLemmas.
Context {C : Crypto} {L : CryptoLaws}.

(** An established IKE SA. *)
Record env_ok (env : ikeEnvelope) (enc : EncryptionAlg) (ig : Integrity) (k : IKEKeys) : Prop := {
  eo_sel : negotiated (Env_SelectedIKE env) enc ig;
  eo_keys : Env_IKEKeys env = Some k;
  eo_enc : len (SKei k) = Enc_KeyLen enc ∧ len (SKer k) = Enc_KeyLen enc;
  eo_integ : len (SKai k) = Integ_KeyLen ig ∧ len (SKar k) = Integ_KeyLen ig;
  eo_bytes : bytes (SKei k) ∧ bytes (SKer k);
  eo_spis : 0 < Env_InitiatorSPI env < 2 ^ 64 ∧ 0 <= Env_ResponderSPI env < 2 ^ 64 }.

(** The other end of the same SA. *)
Definition mirrored (env peer : ikeEnvelope) : Prop :=
  Env_SelectedIKE peer = Env_SelectedIKE env ∧ Env_IKEKeys peer = Env_IKEKeys env ∧
  Env_IsOriginalInitiator peer = negb (Env_IsOriginalInitiator env).

Lemma mirrored_keys env peer : mirrored env peer → inboundKeyHalves peer = outboundKeyHalves env.
Proof.
  intros (_ & Hk & Hr). unfold inboundKeyHalves, outboundKeyHalves. rewrite Hk, Hr.
  destruct (Env_IKEKeys env); [|done]. run. by destruct (Env_IsOriginalInitiator env).
Qed.

Lemma outbound_keys env enc ig k : env_ok env enc ig k →
  ∃ ek ik, outboundKeyHalves env = Ok (ek, ik) ∧ len ek = Enc_KeyLen enc ∧ bytes ek ∧
    len ik = Integ_KeyLen ig.
Proof.
  intros [_ Hk [? ?] [? ?] [? ?] _]. unfold outboundKeyHalves. rewrite Hk. run.
  destruct (Env_IsOriginalInitiator env); eauto 7.
Qed.

(** The fixed parts of a protected packet. *)
Definition sk_header (env : ikeEnvelope) (exchange msgID encType flags total : Z) : Header :=
  {| InitiatorSPI := Uint64SPI (Env_InitiatorSPI env); ResponderSPI := Uint64SPI (Env_ResponderSPI env);
     NextPayload := encType; Version := IKEDefaultVersion; ExchangeType := exchange;
     Flags := flags; MessageID := msgID; Length := total |}.

Definition frag_bytes (frag : option SkfHeader) : list Z :=
  match frag with
  | Some f => putUint16 (FragmentNumber f) ++ putUint16 (TotalFragments f)
  | None => []
  end.

Definition sk_prefix (h : Header) (innerNext : Z) (frag : option SkfHeader) (payloadLen : Z) : list Z :=
  header_bytes h ++ [innerNext; 0] ++ putUint16 payloadLen ++ frag_bytes frag.

(** A sealed packet: prefix, IV, ciphertext and ICV. *)
Record sealed_packet (env : ikeEnvelope) (enc : EncryptionAlg) (ig : Integrity) (ek ik : list Z)
    (exchange msgID innerNext encType : Z) (frag : option SkfHeader) (plaintext : list Z)
    (flags : Z) (pkt : list Z) : Prop := {
  sp_parts : ∃ pre iv ct icv, pkt = pre ++ iv ++ ct ++ icv ∧
    pre = sk_prefix (sk_header env exchange msgID encType flags (len pkt)) innerNext frag
            (len pkt - HeaderLen) ∧
    len iv = IVLen enc ∧ bytes iv ∧ bytes ct ∧
    Seal (Some enc) ek iv (if AEAD enc then pre else []) (padIKEPlaintext enc plaintext) = Ok ct ∧
    if AEAD enc then icv = []
    else Sign (Some ig) ik (pre ++ iv ++ ct) = Ok icv ∧ len icv = Integ_OutputLen ig;
  sp_len : len pkt - HeaderLen <= 65535 }.

Lemma len_sk_prefix h innerNext frag n :
  len (InitiatorSPI h) = 8 → len (ResponderSPI h) = 8 →
  len (sk_prefix h innerNext frag n) = 32 + len (frag_bytes frag).
Proof. intros. unfold sk_prefix. rewrite len_app, len_header_bytes by done. unfold HeaderLen. llia. Qed.

Lemma len_frag_bytes frag :
  len (frag_bytes frag) = match frag with Some _ => SkfHeaderLen | None => 0 end.
Proof. by destruct frag. Qed.

(** The prefix as it is first written, with zero lengths. *)
Definition unpatched (h : Header) (innerNext : Z) (frag : option SkfHeader) : list Z :=
  match frag with
  | Some f =>
      splice (splice ((MarshalTo h [] ++ [innerNext; 0; 0; 0]) ++ [0; 0; 0; 0]) 32
        (putUint16 (FragmentNumber f))) 34 (putUint16 (TotalFragments f))
  | None => MarshalTo h [] ++ [innerNext; 0; 0; 0]
  end.

Lemma len_marshal h innerNext : len (InitiatorSPI h) = 8 → len (ResponderSPI h) = 8 →
  len (MarshalTo h []) = 28 ∧ len (MarshalTo h [] ++ [innerNext; 0; 0; 0]) = 32.
Proof. intros. rewrite MarshalTo_bytes, !len_app, len_header_bytes by done. done. Qed.

Lemma len_unpatched h innerNext frag : len (InitiatorSPI h) = 8 → len (ResponderSPI h) = 8 →
  len (unpatched h innerNext frag) = 32 + len (frag_bytes frag).
Proof.
  intros H1 H2. destruct (len_marshal h innerNext H1 H2) as [_ Hm]. unfold unpatched.
  destruct frag as [f|]; [|by rewrite Hm].
  assert (E : len ((MarshalTo h [] ++ [innerNext; 0; 0; 0]) ++ [0; 0; 0; 0]) = 36) by by rewrite len_app, Hm.
  assert (E' : len (splice ((MarshalTo h [] ++ [innerNext; 0; 0; 0]) ++ [0; 0; 0; 0]) 32
    (putUint16 (FragmentNumber f))) = 36) by (rewrite len_splice; rewrite ?E, ?len_putUint16; lia).
  rewrite len_splice; rewrite ?E', ?len_putUint16; [done|lia..].
Qed.

(** Patching the lengths into the header written first. *)
Lemma patch_prefix h innerNext frag payloadLen total :
  len (InitiatorSPI h) = 8 → len (ResponderSPI h) = 8 →
  splice (splice (unpatched h innerNext frag) 30 (putUint16 payloadLen)) 24 (putUint32 total)
  = sk_prefix (with_length h total) innerNext frag payloadLen.
Proof.
  intros H1 H2. unfold unpatched, sk_prefix. rewrite MarshalTo_bytes by done.
  unfold header_bytes, with_length.
  destruct (len8_inv _ H1) as (?&?&?&?&?&?&?&?&E1). destruct (len8_inv _ H2) as (?&?&?&?&?&?&?&?&E2).
  destruct h as [isp rsp np ve ex fl mid ln]. simpl in *. subst isp rsp. by destruct frag.
Qed.

Definition frag_valid (frag : option SkfHeader) : Prop :=
  match frag with
  | Some f => 1 <= FragmentNumber f <= TotalFragments f ∧ TotalFragments f < 2 ^ 16
  | None => True
  end.

Lemma sk_prefix_bytes env exchange msgID encType flags total innerNext frag n :
  is_byte innerNext →
  bytes (sk_prefix (sk_header env exchange msgID encType flags total) innerNext frag n).
Proof.
  intros Hi. unfold sk_prefix, header_bytes. cbn [InitiatorSPI ResponderSPI NextPayload Version
    ExchangeType Flags MessageID Length sk_header]. unfold Uint64SPI.
  assert (bytes (frag_bytes frag)) by (destruct frag; simpl; bytes_solve).
  assert (is_byte IKEDefaultVersion) by done. assert (is_byte 0) by done.
  repeat first [apply bytes_app | apply bytes_cons | apply bytes_nil]; bytes_solve.
Qed.

Lemma negotiated_lens sel enc ig : negotiated sel enc ig →
  0 < IVLen enc <= 16 ∧ 0 <= ICVLen enc <= 16 ∧ 0 <= Integ_OutputLen ig <= 32 ∧
  0 < BlockLen enc <= 16 ∧ (AEAD enc = false → BlockLen enc = 16) ∧ (AEAD enc = true → BlockLen enc = 1) ∧
  (AEAD enc = false → Integ_KeyLen ig <> 0).
Proof.
  intros [_ (id & kl & He) (iid & Hi) Hh]. destruct (NewEncryption_wf _ _ _ He) as (W & _ & _).
  pose proof (ew_icv _ W). pose proof (ew_block _ W). pose proof (ew_iv _ W).
  pose proof (NewIntegrity_outlen _ _ Hi).
  destruct (AEAD enc) eqn:Ea; split_and!; try lia; try done.
  intros _. destruct (Integ_newHMAC ig) as [h|] eqn:Eh; [|by destruct (Hh eq_refl)].
  destruct (NewIntegrity_hmac _ _ _ Hi Eh) as (_ & _ & ->). by destruct h.
Qed.

(** The size of a protected payload and of what surrounds it. *)
Definition sealed_len (enc : EncryptionAlg) (plaintext : list Z) : Z :=
  len (padIKEPlaintext enc plaintext) + if AEAD enc then ICVLen enc else 0.
Definition outer_icv (enc : EncryptionAlg) (ig : Integrity) : Z :=
  if AEAD enc then 0 else Integ_OutputLen ig.
Definition payload_len (enc : EncryptionAlg) (ig : Integrity) (frag : option SkfHeader)
    (plaintext : list Z) : Z :=
  4 + len (frag_bytes frag) + IVLen enc + sealed_len enc plaintext + outer_icv enc ig.

Lemma payload_len_bounds sel enc ig frag plaintext :
  negotiated sel enc ig → bytes plaintext → len plaintext <= 65400 →
  0 <= payload_len enc ig frag plaintext <= 65535.
Proof.
  intros Hsel Hb Hmax. destruct (negotiated_lens _ _ _ Hsel) as (Liv & Licv & Lout & Lblk & _).
  destruct (pad_strip enc plaintext Lblk Hb) as (_ & _ & _ & Hpl). pose proof (len_nonneg plaintext).
  assert (Hf : 0 <= len (frag_bytes frag) <= 4)
    by (rewrite len_frag_bytes; destruct frag; unfold SkfHeaderLen; lia).
  unfold payload_len, sealed_len, outer_icv. destruct (AEAD enc); lia.
Qed.

(** With valid parameters, sealing comes down to the cipher and the ICV. *)
Lemma seal_eq env enc ig k ek ik exchange msgID innerNext encType frag plaintext flags random iv :
  env_ok env enc ig k → outboundKeyHalves env = Ok (ek, ik) → bytes plaintext → len plaintext <= 65400 →
  is_byte innerNext → frag_valid frag → random (IVLen enc) = Ok iv →
  let n := payload_len enc ig frag plaintext in
  let pre := sk_prefix (sk_header env exchange msgID encType flags (28 + n)) innerNext frag n in
  sealProtectedEnvelope env exchange msgID innerNext encType frag plaintext flags random =
  (sealed ← wrap "control: encrypt protected payload: "
              (Seal (Some enc) ek iv (if AEAD enc then pre else []) (padIKEPlaintext enc plaintext));
   if negb (AEAD enc) then
     icv ← wrap "control: sign IKE packet: " (Sign (Some ig) ik (pre ++ iv ++ sealed));
     Ok ((pre ++ iv ++ sealed) ++ icv)
   else Ok (pre ++ iv ++ sealed)).
Proof.
  intros Henv Ek Hbp Hmax Hin Hfrag Hr n pre.
  pose proof Henv as [Hsel _ _ _ _ _]. pose proof Hsel as [(prf & dh & Es) _ _ _].
  pose proof (payload_len_bounds _ enc ig frag plaintext Hsel Hbp Hmax) as Hn. fold n in Hn.
  destruct (negotiated_lens _ _ _ Hsel) as (Liv & _ & _ & _ & _ & _ & Lkey).
  unfold sealProtectedEnvelope. rewrite Es. unfold deref. run. cbn [Sel_Encryption Sel_Integrity].
  run. replace (match frag with Some _ => _ | None => _ end) with false
    by (destruct frag as [f|]; [destruct Hfrag; lia|done]).
  replace (IVLen enc <=? 0) with false by lia.
  match goal with |- context [mbind _ (if AEAD enc then Ok 0 else ?x)] =>
    replace (if AEAD enc then Ok 0 else x) with (Ok (outer_icv enc ig)) end.
  2: { unfold outer_icv. destruct (AEAD enc); [done|].
       by replace (Integ_KeyLen ig =? 0) with false by (specialize (Lkey eq_refl); lia). }
  run. cbv zeta. fold (sk_header env exchange msgID encType flags 0).
  set (h0 := sk_header env exchange msgID encType flags 0).
  assert (H8i : len (InitiatorSPI h0) = 8) by done. assert (H8r : len (ResponderSPI h0) = 8) by done.
  destruct (len_marshal h0 (u8 innerNext) H8i H8r) as [Hm Hm4]. rewrite Hm4, Hm.
  change (32 + 2) with 34. change (28 + 2) with 30. fold (unpatched h0 (u8 innerNext) frag).
  rewrite (len_unpatched h0 (u8 innerNext) frag H8i H8r). fold (sealed_len enc plaintext).
  rewrite <- len_frag_bytes. unfold PayloadHeaderLen. fold (payload_len enc ig frag plaintext). fold n.
  replace (32 + len (frag_bytes frag) + IVLen enc + sealed_len enc plaintext + outer_icv enc ig) with (28 + n)
    by (unfold n, payload_len; lia).
  replace (65535 <? n) with false by lia. replace (2 ^ 32 - 1 <? 28 + n) with false by lia.
  replace (u16 n) with n by (unfold u16; rewrite Z.mod_small; lia).
  replace (u32 (28 + n)) with (28 + n) by (unfold u32; rewrite Z.mod_small; lia).
  rewrite (u8_small innerNext) by done. rewrite patch_prefix by done.
  change (with_length h0 (28 + n)) with (sk_header env exchange msgID encType flags (28 + n)). fold pre.
  rewrite Hr, Ek. cbn [wrap]. run. done.
Qed.

Lemma seal_spec env enc ig k exchange msgID innerNext encType frag plaintext flags random iv :
  env_ok env enc ig k → bytes plaintext → len plaintext <= 65400 → is_byte innerNext →
  frag_valid frag → random (IVLen enc) = Ok iv → bytes iv → len iv = IVLen enc →
  ∃ ek ik pkt, outboundKeyHalves env = Ok (ek, ik) ∧
    sealProtectedEnvelope env exchange msgID innerNext encType frag plaintext flags random = Ok pkt ∧
    sealed_packet env enc ig ek ik exchange msgID innerNext encType frag plaintext flags pkt.
Proof.
  intros Henv Hbp Hmax Hin Hfrag Hr Hbi Hli. destruct (outbound_keys _ _ _ _ Henv) as (ek & ik & Ek & Hek & Hbk & Hik).
  pose proof Henv as [Hsel _ _ _ _ _]. pose proof Hsel as [_ (id & kl & Hne) (iid & Hni) Hh].
  destruct (negotiated_lens _ _ _ Hsel) as (_ & _ & _ & Lblk & Lb16 & _).
  destruct (pad_strip enc plaintext Lblk Hbp) as (_ & Hpb & Hpm & Hpl).
  pose proof (payload_len_bounds _ enc ig frag plaintext Hsel Hbp Hmax) as Hn.
  exists ek, ik. rewrite (seal_eq env enc ig k ek ik exchange msgID innerNext encType frag plaintext flags random iv) by done.
  set (n := payload_len enc ig frag plaintext) in *. set (pre := sk_prefix _ _ _ _).
  assert (Hpre : bytes pre) by by apply sk_prefix_bytes.
  assert (Hprel : len pre = 32 + len (frag_bytes frag)) by by apply len_sk_prefix.
  destruct (Seal_total id kl enc ek iv (if AEAD enc then pre else []) (padIKEPlaintext enc plaintext))
    as (ct & Ec & Hcl & Hcb); try done.
  { destruct (AEAD enc); [done|apply bytes_nil]. }
  { unfold gcm_max. lia. }
  { intros Ha. by rewrite (Lb16 Ha) in Hpm. }
  rewrite Ec. cbn [wrap]. run. destruct (NewEncryption_wf _ _ _ Hne) as (W & _ & _). pose proof (ew_icv _ W) as Wi.
  assert (Hct : len ct = sealed_len enc plaintext) by (unfold sealed_len; destruct (AEAD enc); lia).
  assert (Hlen : ∀ icv : list Z, len icv = outer_icv enc ig → len (pre ++ iv ++ ct ++ icv) = 28 + n).
  { intros icv E. rewrite !len_app, Hprel, Hli, Hct, E. unfold n, payload_len. lia. }
  assert (Hpr : ∀ pkt : list Z, len pkt = 28 + n → pre = sk_prefix (sk_header env exchange msgID encType flags (len pkt))
    innerNext frag (len pkt - HeaderLen)).
  { intros pkt E. rewrite E. unfold HeaderLen. by replace (28 + n - 28) with n by lia. }
  unfold outer_icv in Hlen. destruct (AEAD enc) eqn:Ea; cbn [negb].
  - specialize (Hlen [] eq_refl). rewrite app_nil_r in Hlen. exists (pre ++ iv ++ ct). split_and!; [done..|].
    constructor; [|rewrite Hlen; unfold HeaderLen; lia]. rewrite Ea. exists pre, iv, ct, [].
    rewrite app_nil_r. split_and!; auto.
  - destruct (Integ_newHMAC ig) as [hk|] eqn:Eh; [|by destruct (Hh eq_refl)].
    destruct (Sign_total iid ig hk ik (pre ++ iv ++ ct) Hni Eh Hik) as (icv & Esg & Hil & _).
    rewrite Esg. cbn [wrap]. run. specialize (Hlen icv Hil). rewrite <- !app_assoc.
    exists (pre ++ iv ++ ct ++ icv). split_and!; [done..|].
    constructor; [|rewrite Hlen; unfold HeaderLen; lia]. rewrite Ea. exists pre, iv, ct, icv.
    split_and!; auto.
Qed.

(** The header fields a sender may use. *)
Record fields_ok (exchange msgID innerNext flags : Z) : Prop := {
  fo_ex : is_byte exchange;
  fo_mid : 0 <= msgID < 2 ^ 32;
  fo_in : is_byte innerNext;
  fo_fl : is_byte flags ∧ Z.ldiff flags flagsMask = 0 }.

(** SK packets carry no fragment header, SKF packets a valid one. *)
Definition enc_kind (encType : Z) (frag : option SkfHeader) : Prop :=
  match frag with None => encType = PayloadTypeSK | Some _ => encType = PayloadTypeSKF end.

Lemma ParseSkfHeader_put f : frag_valid (Some f) →
  ParseSkfHeader (frag_bytes (Some f)) = Ok (f, []).
Proof.
  intros [H1 H2]. unfold ParseSkfHeader, frag_bytes, SkfHeaderLen.
  change (len _ <? 4) with false.
  rewrite (slice_prefix (putUint16 (FragmentNumber f))) by done. run.
  rewrite beUint16_put' by lia. run.
  rewrite (slice_suffix (putUint16 (FragmentNumber f)) (putUint16 (TotalFragments f))) by done. run.
  rewrite beUint16_put' by lia. run. replace (_ || _ || _) with false by lia. by destruct f.
Qed.

Lemma raw_walk_sealed h innerNext encType frag body :
  len (InitiatorSPI h) = 8 → len (ResponderSPI h) = 8 →
  enc_kind encType frag → frag_valid frag → is_byte innerNext →
  let n := 4 + len (frag_bytes frag) + len body in n <= 65535 →
  let pre := sk_prefix h innerNext frag n in
  raw_walk (pre ++ body) ([innerNext; 0] ++ putUint16 n ++ frag_bytes frag ++ body) encType
  = Ok (encType, innerNext,
        match frag with Some f => f | None => {| FragmentNumber := 0; TotalFragments := 0 |} end,
        pre, body).
Proof.
  intros H1 H2 Hk Hf Hi n Hn pre. pose proof (len_header_bytes h H1 H2) as Hh. unfold HeaderLen in Hh.
  set (rest := [innerNext; 0] ++ _).
  assert (Hraw : pre ++ body = header_bytes h ++ rest).
  { unfold pre, sk_prefix, rest. by rewrite <- !app_assoc. }
  assert (Hrl : len rest = n) by (unfold rest, n; llia).
  assert (Hn0 : 4 <= n) by (unfold n; len_norm; lia).
  assert (Hpl : len pre = 32 + len (frag_bytes frag)) by by apply len_sk_prefix.
  unfold raw_walk. apply loop_inr. unfold raw_walk_step.
  replace (encType =? PayloadTypeNone) with false by (destruct frag; simpl in Hk; by subst).
  unfold PayloadHeaderLen, HeaderLen. rewrite Hrl, Z.sub_0_r. replace (n <? 4) with false by lia.
  assert (E1 : rest.[0 + 2, 0 + 4] = Ok (putUint16 n)) by (by apply (slice_mid [innerNext; 0])).
  rewrite E1. run. rewrite beUint16_put' by lia. run. replace (_ || _) with false by lia.
  rewrite Hraw at 1. rewrite (idx_app_r (header_bytes h)) by lia. rewrite Hh. change (28 + 0 - 28) with 0.
  change (rest.[0]) with (Ok innerNext). run.
  assert (E2 : (encType =? PayloadTypeSK) || (encType =? PayloadTypeSKF) = true)
    by (destruct frag; simpl in Hk; by subst).
  rewrite E2. replace (0 + n =? n) with true by lia. cbn [negb].
  assert (E3 : (pre ++ body).[0, 32 + len (frag_bytes frag)] = Ok pre) by (by apply slice_prefix).
  assert (E4 : (pre ++ body).[32 + len (frag_bytes frag), 28 + 0 + n] = Ok body).
  { apply slice_suffix; [done|]. rewrite Hpl. unfold n. lia. }
  destruct frag as [f|]; simpl in Hk; subst encType; cbn [Z.eqb Pos.eqb PayloadTypeSKF PayloadTypeSK].
  - unfold SkfHeaderLen. rewrite len_frag_bytes in *. unfold SkfHeaderLen in *.
    replace (28 + 0 + n <? 28 + 0 + 4 + 4) with false
      by (unfold n; change (len (frag_bytes (Some f))) with 4; len_norm; lia).
    assert (E5 : (pre ++ body).[28 + 0 + 4, 28 + 0 + 4 + 4] = Ok (frag_bytes (Some f))).
    { unfold pre, sk_prefix. rewrite (app_assoc (header_bytes h)), (app_assoc (_ ++ [innerNext; 0])).
      rewrite <- (app_assoc _ (frag_bytes (Some f)) body). apply slice_mid; rewrite !len_app, Hh; done. }
    rewrite E5. run. rewrite ParseSkfHeader_put by done. run.
    change (28 + 0 + 4 + 4) with (32 + 4). rewrite E3. run. by rewrite E4.
  - change (len (frag_bytes None)) with 0 in *. change (28 + 0 + 4) with (32 + 0).
    run. rewrite E3. run. by rewrite E4.
Qed.

(** The parser's view of the same payload. *)
Definition sealed_payload (encType innerNext : Z) (frag : option SkfHeader) (body : list Z) : EncryptedPayload :=
  mkEncryptedPayload encType innerNext (bool_decide (is_Some frag))
    (match frag with Some f => f | None => {| FragmentNumber := 0; TotalFragments := 0 |} end) body.

(** The prefix rebuilt from the parsed message is the prefix on the wire. *)
Lemma rebuildPrefix_sealed h encType innerNext frag body :
  len (InitiatorSPI h) = 8 → len (ResponderSPI h) = 8 →
  let n := 4 + len (frag_bytes frag) + len body in n <= 65535 →
  rebuildPrefix (mkMessage h [] (Some (sealed_payload encType innerNext frag body))) = Ok (sk_prefix h innerNext frag n).
Proof.
  intros H1 H2 n Hn. unfold rebuildPrefix, sealed_payload, PayloadHeaderLen, SkfHeaderLen.
  cbn [Msg_Header Payloads Encrypted Enc_Body InnerNext Fragmented Frag rebuild_payloads mbind res_bind].
  pose proof (len_nonneg body). rewrite MarshalTo_bytes by done. destruct frag as [f|].
  - change (len (frag_bytes (Some f))) with 4 in *. cbn [bool_decide decide_rel]. rewrite bool_decide_eq_true_2 by done.
    replace (4 + (len body + 4)) with n by (unfold n; lia). replace (65535 <? n) with false by lia.
    unfold u16. rewrite Z.mod_small by lia. done.
  - change (len (frag_bytes None)) with 0 in *. rewrite bool_decide_eq_false_2 by (by intros [? ?]).
    replace (4 + (len body + 0)) with n by (unfold n; lia). replace (65535 <? n) with false by lia.
    unfold u16. rewrite Z.mod_small by lia. unfold sk_prefix. cbn. by rewrite !app_nil_r.
Qed.

Lemma ParsePayloads_sealed innerNext encType frag body :
  enc_kind encType frag → frag_valid frag →
  let n := 4 + len (frag_bytes frag) + len body in n <= 65535 →
  ParsePayloads ([innerNext; 0] ++ putUint16 n ++ frag_bytes frag ++ body) encType true =
  Ok ([], Some (sealed_payload encType innerNext frag body)).
Proof.
  intros Hk Hf n Hn. set (rest := [innerNext; 0] ++ _).
  assert (Hrl : len rest = n) by (unfold rest, n; llia).
  assert (Hn0 : 4 <= n) by (unfold n; len_norm; lia).
  cut (ParsePayloads_step true (rest, encType, []) = Ok (inr ([], Some (sealed_payload encType innerNext frag body)))).
  { intros E. by apply loop_inr. }
  unfold ParsePayloads_step, PayloadHeaderLen.
  replace (encType =? PayloadTypeNone) with false by (destruct frag; simpl in Hk; by subst).
  rewrite Hrl. replace (n <? 4) with false by lia.
  change (rest.[0]) with (Ok innerNext). change (rest.[1]) with (Ok 0). run.
  assert (E1 : rest.[2, 4] = Ok (putUint16 n)) by (by apply (slice_mid [innerNext; 0])).
  rewrite E1. run. rewrite beUint16_put' by lia. run. replace (n <? 4) with false by lia.
  replace (n <? n) with false by lia.
  assert (E2 : rest.[4, n] = Ok (frag_bytes frag ++ body)).
  { unfold rest. rewrite (app_assoc [innerNext; 0]). apply slice_suffix; [done|]. unfold n. llia. }
  rewrite E2. run.
  assert (E3 : (encType =? PayloadTypeSK) || (encType =? PayloadTypeSKF) = true)
    by (destruct frag; simpl in Hk; by subst).
  rewrite E3. replace (n =? n) with true by lia. cbn [negb].
  destruct frag as [f|]; simpl in Hk; subst encType; cbn [Z.eqb Pos.eqb PayloadTypeSKF PayloadTypeSK]; [|done].
  assert (Et : ParseSkfHeader (frag_bytes (Some f) ++ body) = Ok (f, body)).
  { destruct Hf as [H1 H2]. unfold ParseSkfHeader, SkfHeaderLen. rewrite len_app.
    change (len (frag_bytes (Some f))) with 4. pose proof (len_nonneg body).
    replace (4 + len body <? 4) with false by lia.
    unfold frag_bytes. rewrite <- app_assoc.
    rewrite (slice_prefix (putUint16 (FragmentNumber f))) by done. run.
    rewrite beUint16_put' by lia. run.
    rewrite (slice_mid (putUint16 (FragmentNumber f)) (putUint16 (TotalFragments f))) by done. run.
    rewrite beUint16_put' by lia. run. replace (_ || _ || _) with false by lia.
    rewrite app_assoc, slice_from_suffix by done. run. by destruct f. }
  rewrite Et. run. unfold sealed_payload. by rewrite bool_decide_eq_true_2.
Qed.

(** The receiver's view of a sealed packet. *)
Lemma open_sealed env peer enc ig k ek ik exchange msgID innerNext encType frag plaintext flags pkt :
  env_ok env enc ig k → mirrored env peer → outboundKeyHalves env = Ok (ek, ik) →
  bytes plaintext → fields_ok exchange msgID innerNext flags →
  enc_kind encType frag → frag_valid frag →
  sealed_packet env enc ig ek ik exchange msgID innerNext encType frag plaintext flags pkt →
  ∃ rest sel body, ParseHeader pkt = Ok (sk_header env exchange msgID encType flags (len pkt), rest) ∧
    ParsePayloads rest encType true = Ok ([], Some (sealed_payload encType innerNext frag body)) ∧
    Env_SelectedIKE peer = Some sel ∧ inboundKeyHalves peer = Ok (ek, ik) ∧
    (∃ pre, raw_walk pkt rest encType
       = Ok (encType, innerNext,
             match frag with Some f => f | None => {| FragmentNumber := 0; TotalFragments := 0 |} end,
             pre, body) ∧ openEncryptedBody sel ek ik pre body = Ok plaintext ∧
       rebuildPrefix (mkMessage (sk_header env exchange msgID encType flags (len pkt)) []
         (Some (sealed_payload encType innerNext frag body))) = Ok pre).
Proof.
  intros Henv Hmir Ek Hbp [Fe Fm Fi [Ff Fm']] Hkind Hfv [(pre & iv & ct & icv & Epkt & Epre & Hli & Hbi & Hbc & Hseal & Hicv) Hlen].
  pose proof Henv as [Hsel _ _ _ Hbk [Hsi Hsr]]. pose proof Hsel as [(prf & dh & Es) (id & kl & Hne) (iid & Hni) Hh].
  destruct (negotiated_lens _ _ _ Hsel) as (Liv & Licv & Lout & Lblk & _ & _ & Lkey).
  set (h := sk_header env exchange msgID encType flags (len pkt)) in *.
  assert (H8i : len (InitiatorSPI h) = 8) by done. assert (H8r : len (ResponderSPI h) = 8) by done.
  set (body := iv ++ ct ++ icv) in *.
  assert (Hpl : len pre = 32 + len (frag_bytes frag)) by (rewrite Epre; by apply len_sk_prefix).
  assert (Htot : len pkt = 32 + len (frag_bytes frag) + len body) by (rewrite Epkt, len_app, Hpl; done).
  set (n := 4 + len (frag_bytes frag) + len body).
  assert (Hn : len pkt - HeaderLen = n) by (unfold HeaderLen, n; lia). rewrite Hn in Epre, Hlen.
  set (rest := [innerNext; 0] ++ putUint16 n ++ frag_bytes frag ++ body).
  assert (Eraw : pkt = header_bytes h ++ rest ++ []).
  { rewrite Epkt, Epre. unfold sk_prefix, rest. by rewrite app_nil_r, <- !app_assoc. }
  exists rest, (mkSelection (Some enc) (Some ig) prf dh), body. split_and!.
  - rewrite Eraw at 1. apply ParseHeader_header_bytes; try done.
    + constructor; unfold h; cbn [InitiatorSPI ResponderSPI NextPayload Version ExchangeType Flags MessageID Length sk_header];
        try done; try apply putUint64_bytes.
      * destruct frag; simpl in Hkind; by rewrite Hkind.
      * unfold n in Hlen. len_norm. lia.
    + change (Length h) with (len pkt). unfold rest, HeaderLen. rewrite !len_app, len_putUint16.
      change (len [innerNext; 0]) with 2. lia.
  - unfold rest. by apply ParsePayloads_sealed.
  - destruct Hmir as (-> & _). done.
  - by rewrite (mirrored_keys env peer).
  - exists pre. split_and!; [rewrite Epkt, Epre; by apply raw_walk_sealed| |rewrite Epre; by apply rebuildPrefix_sealed].
    unfold openEncryptedBody, deref. cbn [Sel_Encryption Sel_Integrity]. run. unfold body.
    replace (len (iv ++ ct ++ icv) <? IVLen enc) with false by (rewrite len_app; len_norm; lia).
    rewrite slice_prefix, slice_from_suffix by done. run.
    destruct (pad_strip enc plaintext Lblk Hbp) as (Hstrip & Hpb & _ & _).
    assert (Hek : bytes ek). { destruct (outbound_keys _ _ _ _ Henv) as (? & ? & E & ? & ? & ?). rewrite Ek in E. injection E as <- <-. done. }
    assert (Hpre : bytes pre) by (rewrite Epre; by apply sk_prefix_bytes).
    apply (Seal_iff_Open id kl) in Hseal; try done; [|destruct (AEAD enc); [done|apply bytes_nil]].
    destruct (AEAD enc) eqn:Ea.
    * subst icv. rewrite app_nil_r, Hseal. cbn [wrap]. run. done.
    * destruct Hicv as [Esg Hil]. replace (Integ_KeyLen ig =? 0) with false by (specialize (Lkey eq_refl); lia).
      replace (len (ct ++ icv) <? Integ_OutputLen ig) with false by (rewrite len_app; len_norm; lia).
      rewrite (slice_prefix ct), (slice_from_suffix ct) by (rewrite len_app; lia). run.
      rewrite (proj2 (Verify_Sign _ _ _ _) Esg). cbn [negb]. rewrite Hseal. done.
Qed.

(** ** Lemmas: fragmentation *)

Definition chunk_of (chunk : Z) (plaintext : list Z) (i : nat) : list Z :=
  take (Z.to_nat chunk) (drop (i * Z.to_nat chunk) plaintext).

Lemma concat_chunks chunk plaintext n : 0 < chunk → (length plaintext <= n * Z.to_nat chunk)%nat →
  concat (chunk_of chunk plaintext <$> seq 0 n) = plaintext.
Proof.
  intros Hc. set (c := Z.to_nat chunk). revert plaintext. induction n as [|n IH]; intros plaintext Hl.
  { destruct plaintext; [done|]. simpl in Hl. lia. }
  rewrite <- cons_seq, fmap_cons. cbn [concat]. rewrite <- fmap_S_seq, <- list_fmap_compose.
  assert (E : (chunk_of chunk plaintext ∘ S) <$> seq 0 n = chunk_of chunk (drop c plaintext) <$> seq 0 n).
  { apply list_fmap_ext. intros j x _. unfold chunk_of, compose. fold c. rewrite drop_drop.
    by replace (S j * c)%nat with (c + j * c)%nat by lia. }
  rewrite E, IH by (rewrite length_drop; unfold c in *; lia).
  unfold chunk_of. fold c. rewrite Nat.mul_0_l, drop_0. apply take_drop.
Qed.

Lemma chunk_slice chunk plaintext (i : nat) : 0 < chunk → Z.of_nat i * chunk <= len plaintext →
  (let fin := Z.of_nat i * chunk + chunk in
   let fin := if len plaintext <? fin then len plaintext else fin in
   plaintext.[Z.of_nat i * chunk, fin]) = Ok (chunk_of chunk plaintext i).
Proof.
  intros Hc Hi. cbv zeta. unfold chunk_of.
  assert (E : Z.to_nat (Z.of_nat i * chunk) = (i * Z.to_nat chunk)%nat) by lia.
  destruct (len plaintext <? _) eqn:Hl; apply slice_eq; try lia; rewrite E.
  - rewrite !take_ge; [done|rewrite length_drop; unfold len in *; lia..].
  - f_equal. lia.
Qed.

(** What frame [i] of a message of [total] fragments is. *)
Definition frame_ok (env : ikeEnvelope) (enc : EncryptionAlg) (ig : Integrity) (ek ik : list Z)
    (chunk : Z) (total : nat) (exchange msgID nextPayload : Z) (plaintext : list Z) (flags : Z)
    (i : nat) (frame : list Z) : Prop :=
  sealed_packet env enc ig ek ik exchange msgID (if decide (i = 0%nat) then nextPayload else PayloadTypeNone)
    (if decide (total = 1%nat) then PayloadTypeSK else PayloadTypeSKF)
    (if decide (total = 1%nat) then None
     else Some {| FragmentNumber := Z.of_nat i + 1; TotalFragments := Z.of_nat total |})
    (if decide (total = 1%nat) then plaintext else chunk_of chunk plaintext i) flags frame.

Definition random_ok (enc : EncryptionAlg) (random : Z → Z → res (list Z)) : Prop :=
  ∀ i, ∃ iv, random i (IVLen enc) = Ok iv ∧ bytes iv ∧ len iv = IVLen enc.

Lemma build_frames_spec env enc ig k ek ik chunk total exchange msgID nextPayload plaintext flags random :
  env_ok env enc ig k → outboundKeyHalves env = Ok (ek, ik) → bytes plaintext → 0 < chunk <= 65400 →
  is_byte nextPayload → random_ok enc random → (1 <= total)%nat → Z.of_nat total <= 65535 →
  (total = 1%nat → len plaintext <= 65400) → (Z.of_nat total - 1) * chunk <= len plaintext →
  ∀ m i, (i + m = total)%nat →
  ∃ frames, build_frames env chunk (Z.of_nat total) exchange msgID nextPayload plaintext flags random m
              (Z.of_nat i) = Ok frames ∧ length frames = m ∧
    ∀ j f, frames !! j = Some f →
      frame_ok env enc ig ek ik chunk total exchange msgID nextPayload plaintext flags (i + j) f.
Proof.
  intros Henv Ek Hbp Hc Hn Hr Ht Hmax Hone Hcov. induction m as [|m IH]; intros i Hi; cbn [build_frames].
  { replace (Z.of_nat i <? Z.of_nat total) with false by lia. by exists []. }
  replace (Z.of_nat i <? Z.of_nat total) with true by lia.
  set (part := if decide (total = 1%nat) then plaintext else chunk_of chunk plaintext i).
  match goal with |- context [mbind _ (if 1 <? Z.of_nat total then ?x else ?y)] =>
    replace (if 1 <? Z.of_nat total then x else y) with (Ok part) end.
  2: { unfold part. destruct (decide (total = 1%nat)) as [->|]; [done|].
       replace (1 <? Z.of_nat total) with true by lia. symmetry. apply chunk_slice; nia. }
  run. destruct (Hr (Z.of_nat i)) as (iv & Er & Hbi & Hli).
  set (frag := if decide (total = 1%nat) then None
    else Some {| FragmentNumber := Z.of_nat i + 1; TotalFragments := Z.of_nat total |}).
  replace (if 1 <? Z.of_nat total then Some _ else None) with frag.
  2: { unfold frag. destruct (decide (total = 1%nat)) as [->|]; [done|].
       replace (1 <? Z.of_nat total) with true by lia. unfold u16. by rewrite !Z.mod_small by lia. }
  replace (if 1 <? Z.of_nat total then PayloadTypeSKF else PayloadTypeSK)
    with (if decide (total = 1%nat) then PayloadTypeSK else PayloadTypeSKF)
    by (destruct (decide (total = 1%nat)) as [->|]; [done|]; by replace (1 <? Z.of_nat total) with true by lia).
  replace (if Z.of_nat i =? 0 then nextPayload else PayloadTypeNone)
    with (if decide (i = 0%nat) then nextPayload else PayloadTypeNone)
    by (destruct (decide (i = 0%nat)) as [->|]; [done|]; by replace (Z.of_nat i =? 0) with false by lia).
  destruct (seal_spec env enc ig k exchange msgID (if decide (i = 0%nat) then nextPayload else PayloadTypeNone)
    (if decide (total = 1%nat) then PayloadTypeSK else PayloadTypeSKF) frag part flags (random (Z.of_nat i)) iv)
    as (ek' & ik' & f0 & Ek' & Ef & Hf0); try done.
  { unfold part. destruct (decide _); [done|]. by apply bytes_take, bytes_drop. }
  { unfold part. destruct (decide _); [by apply Hone|]. unfold chunk_of. rewrite len_take. lia. }
  { destruct (decide (i = 0%nat)); [exact Hn|]. unfold is_byte, PayloadTypeNone. lia. }
  { unfold frag. destruct (decide _); [done|]. simpl. lia. }
  rewrite Ek in Ek'. injection Ek' as <- <-. rewrite Ef. run.
  destruct (IH (S i) ltac:(lia)) as (frames & Eb & Hl & Hall).
  replace (Z.of_nat i + 1) with (Z.of_nat (S i)) by lia. rewrite Eb. run.
  exists (f0 :: frames). split_and!; [done|by simpl; f_equal|].
  intros [|j] f Hj; cbn in Hj.
  - injection Hj as <-. by rewrite Nat.add_0_r.
  - replace (i + S j)%nat with (S i + j)%nat by lia. by apply Hall.
Qed.

(** ** Lemmas: reassembly *)

(** The table after the fragments [seen] of a message cut into [chunks]. *)
Definition slots (chunks : list (list Z)) (seen : list nat) : list (option (list Z)) :=
  imap (λ j c, if decide (j ∈ seen) then Some c else None) chunks.

Lemma slots_lookup chunks seen j :
  slots chunks seen !! j = (λ c, if decide (j ∈ seen) then Some c else None) <$> chunks !! j.
Proof. unfold slots. by rewrite list_lookup_imap. Qed.

Lemma slots_nil chunks : slots chunks [] = replicate (length chunks) None.
Proof.
  apply list_eq. intros j. rewrite slots_lookup. destruct (chunks !! j) eqn:E.
  - cbn [fmap option_fmap option_map]. rewrite decide_False by apply not_elem_of_nil. symmetry. apply lookup_replicate_2.
    by eapply lookup_lt_Some.
  - symmetry. apply lookup_replicate_None, lookup_ge_None. done.
Qed.

Lemma slots_insert chunks seen i c : chunks !! i = Some c →
  ∃ stored, slots chunks seen !! i = Some stored ∧
  match stored with
  | None => <[i := Some c]> (slots chunks seen)
  | Some _ => slots chunks seen
  end = slots chunks (i :: seen).
Proof.
  intros Hc. rewrite slots_lookup, Hc. eexists. split; [done|].
  destruct (decide (i ∈ seen)) as [Hin|Hout]; apply list_eq; intros j.
  - rewrite !slots_lookup. destruct (chunks !! j); [|done]. simpl. f_equal.
    destruct (decide (j ∈ seen)), (decide (j ∈ i :: seen)); set_solver.
  - destruct (decide (j = i)) as [->|Hne].
    + rewrite list_lookup_insert_eq by (unfold slots; rewrite length_imap; by eapply lookup_lt_Some).
      rewrite slots_lookup, Hc. simpl. by rewrite decide_True by set_solver.
    + rewrite list_lookup_insert_ne by done. rewrite !slots_lookup. destruct (chunks !! j); [|done].
      simpl. f_equal. destruct (decide (j ∈ seen)), (decide (j ∈ i :: seen)); set_solver.
Qed.

Lemma join_all (fs : list (option (list Z))) (cs : list (list Z)) :
  fs = Some <$> cs → join_fragments fs = Some (concat cs).
Proof. intros ->. induction cs as [|c cs IH]; [done|]. cbn. by rewrite IH. Qed.

Lemma join_missing (fs : list (option (list Z))) j : fs !! j = Some None → join_fragments fs = None.
Proof.
  revert j. induction fs as [|[p|] fs IH]; intros [|j] H; simplify_eq/=; [|done..]. by rewrite (IH j H).
Qed.

Lemma join_slots chunks seen :
  join_fragments (slots chunks seen) =
  if decide (Forall (λ j, j ∈ seen) (seq 0 (length chunks))) then Some (concat chunks) else None.
Proof.
  destruct (decide _) as [Hall|Hnot].
  - apply join_all, list_eq. intros j. rewrite slots_lookup, list_lookup_fmap.
    destruct (chunks !! j) eqn:E; [|done]. simpl. rewrite decide_True; [done|].
    rewrite Forall_forall in Hall. apply Hall, elem_of_seq. apply lookup_lt_Some in E. lia.
  - apply not_Forall_Exists, Exists_exists in Hnot as (j & Hj%elem_of_seq & Hn); [|apply _].
    destruct (lookup_lt_is_Some_2 chunks j) as [c Hc]; [lia|].
    apply (join_missing _ j). rewrite slots_lookup, Hc. simpl. by rewrite decide_False.
Qed.

(** The reassembly state of a message of [length chunks] fragments. *)
Definition reassembling (exchange msgID nextPayload : Z) (chunks : list (list Z)) (seen : list nat)
    (deadline : Z) (frags : option FragmentReassembly) : Prop :=
  match seen with
  | [] => frags = None
  | _ => frags = Some (mkFragmentReassembly exchange msgID
           (if decide (0%nat ∈ seen) then nextPayload else skfFirstPayloadUnset)
           (slots chunks seen) deadline)
  end.

Definition fragment_envelope (nextPayload : Z) (total i : nat) (body : list Z) : EncryptedPayload :=
  {| Enc_Type := PayloadTypeSKF; InnerNext := if decide (i = 0%nat) then nextPayload else PayloadTypeNone;
     Fragmented := true;
     Frag := {| FragmentNumber := Z.of_nat i + 1; TotalFragments := Z.of_nat total |}; Enc_Body := body |}.

Definition complete (total : nat) (seen : list nat) : Prop := Forall (λ j, j ∈ seen) (seq 0 total).

Lemma collect_step exchange msgID nextPayload chunks seen deadline frags i c body now timeout :
  reassembling exchange msgID nextPayload chunks seen deadline frags →
  chunks !! i = Some c → (seen = [] ∨ now <= deadline) → nextPayload ≠ skfFirstPayloadUnset →
  collectSKFragment frags (fragment_envelope nextPayload (length chunks) i body) c msgID exchange timeout now =
  if decide (complete (length chunks) (i :: seen)) then (None, Ok (Some (concat chunks)))
  else (Some (mkFragmentReassembly exchange msgID
          (if decide (0%nat ∈ i :: seen) then nextPayload else skfFirstPayloadUnset)
          (slots chunks (i :: seen)) (now + timeout)), Ok None).
Proof.
  intros Hre Hc Hnow Hnp. pose proof (lookup_lt_Some _ _ _ Hc) as Hi.
  unfold collectSKFragment, fragment_envelope. cbn [Enc_Type Fragmented Frag FragmentNumber TotalFragments InnerNext].
  cbn [negb orb Z.eqb Pos.eqb PayloadTypeSKF]. replace (_ || _ || _) with false by lia.
  set (first0 := if decide (0%nat ∈ seen) then nextPayload else skfFirstPayloadUnset).
  match goal with |- match ?m with inl _ => _ | inr _ => _ end = _ =>
    assert (E : ∃ x, m = inl (mkFragmentReassembly exchange msgID first0 (slots chunks seen) x)) end.
  { destruct seen as [|s0 seen].
    - rewrite Hre, slots_nil. unfold first0. rewrite decide_False by apply not_elem_of_nil.
      rewrite Nat2Z.id. by eexists.
    - rewrite Hre. cbn [ExpiresAt FR_ExchangeType FR_MessageID Fragments].
      replace (deadline <? now) with false by (destruct Hnow; [done|lia]).
      cbn [FR_ExchangeType FR_MessageID Fragments].
      rewrite !Z.eqb_refl. cbn [negb]. unfold slots, len. rewrite length_imap.
      replace (_ <? _) with false by lia. by eexists. }
  destruct E as (x & ->). cbn [FR_ExchangeType FR_MessageID FirstInnerPayload Fragments ExpiresAt].
  replace (Z.of_nat (length chunks) <? len (slots chunks seen)) with false
    by (unfold slots, len; rewrite length_imap; lia).
  replace (Z.of_nat i + 1 - 1) with (Z.of_nat i) by lia. rewrite Nat2Z.id.
  match goal with |- match ?m with inl _ => _ | inr _ => _ end = _ =>
    replace m with (inl (B := string) (if decide (0%nat ∈ i :: seen) then nextPayload else skfFirstPayloadUnset)) end.
  2: { unfold first0. destruct (decide (i = 0%nat)) as [->|Hne].
       - rewrite decide_True by set_solver. change (Z.of_nat 0 + 1 =? 1) with true. cbv iota.
         destruct (decide (0%nat ∈ seen)); [|done]. replace (nextPayload =? skfFirstPayloadUnset) with false by lia.
         by rewrite Z.eqb_refl.
       - replace (Z.of_nat i + 1 =? 1) with false by lia. cbn [negb Z.eqb PayloadTypeNone].
         destruct (decide (0%nat ∈ i :: seen)), (decide (0%nat ∈ seen)); set_solver. }
  destruct (slots_insert chunks seen i c Hc) as (stored & -> & ->). rewrite join_slots. unfold complete.
  by destruct (decide (Forall _ _)).
Qed.

(** An expired table counts as none. *)
Lemma collect_expired old nextPayload i total body c msgID exchange timeout now :
  (i < total)%nat → ExpiresAt old < now →
  collectSKFragment (Some old) (fragment_envelope nextPayload total i body) c msgID exchange timeout now =
  collectSKFragment None (fragment_envelope nextPayload total i body) c msgID exchange timeout now.
Proof.
  intros Hi He. unfold collectSKFragment, fragment_envelope.
  cbn [Enc_Type Fragmented Frag FragmentNumber TotalFragments InnerNext].
  cbn [negb orb Z.eqb Pos.eqb PayloadTypeSKF]. replace (_ || _ || _) with false by lia.
  by replace (ExpiresAt old <? now) with true by lia.
Qed.

(** A message in a single fragment. *)
Lemma collect_single nextPayload body c msgID exchange timeout now : nextPayload ≠ skfFirstPayloadUnset →
  collectSKFragment None (fragment_envelope nextPayload 1 0 body) c msgID exchange timeout now
  = (None, Ok (Some c)).
Proof.
  intros Hn. rewrite (collect_step exchange msgID nextPayload [c] [] 0 None 0 c) by (done || by left).
  rewrite decide_True by by repeat constructor. cbn [concat]. by rewrite app_nil_r.
Qed.

(** ** Lemmas: whole messages *)

(** What the receiver makes of the reassembled plaintext. *)
Definition deliver (plaintext : list Z) (nextPayload : Z) : res (option (list Wire.Payload)) :=
  '(payloads, _) ← ParsePayloads plaintext nextPayload false; Ok (Some payloads).

Lemma open_sk env peer enc ig k ek ik exchange msgID nextPayload plaintext flags pkt frags cfgTimeout now :
  env_ok env enc ig k → mirrored env peer → outboundKeyHalves env = Ok (ek, ik) → bytes plaintext →
  fields_ok exchange msgID nextPayload flags →
  sealed_packet env enc ig ek ik exchange msgID nextPayload PayloadTypeSK None plaintext flags pkt →
  openProtectedRawState cfgTimeout peer frags now pkt = (frags, deliver plaintext nextPayload).
Proof.
  intros Henv Hmir Ek Hbp Hf Hs. pose proof Hmir as (_ & Hk & _). rewrite (eo_keys _ _ _ _ Henv) in Hk.
  destruct (open_sealed env peer enc ig k ek ik exchange msgID nextPayload PayloadTypeSK None plaintext
    flags pkt) as (rest & sel & body & Eh & _ & Esel & Ekey & pre & Ew & Eo & _); try done.
  unfold openProtectedRawState. rewrite Esel, Hk, Eh. run. cbn [NextPayload sk_header]. rewrite Ew. run.
  rewrite Ekey. run. rewrite Eo. done.
Qed.

(** The decoder of the retained SA, which authenticates the prefix it rebuilds from
    the parsed message, reads such a packet as the raw decoder does. *)
Lemma open_sk_rebuilt env peer enc ig k ek ik exchange msgID nextPayload plaintext flags pkt :
  env_ok env enc ig k → mirrored env peer → outboundKeyHalves env = Ok (ek, ik) → bytes plaintext →
  fields_ok exchange msgID nextPayload flags →
  sealed_packet env enc ig ek ik exchange msgID nextPayload PayloadTypeSK None plaintext flags pkt →
  openProtectedMessageEnvelope peer pkt = ('(payloads, _) ← ParsePayloads plaintext nextPayload false; Ok payloads).
Proof.
  intros Henv Hmir Ek Hbp Hf Hs.
  destruct (open_sealed env peer enc ig k ek ik exchange msgID nextPayload PayloadTypeSK None plaintext
    flags pkt) as (rest & sel & body & Eh & Ep & Esel & Ekey & pre & _ & Eo & Er); try done.
  unfold openProtectedMessageEnvelope, ParseMessage. rewrite Eh. run. cbn [NextPayload sk_header]. rewrite Ep. run.
  cbn [Encrypted]. change (Fragmented (sealed_payload _ _ None _)) with false. cbn match. rewrite Er. run. rewrite Ekey. run.
  rewrite Esel. cbn [deref]. run. change (Enc_Body (sealed_payload _ _ _ body)) with body. by rewrite Eo.
Qed.

(** [openProtected] of a parsed packet is the decoder of the packet. *)
Lemma openProtected_parsed env raw msg enc :
  ParseMessage raw = Ok msg → Encrypted msg = Some enc → Fragmented enc = false →
  is_Some (Env_SelectedIKE env) → is_Some (Env_IKEKeys env) →
  openProtected env (Some msg) = openProtectedMessageEnvelope env raw.
Proof.
  intros Hm He Hf [sel Hs] [k Hk]. unfold openProtected, openProtectedMessageEnvelope. cbn [mbind option_bind].
  rewrite Hm. run. rewrite He, Hf, Hs, Hk. done.
Qed.

Lemma open_skf_step env peer enc ig k ek ik exchange msgID nextPayload flags pkt frags cfgTimeout now
    chunks seen deadline i c :
  env_ok env enc ig k → mirrored env peer → outboundKeyHalves env = Ok (ek, ik) → bytes c →
  fields_ok exchange msgID nextPayload flags → nextPayload ≠ skfFirstPayloadUnset →
  reassembling exchange msgID nextPayload chunks seen deadline frags →
  (seen = [] ∨ now <= deadline) → chunks !! i = Some c → len chunks <= 65535 → (2 <= length chunks)%nat →
  sealed_packet env enc ig ek ik exchange msgID (if decide (i = 0%nat) then nextPayload else PayloadTypeNone)
    PayloadTypeSKF (Some {| FragmentNumber := Z.of_nat i + 1; TotalFragments := len chunks |}) c flags pkt →
  openProtectedRawState cfgTimeout peer frags now pkt =
  if decide (complete (length chunks) (i :: seen)) then (None, deliver (concat chunks) nextPayload)
  else (Some (mkFragmentReassembly exchange msgID
          (if decide (0%nat ∈ i :: seen) then nextPayload else skfFirstPayloadUnset)
          (slots chunks (i :: seen)) (now + skf_timeout cfgTimeout)), Ok None).
Proof.
  intros Henv Hmir Ek Hbc Hf Hnp Hre Hnow Hc Hmax Htwo Hs. pose proof Hmir as (_ & Hk & _).
  rewrite (eo_keys _ _ _ _ Henv) in Hk. pose proof (lookup_lt_Some _ _ _ Hc) as Hi.
  set (inner := if decide (i = 0%nat) then nextPayload else PayloadTypeNone) in *.
  assert (Hf' : fields_ok exchange msgID inner flags).
  { destruct Hf. constructor; try done. unfold inner. destruct (decide (i = 0%nat)); [done|].
    unfold is_byte, PayloadTypeNone. lia. }
  destruct (open_sealed env peer enc ig k ek ik exchange msgID inner PayloadTypeSKF
    (Some {| FragmentNumber := Z.of_nat i + 1; TotalFragments := len chunks |}) c flags pkt)
    as (rest & sel & body & Eh & _ & Esel & Ekey & pre & Ew & Eo & _); try done.
  { unfold len in *. simpl. lia. }
  unfold openProtectedRawState. rewrite Esel, Hk, Eh. run. cbn [NextPayload sk_header]. rewrite Ew. run.
  rewrite Ekey. run. rewrite Eo. run. cbn [negb Z.eqb Pos.eqb PayloadTypeSKF MessageID ExchangeType sk_header].
  match goal with |- context [collectSKFragment _ ?e _ _ _ _ _] =>
    change e with (fragment_envelope nextPayload (length chunks) i body) end.
  rewrite (collect_step exchange msgID nextPayload chunks seen deadline) by done.
  destruct (decide (complete _ _)) as [Hcomp|]; [|done]. run. f_equal. unfold deliver.
  assert (Hfirst : (if negb (match frags with Some e => FirstInnerPayload e | None => skfFirstPayloadUnset end
      =? skfFirstPayloadUnset)
    then match frags with Some e => FirstInnerPayload e | None => skfFirstPayloadUnset end
    else InnerNext (fragment_envelope nextPayload (length chunks) i body)) = nextPayload); [|by rewrite Hfirst].
  assert (H0 : 0%nat ∈ i :: seen).
  { unfold complete in Hcomp. rewrite Forall_forall in Hcomp. apply Hcomp, elem_of_seq. lia. }
  unfold fragment_envelope. cbn [InnerNext]. destruct seen as [|s0 seen]; cbn in Hre; subst frags.
  - assert (i = 0%nat) as -> by set_solver. done.
  - cbn [FirstInnerPayload]. destruct (decide (0%nat ∈ s0 :: seen)) as [Hin|Hout].
    + by replace (nextPayload =? skfFirstPayloadUnset) with false by lia.
    + assert (i = 0%nat) as -> by set_solver. done.
Qed.

(** The receiver over a sequence of (arrival time, packet). *)
Fixpoint receive_raw (cfgTimeout : option Z) (env : ikeEnvelope) (frags : option FragmentReassembly)
    (arrivals : list (Z * list Z)) : option FragmentReassembly * list (res (option (list Wire.Payload))) :=
  match arrivals with
  | [] => (frags, [])
  | (now, raw) :: arrivals =>
      let '(frags, r) := openProtectedRawState cfgTimeout env frags now raw in
      let '(frags, rs) := receive_raw cfgTimeout env frags arrivals in
      (frags, r :: rs)
  end.

(** Consecutive arrivals are at most [timeout] apart. *)
Fixpoint timely (timeout prev : Z) (times : list Z) : Prop :=
  match times with [] => True | t :: times => t <= prev + timeout ∧ timely timeout t times end.

Lemma elem_of_rev {A} (x : A) l : x ∈ rev l ↔ x ∈ l.
Proof.
  induction l as [|y l IH]; [done|]. cbn [rev]. rewrite elem_of_app, IH, elem_of_cons. set_solver.
Qed.

Lemma complete_mono total seen seen' : seen ⊆ seen' → complete total seen → complete total seen'.
Proof. intros Hs Hc. eapply Forall_impl; [exact Hc|]. intros j Hj. by apply Hs. Qed.

Lemma receive_raw_partial env peer enc ig k ek ik exchange msgID nextPayload flags cfgTimeout chunks frames :
  env_ok env enc ig k → mirrored env peer → outboundKeyHalves env = Ok (ek, ik) → Forall bytes chunks →
  fields_ok exchange msgID nextPayload flags → nextPayload ≠ skfFirstPayloadUnset →
  len chunks <= 65535 → (2 <= length chunks)%nat → length frames = length chunks →
  (∀ i f c, frames !! i = Some f → chunks !! i = Some c →
     sealed_packet env enc ig ek ik exchange msgID (if decide (i = 0%nat) then nextPayload else PayloadTypeNone)
       PayloadTypeSKF (Some {| FragmentNumber := Z.of_nat i + 1; TotalFragments := len chunks |}) c flags f) →
  ∀ (order : list (nat * Z)) seen prev frags,
  Forall (λ a, (a.1 < length chunks)%nat) order →
  ¬ complete (length chunks) (rev order.*1 ++ seen) →
  reassembling exchange msgID nextPayload chunks seen (prev + skf_timeout cfgTimeout) frags →
  (match seen with
   | [] => match order with [] => True | a :: order => timely (skf_timeout cfgTimeout) a.2 order.*2 end
   | _ => timely (skf_timeout cfgTimeout) prev order.*2 end) →
  ∃ prev' frags',
    receive_raw cfgTimeout peer frags ((λ a, (a.2, frames !!! a.1)) <$> order)
      = (frags', replicate (length order) (Ok None)) ∧
    reassembling exchange msgID nextPayload chunks (rev order.*1 ++ seen) (prev' + skf_timeout cfgTimeout) frags' ∧
    (order = [] ∧ prev' = prev ∨ ∃ a, last order = Some a ∧ prev' = a.2).
Proof.
  intros Henv Hmir Ek Hbc Hf Hnp Hmax Htwo Hlf Hall.
  induction order as [|[i now] order IH]; intros seen prev frags Hrange Hnc Hre Htime.
  { exists prev, frags. split_and!; [done..|]. by left. }
  apply Forall_cons in Hrange as [Hi Hrange]. cbn [fst] in Hi.
  assert (Erev : rev ((i, now) :: order).*1 ++ seen = rev order.*1 ++ i :: seen)
    by (rewrite fmap_cons; cbn [rev fst]; by rewrite <- app_assoc).
  rewrite Erev in Hnc |- *. rewrite fmap_cons in Htime. cbn [fst snd] in Htime.
  destruct (lookup_lt_is_Some_2 chunks i Hi) as [c Hc].
  destruct (lookup_lt_is_Some_2 frames i) as [f Hfr]; [lia|].
  rewrite fmap_cons. cbn [receive_raw fst snd]. rewrite (list_lookup_total_correct frames i f Hfr).
  rewrite (open_skf_step env peer enc ig k ek ik exchange msgID nextPayload flags f frags cfgTimeout now
    chunks seen (prev + skf_timeout cfgTimeout) i c); try done; [|..|by apply (Hall i f c)].
  - rewrite decide_False.
    2: { intros Hcomp. apply Hnc. eapply complete_mono; [|exact Hcomp]. set_solver. }
    set (st := Some _). destruct (IH (i :: seen) now st) as (prev' & frags' & E & Hre' & Hlast); try done.
    { destruct seen; [by destruct order|]. by destruct Htime. }
    exists prev', frags'. rewrite E. split_and!; [done|done|]. right. destruct Hlast as [[-> ->]|(a & Ha & ->)]; [by exists (i, now)|].
    exists a. split; [|done]. destruct order; [done|]. by rewrite last_cons_cons.
  - rewrite Forall_lookup in Hbc. by eapply Hbc.
  - destruct seen; [by left|]. right. by destruct Htime.
Qed.

Lemma receive_raw_app cfgTimeout env frags xs ys :
  receive_raw cfgTimeout env frags (xs ++ ys) =
  let '(f1, r1) := receive_raw cfgTimeout env frags xs in
  let '(f2, r2) := receive_raw cfgTimeout env f1 ys in (f2, r1 ++ r2).
Proof.
  revert frags. induction xs as [|[now raw] xs IH]; intros frags; cbn [app receive_raw].
  { by destruct (receive_raw _ _ _ ys). }
  destruct (openProtectedRawState _ _ _ _ _) as [f r]. rewrite IH.
  destruct (receive_raw _ _ f xs) as [f1 r1]. by destruct (receive_raw _ _ f1 ys).
Qed.

Lemma timely_snoc T p l t : timely T p (l ++ [t]) →
  timely T p l ∧ t <= default p (last l) + T.
Proof.
  revert p. induction l as [|x l IH]; intros p; simpl; [tauto|].
  intros [H1 [H2 H3]%IH]. split; [done|]. destruct l as [|y l]; [done|].
  rewrite last_cons_cons. destruct (last (y :: l)) eqn:E; [done|]. by apply last_None in E.
Qed.

Lemma fragment_total_bounds env chunk n : 0 < chunk → 0 <= n →
  let total := fragment_total env chunk n in
  1 <= total ∧ (total = 1 → SupportsFragmentation (Env_Peer env) = false ∨ n <= chunk) ∧
  (1 < total → (total - 1) * chunk <= n ∧ n <= total * chunk).
Proof.
  intros Hc Hn. simpl. unfold fragment_total. destruct (SupportsFragmentation _); simpl; [|lia].
  destruct (chunk <? n) eqn:E; [|lia]. rewrite Z.quot_div_nonneg by lia.
  pose proof (Z.div_mod (n + chunk - 1) chunk ltac:(lia)).
  pose proof (Z.mod_pos_bound (n + chunk - 1) chunk ltac:(lia)). nia.
Qed.

Lemma fragment_chunk_pos limit : 0 < fragment_chunk limit.
Proof. unfold fragment_chunk, FragmentPlaintextLimit. destruct limit as [l|]; [destruct (0 <? l) eqn:E|]; lia. Qed.

(** Building: one frame per fragment. *)
Lemma build_spec env enc ig k ek ik limit exchange msgID nextPayload plaintext flags random :
  env_ok env enc ig k → outboundKeyHalves env = Ok (ek, ik) → bytes plaintext → is_byte nextPayload →
  random_ok enc random → fragment_chunk limit <= 65400 →
  let total := fragment_total env (fragment_chunk limit) (len plaintext) in
  total <= 65535 → (SupportsFragmentation (Env_Peer env) = false → len plaintext <= 65400) →
  ∃ frames, buildProtectedEnvelopeAs limit env exchange msgID nextPayload plaintext flags random = Ok frames ∧
    len frames = total ∧
    ∀ j f, frames !! j = Some f →
      frame_ok env enc ig ek ik (fragment_chunk limit) (Z.to_nat total) exchange msgID nextPayload plaintext flags j f.
Proof.
  intros Henv Ek Hbp Hn Hr Hch total Hmax Hone. pose proof (fragment_chunk_pos limit) as Hcp.
  destruct (fragment_total_bounds env (fragment_chunk limit) (len plaintext) Hcp (len_nonneg _)) as (T1 & T2 & T3).
  fold total in T1, T2, T3. pose proof Henv as [[(prf & dh & Es) _ _ _] Hk _ _ _ [Hspi _]].
  unfold buildProtectedEnvelopeAs. rewrite Es, Hk. replace (Env_InitiatorSPI env =? 0) with false by lia.
  fold total. replace (65535 <? total) with false by lia.
  destruct (build_frames_spec env enc ig k ek ik (fragment_chunk limit) (Z.to_nat total) exchange msgID
    nextPayload plaintext flags random Henv Ek Hbp ltac:(lia) Hn Hr ltac:(lia) ltac:(lia)) with (m := Z.to_nat total) (i := 0%nat)
    as (frames & Eb & Hl & Hall).
  - intros E. destruct (T2 ltac:(lia)); [by apply Hone|lia].
  - rewrite Z2Nat.id by lia. destruct (Z_lt_le_dec 1 total); [by apply T3|]. replace total with 1 by lia. len_norm. lia.
  - lia.
  - rewrite Z2Nat.id in Eb by lia. exists frames. split_and!; [exact Eb|unfold len; lia|exact Hall].
Qed.

(** The fragments of one message, last missing one included. *)
Lemma deliver_fragments env peer enc ig k ek ik exchange msgID nextPayload flags cfgTimeout chunks frames
    (order : list (nat * Z)) (lst : nat * Z) :
  env_ok env enc ig k → mirrored env peer → outboundKeyHalves env = Ok (ek, ik) → Forall bytes chunks →
  fields_ok exchange msgID nextPayload flags → nextPayload ≠ skfFirstPayloadUnset →
  len chunks <= 65535 → (2 <= length chunks)%nat → length frames = length chunks →
  (∀ i f c, frames !! i = Some f → chunks !! i = Some c →
     sealed_packet env enc ig ek ik exchange msgID (if decide (i = 0%nat) then nextPayload else PayloadTypeNone)
       PayloadTypeSKF (Some {| FragmentNumber := Z.of_nat i + 1; TotalFragments := len chunks |}) c flags f) →
  Forall (λ a, (a.1 < length frames)%nat) (order ++ [lst]) →
  complete (length frames) ((order ++ [lst]).*1) → lst.1 ∉ order.*1 →
  match order with
  | [] => True
  | a :: order' => timely (skf_timeout cfgTimeout) a.2 (order' ++ [lst]).*2
  end →
  receive_raw cfgTimeout peer None ((λ a, (a.2, frames !!! a.1)) <$> order ++ [lst])
  = (None, replicate (length order) (Ok None) ++ [deliver (concat chunks) nextPayload]).
Proof.
  intros Henv Hmir Ek Hbc Hf Hnp Hmax Htwo Hlen Hsp Hrange Hcomp Hnew Htime.
  apply Forall_app in Hrange as [Hro Hrl]. apply Forall_cons in Hrl as [Hl0 _].
  rewrite fmap_app, receive_raw_app.
  destruct (receive_raw_partial env peer enc ig k ek ik exchange msgID nextPayload flags cfgTimeout chunks frames)
    with (order := order) (seen := @nil nat) (prev := 0) (frags := @None FragmentReassembly)
    as (prev' & frags' & -> & Hre & Hprev); try done.
  { by rewrite <- Hlen. }
  { rewrite app_nil_r. intros Hc. apply Hnew. apply elem_of_rev. unfold complete in Hc.
    rewrite Forall_forall in Hc. apply Hc, elem_of_seq. lia. }
  { destruct order; [done|]. rewrite fmap_app in Htime. by apply timely_snoc in Htime as [? _]. }
  destruct lst as [j t]. cbn [fmap list_fmap receive_raw fst snd] in *.
  destruct (lookup_lt_is_Some_2 frames j Hl0) as [f Hfr].
  destruct (lookup_lt_is_Some_2 chunks j) as [c Hc]; [lia|].
  rewrite (list_lookup_total_correct frames j f Hfr). rewrite app_nil_r in Hre.
  rewrite (open_skf_step env peer enc ig k ek ik exchange msgID nextPayload flags f frags' cfgTimeout t
    chunks (rev order.*1) (prev' + skf_timeout cfgTimeout) j c); try done; [|..|by apply (Hsp j f c)].
  - rewrite decide_True; [done|]. rewrite <- Hlen. eapply complete_mono; [|exact Hcomp].
    intros x. rewrite fmap_app, elem_of_app, elem_of_cons, elem_of_rev. set_solver.
  - rewrite Forall_lookup in Hbc. by eapply Hbc.
  - destruct order as [|a order]; [by left|]. right. destruct Hprev as [[? _]|(b & Hb & ->)]; [done|].
    rewrite fmap_app in Htime. apply timely_snoc in Htime as [_ Ht].
    destruct order as [|b' order]; [by injection Hb as <-|].
    rewrite last_cons_cons in Hb. rewrite fmap_last, Hb in Ht. done.
Qed.

(** ** Lemmas: arbitrary packets *)

Lemma raw_walk_fine raw rest next hdr : bytes raw → ParseHeader raw = Ok (hdr, rest) →
  fine (raw_walk raw rest next).
Proof.
  intros Hb (W & _ & _ & _ & Hbr & Eraw)%ParseHeader_inv; [|done].
  assert (Hlen : HeaderLen + len rest <= len raw).
  { rewrite Eraw, !len_app, len_header_bytes by apply W. len_norm. lia. }
  apply (loop_fine (λ s, 0 <= s.2 <= len rest) (λ s, Z.to_nat (len rest - s.2)));
    [| |simpl; len_norm; lia|simpl; unfold len; lia].
  - intros [nxt off] Hoff. cbn [snd] in Hoff. unfold raw_walk_step, PayloadHeaderLen, SkfHeaderLen, HeaderLen in *.
    fine_solve.
    all: match goal with E : _ = Ok (?f, ?z), Ea : (?a <? 4) || _ = false |- _ =>
      assert (28 + off + 4 <= z <= 28 + off + a) by
        (destruct (nxt =? PayloadTypeSKF); [|injection E as <- <-; lia];
         destruct (28 + off + a <? _) eqn:?; [done|]; apply bind_Ok in E as (fb & _ & E);
         apply bind_Ok in E as ([f' r'] & _ & E); injection E as <- <-; lia) end.
    all: apply slice_fine; lia.
  - intros [nxt off] [nxt' off'] Hoff H. cbn [snd] in *. unfold raw_walk_step, PayloadHeaderLen in H.
    destruct (nxt =? PayloadTypeNone); [done|]. destruct (_ <? 4) eqn:E4; [done|].
    apply bind_Ok in H as (lf & _ & H). apply bind_Ok in H as (ln & _ & H).
    destruct (_ || _) eqn:El; [done|]. apply bind_Ok in H as (inner & _ & H).
    destruct ((nxt =? PayloadTypeSK) || (nxt =? PayloadTypeSKF)).
    + destruct (negb _); [done|]. apply bind_Ok in H as ([frag iv] & _ & H).
      apply bind_Ok in H as (aad & _ & H). apply bind_Ok in H as (body & _ & H). done.
    + injection H as <- <-. lia.
Qed.

Lemma raw_walk_bytes raw rest next t inner frag aad body : bytes raw →
  raw_walk raw rest next = Ok (t, inner, frag, aad, body) →
  bytes aad ∧ bytes body ∧ 0 <= FragmentNumber frag.
Proof.
  intros Hb. unfold raw_walk. revert t inner frag aad body.
  cut (∀ r, loop (S (length rest)) (raw_walk_step raw rest) (next, 0) = Ok r →
    bytes r.1.2 ∧ bytes r.2 ∧ 0 <= FragmentNumber r.1.1.2).
  { intros H t inner frag aad body E. exact (H _ E). }
  intros r. apply (loop_ind _ (λ _ r, bytes r.1.2 ∧ bytes r.2 ∧ 0 <= FragmentNumber r.1.1.2)); [|done].
  intros [nxt off] [[[[t inner] frag] aad] body] H. unfold raw_walk_step in H.
  inv_ok; simpl; (split_and!; [by eapply bytes_slice..|]); [|done].
  match goal with E : ParseSkfHeader ?b = Ok _, Es : slice raw _ _ = Ok ?b |- _ =>
    apply ParseSkfHeader_inv in E as (_ & ? & _); [lia|by eapply bytes_slice] end.
Qed.

Lemma openEncryptedBody_fine sel enc ig ek ik aad body :
  negotiated (Some sel) enc ig → bytes ek → bytes aad → bytes body →
  fine (openEncryptedBody sel ek ik aad body).
Proof.
  intros Hn Hek Ha Hb. pose proof Hn as [(prf & dh & [= ->]) (id & kl & He) (iid & Hi) _].
  destruct (negotiated_lens _ _ _ Hn) as (Liv & _ & Lout & _).
  unfold openEncryptedBody, deref. cbn [Sel_Encryption Sel_Integrity]. run.
  destruct (len body <? IVLen enc) eqn:E; [done|]. rewrite slice_take, slice_from_drop by lia. run.
  set (iv := take _ body). set (rest := drop _ body).
  assert (bytes iv) by by apply bytes_take. assert (bytes rest) by by apply bytes_drop.
  destruct (AEAD enc).
  - apply fine_bind; [apply fine_wrap; by eapply Open_fine|]. intros plain Ep. apply wrap_Ok in Ep.
    apply stripIKEPlaintext_fine. eapply (Open_bytes id kl enc ek iv aad rest); done.
  - destruct (Integ_KeyLen ig =? 0); [done|]. destruct (len rest <? _) eqn:E2; [done|].
    rewrite slice_take, slice_from_drop by lia. run. destruct (negb _); [done|].
    apply fine_bind; [apply fine_wrap, (Open_fine id kl); bytes_solve|].
    intros plain Ep. apply wrap_Ok, (Open_bytes id kl) in Ep; try done; [|bytes_solve..].
    by apply stripIKEPlaintext_fine.
Qed.

Lemma collectSKFragment_fine frags enc plain msgID exchange timeout now :
  0 <= FragmentNumber (Frag enc) →
  fine (collectSKFragment frags enc plain msgID exchange timeout now).2.
Proof.
  intros Hfn. unfold collectSKFragment. destruct (negb _ || negb _); [done|].
  destruct (_ || _ || _) eqn:Ef; [done|].
  set (fresh := mkFragmentReassembly _ _ _ (replicate _ _) _).
  assert (Hfresh : len (Fragments fresh) = TotalFragments (Frag enc)).
  { unfold fresh. cbn [Fragments]. rewrite len_replicate. lia. }
  match goal with |- fine (match ?m with inl _ => _ | inr _ => _ end).2 =>
    assert (Hm : match m with inl e => TotalFragments (Frag enc) <= len (Fragments e) | inr _ => True end);
    [|destruct m as [e|err]; [|done]] end.
  { destruct (match frags with Some e => _ | None => _ end) as [e|]; [|lia].
    destruct (negb _); [done|]. destruct (negb _); [done|]. destruct (len (Fragments e) <? _) eqn:E; lia. }
  cbn [FR_ExchangeType FR_MessageID FirstInnerPayload Fragments ExpiresAt].
  destruct (TotalFragments (Frag enc) <? len (Fragments e)) eqn:E; [done|].
  destruct (if FragmentNumber (Frag enc) =? 1 then _ else _); [|done].
  destruct (lookup_lt_is_Some_2 (Fragments e) (Z.to_nat (FragmentNumber (Frag enc) - 1))) as [st ->].
  { unfold len in *. lia. }
  by destruct (join_fragments _).
Qed.

End ProtectedLemmas.

(** Frames parse, and deliver the message. *)
Lemma build_delivery {C : Crypto} {L : CryptoLaws} (env peer : ikeEnvelope)
    (enc : EncryptionAlg) (ig : Integrity) (k : IKEKeys) (limit cfgTimeout : option Z)
    (exchange msgID nextPayload : Z) (plaintext : list Z) (flags : Z)
    (random : Z → Z → res (list Z)) :
  env_ok env enc ig k → mirrored env peer → bytes plaintext →
  fields_ok exchange msgID nextPayload flags → nextPayload ≠ skfFirstPayloadUnset →
  random_ok enc random → fragment_chunk limit <= 65400 →
  fragment_total env (fragment_chunk limit) (len plaintext) <= 65535 →
  (SupportsFragmentation (Env_Peer env) = false → len plaintext <= 65400) →
  ∃ frames,
    buildProtectedEnvelopeAs limit env exchange msgID nextPayload plaintext flags random = Ok frames ∧
    len frames = fragment_total env (fragment_chunk limit) (len plaintext) ∧
    Forall (λ f, ∃ t e, ParseMessage f = Ok (mkMessage (sk_header env exchange msgID t flags (len f)) [] (Some e)))
      frames ∧
    ∀ (order : list (nat * Z)) (lst : nat * Z),
      Forall (λ a, (a.1 < length frames)%nat) (order ++ [lst]) →
      complete (length frames) ((order ++ [lst]).*1) → lst.1 ∉ order.*1 →
      match order with
      | [] => True
      | a :: order' => timely (skf_timeout cfgTimeout) a.2 (order' ++ [lst]).*2
      end →
      receive_raw cfgTimeout peer None ((λ a, (a.2, frames !!! a.1)) <$> order ++ [lst])
      = (None, replicate (length order) (Ok None) ++ [deliver plaintext nextPayload]).
Proof.
  intros Henv Hmir Hbp Hf Hnp Hr Hch Hmax Hone.
  destruct (outbound_keys _ _ _ _ Henv) as (ek & ik & Ek & _).
  destruct (build_spec env enc ig k ek ik limit exchange msgID nextPayload plaintext flags random
    Henv Ek Hbp (fo_in _ _ _ _ Hf) Hr Hch Hmax Hone) as (frames & Eb & Hl & Hall).
  exists frames. split; [done|]. split; [done|]. split.
  { apply Forall_lookup. intros i f Hi. pose proof (Hall i f Hi) as Hfo. unfold frame_ok in Hfo.
    pose proof (lookup_lt_Some _ _ _ Hi) as Hil. unfold len in Hl at 1.
    edestruct (open_sealed env peer enc ig k ek ik) as (rest & sel & body & Eh & Ep & _);
      [exact Henv|exact Hmir|exact Ek| | | | |exact Hfo|].
    - destruct (decide (Z.to_nat (fragment_total env (fragment_chunk limit) (len plaintext)) = 1%nat)); [done|].
      by apply bytes_take, bytes_drop.
    - destruct Hf as [? ? ? ?]. constructor; try done. by destruct (decide (i = 0%nat)).
    - by destruct (decide (Z.to_nat (fragment_total env (fragment_chunk limit) (len plaintext)) = 1%nat)).
    - destruct (decide (Z.to_nat (fragment_total env (fragment_chunk limit) (len plaintext)) = 1%nat)); [done|].
      unfold frag_valid. cbn [FragmentNumber TotalFragments]. lia.
    - do 2 eexists. unfold ParseMessage. rewrite Eh. run. cbn [NextPayload sk_header]. rewrite Ep. done. }
  intros order lst Hrange Hcomp Hnew Htime.
  pose proof (fragment_chunk_pos limit) as Hcp. set (chunk := fragment_chunk limit) in *.
  destruct (fragment_total_bounds env chunk (len plaintext) Hcp (len_nonneg _)) as (T1 & T2 & T3).
  set (total := fragment_total env chunk (len plaintext)) in *.
  assert (Hlen : length frames = Z.to_nat total) by (unfold len in Hl; lia).
  destruct (decide (total = 1)) as [E1|E1].
  - replace (Z.to_nat total) with 1%nat in * by lia.
    apply Forall_app in Hrange as [Hro Hrl]. apply Forall_cons in Hrl as [Hl0 _].
    assert (order = []) as ->.
    { destruct order as [|[j t] order]; [done|]. apply Forall_cons in Hro as [Hj _]. simpl in *.
      exfalso. apply Hnew. apply elem_of_cons. left. lia. }
    destruct lst as [j t]. simpl in Hl0. replace j with 0%nat by lia. cbn [app fmap list_fmap receive_raw fst snd].
    destruct (lookup_lt_is_Some_2 frames 0) as [f Hfr]; [lia|].
    rewrite (list_lookup_total_correct frames 0 f Hfr).
    rewrite (open_sk env peer enc ig k ek ik exchange msgID nextPayload plaintext flags); try done.
    exact (Hall 0%nat f Hfr).
  - set (chunks := chunk_of chunk plaintext <$> seq 0 (Z.to_nat total)).
    assert (Hcl : length chunks = Z.to_nat total) by (unfold chunks; by rewrite length_fmap, length_seq).
    assert (Hsp : ∀ i f c, frames !! i = Some f → chunks !! i = Some c →
      sealed_packet env enc ig ek ik exchange msgID (if decide (i = 0%nat) then nextPayload else PayloadTypeNone)
        PayloadTypeSKF (Some {| FragmentNumber := Z.of_nat i + 1; TotalFragments := len chunks |}) c flags f).
    { intros i f c Hif Hic. pose proof (Hall i f Hif) as Hfo. unfold frame_ok in Hfo.
      rewrite !(decide_False (P := Z.to_nat total = 1%nat)) in Hfo by lia.
      unfold len. rewrite Hcl. unfold chunks in Hic. rewrite list_lookup_fmap in Hic.
      destruct (seq 0 (Z.to_nat total) !! i) as [i'|] eqn:Ei; [|done]. apply lookup_seq in Ei as [-> _].
      injection Hic as <-. exact Hfo. }
    assert (Hbc : Forall bytes chunks).
    { apply Forall_fmap, Forall_forall. intros j _. by apply bytes_take, bytes_drop. }
    assert (Hcat : concat chunks = plaintext).
    { apply concat_chunks; [done|]. destruct T3; [lia|]. unfold len in *. lia. }
    rewrite <- Hcat.
    apply (deliver_fragments env peer enc ig k ek ik exchange msgID nextPayload flags); try done;
      [unfold len; lia|lia|by rewrite Hcl].
Qed.

(* ------------------------------------------------------------------ *)
(** ** Properties *)

(** [C2] A protected message reaches the peer intact. Whatever the payload
    bytes (whole SK message or SKF fragments of any size), the frames built by
    one end and delivered to the other end of the SA - in any order, with
    duplicates, each within the reassembly timeout of the previous one - give
    "incomplete" until the last missing fragment arrives, and then exactly the
    payload chain of the sender's plaintext; no reassembly state is left. *)
Theorem protected_delivery {C : Crypto} {L : CryptoLaws} (env peer : ikeEnvelope)
    (enc : EncryptionAlg) (ig : Integrity) (k : IKEKeys) (limit cfgTimeout : option Z)
    (exchange msgID nextPayload : Z) (plaintext : list Z) (flags : Z)
    (random : Z → Z → res (list Z)) :
  env_ok env enc ig k → mirrored env peer → bytes plaintext →
  fields_ok exchange msgID nextPayload flags → nextPayload ≠ skfFirstPayloadUnset →
  random_ok enc random → fragment_chunk limit <= 65400 →
  fragment_total env (fragment_chunk limit) (len plaintext) <= 65535 →
  (SupportsFragmentation (Env_Peer env) = false → len plaintext <= 65400) →
  ∃ frames,
    buildProtectedEnvelopeAs limit env exchange msgID nextPayload plaintext flags random = Ok frames ∧
    len frames = fragment_total env (fragment_chunk limit) (len plaintext) ∧
    ∀ (order : list (nat * Z)) (lst : nat * Z),
      Forall (λ a, (a.1 < length frames)%nat) (order ++ [lst]) →
      complete (length frames) ((order ++ [lst]).*1) → lst.1 ∉ order.*1 →
      match order with
      | [] => True
      | a :: order' => timely (skf_timeout cfgTimeout) a.2 (order' ++ [lst]).*2
      end →
      receive_raw cfgTimeout peer None ((λ a, (a.2, frames !!! a.1)) <$> order ++ [lst])
      = (None, replicate (length order) (Ok None) ++ [deliver plaintext nextPayload]).
Proof.
  intros Henv Hmir Hbp Hf Hnp Hr Hch Hmax Hone.
  destruct (build_delivery env peer enc ig k limit cfgTimeout exchange msgID nextPayload plaintext flags random)
    as (frames & Eb & Hl & _ & H); try done. by exists frames.
Qed.

(** No datagram can crash the receiving side of an established IKE SA:
    whatever the bytes and whatever fragments are pending, opening it returns a
    message, "incomplete" or an error. *)
Theorem protected_robust {C : Crypto} {L : CryptoLaws} (env : ikeEnvelope) (enc : EncryptionAlg)
    (ig : Integrity) (k : IKEKeys) (cfgTimeout : option Z) (frags : option FragmentReassembly)
    (now : Z) (raw : list Z) :
  env_ok env enc ig k → bytes raw →
  fine (openProtectedRawState cfgTimeout env frags now raw).2.
Proof.
  intros Henv Hb. pose proof Henv as [Hsel Hk _ _ [Hbi Hbr] _]. pose proof Hsel as [(prf & dh & Es) _ _ _].
  unfold openProtectedRawState. rewrite Es, Hk. rewrite Es in Hsel.
  assert (Hin : ∃ ek ik, inboundKeyHalves env = Ok (ek, ik) ∧ bytes ek).
  { unfold inboundKeyHalves. rewrite Hk. run. destruct (Env_IsOriginalInitiator env); eauto. }
  destruct Hin as (ek & ik & Ek & Hek). rewrite Ek.
  match goal with |- fine (match ?m with Ok _ => _ | Err _ => _ | Panic => _ | Hang => _ end).2 =>
    assert (Hf : fine m ∧ ∀ x, m = Ok x → 0 <= FragmentNumber x.1.1.2);
    [|destruct m as [[[[[[hdr t] inner] frag] body] plain]|e| |]; try by destruct Hf] end.
  { split.
    - apply fine_bind; [apply ParseHeader_fine|]. intros [hdr rest] Eh.
      apply fine_bind; [by eapply raw_walk_fine|]. intros [[[[t inner] frag] aad] body] Ew.
      destruct (raw_walk_bytes _ _ _ _ _ _ _ _ Hb Ew) as (? & ? & _). run.
      apply fine_bind; [by eapply openEncryptedBody_fine|done].
    - intros x H. apply bind_Ok in H as ([hdr rest] & _ & H).
      apply bind_Ok in H as ([[[[t inner] frag] aad] body] & Ew & H). run.
      apply bind_Ok in H as ([k1 k2] & _ & H). apply bind_Ok in H as (plain & _ & H). injection H as <-.
      by destruct (raw_walk_bytes _ _ _ _ _ _ _ _ Hb Ew) as (_ & _ & ?). }
  destruct Hf as [_ Hfn]. specialize (Hfn _ eq_refl). simpl in Hfn.
  destruct (negb (t =? PayloadTypeSKF)); cbn [snd].
  - apply fine_bind; [apply ParsePayloads_fine|]. by intros [].
  - pose proof (collectSKFragment_fine frags {| Enc_Type := PayloadTypeSKF; InnerNext := inner;
      Fragmented := true; Frag := frag; Enc_Body := body |} plain (MessageID hdr) (ExchangeType hdr)
      (skf_timeout cfgTimeout) now Hfn) as Hc.
    destruct (collectSKFragment _ _ _ _ _ _ _) as [frags' r]. cbn [snd] in *.
    apply fine_bind; [done|]. intros [joined|] _; [|done].
    apply fine_bind; [apply ParsePayloads_fine|]. by intros [].
Qed.

(** A stale table overrides the first payload of a new message: when an
    expired, incomplete reassembly is still stored, a complete one-fragment SKF
    message is parsed with the old message's first payload type instead of its
    own, because [fragFirst] is read before the expired table is dropped. *)
Theorem stale_first_payload {C : Crypto} {L : CryptoLaws} (env peer : ikeEnvelope)
    (enc : EncryptionAlg) (ig : Integrity) (k : IKEKeys) (cfgTimeout : option Z)
    (exchange msgID nextPayload flags : Z) (plaintext : list Z) (random : Z → res (list Z))
    (iv : list Z) (old : FragmentReassembly) (now : Z) :
  env_ok env enc ig k → mirrored env peer → bytes plaintext → len plaintext <= 65400 →
  fields_ok exchange msgID nextPayload flags → random (IVLen enc) = Ok iv → bytes iv →
  len iv = IVLen enc → nextPayload ≠ skfFirstPayloadUnset →
  ExpiresAt old < now → FirstInnerPayload old ≠ skfFirstPayloadUnset →
  ∃ pkt, sealProtectedEnvelope env exchange msgID nextPayload PayloadTypeSKF
           (Some {| FragmentNumber := 1; TotalFragments := 1 |}) plaintext flags random = Ok pkt ∧
    openProtectedRawState cfgTimeout peer None now pkt = (None, deliver plaintext nextPayload) ∧
    openProtectedRawState cfgTimeout peer (Some old) now pkt
      = (None, deliver plaintext (FirstInnerPayload old)).
Proof.
  intros Henv Hmir Hbp Hmax Hf Hr Hbi Hli Hnp Hexp Hfirst.
  destruct (seal_spec env enc ig k exchange msgID nextPayload PayloadTypeSKF
    (Some {| FragmentNumber := 1; TotalFragments := 1 |}) plaintext flags random iv)
    as (ek & ik & pkt & Ek & Es & Hs); try done; [apply Hf|].
  exists pkt. split; [done|]. pose proof Hmir as (_ & Hk & _). rewrite (eo_keys _ _ _ _ Henv) in Hk.
  destruct (open_sealed env peer enc ig k ek ik exchange msgID nextPayload PayloadTypeSKF
    (Some {| FragmentNumber := 1; TotalFragments := 1 |}) plaintext flags pkt)
    as (rest & sel & body & Eh & _ & Esel & Ekey & pre & Ew & Eo & _); try done.
  unfold openProtectedRawState. rewrite Esel, Hk, Eh. run. cbn [NextPayload sk_header]. rewrite Ew. run.
  rewrite Ekey. run. rewrite Eo. run. cbn [negb Z.eqb Pos.eqb PayloadTypeSKF MessageID ExchangeType sk_header].
  match goal with |- context [collectSKFragment _ ?e _ _ _ _ _] =>
    change e with (fragment_envelope nextPayload 1 0 body) end.
  rewrite collect_expired by (done || lia). rewrite collect_single by done. split; [done|].
  by replace (FirstInnerPayload old =? skfFirstPayloadUnset) with false by lia.
Qed.

(* ------------------------------------------------------------------ *)
(** ** Witnesses *)

Definition ike_sample_enc : EncryptionAlg :=
  mkEncryptionAlg TransformEncryptionAESCBC "aes128" 16 16 0 16 16 0 false.
Definition ike_sample_integ : Integrity :=
  mkIntegrity TransformIntegrityHMACSHA196 12 20 (Some HashSHA1).
Definition ike_sample_keys : IKEKeys :=
  mkIKEKeys (sample_key 20) (sample_key 20) (sample_key 20) (sample_key 16) (sample_key 16)
    (sample_key 20) (sample_key 20).
Definition ike_sample (initiator : bool) : ikeEnvelope :=
  mkIkeEnvelope 77 88 initiator
    (Some (mkSelection (Some ike_sample_enc) (Some ike_sample_integ) None None))
    (Some ike_sample_keys) (mkPeerCapabilities false false true).

(** A nonce payload: next-payload none, length 12, eight bytes. *)
Definition ike_sample_plain : list Z := [0; 0; 0; 12; 1; 2; 3; 4; 5; 6; 7; 8].
Definition ike_sample_iv (i n : Z) : res (list Z) := Ok (zeros n).

Lemma ike_sample_ok b : env_ok (ike_sample b) ike_sample_enc ike_sample_integ ike_sample_keys.
Proof.
  constructor; [constructor|..]; try (by split); try done.
  - by eexists _, _.
  - by exists TransformEncryptionAESCBC, 16.
  - by exists TransformIntegrityHMACSHA196.
  - split; by apply (bool_decide_unpack _); vm_compute.
Qed.

Lemma ike_sample_fields : fields_ok 35 7 PayloadTypeNonce 8.
Proof. by repeat constructor. Qed.

(** Three fragments of five bytes arrive as 3, 1, 1, 2. *)
Lemma protected_delivery_witness : ∃ frames,
  buildProtectedEnvelopeAs (C := xor_crypto) (Some 5) (ike_sample true) 35 7 PayloadTypeNonce
    ike_sample_plain 8 ike_sample_iv = Ok frames ∧ len frames = 3 ∧
  receive_raw (C := xor_crypto) None (ike_sample false) None
    ((λ a, (a.2, frames !!! a.1)) <$> [(2%nat, 0); (0%nat, 10); (0%nat, 11)] ++ [(1%nat, 12)])
  = (None, [Ok None; Ok None; Ok None;
            Ok (Some [{| Payload_Type := PayloadTypeNonce; Next := 0; Critical := false;
                         Body := [1; 2; 3; 4; 5; 6; 7; 8] |}])]).
Proof.
  destruct (protected_delivery (C := xor_crypto) (L := xor_crypto_laws) (ike_sample true)
    (ike_sample false) ike_sample_enc ike_sample_integ ike_sample_keys (Some 5) None 35 7
    PayloadTypeNonce ike_sample_plain 8 ike_sample_iv) as (frames & E & El & H).
  - apply ike_sample_ok.
  - done.
  - by apply (bool_decide_unpack _).
  - exact ike_sample_fields.
  - done.
  - intros i. exists (zeros 16). split_and!; [done|apply zeros_bytes|done].
  - done.
  - done.
  - done.
  - exists frames. split_and!; [exact E|exact El|].
    assert (Hl : length frames = 3%nat).
    { unfold len in El. change (Z.of_nat (length frames) = 3) in El. lia. }
    rewrite (H [(2%nat, 0); (0%nat, 10); (0%nat, 11)] (1%nat, 12)); rewrite ?Hl;
      [reflexivity|by apply (bool_decide_unpack _)..|].
    repeat split; vm_compute; discriminate.
Defined.

Lemma protected_robust_witness :
  fine (openProtectedRawState (C := xor_crypto) None (ike_sample true) None 5 [1; 2; 3]).2.
Proof.
  apply (protected_robust (C := xor_crypto) (L := xor_crypto_laws) (ike_sample true) ike_sample_enc
    ike_sample_integ ike_sample_keys); [apply ike_sample_ok|by apply (bool_decide_unpack _)].
Defined.

(** The leftover of an IKE_AUTH response started with an IDr payload (36); the
    new message is a nonce (40). *)
Definition ike_sample_old : FragmentReassembly := mkFragmentReassembly 35 1 36 [Some [1]; None] 100.

Lemma stale_first_payload_witness : ∃ pkt,
  sealProtectedEnvelope (C := xor_crypto) (ike_sample true) 35 7 PayloadTypeNonce PayloadTypeSKF
    (Some {| FragmentNumber := 1; TotalFragments := 1 |}) ike_sample_plain 8 (ike_sample_iv 0) = Ok pkt ∧
  openProtectedRawState (C := xor_crypto) None (ike_sample false) None 200 pkt
    = (None, deliver ike_sample_plain PayloadTypeNonce) ∧
  openProtectedRawState (C := xor_crypto) None (ike_sample false) (Some ike_sample_old) 200 pkt
    = (None, deliver ike_sample_plain 36).
Proof.
  apply (stale_first_payload (C := xor_crypto) (L := xor_crypto_laws) (ike_sample true)
    (ike_sample false) ike_sample_enc ike_sample_integ ike_sample_keys None 35 7 PayloadTypeNonce 8
    ike_sample_plain (ike_sample_iv 0) (zeros 16) ike_sample_old 200);
    first [exact (ike_sample_ok true)|exact ike_sample_fields|apply zeros_bytes|done
      |by apply (bool_decide_unpack _)].
Defined.
