(* ===== verification/Eap.v ===== *)
(** * EAP packets and the method worker (src/eap/eap.go, src/eap/worker.go)

    The EAP packet codec, the interface of an EAP peer method as a type class,
    and the worker that serves the rounds of one method in mailbox order. *)

From S2P Require Import Prelude Crypto.

(* ------------------------------------------------------------------ *)
(** ** eap.go *)

Definition CodeRequest : Z := 1.
Definition CodeResponse : Z := 2.
Definition CodeSuccess : Z := 3.
Definition CodeFailure : Z := 4.

Definition TypeIdentity : Z := 1.
Definition TypeNAK : Z := 3.
Definition TypeMSTLV : Z := 33.
Definition TypePEAP : Z := 25.
Definition TypeMSCHAPV2 : Z := 26.

Record Packet := mkPacket { Pkt_Code : Z; Identifier : Z; Pkt_Type : Z; Pkt_Data : list Z }.

Definition Parse (b : list Z) : res Packet :=
  if len b <? 4 then Err "eap: packet too short: %d bytes"
  else
  lf ← b.[2, 4]; declared ← beUint16 lf;
  if negb (declared =? len b) then
    Err "eap: declared length %d does not match buffer length %d"
  else
  code ← b.[0];
  id ← b.[1];
  if code =? CodeRequest then
    if declared <? 5 then Err "eap: %s packet missing type byte"
    else
      typ ← b.[4];
      data ← slice_from b 5;
      Ok (mkPacket code id typ data)
  else if (code =? CodeSuccess) || (code =? CodeFailure) then
    data ← slice_from b 4;
    Ok (mkPacket code id 0 data)
  else Err "eap: unsupported code %d".

(** An oversized packet is an explicit [panic]. *)
Definition BuildRequest (code id typ : Z) (data : list Z) : res (list Z) :=
  let hasType := (code =? CodeRequest) || (code =? CodeResponse) in
  let packetLen := 4 + len data + (if hasType then 1 else 0) in
  if 65535 <? packetLen then Panic
  else
  Ok ([u8 code; id] ++ putUint16 (u16 packetLen) ++ (if hasType then [u8 typ] else []) ++ data).

Inductive Action := ActionSend | ActionComplete.
#[global] Instance Action_eq_dec : EqDecision Action.
Proof. solve_decision. Defined.

Record Result := mkResult { Res_Action : Action; Response : list Z; ExportedMSK : list Z }.

Definition send (response : list Z) : Result := mkResult ActionSend response [].
Definition finished (msk : list Z) : Result := mkResult ActionComplete [] msk.
(** The zero value of [Result]. *)
Definition zero_result : Result := mkResult ActionSend [] [].

(** [eap.Method]. Handle takes the inbound packet, the round, and what
    [rand.Read] gives should the step draw a 16-byte challenge. *)
Class Method (M : Type) := {
  Method_Initialize : M → M * res unit;
  Method_Handle : M → list Z → Z → res (list Z) → M * res Result;
  Method_Close : M → M * res unit }.

Record EapConfig := mkEapConfig {
  EapMethodName : string;
  EapIdentity : list Z;
  EapPassword : list Z;
  EapServerName : list Z;
  FragmentSize : Z;
  MaxMessageCount : Z;
  IncludeLength : bool;
  EapStrongswanCompatible : bool;
  InsecureSkipVerify : bool }.

(* ------------------------------------------------------------------ *)
(** ** worker.go *)

(** [Round_Packet = None] is the re-initialize signal; a round without a reply
    channel has [HasReply = false]. *)
Record Round := mkRound {
  Round_Packet : option (list Z);
  Round_ID : Z;
  HasReply : bool;
  Round_Random : res (list Z) }.

Section Worker.
Context {M : Type} {IM : Method M}.

(** One round: the method and the completed flag it leaves and what is sent on
    the reply channel ([None]: nothing). A panic of the method ends the
    process. *)
Definition serve_round (m : M) (completed : bool) (r : Round) : M * bool * option (res Result) :=
  if negb (HasReply r) then (m, completed, None)
  else
  match Round_Packet r with
  | None =>
      let '(m, e) := Method_Initialize m in
      (m, completed, Some (match e with Ok _ => Ok zero_result | Err e => Err e | Panic => Panic | Hang => Hang end))
  | Some packet =>
      if completed then (m, completed, Some (Err "eap: method %s already completed"))
      else
      match Method_Handle m packet (Round_ID r) (Round_Random r) with
      | (m, Ok result) =>
          if decide (Res_Action result = ActionComplete)
          then ((Method_Close m).1, true, Some (Ok result))
          else (m, false, Some (Ok result))
      | (m, e) => (m, false, Some e)
      end
  end.

Fixpoint serve_rounds (m : M) (completed : bool) (rs : list Round) : M * bool * list (option (res Result)) :=
  match rs with
  | [] => (m, completed, [])
  | r :: rs =>
      let '(m, completed, reply) := serve_round m completed r in
      let '(m, completed, replies) := serve_rounds m completed rs in
      (m, completed, reply :: replies)
  end.

(** [Worker.Run] over the rounds received until the mailbox closes. *)
Definition Run (m : M) (rs : list Round) : M * res (list (option (res Result))) :=
  match Method_Initialize m with
  | (m, Ok _) => let '(m, _, replies) := serve_rounds m false rs in (m, Ok replies)
  | (m, Err e) => (m, wrap "eap: initialize %s: " (Err e))
  | (m, Panic) => (m, Panic)
  | (m, Hang) => (m, Hang)
  end.
End Worker.

(* ------------------------------------------------------------------ *)
(** ** Lemmas *)

Lemma Parse_fine b : fine (Parse b).
Proof. unfold Parse. fine_solve. Qed.
#[export] Hint Resolve Parse_fine : go.

Lemma Parse_untyped b pkt : Parse b = Ok pkt → Pkt_Code pkt ≠ CodeRequest →
  pkt = mkPacket (Pkt_Code pkt) (Identifier pkt) 0 (Pkt_Data pkt).
Proof. unfold Parse. intros H Hc. inv_ok; simpl in *; [lia|done]. Qed.

Lemma Parse_id b pkt : bytes b → Parse b = Ok pkt → is_byte (Identifier pkt).
Proof. unfold Parse. intros Hb H. inv_ok; simpl in *; bytes_facts; done. Qed.

(** The peer's view of a request it is sent. *)
Lemma Parse_request id typ data : is_byte typ → len data <= 65530 →
  ∃ b, BuildRequest CodeRequest id typ data = Ok b ∧ Parse b = Ok (mkPacket CodeRequest id typ data).
Proof.
  intros Ht Hl. pose proof (len_nonneg data). unfold BuildRequest. cbn [CodeRequest Z.eqb Pos.eqb orb].
  rewrite (proj2 (Z.ltb_ge _ _)) by lia. eexists. split; [reflexivity|].
  rewrite (u8_small typ) by done. unfold u16. rewrite Z.mod_small by lia.
  set (n := 4 + len data + 1). change (u8 CodeRequest) with 1. unfold Parse.
  assert (Hn : len ([1; id] ++ putUint16 n ++ [typ] ++ data) = n) by (unfold n; llia).
  rewrite Hn. replace (n <? 4) with false by (unfold n; lia).
  rewrite (slice_mid [1; id] (putUint16 n)) by done. run.
  rewrite beUint16_put' by (unfold n; lia). run. rewrite Z.eqb_refl. cbn [negb].
  change (([1; id] ++ putUint16 n ++ [typ] ++ data).[0]) with (Ok 1).
  change (([1; id] ++ putUint16 n ++ [typ] ++ data).[1]) with (Ok id). run.
  cbn [Z.eqb Pos.eqb CodeRequest]. rewrite (proj2 (Z.ltb_ge n 5)) by (unfold n; lia).
  change (([1; id] ++ putUint16 n ++ [typ] ++ data).[4]) with (Ok typ). run.
  by rewrite (app_assoc [1; id]), (app_assoc (_ ++ putUint16 n)), slice_from_suffix by done.
Qed.

Lemma BuildRequest_response id typ data : is_byte id → is_byte typ → len data <= 65530 →
  ∃ b, BuildRequest CodeResponse id typ data = Ok b ∧ len b = 5 + len data ∧
    b = [CodeResponse; id] ++ putUint16 (5 + len data) ++ [typ] ++ data.
Proof.
  intros Hi Ht Hl. pose proof (len_nonneg data). unfold BuildRequest. cbn [CodeResponse CodeRequest Z.eqb Pos.eqb orb].
  rewrite (proj2 (Z.ltb_ge _ _)) by lia. eexists. split; [reflexivity|].
  rewrite (u8_small typ) by done. unfold u16. rewrite Z.mod_small by lia.
  replace (4 + len data + 1) with (5 + len data) by lia. split; [llia|done].
Qed.

Section WorkerLemmas.
Context {M : Type} {IM : Method M}.

Lemma serve_completed (m : M) rs m' c' replies :
  serve_rounds m true rs = (m', c', replies) →
  c' = true ∧ Forall2 (λ r reply, ∀ result packet, Round_Packet r = Some packet → reply ≠ Some (Ok result)) rs replies.
Proof.
  revert m m' replies. induction rs as [|r rs IH]; intros m m' replies H.
  { injection H as <- <- <-. by split. }
  cbn [serve_rounds] in H. destruct (serve_round m true r) as [[m1 c1] reply] eqn:E1.
  assert (c1 = true ∧ ∀ result packet, Round_Packet r = Some packet → reply ≠ Some (Ok result)) as [-> Hr].
  { unfold serve_round in E1. destruct (HasReply r); cbn [negb] in E1; [|by injection E1 as <- <- <-].
    destruct (Round_Packet r); [by injection E1 as <- <- <-|].
    destruct (Method_Initialize m) as [m2 e]. by injection E1 as <- <- <-. }
  destruct (serve_rounds m1 true rs) as [[m2 c2] replies2] eqn:E2. injection H as <- <- <-.
  destruct (IH _ _ _ E2) as [-> ?]. by split; [|constructor].
Qed.
End WorkerLemmas.
