(* ===== verification/Identity.v ===== *)
(** * Responder identity and rekey collisions
    (src/control/identity.go, src/control/collision.go)

    [RightIDMatches] with its two-pointer glob matcher, and the nonce
    comparison that settles simultaneous rekeys. *)

From S2P Require Import Prelude Payload.

(* ------------------------------------------------------------------ *)
(** ** identity.go *)

Definition IDFqdn : Z := 2.
Definition IDRfc822Addr : Z := 3.
Definition ch_star : Z := 42.
Definition ch_quest : Z := 63.

Definition asciiLower (b : Z) : Z :=
  if (65 <=? b) && (b <=? 90) then u8 (b + (97 - 65)) else b.

(** One iteration of the matching loop over [pi], [vi], [starPi], [starVi]:
    the loop ends with [Some pi], or the function returns false ([None]). *)
Definition wildcard_step (pattern value : list Z) (s : Z * Z * Z * Z) :
    res ((Z * Z * Z * Z) + option Z) :=
  let '(pi, vi, starPi, starVi) := s in
  if vi <? len value then
    pc ← (if pi <? len pattern then c ← pattern.[pi]; Ok (Some c) else Ok None);
    vc ← value.[vi];
    let backtrack :=
      if negb (starPi =? -1) then Ok (inl (starPi + 1, starVi + 1, starPi, starVi + 1))
      else Ok (inr None) in
    match pc with
    | Some c =>
        if (c =? ch_quest) || (c =? vc) then Ok (inl (pi + 1, vi + 1, starPi, starVi))
        else if c =? ch_star then Ok (inl (pi + 1, vi, pi, vi))
        else backtrack
    | None => backtrack
    end
  else Ok (inr (Some pi)).

(** The loop over trailing stars. *)
Definition skip_stars_step (pattern : list Z) (pi : Z) : res (Z + bool) :=
  if pi <? len pattern then
    c ← pattern.[pi];
    if c =? ch_star then Ok (inl (pi + 1)) else Ok (inr (pi =? len pattern))
  else Ok (inr (pi =? len pattern)).

Definition wildcardMatch (pattern value : list Z) (fold : bool) : res bool :=
  let pattern := if fold then asciiLower <$> pattern else pattern in
  let value := if fold then asciiLower <$> value else value in
  let fuel := (S (length value) * S (length value + length pattern))%nat in
  r ← loop fuel (wildcard_step pattern value) (0, 0, -1, 0);
  match r with
  | None => Ok false
  | Some pi => loop (S (length pattern)) (skip_stars_step pattern) pi
  end.

Definition RightIDMatches (expected received : ID) : res bool :=
  if ID_Type expected =? 0 then Ok true
  else if negb (ID_Type expected =? ID_Type received) then Ok false
  else if (ID_Type expected =? IDFqdn) || (ID_Type expected =? IDRfc822Addr)
  then wildcardMatch (ID_Data expected) (ID_Data received) true
  else Ok (bool_decide (ID_Data expected = ID_Data received)).

(* ------------------------------------------------------------------ *)
(** ** collision.go *)

Inductive CollisionDecision := CollisionNoCollision | CollisionWeWin | CollisionWeLose.
#[global] Instance CollisionDecision_eq_dec : EqDecision CollisionDecision.
Proof. solve_decision. Defined.

(** [bytes.Compare] *)
Fixpoint bytes_Compare (a b : list Z) : Z :=
  match a, b with
  | [], [] => 0
  | [], _ :: _ => -1
  | _ :: _, [] => 1
  | x :: a, y :: b => if x <? y then -1 else if y <? x then 1 else bytes_Compare a b
  end.

Definition decideNonceCollision (ours theirs : list Z) : CollisionDecision :=
  if (len ours =? 0) || (len theirs =? 0) then CollisionNoCollision
  else
    let n := len ours in
    let n := if len theirs <? n then len theirs else n in
    if bytes_Compare (take (Z.to_nat n) ours) (take (Z.to_nat n) theirs) <? 0
    then CollisionWeLose else CollisionWeWin.

(* ------------------------------------------------------------------ *)
(** ** Specification of the glob language *)

(** ['*'] stands for any run of bytes, ['?'] for one byte, any other byte for
    itself. *)
Fixpoint glob (p v : list Z) : bool :=
  match p with
  | [] => match v with [] => true | _ :: _ => false end
  | c :: p =>
      if c =? ch_star then
        (fix star (v : list Z) : bool :=
           glob p v || match v with [] => false | _ :: v => star v end) v
      else
        match v with
        | [] => false
        | x :: v => ((c =? ch_quest) || (c =? x)) && glob p v
        end
  end.

Lemma glob_star p v :
  glob (ch_star :: p) v = true ↔ ∃ k, (k <= length v)%nat ∧ glob p (drop k v) = true.
Proof.
  cbn [glob]. rewrite Z.eqb_refl. induction v as [|x v IH].
  - rewrite orb_false_r. split; [by exists 0%nat|]. intros (k & _ & H). by rewrite drop_nil in H.
  - rewrite orb_true_iff, IH. split.
    + intros [H|(k & Hk & H)]; [by exists 0%nat; split; [lia|]|exists (S k); simpl; split; [lia|done]].
    + intros ([|k] & Hk & H); [by left|]. right. exists k. simpl in *. split; [lia|done].
Qed.

Lemma glob_char c p x v : c ≠ ch_star →
  glob (c :: p) (x :: v) = ((c =? ch_quest) || (c =? x)) && glob p v.
Proof. intros H%Z.eqb_neq. cbn [glob]. by rewrite H. Qed.

(** A star-free segment consumes exactly its length. *)
Lemma glob_segment seg q v : Forall (λ c, c ≠ ch_star) seg → glob (seg ++ q) v = true →
  (length seg <= length v)%nat ∧ glob q (drop (length seg) v) = true.
Proof.
  intros Hs. revert v. induction Hs as [|c seg Hc _ IH]; intros v H; [simpl; split; [lia|by rewrite drop_0]|].
  destruct v as [|x v].
  - cbn [app glob] in H. apply Z.eqb_neq in Hc. by rewrite Hc in H.
  - cbn [app] in H. rewrite glob_char in H by done. apply andb_true_iff in H as [_ H].
    apply IH in H as [? ?]. simpl. split; [lia|done].
Qed.

(* ------------------------------------------------------------------ *)
(** ** The matcher decides the specification *)

Section Wildcard.
Context (P V : list Z).

(** What is left to decide in a loop state: the current alignment, or a later
    start for the last star seen. *)
Definition pending (i j : nat) (star : option (nat * nat)) : Prop :=
  glob (drop i P) (drop j V) = true ∨
  match star with
  | None => False
  | Some (si, sj) => ∃ k, (sj < k <= length V)%nat ∧ glob (drop (S si) P) (drop k V) = true
  end.

Definition no_star (l : list Z) : Prop := Forall (λ c, c ≠ ch_star) l.

(** Since the last star the pattern advanced in step with the value, over
    bytes that are no stars if the value has none. *)
Definition aligned (i j : nat) (star : option (nat * nat)) : Prop :=
  (i <= length P)%nat ∧ (j <= length V)%nat ∧
  match star with
  | None => True
  | Some (si, sj) => (si < length P)%nat ∧ (sj <= j)%nat ∧ (no_star V → ∃ seg, drop (S si) P = seg ++ drop i P ∧
      length seg = (j - sj)%nat ∧ no_star seg)
  end.

Definition glob_state (i j : nat) (star : option (nat * nat)) : Z * Z * Z * Z :=
  (Z.of_nat i, Z.of_nat j, match star with Some (si, _) => Z.of_nat si | None => -1 end,
   match star with Some (_, sj) => Z.of_nat sj | None => 0 end).

Definition glob_measure (i j : nat) (star : option (nat * nat)) : nat :=
  ((length V - match star with Some (_, sj) => sj | None => 0 end) * S (length V + length P)
   + (length V - j) + (length P - i))%nat.

Lemma idx_nat (l : list Z) (i : nat) c : l !! i = Some c → l.[Z.of_nat i] = Ok c.
Proof. intros H. unfold idx. rewrite (proj2 (Z.ltb_ge _ _)) by lia. by rewrite Nat2Z.id, H. Qed.

Lemma skip_stars_spec (i f : nat) : (i <= length P)%nat → (length P - i < f)%nat →
  loop f (skip_stars_step P) (Z.of_nat i) = Ok (glob (drop i P) []).
Proof.
  revert i. induction f as [|f IH]; intros i Hi Hf; [lia|]. rewrite loop_S. unfold skip_stars_step at 2.
  destruct (decide (i = length P)) as [->|Hne].
  - unfold len. rewrite Z.ltb_irrefl, Z.eqb_refl. run. by rewrite drop_all.
  - destruct (lookup_lt_is_Some_2 P i) as [c Hc]; [lia|]. unfold len.
    rewrite (proj2 (Z.ltb_lt _ _)) by lia. rewrite (idx_nat _ _ _ Hc). run.
    rewrite (drop_S P c i Hc). destruct (c =? ch_star) eqn:E.
    + apply Z.eqb_eq in E as ->. run. replace (Z.of_nat i + 1) with (Z.of_nat (S i)) by lia.
      rewrite IH by lia. cbn [glob]. by rewrite Z.eqb_refl, orb_false_r.
    + run. cbn [glob]. rewrite E. f_equal. lia.
Qed.

(** A star met in the pattern replaces the one before it. *)
Lemma pending_star i j star c : no_star V → aligned i j star → (j < length V)%nat → P !! i = Some c →
  c = ch_star → pending i j star ↔ pending (S i) j (Some (i, j)).
Proof.
  intros HV (_ & _ & Hal) Hj Hc ->. unfold pending. rewrite (drop_S P ch_star i Hc), glob_star, length_drop.
  split.
  - assert (Key : ∀ k, (j <= k <= length V)%nat → glob (drop (S i) P) (drop k V) = true →
      glob (drop (S i) P) (drop j V) = true ∨
      ∃ k, (j < k <= length V)%nat ∧ glob (drop (S i) P) (drop k V) = true).
    { intros k Hk H. destruct (decide (k = j)) as [->|]; [by left|right; exists k; split; [lia|done]]. }
    intros [(k & Hk & H)|H].
    + rewrite drop_drop in H. apply (Key (j + k)%nat); [lia|done].
    + destruct star as [[si sj]|]; [|done]. destruct H as (k & Hk & H), Hal as (_ & Hsj & (seg & Hd & Hl & Hf)%(λ x, x HV)).
      rewrite Hd, (drop_S P ch_star i Hc) in H. apply glob_segment in H as [Hl2 H]; [|done].
      apply glob_star in H as (m & Hm & H). rewrite length_drop in Hl2. rewrite !length_drop in Hm.
      rewrite !drop_drop in H. apply (Key (k + length seg + m)%nat); [lia|]. by rewrite <- Nat.add_assoc in *.
  - intros [H|(k & Hk & H)]; left; [exists 0%nat; rewrite drop_0; split; [lia|done]|].
    exists (k - j)%nat. rewrite drop_drop. replace (j + (k - j))%nat with k by lia. split; [lia|done].
Qed.

Lemma pending_backtrack i j si sj : (sj <= j < length V)%nat → glob (drop i P) (drop j V) = false →
  pending i j (Some (si, sj)) ↔ pending (S si) (S sj) (Some (si, S sj)).
Proof.
  intros Hj Hf. unfold pending. rewrite Hf. split.
  - intros [?|(k & Hk & H)]; [done|]. destruct (decide (k = S sj)) as [->|]; [by left|].
    right. exists k. split; [lia|done].
  - intros [H|(k & Hk & H)]; right; [exists (S sj); split; [lia|done]|exists k; split; [lia|done]].
Qed.

Lemma pending_end i star : no_star V → aligned i (length V) star →
  pending i (length V) star ↔ glob (drop i P) [] = true.
Proof.
  intros HV (_ & _ & Hal). unfold pending. rewrite drop_all. split; [|by left]. intros [H|H]; [done|].
  destruct star as [[si sj]|]; [|done]. destruct H as (k & Hk & H), Hal as (_ & Hsj & (seg & Hd & Hl & Hf)%(λ x, x HV)).
  rewrite Hd in H. apply glob_segment in H as [Hl2 _]; [|done]. rewrite length_drop in Hl2. lia.
Qed.

(** The outcome of the two loops, given the state reached so far. *)
Definition finish (r : option Z) : res bool :=
  match r with None => Ok false | Some pi => loop (S (length P)) (skip_stars_step P) pi end.

Lemma wildcard_loop_spec : ∀ f i j star,
  aligned i j star → (glob_measure i j star < f)%nat →
  ∃ b, (r ← loop f (wildcard_step P V) (glob_state i j star); finish r) = Ok b ∧
    (no_star V → b = true ↔ pending i j star).
Proof.
  induction f as [|f IH]; intros i j star Hal Hf; [lia|].
  pose proof Hal as (Hi & Hj & Hs). rewrite loop_S. unfold wildcard_step at 2, glob_state.
  destruct (decide (j = length V)) as [->|Hne].
  { unfold len. rewrite Z.ltb_irrefl. run. cbn [finish]. rewrite skip_stars_spec by lia.
    eexists. split; [done|]. intros HV. by rewrite (pending_end i star HV Hal). }
  destruct (lookup_lt_is_Some_2 V j) as [x Hx]; [lia|]. unfold len.
  rewrite (proj2 (Z.ltb_lt _ _)) by lia. rewrite (idx_nat _ _ _ Hx).
  assert (Back : glob (drop i P) (drop j V) = false → ∃ b,
    (r ← (if negb (match star with Some (si, _) => Z.of_nat si | None => -1 end =? -1)
          then loop f (wildcard_step P V) (match star with Some (si, _) => Z.of_nat si | None => -1 end + 1,
             match star with Some (_, sj) => Z.of_nat sj | None => 0 end + 1,
             match star with Some (si, _) => Z.of_nat si | None => -1 end,
             match star with Some (_, sj) => Z.of_nat sj | None => 0 end + 1)
          else Ok None); finish r) = Ok b ∧ (no_star V → b = true ↔ pending i j star)).
  { intros Hg. destruct star as [[si sj]|].
    - replace (Z.of_nat si =? -1) with false by lia. cbn [negb].
      destruct Hs as (HsP & Hsj & _).
      destruct (IH (S si) (S sj) (Some (si, S sj))) as (b & E & Hb).
      + split_and!; [lia..|]. intros _. exists []. simpl. split_and!; [done|lia|constructor].
      + unfold glob_measure in *. nia.
      + exists b. split; [|rewrite (pending_backtrack i j si sj) by (done || lia); by apply Hb].
        unfold glob_state in E. replace (Z.of_nat (S si)) with (Z.of_nat si + 1) in E by lia.
        by replace (Z.of_nat (S sj)) with (Z.of_nat sj + 1) in E by lia.
    - rewrite Z.eqb_refl. run. exists false. split; [done|]. intros _. unfold pending. rewrite Hg. naive_solver. }
  destruct (decide (i < length P)%nat) as [HiP|HiP].
  - destruct (lookup_lt_is_Some_2 P i) as [c Hc]; [done|].
    rewrite (proj2 (Z.ltb_lt _ _)) by lia. rewrite (idx_nat _ _ _ Hc). run.
    destruct ((c =? ch_quest) || (c =? x)) eqn:Em; [|destruct (c =? ch_star) eqn:Es]; run.
    + assert (Hcs : no_star V → c ≠ ch_star).
      { intros HV. apply (Forall_lookup_1 _ _ _ _ HV) in Hx. apply orb_true_iff in Em as [Em|Em]; [|lia].
        apply Z.eqb_eq in Em as ->. done. }
      destruct (IH (S i) (S j) star) as (b & E & Hb).
      * split_and!; [lia..|]. destruct star as [[si sj]|]; [|done]. destruct Hs as (HsP & Hsj & Hs).
        split_and!; [lia..|]. intros HV. destruct (Hs HV) as (seg & Hd & Hl & Hfa).
        exists (seg ++ [c]). rewrite <- app_assoc. cbn [app]. rewrite <- (drop_S P c i Hc).
        split_and!; [done|rewrite length_app; simpl; lia|].
        apply Forall_app. split; [done|by apply Forall_singleton, Hcs].
      * unfold glob_measure in *. lia.
      * exists b. split.
        { unfold glob_state in E. by rewrite !Nat2Z.inj_succ in E. }
        intros HV. rewrite (Hb HV). unfold pending.
        by rewrite (drop_S P c i Hc), (drop_S V x j Hx), glob_char, Em by auto.
    + apply Z.eqb_eq in Es. destruct (IH (S i) j (Some (i, j))) as (b & E & Hb).
      * split_and!; [lia..|]. intros _. exists []. split_and!; [done|simpl; lia|constructor].
      * unfold glob_measure in *. destruct star as [[si sj]|]; [destruct Hs as (_ & ? & _)|]; nia.
      * exists b. split; [unfold glob_state in E; by rewrite Nat2Z.inj_succ in E|].
        intros HV. rewrite (Hb HV). symmetry. apply (pending_star i j star c); (done || lia).
    + assert (Hg : glob (drop i P) (drop j V) = false).
      { rewrite (drop_S P c i Hc), (drop_S V x j Hx), glob_char by lia. by rewrite Em. }
      destruct (Back Hg) as (b & E & Hb). exists b. split; [|done]. by destruct (negb _).
  - rewrite (proj2 (Z.ltb_ge _ _)) by lia. run.
    assert (Hg : glob (drop i P) (drop j V) = false).
    { by rewrite drop_ge, (drop_S V x j Hx) by lia. }
    destruct (Back Hg) as (b & E & Hb). exists b. split; [|done]. by destruct (negb _).
Qed.

Lemma wildcard_spec :
  ∃ b, wildcardMatch P V false = Ok b ∧ (no_star V → b = glob P V).
Proof.
  destruct (wildcard_loop_spec (S (length V) * S (length V + length P)) 0 0 None)
    as (b & E & Hb); [repeat split; lia|unfold glob_measure; lia|].
  exists b. split; [exact E|]. intros HV. apply eq_true_iff_eq. rewrite (Hb HV). unfold pending. naive_solver.
Qed.
End Wildcard.

Lemma no_star_lower l : no_star l → no_star (asciiLower <$> l).
Proof.
  intros H. apply Forall_fmap. eapply Forall_impl; [exact H|]. intros c Hc. unfold asciiLower, ch_star in *.
  simpl. destruct ((65 <=? c) && (c <=? 90)) eqn:E; [|done]. rewrite u8_small; unfold is_byte; lia.
Qed.

Lemma bytes_Compare_opp a b : bytes_Compare b a = - bytes_Compare a b.
Proof.
  revert b. induction a as [|x a IH]; intros [|y b]; simpl; [done..|].
  destruct (x <? y) eqn:E1, (y <? x) eqn:E2; [lia|done|done|apply IH].
Qed.

Lemma bytes_Compare_0 a b : bytes_Compare a b = 0 ↔ a = b.
Proof.
  revert b. induction a as [|x a IH]; intros [|y b]; simpl; [done..|].
  destruct (x <? y) eqn:E1; [split; [done|intros [= -> _]; lia]|].
  destruct (y <? x) eqn:E2; [split; [done|intros [= -> _]; lia]|].
  rewrite IH. split; [intros ->; f_equal; lia|by intros [= _ ->]].
Qed.

Lemma bytes_Compare_range a b : -1 <= bytes_Compare a b <= 1.
Proof.
  revert b. induction a as [|x a IH]; intros [|y b]; simpl; [lia..|].
  destruct (x <? y); [lia|]. destruct (y <? x); [lia|apply IH].
Qed.

(** The decision in terms of the common length. *)
Lemma decideNonceCollision_min ours theirs : ours ≠ [] → theirs ≠ [] →
  let n := Nat.min (length ours) (length theirs) in
  decideNonceCollision ours theirs =
  if bytes_Compare (take n ours) (take n theirs) <? 0 then CollisionWeLose else CollisionWeWin.
Proof.
  intros Ho Ht n. unfold decideNonceCollision. destruct ours as [|x ours]; [done|]. destruct theirs as [|y theirs]; [done|].
  rewrite !(proj2 (Z.eqb_neq _ _)) by (rewrite len_cons; pose proof (len_nonneg ours); pose proof (len_nonneg theirs); lia).
  cbn [orb]. replace (Z.to_nat (if _ <? _ then _ else _)) with n; [done|].
  unfold n, len. destruct (Z.ltb_spec (Z.of_nat (length (y :: theirs))) (Z.of_nat (length (x :: ours)))); lia.
Qed.

(* ------------------------------------------------------------------ *)
(** ** Properties *)

(** What a configured right-hand identity accepts. *)
Definition rightid_spec (expected received : ID) : bool :=
  (ID_Type expected =? 0) ||
  ((ID_Type expected =? ID_Type received) &&
   (if (ID_Type expected =? IDFqdn) || (ID_Type expected =? IDRfc822Addr)
    then glob (asciiLower <$> ID_Data expected) (asciiLower <$> ID_Data received)
    else bool_decide (ID_Data expected = ID_Data received))).


(** A literal ['*'] in the received name meets the pattern's star as an
    ordinary byte: ["*a"] does not match ["*ba"]. *)
Lemma wildcard_literal_star :
  wildcardMatch [ch_star; 97] [ch_star; 98; 97] true = Ok false ∧
  glob [ch_star; 97] [ch_star; 98; 97] = true.
Proof. by vm_compute. Qed.

(** Simultaneous rekeys are settled consistently: with both nonces
    present, the two ends never both give way; exactly one gives way when the
    nonces differ within the length of the shorter one, and both refuse (the
    equal-nonce case) otherwise. *)
Theorem collision_consistent (ours theirs : list Z) :
  let n := Nat.min (length ours) (length theirs) in
  match decideNonceCollision ours theirs, decideNonceCollision theirs ours with
  | CollisionNoCollision, CollisionNoCollision => ours = [] ∨ theirs = []
  | CollisionWeLose, CollisionWeWin => bytes_Compare (take n ours) (take n theirs) = -1
  | CollisionWeWin, CollisionWeLose => bytes_Compare (take n ours) (take n theirs) = 1
  | CollisionWeWin, CollisionWeWin => take n ours = take n theirs ∧ (0 < n)%nat
  | _, _ => False
  end.
Proof.
  intros n. destruct (decide (ours = [])) as [->|Ho]; [by destruct theirs; left|].
  destruct (decide (theirs = [])) as [->|Ht]; [by destruct ours; [|right]|].
  rewrite !decideNonceCollision_min by done. rewrite (Nat.min_comm (length theirs)). fold n.
  rewrite (bytes_Compare_opp (take n ours)).
  pose proof (bytes_Compare_range (take n ours) (take n theirs)) as Hr.
  pose proof (bytes_Compare_0 (take n ours) (take n theirs)) as H0.
  destruct (Z.ltb_spec (bytes_Compare (take n ours) (take n theirs)) 0) as [Hc|Hc],
    (Z.ltb_spec (- bytes_Compare (take n ours) (take n theirs)) 0) as [Hd|Hd]; [lia..|].
  split; [apply H0; lia|]. unfold n. destruct ours, theirs; simpl; [done..|lia].
Qed.
