(* ===== verification/State.v ===== *)
(** * Control-plane configuration and SA state
    (src/control/config.go, src/control/state.go, src/xcrypto/dh.go)

    The data shared by the control-plane components: ephemeral DH keys, the
    layer configuration with its validation, the IKE SA state and the
    protected-message builders bound to it. [crypto/ecdh] is the parameter
    [X25519]; a frame is the byte string of its payload (every control frame
    has kind IKE); a channel is present or nil. *)

From S2P Require Import Prelude Suite Crypto Cipher Payload Keying Wire Protected Eap.

(* ------------------------------------------------------------------ *)
(** ** xcrypto/dh.go *)

(** crypto/ecdh: the public key of a scalar, and the shared secret (an error
    for the all-zero result). *)
Class X25519 := {
  x25519_public : list Z → list Z;
  x25519_shared : list Z → list Z → res (list Z) }.

Class X25519Laws {X : X25519} : Prop := {
  x25519_public_bytes : ∀ a, bytes (x25519_public a);
  x25519_public_len : ∀ a, len (x25519_public a) = 32;
  x25519_agree : ∀ a b, x25519_shared a (x25519_public b) = x25519_shared b (x25519_public a);
  x25519_shared_fine : ∀ a p, fine (x25519_shared a p);
  x25519_shared_bytes : ∀ a p s, x25519_shared a p = Ok s → bytes s }.
Arguments X25519Laws X : clear implicits.

(** [dhk_key] is nil once the secret has been derived. *)
Record DHKey := mkDHKey { dhk_dh : DH; dhk_key : option (list Z) }.

(** [scalar] is what the random source yields. *)
Definition GenerateDH (group : Z) (scalar : res (list Z)) : res DHKey :=
  dh ← newDH group;
  key ← wrap "xcrypto: generate X25519 keypair: " scalar;
  Ok {| dhk_dh := dh; dhk_key := Some key |}.

Section DHKeys.
Context {X : X25519}.

Definition PublicBytes (k : DHKey) : res (list Z) :=
  match dhk_key k with
  | None => Err "xcrypto: DH private key already consumed"
  | Some key => Ok (x25519_public key)
  end.

Definition ECDH (k : DHKey) (peer : list Z) : DHKey * res (list Z) :=
  match dhk_key k with
  | None => (k, Err "xcrypto: DH private key already consumed")
  | Some key =>
      if negb (len peer =? 32) then (k, Err "xcrypto: invalid X25519 peer public key length %d")
      else match wrap "xcrypto: derive X25519 shared secret: " (x25519_shared key peer) with
           | Ok secret => ({| dhk_dh := dhk_dh k; dhk_key := None |}, Ok secret)
           | r => (k, r)
           end
  end.
End DHKeys.

(* ------------------------------------------------------------------ *)
(** ** control/config.go *)

Record Lifetime := mkLifetime { Life_Time : Z; Life_Bytes : Z; Life_Packets : Z }.

(** [NearWrapThreshold] is a float used by the data plane only. *)
Record RekeyConfig := mkRekeyConfig {
  Rekey_IKE : Lifetime;
  Rekey_Child : Lifetime;
  ChildPFS : bool;
  RandTime : Z;
  RetryInterval : Z }.

Record Timeouts := mkTimeouts {
  InitialRTO : Z;
  MaxRTO : Z;
  MaxRetries : Z;
  Keepalive : Z;
  Cfg_SkfReassemblyTimeout : Z }.

Record Config := mkConfig {
  PeerIP : IP;
  LocalIP : IP;
  Cfg_IKE : list Suite.Proposal;
  Cfg_ESP : list Suite.Proposal;
  IDI : ID;
  RightID : ID;
  AAAIdentity : string;
  Cfg_EAP : EapConfig;
  InsecureSkipPeerCertVerify : bool;
  StrongswanCompatible : bool;
  Cfg_Rekey : RekeyConfig;
  Cfg_Timeouts : Timeouts;
  Cfg_FragmentPlaintextLimit : Z;
  DataUpdates : bool }.

Definition DefaultKeepaliveInterval : Z := 20 * 1000000000.

Definition DefaultTimeouts : Timeouts :=
  mkTimeouts 1000000000 (8 * 1000000000) 5 DefaultKeepaliveInterval (15 * 1000000000).

Definition Config_Validate (c : Config) : res unit :=
  let t := Cfg_Timeouts c in
  let r := Cfg_Rekey c in
  if len (Cfg_IKE c) =? 0 then Err "control: IKE proposals are required"
  else if len (Cfg_ESP c) =? 0 then Err "control: ESP proposals are required"
  else if len (ID_Data (IDI c)) =? 0 then Err "control: IDI identity is required"
  else if bool_decide (EapMethodName (Cfg_EAP c) = "peap"%string) && bool_decide (AAAIdentity c = ""%string) then
    Err "control: AAAIdentity is required for peap"
  else if InitialRTO t <=? 0 then Err "control: InitialRTO must be > 0"
  else if MaxRTO t <=? 0 then Err "control: MaxRTO must be > 0"
  else if MaxRetries t =? 0 then Err "control: MaxRetries must be > 0"
  else if Keepalive t <=? 0 then Err "control: Keepalive must be > 0"
  else if Cfg_SkfReassemblyTimeout t <=? 0 then Err "control: SkfReassemblyTimeout must be > 0"
  else if Cfg_FragmentPlaintextLimit c <=? 0 then Err "control: FragmentPlaintextLimit must be > 0"
  else if Life_Time (Rekey_IKE r) <=? 0 then Err "control: Rekey.IKE.Time must be > 0"
  else if Life_Time (Rekey_Child r) <=? 0 then Err "control: Rekey.Child.Time must be > 0"
  else if RetryInterval r <=? 0 then Err "control: Rekey.RetryInterval must be > 0"
  else if ChildPFS r && negb (existsb (λ esp, 0 <? len (DHs esp)) (Cfg_ESP c)) then
    Err "control: ChildPFS requires at least one ESP proposal with a DH group"
  else Ok tt.

(* ------------------------------------------------------------------ *)
(** ** control/state.go *)

Inductive Phase :=
  | PhaseStopped | PhaseStarting | PhaseSAInitSent | PhaseSAInitEstablished | PhaseAuthBootstrap
  | PhaseAuthEAPInProgress | PhaseChildInstalling | PhaseRunning
  | PhaseRekeyChildRequesting | PhaseRekeyChildInstalling | PhaseRekeyChildDeletingOld
  | PhaseRekeyIkeRequesting | PhaseRekeyIkeInstalling | PhaseRekeyIkeDeletingOld | PhaseFailed.
#[global] Instance Phase_eq_dec : EqDecision Phase.
Proof. solve_decision. Defined.

Definition Terminal (p : Phase) : bool :=
  bool_decide (p = PhaseStopped) || bool_decide (p = PhaseFailed).

Record Checkpoint := mkCheckpoint { Check_MessageID : Z; Packets : list (list Z) }.
Record CachedResponse := mkCachedResponse { Cached_MessageID : Z; ResponsePackets : list (list Z) }.

Record ChildSA := mkChildSA {
  InboundSPI : Z; OutboundSPI : Z; TSi : list Z; TSr : list Z; LocalChildInitiator : bool }.

#[global] Instance ChildSA_eq_dec : EqDecision ChildSA.
Proof. solve_decision. Defined.

Record AssignedConfig := mkAssignedConfig {
  InternalIPv4 : IP; InternalIPv6 : IP; InternalIPv6Prefix : Z;
  DNS4 : list IP; DNS6 : list IP; AddressExpirySeconds : Z }.

Inductive RekeyKind := RekeyChild | RekeyIke.
#[global] Instance RekeyKind_eq_dec : EqDecision RekeyKind.
Proof. solve_decision. Defined.
Inductive RekeyTrigger := RekeyTriggerTime | RekeyTriggerNearWrap | RekeyTriggerFlow.

(** Without the fields no code reads ([StartedAt], [NewPeerSPI],
    [NewSelection], [NewIKEKeys], [PeerPassive]). [RC_OldChild] is a pointer to the active child; the pointer comparison of
    [finishChildRekeyResponse] is modelled by the value, since every child SA
    record is created once and never modified. *)
Record RekeyContext := mkRekeyContext {
  RC_Kind : RekeyKind;
  RC_Trigger : RekeyTrigger;
  RC_MessageID : Z;
  RC_Ni : list Z;
  RC_LocalDH : option DHKey;
  RC_LocalKE : option KeyExchange;
  RC_OldChild : option ChildSA;
  RC_NewChild : option Z;
  RC_NewInitiatorSPI : Z;
  RC_NewNonceN : list Z;
  RC_NewResponderSPI : Z }.
#[global] Instance eta_RekeyContext : Eta RekeyContext := λ r,
  mkRekeyContext (RC_Kind r) (RC_Trigger r) (RC_MessageID r) (RC_Ni r) (RC_LocalDH r) (RC_LocalKE r)
    (RC_OldChild r) (RC_NewChild r) (RC_NewInitiatorSPI r) (RC_NewNonceN r) (RC_NewResponderSPI r).

Record OldIKEContext := mkOldIKEContext {
  Old_InitiatorSPI : Z;
  Old_ResponderSPI : Z;
  Old_IsOriginalInitiator : bool;
  Old_SelectedIKE : option Selection;
  Old_IKEKeys : option IKEKeys;
  Old_NextRequestMessageID : Z;
  Old_ExpectedResponseMessageID : Z;
  Old_HasExpectedResponse : bool;
  Old_OutboundRequest : option Checkpoint;
  Old_InboundHistory : list CachedResponse;
  Old_InboundFragments : option FragmentReassembly }.
#[global] Instance eta_OldIKEContext : Eta OldIKEContext := λ o,
  mkOldIKEContext (Old_InitiatorSPI o) (Old_ResponderSPI o) (Old_IsOriginalInitiator o)
    (Old_SelectedIKE o) (Old_IKEKeys o) (Old_NextRequestMessageID o) (Old_ExpectedResponseMessageID o)
    (Old_HasExpectedResponse o) (Old_OutboundRequest o) (Old_InboundHistory o) (Old_InboundFragments o).

Record NatState := mkNatState {
  SourceHashLocal : list Z; DestinationHashLocal : list Z;
  SourceHashRemote : list Z; DestinationHashRemote : list Z; Detected : bool }.

Record AuthState := mkAuthState {
  FirstIDiPayload : list Z; PeerIDr : list Z; PeerAuthMethod : Z;
  PeerSignatureHashAlgorithms : list Z; PeerCerts : list (list Z); LocalEAPMSK : list Z }.

#[global] Instance eta_NatState : Eta NatState := λ n,
  mkNatState (SourceHashLocal n) (DestinationHashLocal n) (SourceHashRemote n) (DestinationHashRemote n) (Detected n).
#[global] Instance eta_AuthState : Eta AuthState := λ a,
  mkAuthState (FirstIDiPayload a) (PeerIDr a) (PeerAuthMethod a) (PeerSignatureHashAlgorithms a) (PeerCerts a)
    (LocalEAPMSK a).
#[global] Instance eta_PeerCapabilities : Eta PeerCapabilities := λ p,
  mkPeerCapabilities (SupportsEAPOnlyAuthentication p) (SupportsMessageIDSync p) (SupportsFragmentation p).

Record State := mkState {
  St_Phase : Phase;
  NextRequestMessageID : Z;
  ExpectedResponseMessageID : Z;
  HasExpectedResponse : bool;
  LastCompletedResponseMessageID : Z;
  HasLastCompletedResponse : bool;
  FirstIKEAuthSeen : bool;
  IsOriginalInitiator : bool;
  St_InitiatorSPI : Z;
  St_ResponderSPI : Z;
  SAInitRequest : list Z;
  SAInitResponse : list Z;
  Cookie : list Z;
  InitiatorNonce : list Z;
  ResponderNonce : list Z;
  InitiatorKE : KeyExchange;
  ResponderKE : KeyExchange;
  LocalDH : option DHKey;
  St_IKEKeys : option IKEKeys;
  SelectedIKE : option Selection;
  SelectedESP : option Selection;
  NAT : NatState;
  St_Auth : AuthState;
  NegotiatingChild : option Z;
  ActiveChild : option ChildSA;
  OldChild : option ChildSA;
  Rekey : option RekeyContext;
  OldIKE : list OldIKEContext;
  OutboundRequest : option Checkpoint;
  InboundHistory : list CachedResponse;
  Peer : PeerCapabilities;
  InboundFragments : option FragmentReassembly;
  Assigned : option AssignedConfig;
  FailureReason : string;
  SuppressAuthFailedNotify : bool }.
#[global] Instance eta_State : Eta State := λ s,
  mkState (St_Phase s) (NextRequestMessageID s) (ExpectedResponseMessageID s) (HasExpectedResponse s)
    (LastCompletedResponseMessageID s) (HasLastCompletedResponse s) (FirstIKEAuthSeen s)
    (IsOriginalInitiator s) (St_InitiatorSPI s) (St_ResponderSPI s) (SAInitRequest s)
    (SAInitResponse s) (Cookie s) (InitiatorNonce s) (ResponderNonce s) (InitiatorKE s)
    (ResponderKE s) (LocalDH s) (St_IKEKeys s) (SelectedIKE s) (SelectedESP s) (NAT s) (St_Auth s)
    (NegotiatingChild s) (ActiveChild s) (OldChild s) (Rekey s) (OldIKE s) (OutboundRequest s)
    (InboundHistory s) (Peer s) (InboundFragments s) (Assigned s) (FailureReason s)
    (SuppressAuthFailedNotify s).

Definition no_capabilities : PeerCapabilities := mkPeerCapabilities false false false.
Definition no_ke : KeyExchange := mkKeyExchange 0 [].

Definition NewState : State :=
  mkState PhaseStopped 0 0 false 0 false false true 0 0 [] [] [] [] [] no_ke no_ke None None None None
    (mkNatState [] [] [] [] false) (mkAuthState [] [] 0 [] [] []) None None None None [] None []
    no_capabilities None None "" false.

Definition Reset (s : State) : State := NewState.

Definition ClearSession (s : State) : State :=
  s <| St_IKEKeys := None |> <| InitiatorNonce := [] |> <| ResponderNonce := [] |> <| Cookie := [] |>
    <| NegotiatingChild := None |> <| ActiveChild := None |> <| OldChild := None |> <| Rekey := None |>
    <| OldIKE := [] |> <| OutboundRequest := None |> <| InboundHistory := [] |>
    <| InboundFragments := None |> <| Assigned := None |> <| LocalDH := None |>
    <| St_Auth := mkAuthState [] [] (PeerAuthMethod (St_Auth s)) [] [] [] |>
    <| SAInitRequest := [] |> <| SAInitResponse := [] |> <| HasExpectedResponse := false |>
    <| HasLastCompletedResponse := false |> <| FirstIKEAuthSeen := false |>
    <| SuppressAuthFailedNotify := false |>.

(* ------------------------------------------------------------------ *)
(** ** Envelopes and builders bound to the state (control/protected.go) *)

Definition stateIKEEnvelope (st : State) : ikeEnvelope :=
  mkIkeEnvelope (St_InitiatorSPI st) (St_ResponderSPI st) (IsOriginalInitiator st) (SelectedIKE st)
    (St_IKEKeys st) (Peer st).

Definition oldIKEEnvelope (ctx : OldIKEContext) : ikeEnvelope :=
  mkIkeEnvelope (Old_InitiatorSPI ctx) (Old_ResponderSPI ctx) (Old_IsOriginalInitiator ctx)
    (Old_SelectedIKE ctx) (Old_IKEKeys ctx) no_capabilities.

Definition cfg_limit (cfg : option Config) : option Z := Cfg_FragmentPlaintextLimit <$> cfg.

Section Builders.
Context {C : Crypto}.

Definition buildProtectedStateAs (cfg : option Config) (st : State)
    (exchange msgID nextPayload : Z) (plaintext : list Z) (flags : Z)
    (random : Z → Z → res (list Z)) : res (list (list Z)) :=
  buildProtectedEnvelopeAs (cfg_limit cfg) (stateIKEEnvelope st) exchange msgID nextPayload plaintext
    flags random.

Definition buildProtectedState (cfg : option Config) (st : State)
    (exchange msgID nextPayload : Z) (plaintext : list Z) (random : Z → Z → res (list Z)) :
    res (list (list Z)) :=
  buildProtectedStateAs cfg st exchange msgID nextPayload plaintext
    (requestFlags (stateIKEEnvelope st)) random.

(** Opens a packet on the current SA: the new state, and the payloads if the
    message is complete. *)
Definition openState (cfgTimeout : option Z) (st : State) (now : Z) (raw : list Z) :
    State * res (option (list Wire.Payload)) :=
  let '(frags, r) := openProtectedRawState cfgTimeout (stateIKEEnvelope st) (InboundFragments st) now raw in
  (st <| InboundFragments := frags |>, r).
End Builders.
