(* ===== verification/Negotiate.v ===== *)
(** * Proposals on the wire and negotiation between two ends
    (src/control/sa_init.go, child_sa.go, rekey.go, running_rekey.go)

    How configured proposals become SA payloads, how a responder picks one, and
    how the initiator maps the echoed selection back onto what it offered. The
    theorems run both ends against each other through the SA codec. *)

From stdpp Require Import pretty.
From S2P Require Import Prelude Suite Crypto Cipher Payload Keying Wire Protected Eap State.

(** wire/consts.go *)
Definition TransformENC : Z := 1.
Definition TransformPRF : Z := 2.
Definition TransformINTEG : Z := 3.
Definition TransformDH : Z := 4.
Definition TransformESN : Z := 5.
Definition ESNNoExtendedSequenceNumbers : Z := 0.

Definition plain_transform (typ id : Z) : Transform := mkTransform typ id [].
Definition enc_transform (alg : EncryptionAlg) (id : Z) : Transform :=
  mkTransform TransformENC id (KeyLengthAttr (u16 (TransformKeyLen alg * 8))).

(* ------------------------------------------------------------------ *)
(** ** Offers *)

(** The encryption transforms of a suite, and whether one is AEAD. *)
Fixpoint enc_transforms (encs : list EncryptionID) : res (list Transform * bool) :=
  match encs with
  | [] => Ok ([], false)
  | enc :: encs =>
      alg ← NewEncryption (EncID_TransformID enc) (EncID_KeyLen enc);
      '(ts, aead) ← enc_transforms encs;
      Ok (enc_transform alg (EncID_TransformID enc) :: ts, AEAD alg || aead)
  end.

(** The transforms of one IKE proposal. *)
Definition ike_suite_transforms (suite : Suite.Proposal) : res (list Transform) :=
  '(encs, aead) ← enc_transforms (Encryption suite);
  Ok (encs ++ (plain_transform TransformPRF <$> PRFs suite) ++
      (if (aead : bool) then [] else plain_transform TransformINTEG <$> Integrities suite) ++
      (plain_transform TransformDH <$> DHs suite)).

Fixpoint ike_proposals (spi : list Z) (num : Z) (suites : list Suite.Proposal) : res SA :=
  match suites with
  | [] => Ok []
  | suite :: suites =>
      ts ← ike_suite_transforms suite;
      rest ← ike_proposals spi (num + 1) suites;
      Ok (Payload.mkProposal (u8 (num + 1)) DeleteProtocolIKE spi ts :: rest)
  end.

(** IKE_SA_INIT offers carry no SPI. *)
Definition appendIKEProposals (cfg : Config) (dst : list Z) : res (list Z) :=
  if len (Cfg_IKE cfg) =? 0 then Err "control: IKE proposals are required"
  else sa ← ike_proposals [] 0 (Cfg_IKE cfg); AppendSA dst sa.

Definition appendIKEProposalsWithSPI (cfg : Config) (dst : list Z) (spi : Z) : res (list Z) :=
  if len (Cfg_IKE cfg) =? 0 then Err "control: IKE proposals are required"
  else sa ← ike_proposals (putUint64 spi) 0 (Cfg_IKE cfg); AppendSA dst sa.

(** *** CHILD_SA offers *)

Record cesOffer := mkCesOffer {
  offer_enc : list EncryptionID; offer_integrity : list Z; offer_dh : list Z; omitESN : bool }.

Definition cesEncryptionListIsAEAD (encs : list EncryptionID) : bool :=
  existsb (λ e, match NewEncryption (EncID_TransformID e) (EncID_KeyLen e) with
                | Ok enc => AEAD enc | _ => false end) encs.

Definition cesSuiteIsAEAD (suite : Suite.Proposal) : bool :=
  cesEncryptionListIsAEAD (Encryption suite).

Definition cesOfferKey (suite : Suite.Proposal) (omit : bool) : string :=
  (if omit then "with-ESN=false " else "omit=") +:+
  foldr (λ e s, pretty (EncID_TransformID e) +:+ "/" +:+ pretty (EncID_KeyLen e) +:+ "," +:+ s)
    (foldr (λ id s, "i" +:+ pretty id +:+ "," +:+ s) "" (Integrities suite)) (Encryption suite).

Definition mk_offer (suite : Suite.Proposal) (omit : bool) : cesOffer :=
  mkCesOffer (Encryption suite) (Integrities suite) (DHs suite) omit.

(** [seen] and [offers] after one suite. *)
Definition push_offer (suite : Suite.Proposal) (omit : bool) (s : list string * list cesOffer) :
    list string * list cesOffer :=
  let key := cesOfferKey suite omit in
  if bool_decide (key ∈ s.1) then s else (key :: s.1, s.2 ++ [mk_offer suite omit]).

Fixpoint child_offers (compat : bool) (suites : list Suite.Proposal)
    (s : list string * list cesOffer) : list cesOffer :=
  match suites with
  | [] => s.2
  | suite :: suites =>
      let s := push_offer suite false s in
      let s := if compat && cesSuiteIsAEAD suite then push_offer suite true s else s in
      child_offers compat suites s
  end.

Definition childOffers (cfg : Config) : res (list cesOffer) :=
  let offers := child_offers (StrongswanCompatible cfg) (Cfg_ESP cfg) ([], []) in
  if len offers =? 0 then Err "control: esp_suite is required" else Ok offers.

Definition espOfferTransforms (offer : cesOffer) : res (list Transform) :=
  '(encs, _) ← enc_transforms (offer_enc offer);
  Ok (encs ++
      (if cesEncryptionListIsAEAD (offer_enc offer) then []
       else plain_transform TransformINTEG <$> offer_integrity offer) ++
      (if omitESN offer then [] else [plain_transform TransformESN ESNNoExtendedSequenceNumbers])).

Definition childProposalTransforms (offer : cesOffer) (includeDH : bool) : res (list Transform) :=
  ts ← espOfferTransforms offer;
  Ok (ts ++ if includeDH then plain_transform TransformDH <$> offer_dh offer else []).

Fixpoint esp_proposals (spi : list Z) (includeDH : bool) (i : Z) (offers : list cesOffer) : res SA :=
  match offers with
  | [] => Ok []
  | offer :: offers =>
      ts ← childProposalTransforms offer includeDH;
      rest ← esp_proposals spi includeDH (i + 1) offers;
      Ok (Payload.mkProposal (u8 (i + 1)) DeleteProtocolESP spi ts :: rest)
  end.

Definition appendESPProposalsForRekey (cfg : Config) (dst : list Z) (spi : Z) (includeDH : bool) :
    res (list Z) :=
  offers ← childOffers cfg;
  sa ← esp_proposals (putUint32 spi) includeDH 0 offers;
  AppendSA dst sa.

(* ------------------------------------------------------------------ *)
(** ** The initiator maps the selection back *)

Definition add_enc (r : Suite.Proposal) (e : EncryptionID) : Suite.Proposal :=
  Suite.mkProposal (Encryption r ++ [e]) (Integrities r) (PRFs r) (DHs r).
Definition add_integ (r : Suite.Proposal) (i : Z) : Suite.Proposal :=
  Suite.mkProposal (Encryption r) (Integrities r ++ [i]) (PRFs r) (DHs r).
Definition add_prf (r : Suite.Proposal) (i : Z) : Suite.Proposal :=
  Suite.mkProposal (Encryption r) (Integrities r) (PRFs r ++ [i]) (DHs r).
Definition add_dh (r : Suite.Proposal) (i : Z) : Suite.Proposal :=
  Suite.mkProposal (Encryption r) (Integrities r) (PRFs r) (DHs r ++ [i]).
Definition empty_proposal : Suite.Proposal := Suite.mkProposal [] [] [] [].

Fixpoint selected_ike_transforms (remote : Suite.Proposal) (ts : list Transform) : res Suite.Proposal :=
  match ts with
  | [] => Ok remote
  | t :: ts =>
      remote ←
        (if Transform_Type t =? TransformENC then
           bits ← wrap "control: selected encryption transform: " (ParseKeyLengthAttr (Attrs t));
           if (bits =? 0) || negb (Z.rem bits 8 =? 0) then
             Err "control: invalid selected encryption key length %d"
           else Ok (add_enc remote (mkEncryptionID (Transform_ID t) (bits `quot` 8)))
         else if Transform_Type t =? TransformINTEG then
           if negb (len (Attrs t) =? 0) then
             Err "control: unexpected integrity attributes in selected IKE proposal"
           else Ok (add_integ remote (Transform_ID t))
         else if Transform_Type t =? TransformPRF then
           if negb (len (Attrs t) =? 0) then
             Err "control: unexpected PRF attributes in selected IKE proposal"
           else Ok (add_prf remote (Transform_ID t))
         else if Transform_Type t =? TransformDH then
           if negb (len (Attrs t) =? 0) then
             Err "control: unexpected DH attributes in selected IKE proposal"
           else Ok (add_dh remote (Transform_ID t))
         else if Transform_Type t =? TransformESN then
           Err "control: unexpected ESN transform in selected IKE proposal"
         else Err "control: unexpected transform type %d in selected IKE proposal");
      selected_ike_transforms remote ts
  end.

Definition selectionMatchesIKE (sel : Selection) (remote : Suite.Proposal) : res bool :=
  enc ← (Encryption remote).[0];
  alg ← deref (Sel_Encryption sel);
  if negb (Enc_TransformID alg =? EncID_TransformID enc)
     || negb (TransformKeyLen alg =? EncID_KeyLen enc) then Ok false
  else
  integ_ok ← (if AEAD alg then Ok (len (Integrities remote) =? 0)
              else if negb (len (Integrities remote) =? 1) then Ok false
              else i ← deref (Sel_Integrity sel);
                   j ← (Integrities remote).[0];
                   Ok (Integ_TransformID i =? j));
  if negb integ_ok then Ok false
  else
  prf ← deref (Sel_PRF sel);
  p ← (PRFs remote).[0];
  if negb (PRF_TransformID prf =? p) then Ok false
  else
  dh ← deref (Sel_DH sel);
  d ← (DHs remote).[0];
  Ok (DH_TransformID dh =? d).

(** The part [decodeIKESelection] and [decodeIKESelectionWithSPI] share. *)
Definition decode_ike_proposal (cfg : Config) (sp : Proposal) : res Selection :=
  let i := Num sp - 1 in
  if (i <? 0) || (len (Cfg_IKE cfg) <=? i) then
    Err "control: peer selected unoffered IKE proposal number %d"
  else
  remote ← selected_ike_transforms empty_proposal (Transforms sp);
  local ← (Cfg_IKE cfg).[i];
  selection ← wrap "control: peer selected unsupported IKE proposal: " (Select local (Some remote));
  if negb (len (Encryption remote) =? 1) || negb (len (PRFs remote) =? 1)
     || negb (len (DHs remote) =? 1) then
    Err "control: selected IKE proposal missing unique transforms"
  else
  ok ← selectionMatchesIKE selection remote;
  if negb ok then Err "control: peer selected transforms do not match the offered IKE proposal"
  else Ok selection.

Definition decodeIKESelection (cfg : Config) (sa : SA) : res Selection :=
  sp ← sa.[0];
  if negb (ProtocolID sp =? DeleteProtocolIKE) || negb (len (Proposal_SPI sp) =? 0) then
    Err "control: invalid selected IKE proposal header"
  else decode_ike_proposal cfg sp.

Definition decodeIKESelectionWithSPI (cfg : Config) (sa : SA) : res (Z * Selection) :=
  sp ← sa.[0];
  if negb (ProtocolID sp =? DeleteProtocolIKE) || negb (len (Proposal_SPI sp) =? 8) then
    Err "control: invalid selected IKE rekey proposal header"
  else
  spi ← beUint64 (Proposal_SPI sp);
  selection ← decode_ike_proposal cfg sp;
  Ok (spi, selection).

(** *** CHILD_SA *)

(** The variables of the transform loop of [decodeChildSelection]; [dhID] is 0
    and [esn] is -1 until seen. *)
Record child_scan := mkChildScan {
  cs_enc : option EncryptionID; cs_integ : option Z; cs_esn : Z; cs_dh : Z }.

Fixpoint scan_child_transforms (s : child_scan) (ts : list Transform) : res child_scan :=
  match ts with
  | [] => Ok s
  | t :: ts =>
      s ←
        (if Transform_Type t =? TransformDH then
           if negb (len (Attrs t) =? 0) then Err "control: unexpected DH attributes in CHILD_SA selection"
           else if negb (cs_dh s =? 0) then Err "control: multiple DH transforms in CHILD_SA selection"
           else Ok (mkChildScan (cs_enc s) (cs_integ s) (cs_esn s) (Transform_ID t))
         else if Transform_Type t =? TransformENC then
           if bool_decide (cs_enc s ≠ None) then
             Err "control: multiple ENCR transforms in CHILD_SA selection"
           else
             keyBits ← ParseKeyLengthAttr (Attrs t);
             if (keyBits =? 0) || negb (Z.rem keyBits 8 =? 0) then
               Err "control: invalid CHILD_SA encryption key length"
             else Ok (mkChildScan (Some (mkEncryptionID (Transform_ID t) (keyBits `quot` 8)))
                        (cs_integ s) (cs_esn s) (cs_dh s))
         else if Transform_Type t =? TransformINTEG then
           if bool_decide (cs_integ s ≠ None) then
             Err "control: multiple INTEG transforms in CHILD_SA selection"
           else Ok (mkChildScan (cs_enc s) (Some (Transform_ID t)) (cs_esn s) (cs_dh s))
         else if Transform_Type t =? TransformESN then
           if negb (cs_esn s =? -1) then Err "control: multiple ESN transforms in CHILD_SA selection"
           else Ok (mkChildScan (cs_enc s) (cs_integ s) (Transform_ID t) (cs_dh s))
         else Err "control: unexpected transform type %d in CHILD_SA selection");
      scan_child_transforms s ts
  end.

(** [decodeChildSelection]; [ike] is [h.state.SelectedIKE]. *)
Definition decodeChildSelection (cfg : Config) (ike : option Selection) (sa : SA) : res (Z * Selection) :=
  if negb (len sa =? 1) then Err "control: unexpected CHILD_SA proposal count %d"
  else
  prop ← sa.[0];
  if negb (ProtocolID prop =? DeleteProtocolESP) then
    Err "control: unexpected CHILD_SA proposal protocol %d"
  else if negb (len (Proposal_SPI prop) =? 4) then Err "control: CHILD_SA proposal SPI size mismatch"
  else
  peerSPI ← beUint32 (Proposal_SPI prop);
  offers ← childOffers cfg;
  let i := Num prop - 1 in
  if (i <? 0) || (len offers <=? i) then
    Err "control: peer selected an unoffered CHILD_SA proposal number %d"
  else
  offer ← offers.[i];
  s ← scan_child_transforms (mkChildScan None None (-1) 0) (Transforms prop);
  match cs_enc s with
  | None => Err "control: CHILD_SA selection missing ENCR transform"
  | Some e =>
      if negb (bool_decide (e ∈ offer_enc offer)) then
        Err "control: CHILD_SA selected an unoffered encryption transform %d/%d"
      else
      enc ← wrap "control: CHILD_SA encryption %d/%d: "
              (NewEncryption (EncID_TransformID e) (EncID_KeyLen e));
      integ ← (if AEAD enc then
                 if bool_decide (cs_integ s ≠ None) then
                   Err "control: AEAD CHILD_SA selection must not include integrity"
                 else NewIntegrity TransformIntegrityNone
               else match cs_integ s with
                    | None => Err "control: CHILD_SA selection missing integrity transform"
                    | Some id =>
                        if negb (bool_decide (id ∈ offer_integrity offer)) then
                          Err "control: CHILD_SA selected an unoffered integrity transform %d"
                        else NewIntegrity id
                    end);
      if negb (cs_esn s =? -1) && negb (cs_esn s =? ESNNoExtendedSequenceNumbers) then
        Err "control: unsupported CHILD_SA ESN mode %d"
      else
      match ike with
      | None => Err "control: IKE proposal missing before CHILD_SA selection"
      | Some ike =>
          dh ← (if negb (cs_dh s =? 0) then
                  if negb (cs_dh s =? TransformDHCurve25519) then
                    Err "control: unsupported CHILD_SA DH group %d"
                  else Ok (Some {| DH_TransformID := cs_dh s; DH_Name := "curve25519" |})
                else Ok (Sel_DH ike));
          Ok (peerSPI, {| Sel_Encryption := Some enc; Sel_Integrity := Some integ;
                          Sel_PRF := Sel_PRF ike; Sel_DH := dh |})
      end
  end.

(* ------------------------------------------------------------------ *)
(** ** The responder of a peer-initiated rekey *)

(** [proposalFromWire]: [None] is [(nil, false)]. *)
Fixpoint wire_transforms (isIKE : bool) (remote : Suite.Proposal) (ts : list Transform) :
    option Suite.Proposal :=
  match ts with
  | [] => Some remote
  | t :: ts =>
      remote ←
        (if Transform_Type t =? TransformENC then
           match ParseKeyLengthAttr (Attrs t) with
           | Ok bits =>
               if (bits =? 0) || negb (Z.rem bits 8 =? 0) then None
               else Some (add_enc remote (mkEncryptionID (Transform_ID t) (bits `quot` 8)))
           | _ => None
           end
         else if Transform_Type t =? TransformINTEG then
           if negb (len (Attrs t) =? 0) then None else Some (add_integ remote (Transform_ID t))
         else if Transform_Type t =? TransformPRF then
           if negb isIKE || negb (len (Attrs t) =? 0) then None
           else Some (add_prf remote (Transform_ID t))
         else if Transform_Type t =? TransformDH then
           if negb (len (Attrs t) =? 0) then None else Some (add_dh remote (Transform_ID t))
         else if Transform_Type t =? TransformESN then
           if isIKE || negb (Transform_ID t =? ESNNoExtendedSequenceNumbers) then None else Some remote
         else None);
      wire_transforms isIKE remote ts
  end.

Definition proposalFromWire (prop : Proposal) (isIKE : bool) : option Suite.Proposal :=
  remote ← wire_transforms isIKE empty_proposal (Transforms prop);
  if (len (Encryption remote) =? 0) || (isIKE && (len (DHs remote) =? 0)) then None
  else if isIKE && (len (PRFs remote) =? 0) then None
  else Some remote.

Definition responderSelectedIKE (peer : Proposal) (responseSPI : Z) (sel : Selection) : res SA :=
  alg ← deref (Sel_Encryption sel);
  integ ← (if AEAD alg then Ok []
           else i ← deref (Sel_Integrity sel); Ok [plain_transform TransformINTEG (Integ_TransformID i)]);
  prf ← deref (Sel_PRF sel);
  dh ← deref (Sel_DH sel);
  Ok [Payload.mkProposal (Num peer) DeleteProtocolIKE (putUint64 responseSPI)
        (enc_transform alg (Enc_TransformID alg) :: integ ++
         [plain_transform TransformPRF (PRF_TransformID prf);
          plain_transform TransformDH (DH_TransformID dh)])].

Definition has_esn (t : Transform) : bool :=
  (Transform_Type t =? TransformESN) && (Transform_ID t =? ESNNoExtendedSequenceNumbers).

Definition responderSelectedESP (peer : Proposal) (responseSPI : Z) (sel : Selection) : res SA :=
  alg ← deref (Sel_Encryption sel);
  integ ← (if AEAD alg then Ok []
           else i ← deref (Sel_Integrity sel); Ok [plain_transform TransformINTEG (Integ_TransformID i)]);
  let esn := if existsb has_esn (Transforms peer)
             then [plain_transform TransformESN ESNNoExtendedSequenceNumbers] else [] in
  let dh := match Sel_DH sel with
            | Some dh => [plain_transform TransformDH (DH_TransformID dh)] | None => [] end in
  Ok [Payload.mkProposal (Num peer) DeleteProtocolESP (putUint32 responseSPI)
        (enc_transform alg (Enc_TransformID alg) :: integ ++ esn ++ dh)].

(** The inner loop over the local suites: the first that selects. *)
Fixpoint first_select (suites : list Suite.Proposal) (remote : Suite.Proposal) : res (option Selection) :=
  match suites with
  | [] => Ok None
  | suite :: suites =>
      match Select suite (Some remote) with
      | Ok sel => Ok (Some sel)
      | Err _ => first_select suites remote
      | Panic => Panic
      | Hang => Hang
      end
  end.

Fixpoint select_ike_proposals (cfg : Config) (responseSPI : Z) (props : SA) : res (SA * Selection * Z) :=
  match props with
  | [] => Err "control: no compatible peer IKE proposal"
  | prop :: props =>
      if negb (ProtocolID prop =? DeleteProtocolIKE) || negb (len (Proposal_SPI prop) =? 8)
      then select_ike_proposals cfg responseSPI props
      else
      peerSPI ← beUint64 (Proposal_SPI prop);
      match proposalFromWire prop true with
      | None => select_ike_proposals cfg responseSPI props
      | Some remote =>
          r ← first_select (Cfg_IKE cfg) remote;
          match r with
          | None => select_ike_proposals cfg responseSPI props
          | Some sel => selected ← responderSelectedIKE prop responseSPI sel; Ok (selected, sel, peerSPI)
          end
      end
  end.

Definition selectPeerIKEProposal (cfg : Config) (sa : SA) (responseSPI : Z) : res (SA * Selection * Z) :=
  if len (Cfg_IKE cfg) =? 0 then Err "control: IKE proposals are required"
  else select_ike_proposals cfg responseSPI sa.

(** The inner loop for ESP. [remote] is shared by the iterations: its PRF list
    is replaced by each suite's, and the DH placeholder taken from the first
    suite with a DH group stays for the later ones. *)
Fixpoint first_select_esp (suites : list Suite.Proposal) (remote : Suite.Proposal) :
    res (option Selection) :=
  match suites with
  | [] => Ok None
  | suite :: suites =>
      let dhs := if (len (DHs remote) =? 0) && (0 <? len (DHs suite)) then DHs suite else DHs remote in
      let remote := Suite.mkProposal (Encryption remote) (Integrities remote) (PRFs suite) dhs in
      match Select suite (Some remote) with
      | Ok sel => Ok (Some sel)
      | Err _ => first_select_esp suites remote
      | Panic => Panic
      | Hang => Hang
      end
  end.

Fixpoint select_esp_proposals (cfg : Config) (responseSPI : Z) (wantsDH : bool) (props : SA) :
    res (SA * Selection) :=
  match props with
  | [] => Err "control: no compatible peer ESP proposal"
  | prop :: props =>
      if negb (ProtocolID prop =? DeleteProtocolESP) || negb (len (Proposal_SPI prop) =? 4)
      then select_esp_proposals cfg responseSPI wantsDH props
      else
      match proposalFromWire prop false with
      | None => select_esp_proposals cfg responseSPI wantsDH props
      | Some remote =>
          r ← first_select_esp (Cfg_ESP cfg) remote;
          match r with
          | None => select_esp_proposals cfg responseSPI wantsDH props
          | Some sel =>
              let sel := if wantsDH then sel
                         else mkSelection (Sel_Encryption sel) (Sel_Integrity sel) (Sel_PRF sel) None in
              selected ← responderSelectedESP prop responseSPI sel;
              Ok (selected, sel)
          end
      end
  end.

Definition selectPeerESPProposal (cfg : Config) (sa : SA) (responseSPI : Z) (wantsDH : bool) :
    res (SA * Selection) :=
  if len (Cfg_ESP cfg) =? 0 then Err "control: ESP proposals are required"
  else select_esp_proposals cfg responseSPI wantsDH sa.

(** [selectedPeerOutboundSPI]: of the first proposal. *)
Definition selectedPeerOutboundSPI (sa : SA) : res Z :=
  match sa with
  | [] => Ok 0
  | p :: _ => if negb (len (Proposal_SPI p) =? 4) then Ok 0 else beUint32 (Proposal_SPI p)
  end.

(* ------------------------------------------------------------------ *)
(** ** Lemmas: transforms on the wire *)

Lemma KeyLengthAttr_parse bits : 0 <= bits < 2 ^ 16 → ParseKeyLengthAttr (KeyLengthAttr bits) = Ok bits.
Proof.
  intros H. unfold KeyLengthAttr. set (b := splice _ 2 _).
  assert (Hb : b = [128; 14] ++ putUint16 bits).
  { unfold b. destruct (putUint16 bits) as [|x [|y [|]]] eqn:E;
      pose proof (len_putUint16 bits) as L; rewrite E in L; unfold len in L; simpl in L; try lia.
    done. }
  rewrite Hb. unfold ParseKeyLengthAttr. rewrite len_app, len_putUint16.
  change (negb (len [128; 14] + 2 =? 4)) with false. cbv iota.
  rewrite (slice_eq ([128; 14] ++ putUint16 bits) 0 2 [128; 14]) by (llia || reflexivity). run.
  change (beUint16 [128; 14]) with (@Ok Z 32782). run. cbn.
  rewrite (slice_eq _ 2 4 (putUint16 bits)) by (llia || reflexivity). run. by apply beUint16_put'.
Qed.

(** The transform a registered cipher is offered as. *)
Definition enc_wire (e : EncryptionID) : Transform :=
  mkTransform TransformENC (EncID_TransformID e) (KeyLengthAttr (EncID_KeyLen e * 8)).

Lemma enc_known_inv e : enc_known e = true → ∃ alg,
  NewEncryption (EncID_TransformID e) (EncID_KeyLen e) = Ok alg ∧ AEAD alg = is_aead e ∧
  (EncID_KeyLen e = 16 ∨ EncID_KeyLen e = 32) ∧ 0 <= EncID_TransformID e < 2 ^ 16 ∧
  Enc_TransformID alg = EncID_TransformID e ∧ TransformKeyLen alg = EncID_KeyLen e.
Proof.
  unfold enc_known. intros (alg & E)%is_ok_true. exists alg.
  pose proof (NewEncryption_wf _ _ _ E) as (W & H1 & H2). unfold is_aead. rewrite E.
  assert (Ht : 0 <= EncID_TransformID e < 2 ^ 16).
  { unfold NewEncryption in E. destruct (_ && _) in E; [done|].
    unfold TransformEncryptionAESCBC, TransformEncryptionAESCCM8, TransformEncryptionAESCCM12,
      TransformEncryptionAESCCM16, TransformEncryptionAESGCM12, TransformEncryptionAESGCM16 in *.
    destruct (EncID_TransformID e =? 12) eqn:E1; [lia|].
    destruct ((EncID_TransformID e =? 14) || _ || _) eqn:E2; [lia|].
    destruct ((EncID_TransformID e =? 19) || _) eqn:E3; [lia|done]. }
  split_and!; try done; [|lia..]. destruct (ew_aes _ W); lia.
Qed.

Lemma enc_transform_wire e alg : enc_known e = true →
  NewEncryption (EncID_TransformID e) (EncID_KeyLen e) = Ok alg →
  enc_transform alg (EncID_TransformID e) = enc_wire e.
Proof.
  intros (alg' & E & _ & Hk & _ & _ & Ht)%enc_known_inv E'. rewrite E' in E. injection E as <-.
  unfold enc_transform, enc_wire. rewrite Ht. f_equal. f_equal. destruct Hk as [-> | ->]; done.
Qed.

Lemma enc_transforms_wire encs : Forall (λ e, enc_known e = true) encs →
  enc_transforms encs = Ok (enc_wire <$> encs, existsb is_aead encs).
Proof.
  induction 1 as [|e encs He _ IH]; [done|]. cbn [enc_transforms].
  destruct (enc_known_inv e He) as (alg & E & Ha & _). rewrite E, IH. run.
  rewrite (enc_transform_wire e alg) by done. by rewrite Ha.
Qed.

(** Reading transforms back, list by list. *)
Lemma wire_transforms_enc ike encs r ts : Forall (λ e, enc_known e = true) encs →
  wire_transforms ike r ((enc_wire <$> encs) ++ ts) =
  wire_transforms ike (Suite.mkProposal (Encryption r ++ encs) (Integrities r) (PRFs r) (DHs r)) ts.
Proof.
  intros H. revert r. induction H as [|e encs He _ IH]; intros r; cbn [fmap list_fmap app].
  { rewrite app_nil_r. by destruct r. }
  destruct (enc_known_inv e He) as (_ & _ & _ & Hk & _). cbn [wire_transforms Transform_Type enc_wire].
  change (TransformENC =? TransformENC) with true. cbv iota. unfold enc_wire at 1 2. cbn [Attrs Transform_ID].
  rewrite KeyLengthAttr_parse by (destruct Hk as [-> | ->]; lia).
  replace ((EncID_KeyLen e * 8 =? 0) || negb (Z.rem (EncID_KeyLen e * 8) 8 =? 0)) with false
    by (destruct Hk as [-> | ->]; done).
  replace ((EncID_KeyLen e * 8) `quot` 8) with (EncID_KeyLen e) by (destruct Hk as [-> | ->]; done).
  cbn [mbind option_bind]. rewrite IH. unfold add_enc. cbn [Encryption Integrities PRFs DHs].
  rewrite <- app_assoc. by destruct e.
Qed.

Lemma wire_transforms_integ ike ids r ts :
  wire_transforms ike r ((plain_transform TransformINTEG <$> ids) ++ ts) =
  wire_transforms ike (Suite.mkProposal (Encryption r) (Integrities r ++ ids) (PRFs r) (DHs r)) ts.
Proof.
  revert r. induction ids as [|i ids IH]; intros r; cbn [fmap list_fmap app].
  { rewrite app_nil_r. by destruct r. }
  cbn [wire_transforms]. change (wire_transforms ike (add_integ r i) ((plain_transform TransformINTEG <$> ids) ++ ts)
    = wire_transforms ike (Suite.mkProposal (Encryption r) (Integrities r ++ i :: ids) (PRFs r) (DHs r)) ts).
  rewrite IH. unfold add_integ. cbn [Encryption Integrities PRFs DHs]. by rewrite <- app_assoc.
Qed.

Lemma wire_transforms_prf ids r ts :
  wire_transforms true r ((plain_transform TransformPRF <$> ids) ++ ts) =
  wire_transforms true (Suite.mkProposal (Encryption r) (Integrities r) (PRFs r ++ ids) (DHs r)) ts.
Proof.
  revert r. induction ids as [|i ids IH]; intros r; cbn [fmap list_fmap app].
  { rewrite app_nil_r. by destruct r. }
  cbn [wire_transforms]. change (wire_transforms true (add_prf r i) ((plain_transform TransformPRF <$> ids) ++ ts)
    = wire_transforms true (Suite.mkProposal (Encryption r) (Integrities r) (PRFs r ++ i :: ids) (DHs r)) ts).
  rewrite IH. unfold add_prf. cbn [Encryption Integrities PRFs DHs]. by rewrite <- app_assoc.
Qed.

Lemma wire_transforms_dh ike ids r ts :
  wire_transforms ike r ((plain_transform TransformDH <$> ids) ++ ts) =
  wire_transforms ike (Suite.mkProposal (Encryption r) (Integrities r) (PRFs r) (DHs r ++ ids)) ts.
Proof.
  revert r. induction ids as [|i ids IH]; intros r; cbn [fmap list_fmap app].
  { rewrite app_nil_r. by destruct r. }
  cbn [wire_transforms]. change (wire_transforms ike (add_dh r i) ((plain_transform TransformDH <$> ids) ++ ts)
    = wire_transforms ike (Suite.mkProposal (Encryption r) (Integrities r) (PRFs r) (DHs r ++ i :: ids)) ts).
  rewrite IH. unfold add_dh. cbn [Encryption Integrities PRFs DHs]. by rewrite <- app_assoc.
Qed.

(** The number of distinct registered transforms is small. *)
Definition all_encs : list EncryptionID :=
  t ← [12; 14; 15; 16; 19; 20]; k ← [16; 32]; [mkEncryptionID t k].

Lemma known_length {A} `{EqDecision A} (all l : list A) (P : A → bool) :
  (∀ x, P x = true → x ∈ all) → Forall (λ x, P x = true) l → NoDup l → (length l <= length all)%nat.
Proof.
  intros Hall Hl Hn. apply submseteq_length, NoDup_submseteq; [done|]. intros x Hx.
  rewrite Forall_forall in Hl. auto.
Qed.

Lemma enc_known_all e : enc_known e = true → e ∈ all_encs.
Proof.
  intros H. destruct (enc_known_inv e H) as (alg & E & _ & Hk & _). destruct e as [t k]. cbn in *.
  unfold NewEncryption in E. destruct (_ && _) in E; [done|].
  unfold TransformEncryptionAESCBC, TransformEncryptionAESCCM8, TransformEncryptionAESCCM12,
    TransformEncryptionAESCCM16, TransformEncryptionAESGCM12, TransformEncryptionAESGCM16 in *.
  assert (Ht : t = 12 ∨ t = 14 ∨ t = 15 ∨ t = 16 ∨ t = 19 ∨ t = 20).
  { destruct (t =? 12) eqn:E1; [lia|]. destruct ((t =? 14) || _ || _) eqn:E2; [lia|].
    destruct ((t =? 19) || _) eqn:E3; [lia|done]. }
  destruct Hk as [-> | ->], Ht as [->|[->|[->|[->|[->| ->]]]]]; apply (bool_decide_unpack _); done.
Qed.

Lemma integ_known_all i : integ_known i = true → i ∈ [2; 12; 13; 14].
Proof.
  unfold integ_known, NewIntegrity, TransformIntegrityNone, TransformIntegrityHMACSHA196,
    TransformIntegrityHMACSHA2256128, TransformIntegrityHMACSHA2384192, TransformIntegrityHMACSHA2512256.
  intros H. assert (i = 2 ∨ i = 12 ∨ i = 13 ∨ i = 14) by (repeat case_match; simpl in *; try done; lia).
  rewrite !elem_of_cons. tauto.
Qed.

Lemma prf_known_all i : prf_known i = true → i ∈ [2; 5; 7].
Proof.
  unfold prf_known, NewPRF, TransformPRFHMACSHA1, TransformPRFHMACSHA256, TransformPRFHMACSHA512.
  intros H. assert (i = 2 ∨ i = 5 ∨ i = 7) by (repeat case_match; simpl in *; try done; lia).
  rewrite !elem_of_cons. tauto.
Qed.

Lemma transforms_bytes_bound ts : Forall (λ t, len (Attrs t) <= 4) ts →
  len (transforms_bytes ts) <= 12 * len ts.
Proof.
  induction 1 as [|t ts Ht _ IH]; [done|]. cbn [transforms_bytes].
  rewrite len_app, len_transform_bytes, len_cons. unfold TransformHeaderLen. lia.
Qed.

(** A transform of the registry. *)
Definition reg_transform (t : Transform) : Prop :=
  is_byte (Transform_Type t) ∧ 0 <= Transform_ID t < 2 ^ 16 ∧ len (Attrs t) <= 4.

Lemma reg_transforms_wf num proto spi ts : is_byte num → is_byte proto → len spi <= 8 →
  Forall reg_transform ts → ts ≠ [] → (length ts <= 100)%nat →
  proposal_wf (Payload.mkProposal num proto spi ts).
Proof.
  intros Hn Hp Hs Ht Hne Hl. unfold proposal_wf. cbn [Num ProtocolID Proposal_SPI Transforms].
  do 3 (split; [done|]). split.
  - eapply Forall_impl; [exact Ht|]. intros t (? & ? & ?). split; [done|]. split; [done|]. unfold TransformHeaderLen. lia.
  - split_and!; cbn [Proposal_SPI Transforms]; [lia|unfold len; lia|].
    assert (Hb : len (transforms_bytes ts) <= 12 * len ts).
    { apply transforms_bytes_bound. eapply Forall_impl; [exact Ht|]. by intros t (? & ? & ?). }
    unfold ProposalHeaderLen. unfold len in *. lia.
Qed.

Lemma reg_enc e : enc_known e = true → reg_transform (enc_wire e).
Proof.
  intros (alg & _ & _ & Hk & Ht & _)%enc_known_inv. do 2 (split; [done|]).
  cbn [Attrs enc_wire]. destruct Hk as [-> | ->]; done.
Qed.

Lemma reg_plain typ id : is_byte typ → 0 <= id < 2 ^ 16 → reg_transform (plain_transform typ id).
Proof. intros. by do 2 (split; [done|]). Qed.

Lemma reg_plains typ ids : is_byte typ → Forall (λ i, 0 <= i < 2 ^ 16) ids →
  Forall reg_transform (plain_transform typ <$> ids).
Proof. intros Ht H. apply Forall_fmap. eapply Forall_impl; [exact H|]. intros. by apply reg_plain. Qed.

Lemma elem_small (l : list Z) i : i ∈ l → Forall (λ i, 0 <= i < 2 ^ 16) l → 0 <= i < 2 ^ 16.
Proof. rewrite Forall_forall. auto. Qed.

Lemma integ_known_range i : integ_known i = true → 0 <= i < 2 ^ 16.
Proof. intros H%integ_known_all. apply (elem_small _ _ H). by apply (bool_decide_unpack _). Qed.
Lemma prf_known_range i : prf_known i = true → 0 <= i < 2 ^ 16.
Proof. intros H%prf_known_all. apply (elem_small _ _ H). by apply (bool_decide_unpack _). Qed.

(** An IKE offer: its transforms are well formed and read back as the suite. *)
Lemma ike_suite_wire p : proposal_ok p → ∃ ts, ike_suite_transforms p = Ok ts ∧
  (∀ r, r = empty_proposal → wire_transforms true r ts = Some p) ∧
  Forall reg_transform ts ∧ ts ≠ [] ∧ (length ts <= 100)%nat.
Proof.
  intros [[[He Hen] [Hi Hin] [Hp Hpn] [Hd Hdn]] He0 Hd0 Hp0 Ha]. unfold ike_suite_transforms.
  rewrite (enc_transforms_wire _ He). run. eexists. split; [done|].
  assert (Ei : (if existsb is_aead (Encryption p) then [] else plain_transform TransformINTEG <$> Integrities p)
    = plain_transform TransformINTEG <$> Integrities p).
  { destruct (existsb _ _); [|done]. by destruct Ha as [_ ->]. }
  rewrite Ei. split_and!.
  - intros r ->. rewrite wire_transforms_enc by done. cbn [Encryption Integrities PRFs DHs empty_proposal app].
    rewrite wire_transforms_prf, wire_transforms_integ.
    rewrite <- (app_nil_r (plain_transform TransformDH <$> DHs p)), wire_transforms_dh. by destruct p.
  - repeat apply Forall_app_2.
    + apply Forall_fmap. eapply Forall_impl; [exact He|]. apply reg_enc.
    + apply reg_plains; [done|]. eapply Forall_impl; [exact Hp|]. apply prf_known_range.
    + apply reg_plains; [done|]. eapply Forall_impl; [exact Hi|]. apply integ_known_range.
    + apply reg_plains; [done|]. eapply Forall_impl; [exact Hd|]. by intros i ->.
  - destruct (Encryption p); done.
  - rewrite !length_app, !length_fmap.
    pose proof (known_length all_encs _ enc_known enc_known_all He Hen) as L1.
    pose proof (known_length [2; 12; 13; 14] _ integ_known integ_known_all Hi Hin) as L2.
    pose proof (known_length [2; 5; 7] _ prf_known prf_known_all Hp Hpn) as L3.
    assert (L4 : (length (DHs p) <= length [TransformDHCurve25519])%nat).
    { apply (known_length _ _ (λ i, i =? TransformDHCurve25519)); [|eapply Forall_impl; [exact Hd|]|done].
      - intros x Hx. apply list_elem_of_singleton. lia.
      - intros x ->. done. }
    change (length all_encs) with 12%nat in L1. simpl in *. lia.
Qed.

(** ** Lemmas: selecting again what was selected *)

(** The proposal a selection is echoed as. *)
Definition echo (e : EncryptionID) (enc : EncryptionAlg) (integ prf dh : Z) : Suite.Proposal :=
  Suite.mkProposal [e] (if AEAD enc then [] else [integ]) [prf] [dh].

Lemma selectEncryption_echo p e enc rest : e ∈ Encryption p →
  Encryption rest = [e] → NewEncryption (EncID_TransformID e) (EncID_KeyLen e) = Ok enc →
  (AEAD enc = true → Integrities p = [] ∧ Integrities rest = []) → selectEncryption p rest = Ok enc.
Proof.
  intros Hin Hr Hn Ha. unfold selectEncryption. induction (Encryption p) as [|w ws IH]; [by apply not_elem_of_nil in Hin|].
  cbn [selectEncryption_loop]. unfold hasEncryption. rewrite Hr. case_bool_decide as Ew; cbn [negb].
  - apply list_elem_of_singleton in Ew as ->. rewrite Hn. run. destruct (AEAD enc) eqn:E; [|done].
    destruct (Ha eq_refl) as [-> ->]. done.
  - apply IH. apply elem_of_cons in Hin as [->|?]; [|done]. by destruct Ew; apply list_elem_of_singleton.
Qed.

Lemma selectIntegrity_echo p i integ rest : i ∈ Integrities p → Integrities rest = [i] →
  NewIntegrity i = Ok integ → selectIntegrity p rest = Ok integ.
Proof.
  intros Hin Hr Hn. unfold selectIntegrity. induction (Integrities p) as [|w ws IH]; [by apply not_elem_of_nil in Hin|].
  cbn [selectIntegrity_loop]. unfold hasU16. rewrite Hr. case_bool_decide as Ew; cbn [negb].
  - by apply list_elem_of_singleton in Ew as ->.
  - apply IH. apply elem_of_cons in Hin as [->|?]; [|done]. by destruct Ew; apply list_elem_of_singleton.
Qed.

Lemma selectPRF_echo p i f prf rest : f ∈ PRFs p → PRFs rest = [f] →
  prfMatchesIntegrity f (Some i) = true → NewPRF f = Ok prf → selectPRF p rest (Some i) = Ok prf.
Proof.
  intros Hin Hr Hm Hn. cbn [selectPRF]. induction (PRFs p) as [|w ws IH]; [by apply not_elem_of_nil in Hin|].
  cbn [selectPRF_loop]. unfold hasU16. rewrite Hr. case_bool_decide as Ew; cbn [negb].
  - apply list_elem_of_singleton in Ew as ->. by rewrite Hm.
  - rewrite orb_true_r. apply IH. apply elem_of_cons in Hin as [->|?]; [|done].
    by destruct Ew; apply list_elem_of_singleton.
Qed.

Lemma selectDH_echo p d rest : d ∈ DHs p → DHs rest = [d] → d = TransformDHCurve25519 →
  selectDH p rest = Ok {| DH_TransformID := d; DH_Name := "curve25519" |}.
Proof.
  intros Hin Hr ->. unfold selectDH. induction (DHs p) as [|w ws IH]; [by apply not_elem_of_nil in Hin|].
  cbn [selectDH_loop]. unfold hasU16. rewrite Hr. case_bool_decide as Ew; cbn [negb].
  - by apply list_elem_of_singleton in Ew as ->.
  - apply IH. apply elem_of_cons in Hin as [<-|?]; [|done]. by destruct Ew; apply list_elem_of_singleton.
Qed.

Lemma selectDH_name p remote d : selectDH p remote = Ok d →
  d = {| DH_TransformID := TransformDHCurve25519; DH_Name := "curve25519" |}.
Proof.
  unfold selectDH. induction (DHs p) as [|w ws IH]; simpl; [done|].
  destruct (negb _); [done|]. destruct (w =? TransformDHCurve25519) eqn:E; [|done].
  apply Z.eqb_eq in E as ->. by intros [= <-].
Qed.

(** What a selection against an accepted proposal consists of. *)
Record selected_from (p : Suite.Proposal) (sel : Selection) (e : EncryptionID) (enc : EncryptionAlg)
    (integ : Integrity) (prf : PRF) (dh : DH) : Prop := {
  sf_sel : sel = mkSelection (Some enc) (Some integ) (Some prf) (Some dh);
  sf_enc : e ∈ Encryption p ∧ enc_known e = true;
  sf_new : NewEncryption (EncID_TransformID e) (EncID_KeyLen e) = Ok enc;
  sf_aead : AEAD enc = true → Integrities p = [] ∧ integ = mkIntegrity 0 0 0 None;
  sf_integ : AEAD enc = false → Integ_TransformID integ ∈ Integrities p ∧
               NewIntegrity (Integ_TransformID integ) = Ok integ;
  sf_prf : PRF_TransformID prf ∈ PRFs p ∧ NewPRF (PRF_TransformID prf) = Ok prf ∧
           prfMatchesIntegrity (PRF_TransformID prf) (Some integ) = true;
  sf_dh : TransformDHCurve25519 ∈ DHs p ∧
          dh = {| DH_TransformID := TransformDHCurve25519; DH_Name := "curve25519" |} }.

Lemma Select_inv q p sel : Forall (λ e, enc_known e = true) (Encryption p) →
  Select q (Some p) = Ok sel → ∃ e enc integ prf dh, selected_from p sel e enc integ prf dh.
Proof.
  intros Hk. cbn [Select]. intros (enc & Ee & H)%bind_Ok. apply bind_Ok in H as (integ & Ei & H).
  apply bind_Ok in H as (prf & Ep & H). apply bind_Ok in H as (dh & Ed & H). apply Ok_inj in H as <-.
  apply selectEncryption_spec in Ee as (e & (b & a & _ & Hin & _) & Hn & Ha).
  apply selectPRF_spec in Ep as (Hp1 & Hp2 & _ & Hp4).
  pose proof (selectDH_name _ _ _ Ed) as Hd. apply selectDH_spec in Ed as (Hd1 & _ & Hd2).
  exists e, enc, integ, prf, dh. constructor; try done.
  - split; [done|]. rewrite Forall_forall in Hk. auto.
  - intros E. rewrite E in Ei. destruct (Ha E) as [_ ?]. by injection Ei as <-.
  - intros E. rewrite E in Ei. by apply selectIntegrity_spec in Ei as [(_ & _ & _ & ? & _) ?].
  - split_and!; [done..|]. unfold prfMatchesIntegrity. destruct (_ =? TransformIntegrityNone) eqn:E; [done|].
    destruct Hp4 as [?|?]; lia.
  - split; [by rewrite Hd1 in Hd2|done].
Qed.

Lemma Select_echo p sel e enc integ prf dh : selected_from p sel e enc integ prf dh →
  Select p (Some (echo e enc (Integ_TransformID integ) (PRF_TransformID prf) (DH_TransformID dh))) = Ok sel.
Proof.
  intros [-> [He _] Hn Ha Hi (Hp1 & Hp2 & Hp3) [Hd ->]]. cbn [Select].
  rewrite (selectEncryption_echo p e enc); [|done|done|done|].
  2: { intros E. destruct (Ha E) as [-> _]. cbn [echo Integrities]. by rewrite E. }
  run. assert (E : (if AEAD enc then NewIntegrity TransformIntegrityNone
    else selectIntegrity p (echo e enc (Integ_TransformID integ) (PRF_TransformID prf) TransformDHCurve25519))
    = Ok integ).
  { destruct (AEAD enc) eqn:E; [by destruct (Ha eq_refl) as [_ ->]|]. destruct (Hi eq_refl).
    apply (selectIntegrity_echo p (Integ_TransformID integ)); [done|cbn; by rewrite E|done]. }
  cbn [DH_TransformID]. rewrite E. run.
  rewrite (selectPRF_echo p integ (PRF_TransformID prf) prf) by done. run.
  by rewrite (selectDH_echo p TransformDHCurve25519) by done.
Qed.

(** The responder's SA payload, and what the initiator reads in it. *)
Definition ike_echo_transforms (e : EncryptionID) (enc : EncryptionAlg) (integ prf dh : Z) : list Transform :=
  enc_wire e :: (if AEAD enc then [] else [plain_transform TransformINTEG integ]) ++
  [plain_transform TransformPRF prf; plain_transform TransformDH dh].

Lemma enc_transform_selected e enc : enc_known e = true →
  NewEncryption (EncID_TransformID e) (EncID_KeyLen e) = Ok enc →
  enc_transform enc (Enc_TransformID enc) = enc_wire e.
Proof.
  intros Hk Hn. rewrite <- (enc_transform_wire e enc) by done. f_equal.
  by destruct (NewEncryption_wf _ _ _ Hn) as (_ & -> & _).
Qed.

Lemma responderSelectedIKE_echo p peer spi sel e enc integ prf dh :
  selected_from p sel e enc integ prf dh →
  responderSelectedIKE peer spi sel = Ok [Payload.mkProposal (Num peer) DeleteProtocolIKE (putUint64 spi)
    (ike_echo_transforms e enc (Integ_TransformID integ) (PRF_TransformID prf) (DH_TransformID dh))].
Proof.
  intros [-> [_ Hk] Hn _ _ _ _]. unfold responderSelectedIKE. cbn [deref Sel_Encryption Sel_Integrity Sel_PRF Sel_DH].
  run. rewrite (enc_transform_selected e enc) by done. unfold ike_echo_transforms. by destruct (AEAD enc).
Qed.

Lemma selected_ike_echo e enc integ prf dh : enc_known e = true →
  selected_ike_transforms empty_proposal (ike_echo_transforms e enc integ prf dh)
  = Ok (echo e enc integ prf dh).
Proof.
  intros Hk. destruct (enc_known_inv e Hk) as (_ & _ & _ & Hl & _).
  unfold ike_echo_transforms. cbn [selected_ike_transforms].
  change (Transform_Type (enc_wire e) =? TransformENC) with true. cbv iota. unfold enc_wire. cbn [Attrs Transform_ID].
  rewrite KeyLengthAttr_parse by (destruct Hl as [-> | ->]; lia). cbn [wrap]. run.
  replace ((EncID_KeyLen e * 8 =? 0) || negb (Z.rem (EncID_KeyLen e * 8) 8 =? 0)) with false
    by (destruct Hl as [-> | ->]; reflexivity).
  replace ((EncID_KeyLen e * 8) `quot` 8) with (EncID_KeyLen e) by (destruct Hl as [-> | ->]; reflexivity).
  run. unfold echo. destruct e as [t l]. cbn [EncID_TransformID EncID_KeyLen]. by destruct (AEAD enc).
Qed.

Lemma selectionMatchesIKE_echo p sel e enc integ prf dh : selected_from p sel e enc integ prf dh →
  selectionMatchesIKE sel (echo e enc (Integ_TransformID integ) (PRF_TransformID prf) (DH_TransformID dh)) = Ok true.
Proof.
  intros [-> [_ Hk] Hn _ _ _ _]. destruct (NewEncryption_wf _ _ _ Hn) as (_ & Ht & Hl).
  unfold selectionMatchesIKE, echo. cbn [Encryption Integrities PRFs DHs deref Sel_Encryption Sel_Integrity Sel_PRF Sel_DH].
  assert (H0 : ∀ A (x : A), [x].[0] = Ok x) by done. rewrite H0. run.
  rewrite Ht, Hl, !Z.eqb_refl. cbn [negb orb]. rewrite !H0.
  assert (Hi : (if AEAD enc then Ok (len (if AEAD enc then [] else [Integ_TransformID integ]) =? 0)
    else if negb (len (if AEAD enc then [] else [Integ_TransformID integ]) =? 1) then Ok false
    else j ← (if AEAD enc then [] else [Integ_TransformID integ]).[0]; Ok (Integ_TransformID integ =? j))
    = Ok true).
  { destruct (AEAD enc); [done|]. transitivity (@Ok bool (Integ_TransformID integ =? Integ_TransformID integ)).
    - reflexivity.
    - by rewrite Z.eqb_refl. }
  rewrite Hi. run. by rewrite !Z.eqb_refl.
Qed.

Lemma decode_ike_echo cfg num proto spi p sel e enc integ prf dh :
  Cfg_IKE cfg !! Z.to_nat (num - 1) = Some p → 1 <= num → selected_from p sel e enc integ prf dh →
  decode_ike_proposal cfg (Payload.mkProposal num proto spi
    (ike_echo_transforms e enc (Integ_TransformID integ) (PRF_TransformID prf) (DH_TransformID dh))) = Ok sel.
Proof.
  intros Hp Hn Hs. unfold decode_ike_proposal. cbn [Num Transforms].
  assert (Hl : num - 1 < len (Cfg_IKE cfg)) by (apply lookup_lt_Some in Hp; unfold len; lia).
  destruct ((num - 1 <? 0) || (len (Cfg_IKE cfg) <=? num - 1)) eqn:E; [lia|].
  rewrite selected_ike_echo by apply Hs. run. unfold idx.
  rewrite (proj2 (Z.ltb_ge _ _)) by lia. rewrite Hp. run. rewrite (Select_echo _ _ _ _ _ _ _ Hs). cbn [wrap]. run.
  change (len (Encryption (echo e enc (Integ_TransformID integ) (PRF_TransformID prf) (DH_TransformID dh)))) with 1.
  change (len (PRFs (echo e enc (Integ_TransformID integ) (PRF_TransformID prf) (DH_TransformID dh)))) with 1.
  change (len (DHs (echo e enc (Integ_TransformID integ) (PRF_TransformID prf) (DH_TransformID dh)))) with 1.
  cbn [Z.eqb Pos.eqb negb orb]. by rewrite (selectionMatchesIKE_echo _ _ _ _ _ _ _ Hs).
Qed.

(** ** Lemmas: the two ends *)

Lemma NewEncryption_fine id kl : fine (NewEncryption id kl).
Proof. unfold NewEncryption. by repeat case_match. Qed.

Lemma Select_fine p r : fine (Select p (Some r)).
Proof.
  cbn [Select]. apply fine_bind.
  { unfold selectEncryption. induction (Encryption p) as [|w ws IH]; [done|]. cbn [selectEncryption_loop].
    destruct (negb _); [done|]. apply fine_bind; [apply NewEncryption_fine|]. intros a _. by destruct (_ && _). }
  intros enc _. apply fine_bind.
  { destruct (AEAD enc); [done|]. unfold selectIntegrity. induction (Integrities p) as [|w ws IH]; [done|].
    cbn [selectIntegrity_loop]. destruct (negb _); [done|]. unfold NewIntegrity. by repeat case_match. }
  intros integ _. apply fine_bind.
  { cbn [selectPRF]. induction (PRFs p) as [|w ws IH]; cbn [selectPRF_loop]; unfold NewPRF.
    - by repeat case_match.
    - destruct (_ || _); [done|]. by repeat case_match. }
  intros prf _. apply fine_bind; [|done].
  unfold selectDH. induction (DHs p) as [|w ws IH]; [done|]. cbn [selectDH_loop].
  destruct (negb _); [done|]. by destruct (_ =? _).
Qed.

(** The offers an initiator sends, in order, and what a responder reads in
    each. *)
Lemma ike_proposals_spec spi n suites : Forall proposal_ok suites → 0 <= n → n + len suites <= 255 →
  len spi <= 8 → ∃ sa, ike_proposals spi n suites = Ok sa ∧ Forall proposal_wf sa ∧
    Forall2 (λ prop suite, ProtocolID prop = DeleteProtocolIKE ∧ Proposal_SPI prop = spi ∧
      proposalFromWire prop true = Some suite) sa suites ∧
    ∀ (k : nat) prop, sa !! k = Some prop → Num prop = n + Z.of_nat k + 1.
Proof.
  intros H. revert n. induction H as [|p suites Hp _ IH]; intros n Hn Hl Hs; cbn [ike_proposals].
  { exists []. split_and!; [done|constructor|constructor|]. intros k prop. by rewrite lookup_nil. }
  rewrite len_cons in Hl. destruct (IH (n + 1)) as (sa & E & Hw & H2 & Hnum); [lia..|].
  destruct (ike_suite_wire p Hp) as (ts & Et & Hwt & Hr & Hne & Hlt). rewrite Et, E. run.
  pose proof (len_nonneg suites). assert (Hb : u8 (n + 1) = n + 1) by (apply u8_small; unfold is_byte; lia).
  eexists. split; [done|]. split_and!.
  - constructor; [|done]. apply reg_transforms_wf; try done. apply u8_byte.
  - constructor; [|done]. cbn [ProtocolID Proposal_SPI]. split_and!; [done..|].
    unfold proposalFromWire. cbn [Transforms]. rewrite Hwt by done. cbn [mbind option_bind].
    destruct Hp as [_ He Hd Hpf _]. rewrite !(proj2 (Z.eqb_neq (len _) 0)); [done|..];
      intros E0; apply len_0_inv in E0; done.
  - intros [|k] prop Hk; [injection Hk as <-; cbn [Num]; lia|]. simpl in Hk. rewrite (Hnum k prop Hk). lia.
Qed.

Lemma first_select_spec suites r :
  match first_select suites r with
  | Ok (Some sel) => ∃ q, q ∈ suites ∧ Select q (Some r) = Ok sel
  | Ok None => ∀ q, q ∈ suites → is_ok (Select q (Some r)) = false
  | _ => False
  end.
Proof.
  induction suites as [|q suites IH]; cbn [first_select].
  { intros q Hq. by apply not_elem_of_nil in Hq. }
  pose proof (Select_fine q r) as Hf. destruct (Select q (Some r)) as [sel|e| |] eqn:E; try done.
  - exists q. split; [left|done].
  - destruct (first_select suites r) as [[sel|]|e'| |]; try done.
    + destruct IH as (q' & ? & ?). exists q'. split; [by right|done].
    + intros q' [->|Hq]%elem_of_cons; [by rewrite E|auto].
Qed.

(** The responder walks well-formed offers to the first it can select from. *)
Lemma select_ike_spec cfg spiI spiR props suites :
  Forall2 (λ prop suite, ProtocolID prop = DeleteProtocolIKE ∧ Proposal_SPI prop = putUint64 spiI ∧
      proposalFromWire prop true = Some suite) props suites →
  Forall proposal_ok suites → 0 <= spiI < 2 ^ 64 →
  match select_ike_proposals cfg spiR props with
  | Ok (selected, sel, peerSPI) => peerSPI = spiI ∧ ∃ (k : nat) prop suite e enc integ prf dh,
      props !! k = Some prop ∧ suites !! k = Some suite ∧ selected_from suite sel e enc integ prf dh ∧
      responderSelectedIKE prop spiR sel = Ok selected
  | Err _ => ∀ p q, p ∈ suites → q ∈ Cfg_IKE cfg → is_ok (Select q (Some p)) = false
  | _ => False
  end.
Proof.
  intros H2 Hok Hs. induction H2 as [|prop suite props suites (Hp & Hspi & Hw) _ IH]; cbn [select_ike_proposals].
  { intros p q Hp. by apply not_elem_of_nil in Hp. }
  apply Forall_cons in Hok as [Hsu Hok]. specialize (IH Hok).
  rewrite Hp, Hspi, len_putUint64, Z.eqb_refl. cbn [negb orb Z.eqb Pos.eqb].
  rewrite beUint64_put' by done. run. rewrite Hw.
  pose proof (first_select_spec (Cfg_IKE cfg) suite) as Hf.
  destruct (first_select (Cfg_IKE cfg) suite) as [[sel|]|e| |]; try done; run.
  - destruct Hf as (q & _ & Hsel).
    destruct (Select_inv q suite sel) as (e & enc & integ & prf & dh & Hsf); [apply Hsu|done|].
    rewrite (responderSelectedIKE_echo suite prop spiR sel e enc integ prf dh Hsf). run.
    split; [done|]. exists 0%nat, prop, suite, e, enc, integ, prf, dh. split_and!; try done.
    by apply (responderSelectedIKE_echo suite).
  - destruct (select_ike_proposals cfg spiR props) as [[[selected sel] peerSPI]|e| |]; try done.
    + destruct IH as (-> & k & prop' & suite' & rest). split; [done|]. exists (S k), prop', suite'. exact rest.
    + intros p q [->|Hin]%elem_of_cons Hq; [by apply Hf|by apply IH].
Qed.

Lemma integ_known_hmac i ig : integ_known i = true → NewIntegrity i = Ok ig → Integ_newHMAC ig ≠ None.
Proof.
  intros [_ H0]%andb_true_iff. unfold NewIntegrity. destruct (i =? TransformIntegrityNone) eqn:E.
  - apply negb_true_iff in H0. change ((i =? 0) = true) in E. congruence.
  - clear. repeat (destruct (i =? _); [intros [= <-]; cbn; discriminate|]). done.
Qed.

Lemma selected_negotiated p sel e enc integ prf dh : Forall (λ i, integ_known i = true) (Integrities p) →
  selected_from p sel e enc integ prf dh → negotiated (Some sel) enc integ.
Proof.
  intros Hk [-> _ Hn Ha Hi _ _]. constructor; [by eexists _, _|by eexists _, _| |].
  - destruct (AEAD enc); [destruct (Ha eq_refl) as [_ ->]; by exists 0|].
    destruct (Hi eq_refl) as [_ ?]. by eexists.
  - intros E. destruct (Hi E) as [Hin Hn']. rewrite Forall_forall in Hk. by eapply integ_known_hmac; eauto.
Qed.

(** The responder's SA payload survives the wire. *)
Lemma echo_reg p sel e enc integ prf dh : proposal_ok p → selected_from p sel e enc integ prf dh →
  Forall reg_transform (ike_echo_transforms e enc (Integ_TransformID integ) (PRF_TransformID prf) (DH_TransformID dh)).
Proof.
  intros [[_ [Hi _] [Hp _] _] _ _ _ _] [_ [_ He] _ _ Hsi [Hpr _] [_ ->]]. rewrite Forall_forall in Hi, Hp.
  unfold ike_echo_transforms. constructor; [by apply reg_enc|]. apply Forall_app_2.
  - destruct (AEAD enc); [constructor|]. apply Forall_singleton, reg_plain; [done|].
    by apply integ_known_range, Hi, Hsi.
  - repeat constructor; try done; cbn [Transform_ID plain_transform];
      destruct (prf_known_range _ (Hp _ Hpr)); lia.
Qed.

Lemma echo_roundtrip p sel e enc integ prf dh num proto spi :
  proposal_ok p → selected_from p sel e enc integ prf dh → is_byte num → is_byte proto → len spi <= 8 →
  let sa := [Payload.mkProposal num proto spi
    (ike_echo_transforms e enc (Integ_TransformID integ) (PRF_TransformID prf) (DH_TransformID dh))] in
  ∃ b, AppendSA [] sa = Ok b ∧ ParseSA b = Ok sa ∧ len b <= 64.
Proof.
  intros Hok Hs Hn Hp Hl sa. assert (Hw : Forall proposal_wf sa).
  { apply Forall_singleton, reg_transforms_wf; try done; [by eapply echo_reg|].
    unfold ike_echo_transforms. destruct (AEAD enc); simpl; lia. }
  rewrite AppendSA_bytes by (by apply proposal_wf_fits). eexists. split; [done|]. split; [by apply ParseSA_bytes|].
  unfold sa. cbn [sa_bytes]. rewrite !len_app, len_proposal_bytes. unfold ike_echo_transforms.
  cbn [Proposal_SPI Transforms]. unfold ProposalHeaderLen.
  assert (Ha : len (Attrs (enc_wire e)) = 4) by done.
  assert (H0 : ∀ t i, len (Attrs (plain_transform t i)) = 0) by done.
  assert (Hnil : len (@nil Z) = 0) by done.
  destruct (AEAD enc); cbn [app transforms_bytes]; rewrite !len_app, !len_transform_bytes, Ha, ?H0, ?Hnil;
    unfold TransformHeaderLen; lia.
Qed.

(** ** Lemmas: CHILD_SA offers *)

Definition offer_of (offer : cesOffer) (p : Suite.Proposal) : Prop :=
  offer_enc offer = Encryption p ∧ offer_integrity offer = Integrities p ∧ offer_dh offer = DHs p.

Lemma child_offers_from compat suites seen : ∀ acc,
  Forall (λ o, ∃ p, proposal_ok p ∧ offer_of o p) acc → Forall proposal_ok suites →
  Forall (λ o, ∃ p, proposal_ok p ∧ offer_of o p) (child_offers compat suites (seen, acc)).
Proof.
  revert seen. induction suites as [|p suites IH]; intros seen acc Ha Hs; [done|].
  apply Forall_cons in Hs as [Hp Hs]. cbn [child_offers].
  assert (Hpush : ∀ omit s, Forall (λ o, ∃ p, proposal_ok p ∧ offer_of o p) s.2 →
    Forall (λ o, ∃ p, proposal_ok p ∧ offer_of o p) (push_offer p omit s).2).
  { intros omit s H. unfold push_offer. case_bool_decide; [done|]. apply Forall_app_2; [done|].
    apply Forall_singleton. by exists p. }
  set (s1 := push_offer p false (seen, acc)).
  assert (H1 := Hpush false (seen, acc) Ha). fold s1 in H1.
  destruct (compat && cesSuiteIsAEAD p).
  - specialize (Hpush true s1 H1). destruct (push_offer p true s1) as [seen' acc']. by apply IH.
  - destruct s1 as [seen' acc']. by apply IH.
Qed.

(** What a responder reads in an ESP offer: no PRF, DH only if included. *)
Definition esp_remote (p : Suite.Proposal) (includeDH : bool) : Suite.Proposal :=
  Suite.mkProposal (Encryption p) (Integrities p) [] (if includeDH then DHs p else []).

Lemma esp_offer_wire offer p includeDH : proposal_ok p → offer_of offer p →
  ∃ ts, childProposalTransforms offer includeDH = Ok ts ∧
    wire_transforms false empty_proposal ts = Some (esp_remote p includeDH) ∧
    Forall reg_transform ts ∧ ts ≠ [] ∧ (length ts <= 100)%nat.
Proof.
  intros [[[He Hen] [Hi Hin] _ [Hd Hdn]] He0 Hd0 _ Ha] (Eo & Io & Do).
  unfold childProposalTransforms, espOfferTransforms. rewrite Eo, Io, Do, (enc_transforms_wire _ He). run.
  eexists. split; [done|].
  assert (Ei : (if cesEncryptionListIsAEAD (Encryption p) then [] else plain_transform TransformINTEG <$> Integrities p)
    = plain_transform TransformINTEG <$> Integrities p).
  { change (cesEncryptionListIsAEAD (Encryption p)) with (existsb is_aead (Encryption p)).
    destruct (existsb _ _); [|done]. by destruct Ha as [_ ->]. }
  rewrite Ei, <- !app_assoc.
  pose proof (known_length all_encs _ enc_known enc_known_all He Hen) as L1.
  pose proof (known_length [2; 12; 13; 14] _ integ_known integ_known_all Hi Hin) as L2.
  assert (L4 : (length (DHs p) <= length [TransformDHCurve25519])%nat).
  { apply (known_length _ _ (λ i, i =? TransformDHCurve25519)); [|eapply Forall_impl; [exact Hd|]|done].
    - intros x Hx. apply list_elem_of_singleton. lia.
    - intros x ->. done. }
  change (length all_encs) with 12%nat in L1.
  split_and!.
  - rewrite wire_transforms_enc by done. cbn [Encryption Integrities PRFs DHs empty_proposal app].
    rewrite wire_transforms_integ. cbn [Encryption Integrities PRFs DHs app].
    transitivity (wire_transforms false (Suite.mkProposal (Encryption p) (Integrities p) [] [])
      (if includeDH then plain_transform TransformDH <$> DHs p else [])); [by destruct (omitESN offer)|].
    destruct includeDH; [|done].
    by rewrite <- (app_nil_r (plain_transform TransformDH <$> DHs p)), wire_transforms_dh.
  - repeat apply Forall_app_2.
    + apply Forall_fmap. eapply Forall_impl; [exact He|]. apply reg_enc.
    + apply reg_plains; [done|]. eapply Forall_impl; [exact Hi|]. apply integ_known_range.
    + destruct (omitESN offer); repeat constructor; done.
    + destruct includeDH; [|constructor]. apply reg_plains; [done|]. eapply Forall_impl; [exact Hd|]. by intros i ->.
  - destruct (Encryption p); done.
  - rewrite !length_app, !length_fmap. destruct (omitESN offer), includeDH; rewrite ?length_fmap; simpl in *; lia.
Qed.

Lemma esp_proposals_spec spi includeDH n offers :
  Forall (λ o, ∃ p, proposal_ok p ∧ offer_of o p) offers → 0 <= n → n + len offers <= 255 → len spi <= 8 →
  ∃ sa, esp_proposals spi includeDH n offers = Ok sa ∧ Forall proposal_wf sa ∧
    Forall2 (λ prop offer, ProtocolID prop = DeleteProtocolESP ∧ Proposal_SPI prop = spi ∧
      ∃ p, proposal_ok p ∧ offer_of offer p ∧ proposalFromWire prop false = Some (esp_remote p includeDH)) sa offers ∧
    ∀ (k : nat) prop, sa !! k = Some prop → Num prop = n + Z.of_nat k + 1.
Proof.
  intros H. revert n. induction H as [|o offers (p & Hp & Ho) _ IH]; intros n Hn Hl Hs; cbn [esp_proposals].
  { exists []. split_and!; [done|constructor|constructor|]. intros k prop. by rewrite lookup_nil. }
  rewrite len_cons in Hl. destruct (IH (n + 1)) as (sa & E & Hw & H2 & Hnum); [lia..|].
  destruct (esp_offer_wire o p includeDH Hp Ho) as (ts & Et & Hwt & Hr & Hne & Hlt). rewrite Et, E. run.
  pose proof (len_nonneg offers). assert (Hb : u8 (n + 1) = n + 1) by (apply u8_small; unfold is_byte; lia).
  eexists. split; [done|]. split_and!.
  - constructor; [|done]. apply reg_transforms_wf; try done. apply u8_byte.
  - constructor; [|done]. cbn [ProtocolID Proposal_SPI]. split_and!; [done..|]. exists p. split_and!; [done..|].
    unfold proposalFromWire. cbn [Transforms]. rewrite Hwt. cbn [mbind option_bind esp_remote Encryption].
    rewrite (proj2 (Z.eqb_neq (len _) 0)); [done|]. intros E0%len_0_inv. by apply (po_enc p Hp).
  - intros [|k] prop Hk; [injection Hk as <-; cbn [Num]; lia|]. simpl in Hk. rewrite (Hnum k prop Hk). lia.
Qed.

(** A selection out of [first_select_esp] is one against the peer's offer with
    some PRF and DH lists put in. *)
Lemma first_select_esp_spec suites r : Forall (λ e, enc_known e = true) (Encryption r) →
  match first_select_esp suites r with
  | Ok (Some sel) => ∃ q dhs e enc integ prf dh, q ∈ suites ∧
      selected_from (Suite.mkProposal (Encryption r) (Integrities r) (PRFs q) dhs) sel e enc integ prf dh
  | Ok None => True
  | _ => False
  end.
Proof.
  revert r. induction suites as [|q suites IH]; intros r Hk; cbn [first_select_esp]; [done|].
  set (dhs := if _ && _ then _ else _). set (r' := Suite.mkProposal _ _ _ _).
  pose proof (Select_fine q r') as Hf. destruct (Select q (Some r')) as [sel|e| |] eqn:E; try done.
  - destruct (Select_inv q r' sel) as (e & enc & integ & prf & dh & Hsf); [done|done|].
    exists q, dhs, e, enc, integ, prf, dh. split; [left|done].
  - specialize (IH r' Hk). destruct (first_select_esp suites r') as [[sel|]|e'| |]; try done.
    destruct IH as (q' & dhs' & e' & enc & integ & prf & dh & Hq & Hsf).
    exists q', dhs', e', enc, integ, prf, dh. split; [by right|done].
Qed.

(** The responder's ESP answer and its reading by the initiator. *)
Definition esp_echo_transforms (e : EncryptionID) (enc : EncryptionAlg) (integ : Z) (esn : bool)
    (dh : option DH) : list Transform :=
  enc_wire e :: (if AEAD enc then [] else [plain_transform TransformINTEG integ]) ++
  (if esn then [plain_transform TransformESN ESNNoExtendedSequenceNumbers] else []) ++
  match dh with Some dh => [plain_transform TransformDH (DH_TransformID dh)] | None => [] end.

Lemma responderSelectedESP_echo peer spi e enc integ prf dh : enc_known e = true →
  NewEncryption (EncID_TransformID e) (EncID_KeyLen e) = Ok enc →
  responderSelectedESP peer spi (mkSelection (Some enc) (Some integ) prf dh) =
  Ok [Payload.mkProposal (Num peer) DeleteProtocolESP (putUint32 spi)
        (esp_echo_transforms e enc (Integ_TransformID integ) (existsb has_esn (Transforms peer)) dh)].
Proof.
  intros Hk Hn. unfold responderSelectedESP. cbn [deref Sel_Encryption Sel_Integrity Sel_DH]. run.
  rewrite (enc_transform_selected e enc) by done. unfold esp_echo_transforms. by destruct (AEAD enc).
Qed.

Lemma scan_esp_echo e enc integ esn dh : enc_known e = true →
  (∀ d, dh = Some d → DH_TransformID d = TransformDHCurve25519) →
  scan_child_transforms (mkChildScan None None (-1) 0) (esp_echo_transforms e enc integ esn dh) =
  Ok (mkChildScan (Some e) (if AEAD enc then None else Some integ) (if esn then 0 else -1)
        (match dh with Some _ => TransformDHCurve25519 | None => 0 end)).
Proof.
  intros Hk Hd. destruct (enc_known_inv e Hk) as (_ & _ & _ & Hl & _).
  unfold esp_echo_transforms. cbn [scan_child_transforms].
  change (Transform_Type (enc_wire e) =? TransformDH) with false.
  change (Transform_Type (enc_wire e) =? TransformENC) with true. cbv iota.
  rewrite bool_decide_eq_false_2 by (cbn; tauto). unfold enc_wire. cbn [Attrs Transform_ID].
  rewrite KeyLengthAttr_parse by (destruct Hl as [-> | ->]; lia). run.
  replace ((EncID_KeyLen e * 8 =? 0) || negb (Z.rem (EncID_KeyLen e * 8) 8 =? 0)) with false
    by (destruct Hl as [-> | ->]; reflexivity).
  replace ((EncID_KeyLen e * 8) `quot` 8) with (EncID_KeyLen e) by (destruct Hl as [-> | ->]; reflexivity).
  run. destruct e as [t l]. cbn [EncID_TransformID EncID_KeyLen].
  destruct dh as [d|]; [rewrite (Hd d eq_refl)|]; by destruct (AEAD enc), esn.
Qed.

Lemma esp_echo_roundtrip e enc integ esn dh num spi : enc_known e = true → 0 <= integ < 2 ^ 16 →
  (∀ d, dh = Some d → DH_TransformID d = TransformDHCurve25519) → is_byte num → len spi <= 8 →
  let sa := [Payload.mkProposal num DeleteProtocolESP spi (esp_echo_transforms e enc integ esn dh)] in
  ∃ b, AppendSA [] sa = Ok b ∧ ParseSA b = Ok sa.
Proof.
  intros Hk Hi Hd Hn Hs sa. assert (Hw : Forall proposal_wf sa).
  { apply Forall_singleton, reg_transforms_wf; try done.
    - unfold esp_echo_transforms. constructor; [by apply reg_enc|]. repeat apply Forall_app_2.
      + destruct (AEAD enc); [constructor|]. by apply Forall_singleton, reg_plain.
      + destruct esn; repeat constructor; done.
      + destruct dh as [d|]; [|constructor]. rewrite (Hd d eq_refl). apply Forall_singleton, reg_plain; done.
    - unfold esp_echo_transforms. destruct (AEAD enc), esn, dh; simpl; lia. }
  rewrite AppendSA_bytes by (by apply proposal_wf_fits). eexists. split; [done|]. by apply ParseSA_bytes.
Qed.

(** [decodeChildSelection] on an echo of one of the offers. *)
Lemma decode_child_echo cfg ike offers offer num spi e enc integ esn dh :
  childOffers cfg = Ok offers → offers !! Z.to_nat (num - 1) = Some offer → 1 <= num →
  0 <= spi < 2 ^ 32 → enc_known e = true → NewEncryption (EncID_TransformID e) (EncID_KeyLen e) = Ok enc →
  e ∈ offer_enc offer → (AEAD enc = true → integ = mkIntegrity 0 0 0 None) →
  (AEAD enc = false → Integ_TransformID integ ∈ offer_integrity offer ∧
     NewIntegrity (Integ_TransformID integ) = Ok integ) →
  (∀ d, dh = Some d → d = {| DH_TransformID := TransformDHCurve25519; DH_Name := "curve25519" |}) →
  decodeChildSelection cfg (Some ike) [Payload.mkProposal num DeleteProtocolESP (putUint32 spi)
    (esp_echo_transforms e enc (Integ_TransformID integ) esn dh)] =
  Ok (spi, mkSelection (Some enc) (Some integ) (Sel_PRF ike)
             (match dh with Some d => Some d | None => Sel_DH ike end)).
Proof.
  intros Ho Hk Hn Hs Hek Hen Hin Ha Hi Hd. unfold decodeChildSelection.
  change (len [_] =? 1) with true. cbn [negb]. assert (E0 : ∀ A (x : A), [x].[0] = Ok x) by done.
  rewrite E0. run. cbn [ProtocolID Proposal_SPI Num Transforms]. rewrite len_putUint32, !Z.eqb_refl. cbn [negb].
  rewrite beUint32_put' by done. run. rewrite Ho. run.
  assert (Hl : num - 1 < len offers) by (apply lookup_lt_Some in Hk; unfold len; lia).
  destruct ((num - 1 <? 0) || (len offers <=? num - 1)) eqn:E; [lia|]. unfold idx at 1.
  rewrite (proj2 (Z.ltb_ge _ _)) by lia. rewrite Hk. run.
  rewrite scan_esp_echo; [|done|by intros d ->%Hd]. run. cbn [cs_enc cs_integ cs_esn cs_dh].
  rewrite (bool_decide_eq_true_2 (e ∈ _)) by done. cbn [negb]. rewrite Hen. cbn [wrap]. run.
  assert (Eig : (if AEAD enc then
      if bool_decide ((if AEAD enc then None else Some (Integ_TransformID integ)) ≠ None)
      then Err "control: AEAD CHILD_SA selection must not include integrity"
      else NewIntegrity TransformIntegrityNone
    else match (if AEAD enc then None else Some (Integ_TransformID integ)) with
         | None => Err "control: CHILD_SA selection missing integrity transform"
         | Some id => if negb (bool_decide (id ∈ offer_integrity offer))
             then Err "control: CHILD_SA selected an unoffered integrity transform %d" else NewIntegrity id
         end) = Ok integ).
  { destruct (AEAD enc); [rewrite (Ha eq_refl); by rewrite bool_decide_eq_false_2 by tauto|].
    destruct (Hi eq_refl) as [? ?]. by rewrite bool_decide_eq_true_2. }
  rewrite Eig. run. replace (negb ((if esn then 0 else -1) =? -1) && _) with false by (by destruct esn).
  destruct dh as [d|]; [by rewrite (Hd d eq_refl)|done].
Qed.

(** The responder's walk over ESP offers. *)
Lemma select_esp_spec cfg spiI spiR pfs wantsDH props offers :
  Forall2 (λ prop offer, ProtocolID prop = DeleteProtocolESP ∧ Proposal_SPI prop = putUint32 spiI ∧
      ∃ p, proposal_ok p ∧ offer_of offer p ∧ proposalFromWire prop false = Some (esp_remote p pfs)) props offers →
  match select_esp_proposals cfg spiR wantsDH props with
  | Ok (selected, sel) => ∃ (k : nat) prop offer p q dhs e enc integ prf dh,
      props !! k = Some prop ∧ offers !! k = Some offer ∧ proposal_ok p ∧ offer_of offer p ∧ q ∈ Cfg_ESP cfg ∧
      selected_from (Suite.mkProposal (Encryption p) (Integrities p) (PRFs q) dhs)
        (mkSelection (Some enc) (Some integ) (Some prf) (Some dh)) e enc integ prf dh ∧
      sel = mkSelection (Some enc) (Some integ) (Some prf) (if wantsDH then Some dh else None) ∧
      selected = [Payload.mkProposal (Num prop) DeleteProtocolESP (putUint32 spiR)
        (esp_echo_transforms e enc (Integ_TransformID integ) (existsb has_esn (Transforms prop))
           (if wantsDH then Some dh else None))]
  | Err _ => True
  | _ => False
  end.
Proof.
  intros H2. induction H2 as [|prop offer props offers (Hp & Hspi & p & Hok & Ho & Hw) _ IH];
    cbn [select_esp_proposals]; [done|].
  rewrite Hp, Hspi, len_putUint32, Z.eqb_refl. cbn [negb orb Z.eqb Pos.eqb]. rewrite Hw.
  pose proof (first_select_esp_spec (Cfg_ESP cfg) (esp_remote p pfs)) as Hf.
  specialize (Hf (proj1 (tw_enc _ (po_tokens _ Hok)))).
  destruct (first_select_esp (Cfg_ESP cfg) (esp_remote p pfs)) as [[sel|]|e| |]; try done; run.
  - destruct Hf as (q & dhs & e & enc & integ & prf & dh & Hq & Hsf). pose proof Hsf as [Es [_ Hek] Hn _ _ _ _].
    rewrite Es. cbn [Sel_Encryption Sel_Integrity Sel_PRF].
    replace (if wantsDH then mkSelection (Some enc) (Some integ) (Some prf) (Some dh)
             else mkSelection (Some enc) (Some integ) (Some prf) None)
      with (mkSelection (Some enc) (Some integ) (Some prf) (if wantsDH then Some dh else None))
      by (by destruct wantsDH).
    rewrite (responderSelectedESP_echo prop spiR e enc integ) by done. run.
    rewrite Es in Hsf. exists 0%nat, prop, offer, p, q, dhs, e, enc, integ, prf, dh. done.
  - destruct (select_esp_proposals cfg spiR wantsDH props) as [[selected sel]|e| |]; try done.
    destruct IH as (k & rest). exists (S k). exact rest.
Qed.

(* ------------------------------------------------------------------ *)
(** ** Properties *)

(** IKE negotiation agrees. The initiator's rekey offer survives the
    wire; the responder either finds no suite pair that selects, and then there
    is none, or picks a selection, reads the initiator's new SPI, and the SA
    payload it answers with - encoded and parsed again - is mapped back by the
    initiator to exactly the same algorithms and the responder's new SPI; the
    algorithms are usable by the key derivation and the protected-message layer. *)
Lemma ike_negotiation_agrees (icfg rcfg : Config) (spiI spiR : Z) :
  Forall proposal_ok (Cfg_IKE icfg) → Cfg_IKE icfg ≠ [] → len (Cfg_IKE icfg) <= 255 → Cfg_IKE rcfg ≠ [] →
  0 <= spiI < 2 ^ 64 → 0 <= spiR < 2 ^ 64 →
  ∃ body sa, appendIKEProposalsWithSPI icfg [] spiI = Ok body ∧ ParseSA body = Ok sa ∧
  match selectPeerIKEProposal rcfg sa spiR with
  | Ok (selected, sel, peerSPI) => peerSPI = spiI ∧ ∃ rbody rsa enc ig prf,
      AppendSA [] selected = Ok rbody ∧ ParseSA rbody = Ok rsa ∧ len rbody <= 64 ∧ len rsa = 1 ∧
      decodeIKESelectionWithSPI icfg rsa = Ok (spiR, sel) ∧ negotiated (Some sel) enc ig ∧
      Sel_PRF sel = Some prf ∧ NewPRF (PRF_TransformID prf) = Ok prf
  | Err _ => ∀ p q, p ∈ Cfg_IKE icfg → q ∈ Cfg_IKE rcfg → is_ok (Select q (Some p)) = false
  | _ => False
  end.
Proof.
  intros Hok Hne Hl Hr HI HR.
  destruct (ike_proposals_spec (putUint64 spiI) 0 (Cfg_IKE icfg)) as (sa & Esa & Hw & H2 & Hnum);
    [done|lia|lia|by rewrite len_putUint64|].
  assert (Hne' : sa ≠ []) by (intros ->; by apply Forall2_nil_inv_l in H2).
  assert (H0 : ∀ c, Cfg_IKE c ≠ [] → (len (Cfg_IKE c) =? 0) = false).
  { intros c Hc. apply Z.eqb_neq. intros E. by apply Hc, len_0_inv. }
  exists (sa_bytes sa), sa. split_and!.
  - unfold appendIKEProposalsWithSPI. rewrite H0, Esa by done. run.
    by rewrite AppendSA_bytes by (by apply proposal_wf_fits).
  - by apply ParseSA_bytes.
  - unfold selectPeerIKEProposal. rewrite H0 by done.
    pose proof (select_ike_spec rcfg spiI spiR sa _ H2 Hok HI) as Hs.
    destruct (select_ike_proposals rcfg spiR sa) as [[[selected sel] peerSPI]|e| |]; try done.
    destruct Hs as (-> & k & prop & suite & e & enc & integ & prf & dh & Hk & Hsu & Hsf & Hres). split; [done|].
    rewrite (responderSelectedIKE_echo suite prop spiR sel e enc integ prf dh Hsf) in Hres. injection Hres as <-.
    assert (Hs : proposal_ok suite) by (by eapply (Forall_lookup_1 _ (Cfg_IKE icfg))).
    pose proof (Hnum k prop Hk) as HN. pose proof (lookup_lt_Some _ _ _ Hsu) as Hkl.
    destruct (echo_roundtrip suite sel e enc integ prf dh (Num prop) DeleteProtocolIKE (putUint64 spiR))
      as (b & Eb & Pb & Lb); [done|done|unfold is_byte, len in *; lia|done|by rewrite len_putUint64|].
    eexists b, _, enc, integ, prf. split_and!; [exact Eb|exact Pb|exact Lb|done| | | |].
    + unfold decodeIKESelectionWithSPI. assert (E0 : ∀ A (x : A), [x].[0] = Ok x) by done. rewrite E0. run.
      cbn [ProtocolID Proposal_SPI]. rewrite len_putUint64, !Z.eqb_refl. cbn [negb orb].
      rewrite beUint64_put' by done. run.
      rewrite (decode_ike_echo icfg _ _ _ suite sel e enc integ prf dh); [done| |lia|done].
      rewrite <- Hsu. f_equal. lia.
    + eapply selected_negotiated; [apply Hs|done].
    + destruct Hsf as [-> _ _ _ _ _ _]. done.
    + by destruct Hsf as [_ _ _ _ _ (_ & ? & _) _].
Qed.

(** [C7] CHILD_SA rekey negotiation agrees on the data plane. When the
    responder selects from an initiator's offer (encoded, parsed), its answer
    (encoded, parsed) is mapped back by the initiator to the same cipher and
    integrity transform and to the responder's inbound SPI, and the responder
    takes the initiator's inbound SPI as its outbound one. The PRFs come from
    different places: the initiator keeps the IKE SA's, the responder takes one
    of its own ESP proposal's. *)
Theorem child_negotiation_agrees (icfg rcfg : Config) (offers : list cesOffer) (ike : Selection)
    (spiI spiR : Z) (pfs wantsDH : bool) :
  Forall proposal_ok (Cfg_ESP icfg) → childOffers icfg = Ok offers → len offers <= 255 →
  Cfg_ESP rcfg ≠ [] → 0 <= spiI < 2 ^ 32 → 0 <= spiR < 2 ^ 32 →
  ∃ body sa, appendESPProposalsForRekey icfg [] spiI pfs = Ok body ∧ ParseSA body = Ok sa ∧
    selectedPeerOutboundSPI sa = Ok spiI ∧
    match selectPeerESPProposal rcfg sa spiR wantsDH with
    | Ok (selected, sel) => ∃ rbody rsa sel' enc ig prf q,
        AppendSA [] selected = Ok rbody ∧ ParseSA rbody = Ok rsa ∧
        decodeChildSelection icfg (Some ike) rsa = Ok (spiR, sel') ∧
        Sel_Encryption sel = Some enc ∧ Sel_Encryption sel' = Some enc ∧
        Sel_Integrity sel = Some ig ∧ Sel_Integrity sel' = Some ig ∧ negotiated (Some sel) enc ig ∧
        Sel_PRF sel' = Sel_PRF ike ∧
        Sel_PRF sel = Some prf ∧ q ∈ Cfg_ESP rcfg ∧ PRF_TransformID prf ∈ PRFs q
    | Err _ => True
    | _ => False
    end.
Proof.
  intros Hok Eo Hl Hr HI HR.
  assert (Hoff : Forall (λ o, ∃ p, proposal_ok p ∧ offer_of o p) offers).
  { unfold childOffers in Eo. destruct (_ =? 0); [done|]. apply Ok_inj in Eo as <-.
    by apply child_offers_from; [constructor|]. }
  assert (Hne : offers ≠ []).
  { unfold childOffers in Eo. destruct (_ =? 0) eqn:E; [done|]. apply Ok_inj in Eo as <-.
    intros E'. by rewrite E' in E. }
  destruct (esp_proposals_spec (putUint32 spiI) pfs 0 offers) as (sa & Esa & Hw & H2 & Hnum);
    [done|lia|lia|by rewrite len_putUint32|].
  assert (Hne' : sa ≠ []) by (intros ->; by apply Forall2_nil_inv_l in H2).
  exists (sa_bytes sa), sa. split_and!.
  - unfold appendESPProposalsForRekey. rewrite Eo. run. rewrite Esa. run.
    by rewrite AppendSA_bytes by (by apply proposal_wf_fits).
  - by apply ParseSA_bytes.
  - destruct sa as [|prop sa]; [done|]. apply Forall2_cons_inv_l in H2 as (o & os & (_ & Hs & _) & _).
    unfold selectedPeerOutboundSPI. rewrite Hs, len_putUint32. by apply beUint32_put'.
  - unfold selectPeerESPProposal.
    rewrite (proj2 (Z.eqb_neq _ _)) by (intros E; by apply Hr, len_0_inv).
    pose proof (select_esp_spec rcfg spiI spiR pfs wantsDH sa offers H2) as Hs.
    destruct (select_esp_proposals rcfg spiR wantsDH sa) as [[selected sel]|e| |]; try done.
    destruct Hs as (k & prop & offer & p & q & dhs & e & enc & integ & prf & dh & Hk & Hof & Hp & Ho & Hq & Hsf & -> & ->).
    pose proof Hsf as [_ [He Hek] Hn Ha Hi [Hpr _] [_ Hd]]. cbn [Encryption Integrities PRFs] in *.
    pose proof Ho as (Eenc & Eint & _). pose proof (Hnum k prop Hk) as HN.
    pose proof (lookup_lt_Some _ _ _ Hof) as Hkl.
    assert (Hki : Forall (λ i, integ_known i = true) (Integrities p)) by apply Hp.
    destruct (esp_echo_roundtrip e enc (Integ_TransformID integ) (existsb has_esn (Transforms prop))
      (if wantsDH then Some dh else None) (Num prop) (putUint32 spiR)) as (b & Eb & Pb).
    + done.
    + destruct (AEAD enc); [destruct (Ha eq_refl) as [_ ->]; done|]. destruct (Hi eq_refl) as [Hin _].
      rewrite Forall_forall in Hki. by apply integ_known_range, Hki.
    + intros d. destruct wantsDH; [|done]. intros [= <-]. by rewrite Hd.
    + unfold is_byte, len in *. lia.
    + by rewrite len_putUint32.
    + eexists b, _, (mkSelection (Some enc) (Some integ) (Sel_PRF ike)
        (match (if wantsDH then Some dh else None) with Some d => Some d | None => Sel_DH ike end)),
        enc, integ, prf, q.
      do 2 (split; [done|]). split; [|do 4 (split; [done|]); split; [|done]].
      * apply (decode_child_echo icfg ike offers offer); try done.
        -- rewrite <- Hof. f_equal. lia.
        -- lia.
        -- by rewrite Eenc.
        -- intros E. by destruct (Ha E).
        -- by rewrite Eint.
        -- intros d. destruct wantsDH; [|done]. by intros [= <-].
      * destruct (selected_negotiated (Suite.mkProposal (Encryption p) (Integrities p) (PRFs q) dhs) _ _ _ _ _ _ Hki Hsf) as [_ ? ? ?]. constructor; try done. by eexists _, _.
Qed.

(* ------------------------------------------------------------------ *)
(** ** Witnesses *)

Definition sample_config (ike esp : list Suite.Proposal) : Config :=
  mkConfig [192; 0; 2; 1] [] ike esp (mkID 2 [97]) (mkID 0 []) "" (mkEapConfig "mschapv2" [] [] [] 0 0 false false false) false true
    (mkRekeyConfig (mkLifetime 1000 0 0) (mkLifetime 500 0 0) true 0 30) DefaultTimeouts 1024 true.

(** "aes256gcm16-prfsha512-curve25519" and "aes256-sha256-x25519" *)
Definition sample_gcm : Suite.Proposal := Suite.mkProposal [mkEncryptionID 20 32] [] [7] [31].
Definition sample_cbc : Suite.Proposal := Suite.mkProposal [mkEncryptionID 12 32] [12] [5] [31].

Lemma sample_suites_ok : Forall proposal_ok [sample_gcm; sample_cbc].
Proof.
  apply Forall_cons; split; [|apply Forall_singleton].
  - apply (ParseProposal_ok "aes256gcm16-prfsha512-curve25519"). vm_compute. reflexivity.
  - apply (ParseProposal_ok "aes256-sha256-x25519"). vm_compute. reflexivity.
Qed.

(** The strongSwan-compatible variant of the AEAD suite without ESN transform
    is the third offer. *)
Definition sample_offers : list cesOffer :=
  [mk_offer sample_cbc false; mk_offer sample_gcm false; mk_offer sample_gcm true].

Lemma child_negotiation_agrees_witness :
  let icfg := sample_config [] [sample_cbc; sample_gcm] in
  let rcfg := sample_config [] [sample_gcm] in
  ∃ body sa, appendESPProposalsForRekey icfg [] 5 true = Ok body ∧ ParseSA body = Ok sa ∧
    selectedPeerOutboundSPI sa = Ok 5 ∧
    match selectPeerESPProposal rcfg sa 6 true with
    | Ok (selected, sel) => ∃ rbody rsa sel' enc ig prf q,
        AppendSA [] selected = Ok rbody ∧ ParseSA rbody = Ok rsa ∧
        decodeChildSelection icfg (Some (mkSelection None None None None)) rsa = Ok (6, sel') ∧
        Sel_Encryption sel = Some enc ∧ Sel_Encryption sel' = Some enc ∧
        Sel_Integrity sel = Some ig ∧ Sel_Integrity sel' = Some ig ∧ negotiated (Some sel) enc ig ∧
        Sel_PRF sel' = None ∧
        Sel_PRF sel = Some prf ∧ q ∈ Cfg_ESP rcfg ∧ PRF_TransformID prf ∈ PRFs q
    | Err _ => True
    | _ => False
    end.
Proof.
  apply (child_negotiation_agrees (sample_config [] [sample_cbc; sample_gcm]) (sample_config [] [sample_gcm])
    sample_offers (mkSelection None None None None) 5 6 true true); try (vm_compute; split; congruence); try done.
  apply Forall_cons; split; [|apply Forall_singleton]; apply (Forall_forall proposal_ok [sample_gcm; sample_cbc]);
    [exact sample_suites_ok|set_solver|exact sample_suites_ok|set_solver].
Defined.
