(* ===== verification/Exchange.v ===== *)
(** * Request/response exchanges (src/control/exchange.go, session.go, close.go)

    Message-id allocation, the retransmission checkpoint, classification and
    validation of response headers, the three receive loops and the protected
    receiver built on them, and the DELETE exchange of the graceful close. A
    receive loop is run over the events its [select] observes: a packet (with
    the clock reading), the retransmission timer, the inbound channel closing,
    the context ending. Frames sent are an output. *)

From S2P Require Import Prelude Suite Crypto Cipher Payload Keying Wire Protected Eap State.

(* ------------------------------------------------------------------ *)
(** ** exchange.go *)

Inductive Disposition := DispositionExpected | DispositionDuplicateOrStale | DispositionIgnore.

Definition beginRequest (st : State) : State * Z :=
  let id := NextRequestMessageID st in
  let st := st <| ExpectedResponseMessageID := id |> <| HasExpectedResponse := true |> in
  (if negb (id =? 2 ^ 32 - 1) then st <| NextRequestMessageID := id + 1 |> else st, id).

(** Returns the state and the frames put on the wire. *)
Definition sendRequest (st : State) (packets : list (list Z)) : State * res (list (list Z)) :=
  if negb (HasExpectedResponse st) then
    (st, Err "control: sendRequest without an expected response message-id")
  else (st <| OutboundRequest := Some (mkCheckpoint (ExpectedResponseMessageID st) packets) |>, Ok packets).

Definition validateResponseEnvelopeForRole (hdr : Header) (localOriginalInitiator : bool) : res unit :=
  if negb (Version hdr =? IKEDefaultVersion) then Err "control: unexpected IKE version 0x%02x"
  else
  let mask := Z.lor (Z.lor FlagResponse FlagVersion) FlagInitiator in
  if Z.land (Flags hdr) FlagResponse =? 0 then Err "control: expected response flag in inbound message"
  else
  let hasInitiator := negb (Z.land (Flags hdr) FlagInitiator =? 0) in
  let wantInitiator := negb localOriginalInitiator in
  if negb (Bool.eqb hasInitiator wantInitiator) then
    Err "control: unexpected initiator flag in response (have=%t want=%t)"
  else if negb (Z.ldiff (Flags hdr) mask =? 0) then Err "control: unexpected reserved flag bits 0x%02x"
  else Ok tt.

Definition validateResponseEnvelope (hdr : Header) : res unit :=
  validateResponseEnvelopeForRole hdr true.

Definition classifyResponse (st : State) (hdr : Header) (msgID : Z) : res Disposition :=
  spiI ← SPI_Uint64 (Wire.InitiatorSPI hdr);
  if negb (spiI =? St_InitiatorSPI st) then Ok DispositionIgnore
  else
  spiR ← SPI_Uint64 (Wire.ResponderSPI hdr);
  if negb (St_ResponderSPI st =? 0) && negb (spiR =? St_ResponderSPI st) then Ok DispositionIgnore
  else
  _ ← validateResponseEnvelopeForRole hdr (IsOriginalInitiator st);
  let id := MessageID hdr in
  if id =? msgID then Ok DispositionExpected
  else if (id <? msgID) && HasLastCompletedResponse st && (id <=? LastCompletedResponseMessageID st) then
    Ok DispositionDuplicateOrStale
  else if id <? msgID then Err "control: stale response message-id %d while waiting for %d"
  else Err "control: future response message-id %d while waiting for %d".

Definition validateResponseHeader (st : State) (hdr : Header) (exchange msgID : Z) : State * res unit :=
  match
    (_ ← validateResponseEnvelopeForRole hdr (IsOriginalInitiator st);
     spiI ← SPI_Uint64 (Wire.InitiatorSPI hdr);
     if negb (spiI =? St_InitiatorSPI st) then Err "control: initiator SPI mismatch in response"
     else
     spiR ← SPI_Uint64 (Wire.ResponderSPI hdr);
     if negb (St_ResponderSPI st =? 0) && negb (spiR =? St_ResponderSPI st) then
       Err "control: responder SPI mismatch in response"
     else if negb (ExchangeType hdr =? exchange) then Err "control: unexpected exchange type %s, want %s"
     else if negb (MessageID hdr =? msgID) then Err "control: unexpected message-id %d, want %d"
     else if exchange =? ExchangeIkeSAInit then
       if SPI_IsZero (Wire.ResponderSPI hdr) then
         if negb (NextPayload hdr =? PayloadTypeNotify) then
           Err "control: IKE_SA_INIT without responder SPI must start with a NOTIFY payload"
         else Ok None
       else Ok (Some spiR)
     else Ok None)
  with
  | Ok (Some spiR) => (st <| St_ResponderSPI := spiR |>, Ok tt)
  | Ok None => (st, Ok tt)
  | Err e => (st, Err e)
  | Panic => (st, Panic)
  | Hang => (st, Hang)
  end.

(** The new state, [rto] and [retries], and the frames resent. *)
Definition retransmit (cfg : Config) (st : State) (rto retries : Z) :
    State * Z * Z * res (list (list Z)) :=
  match OutboundRequest st with
  | None => (st, rto, retries,
             Err "control: timed out while waiting for %s without an outbound checkpoint")
  | Some check =>
      if negb (Check_MessageID check =? ExpectedResponseMessageID st) then
        (st, rto, retries, Err "control: outbound request checkpoint mismatch while retransmitting %s")
      else if MaxRetries (Cfg_Timeouts cfg) <=? retries then
        (st, rto, retries, Err "control: timed out waiting for %s after %d retransmits")
      else
        let max := MaxRTO (Cfg_Timeouts cfg) in
        let rto := i64 (rto * 2) in
        let rto := if max <? rto then max else rto in
        (st <| InboundFragments := None |>, rto, u8 (retries + 1), Ok (Packets check))
  end.

(* ------------------------------------------------------------------ *)
(** ** Receive loops *)

(** [EvPacket ike raw now]: a packet of kind IKE ([ike]) or another kind. *)
Inductive wait_event :=
  | EvPacket (ike : bool) (raw : list Z) (now : Z)
  | EvNil
  | EvTimer
  | EvClosed
  | EvCancel.

(** What came of a receive loop when its events ran out or it returned. *)
Inductive waited (A : Type) :=
  | Waiting
  | Returned (r : res A) (rest : list wait_event).
Arguments Waiting {A}.
Arguments Returned {A} r rest.

(** The loop shared by [waitResponse], [waitResponseRaw] and
    [waitSAInitResponse]; [handle] treats one packet, [Ok None] continues. *)
Section WaitLoop.
Context {A : Type} (cfg : Config) (handle : State → bool → list Z → Z → State * res (option A)).

Fixpoint wait_loop (events : list wait_event) (st : State) (rto retries : Z) :
    State * list (list Z) * waited A :=
  match events with
  | [] => (st, [], Waiting)
  | EvClosed :: rest => (st, [], Returned (Err "control: inbound channel closed while waiting for %s") rest)
  | EvCancel :: rest => (st, [], Returned (Err "context canceled") rest)
  | EvNil :: rest => wait_loop rest st rto retries
  | EvPacket ike raw now :: rest =>
      match handle st ike raw now with
      | (st, Ok None) => wait_loop rest st rto retries
      | (st, Ok (Some a)) => (st, [], Returned (Ok a) rest)
      | (st, Err e) => (st, [], Returned (Err e) rest)
      | (st, Panic) => (st, [], Returned Panic rest)
      | (st, Hang) => (st, [], Returned Hang rest)
      end
  | EvTimer :: rest =>
      match retransmit cfg st rto retries with
      | (st, rto, retries, Ok sent) =>
          let '(st, sent', out) := wait_loop rest st rto retries in (st, sent ++ sent', out)
      | (st, _, _, Err e) => (st, [], Returned (Err e) rest)
      | (st, _, _, Panic) => (st, [], Returned Panic rest)
      | (st, _, _, Hang) => (st, [], Returned Hang rest)
      end
  end.
End WaitLoop.

(** A datagram that is not an expected, valid response is passed over or ends
    the loop with an error; [accept] finishes on the expected one. *)
Definition handle_response {A} (exchange msgID : Z) (accept : State → Message → list Z → State * A)
    (st : State) (ike : bool) (raw : list Z) (now : Z) : State * res (option A) :=
  if negb ike then (st, Ok None)
  else
  match ParseMessage raw with
  | Err _ => (st, Ok None)
  | Panic => (st, Panic)
  | Hang => (st, Hang)
  | Ok msg =>
      match classifyResponse st (Msg_Header msg) msgID with
      | Err e => (st, Err e)
      | Panic => (st, Panic)
      | Hang => (st, Hang)
      | Ok DispositionExpected =>
          match validateResponseHeader st (Msg_Header msg) exchange msgID with
          | (st, Ok _) => let '(st, a) := accept st msg raw in (st, Ok (Some a))
          | (st, Err e) => (st, Err e)
          | (st, Panic) => (st, Panic)
          | (st, Hang) => (st, Hang)
          end
      | Ok _ => (st, Ok None)
      end
  end.

Definition accept_response (exchange msgID : Z) (st : State) (msg : Message) (raw : list Z) :
    State * Message :=
  let st := if exchange =? ExchangeIkeAuth then st <| FirstIKEAuthSeen := true |> else st in
  (st <| LastCompletedResponseMessageID := msgID |> <| HasLastCompletedResponse := true |>
      <| OutboundRequest := None |> <| InboundFragments := None |> <| HasExpectedResponse := false |>, msg).

(** The response loop from a given interval and retry count; [accept] gets the
    clock reading of the packet too. *)
Definition await {A} (cfg : Config) (exchange msgID : Z)
    (accept : Z → State → Message → list Z → State * A) :
    list wait_event → State → Z → Z → State * list (list Z) * waited A :=
  wait_loop cfg (λ st ike raw now, handle_response exchange msgID (accept now) st ike raw now).

Definition waitResponse (cfg : Config) (st : State) (exchange msgID : Z) (events : list wait_event) :
    State * list (list Z) * waited Message :=
  await cfg exchange msgID (λ _, accept_response exchange msgID) events st
    (InitialRTO (Cfg_Timeouts cfg)) 0.

(** session.go *)
Definition waitResponseRaw (cfg : Config) (st : State) (exchange msgID : Z) (events : list wait_event) :
    State * list (list Z) * waited (list Z * Z) :=
  await cfg exchange msgID (λ now st _ raw, (st, (raw, now))) events st
    (InitialRTO (Cfg_Timeouts cfg)) 0.

Definition accept_sa_init (st : State) (msg : Message) (raw : list Z) : State * Message :=
  (st <| SAInitResponse := raw |> <| LastCompletedResponseMessageID := 0 |>
      <| HasLastCompletedResponse := true |> <| OutboundRequest := None |>, msg).

Definition waitSAInitResponse (cfg : Config) (st : State) (events : list wait_event) :
    State * list (list Z) * waited Message :=
  await cfg ExchangeIkeSAInit 0 (λ _, accept_sa_init) events st
    (InitialRTO (Cfg_Timeouts cfg)) 0.

Definition withPlaintextPayloads (m : Message) (payloads : list Wire.Payload) : Message :=
  mkMessage (Msg_Header m) payloads None.

Section Receiver.
Context {C : Crypto}.

(** [recvProtectedPayloads]: every call of [waitResponseRaw] that returns a
    packet has consumed an event, so [fuel] is the number of events. *)
Fixpoint recv_protected (cfg : Config) (exchange msgID : Z) (fuel : nat) (st : State)
    (events : list wait_event) : State * list (list Z) * waited (Message * list Wire.Payload) :=
  match fuel with
  | O => (st, [], Waiting)
  | S fuel =>
      match waitResponseRaw cfg st exchange msgID events with
      | (st, sent, Waiting) => (st, sent, Waiting)
      | (st, sent, Returned (Err e) rest) => (st, sent, Returned (Err e) rest)
      | (st, sent, Returned Panic rest) => (st, sent, Returned Panic rest)
      | (st, sent, Returned Hang rest) => (st, sent, Returned Hang rest)
      | (st, sent, Returned (Ok (raw, now)) rest) =>
          match openState (Some (Cfg_SkfReassemblyTimeout (Cfg_Timeouts cfg))) st now raw with
          | (st, Err e) => (st, sent, Returned (Err e) rest)
          | (st, Panic) => (st, sent, Returned Panic rest)
          | (st, Hang) => (st, sent, Returned Hang rest)
          | (st, Ok opened) =>
              let st := if exchange =? ExchangeIkeAuth then st <| FirstIKEAuthSeen := true |> else st in
              match opened with
              | None =>
                  let '(st, sent', out) := recv_protected cfg exchange msgID fuel st rest in
                  (st, sent ++ sent', out)
              | Some payloads =>
                  let st := st <| LastCompletedResponseMessageID := msgID |>
                               <| HasLastCompletedResponse := true |> <| HasExpectedResponse := false |>
                               <| ExpectedResponseMessageID := 0 |> <| OutboundRequest := None |>
                               <| InboundFragments := None |> in
                  (st, sent, Returned (msg ← ParseMessage raw;
                                       Ok (withPlaintextPayloads msg payloads, payloads)) rest)
              end
          end
      end
  end.

Definition recvProtectedPayloads (cfg : Config) (st : State) (exchange msgID : Z) (events : list wait_event) :
    State * list (list Z) * waited (Message * list Wire.Payload) :=
  recv_protected cfg exchange msgID (S (length events)) st events.

(* ------------------------------------------------------------------ *)
(** ** close.go *)

(** eap_peer.go: one payload with its generic header. *)
Definition cepSinglePayload (body : list Z) : list Z :=
  let total := 4 + len body in
  [PayloadTypeNone; 0; u8 (Z.shiftr total 8); u8 total] ++ body.

Definition buildChildDelete (cfg : Config) (st : State) (msgID spi : Z) (random : Z → Z → res (list Z)) :
    res (list (list Z)) :=
  body ← AppendDelete [] (mkDelete DeleteProtocolESP [spi]);
  buildProtectedState (Some cfg) st ExchangeInformational msgID PayloadTypeDelete (cepSinglePayload body) random.

Definition buildIKEDelete (cfg : Config) (st : State) (msgID : Z) (random : Z → Z → res (list Z)) :
    res (list (list Z)) :=
  body ← AppendDelete [] (mkDelete DeleteProtocolIKE []);
  buildProtectedState (Some cfg) st ExchangeInformational msgID PayloadTypeDelete (cepSinglePayload body) random.

Definition runDeleteExchange (cfg : Config) (st : State) (packets : list (list Z)) (events : list wait_event) :
    State * list (list Z) * waited unit :=
  match sendRequest st packets with
  | (st, Ok sent) =>
      match recvProtectedPayloads cfg st ExchangeInformational (ExpectedResponseMessageID st) events with
      | (st, sent', Waiting) => (st, sent ++ sent', Waiting)
      | (st, sent', Returned r rest) =>
          match r with
          | Ok _ => (st <| HasExpectedResponse := false |>, sent ++ sent', Returned (Ok tt) rest)
          | Err e => (st, sent ++ sent', Returned (Err e) rest)
          | Panic => (st, sent ++ sent', Returned Panic rest)
          | Hang => (st, sent ++ sent', Returned Hang rest)
          end
      end
  | (st, Err e) => (st, [], Returned (Err e) events)
  | (st, Panic) => (st, [], Returned Panic events)
  | (st, Hang) => (st, [], Returned Hang events)
  end.

Inductive CloseOutcome := CloseAlreadyClosed | CloseDone.

(** One DELETE round of [CloseExchange]: begin, build, exchange. *)
Definition delete_round (cfg : Config) (st : State)
    (build : State → Z → res (list (list Z))) (events : list wait_event) :
    State * list (list Z) * waited unit :=
  let '(st, msgID) := beginRequest st in
  match build st msgID with
  | Ok packets => runDeleteExchange cfg st packets events
  | Err e => (st, [], Returned (Err e) events)
  | Panic => (st, [], Returned Panic events)
  | Hang => (st, [], Returned Hang events)
  end.

Definition CloseExchange (cfg : Config) (st : State) (random : Z → Z → res (list Z))
    (events : list wait_event) : State * list (list Z) * waited CloseOutcome :=
  if (St_ResponderSPI st =? 0) || bool_decide (St_Phase st = PhaseStopped) then
    (st, [], Returned (Ok CloseAlreadyClosed) events)
  else
  let ike st sent events :=
    match delete_round cfg st (λ st id, buildIKEDelete cfg st id random) events with
    | (st, sent', Waiting) => (st, sent ++ sent', Waiting)
    | (st, sent', Returned (Ok _) rest) =>
        (ClearSession st <| St_Phase := PhaseStopped |>, sent ++ sent', Returned (Ok CloseDone) rest)
    | (st, sent', Returned (Err e) rest) => (st, sent ++ sent', Returned (Err e) rest)
    | (st, sent', Returned Panic rest) => (st, sent ++ sent', Returned Panic rest)
    | (st, sent', Returned Hang rest) => (st, sent ++ sent', Returned Hang rest)
    end in
  match ActiveChild st with
  | None => ike st [] events
  | Some child =>
      match delete_round cfg st (λ st id, buildChildDelete cfg st id (InboundSPI child) random) events with
      | (st, sent, Waiting) => (st, sent, Waiting)
      | (st, sent, Returned (Ok _) rest) => ike st sent rest
      | (st, sent, Returned (Err e) rest) => (st, sent, Returned (Err e) rest)
      | (st, sent, Returned Panic rest) => (st, sent, Returned Panic rest)
      | (st, sent, Returned Hang rest) => (st, sent, Returned Hang rest)
      end
  end.

(** The queue takes [room] frames before the context ends ([None]: all). *)
Definition sendCloseFrames (packets : list (list Z)) (room : option nat) : list (list Z) * res unit :=
  match room with
  | Some k => if (k <? length packets)%nat then (take k packets, Err "context canceled") else (packets, Ok tt)
  | None => (packets, Ok tt)
  end.

(** One DELETE of [Close]: the next message id, the request, its frames. *)
Definition delete_once (st : State) (build : State → Z → res (list (list Z))) (room : option nat) :
    State * list (list Z) * res unit :=
  if NextRequestMessageID st =? 2 ^ 32 - 1 then (st, [], Err "control: outbound message-id counter wrapped")
  else
  let msgID := NextRequestMessageID st in
  let st := st <| NextRequestMessageID := u32 (msgID + 1) |> in
  match build st msgID with
  | Ok packets => let '(sent, r) := sendCloseFrames packets room in (st, sent, r)
  | Err e => (st, [], Err e)
  | Panic => (st, [], Panic)
  | Hang => (st, [], Hang)
  end.

(** [Close]: the sequence without waiting for replies. *)
Definition Close (cfg : Config) (st : State) (random : Z → Z → res (list Z)) (room : option nat) :
    State * list (list Z) * res CloseOutcome :=
  if (St_ResponderSPI st =? 0) || bool_decide (St_Phase st = PhaseStopped) then (st, [], Ok CloseAlreadyClosed)
  else
  if NextRequestMessageID st =? 2 ^ 32 - 1 then (st, [], Err "control: outbound message-id counter wrapped")
  else
  let '(st, sent, r) :=
    match ActiveChild st with
    | Some child => delete_once st (λ st id, buildChildDelete cfg st id (InboundSPI child) random) room
    | None => (st, [], Ok tt)
    end in
  match r with
  | Ok _ =>
      let '(st, sent', r) := delete_once st (λ st id, buildIKEDelete cfg st id random) ((λ k, k - length sent)%nat <$> room) in
      match r with
      | Ok _ => (ClearSession st <| St_Phase := PhaseStopped |>, sent ++ sent', Ok CloseDone)
      | Err e => (st, sent ++ sent', Err e)
      | Panic => (st, sent ++ sent', Panic)
      | Hang => (st, sent ++ sent', Hang)
      end
  | Err e => (st, sent, Err e)
  | Panic => (st, sent, Panic)
  | Hang => (st, sent, Hang)
  end.
End Receiver.

(* ------------------------------------------------------------------ *)
(** ** Lemmas: the close without replies *)

Lemma sendCloseFrames_all packets room : (sendCloseFrames packets room).2 = Ok tt → (sendCloseFrames packets room).1 = packets.
Proof. unfold sendCloseFrames. destruct room as [k|]; [|done]. by destruct (_ <? _)%nat. Qed.

Section CloseLemmas.
Context {C : Crypto}.

Lemma delete_once_ok st build room st' sent u : delete_once st build room = (st', sent, Ok u) →
  NextRequestMessageID st ≠ 2 ^ 32 - 1 ∧ st' = st <| NextRequestMessageID := u32 (NextRequestMessageID st + 1) |> ∧
  build st' (NextRequestMessageID st) = Ok sent.
Proof.
  unfold delete_once. destruct (Z.eqb_spec (NextRequestMessageID st) (2 ^ 32 - 1)); [done|]. intros H.
  destruct (build _ _) as [packets| | |] eqn:Hb; try done. destruct (sendCloseFrames packets room) as [sent' r] eqn:Hs.
  injection H as <- <- ->. destruct u. pose proof (sendCloseFrames_all packets room) as Ha. rewrite Hs in Ha. cbn in Ha.
  rewrite (Ha eq_refl). done.
Qed.

(** A [Close] that is done has queued the DELETE of the child, when there is one,
    and then the DELETE of the IKE SA, under consecutive message ids that did not
    wrap; it leaves a stopped session that a second close finds closed. *)
Theorem close_sends (cfg : Config) (st : State) random room st' sent :
  Close cfg st random room = (st', sent, Ok CloseDone) →
  (∃ st1 st2 childFrames ikeFrames, sent = childFrames ++ ikeFrames ∧
     match ActiveChild st with
     | Some child => buildChildDelete cfg st1 (NextRequestMessageID st) (InboundSPI child) random = Ok childFrames ∧
         buildIKEDelete cfg st2 (u32 (NextRequestMessageID st + 1)) random = Ok ikeFrames
     | None => childFrames = [] ∧ buildIKEDelete cfg st2 (NextRequestMessageID st) random = Ok ikeFrames
     end ∧ st' = ClearSession st2 <| St_Phase := PhaseStopped |>) ∧
  (∀ random room, Close cfg st' random room = (st', [], Ok CloseAlreadyClosed)).
Proof.
  intros H. assert (Hst : ∃ st2, st' = ClearSession st2 <| St_Phase := PhaseStopped |>).
  { unfold Close in H. destruct (_ || _); [done|]. destruct (_ =? _); [done|].
    destruct (match ActiveChild st with Some _ => _ | None => _ end) as [[s1 f1] r1]. destruct r1; try done.
    destruct (delete_once s1 _ _) as [[s2 f2] r2]. destruct r2; try done. injection H as <- _. by exists s2. }
  split.
  - clear Hst. unfold Close in H. destruct (_ || _); [done|]. destruct (_ =? _); [done|]. destruct (ActiveChild st) as [child|].
    + destruct (delete_once st _ room) as [[s1 f1] r1] eqn:H1. destruct r1 as [u1| | |]; try done.
      destruct (delete_once s1 _ _) as [[s2 f2] r2] eqn:H2. destruct r2 as [u2| | |]; try done. injection H as <- <-.
      apply delete_once_ok in H1 as (_ & E1 & B1). apply delete_once_ok in H2 as (_ & E2 & B2).
      exists s1, s2, f1, f2. replace (u32 (NextRequestMessageID st + 1)) with (NextRequestMessageID s1) by by rewrite E1. done.
    + destruct (delete_once st _ _) as [[s2 f2] r2] eqn:H2. destruct r2 as [u2| | |]; try done. injection H as <- <-.
      apply delete_once_ok in H2 as (_ & E2 & B2). by exists st, s2, [], f2.
  - destruct Hst as [st2 ->]. intros. unfold Close. cbn. by rewrite orb_true_r.
Qed.
End CloseLemmas.

(* ------------------------------------------------------------------ *)
(** ** Lemmas: the retransmission ladder *)

(** A packet the loops pass over: not IKE, malformed, of another SA, or a
    duplicate of a completed response. *)
Definition passed_over (st : State) (msgID : Z) (e : wait_event) : bool :=
  match e with
  | EvNil => true
  | EvPacket ike raw _ =>
      negb ike ||
      match ParseMessage raw with
      | Err _ => true
      | Ok msg => match classifyResponse st (Msg_Header msg) msgID with
                  | Ok DispositionDuplicateOrStale | Ok DispositionIgnore => true
                  | _ => false
                  end
      | _ => false
      end
  | _ => false
  end.

Definition is_timer (e : wait_event) : bool := match e with EvTimer => true | _ => false end.

Definition timers (events : list wait_event) : nat := length (filter (λ e, is_timer e = true) events).

(** The interval armed after [n] retransmissions. *)
Definition rto_after (t : Timeouts) (n : nat) : Z :=
  match n with O => InitialRTO t | _ => Z.min (MaxRTO t) (InitialRTO t * 2 ^ Z.of_nat n) end.

(** The timeouts a validated configuration has, below 146 years. *)
Record timeouts_ok (t : Timeouts) : Prop := {
  to_init : 0 < InitialRTO t < 2 ^ 62;
  to_max : 0 < MaxRTO t < 2 ^ 62;
  to_retries : 0 <= MaxRetries t < 256 }.

(** The request is outstanding: its checkpoint is stored under the awaited
    message id. *)
Definition outstanding (st : State) (packets : list (list Z)) : Prop :=
  OutboundRequest st = Some (mkCheckpoint (ExpectedResponseMessageID st) packets).

Lemma i64_small z : - 2 ^ 63 <= z < 2 ^ 63 → i64 z = z.
Proof. intros. unfold i64. rewrite Z.mod_small; lia. Qed.

Lemma rto_after_S t n : timeouts_ok t →
  rto_after t (S n) = let rto := i64 (rto_after t n * 2) in if MaxRTO t <? rto then MaxRTO t else rto.
Proof.
  intros [Hi Hm _]. cbv zeta.
  assert (Hp : 0 < InitialRTO t * 2 ^ Z.of_nat n) by (apply Z.mul_pos_pos; [|apply Z.pow_pos_nonneg]; lia).
  assert (Hr : 0 < rto_after t n < 2 ^ 62) by (destruct n; simpl; lia).
  rewrite i64_small by lia. unfold rto_after at 1. rewrite Nat2Z.inj_succ, Z.pow_succ_r by lia.
  assert (rto_after t n = Z.min (MaxRTO t) (InitialRTO t * 2 ^ Z.of_nat n) ∨
          n = O ∧ rto_after t n = InitialRTO t) as [->|[-> ->]] by (destruct n; auto);
    [|change (2 ^ Z.of_nat 0) with 1]; destruct (MaxRTO t <? _) eqn:E; lia.
Qed.

(** What retransmissions leave of the state: a reassembly in progress is
    dropped. *)
Definition after_timers (n : nat) (st : State) : State :=
  match n with O => st | _ => st <| InboundFragments := None |> end.

Definition harmless (st : State) (msgID : Z) (e : wait_event) : Prop :=
  is_timer e = true ∨ passed_over st msgID e = true.

Section Ladder.
Context {A : Type} (cfg : Config) (exchange msgID : Z).
Context (accept : Z → State → Message → list Z → State * A).
Abbreviation T := (Cfg_Timeouts cfg).

Lemma retransmit_step st packets n : outstanding st packets → timeouts_ok T → Z.of_nat n < MaxRetries T →
  retransmit cfg st (rto_after T n) (Z.of_nat n)
  = (st <| InboundFragments := None |>, rto_after T (S n), Z.of_nat (S n), Ok packets).
Proof.
  intros Ho Ht Hn. unfold retransmit. rewrite Ho. cbn [Check_MessageID Packets]. rewrite Z.eqb_refl.
  cbn [negb]. rewrite (proj2 (Z.leb_gt _ _)) by lia. rewrite rto_after_S by done.
  rewrite (u8_small (Z.of_nat n + 1)) by (destruct Ht; unfold is_byte; lia).
  repeat f_equal. lia.
Qed.

Lemma retransmit_exhausted st packets rto : outstanding st packets →
  retransmit cfg st rto (MaxRetries T)
  = (st, rto, MaxRetries T, Err "control: timed out waiting for %s after %d retransmits").
Proof.
  intros Ho. unfold retransmit. rewrite Ho. cbn [Check_MessageID Packets]. rewrite Z.eqb_refl.
  cbn [negb]. by rewrite (proj2 (Z.leb_le _ _)).
Qed.

Lemma passed_over_frags st frags e : passed_over (st <| InboundFragments := frags |>) msgID e
  = passed_over st msgID e.
Proof. done. Qed.

Lemma handle_passed st ike raw now : passed_over st msgID (EvPacket ike raw now) = true →
  handle_response exchange msgID (accept now) st ike raw now = (st, Ok None).
Proof.
  unfold passed_over, handle_response. destruct ike; [|done]. cbn [negb orb].
  destruct (ParseMessage raw) as [msg| | |]; try done.
  by destruct (classifyResponse st (Msg_Header msg) msgID) as [[]| | |].
Qed.

Lemma await_passed e rest st rto retries : passed_over st msgID e = true →
  await cfg exchange msgID accept (e :: rest) st rto retries = await cfg exchange msgID accept rest st rto retries.
Proof.
  intros H. unfold await. destruct e as [ike raw now| | | |]; try done. cbn [wait_loop].
  by rewrite handle_passed.
Qed.

Lemma await_harmless pre rest st packets n : outstanding st packets → timeouts_ok T →
  Forall (harmless st msgID) pre → Z.of_nat (n + timers pre) <= MaxRetries T →
  await cfg exchange msgID accept (pre ++ rest) st (rto_after T n) (Z.of_nat n) =
  let '(st', sent, out) := await cfg exchange msgID accept rest (after_timers (timers pre) st)
    (rto_after T (n + timers pre)) (Z.of_nat (n + timers pre)) in
  (st', concat (replicate (timers pre) packets) ++ sent, out).
Proof.
  intros Ho Ht. revert st n Ho. induction pre as [|e pre IH]; intros st n Ho Hp Hn.
  { cbn. rewrite Nat.add_0_r. by destruct (await _ _ _ _ _ _ _ _) as [[? ?] ?]. }
  apply Forall_cons in Hp as [He Hp]. unfold timers in *. rewrite filter_cons in *.
  destruct (decide (is_timer e = true)) as [E|E].
  - destruct e; try done. cbn [length] in *. unfold await at 1. cbn [wait_loop app].
    rewrite (retransmit_step st packets) by (done || lia). fold (await cfg exchange msgID accept).
    rewrite IH; [|done|done|lia]. replace (S n + length (filter (λ e, is_timer e = true) pre))%nat
      with (n + S (length (filter (λ e, is_timer e = true) pre)))%nat by lia.
    replace (after_timers (length (filter (λ e, is_timer e = true) pre)) (st <| InboundFragments := None |>))
      with (st <| InboundFragments := None |>) by (by destruct (length _)).
    cbn [after_timers]. destruct (await _ _ _ _ _ _ _ _) as [[? ?] ?]. cbn [replicate concat].
    by rewrite app_assoc.
  - destruct He as [He|He]; [done|]. simpl app. rewrite await_passed by done. by apply IH.
Qed.
End Ladder.

(** ** Lemmas: what an accepted response is *)

(** The header names the awaited exchange of this SA, from the peer's role. *)
Record response_for (st : State) (exchange msgID : Z) (h : Header) : Prop := {
  rf_spi_i : SPI_Uint64 (Wire.InitiatorSPI h) = Ok (St_InitiatorSPI st);
  rf_spi_r : St_ResponderSPI st ≠ 0 → SPI_Uint64 (Wire.ResponderSPI h) = Ok (St_ResponderSPI st);
  rf_exchange : ExchangeType h = exchange;
  rf_msgid : MessageID h = msgID;
  rf_version : Version h = IKEDefaultVersion;
  rf_response : Z.land (Flags h) FlagResponse ≠ 0;
  rf_role : negb (Z.land (Flags h) FlagInitiator =? 0) = negb (IsOriginalInitiator st) }.

(** A valid IKE_SA_INIT response with a responder SPI pins it. *)
Definition learn_spi (exchange : Z) (h : Header) (st : State) : State :=
  if (exchange =? ExchangeIkeSAInit) && negb (SPI_IsZero (Wire.ResponderSPI h)) then
    match SPI_Uint64 (Wire.ResponderSPI h) with Ok r => st <| St_ResponderSPI := r |> | _ => st end
  else st.

Lemma validateResponseEnvelopeForRole_inv h role : validateResponseEnvelopeForRole h role = Ok tt →
  Version h = IKEDefaultVersion ∧ Z.land (Flags h) FlagResponse ≠ 0 ∧
  negb (Z.land (Flags h) FlagInitiator =? 0) = negb role.
Proof.
  unfold validateResponseEnvelopeForRole. intros H.
  destruct (negb (Version h =? _)) eqn:E1; [done|]. destruct (Z.land _ FlagResponse =? 0) eqn:E2; [done|].
  destruct (negb (Bool.eqb _ _)) eqn:E3; [done|].
  apply negb_false_iff in E3. apply eqb_prop in E3. split_and!; [lia|lia|done].
Qed.

Lemma validateResponseHeader_inv st h exchange msgID st' :
  validateResponseHeader st h exchange msgID = (st', Ok tt) →
  response_for st exchange msgID h ∧ st' = learn_spi exchange h st.
Proof.
  unfold validateResponseHeader. intros H.
  match type of H with match ?m with _ => _ end = _ => destruct m as [o| | |] eqn:Em; [|done..] end.
  apply bind_Ok in Em as ([] & (? & ? & ?)%validateResponseEnvelopeForRole_inv & Em).
  apply bind_Ok in Em as (spiI & Ei & Em). destruct (negb (spiI =? _)) eqn:E1; [done|].
  apply bind_Ok in Em as (spiR & Er & Em). destruct (_ && _) eqn:E2; [done|].
  destruct (negb (ExchangeType h =? _)) eqn:E3; [done|]. destruct (negb (MessageID h =? _)) eqn:E4; [done|].
  split.
  { constructor; try done; try lia; [by replace (St_InitiatorSPI st) with spiI by lia|].
    intros Hn. by replace (St_ResponderSPI st) with spiR by lia. }
  unfold learn_spi. destruct (exchange =? ExchangeIkeSAInit); [|injection Em as <-; by injection H as <-].
  destruct (SPI_IsZero _); [destruct (negb (NextPayload h =? _)); [done|]|]; injection Em as <-; injection H as <-; [done|].
  simpl. by rewrite Er.
Qed.

Lemma handle_response_inv {A} exchange msgID (accept : State → Message → list Z → State * A) st ike raw now st' r :
  handle_response exchange msgID accept st ike raw now = (st', r) →
  (r = Ok None ∧ st' = st ∧ passed_over st msgID (EvPacket ike raw now) = true) ∨
  (∃ msg a, r = Ok (Some a) ∧ ike = true ∧ ParseMessage raw = Ok msg ∧
     response_for st exchange msgID (Msg_Header msg) ∧
     (st', a) = accept (learn_spi exchange (Msg_Header msg) st) msg raw) ∨
  (r ≠ Ok None ∧ ∀ a, r ≠ Ok (Some a)).
Proof.
  unfold handle_response, passed_over. destruct ike; [|intros [= <- <-]; by left]. cbn [negb orb].
  destruct (ParseMessage raw) as [msg|e| |] eqn:Ep; [|intros [= <- <-]; by left|intros [= <- <-]; by do 2 right..].
  destruct (classifyResponse st (Msg_Header msg) msgID) as [[]| | |];
    try (intros [= <- <-]; by do 2 right); try (intros [= <- <-]; by left).
  destruct (validateResponseHeader st (Msg_Header msg) exchange msgID) as [st1 [[]| | |]] eqn:Ev;
    try (intros [= <- <-]; by do 2 right).
  apply validateResponseHeader_inv in Ev as [Hr ->].
  destruct (accept _ _ _) as [st2 a] eqn:Ea. intros [= <- <-]. right; left. exists msg, a. by rewrite Ea.
Qed.

Lemma harmless_timers st n msgID e : harmless (after_timers n st) msgID e ↔ harmless st msgID e.
Proof. by destruct n. Qed.

Lemma learn_spi_frame exchange h n st :
  ActiveChild (learn_spi exchange h (after_timers n st)) = ActiveChild st ∧
  St_IKEKeys (learn_spi exchange h (after_timers n st)) = St_IKEKeys st.
Proof. unfold learn_spi. destruct (_ && _), n, (SPI_Uint64 (Wire.ResponderSPI h)); done. Qed.

Section Outcome.
Context {A : Type} (cfg : Config) (exchange msgID : Z).
Context (accept : Z → State → Message → list Z → State * A).

(** Every return of the loop: the events before it were harmless, at most
    [MaxRetries] of them timers that resent the checkpoint; then comes what
    ended the wait. *)
Definition wait_outcome (events : list wait_event) (st : State) (packets : list (list Z)) (n : nat)
    (res : State * list (list Z) * waited A) : Prop :=
  let '(st', sent, out) := res in
  ∃ pre suf, events = pre ++ suf ∧ Forall (harmless st msgID) pre ∧
    Z.of_nat (n + timers pre) <= MaxRetries (Cfg_Timeouts cfg) ∧
    sent = concat (replicate (timers pre) packets) ∧
    match out with
    | Waiting => suf = [] ∧ st' = after_timers (timers pre) st
    | Returned (Ok a) rest => ∃ raw now msg, suf = EvPacket true raw now :: rest ∧
        ParseMessage raw = Ok msg ∧ response_for st exchange msgID (Msg_Header msg) ∧
        (st', a) = accept now (learn_spi exchange (Msg_Header msg) (after_timers (timers pre) st)) msg raw
    | Returned _ rest => ∃ e, suf = e :: rest
    end.

Lemma outcome_pass e events st packets n res : passed_over st msgID e = true →
  wait_outcome events st packets n res → wait_outcome (e :: events) st packets n res.
Proof.
  intros He. destruct res as [[st' sent] out]. intros (pre & suf & -> & Hp & Hn & -> & H).
  exists (e :: pre), suf.
  assert (timers (e :: pre) = timers pre) as -> by (by destruct e).
  split_and!; try done. apply Forall_cons. split; [by right|done].
Qed.

Lemma outcome_timer events st packets n st' sent out :
  wait_outcome events (st <| InboundFragments := None |>) packets (S n) (st', sent, out) →
  wait_outcome (EvTimer :: events) st packets n (st', packets ++ sent, out).
Proof.
  intros (pre & suf & -> & Hp & Hn & -> & H). exists (EvTimer :: pre), suf.
  change (timers (EvTimer :: pre)) with (S (timers pre)).
  assert (Ha : after_timers (timers pre) (st <| InboundFragments := None |>) = after_timers (S (timers pre)) st)
    by (by destruct (timers pre)).
  split; [done|]. split; [|split; [lia|split; [done|]]].
  - apply Forall_cons. split; [by left|done].
  - rewrite Ha in H. destruct out as [|[a| | |] rest]; try done.
    destruct H as (raw & now & msg & -> & Ep & [] & Eacc). by exists raw, now, msg.
Qed.

Lemma await_inv events st packets rto n : outstanding st packets →
  Z.of_nat n <= MaxRetries (Cfg_Timeouts cfg) < 256 →
  wait_outcome events st packets n (await cfg exchange msgID accept events st rto (Z.of_nat n)).
Proof.
  intros Ho Hm. revert st n rto Ho Hm. induction events as [|e events IH]; intros st n rto Ho Hm.
  { exists [], []. rewrite Nat.add_0_r. split_and!; try done. lia. }
  assert (Hnow : ∀ st' r, (∀ a, r ≠ Ok a) →
    wait_outcome (e :: events) st packets n (st', [], Returned r events)).
  { intros st' r Hr. exists [], (e :: events). rewrite Nat.add_0_r. split_and!; try done; [lia|].
    destruct r; try by eexists. by destruct (Hr a). }
  unfold await. destruct e as [ike raw now| | | |]; cbn [wait_loop]; fold (await cfg exchange msgID accept).
  - destruct (handle_response exchange msgID (accept now) st ike raw now) as [st1 r] eqn:Eh.
    apply handle_response_inv in Eh as [(-> & -> & Hp)|[(msg & a & -> & -> & Ep & Hr & Ea)|[H1 H2]]].
    + by apply outcome_pass, IH.
    + exists [], (EvPacket true raw now :: events). rewrite Nat.add_0_r. split_and!; try done; [lia|].
      by exists raw, now, msg.
    + destruct r as [[a|]| | |]; [by destruct (H2 a)|done|by apply Hnow..].
  - by apply outcome_pass, IH.
  - unfold retransmit. rewrite Ho. cbn [Check_MessageID Packets]. rewrite Z.eqb_refl. cbn [negb].
    destruct (_ <=? _) eqn:El; [by apply Hnow|].
    rewrite (u8_small (Z.of_nat n + 1)) by (unfold is_byte; lia).
    replace (Z.of_nat n + 1) with (Z.of_nat (S n)) by lia.
    match goal with |- context [await _ _ _ _ _ ?s ?r _] => specialize (IH s (S n) r) end.
    destruct (await _ _ _ _ _ _ _ _) as [[st1 sent1] out1].
    apply outcome_timer, IH; [done|lia].
  - by apply Hnow.
  - by apply Hnow.
Qed.
End Outcome.

(** ** Lemmas: receiving a protected response *)

(** The responses that arrive: the events that are not passed over. *)
Fixpoint arrivals (st : State) (msgID : Z) (events : list wait_event) : list (Z * list Z) :=
  match events with
  | [] => []
  | e :: events =>
      match e with
      | EvPacket _ raw now => if passed_over st msgID e then [] else [(now, raw)]
      | _ => []
      end ++ arrivals st msgID events
  end.

(** Packets only: the timer does not fire and the channel stays open. *)
Definition is_packet (e : wait_event) : Prop :=
  match e with EvPacket _ _ _ | EvNil => True | _ => False end.

Record expected_header (st : State) (exchange msgID : Z) (h : Header) : Prop := {
  eh_spi_i : SPI_Uint64 (Wire.InitiatorSPI h) = Ok (St_InitiatorSPI st);
  eh_spi_r : SPI_Uint64 (Wire.ResponderSPI h) = Ok (St_ResponderSPI st);
  eh_envelope : validateResponseEnvelopeForRole h (IsOriginalInitiator st) = Ok tt;
  eh_exchange : ExchangeType h = exchange ∧ exchange ≠ ExchangeIkeSAInit;
  eh_msgid : MessageID h = msgID }.

Definition expected_frame (st : State) (exchange msgID : Z) (raw : list Z) : Prop :=
  ∃ msg, ParseMessage raw = Ok msg ∧ expected_header st exchange msgID (Msg_Header msg).

Lemma classify_expected st exchange msgID h : expected_header st exchange msgID h →
  classifyResponse st h msgID = Ok DispositionExpected.
Proof.
  intros [E1 E2 E3 _ E4]. unfold classifyResponse. rewrite E1. run. rewrite Z.eqb_refl. cbn [negb].
  rewrite E2. run. rewrite Z.eqb_refl, andb_false_r, E3. run. by rewrite E4, Z.eqb_refl.
Qed.

Lemma validate_expected st exchange msgID h : expected_header st exchange msgID h →
  validateResponseHeader st h exchange msgID = (st, Ok tt).
Proof.
  intros [E1 E2 E3 [E5 E6] E4]. unfold validateResponseHeader. rewrite E3. run. rewrite E1. run.
  rewrite Z.eqb_refl. cbn [negb]. rewrite E2. run. rewrite Z.eqb_refl, andb_false_r, E5, E4, !Z.eqb_refl.
  cbn [negb]. by rewrite (proj2 (Z.eqb_neq exchange _)).
Qed.

Lemma handle_expected {A} st exchange msgID (accept : State → Message → list Z → State * A) raw now msg :
  ParseMessage raw = Ok msg → expected_header st exchange msgID (Msg_Header msg) →
  handle_response exchange msgID accept st true raw now
  = ((accept st msg raw).1, Ok (Some (accept st msg raw).2)).
Proof.
  intros Ep He. unfold handle_response. cbn [negb]. rewrite Ep, (classify_expected _ exchange) by done.
  rewrite validate_expected by done. by destruct (accept st msg raw).
Qed.

Section Completion.
Context {C : Crypto} (cfg : Config) (exchange msgID : Z).

(** The state a completed protected exchange leaves. *)
Definition completed (st : State) : State :=
  (if exchange =? ExchangeIkeAuth then st <| FirstIKEAuthSeen := true |> else st)
    <| LastCompletedResponseMessageID := msgID |> <| HasLastCompletedResponse := true |>
    <| HasExpectedResponse := false |> <| ExpectedResponseMessageID := 0 |>
    <| OutboundRequest := None |> <| InboundFragments := None |>.

(** A fragment taken in: the reassembly advances. *)
Definition took_fragment (frags : option FragmentReassembly) (st : State) : State :=
  let st := st <| InboundFragments := frags |> in
  if exchange =? ExchangeIkeAuth then st <| FirstIKEAuthSeen := true |> else st.

Lemma recv_passed fuel e events st : passed_over st msgID e = true →
  recv_protected cfg exchange msgID (S fuel) st (e :: events)
  = recv_protected cfg exchange msgID (S fuel) st events.
Proof. intros He. simpl. unfold waitResponseRaw. by rewrite await_passed. Qed.

Lemma waitResponseRaw_expected st raw now rest : expected_frame st exchange msgID raw →
  waitResponseRaw cfg st exchange msgID (EvPacket true raw now :: rest)
  = (st, [], Returned (Ok (raw, now)) rest).
Proof.
  intros (msg & Ep & He). unfold waitResponseRaw, await. cbn [wait_loop].
  by rewrite (handle_expected _ _ _ _ _ _ msg).
Qed.

Lemma arrivals_took frags st events : arrivals (took_fragment frags st) msgID events = arrivals st msgID events.
Proof.
  induction events as [|e events IH]; [done|]. cbn [arrivals]. rewrite IH.
  unfold took_fragment. by destruct (exchange =? ExchangeIkeAuth); try done.
      all: try (split; [done|]); try destruct Heh; by constructor.
Qed.

Lemma recv_run pre : ∀ fuel st raw now rest payloads msg fr,
  (length pre < fuel)%nat → Forall is_packet pre →
  Forall (λ a, expected_frame st exchange msgID a.2) (arrivals st msgID pre) →
  ParseMessage raw = Ok msg → expected_header st exchange msgID (Msg_Header msg) →
  receive_raw (Some (Cfg_SkfReassemblyTimeout (Cfg_Timeouts cfg))) (stateIKEEnvelope st) (InboundFragments st)
    (arrivals st msgID pre ++ [(now, raw)])
  = (fr, replicate (length (arrivals st msgID pre)) (Ok None) ++ [Ok (Some payloads)]) →
  recv_protected cfg exchange msgID fuel st (pre ++ EvPacket true raw now :: rest)
  = (completed st, [], Returned (Ok (withPlaintextPayloads msg payloads, payloads)) rest).
Proof.
  induction pre as [|e pre IH]; intros [|fuel] st raw now rest payloads msg fr Hfuel Hk Hf Ep Heh Hr;
    simpl in Hfuel; [lia| |lia|].
  - simpl app. cbn [recv_protected]. rewrite waitResponseRaw_expected by (by exists msg).
    simpl in Hr. unfold openState. destruct (openProtectedRawState _ _ _ _ _) as [fr' r]. simplify_eq.
    rewrite Ep. run. unfold completed. by destruct (exchange =? ExchangeIkeAuth).
  - apply Forall_cons in Hk as [Hke Hk].
    destruct (passed_over st msgID e) eqn:Epo.
    + simpl app. rewrite recv_passed by done.
      assert (Ea : arrivals st msgID (e :: pre) = arrivals st msgID pre)
        by (destruct e; try done; cbn [arrivals]; by rewrite Epo).
      rewrite Ea in *. eapply IH; try done. lia.
    + destruct e as [ike raw' now'| | | |]; try done.
      assert (Ea : arrivals st msgID (EvPacket ike raw' now' :: pre) = (now', raw') :: arrivals st msgID pre)
        by (cbn [arrivals]; by rewrite Epo).
      destruct ike; [|done]. rewrite Ea in *. apply Forall_cons in Hf as [Hf0 Hf]. simpl in Hf0.
      simpl app. cbn [recv_protected]. rewrite waitResponseRaw_expected by done.
      simpl in Hr. unfold openState. destruct (openProtectedRawState _ _ _ _ _) as [fr' r].
      destruct (receive_raw _ _ fr' _) as [fr'' rs] eqn:Er. injection Hr as -> -> ->.
      fold (took_fragment fr' st).
      assert (Ht : arrivals (took_fragment fr' st) msgID pre = arrivals st msgID pre) by apply arrivals_took.
      rewrite (IH fuel (took_fragment fr' st) raw now rest payloads msg fr); rewrite ?Ht; try done;
        [|lia|eapply Forall_impl; [exact Hf|]; intros a (m & Em & []); exists m|..];
        unfold took_fragment, completed; destruct (exchange =? ExchangeIkeAuth); try done.
      all: try (split; [done|]); try destruct Heh; by constructor.
Qed.
End Completion.

(** The peer's end of the SA of [st]. *)
Record far_end (st : State) (peer : ikeEnvelope) : Prop := {
  fe_mirror : mirrored peer (stateIKEEnvelope st);
  fe_spi_i : Env_InitiatorSPI peer = St_InitiatorSPI st;
  fe_spi_r : Env_ResponderSPI peer = St_ResponderSPI st }.

Lemma response_fields peer exchange msgID nextPayload :
  is_byte exchange → 0 <= msgID < 2 ^ 32 → is_byte nextPayload →
  fields_ok exchange msgID nextPayload (responseFlags peer).
Proof.
  intros ? ? ?. constructor; try done. unfold responseFlags, requestFlags.
  by destruct (Env_IsOriginalInitiator peer).
Qed.

Lemma far_end_header st peer enc ig k exchange msgID t total :
  far_end st peer → env_ok peer enc ig k → exchange ≠ ExchangeIkeSAInit →
  expected_header st exchange msgID (sk_header peer exchange msgID t (responseFlags peer) total).
Proof.
  intros [(_ & _ & Hr) Hi Hs] [_ _ _ _ _ [H1 H2]] Hx. constructor; try done.
  - cbn [sk_header Wire.InitiatorSPI]. unfold SPI_Uint64, Uint64SPI. rewrite beUint64_put' by lia. by rewrite Hi.
  - cbn [sk_header Wire.ResponderSPI]. unfold SPI_Uint64, Uint64SPI. rewrite beUint64_put' by lia. by rewrite Hs.
  - change (IsOriginalInitiator st) with (Env_IsOriginalInitiator (stateIKEEnvelope st)). rewrite Hr.
    unfold validateResponseEnvelopeForRole, sk_header, responseFlags, requestFlags. cbn [Version Flags].
    by destruct (Env_IsOriginalInitiator peer).
Qed.

(* ------------------------------------------------------------------ *)
(** ** Properties *)

(** [C8] A protected exchange completes: when the peer answers the outstanding
    request, whatever packets of other SAs, garbage, duplicates of earlier
    responses or repeated fragments arrive in between and in whatever order the
    fragments come (no retransmission timer firing), the protected receiver
    returns exactly the payload chain the peer sealed, resends nothing, closes
    the request and leaves the later events unread. *)
Theorem exchange_completes {C : Crypto} {L : CryptoLaws} (cfg : Config) (st : State) (peer : ikeEnvelope)
    (enc : EncryptionAlg) (ig : Integrity) (k : IKEKeys) (limit : option Z)
    (exchange msgID nextPayload : Z) (plaintext : list Z) (payloads : list Wire.Payload)
    (random : Z → Z → res (list Z)) :
  far_end st peer → env_ok peer enc ig k → InboundFragments st = None → exchange ≠ ExchangeIkeSAInit →
  is_byte exchange → 0 <= msgID < 2 ^ 32 → is_byte nextPayload → nextPayload ≠ skfFirstPayloadUnset →
  bytes plaintext → deliver plaintext nextPayload = Ok (Some payloads) →
  random_ok enc random → fragment_chunk limit <= 65400 →
  fragment_total peer (fragment_chunk limit) (len plaintext) <= 65535 →
  (SupportsFragmentation (Env_Peer peer) = false → len plaintext <= 65400) →
  ∃ frames,
    buildProtectedEnvelopeAs limit peer exchange msgID nextPayload plaintext (responseFlags peer) random
    = Ok frames ∧
    ∀ (order : list (nat * Z)) (lst : nat * Z) (pre rest : list wait_event),
      Forall (λ a, (a.1 < length frames)%nat) (order ++ [lst]) →
      complete (length frames) ((order ++ [lst]).*1) → lst.1 ∉ order.*1 →
      match order with
      | [] => True
      | a :: order' => timely (skf_timeout (Some (Cfg_SkfReassemblyTimeout (Cfg_Timeouts cfg)))) a.2
                         (order' ++ [lst]).*2
      end →
      Forall is_packet pre → arrivals st msgID pre = (λ a, (a.2, frames !!! a.1)) <$> order →
      ∃ msg, ParseMessage (frames !!! lst.1) = Ok msg ∧
        recvProtectedPayloads cfg st exchange msgID (pre ++ EvPacket true (frames !!! lst.1) lst.2 :: rest)
        = (completed exchange msgID st, [],
           Returned (Ok (withPlaintextPayloads msg payloads, payloads)) rest).
Proof.
  intros Hfe Henv Hnf Hx Hbx Hid Hbn Hun Hbp Hdel Hr Hch Hmax Hone.
  destruct (build_delivery peer (stateIKEEnvelope st) enc ig k limit
    (Some (Cfg_SkfReassemblyTimeout (Cfg_Timeouts cfg))) exchange msgID nextPayload plaintext
    (responseFlags peer) random) as (frames & Eb & _ & Hp & Hd);
    try done; [apply Hfe|by apply response_fields|].
  exists frames. split; [done|]. intros order lst pre rest Hrange Hcomp Hnew Htime Hk Harr.
  specialize (Hd order lst Hrange Hcomp Hnew Htime). rewrite Hdel, fmap_app, <- Harr in Hd.
  assert (Hfr : ∀ a, a ∈ order ++ [lst] → expected_frame st exchange msgID (frames !!! a.1)).
  { intros a Ha. rewrite Forall_forall in Hrange. specialize (Hrange a Ha).
    rewrite Forall_forall in Hp. destruct (Hp (frames !!! a.1)) as (t & e & Em).
    { apply list_elem_of_lookup_2 with (i := a.1). by apply list_lookup_lookup_total_lt. }
    eexists. split; [exact Em|]. by eapply far_end_header. }
  destruct (Hfr lst) as (msg & Em & Heh); [apply elem_of_app; right; by apply list_elem_of_singleton|].
  exists msg. split; [done|]. unfold recvProtectedPayloads. eapply recv_run; try done.
  - rewrite length_app. lia.
  - rewrite Harr. apply Forall_fmap, Forall_forall. intros a Ha. simpl. apply Hfr. set_solver.
  - rewrite Hnf. etrans; [exact Hd|]. by rewrite Harr, length_fmap.
Qed.


(** The wait ends: once the timer has fired more than MaxRetries times the
    loop has returned, whatever packets arrived, and in all it has resent the
    stored request at most MaxRetries times and sent nothing else. *)
Theorem wait_terminates {A} (cfg : Config) (exchange msgID : Z)
    (accept : Z → State → Message → list Z → State * A) (st : State) (packets : list (list Z))
    (events : list wait_event) (rto : Z) :
  outstanding st packets → 0 <= MaxRetries (Cfg_Timeouts cfg) < 256 →
  MaxRetries (Cfg_Timeouts cfg) < Z.of_nat (timers events) →
  ∃ st' n r rest, await cfg exchange msgID accept events st rto 0
    = (st', concat (replicate n packets), Returned r rest) ∧
    Z.of_nat n <= MaxRetries (Cfg_Timeouts cfg) ∧ rest `suffix_of` events.
Proof.
  intros Ho Hm Ht. pose proof (await_inv cfg exchange msgID accept events st packets rto 0 Ho Hm) as H.
  change (Z.of_nat 0) with 0 in H. destruct (await _ _ _ _ _ _ _ _) as [[st' sent] out].
  destruct H as (pre & suf & -> & _ & Hn & -> & H).
  destruct out as [|r rest].
  - destruct H as [-> _]. rewrite app_nil_r in Ht. lia.
  - exists st', (timers pre), r, rest. split; [done|]. split; [done|].
    destruct r; [destruct H as (? & ? & ? & -> & _)|destruct H as (? & ->)..];
      (eexists; rewrite cons_middle, app_assoc; done).
Qed.

(** What an accepted response is: [waitResponse] returns a message only
    for an IKE packet that parses and whose header carries this SA's SPIs, the
    awaited exchange and message id, the response flag and the peer's role;
    everything before it was passed over or a retransmission. The request is
    closed exactly then: checkpoint and reassembly dropped, the id recorded. *)
Theorem waitResponse_sound (cfg : Config) (exchange msgID : Z) (st st' : State) (packets sent : list (list Z))
    (events rest : list wait_event) (msg : Message) :
  outstanding st packets → 0 <= MaxRetries (Cfg_Timeouts cfg) < 256 →
  waitResponse cfg st exchange msgID events = (st', sent, Returned (Ok msg) rest) →
  ∃ pre raw now, events = pre ++ EvPacket true raw now :: rest ∧ Forall (harmless st msgID) pre ∧
    sent = concat (replicate (timers pre) packets) ∧
    ParseMessage raw = Ok msg ∧ response_for st exchange msgID (Msg_Header msg) ∧
    LastCompletedResponseMessageID st' = msgID ∧ HasLastCompletedResponse st' = true ∧
    HasExpectedResponse st' = false ∧ OutboundRequest st' = None ∧ InboundFragments st' = None ∧
    ActiveChild st' = ActiveChild st ∧ St_IKEKeys st' = St_IKEKeys st.
Proof.
  intros Ho Hm E.
  pose proof (await_inv cfg exchange msgID (λ _, accept_response exchange msgID) events st packets
    (InitialRTO (Cfg_Timeouts cfg)) 0 Ho Hm) as H.
  change (Z.of_nat 0) with 0 in H. unfold waitResponse in E. rewrite E in H.
  destruct H as (pre & suf & -> & Hh & Hn & -> & raw & now & m & -> & Ep & Hr & Ea).
  exists pre, raw, now. apply pair_equal_spec in Ea as [-> ->].
  destruct (learn_spi_frame exchange (Msg_Header m) (timers pre) st) as [Hc Hk].
  repeat (split; [by destruct (exchange =? ExchangeIkeAuth)|]). by destruct (exchange =? ExchangeIkeAuth).
Qed.

(* ------------------------------------------------------------------ *)
(** ** Witnesses *)

Definition xchg_config : Config :=
  mkConfig [] [] [] [] (mkID 0 []) (mkID 0 []) "" (mkEapConfig "" [] [] [] 0 0 false false false) false false
    (mkRekeyConfig (mkLifetime 1 0 0) (mkLifetime 1 0 0) false 0 1)
    (mkTimeouts 1000 8000 2 1 15000) 1200 false.

(** The initiator of the sample SA with request 7 outstanding. *)
Definition xchg_state : State :=
  NewState <| St_InitiatorSPI := 77 |> <| St_ResponderSPI := 88 |>
    <| SelectedIKE := Env_SelectedIKE (ike_sample true) |> <| St_IKEKeys := Env_IKEKeys (ike_sample true) |>
    <| ExpectedResponseMessageID := 7 |> <| HasExpectedResponse := true |>
    <| OutboundRequest := Some (mkCheckpoint 7 [[1; 2]; [3]]) |>.

Lemma xchg_outstanding : outstanding xchg_state [[1; 2]; [3]].
Proof. done. Qed.

Lemma xchg_timeouts : timeouts_ok (Cfg_Timeouts xchg_config).
Proof. by constructor. Qed.

(** An unprotected response of the sample SA: header only. *)
Definition xchg_response : list Z :=
  header_bytes (mkHeader (Uint64SPI 77) (Uint64SPI 88) PayloadTypeNone IKEDefaultVersion
    ExchangeInformational FlagResponse 7 28).

Lemma exchange_completes_witness : ∃ frames msg,
  buildProtectedEnvelopeAs (C := xor_crypto) (Some 5) (ike_sample false) ExchangeInformational 7
    PayloadTypeNonce ike_sample_plain (responseFlags (ike_sample false)) ike_sample_iv = Ok frames ∧
  recvProtectedPayloads (C := xor_crypto) xchg_config xchg_state ExchangeInformational 7
    [EvPacket false [] 0; EvPacket true (frames !!! 2%nat) 10; EvPacket true [9; 9] 11; EvNil;
     EvPacket true (frames !!! 0%nat) 12; EvPacket true (frames !!! 2%nat) 13;
     EvPacket true (frames !!! 1%nat) 14; EvTimer]
  = (completed ExchangeInformational 7 xchg_state, [],
     Returned (Ok (withPlaintextPayloads msg
       [{| Payload_Type := PayloadTypeNonce; Next := 0; Critical := false; Body := [1; 2; 3; 4; 5; 6; 7; 8] |}],
       [{| Payload_Type := PayloadTypeNonce; Next := 0; Critical := false; Body := [1; 2; 3; 4; 5; 6; 7; 8] |}]))
       [EvTimer]).
Proof.
  destruct (exchange_completes (C := xor_crypto) (L := xor_crypto_laws) xchg_config xchg_state
    (ike_sample false) ike_sample_enc ike_sample_integ ike_sample_keys (Some 5) ExchangeInformational 7
    PayloadTypeNonce ike_sample_plain
    [{| Payload_Type := PayloadTypeNonce; Next := 0; Critical := false; Body := [1; 2; 3; 4; 5; 6; 7; 8] |}]
    ike_sample_iv) as (frames & E & H); try done.
  - apply ike_sample_ok.
  - by apply (bool_decide_unpack _).
  - intros i. exists (zeros 16). split_and!; [done|apply zeros_bytes|done].
  - pose proof E as E'. vm_compute in E'. injection E' as <-.
    match type of E with _ = Ok ?fs => set (frames := fs) in * end.
    destruct (H [(2%nat, 10); (0%nat, 12); (2%nat, 13)] (1%nat, 14)
      [EvPacket false [] 0; EvPacket true (frames !!! 2%nat) 10; EvPacket true [9; 9] 11; EvNil;
       EvPacket true (frames !!! 0%nat) 12; EvPacket true (frames !!! 2%nat) 13] [EvTimer])
      as (msg & _ & Er);
      [by apply (bool_decide_unpack _)..|by repeat split; vm_compute|by repeat constructor|reflexivity|].
    exists frames, msg. split; [exact E|exact Er].
Defined.


Lemma wait_terminates_witness : ∃ st' n r rest,
  waitResponse xchg_config xchg_state ExchangeInformational 7
    [EvTimer; EvPacket true xchg_response 5; EvTimer; EvTimer]
  = (st', concat (replicate n [[1; 2]; [3]]), Returned r rest) ∧ Z.of_nat n <= 2 ∧
  rest `suffix_of` [EvTimer; EvPacket true xchg_response 5; EvTimer; EvTimer].
Proof.
  apply (wait_terminates xchg_config ExchangeInformational 7 (λ _, accept_response ExchangeInformational 7)
    xchg_state); [done|by vm_compute|by vm_compute].
Defined.

Lemma waitResponse_sound_witness : ∃ st' msg,
  waitResponse xchg_config xchg_state ExchangeInformational 7
    [EvTimer; EvPacket true xchg_response 5; EvTimer] = (st', [[1; 2]; [3]], Returned (Ok msg) [EvTimer]) ∧
  response_for xchg_state ExchangeInformational 7 (Msg_Header msg) ∧ OutboundRequest st' = None.
Proof.
  destruct (waitResponse xchg_config xchg_state ExchangeInformational 7
    [EvTimer; EvPacket true xchg_response 5; EvTimer]) as [[st' sent] out] eqn:E.
  pose proof E as E'. vm_compute in E'.
  apply pair_equal_spec in E' as [E' Eo]. apply pair_equal_spec in E' as [_ Es].
  destruct out as [|[msg| | |] rest]; try done. apply (f_equal (λ w, match w with Returned _ r => r | _ => [] end)) in Eo as Er.
  simpl in Er. subst rest sent.
  destruct (waitResponse_sound xchg_config ExchangeInformational 7 xchg_state st' [[1; 2]; [3]] [[1; 2]; [3]]
    [EvTimer; EvPacket true xchg_response 5; EvTimer] [EvTimer] msg)
    as (pre & raw & now & _ & _ & _ & _ & Hr & _ & _ & _ & Ho & _); [done|by vm_compute|exact E|].
  by exists st', msg.
Defined.
