(* ===== verification/Mschap.v ===== *)
(** * EAP-MSCHAPv2 (src/eap/mschapv2/md4.go, mschapv2.go)

    MD4, the text routines of the Go library the method uses (UTF-8, UTF-16,
    fields), the RFC 2759 / 3079 computations and the peer state machine. DES
    and SHA-1 are Go library code: class [DES] and the [digest] of class
    [Crypto]. Go strings are byte lists. *)

From S2P Require Import Prelude Suite Crypto Eap.

(* ------------------------------------------------------------------ *)
(** ** md4.go *)

(** encoding/binary's LittleEndian. *)
Definition leUint32 (b : list Z) : Z :=
  match b with
  | b0 :: b1 :: b2 :: b3 :: _ => Z.lor b0 (Z.lor (Z.shiftl b1 8) (Z.lor (Z.shiftl b2 16) (Z.shiftl b3 24)))
  | _ => 0
  end.
Definition putLE32 (v : Z) : list Z := [u8 v; u8 (Z.shiftr v 8); u8 (Z.shiftr v 16); u8 (Z.shiftr v 24)].
Definition putLE64 (v : Z) : list Z := putLE32 v ++ putLE32 (Z.shiftr v 32).

Definition md4F (x y z : Z) : Z := Z.lor (Z.land x y) (Z.land (u32 (Z.lnot x)) z).
Definition md4G (x y z : Z) : Z := Z.lor (Z.lor (Z.land x y) (Z.land x z)) (Z.land y z).
Definition md4H (x y z : Z) : Z := Z.lxor (Z.lxor x y) z.

Definition RotateLeft32 (x k : Z) : Z := u32 (Z.lor (Z.shiftl x k) (Z.shiftr x (32 - k))).

Definition regs : Type := Z * Z * Z * Z.

Definition md4StepF (r : regs) (x s : Z) : regs :=
  let '(a, b, c, d) := r in
  let a := RotateLeft32 (u32 (u32 (a + md4F b c d) + x)) s in (d, a, b, c).
Definition md4StepG (r : regs) (x s : Z) : regs :=
  let '(a, b, c, d) := r in
  let a := RotateLeft32 (u32 (u32 (u32 (a + md4G b c d) + x) + 1518500249)) s in (d, a, b, c).
Definition md4StepH (r : regs) (x s : Z) : regs :=
  let '(a, b, c, d) := r in
  let a := RotateLeft32 (u32 (u32 (u32 (a + md4H b c d) + x) + 1859775393)) s in (d, a, b, c).

Definition order1 : list nat := [0; 1; 2; 3; 4; 5; 6; 7; 8; 9; 10; 11; 12; 13; 14; 15]%nat.
Definition shifts1 : list Z := [3; 7; 11; 19; 3; 7; 11; 19; 3; 7; 11; 19; 3; 7; 11; 19].
Definition order2 : list nat := [0; 4; 8; 12; 1; 5; 9; 13; 2; 6; 10; 14; 3; 7; 11; 15]%nat.
Definition shifts2 : list Z := [3; 5; 9; 13; 3; 5; 9; 13; 3; 5; 9; 13; 3; 5; 9; 13].
Definition order3 : list nat := [0; 8; 4; 12; 2; 10; 6; 14; 1; 9; 5; 13; 3; 11; 7; 15]%nat.
Definition shifts3 : list Z := [3; 9; 11; 15; 3; 9; 11; 15; 3; 9; 11; 15; 3; 9; 11; 15].

Definition md4_round (step : regs → Z → Z → regs) (x : list Z) (order : list nat) (shifts : list Z) (r : regs) : regs :=
  foldl (λ r '(i, s), step r (x !!! i) s) r (zip order shifts).

Definition md4Transform (r0 : regs) (block : list Z) : regs :=
  let x := (λ i : nat, leUint32 (drop (i * 4) block)) <$> seq 0 16 in
  let r := md4_round md4StepF x order1 shifts1 r0 in
  let r := md4_round md4StepG x order2 shifts2 r in
  let '(a, b, c, d) := md4_round md4StepH x order3 shifts3 r in
  let '(a0, b0, c0, d0) := r0 in
  (u32 (a0 + a), u32 (b0 + b), u32 (c0 + c), u32 (d0 + d)).

Definition md4_init : regs := (1732584193, 4023233417, 2562383102, 271733878).

Definition md4_output (r : regs) : list Z :=
  let '(a, b, c, d) := r in putLE32 a ++ putLE32 b ++ putLE32 c ++ putLE32 d.

Definition md4 (input : list Z) : list Z :=
  let fullBlocks := (length input / 64)%nat in
  let r := foldl (λ r i, md4Transform r (take 64 (drop (i * 64) input))) md4_init (seq 0 fullBlocks) in
  let tail := drop (fullBlocks * 64) input in
  let block := splice (splice (zeros 64) 0 tail) (len tail) [128] in
  let '(r, block) := if 56 <=? len tail then (md4Transform r block, zeros 64) else (r, block) in
  let block := splice block 56 (putLE64 (u64 (len input * 8))) in
  md4_output (md4Transform r block).

(* ------------------------------------------------------------------ *)
(** ** Text: unicode/utf8, unicode/utf16, strings *)

Definition RuneError : Z := 65533.

Definition between (lo x hi : Z) : bool := (lo <=? x) && (x <=? hi).

(** [utf8.DecodeRune] on a non-empty buffer: the rune and its width; an
    invalid encoding gives [RuneError] and width 1. *)
Definition decode_rune (b : list Z) : Z * nat :=
  match b with
  | [] => (RuneError, 0%nat)
  | b0 :: b =>
      if b0 <? 128 then (b0, 1%nat)
      else if between 194 b0 223 then
        match b with
        | b1 :: _ => if between 128 b1 191
                     then (Z.lor (Z.shiftl (Z.land b0 31) 6) (Z.land b1 63), 2%nat) else (RuneError, 1%nat)
        | _ => (RuneError, 1%nat)
        end
      else if between 224 b0 239 then
        match b with
        | b1 :: b2 :: _ =>
            let lo := if b0 =? 224 then 160 else 128 in
            let hi := if b0 =? 237 then 159 else 191 in
            if between lo b1 hi && between 128 b2 191
            then (Z.lor (Z.lor (Z.shiftl (Z.land b0 15) 12) (Z.shiftl (Z.land b1 63) 6)) (Z.land b2 63), 3%nat)
            else (RuneError, 1%nat)
        | _ => (RuneError, 1%nat)
        end
      else if between 240 b0 244 then
        match b with
        | b1 :: b2 :: b3 :: _ =>
            let lo := if b0 =? 240 then 144 else 128 in
            let hi := if b0 =? 244 then 143 else 191 in
            if between lo b1 hi && between 128 b2 191 && between 128 b3 191
            then (Z.lor (Z.lor (Z.lor (Z.shiftl (Z.land b0 7) 18) (Z.shiftl (Z.land b1 63) 12))
                          (Z.shiftl (Z.land b2 63) 6)) (Z.land b3 63), 4%nat)
            else (RuneError, 1%nat)
        | _ => (RuneError, 1%nat)
        end
      else (RuneError, 1%nat)
  end.

(** [[]rune(s)], with the bytes each rune was decoded from. *)
Fixpoint rune_chunks (fuel : nat) (b : list Z) : list (Z * list Z) :=
  match fuel, b with
  | S fuel, _ :: _ => let '(r, n) := decode_rune b in (r, take n b) :: rune_chunks fuel (drop n b)
  | _, _ => []
  end.
Definition runes (s : list Z) : list (Z * list Z) := rune_chunks (length s) s.

(** [utf8.Valid]: no chunk is an encoding error. *)
Definition utf8_Valid (s : list Z) : bool :=
  forallb (λ c, negb ((c.1 =? RuneError) && (len c.2 =? 1))) (runes s).

(** [utf16.Encode] of one rune. *)
Definition utf16_rune (r : Z) : list Z :=
  if between 0 r 55295 || between 57344 r 65535 then [r]
  else if between 65536 r 1114111 then
    let r := r - 65536 in
    [55296 + Z.land (Z.shiftr r 10) 1023; 56320 + Z.land r 1023]
  else [RuneError].

Definition utf16LE (s : list Z) : list Z :=
  flat_map (λ u, [u8 u; u8 (Z.shiftr u 8)]) (flat_map (λ c, utf16_rune c.1) (runes s)).

(** [unicode.IsSpace] *)
Definition isSpace (r : Z) : bool :=
  between 9 r 13 || (r =? 32) || (r =? 133) || (r =? 160) || (r =? 5760) || between 8192 r 8202 ||
  (r =? 8232) || (r =? 8233) || (r =? 8239) || (r =? 8287) || (r =? 12288).

(** [strings.Fields]: the maximal runs of runes that are not spaces. *)
Fixpoint fields_of (cs : list (Z * list Z)) (cur : list Z) : list (list Z) :=
  match cs with
  | [] => if bool_decide (cur = []) then [] else [cur]
  | (r, c) :: cs =>
      if isSpace r then
        if bool_decide (cur = []) then fields_of cs [] else cur :: fields_of cs []
      else fields_of cs (cur ++ c)
  end.
Definition Fields (s : list Z) : list (list Z) := fields_of (runes s) [].

(** [strings.Cut] at the byte [sep]. *)
Fixpoint Cut (s : list Z) (sep : Z) : option (list Z * list Z) :=
  match s with
  | [] => None
  | c :: s => if c =? sep then Some ([], s)
              else match Cut s sep with Some (k, v) => Some (c :: k, v) | None => None end
  end.

Definition CutPrefix (s prefix : list Z) : option (list Z) :=
  if bool_decide (take (length prefix) s = prefix) then Some (drop (length prefix) s) else None.

Definition ToUpper_byte (c : Z) : Z := if between 97 c 122 then c - 32 else c.

(** [strings.EqualFold] on ASCII text: its only use here compares two strings
    of hexadecimal digits. *)
Definition EqualFold (a b : list Z) : bool :=
  bool_decide ((ToUpper_byte <$> a) = (ToUpper_byte <$> b)).

(** [strconv.ParseUint(s, 10, 32)] succeeds. *)
Definition isDigit (c : Z) : bool := between 48 c 57.
Definition decimal (s : list Z) : Z := foldl (λ n c, n * 10 + (c - 48)) 0 s.
Definition ParseUint32_ok (s : list Z) : bool :=
  negb (bool_decide (s = [])) && forallb isDigit s && (decimal s <? 2 ^ 32).

(** ASCII text of a literal. *)
Definition ascii_bytes (s : string) : list Z :=
  (λ c, Z.of_N (Ascii.N_of_ascii c)) <$> String.list_ascii_of_string s.

(* ------------------------------------------------------------------ *)
(** ** mschapv2.go *)

(** crypto/des: one block, and what the code relies on. *)
Class DES := { des_encrypt : list Z → list Z → list Z }.
Class DESLaws `{!DES} : Prop := {
  des_encrypt_block k b : len k = 8 → len b = 8 → len (des_encrypt k b) = 8 ∧ bytes (des_encrypt k b) }.

Definition OpChallenge : Z := 1.
Definition OpResponse : Z := 2.
Definition OpSuccess : Z := 3.
Definition OpFailure : Z := 4.

Definition ChallengeLen : Z := 16.
Definition NTResponseLen : Z := 24.
Definition AuthStringHexLen : Z := 40.
Definition responseValueSize : Z := 49.

Definition magic1 : list Z := ascii_bytes "Magic server to client signing constant".
Definition magic2 : list Z := ascii_bytes "Pad to make it do more than one iteration".
Definition mskMagic1 : list Z := ascii_bytes "This is the MPPE Master Key".
Definition mskMagic2 : list Z := ascii_bytes
  "On the client side, this is the send key; on the server side, it is the receive key.".
Definition mskMagic3 : list Z := ascii_bytes
  "On the client side, this is the receive key; on the server side, it is the send key.".
Definition shapad1 : list Z := zeros 40.
Definition shapad2 : list Z := replicate 40 242.

Definition ch_backslash : Z := 92.

Definition extractUsername (identity : list Z) : list Z :=
  match Cut identity ch_backslash with Some (_, rest) => rest | None => identity end.

Definition hexDigit_upper (v : Z) : Z := if v <? 10 then 48 + v else 55 + v.
Definition hexEncode (b : list Z) : list Z :=
  flat_map (λ v, [hexDigit_upper (Z.shiftr v 4); hexDigit_upper (Z.land v 15)]) b.

Definition hexDigit (c : Z) : option Z :=
  if between 48 c 57 then Some (c - 48)
  else if between 97 c 102 then Some (c - 97 + 10)
  else if between 65 c 70 then Some (c - 65 + 10)
  else None.

Fixpoint hex_pairs (s : list Z) : res (list Z) :=
  match s with
  | hi :: lo :: s =>
      match hexDigit hi, hexDigit lo with
      | Some h, Some l => rest ← hex_pairs s; Ok (Z.lor (Z.shiftl h 4) l :: rest)
      | _, _ => Err "invalid hex"
      end
  | _ => Ok []
  end.
Definition hexDecode (s : list Z) : res (list Z) :=
  if negb (len s mod 2 =? 0) then Err "odd length hex" else hex_pairs s.
Definition isHex (s : list Z) : bool := is_ok (hexDecode s).
Definition isDigits (s : list Z) : bool := forallb isDigit s.

(** [b &= b - 1] clears the lowest set bit: at most eight rounds on a byte. *)
Fixpoint ones_loop (fuel : nat) (b n : Z) : Z :=
  match fuel with
  | O => n
  | S fuel => if b =? 0 then n else ones_loop fuel (Z.land b (u8 (b - 1))) (n + 1)
  end.
Definition onesCount (b : Z) : Z := ones_loop 9 b 0.

Definition oddParity (b : Z) : Z :=
  let b := Z.land b 254 in
  if onesCount b mod 2 =? 0 then Z.lor b 1 else b.

(** The seven key bytes with the shared bits moved across byte borders. *)
Definition key_byte (j a b : Z) : Z :=
  Z.land (Z.lor (u8 (Z.shiftl a (8 - j))) (Z.shiftr b j)) 254.
Definition expandDesKey (key7 : list Z) : list Z :=
  match key7 with
  | [k0; k1; k2; k3; k4; k5; k6] =>
      oddParity <$> [Z.land k0 254; key_byte 1 k0 k1; key_byte 2 k1 k2; key_byte 3 k2 k3;
                     key_byte 4 k3 k4; key_byte 5 k4 k5; key_byte 6 k5 k6; u8 (Z.shiftl k6 1)]
  | _ => []
  end.

Section Method.
Context {C : Crypto} {D : DES}.

Definition sha1Sum (parts : list Z) : list Z := digest HashSHA1 parts.

Definition ntPasswordHash (password : list Z) : list Z := md4 (utf16LE password).

Definition challengeHash (peerChallenge authChallenge username : list Z) : list Z :=
  take 8 (sha1Sum (peerChallenge ++ authChallenge ++ username)).

Definition desEncryptBlock (key block : list Z) : res (list Z) :=
  if negb (len key =? 8) then Err "crypto/des: invalid key size" else Ok (des_encrypt key block).

Definition generateNTResponse (peerChallenge authChallenge username password : list Z) : res (list Z) :=
  let challenge := challengeHash peerChallenge authChallenge username in
  let zeroPadded := ntPasswordHash password ++ zeros 5 in
  b0 ← desEncryptBlock (expandDesKey (take 7 zeroPadded)) challenge;
  b1 ← desEncryptBlock (expandDesKey (take 7 (drop 7 zeroPadded))) challenge;
  b2 ← desEncryptBlock (expandDesKey (take 7 (drop 14 zeroPadded))) challenge;
  Ok (b0 ++ b1 ++ b2).

Definition generateAuthenticatorResponse
    (peerChallenge authChallenge username password ntResponse : list Z) : list Z :=
  let pwHashHash := md4 (ntPasswordHash password) in
  let first := sha1Sum (pwHashHash ++ ntResponse ++ magic1) in
  let challenge := challengeHash peerChallenge authChallenge username in
  let second := sha1Sum (first ++ challenge ++ magic2) in
  ToUpper_byte <$> hexEncode second.

Definition generateMSK (password ntResponse : list Z) : list Z :=
  let pwHashHash := md4 (ntPasswordHash password) in
  let masterKey := sha1Sum (pwHashHash ++ ntResponse ++ mskMagic1) in
  let master := take 16 masterKey in
  let recv := sha1Sum (master ++ shapad1 ++ mskMagic2 ++ shapad2) in
  let snd := sha1Sum (master ++ shapad1 ++ mskMagic3 ++ shapad2) in
  take 16 recv ++ take 16 snd ++ zeros 16 ++ zeros 16.

(** The value of the first field that starts with ["S="]. *)
Fixpoint success_sig (tokens : list (list Z)) : list Z :=
  match tokens with
  | [] => []
  | t :: tokens => match CutPrefix t (ascii_bytes "S=") with Some v => v | None => success_sig tokens end
  end.

Definition verifySuccess (payload expected : list Z) : res unit :=
  if len payload <? 2 + AuthStringHexLen then Err "mschapv2 success payload too short"
  else if negb (utf8_Valid payload) then Err "mschapv2 success payload is not utf8"
  else
  let sig := success_sig (Fields payload) in
  if bool_decide (sig = []) then Err "mschapv2 success missing authenticator response"
  else if negb (len sig =? AuthStringHexLen) then Err "mschapv2 success invalid auth string length"
  else if negb (isHex sig) then Err "mschapv2 success invalid auth string encoding"
  else if negb (EqualFold sig expected) then Err "mschapv2 success authenticator response mismatch"
  else Ok tt.

(** The flags are [hasErrorCode], [hasRetryFlag] and [hasChallenge]. *)
Fixpoint failure_tokens (tokens : list (list Z)) (e r c : bool) : res (bool * bool * bool) :=
  match tokens with
  | [] => Ok (e, r, c)
  | t :: tokens =>
      match Cut t 61 with
      | None => Err "mschapv2 failure has malformed token %q"
      | Some (key, value) =>
          if bool_decide (key = ascii_bytes "E") then
            if bool_decide (value = []) then Err "mschapv2 failure has invalid E code"
            else if negb (ParseUint32_ok value) then Err "mschapv2 failure has invalid E code"
            else failure_tokens tokens true r c
          else if bool_decide (key = ascii_bytes "R") then
            if negb (bool_decide (value = ascii_bytes "0")) && negb (bool_decide (value = ascii_bytes "1"))
            then Err "mschapv2 failure has invalid R token"
            else failure_tokens tokens e true c
          else if bool_decide (key = ascii_bytes "C") then
            if negb (len value =? ChallengeLen * 2) || negb (isHex value)
            then Err "mschapv2 failure has invalid challenge token"
            else failure_tokens tokens e r true
          else if bool_decide (key = ascii_bytes "V") then
            if bool_decide (value = []) || negb (isDigits value)
            then Err "mschapv2 failure has invalid V token"
            else failure_tokens tokens e r c
          else if bool_decide (key = ascii_bytes "M") then
            if bool_decide (value = []) then Err "mschapv2 failure has invalid M token"
            else failure_tokens tokens e r c
          else Err "mschapv2 failure has unsupported token %q"
      end
  end.

Definition parseFailureTokens (payload : list Z) : res unit :=
  if len payload <? 3 then Err "mschapv2 failure payload too short"
  else if negb (utf8_Valid payload) then Err "mschapv2 failure payload is not utf8"
  else
  '(e, r, c) ← failure_tokens (Fields payload) false false false;
  if negb e then Err "mschapv2 failure payload missing E token"
  else if negb r then Err "mschapv2 failure payload missing R token"
  else if negb c then Err "mschapv2 failure payload missing C token"
  else Ok tt.

Inductive MsPhase := MsNegotiating | MsChallenging | MsVerifying | MsCompleted | MsFailed.
#[global] Instance MsPhase_eq_dec : EqDecision MsPhase.
Proof. solve_decision. Defined.

Record ms_state := mkMsState {
  mschapID : Z; expectingSuccess : bool; authHex : list Z; Ms_msk : list Z }.

Record MsMethod := mkMsMethod {
  ms_identity : list Z; ms_password : list Z; ms_phase : MsPhase; ms_st : option ms_state }.

Definition ms_New (identity password : list Z) : MsMethod := mkMsMethod identity password MsNegotiating None.

Definition set_phase (m : MsMethod) (p : MsPhase) : MsMethod :=
  mkMsMethod (ms_identity m) (ms_password m) p (ms_st m).
Definition set_state (m : MsMethod) (s : option ms_state) : MsMethod :=
  mkMsMethod (ms_identity m) (ms_password m) (ms_phase m) s.

Definition ms_reset (m : MsMethod) : MsMethod := set_state (set_phase m MsNegotiating) None.

Definition ms_Initialize (m : MsMethod) : MsMethod * res unit :=
  if bool_decide (ms_identity m = []) then (m, Err "mschapv2 identity is empty")
  else if bool_decide (ms_password m = []) then (m, Err "mschapv2 password is empty")
  else (ms_reset m, Ok tt).

Definition ms_Close (m : MsMethod) : MsMethod * res unit := (set_phase (set_state m None) MsFailed, Ok tt).

Definition nakResponse (eapID : Z) : res (list Z) :=
  BuildRequest CodeResponse eapID TypeNAK [u8 TypeMSCHAPV2].

Definition buildResponse (eapID id : Z) (peerChallenge ntResponse identity : list Z) : res (list Z) :=
  let body := [OpResponse; id; 0; 0; responseValueSize] ++ peerChallenge ++ zeros 8 ++ ntResponse ++ [0] ++ identity in
  let body := splice body 2 [u8 (Z.shiftr (len body) 8); u8 (len body)] in
  BuildRequest CodeResponse eapID TypeMSCHAPV2 body.

Definition buildSuccess (eapID : Z) : res (list Z) :=
  BuildRequest CodeResponse eapID TypeMSCHAPV2 [OpSuccess].

(** [random] is what [rand.Read] gives for the 16-byte peer challenge. *)
Definition onRequest (m : MsMethod) (eapID : Z) (payload : list Z) (random : res (list Z)) :
    MsMethod * res (list Z) :=
  if len payload <? 4 then (set_phase m MsFailed, Err "mschapv2 payload too short")
  else
  match payload with
  | opcode :: id :: l2 :: l3 :: data =>
      let declaredLen := Z.lor (Z.shiftl l2 8) l3 in
      if (declaredLen <? 4) || negb (declaredLen =? len payload) then
        (set_phase m MsFailed, Err "invalid mschapv2 length")
      else if opcode =? OpChallenge then
        if match ms_st m with Some s => expectingSuccess s | None => false end then
          (m, Err "received unexpected mschapv2 challenge while waiting for success")
        else if len data <=? ChallengeLen + 1 then (m, Err "mschapv2 challenge payload too short")
        else
        match
          (valueSize ← data.[0];
           if negb (valueSize =? ChallengeLen) then Err "unsupported mschapv2 challenge size %d"
           else
           authChallenge ← data.[1, 1 + ChallengeLen];
           peerChallenge ← wrap "generate mschapv2 peer challenge: " random;
           let username := extractUsername (ms_identity m) in
           ntResponse ← generateNTResponse peerChallenge authChallenge username (ms_password m);
           Ok (peerChallenge, ntResponse,
               mkMsState id true
                 (generateAuthenticatorResponse peerChallenge authChallenge username (ms_password m) ntResponse)
                 (generateMSK (ms_password m) ntResponse)))
        with
        | Ok (peerChallenge, ntResponse, st) =>
            (set_state m (Some st), buildResponse eapID id peerChallenge ntResponse (ms_identity m))
        | Err e => (m, Err e)
        | Panic => (m, Panic)
        | Hang => (m, Hang)
        end
      else if opcode =? OpSuccess then
        match ms_st m with
        | None => (m, Err "mschapv2 success without prior challenge")
        | Some s =>
            if negb (expectingSuccess s) then (m, Err "unexpected mschapv2 success in current state")
            else if negb (mschapID s =? id) then (m, Err "mschapv2 id mismatch: expected %d, got %d")
            else
            match verifySuccess data (authHex s) with
            | Ok _ => (set_state m (Some (mkMsState (mschapID s) false (authHex s) (Ms_msk s))), buildSuccess eapID)
            | Err e => (m, Err e)
            | Panic => (m, Panic)
            | Hang => (m, Hang)
            end
        end
      else if opcode =? OpFailure then
        match ms_st m with
        | None => (m, Err "mschapv2 failure without prior challenge")
        | Some s =>
            if negb (expectingSuccess s) then (m, Err "unexpected mschapv2 failure in current state")
            else if negb (mschapID s =? id) then (m, Err "mschapv2 id mismatch: expected %d, got %d")
            else
            match parseFailureTokens data with
            | Ok _ => (set_state m None, Err "inner mschapv2 authentication failed")
            | Err e => (m, Err e)
            | Panic => (m, Panic)
            | Hang => (m, Hang)
            end
        end
      else (m, Err "unsupported mschapv2 opcode %d")
  | _ => (m, Panic)
  end.

Definition ms_Handle (m : MsMethod) (packet : list Z) (round : Z) (random : res (list Z)) : MsMethod * res Result :=
  if bool_decide (ms_phase m = MsFailed) then (m, Err "mschapv2 method is in failure state")
  else
  match Parse packet with
  | Err e => (set_phase m MsFailed, Err e)
  | Panic => (m, Panic)
  | Hang => (m, Hang)
  | Ok pkt =>
      if Pkt_Code pkt =? CodeRequest then
        if Pkt_Type pkt =? TypeIdentity then
          (set_phase m MsNegotiating,
           resp ← BuildRequest CodeResponse (Identifier pkt) TypeIdentity (ms_identity m); Ok (send resp))
        else if Pkt_Type pkt =? TypeMSCHAPV2 then
          let m := set_phase m (if ms_st m is Some _ then MsVerifying else MsChallenging) in
          match onRequest m (Identifier pkt) (Pkt_Data pkt) random with
          | (m, Ok resp) => (m, Ok (send resp))
          | (m, Err e) => (set_phase m MsFailed, Err e)
          | (m, Panic) => (m, Panic)
          | (m, Hang) => (m, Hang)
          end
        else
          (set_phase m MsNegotiating, resp ← nakResponse (Identifier pkt); Ok (send resp))
      else if Pkt_Code pkt =? CodeSuccess then
        match ms_st m with
        | None => (set_phase m MsFailed, Err "mschapv2 success without prior challenge")
        | Some s =>
            if expectingSuccess s then
              (set_phase m MsFailed, Err "outer eap success before verified mschapv2")
            else (set_phase m MsCompleted, Ok (finished (Ms_msk s)))
        end
      else if Pkt_Code pkt =? CodeFailure then
        (set_phase m MsFailed, Err "received eap failure with identifier %d")
      else (set_phase m MsFailed, Err "unsupported outer eap code %d for mschapv2")
  end.

#[global] Instance MsMethod_Method : Method MsMethod := {|
  Method_Initialize := ms_Initialize; Method_Handle := ms_Handle; Method_Close := ms_Close |}.
End Method.

(* ------------------------------------------------------------------ *)
(** ** Lemmas: MD4 *)

(** RFC 1320, appendix A.5. *)
Example md4_rfc_empty : md4 [] = [49; 214; 207; 224; 209; 106; 233; 49; 183; 60; 89; 215; 224; 192; 137; 192].
Proof. by vm_compute. Qed.
Example md4_rfc_abc : md4 (ascii_bytes "abc")
  = [164; 72; 1; 122; 175; 33; 216; 82; 95; 193; 10; 232; 122; 166; 114; 157].
Proof. by vm_compute. Qed.
Example md4_rfc_long : md4 (ascii_bytes
    "12345678901234567890123456789012345678901234567890123456789012345678901234567890")
  = [227; 59; 77; 220; 156; 56; 242; 25; 156; 62; 123; 22; 79; 204; 5; 54].
Proof. by vm_compute. Qed.

(** RFC 2759, section 9.2: the hash of ["clientPass"]. *)
Example nt_hash_rfc2759 : md4 (utf16LE (ascii_bytes "clientPass"))
  = [68; 235; 186; 141; 83; 18; 184; 214; 17; 71; 68; 17; 245; 105; 137; 174].
Proof. by vm_compute. Qed.

(** The reference: pad the whole message, then fold over its blocks. *)
Definition md4_pad (m : list Z) : list Z :=
  m ++ [128] ++ zeros ((55 - len m) mod 64) ++ putLE64 (u64 (len m * 8)).
Fixpoint md4_blocks (n : nat) (r : regs) (data : list Z) : regs :=
  match n with O => r | S n => md4_blocks n (md4Transform r (take 64 data)) (drop 64 data) end.
Definition md4_ref (m : list Z) : list Z :=
  md4_output (md4_blocks (length (md4_pad m) / 64) md4_init (md4_pad m)).

Lemma md4_blocks_app a b r d : md4_blocks (a + b) r d = md4_blocks b (md4_blocks a r d) (drop (64 * a) d).
Proof.
  revert r d. induction a as [|a IH]; intros r d; [by rewrite drop_0|]. cbn [Nat.add md4_blocks]. rewrite IH, drop_drop.
  do 2 f_equal. lia.
Qed.

Lemma md4_blocks_fold q m x r : (q * 64 <= length m)%nat →
  foldl (λ r i, md4Transform r (take 64 (drop (i * 64) m))) r (seq 0 q) = md4_blocks q r (m ++ x).
Proof.
  intros Hq. induction q as [|q IH]; [done|]. rewrite seq_S, foldl_app, IH by lia. cbn [foldl Nat.add].
  replace (S q) with (q + 1)%nat by lia. rewrite md4_blocks_app. cbn [md4_blocks]. f_equal.
  rewrite (Nat.mul_comm 64), drop_app_le, take_app_le; [done|rewrite length_drop; lia|lia].
Qed.

Lemma zeros_split a b : 0 <= a → 0 <= b → zeros (a + b) = zeros a ++ zeros b.
Proof. intros. unfold zeros. rewrite Z2Nat.inj_add by lia. apply replicate_add. Qed.

Lemma len_putLE64 v : len (putLE64 v) = 8.
Proof. done. Qed.

(** The last block before the length is written. *)
Lemma tail_block tail : len tail < 64 →
  splice (splice (zeros 64) 0 tail) (len tail) [128] = tail ++ [128] ++ zeros (63 - len tail).
Proof.
  intros Ht. pose proof (len_nonneg tail).
  replace (zeros 64) with ([] ++ zeros (len tail) ++ zeros 1 ++ zeros (63 - len tail)) at 1.
  - rewrite splice_app by (rewrite ?len_zeros; done || lia). cbn [app].
    by rewrite splice_app by (rewrite ?len_zeros; done || lia).
  - cbn [app]. rewrite <- !zeros_split by lia. f_equal. lia.
Qed.

Lemma md4_output_ok r : len (md4_output r) = 16 ∧ bytes (md4_output r).
Proof. destruct r as [[[a b] c] d]. split; [done|]. repeat constructor; try apply u8_byte. Qed.

Lemma md4_pad_cases m : let n := len m mod 64 in
  let tail := drop (length m / 64 * 64) m in
  len tail = n ∧ drop (64 * (length m / 64)) (md4_pad m) = tail ++ [128] ++ zeros ((55 - n) mod 64) ++ putLE64 (u64 (len m * 8)) ∧
  (length (md4_pad m) / 64 = length m / 64 + (if (n <? 56)%Z then 1 else 2))%nat.
Proof.
  intros n tail. pose proof (Nat.div_mod_eq (length m) 64) as Hd. pose proof (Nat.mod_upper_bound (length m) 64).
  assert (Hn : n = Z.of_nat (length m mod 64)) by (unfold n, len; rewrite Nat2Z.inj_mod; done).
  assert (Hp : (55 - len m) mod 64 = (55 - n) mod 64) by (unfold n; by rewrite Zminus_mod_idemp_r).
  assert (Hz : 0 <= (55 - n) mod 64 < 64) by (apply Z.mod_pos_bound; lia).
  split; [unfold tail, len; rewrite length_drop; lia|]. split.
  - unfold md4_pad. rewrite Hp, drop_app_le by lia. unfold tail. by rewrite Nat.mul_comm.
  - assert (E : Z.of_nat (length (md4_pad m)) = len m + 1 + (55 - n) mod 64 + 8).
    { change (Z.of_nat (length ?x)) with (len x). unfold md4_pad. rewrite Hp, !len_app, len_zeros, len_putLE64 by lia.
      change (len [128]) with 1. lia. }
    unfold len in E. destruct (n <? 56) eqn:E1.
    + assert ((55 - n) mod 64 = 55 - n) by (apply Z.mod_small; lia).
      replace (length (md4_pad m)) with ((length m / 64 + 1) * 64)%nat by lia. apply Nat.div_mul. lia.
    + assert ((55 - n) mod 64 = 119 - n) by (rewrite <- (Z.mod_add _ 1 64) by lia; rewrite Z.mod_small; lia).
      replace (length (md4_pad m)) with ((length m / 64 + 2) * 64)%nat by lia. apply Nat.div_mul. lia.
Qed.

Lemma md4_equals_ref m : md4 m = md4_ref m.
Proof.
  destruct (md4_pad_cases m) as (Hn & Hdrop & Hblocks). set (n := len m mod 64) in *.
  set (tail := drop (length m / 64 * 64) m) in *. set (L := putLE64 (u64 (len m * 8))) in *.
  assert (Hn64 : 0 <= n < 64) by (apply Z.mod_pos_bound; lia).
  unfold md4, md4_ref. rewrite Hblocks, md4_blocks_app, Hdrop.
  rewrite (md4_blocks_fold (length m / 64) m ([128] ++ zeros ((55 - len m) mod 64) ++ L))
    by (pose proof (Nat.div_mod_eq (length m) 64); lia).
  change (m ++ [128] ++ zeros ((55 - len m) mod 64) ++ L) with (md4_pad m).
  set (r := md4_blocks (length m / 64) md4_init (md4_pad m)). f_equal. fold tail L.
  rewrite tail_block, Hn by lia. destruct (n <? 56) eqn:E1.
  - rewrite (proj2 (Z.leb_gt _ _)) by lia. cbn [md4_blocks]. f_equal.
    replace ((55 - n) mod 64) with (55 - n) by (symmetry; apply Z.mod_small; lia).
    replace (63 - n) with (55 - n + 8) by lia. rewrite zeros_split by lia.
    rewrite !app_assoc, <- (app_nil_r (zeros 8)), splice_app;
      [|rewrite !len_app, len_zeros by lia; change (len [128]) with 1; lia|done].
    rewrite app_nil_r, take_ge; [done|].
    cut (len (((tail ++ [128]) ++ zeros (55 - n)) ++ L) <= 64); [unfold len; lia|].
    rewrite !len_app, len_zeros by lia. change (len L) with 8. change (len [128]) with 1. lia.
  - rewrite (proj2 (Z.leb_le _ _)) by lia. cbn [md4_blocks].
    replace ((55 - n) mod 64) with (63 - n + 56)
      by (rewrite <- (Z.mod_add _ 1 64) by lia; rewrite Z.mod_small; lia).
    rewrite zeros_split by lia. set (P := tail ++ [128] ++ zeros (63 - n)).
    assert (HP : length P = 64%nat).
    { cut (len P = 64); [unfold len; lia|]. unfold P. rewrite !len_app, len_zeros by lia. change (len [128]) with 1. lia. }
    replace (tail ++ [128] ++ (zeros (63 - n) ++ zeros 56) ++ L) with (P ++ zeros 56 ++ L)
      by (unfold P; by rewrite <- !app_assoc).
    rewrite take_app_length', drop_app_length' by done.
    change (zeros 64) with (zeros 56 ++ zeros 8). rewrite <- (app_nil_r (zeros 8)), splice_app, app_nil_r by done.
    by rewrite take_ge.
Qed.

(* ------------------------------------------------------------------ *)
(** ** Lemmas: DES keys *)

Definition popcount (b : Z) : Z :=
  foldl (λ n i, n + Z.b2z (Z.testbit b (Z.of_nat i))) 0 (seq 0 8).

Definition byte_values : list Z := Z.of_nat <$> seq 0 256.

Lemma byte_values_spec x : is_byte x → x ∈ byte_values.
Proof.
  intros H. unfold byte_values, is_byte in *. apply list_elem_of_fmap. exists (Z.to_nat x). split; [lia|].
  apply elem_of_seq. lia.
Qed.

Lemma byte_check (P : Z → bool) : forallb P byte_values = true → ∀ x, is_byte x → P x = true.
Proof. intros H x Hx. rewrite forallb_forall in H. apply H, list_elem_of_In, byte_values_spec, Hx. Qed.

Lemma oddParity_spec x : is_byte x →
  Z.shiftr (oddParity x) 1 = Z.shiftr x 1 ∧ popcount (oddParity x) mod 2 = 1 ∧ is_byte (oddParity x).
Proof.
  intros Hx.
  assert (H := byte_check (λ x, (Z.shiftr (oddParity x) 1 =? Z.shiftr x 1) && (popcount (oddParity x) mod 2 =? 1) &&
    (0 <=? oddParity x) && (oddParity x <? 256)) ltac:(by vm_compute) x Hx). cbv beta in H. unfold is_byte. lia.
Qed.

Definition key_byte_ok (j a b : Z) : bool :=
  (Z.shiftr (key_byte j a b) 1 =? a mod 2 ^ j * 2 ^ (7 - j) + b / 2 ^ (j + 1)) &&
  (0 <=? key_byte j a b) && (key_byte j a b <? 256).

Lemma key_byte_mod j a b : 0 <= j <= 8 → key_byte j a b = key_byte j (a mod 2 ^ j) b.
Proof.
  intros Hj. unfold key_byte, u8. do 2 f_equal. rewrite !Z.shiftl_mul_pow2 by lia.
  replace (2 ^ 8) with (2 ^ j * 2 ^ (8 - j)) by (rewrite <- Z.pow_add_r by lia; f_equal; lia).
  rewrite !Z.mul_mod_distr_r; [by rewrite Z.mod_mod by (apply Z.pow_nonzero; lia)|apply Z.pow_nonzero; lia..].
Qed.

Lemma key_byte_table : forallb (λ j, forallb (λ a, forallb (key_byte_ok j (Z.of_nat a)) byte_values)
  (seq 0 (Z.to_nat (2 ^ j)))) [1; 2; 3; 4; 5; 6] = true.
Proof. by vm_compute. Qed.

Lemma key_byte_spec j a b : j ∈ [1; 2; 3; 4; 5; 6] → is_byte b →
  Z.shiftr (key_byte j a b) 1 = a mod 2 ^ j * 2 ^ (7 - j) + b / 2 ^ (j + 1) ∧ is_byte (key_byte j a b).
Proof.
  intros Hj Hb. pose proof key_byte_table as H. rewrite forallb_forall in H.
  specialize (H j ltac:(by apply list_elem_of_In)). rewrite forallb_forall in H.
  assert (Hj' : 0 <= j <= 8) by (repeat (apply elem_of_cons in Hj as [->|Hj]; [lia|]); by apply elem_of_nil in Hj).
  assert (Hr : 0 <= a mod 2 ^ j < 2 ^ j) by (apply Z.mod_pos_bound, Z.pow_pos_nonneg; lia).
  specialize (H (Z.to_nat (a mod 2 ^ j)) ltac:(apply list_elem_of_In, elem_of_seq; lia)).
  pose proof (byte_check _ H b Hb) as H'. rewrite Z2Nat.id in H' by lia.
  unfold key_byte_ok in H'. rewrite Z.mod_mod in H' by lia. rewrite <- key_byte_mod in H' by lia.
  unfold is_byte. lia.
Qed.

Lemma edge_bytes k : is_byte k →
  (Z.shiftr (Z.land k 254) 1 = k / 2 ∧ is_byte (Z.land k 254)) ∧
  (Z.shiftr (u8 (Z.shiftl k 1)) 1 = k mod 128 ∧ is_byte (u8 (Z.shiftl k 1))).
Proof.
  intros Hk.
  assert (H := byte_check (λ k, (Z.shiftr (Z.land k 254) 1 =? k / 2) && (0 <=? Z.land k 254) && (Z.land k 254 <? 256) &&
    (Z.shiftr (u8 (Z.shiftl k 1)) 1 =? k mod 128)) ltac:(by vm_compute) k Hk).
  cbv beta in H. pose proof (u8_byte (Z.shiftl k 1)). unfold is_byte in *. lia.
Qed.

(** The 56 key bits, read from the seven high bits of each DES key byte. *)
Definition des_key_value (out : list Z) : Z := foldl (λ acc b, acc * 128 + Z.shiftr b 1) 0 out.

Lemma expandDesKey_spec key7 : len key7 = 7 → bytes key7 →
  len (expandDesKey key7) = 8 ∧ Forall (λ b, is_byte b ∧ popcount b mod 2 = 1) (expandDesKey key7) ∧
  des_key_value (expandDesKey key7) = be_value key7.
Proof.
  intros Hl Hb. destruct key7 as [|k0 [|k1 [|k2 [|k3 [|k4 [|k5 [|k6 [|]]]]]]]]; try (unfold len in Hl; simpl in Hl; lia).
  repeat (apply Forall_cons in Hb as [? Hb]). split; [done|].
  destruct (edge_bytes k0) as [[E0 B0] _]; [done|]. destruct (edge_bytes k6) as [_ [E7 B7]]; [done|].
  destruct (key_byte_spec 1 k0 k1) as [E1 B1]; [by apply (bool_decide_unpack _)|done|].
  destruct (key_byte_spec 2 k1 k2) as [E2 B2]; [by apply (bool_decide_unpack _)|done|].
  destruct (key_byte_spec 3 k2 k3) as [E3 B3]; [by apply (bool_decide_unpack _)|done|].
  destruct (key_byte_spec 4 k3 k4) as [E4 B4]; [by apply (bool_decide_unpack _)|done|].
  destruct (key_byte_spec 5 k4 k5) as [E5 B5]; [by apply (bool_decide_unpack _)|done|].
  destruct (key_byte_spec 6 k5 k6) as [E6 B6]; [by apply (bool_decide_unpack _)|done|].
  split.
  { unfold expandDesKey. cbn [fmap list_fmap]. repeat constructor; by apply oddParity_spec. }
  unfold des_key_value, expandDesKey. cbn [fmap list_fmap foldl].
  rewrite (proj1 (oddParity_spec _ B0)), (proj1 (oddParity_spec _ B1)), (proj1 (oddParity_spec _ B2)),
    (proj1 (oddParity_spec _ B3)), (proj1 (oddParity_spec _ B4)), (proj1 (oddParity_spec _ B5)),
    (proj1 (oddParity_spec _ B6)), (proj1 (oddParity_spec _ B7)), E0, E1, E2, E3, E4, E5, E6, E7.
  unfold be_value. cbn [foldl]. unfold is_byte in *.
  repeat match goal with |- context [2 ^ ?e] => let v := eval vm_compute in (2 ^ e) in change (2 ^ e) with v end.
  pose proof (Z.div_mod k0 2). pose proof (Z.div_mod k1 4). pose proof (Z.div_mod k2 8). pose proof (Z.div_mod k3 16).
  pose proof (Z.div_mod k4 32). pose proof (Z.div_mod k5 64). pose proof (Z.div_mod k6 128). lia.
Qed.

(* ------------------------------------------------------------------ *)
(** ** Lemmas: text *)

Definition is_ascii (c : Z) : Prop := 0 <= c < 128.

Lemma rune_chunks_ascii fuel s : Forall is_ascii s → (length s <= fuel)%nat →
  rune_chunks fuel s = (λ c, (c, [c])) <$> s.
Proof.
  revert s. induction fuel as [|fuel IH]; intros [|c s] Hs Hl; simpl in Hl; try done; [lia|].
  apply Forall_cons in Hs as [Hc Hs]. cbn [rune_chunks decode_rune].
  rewrite (proj2 (Z.ltb_lt c 128)) by (unfold is_ascii in Hc; lia). cbn. rewrite drop_0. f_equal. apply IH; [done|lia].
Qed.

Lemma runes_ascii s : Forall is_ascii s → runes s = (λ c, (c, [c])) <$> s.
Proof. intros. by apply rune_chunks_ascii. Qed.

Lemma utf8_Valid_ascii s : Forall is_ascii s → utf8_Valid s = true.
Proof.
  intros H. unfold utf8_Valid. rewrite runes_ascii by done. apply forallb_forall. intros [r c] Hin.
  apply list_elem_of_In, list_elem_of_fmap in Hin as (x & [= -> ->] & Hx). rewrite Forall_forall in H.
  specialize (H x Hx). unfold is_ascii in H. simpl. unfold RuneError. destruct (x =? 65533) eqn:E; [lia|done].
Qed.

Lemma fields_run t cs cur : Forall (λ c, isSpace c = false) t →
  fields_of (((λ c, (c, [c])) <$> t) ++ cs) cur = fields_of cs (cur ++ t).
Proof.
  revert cur. induction t as [|c t IH]; intros cur Ht; [by rewrite app_nil_r|].
  apply Forall_cons in Ht as [Hc Ht]. cbn [fmap list_fmap app fields_of]. rewrite Hc, IH by done.
  by rewrite <- app_assoc.
Qed.

Lemma Fields_first t rest : t ≠ [] → Forall (λ c, is_ascii c ∧ isSpace c = false) t → Forall is_ascii rest →
  ∃ fs, Fields (t ++ 32 :: rest) = t :: fs.
Proof.
  intros Hne Ht Hr. unfold Fields. rewrite runes_ascii.
  - rewrite fmap_app, fields_run by (eapply Forall_impl; [exact Ht|]; by intros ? [? ?]).
    cbn [fmap list_fmap fields_of]. change (isSpace 32) with true. cbn. rewrite bool_decide_eq_false_2 by done. eauto.
  - apply Forall_app. split; [eapply Forall_impl; [exact Ht|]; by intros ? [? ?]|]. constructor; [done|done].
Qed.

Definition is_upper_hex (c : Z) : Prop := 48 <= c <= 57 ∨ 65 <= c <= 70.

Lemma is_upper_hex_ok c : is_upper_hex c →
  is_ascii c ∧ isSpace c = false ∧ ToUpper_byte c = c ∧ is_Some (hexDigit c).
Proof.
  unfold is_upper_hex. intros H. split; [unfold is_ascii; lia|].
  assert (Hin : c ∈ ((Z.of_nat <$> seq 48 10) ++ (Z.of_nat <$> seq 65 6))).
  { apply elem_of_app. destruct H; [left|right]; apply list_elem_of_fmap; exists (Z.to_nat c);
      (split; [lia|apply elem_of_seq; lia]). }
  assert (HF : Forall (λ c, isSpace c = false ∧ ToUpper_byte c = c ∧ is_Some (hexDigit c))
    ((Z.of_nat <$> seq 48 10) ++ (Z.of_nat <$> seq 65 6))) by (repeat constructor; by eexists).
  rewrite Forall_forall in HF. by apply HF.
Qed.

Lemma hexEncode_upper b : bytes b → Forall is_upper_hex (hexEncode b) ∧ len (hexEncode b) = 2 * len b.
Proof.
  induction b as [|x b IH]; intros Hb; [done|]. apply Forall_cons in Hb as [Hx Hb].
  destruct (IH Hb) as [H1 H2]. split.
  - assert (H : ∀ v, 0 <= v < 16 → is_upper_hex (hexDigit_upper v)).
    { intros v Hv. unfold is_upper_hex, hexDigit_upper. destruct (v <? 10) eqn:E; lia. }
    constructor; [|constructor; [|exact H1]]; apply H.
    + unfold is_byte in Hx. rewrite Z.shiftr_div_pow2 by lia. change (2 ^ 4) with 16. divlia.
    + change 15 with (Z.ones 4). rewrite Z.land_ones by lia. apply Z.mod_pos_bound. lia.
  - change (hexEncode (x :: b)) with ([hexDigit_upper (Z.shiftr x 4); hexDigit_upper (Z.land x 15)] ++ hexEncode b).
    rewrite len_app, H2. change (x :: b) with ([x] ++ b). rewrite len_app.
    change (len [hexDigit_upper (Z.shiftr x 4); hexDigit_upper (Z.land x 15)]) with 2. change (len [x]) with 1. lia.
Qed.

Lemma hex_pairs_upper s : Forall is_upper_hex s → is_ok (hex_pairs s) = true.
Proof.
  revert s. fix IH 1. intros [|h [|l s]] Hs; try done.
  apply Forall_cons in Hs as [Hh Hs]. apply Forall_cons in Hs as [Hl Hs].
  destruct (is_upper_hex_ok h Hh) as (_ & _ & _ & [vh Eh]). destruct (is_upper_hex_ok l Hl) as (_ & _ & _ & [vl El]).
  cbn [hex_pairs]. rewrite Eh, El. specialize (IH s Hs). by destruct (hex_pairs s).
Qed.

Lemma ToUpper_upper s : Forall is_upper_hex s → ToUpper_byte <$> s = s.
Proof.
  induction 1 as [|c s Hc Hs IH]; [done|]. cbn [fmap list_fmap]. destruct (is_upper_hex_ok c Hc) as (_ & _ & -> & _).
  f_equal. exact IH.
Qed.

(** The server's success message for the expected authenticator verifies. *)
Lemma verifySuccess_accepts sig rest : Forall is_upper_hex sig → len sig = AuthStringHexLen → Forall is_ascii rest →
  verifySuccess (ascii_bytes "S=" ++ sig ++ 32 :: rest) sig = Ok tt.
Proof.
  intros Hs Hl Hr. unfold verifySuccess, AuthStringHexLen in *.
  set (t := ascii_bytes "S=" ++ sig).
  assert (Hlt : len t = 42) by (unfold t; rewrite len_app, Hl; done).
  assert (Ht : Forall (λ c, is_ascii c ∧ isSpace c = false) t).
  { unfold t. apply Forall_app. split; [by repeat constructor|]. eapply Forall_impl; [exact Hs|].
    intros c Hc. by destruct (is_upper_hex_ok c Hc) as (? & ? & _). }
  rewrite app_assoc. fold t.
  assert (Hlen : 42 <= len (t ++ 32 :: rest)) by (rewrite len_app, Hlt; len_norm; lia).
  rewrite (proj2 (Z.ltb_ge _ _)) by lia.
  rewrite utf8_Valid_ascii.
  2:{ apply Forall_app. split; [eapply Forall_impl; [exact Ht|]; by intros ? [? ?]|by constructor]. }
  destruct (Fields_first t rest) as [fs ->]; [by intros ->|done|done|]. cbn [negb success_sig].
  assert (CutPrefix t (ascii_bytes "S=") = Some sig) as ->.
  { unfold CutPrefix, t. by rewrite take_app_length, drop_app_length, bool_decide_eq_true_2. }
  rewrite bool_decide_eq_false_2 by (intros ->; done). rewrite Hl, Z.eqb_refl. cbn [negb].
  unfold isHex, hexDecode. rewrite Hl. cbn [Z.eqb negb]. change (negb (40 mod 2 =? 0)) with false. cbn iota.
  rewrite hex_pairs_upper by done. cbn [negb]. unfold EqualFold. by rewrite bool_decide_eq_true_2.
Qed.

(** What verifies is the expected authenticator up to letter case. *)
Lemma verifySuccess_inv data expected : verifySuccess data expected = Ok tt →
  ∃ sig, success_sig (Fields data) = sig ∧ len sig = AuthStringHexLen ∧ EqualFold sig expected = true.
Proof.
  unfold verifySuccess. intros H. destruct (len data <? _); [done|]. destruct (negb (utf8_Valid data)); [done|].
  destruct (bool_decide _); [done|]. destruct (negb (len _ =? AuthStringHexLen)) eqn:E1; [done|].
  destruct (negb (isHex _)); [done|]. destruct (negb (EqualFold _ _)) eqn:E2; [done|].
  eexists. split; [done|]. split; [lia|]. by destruct (EqualFold _ _).
Qed.

(* ------------------------------------------------------------------ *)
(** ** Lemmas: the state machine *)

(** One call of [Handle]: packet, round and the random bytes available. *)
Record ms_step := mkStep { step_packet : list Z; step_round : Z; step_random : res (list Z) }.

Section Machine.
Context {C : Crypto} {D : DES} {L : CryptoLaws}.

Definition handle_step (m : MsMethod) (s : ms_step) : MsMethod * res Result :=
  ms_Handle m (step_packet s) (step_round s) (step_random s).

Fixpoint ms_run (m : MsMethod) (steps : list ms_step) : MsMethod * list (res Result) :=
  match steps with
  | [] => (m, [])
  | s :: steps => let '(m, r) := handle_step m s in let '(m, rs) := ms_run m steps in (m, r :: rs)
  end.

Lemma generateNTResponse_ok peer auth user pw :
  ∃ nt, generateNTResponse peer auth user pw = Ok nt.
Proof.
  unfold generateNTResponse. set (z := ntPasswordHash pw ++ zeros 5).
  assert (Hz : len z = 21 ∧ bytes z).
  { destruct (md4_output_ok (md4_blocks (length (md4_pad (utf16LE pw)) / 64) md4_init (md4_pad (utf16LE pw)))) as [H1 H2].
    unfold z, ntPasswordHash. rewrite md4_equals_ref. unfold md4_ref. split.
    - rewrite len_app, H1. done.
    - by apply Forall_app; split; [|apply zeros_bytes]. }
  assert (Hk : ∀ n, (n <= 14)%nat → len (expandDesKey (take 7 (drop n z))) = 8).
  { intros n Hn. apply expandDesKey_spec; [|by apply bytes_take, bytes_drop; apply Hz].
    rewrite len_take, len_drop. lia. }
  unfold desEncryptBlock. pose proof (Hk 0%nat ltac:(lia)) as H0. rewrite drop_0 in H0.
  rewrite H0, (Hk 7%nat), (Hk 14%nat) by lia. run. by eexists.
Qed.

(** The request the packet of a step carries. *)
Definition carries (s : ms_step) (id opcode mid : Z) (data : list Z) : Prop :=
  ∃ l2 l3, Parse (step_packet s)
    = Ok (mkPacket CodeRequest id TypeMSCHAPV2 (opcode :: mid :: l2 :: l3 :: data)).

(** [s] answered a challenge, leaving [st]. *)
Definition challenged (identity password : list Z) (s : ms_step) (st : ms_state) : Prop :=
  ∃ id auth rest peer nt,
    carries s id OpChallenge (mschapID st) (ChallengeLen :: auth ++ rest) ∧ len auth = ChallengeLen ∧
    step_random s = Ok peer ∧
    generateNTResponse peer auth (extractUsername identity) password = Ok nt ∧
    authHex st = generateAuthenticatorResponse peer auth (extractUsername identity) password nt ∧
    Ms_msk st = generateMSK password nt.

(** [s] carried the server's authenticator for [st]. *)
Definition proved (s : ms_step) (st : ms_state) : Prop :=
  ∃ id data, carries s id OpSuccess (mschapID st) data ∧ verifySuccess data (authHex st) = Ok tt.

Definition history_ok (identity password : list Z) (steps : list ms_step) (m : MsMethod) : Prop :=
  ms_identity m = identity ∧ ms_password m = password ∧
  match ms_st m with
  | None => True
  | Some st => ∃ pre s mid, steps = pre ++ s :: mid ∧ challenged identity password s st ∧
      (expectingSuccess st = false → ∃ v, v ∈ mid ∧ proved v st)
  end.

Lemma onRequest_cases m id data rnd m' r : onRequest m id data rnd = (m', r) →
  ms_identity m' = ms_identity m ∧ ms_password m' = ms_password m ∧
  (ms_st m' = ms_st m ∨ ms_st m' = None ∨
   (∃ st mid l2 l3 auth rest peer nt, ms_st m' = Some st ∧ mschapID st = mid ∧ expectingSuccess st = true ∧
      data = OpChallenge :: mid :: l2 :: l3 :: ChallengeLen :: auth ++ rest ∧ len auth = ChallengeLen ∧ rnd = Ok peer ∧
      generateNTResponse peer auth (extractUsername (ms_identity m)) (ms_password m) = Ok nt ∧
      authHex st = generateAuthenticatorResponse peer auth (extractUsername (ms_identity m)) (ms_password m) nt ∧
      Ms_msk st = generateMSK (ms_password m) nt) ∨
   (∃ st l2 l3 body, ms_st m = Some st ∧ ms_st m' = Some (mkMsState (mschapID st) false (authHex st) (Ms_msk st)) ∧
      data = OpSuccess :: mschapID st :: l2 :: l3 :: body ∧ verifySuccess body (authHex st) = Ok tt)).
Proof.
  unfold onRequest. destruct (len data <? 4); [by intros [= <- <-]; auto|].
  destruct data as [|op [|mid [|l2 [|l3 data]]]]; try (by intros [= <- <-]; auto).
  destruct (_ || _); [by intros [= <- <-]; auto|].
  destruct (op =? OpChallenge) eqn:E1.
  { apply Z.eqb_eq in E1 as ->.
    destruct (match ms_st m with Some s => expectingSuccess s | None => false end); [by intros [= <- <-]; auto|].
    destruct (len data <=? _) eqn:El; [by intros [= <- <-]; auto|].
    match goal with |- match ?x with _ => _ end = _ → _ => destruct x as [[[peer nt] st]| | |] eqn:Em end;
      [|by intros [= <- <-]; auto..].
    intros [= <- <-]. split; [done|]. split; [done|]. right; right; left.
    apply bind_Ok in Em as (vs & Ev & Em). destruct (negb _) eqn:Ec; [done|].
    apply bind_Ok in Em as (auth & Ea & Em). apply bind_Ok in Em as (p & Ep & Em).
    apply wrap_Ok in Ep. apply bind_Ok in Em as (nt' & En & Em). injection Em as <- <- <-.
    destruct data as [|v data]; [done|]. apply idx_ok in Ev as [_ [= ->]].
    pose proof (slice_len _ _ _ _ Ea) as Hl. apply slice_drop in Ea. change (drop (Z.to_nat 1) (vs :: data)) with data in Ea.
    assert (vs = ChallengeLen) as -> by lia.
    eexists _, mid, l2, l3, auth, _, p, nt'. split; [done|]. split; [done|]. split; [done|].
    split; [do 5 f_equal; exact Ea|]. repeat split; try done. }
  destruct (op =? OpSuccess) eqn:E2.
  { apply Z.eqb_eq in E2 as ->. destruct (ms_st m) as [st|] eqn:Est; [|by intros [= <- <-]; rewrite Est; auto].
    destruct (negb (expectingSuccess st)); [by intros [= <- <-]; rewrite Est; auto|].
    destruct (negb (mschapID st =? mid)) eqn:Ei; [by intros [= <- <-]; rewrite Est; auto|].
    destruct (verifySuccess data (authHex st)) as [[]| | |] eqn:Ev; [|by intros [= <- <-]; rewrite Est; auto..].
    intros [= <- <-]. split; [done|]. split; [done|]. right; right; right.
    exists st, l2, l3, data. repeat split; try done. by replace mid with (mschapID st) by lia. }
  destruct (op =? OpFailure); [|by intros [= <- <-]; auto].
  destruct (ms_st m) as [st|] eqn:Est; [|by intros [= <- <-]; rewrite Est; auto].
  destruct (negb (expectingSuccess st)); [by intros [= <- <-]; rewrite Est; auto|].
  destruct (negb (mschapID st =? mid)); [by intros [= <- <-]; rewrite Est; auto|].
  destruct (parseFailureTokens data) as [[]| | |]; intros [= <- <-]; rewrite ?Est; auto.
Qed.

Lemma history_extend identity password steps s m m' :
  history_ok identity password steps m →
  ms_identity m' = ms_identity m → ms_password m' = ms_password m → ms_st m' = ms_st m ∨ ms_st m' = None →
  history_ok identity password (steps ++ [s]) m'.
Proof.
  intros (Hi & Hp & H) Ei Epw Hst. split; [by rewrite Ei|]. split; [by rewrite Epw|].
  destruct Hst as [->| ->]; [|done]. destruct (ms_st m) as [st|]; [|done].
  destruct H as (pre & c & mid & -> & Hc & Hv). exists pre, c, (mid ++ [s]).
  split; [by rewrite <- app_assoc|]. split; [done|]. intros He. destruct (Hv He) as (v & Hin & Hpr).
  exists v. split; [set_solver|done].
Qed.

Lemma handle_history identity password steps s m m' r :
  history_ok identity password steps m → handle_step m s = (m', r) →
  history_ok identity password (steps ++ [s]) m'.
Proof.
  intros Hh. unfold handle_step, ms_Handle.
  destruct (bool_decide _); [by intros [= <- <-]; eapply history_extend; eauto|].
  destruct (Parse (step_packet s)) as [pkt|e| |] eqn:Ep; [|by intros [= <- <-]; eapply history_extend; eauto..].
  destruct (Pkt_Code pkt =? CodeRequest) eqn:Ec.
  2:{ destruct (Pkt_Code pkt =? CodeSuccess).
      - destruct (ms_st m) as [st|] eqn:Est; [destruct (expectingSuccess st)|];
          intros [= <- <-]; eapply history_extend; eauto.
      - destruct (Pkt_Code pkt =? CodeFailure); intros [= <- <-]; eapply history_extend; eauto. }
  destruct (Pkt_Type pkt =? TypeIdentity); [by intros [= <- <-]; eapply history_extend; eauto|].
  destruct (Pkt_Type pkt =? TypeMSCHAPV2) eqn:Et; [|by intros [= <- <-]; eapply history_extend; eauto].
  set (m0 := set_phase m _). destruct (onRequest m0 _ _ _) as [m1 r1] eqn:Eo.
  intros E. assert (Hm' : ms_identity m' = ms_identity m1 ∧ ms_password m' = ms_password m1 ∧ ms_st m' = ms_st m1)
    by (destruct r1; by injection E as <- <-). clear E. destruct Hm' as (Hi' & Hp' & Hs').
  apply onRequest_cases in Eo as (Hi1 & Hp1 & Ho). pose proof Hh as (Hi & Hp & Hst).
  assert (Epkt : ∀ d, Pkt_Data pkt = d → Parse (step_packet s) = Ok (mkPacket CodeRequest (Identifier pkt) TypeMSCHAPV2 d)).
  { intros d <-. rewrite Ep. destruct pkt. simpl in *. do 2 f_equal; lia. }
  destruct Ho as [Ho|[Ho|[Ho|Ho]]]; [eapply history_extend; eauto; rewrite ?Hi', ?Hp', ?Hs'; auto..| |].
  - destruct Ho as (st & mid & l2 & l3 & auth & rest & peer & nt & E1 & E2 & E3 & E4 & E5 & E6 & E7 & E8 & E9).
    change (ms_identity m0) with (ms_identity m) in *. change (ms_password m0) with (ms_password m) in *.
    split; [by rewrite Hi', Hi1|]. split; [by rewrite Hp', Hp1|]. rewrite Hs', E1.
    exists steps, s, []. split; [done|]. split; [|by rewrite E3].
    rewrite <- Hi, <- Hp. exists (Identifier pkt), auth, rest, peer, nt. repeat split; try done.
    exists l2, l3. rewrite E2. by apply Epkt.
  - destruct Ho as (st & l2 & l3 & body & E1 & E2 & E3 & E4). change (ms_st m0) with (ms_st m) in E1.
    rewrite E1 in Hst. destruct Hst as (pre & c & mid & -> & Hc & _).
    split; [by rewrite Hi', Hi1|]. split; [by rewrite Hp', Hp1|]. rewrite Hs', E2.
    exists pre, c, (mid ++ [s]). split; [by rewrite <- app_assoc|]. split; [exact Hc|].
    intros _. exists s. split; [set_solver|]. exists (Identifier pkt), body. split; [|done].
    exists l2, l3. by apply Epkt.
Qed.

Lemma run_snoc m steps s : ms_run m (steps ++ [s]) =
  let '(m1, rs) := ms_run m steps in let '(m2, r) := handle_step m1 s in (m2, rs ++ [r]).
Proof.
  revert m. induction steps as [|x steps IH]; intros m; cbn [ms_run app]; [by destruct (handle_step m s)|].
  destruct (handle_step m x) as [m1 r]. rewrite IH. destruct (ms_run m1 steps) as [m2 rs].
  by destruct (handle_step m2 s).
Qed.

Lemma run_history m steps m' rs : history_ok (ms_identity m) (ms_password m) [] m →
  ms_run m steps = (m', rs) → history_ok (ms_identity m) (ms_password m) steps m'.
Proof.
  intros H0. revert m' rs. induction steps as [|s steps IH] using rev_ind; intros m' rs E; [by injection E as <- <-|].
  rewrite run_snoc in E. destruct (ms_run m steps) as [m1 rs1] eqn:E1.
  destruct (handle_step m1 s) as [m2 r] eqn:E2. injection E as <- <-.
  eapply handle_history; [|exact E2]. by eapply IH.
Qed.

Lemma handle_complete m s m' msk : handle_step m s = (m', Ok (finished msk)) →
  ∃ st, ms_st m = Some st ∧ expectingSuccess st = false ∧ msk = Ms_msk st ∧
    ∃ id data, Parse (step_packet s) = Ok (mkPacket CodeSuccess id 0 data).
Proof.
  unfold handle_step, ms_Handle. destruct (bool_decide _); [done|].
  destruct (Parse (step_packet s)) as [pkt|e| |] eqn:Ep; [|done..].
  destruct (Pkt_Code pkt =? CodeRequest) eqn:Ec.
  - destruct (Pkt_Type pkt =? TypeIdentity); [intros [= _ H]|].
    { by apply bind_Ok in H as (? & _ & [=]). }
    destruct (Pkt_Type pkt =? TypeMSCHAPV2).
    + destruct (onRequest _ _ _ _) as [m1 [resp| | |]]; done.
    + by intros [=].
  - destruct (Pkt_Code pkt =? CodeSuccess) eqn:Es; [|by destruct (Pkt_Code pkt =? CodeFailure)].
    destruct (ms_st m) as [st|]; [|done]. destruct (expectingSuccess st) eqn:Ee; [done|].
    intros [= _ <-]. exists st. repeat split; try done.
    exists (Identifier pkt), (Pkt_Data pkt). rewrite (Parse_untyped _ _ Ep) by lia.
    destruct pkt. simpl in *. do 2 f_equal. lia.
Qed.
End Machine.

(* ------------------------------------------------------------------ *)
(** ** Lemmas: an honest exchange *)

Section Honest.
Context {C : Crypto} {D : DES} {L : CryptoLaws} {DL : DESLaws}.

Lemma generateNTResponse_len peer auth user pw nt :
  generateNTResponse peer auth user pw = Ok nt → len nt = 24.
Proof.
  unfold generateNTResponse. set (c := challengeHash peer auth user).
  assert (Hc : len c = 8).
  { unfold c, challengeHash, sha1Sum. rewrite len_take, (digest_len HashSHA1). done. }
  intros H. unfold desEncryptBlock in H.
  repeat match type of H with mbind _ _ = _ => apply bind_Ok in H as (? & ? & H) end. injection H as <-.
  repeat match goal with E : (if negb (len ?k =? 8) then _ else _) = Ok _ |- _ =>
    let Ek := fresh "Ek" in destruct (negb (len k =? 8)) eqn:Ek; [done|]; injection E as <-;
    destruct (des_encrypt_block k c) as [? _]; [lia|done|] end.
  rewrite !len_app. lia.
Qed.

Lemma generateAuthenticatorResponse_ok peer auth user pw nt :
  Forall is_upper_hex (generateAuthenticatorResponse peer auth user pw nt) ∧
  len (generateAuthenticatorResponse peer auth user pw nt) = AuthStringHexLen.
Proof.
  unfold generateAuthenticatorResponse. set (d := sha1Sum _).
  destruct (hexEncode_upper d) as [H1 H2]; [apply digest_bytes|]. rewrite ToUpper_upper by done.
  split; [done|]. rewrite H2. unfold d, sha1Sum. by rewrite digest_len.
Qed.

Lemma buildResponse_ok id mid peer nt identity : is_byte id → len peer = 16 → len nt = 24 → len identity <= 65000 →
  buildResponse id mid peer nt identity
  = Ok ([CodeResponse; id] ++ putUint16 (59 + len identity) ++ [TypeMSCHAPV2; OpResponse; mid] ++
        putUint16 (54 + len identity) ++ [responseValueSize] ++ peer ++ zeros 8 ++ nt ++ [0] ++ identity).
Proof.
  intros Hi Hp Hn Hl. pose proof (len_nonneg identity). unfold buildResponse.
  set (tl := [responseValueSize] ++ peer ++ zeros 8 ++ nt ++ [0] ++ identity).
  change ([OpResponse; mid; 0; 0; responseValueSize] ++ peer ++ zeros 8 ++ nt ++ [0] ++ identity)
    with ([OpResponse; mid] ++ [0; 0] ++ tl).
  assert (Ht : len tl = 50 + len identity).
  { unfold tl. rewrite !len_app, Hp, Hn. change (len [responseValueSize]) with 1. change (len (zeros 8)) with 8.
    change (len [0]) with 1. lia. }
  assert (Hb : len ([OpResponse; mid] ++ [0; 0] ++ tl) = 54 + len identity) by (rewrite !len_app, Ht; change (len [OpResponse; mid]) with 2; change (len [0; 0]) with 2; lia).
  rewrite Hb, splice_app by done.
  change [u8 (Z.shiftr (54 + len identity) 8); u8 (54 + len identity)] with (putUint16 (54 + len identity)).
  destruct (BuildRequest_response id TypeMSCHAPV2 ([OpResponse; mid] ++ putUint16 (54 + len identity) ++ tl))
    as (b & -> & _ & ->); [done|done|rewrite !len_app, Ht, len_putUint16; change (len [OpResponse; mid]) with 2; lia|].
  rewrite !len_app, Ht, len_putUint16. change (len [OpResponse; mid]) with 2.
  by replace (5 + (2 + (2 + (50 + len identity)))) with (59 + len identity) by lia.
Qed.

(** The server's packets. *)
Definition server_request (id opcode mid : Z) (data : list Z) : res (list Z) :=
  BuildRequest CodeRequest id TypeMSCHAPV2 ([opcode; mid] ++ putUint16 (4 + len data) ++ data).

Lemma server_request_parse id opcode mid data : len data <= 65000 →
  ∃ b, server_request id opcode mid data = Ok b ∧
    Parse b = Ok (mkPacket CodeRequest id TypeMSCHAPV2 ([opcode; mid] ++ putUint16 (4 + len data) ++ data)).
Proof.
  intros Hl. pose proof (len_nonneg data). apply Parse_request; [done|].
  rewrite !len_app, len_putUint16. change (len [opcode; mid]) with 2. lia.
Qed.

(** The MSCHAPv2 length field of such a request is accepted. *)
Lemma declared_ok opcode mid data : len data <= 65000 →
  let payload := [opcode; mid] ++ putUint16 (4 + len data) ++ data in
  len payload = 4 + len data ∧
  Z.lor (Z.shiftl (u8 (Z.shiftr (4 + len data) 8)) 8) (u8 (4 + len data)) = 4 + len data.
Proof.
  intros Hl payload. pose proof (len_nonneg data). split.
  - unfold payload. rewrite !len_app, len_putUint16. change (len [opcode; mid]) with 2. lia.
  - pose proof (beUint16_put' (4 + len data) ltac:(lia)) as H'. unfold beUint16, putUint16 in H'. cbn in H'.
    by injection H'.
Qed.

Lemma onRequest_challenge m id mid auth name peer : len auth = 16 → len peer = 16 → name ≠ [] → len name <= 60000 →
  match ms_st m with Some s => expectingSuccess s = false | None => True end →
  ∃ nt, generateNTResponse peer auth (extractUsername (ms_identity m)) (ms_password m) = Ok nt ∧
    let data := [ChallengeLen] ++ auth ++ name in
    onRequest m id ([OpChallenge; mid] ++ putUint16 (4 + len data) ++ data) (Ok peer)
    = (set_state m (Some (mkMsState mid true
         (generateAuthenticatorResponse peer auth (extractUsername (ms_identity m)) (ms_password m) nt)
         (generateMSK (ms_password m) nt))),
       buildResponse id mid peer nt (ms_identity m)).
Proof.
  intros Ha Hp Hne Hl Hst. destruct (generateNTResponse_ok peer auth (extractUsername (ms_identity m)) (ms_password m)) as [nt En].
  exists nt. split; [done|]. cbv zeta. set (data := [ChallengeLen] ++ auth ++ name).
  assert (Hd : len data = 17 + len name) by (unfold data; rewrite !len_app, Ha; change (len [ChallengeLen]) with 1; lia).
  assert (Hn1 : 0 < len name) by (destruct name; [done|unfold len; simpl; lia]).
  destruct (declared_ok OpChallenge mid data) as [Hpl Hdl]; [lia|].
  unfold onRequest. change ([OpChallenge; mid] ++ putUint16 (4 + len data) ++ data)
    with (OpChallenge :: mid :: u8 (Z.shiftr (4 + len data) 8) :: u8 (4 + len data) :: data) in *.
  rewrite Hpl, (proj2 (Z.ltb_ge _ _)) by lia. rewrite Hdl, (proj2 (Z.ltb_ge _ _)) by lia.
  rewrite Z.eqb_refl. cbn [negb orb Z.eqb Pos.eqb OpChallenge].
  assert (E0 : match ms_st m with Some s => expectingSuccess s | None => false end = false) by (by destruct (ms_st m)).
  rewrite E0, (proj2 (Z.leb_gt _ _)) by (unfold ChallengeLen; lia).
  change (data.[0]) with (Ok ChallengeLen). run. cbn [negb Z.eqb ChallengeLen Pos.eqb].
  assert (E1 : data.[1, 1 + ChallengeLen] = Ok auth) by (unfold data; apply slice_mid; [done|by rewrite Ha]).
  rewrite E1. run. cbn [wrap]. run. by rewrite En.
Qed.

Lemma onRequest_success m id st data : ms_st m = Some st → expectingSuccess st = true → len data <= 65000 →
  verifySuccess data (authHex st) = Ok tt →
  onRequest m id ([OpSuccess; mschapID st] ++ putUint16 (4 + len data) ++ data) Panic
  = (set_state m (Some (mkMsState (mschapID st) false (authHex st) (Ms_msk st))), buildSuccess id).
Proof.
  intros Hst He Hl Hv. pose proof (len_nonneg data).
  destruct (declared_ok OpSuccess (mschapID st) data) as [Hpl Hdl]; [lia|].
  unfold onRequest. change ([OpSuccess; mschapID st] ++ putUint16 (4 + len data) ++ data)
    with (OpSuccess :: mschapID st :: u8 (Z.shiftr (4 + len data) 8) :: u8 (4 + len data) :: data) in *.
  rewrite Hpl, (proj2 (Z.ltb_ge _ _)) by lia. rewrite Hdl, (proj2 (Z.ltb_ge _ _)) by lia.
  rewrite Z.eqb_refl. cbn [negb orb Z.eqb Pos.eqb OpChallenge OpSuccess].
  by rewrite Hst, He, Z.eqb_refl, Hv.
Qed.

Lemma failure_tokens_fine ts e r c : fine (failure_tokens ts e r c).
Proof.
  revert e r c. induction ts as [|t ts IH]; intros e r c; [done|]. cbn [failure_tokens].
  destruct (Cut t 61) as [[k v]|]; [|done].
  repeat match goal with |- fine (if ?b then _ else _) => destruct b end; first [exact I|apply IH].
Qed.

Lemma verifySuccess_fine d e : fine (verifySuccess d e).
Proof. unfold verifySuccess. by repeat case_match. Qed.

Lemma parseFailureTokens_fine d : fine (parseFailureTokens d).
Proof.
  unfold parseFailureTokens. destruct (_ <? _); [done|]. destruct (negb _); [done|].
  apply fine_bind; [apply failure_tokens_fine|]. intros [[e r] c] _. by repeat case_match.
Qed.

Lemma onRequest_fine m id data rnd : is_byte id → len (ms_identity m) <= 65000 →
  match rnd with Ok p => len p = 16 | Err _ => True | _ => False end → fine (onRequest m id data rnd).2.
Proof.
  intros Hid Hi Hr. unfold onRequest. destruct (len data <? 4) eqn:E4; [done|].
  destruct data as [|op [|mid [|l2 [|l3 data]]]]; try done.
  destruct (_ || _); [done|]. destruct (op =? OpChallenge).
  { destruct (match ms_st m with Some s => expectingSuccess s | None => false end); [done|].
    destruct (len data <=? _) eqn:El; [done|]. unfold ChallengeLen in *.
    destruct (idx_in_range data 0) as [v ->]; [lia|]. run. destruct (negb (v =? 16)); [done|].
    destruct (slice data 1 (1 + 16)) as [auth| | |] eqn:Ea;
      [|pose proof (slice_fine data 1 (1 + 16) ltac:(lia) ltac:(lia) ltac:(lia)) as Hf; by rewrite Ea in Hf..]. run.
    destruct rnd as [peer|e| |]; [|exact I|destruct Hr..]. cbn [wrap]. run.
    destruct (generateNTResponse_ok peer auth (extractUsername (ms_identity m)) (ms_password m)) as [nt En].
    rewrite En. run. cbn [snd]. by rewrite (buildResponse_ok id mid peer nt) by (done || by eapply generateNTResponse_len). }
  destruct (op =? OpSuccess).
  { destruct (ms_st m) as [st|]; [|done]. destruct (negb _); [done|]. destruct (negb _); [done|].
    pose proof (verifySuccess_fine data (authHex st)). by destruct (verifySuccess data (authHex st)). }
  destruct (op =? OpFailure); [|done].
  destruct (ms_st m) as [st|]; [|done]. destruct (negb _); [done|]. destruct (negb _); [done|].
  pose proof (parseFailureTokens_fine data). by destruct (parseFailureTokens data).
Qed.

Lemma handle_request m p r rnd id data m' resp : ms_phase m ≠ MsFailed →
  Parse p = Ok (mkPacket CodeRequest id TypeMSCHAPV2 data) →
  onRequest (set_phase m (if ms_st m is Some _ then MsVerifying else MsChallenging)) id data rnd = (m', Ok resp) →
  handle_step m (mkStep p r rnd) = (m', Ok (send resp)).
Proof.
  intros Hf Hp Ho. unfold handle_step, ms_Handle. cbn [step_packet step_random]. rewrite bool_decide_eq_false_2 by done.
  rewrite Hp. cbn [Pkt_Code Pkt_Type Pkt_Data Identifier Z.eqb Pos.eqb CodeRequest TypeIdentity TypeMSCHAPV2].
  by rewrite Ho.
Qed.
End Honest.

(* ------------------------------------------------------------------ *)
(** ** Properties *)

(** MD4 as the code computes it - full blocks first, then one or two
    padded tail blocks - is RFC 1320's digest: the message padded to whole
    blocks with the bit 1, zeros and the 64-bit length, folded block by block;
    the digest has 16 bytes. *)
Theorem md4_reference (m : list Z) : md4 m = md4_ref m ∧ len (md4 m) = 16 ∧ bytes (md4 m).
Proof. rewrite md4_equals_ref. split; [done|]. apply md4_output_ok. Qed.


(** An honest exchange completes: a server that knows the password sends
    a challenge, then the authenticator response of the peer's answer, then EAP
    Success. The peer answers with the RFC 2759 response packet and the success
    acknowledgement and completes with the RFC 3079 MSK of the exchange. *)
Theorem mschapv2_completes {C : Crypto} {D : DES} {L : CryptoLaws} {DL : DESLaws}
    (identity password peer auth name note : list Z) (id1 id2 id3 mid : Z) :
  len identity <= 65000 → len peer = 16 → len auth = 16 → name ≠ [] → len name <= 60000 →
  Forall is_ascii note → len note <= 60000 → is_byte id1 → is_byte id2 →
  ∃ nt p1 p2, generateNTResponse peer auth (extractUsername identity) password = Ok nt ∧
    server_request id1 OpChallenge mid ([ChallengeLen] ++ auth ++ name) = Ok p1 ∧
    server_request id2 OpSuccess mid
      (ascii_bytes "S=" ++ generateAuthenticatorResponse peer auth (extractUsername identity) password nt
       ++ 32 :: note) = Ok p2 ∧
    (ms_run (ms_New identity password)
       [mkStep p1 1 (Ok peer); mkStep p2 2 Panic; mkStep [CodeSuccess; id3; 0; 4] 3 Panic]).2
    = [Ok (send ([CodeResponse; id1] ++ putUint16 (59 + len identity) ++ [TypeMSCHAPV2; OpResponse; mid] ++
             putUint16 (54 + len identity) ++ [responseValueSize] ++ peer ++ zeros 8 ++ nt ++ [0] ++ identity));
       Ok (send [CodeResponse; id2; 0; 6; TypeMSCHAPV2; OpSuccess]);
       Ok (finished (generateMSK password nt))].
Proof.
  intros Hi Hp Ha Hn Hnl Hnote Hnotel Hb1 Hb2.
  destruct (onRequest_challenge (set_phase (ms_New identity password) MsChallenging) id1 mid auth name peer)
    as (nt & En & Ec); try done.
  pose proof (generateNTResponse_len _ _ _ _ _ En) as Hnt.
  destruct (generateAuthenticatorResponse_ok peer auth (extractUsername identity) password nt) as [Hx Hxl].
  set (sig := generateAuthenticatorResponse peer auth (extractUsername identity) password nt) in *.
  destruct (server_request_parse id1 OpChallenge mid ([ChallengeLen] ++ auth ++ name)) as (p1 & E1 & P1).
  { rewrite !len_app, Ha. change (len [ChallengeLen]) with 1. lia. }
  set (data := ascii_bytes "S=" ++ sig ++ 32 :: note) in *.
  assert (Hd : len data <= 65000).
  { unfold data. rewrite !len_app, Hxl. change (len (32 :: note)) with (len ([32] ++ note)). rewrite len_app.
    unfold AuthStringHexLen. change (len [32]) with 1. change (len (ascii_bytes "S=")) with 2. lia. }
  destruct (server_request_parse id2 OpSuccess mid data) as (p2 & E2 & P2); [done|].
  exists nt, p1, p2. split; [done|]. split; [done|]. split; [done|].
  pose proof (buildResponse_ok id1 mid peer nt identity Hb1 Hp Hnt Hi) as Hresp.
  change (buildResponse id1 mid peer nt (ms_identity (set_phase (ms_New identity password) MsChallenging)))
    with (buildResponse id1 mid peer nt identity) in Ec. rewrite Hresp in Ec.
  set (st := mkMsState mid true sig (generateMSK password nt)).
  set (m1 := set_state (set_phase (ms_New identity password) MsChallenging) (Some st)).
  eassert (H1 : handle_step (ms_New identity password) (mkStep p1 1 (Ok peer)) = (m1, Ok (send _)))
    by (eapply handle_request; [done|exact P1|exact Ec]).
  assert (Ev : verifySuccess data (authHex st) = Ok tt) by (by apply verifySuccess_accepts).
  pose proof (onRequest_success (set_phase m1 MsVerifying) id2 st data eq_refl eq_refl Hd Ev) as Es.
  assert (Eb : buildSuccess id2 = Ok [CodeResponse; id2; 0; 6; TypeMSCHAPV2; OpSuccess]) by done.
  rewrite Eb in Es.
  eassert (H2 : handle_step m1 (mkStep p2 2 Panic) = (_, Ok (send _)))
    by (eapply handle_request; [done|exact P2|exact Es]).
  cbn [ms_run]. rewrite H1, H2. reflexivity.
Qed.

(** The bytes [rand.Read] delivers, when it does. *)
Definition random_16 (s : ms_step) : Prop :=
  match step_random s with Ok p => len p = 16 | Err _ => True | _ => False end.

(** The method fails closed: for every packet [Handle] returns (no panic
    and no endless loop, for identities up to 65000 bytes); every error puts the
    machine in the failed phase, and in the failed phase every packet is
    refused and changes nothing. *)
Theorem mschapv2_fails_closed {C : Crypto} {D : DES} {L : CryptoLaws} {DL : DESLaws} (m : MsMethod) (s : ms_step) :
  len (ms_identity m) <= 65000 → random_16 s → bytes (step_packet s) →
  fine (handle_step m s).2 ∧
  (is_ok (handle_step m s).2 = false → ms_phase (handle_step m s).1 = MsFailed) ∧
  (ms_phase m = MsFailed → handle_step m s = (m, Err "mschapv2 method is in failure state")).
Proof.
  intros Hi Hr Hb. split; [|split].
  - unfold handle_step, ms_Handle. destruct (bool_decide _); [done|]. pose proof (Parse_fine (step_packet s)) as Hp.
    destruct (Parse (step_packet s)) as [pkt| | |] eqn:Ep; try done. pose proof (Parse_id _ _ Hb Ep) as Hid.
    destruct (Pkt_Code pkt =? CodeRequest).
    + destruct (Pkt_Type pkt =? TypeIdentity).
      { cbn [snd]. destruct (BuildRequest_response (Identifier pkt) TypeIdentity (ms_identity m)) as (b & -> & _); [done|done|lia|done]. }
      destruct (Pkt_Type pkt =? TypeMSCHAPV2); [|done]. set (m0 := set_phase m _).
      pose proof (onRequest_fine m0 (Identifier pkt) (Pkt_Data pkt) (step_random s) Hid Hi Hr) as Hf.
      by destruct (onRequest m0 _ _ _) as [m1 [| | |]].
    + repeat case_match; done.
  - unfold handle_step, ms_Handle. case_bool_decide as Hf; [done|].
    destruct (Parse (step_packet s)) as [pkt| | |] eqn:Ep; try done; [|by pose proof (Parse_fine (step_packet s)) as Hp; rewrite Ep in Hp..].
    destruct (Pkt_Code pkt =? CodeRequest).
    + destruct (Pkt_Type pkt =? TypeIdentity).
      { cbn [snd]. destruct (BuildRequest_response (Identifier pkt) TypeIdentity (ms_identity m)) as (b & -> & _);
          [by eapply Parse_id|done|lia|done]. }
      destruct (Pkt_Type pkt =? TypeMSCHAPV2); [|done]. set (m0 := set_phase m _).
      pose proof (onRequest_fine m0 (Identifier pkt) (Pkt_Data pkt) (step_random s) (Parse_id _ _ Hb Ep) Hi Hr) as Hfine.
      by destruct (onRequest m0 _ _ _) as [m1 [| | |]].
    + destruct (Pkt_Code pkt =? CodeSuccess); [|by destruct (Pkt_Code pkt =? CodeFailure)].
      destruct (ms_st m) as [st|]; [|done]. by destruct (expectingSuccess st).
  - intros Hf. unfold handle_step, ms_Handle. by rewrite bool_decide_eq_true_2.
Qed.

(* ------------------------------------------------------------------ *)
(** ** Witnesses *)

Definition sample_des : DES := {| des_encrypt k b := u8 <$> zip_with Z.lxor k b |}.

#[local] Instance sample_des_laws : DESLaws (H := sample_des).
Proof.
  constructor. intros k b Hk Hb. simpl. split.
  - unfold len in *. rewrite length_fmap, length_zip_with. lia.
  - apply Forall_fmap, Forall_forall. intros x _. apply u8_byte.
Qed.

Definition sample_identity : list Z := ascii_bytes "DOM\user".
Definition sample_password : list Z := ascii_bytes "clientPass".
Definition sample_peer : list Z := replicate 16 33.
Definition sample_auth : list Z := replicate 16 91.

Definition ok_bytes (r : res (list Z)) : list Z := match r with Ok b => b | _ => [] end.

Definition sample_nt : list Z := ok_bytes (generateNTResponse (C := xor_crypto) (D := sample_des)
  sample_peer sample_auth (extractUsername sample_identity) sample_password).
Definition sample_step1 : ms_step :=
  mkStep (ok_bytes (server_request 7 OpChallenge 5 ([ChallengeLen] ++ sample_auth ++ [115]))) 1 (Ok sample_peer).
Definition sample_step2 : ms_step :=
  mkStep (ok_bytes (server_request 8 OpSuccess 5 (ascii_bytes "S=" ++
    generateAuthenticatorResponse (C := xor_crypto) sample_peer sample_auth (extractUsername sample_identity)
      sample_password sample_nt ++ 32 :: ascii_bytes "M=OK"))) 2 Panic.

Lemma mschapv2_completes_witness : ∃ nt p1 p2 r1 r2,
  (ms_run (C := xor_crypto) (D := sample_des) (ms_New sample_identity sample_password)
     [mkStep p1 1 (Ok sample_peer); mkStep p2 2 Panic; mkStep [CodeSuccess; 9; 0; 4] 3 Panic]).2
  = [Ok (send r1); Ok (send r2); Ok (finished (generateMSK (C := xor_crypto) sample_password nt))].
Proof.
  destruct (mschapv2_completes (C := xor_crypto) (D := sample_des) (L := xor_crypto_laws) sample_identity
    sample_password sample_peer sample_auth [115] (ascii_bytes "M=OK") 7 8 9 5)
    as (nt & p1 & p2 & _ & _ & _ & E); try done; [by repeat constructor|].
  eexists nt, p1, p2, _, _. exact E.
Defined.


Lemma mschapv2_fails_closed_witness :
  fine (handle_step (C := xor_crypto) (D := sample_des) (ms_New sample_identity sample_password)
    (mkStep [1; 7; 0; 9; 26; 1; 2; 0; 4] 1 (Ok sample_peer))).2.
Proof.
  apply (mschapv2_fails_closed (C := xor_crypto) (D := sample_des) (L := xor_crypto_laws)
    (ms_New sample_identity sample_password) (mkStep [1; 7; 0; 9; 26; 1; 2; 0; 4] 1 (Ok sample_peer)));
    [done|done|by apply (bool_decide_unpack _)].
Defined.
