(* ===== verification/Peap.v ===== *)
(** * PEAP (src/eap/peap/fragment.go, avp.go, peap.go, tls.go; src/eap/methods)

    Fragmentation of TLS messages, the MS-AVP mapping of tunneled EAP, the TLS
    1.2 key export, and the PEAP peer state machine with its inner MSCHAPv2
    method. The TLS tunnel is an interface (class [Engine]): its records come
    from a third-party TLS stack, driven by goroutines. *)

From S2P Require Import Prelude Suite Crypto Eap Mschap.

(* ------------------------------------------------------------------ *)
(** ** fragment.go *)

Definition FlagLengthIncluded : Z := 128.
Definition FlagMoreFragments : Z := 64.
Definition FlagStart : Z := 32.
Definition FlagVersionMask : Z := 7.
Definition SupportedVersion : Z := 0.

(** A nil payload is the empty list: [Pending] does not tell them apart. *)
Record OutboundFragmenter := mkOutbound {
  Out_payload : list Z; Out_offset : Z; Out_chunk : Z; Out_includeLength : bool }.

Definition NewOutboundFragmenter (chunk : Z) (includeLength : bool) : option OutboundFragmenter :=
  if chunk <=? 0 then None else Some (mkOutbound [] 0 chunk includeLength).

Definition Pending (f : OutboundFragmenter) : bool := Out_offset f <? len (Out_payload f).

(** The fragmenter left behind, and the packet with its [done] flag. *)
Definition out_Start (f : OutboundFragmenter) (payload : list Z) (baseFlags : Z) :
    OutboundFragmenter * res (list Z * bool) :=
  if Pending f then (f, Err "peap: outbound fragmenter already active")
  else if Out_chunk f <=? 0 then (f, Err "peap: fragment chunk size must be > 0")
  else
  let more := Out_chunk f <? len payload in
  let flags := if more || Out_includeLength f then Z.lor baseFlags FlagLengthIncluded else baseFlags in
  let flags := if more then Z.lor flags FlagMoreFragments else flags in
  let total := len payload in
  let lenField := if more || Out_includeLength f
                  then [u8 (Z.shiftr total 24); u8 (Z.shiftr total 16); u8 (Z.shiftr total 8); u8 total] else [] in
  let end_ := if Out_chunk f <? total then Out_chunk f else total in
  match payload.[0, end_] with
  | Ok body =>
      let pkt := [flags] ++ lenField ++ body in
      if negb more then (mkOutbound [] 0 (Out_chunk f) (Out_includeLength f), Ok (pkt, true))
      else (mkOutbound payload end_ (Out_chunk f) (Out_includeLength f), Ok (pkt, false))
  | _ => (f, Panic)
  end.

Definition out_Next (f : OutboundFragmenter) : OutboundFragmenter * res (list Z * bool) :=
  if negb (Pending f) then (f, Err "peap: no outbound peap fragments pending")
  else
  let start := Out_offset f in
  let end_ := if start + Out_chunk f <? len (Out_payload f) then start + Out_chunk f else len (Out_payload f) in
  match (Out_payload f).[start, end_] with
  | Ok chunk =>
      let more := end_ <? len (Out_payload f) in
      let pkt := [if more then FlagMoreFragments else 0] ++ chunk in
      if negb more then (mkOutbound [] 0 (Out_chunk f) (Out_includeLength f), Ok (pkt, true))
      else (mkOutbound (Out_payload f) end_ (Out_chunk f) (Out_includeLength f), Ok (pkt, false))
  | _ => (f, Panic)
  end.

Record InboundFragmenter := mkInbound { In_parts : list (list Z); In_total : Z; In_expected : Z }.

Definition NewInboundFragmenter : InboundFragmenter := mkInbound [] 0 (-1).
Definition in_Reset (f : InboundFragmenter) : InboundFragmenter := mkInbound [] 0 (-1).

(** [Some whole] when the message is complete. *)
Definition in_Push (f : InboundFragmenter) (flags lengthIncluded : Z) (data : list Z) :
    InboundFragmenter * res (option (list Z)) :=
  let collect (f : InboundFragmenter) :=
    let f := mkInbound (In_parts f ++ [data]) (In_total f + len data) (In_expected f) in
    if In_expected f <? In_total f then (f, Err "peap: fragment total %d exceeds declared length %d")
    else if negb (Z.land flags FlagMoreFragments =? 0) then (f, Ok None)
    else if negb (In_total f =? In_expected f) then (f, Err "peap: fragment total %d != declared length %d")
    else (mkInbound [] 0 (-1), Ok (Some (concat (In_parts f)))) in
  if negb (Z.land flags FlagLengthIncluded =? 0) then
    if negb (In_expected f =? -1) then (f, Err "peap: unexpected L flag on continuation fragment")
    else if lengthIncluded =? 0 then (f, Err "peap: L flag set but total length is zero")
    else collect (mkInbound [] 0 lengthIncluded)
  else if In_expected f =? -1 then
    if negb (Z.land flags FlagMoreFragments =? 0) then
      (f, Err "peap: fragmented packet missing L on first fragment")
    else (f, Ok (Some data))
  else collect f.

(* ------------------------------------------------------------------ *)
(** ** avp.go *)

Definition msAVPSuccess : list Z := [128; 3; 0; 2; 0; 1].
Definition msAVPFailure : list Z := [128; 3; 0; 2; 0; 2].

Definition isMSAVP (tlsData : list Z) : res (option (list Z)) :=
  if negb (len tlsData =? 11) then Ok None
  else
  t ← tlsData.[4];
  if negb (t =? TypeMSTLV) then Ok None
  else payload ← slice_from tlsData 5; Ok (Some payload).

Definition completeEAPPacket (b : list Z) : res bool :=
  if len b <? 4 then Ok false
  else hi ← b.[2]; lo ← b.[3]; Ok (Z.lor (Z.shiftl hi 8) lo =? len b).

Definition completeInnerRequest (b : list Z) : res bool :=
  c ← completeEAPPacket b;
  if negb c then Ok false else code ← b.[0]; Ok (code =? CodeRequest).

Definition DecodeInnerRequest (tlsData : list Z) (eapID : Z) : res (list Z) :=
  isComplete ← (if 4 <? len tlsData then completeInnerRequest tlsData else Ok false);
  if (isComplete : bool) then
    t ← tlsData.[4];
    if (len tlsData =? 5) && (t =? TypeIdentity) then Ok tlsData
    else
    avp ← isMSAVP tlsData;
    match avp with
    | Some payload =>
        id ← tlsData.[1];
        if bool_decide (payload = msAVPSuccess) then Ok [CodeSuccess; id; 0; 4]
        else if bool_decide (payload = msAVPFailure) then Ok [CodeFailure; id; 0; 4]
        else Err "peap: unknown ms-avp message"
    | None => Ok tlsData
    end
  else
  let total := 4 + len tlsData in
  if 65535 <? total then Err "peap: inner eap packet too large: %d"
  else Ok ([CodeRequest; eapID; u8 (Z.shiftr total 8); u8 total] ++ tlsData).

Definition msAVPPayloadFor (code : Z) : list Z := if code =? CodeSuccess then msAVPSuccess else msAVPFailure.

Definition EncodeInnerResponse (inner : list Z) : res (list Z) :=
  c ← completeEAPPacket inner;
  if negb c then Err "peap: inner eap packet too short or length mismatch"
  else
  code ← inner.[0];
  id ← inner.[1];
  if (code =? CodeSuccess) || (code =? CodeFailure) then
    Ok ([CodeResponse; id; 0; 11; TypeMSTLV] ++ msAVPPayloadFor code)
  else if len inner <? 5 then Err "peap: inner eap packet missing type"
  else slice_from inner 4.

(* ------------------------------------------------------------------ *)
(** ** tls.go *)

Record Options := mkOptions {
  Opt_FragmentSize : Z; Opt_MaxMessageCount : Z; Opt_IncludeLength : bool;
  Opt_StrongswanCompatible : bool; Opt_InsecureSkipVerify : bool }.

Inductive Step := StepNeedMoreData | StepOutbound | StepEstablished.

(** The TLS tunnel as the state machine uses it. *)
Class Engine (E : Type) := {
  NewEngine : list Z → Options → res E;
  eng_Start : E → E * res (list Z);
  eng_Feed : E → list Z → E * res (list Z * Step);
  eng_Established : E → bool;
  eng_VerifyServerIdentity : E → list Z → res unit;
  eng_Protect : E → list Z → E * res (list Z);
  eng_Unprotect : E → list Z → E * res (list Z);
  eng_ExportMSK : E → res (list Z);
  eng_Close : E → E * res unit }.

(** RFC 5246's P_hash: the loop runs until [length] bytes are out; every round
    adds a whole digest. *)
Fixpoint p_hash_loop {C : Crypto} (fuel : nat) (h : HashKind) (secret seed a out : list Z) (length : Z) : res (list Z) :=
  match fuel with
  | O => Hang
  | S fuel =>
      if len out <? length then
        p_hash_loop fuel h secret seed (hmac h secret a) (out ++ hmac h secret (a ++ seed)) length
      else out.[0, length]
  end.

(** [sha384] is [strings.Contains(suite name, "SHA384")]. *)
Definition tls12PRF {C : Crypto} (sha384 : bool) (secret label seed : list Z) (length : Z) : res (list Z) :=
  let h := if sha384 then HashSHA384 else HashSHA256 in
  let seedWithLabel := label ++ seed in
  p_hash_loop (S (Z.to_nat length)) h secret seedWithLabel (hmac h secret seedWithLabel) [] length.

(* ------------------------------------------------------------------ *)
(** ** peap.go *)

Inductive PeapPhase :=
  | PeapIdle | PeapOuterIdentity | PeapTLSTunnel | PeapInnerMethod
  | PeapAwaitingOuterSuccess | PeapAwaitingOuterFailure | PeapCompleted | PeapFailed.
#[global] Instance PeapPhase_eq_dec : EqDecision PeapPhase.
Proof. solve_decision. Defined.

Record peapRequest := mkPeapRequest {
  pr_identifier : Z; pr_flags : Z; pr_hasLength : bool; pr_length : Z; pr_data : list Z }.

Definition parsePeapRequest (identifier : Z) (payload : list Z) : res peapRequest :=
  if len payload <? 1 then Err "peap request missing flags"
  else
  flags ← payload.[0];
  if negb (Z.land flags FlagVersionMask =? SupportedVersion) then Err "unsupported peap version %d"
  else
  rest ← slice_from payload 1;
  if negb (Z.land flags FlagLengthIncluded =? 0) then
    if len rest <? 4 then Err "peap request missing TLS message length"
    else
      lf ← rest.[0, 4]; l ← beUint32 lf;
      data ← slice_from rest 4;
      Ok (mkPeapRequest identifier flags true l data)
  else Ok (mkPeapRequest identifier flags false 0 rest).

Definition isAckRequest (req : peapRequest) : bool :=
  (len (pr_data req) =? 0) && negb (pr_hasLength req) &&
  (Z.land (pr_flags req) (Z.lor (Z.lor FlagStart FlagMoreFragments) FlagLengthIncluded) =? 0).

Definition encodeEmptyAck (id : Z) : res (list Z) := BuildRequest CodeResponse id TypePEAP [0].

Definition encodePeapResponse (id : Z) (frag : list Z) : res (list Z) :=
  let totalLen := 5 + len frag in
  if 65535 <? totalLen then Err "peap packet too large"
  else Ok ([CodeResponse; id; u8 (Z.shiftr totalLen 8); u8 totalLen; TypePEAP] ++ frag).

Section Peap.
Context {C : Crypto} {D : DES} {E : Type} {IE : Engine E}.

Record PeapMethod := mkPeapMethod {
  pm_serverName : list Z;
  pm_identity : list Z;
  pm_password : list Z;
  pm_opts : Options;
  pm_inner : option MsMethod;
  pm_tls : option E;
  pm_phase : PeapPhase;
  pm_round : Z;
  pm_out : option OutboundFragmenter;
  pm_in : option InboundFragmenter;
  pm_messages : Z;
  pm_msk : option (list Z) }.
#[global] Instance eta_PeapMethod : Eta PeapMethod := λ m,
  mkPeapMethod (pm_serverName m) (pm_identity m) (pm_password m) (pm_opts m) (pm_inner m) (pm_tls m)
    (pm_phase m) (pm_round m) (pm_out m) (pm_in m) (pm_messages m) (pm_msk m).

Definition peap_New (serverName identity password : list Z) (opts : Options) : PeapMethod :=
  mkPeapMethod serverName identity password opts None None PeapIdle 0 None None 0 None.

(** A method call on the engine; a nil engine is a nil dereference. *)
Definition on_engine {A} (m : PeapMethod) (op : E → E * res A) : PeapMethod * res A :=
  match pm_tls m with
  | Some e => let '(e, r) := op e in (m <| pm_tls := Some e |>, r)
  | None => (m, Panic)
  end.

(** Sequencing of steps that change the method and may fail. *)
Definition andThen {A B} (x : PeapMethod * res A) (k : PeapMethod → A → PeapMethod * res B) : PeapMethod * res B :=
  match x with
  | (m, Ok a) => k m a
  | (m, Err e) => (m, Err e)
  | (m, Panic) => (m, Panic)
  | (m, Hang) => (m, Hang)
  end.

Definition peap_reset (m : PeapMethod) : PeapMethod * res unit :=
  let m := m <| pm_tls := None |> in
  andThen (m, NewEngine (pm_serverName m) (pm_opts m)) (λ m e,
  let m := m <| pm_inner := Some (ms_New (pm_identity m) (pm_password m)) |> <| pm_tls := Some e |>
             <| pm_phase := PeapOuterIdentity |> <| pm_round := 0 |>
             <| pm_out := NewOutboundFragmenter (Opt_FragmentSize (pm_opts m)) (Opt_IncludeLength (pm_opts m)) |> in
  match pm_out m with
  | None => (m, Err "peap fragment_size must be > 0")
  | Some _ => (m <| pm_in := Some NewInboundFragmenter |> <| pm_messages := 0 |> <| pm_msk := None |>, Ok tt)
  end).

Definition peap_Initialize (m : PeapMethod) : PeapMethod * res unit :=
  if bool_decide (pm_identity m = []) then (m, Err "peap identity is empty")
  else if bool_decide (pm_password m = []) then (m, Err "peap password is empty")
  else if bool_decide (pm_serverName m = []) then (m, Err "peap aaa_identity is empty")
  else if Opt_FragmentSize (pm_opts m) <=? 0 then (m, Err "peap fragment_size must be > 0")
  else peap_reset m.

Definition peap_Close (m : PeapMethod) : PeapMethod * res unit :=
  match pm_tls m with
  | Some e => (m <| pm_tls := None |>, (eng_Close e).2)
  | None => (m, Ok tt)
  end.

Definition collectTLSRecord (m : PeapMethod) (req : peapRequest) : PeapMethod * res (option (list Z)) :=
  let lengthIncluded := if negb (Z.land (pr_flags req) FlagLengthIncluded =? 0) then pr_length req else 0 in
  match pm_in m with
  | None => (m, Err "peap: nil inbound fragmenter")
  | Some f => let '(f, r) := in_Push f (pr_flags req) lengthIncluded (pr_data req) in (m <| pm_in := Some f |>, r)
  end.

Definition emitFragmentedOrSingle (m : PeapMethod) (id : Z) (payload : list Z) (baseFlags : Z) :
    PeapMethod * res Result :=
  match pm_out m with
  | None => (m, Err "peap: nil outbound fragmenter")
  | Some f =>
      let '(f, r) := out_Start f payload (Z.lor baseFlags SupportedVersion) in
      (m <| pm_out := Some f |>, '(frag, _) ← r; resp ← encodePeapResponse id frag; Ok (send resp))
  end.

Definition emitNextFragment (m : PeapMethod) (id : Z) : PeapMethod * res Result :=
  match pm_out m with
  | None => (m, Err "peap: no outbound peap fragments pending")
  | Some f =>
      let '(f, r) := out_Next f in
      (m <| pm_out := Some f |>, '(frag, _) ← r; resp ← encodePeapResponse id frag; Ok (send resp))
  end.

Definition ack (m : PeapMethod) (id : Z) : PeapMethod * res Result :=
  (m, resp ← encodeEmptyAck id; Ok (send resp)).

(** The tunnel is up: check the server and start the inner method. *)
Definition enter_inner (m : PeapMethod) : PeapMethod * res unit :=
  andThen (on_engine m (λ e, (e, eng_VerifyServerIdentity e (pm_serverName m)))) (λ m _,
  let m := m <| pm_phase := PeapInnerMethod |> in
  match pm_inner m with
  | Some inner => let '(inner, r) := ms_Initialize inner in (m <| pm_inner := Some inner |>, r)
  | None => (m, Panic)
  end).

Definition onTLSStep (m : PeapMethod) (id : Z) (out : list Z) (step : Step) : PeapMethod * res Result :=
  match step with
  | StepNeedMoreData => ack m id
  | StepOutbound =>
      andThen
        (match pm_tls m with
         | Some e => if bool_decide (pm_phase m = PeapTLSTunnel) && eng_Established e then enter_inner m else (m, Ok tt)
         | None => if bool_decide (pm_phase m = PeapTLSTunnel) then (m, Panic) else (m, Ok tt)
         end)
        (λ m _, emitFragmentedOrSingle m id out 0)
  | StepEstablished => andThen (enter_inner m) (λ m _, ack m id)
  end.

Definition handleInnerMethod (m : PeapMethod) (id : Z) (plain : list Z) (random : res (list Z)) :
    PeapMethod * res Result :=
  andThen (m, DecodeInnerRequest plain id) (λ m innerReq,
  andThen (m, innerReq.[0]) (λ m code,
  if (code =? CodeSuccess) || (code =? CodeFailure) then
    andThen (m, EncodeInnerResponse innerReq) (λ m tunneled,
    andThen (on_engine m (λ e, eng_Protect e tunneled)) (λ m protected,
    let m := m <| pm_phase := if code =? CodeSuccess then PeapAwaitingOuterSuccess else PeapAwaitingOuterFailure |> in
    emitFragmentedOrSingle m id protected 0))
  else
    match pm_inner m with
    | None => (m, Panic)
    | Some inner =>
        let '(inner, r) := ms_Handle inner innerReq (pm_round m) random in
        andThen (m <| pm_inner := Some inner |>, r) (λ m innerResult,
        if bool_decide (Res_Action innerResult = ActionComplete) then
          (m, Err "unexpected standalone mschapv2 completion without terminal inner packet")
        else
        andThen (m, EncodeInnerResponse (Response innerResult)) (λ m tunneled,
        andThen (on_engine m (λ e, eng_Protect e tunneled)) (λ m protected,
        emitFragmentedOrSingle m id protected 0)))
    end)).

(** A PEAP request in the tunnel phases: [process] gets the complete record. *)
Definition tunnel_request (m : PeapMethod) (peap : peapRequest)
    (process : PeapMethod → list Z → PeapMethod * res Result) : PeapMethod * res Result :=
  if negb (Z.land (pr_flags peap) FlagStart =? 0) then (m, Err "unexpected peap start flag")
  else if isAckRequest peap then ack m (pr_identifier peap)
  else
  andThen (collectTLSRecord m peap) (λ m whole,
  match whole with
  | None => ack m (pr_identifier peap)
  | Some record => process m record
  end).

Definition phase_step (m : PeapMethod) (outer : Packet) (peap : option peapRequest) (random : res (list Z)) :
    PeapMethod * res Result :=
  let isIdentity := (Pkt_Code outer =? CodeRequest) && (Pkt_Type outer =? TypeIdentity) in
  match pm_phase m with
  | PeapIdle => (m, Err "peap method was not initialized")
  | PeapOuterIdentity =>
      if isIdentity then
        (m, resp ← BuildRequest CodeResponse (Identifier outer) TypeIdentity (pm_identity m); Ok (send resp))
      else
      match peap with
      | Some peap =>
          if Z.land (pr_flags peap) FlagStart =? 0 then (m, Err "expected peap start flag")
          else if pr_hasLength peap || negb (len (pr_data peap) =? 0) then
            (m, Err "unexpected peap tls data on start")
          else
          let m := m <| pm_phase := PeapTLSTunnel |> in
          andThen (let '(m, r) := on_engine m eng_Start in (m, wrap "start peap tls handshake: " r)) (λ m hello,
          emitFragmentedOrSingle m (pr_identifier peap) hello 0)
      | None => (m, Err "unexpected outer eap packet during peap outer identity phase")
      end
  | PeapTLSTunnel =>
      if isIdentity then (m, Err "unexpected outer identity request during peap tls tunnel")
      else if Pkt_Code outer =? CodeFailure then (m, Err "peap authentication failed")
      else if Pkt_Code outer =? CodeSuccess then (m, Err "unexpected outer EAP success %d during peap tls tunnel")
      else
      match peap with
      | Some peap =>
          tunnel_request m peap (λ m record,
            andThen (let '(m, r) := on_engine m (λ e, eng_Feed e record) in (m, wrap "peap tls handshake: " r))
              (λ m '(out, step), onTLSStep m (pr_identifier peap) out step))
      | None => (m, Err "unexpected outer eap packet during peap tls tunnel")
      end
  | PeapInnerMethod =>
      if isIdentity then (m, Err "unexpected outer identity request during peap inner method")
      else if Pkt_Code outer =? CodeFailure then (m, Err "peap authentication failed")
      else if Pkt_Code outer =? CodeSuccess then (m, Err "unexpected outer EAP success %d during peap inner method")
      else
      match peap with
      | Some peap =>
          tunnel_request m peap (λ m record,
            andThen (let '(m, r) := on_engine m (λ e, eng_Unprotect e record) in (m, wrap "peap tls unprotect: " r))
              (λ m plain,
                if len plain =? 0 then (m, Err "unexpected empty inner tunneled payload")
                else handleInnerMethod m (pr_identifier peap) plain random))
      | None => (m, Err "unexpected outer eap packet during peap inner method")
      end
  | PeapAwaitingOuterSuccess =>
      if Pkt_Code outer =? CodeSuccess then
        andThen (on_engine m (λ e, (e, eng_ExportMSK e))) (λ m msk,
        (m <| pm_msk := Some msk |> <| pm_phase := PeapCompleted |>, Ok (finished msk)))
      else if Pkt_Code outer =? CodeFailure then
        (m, Err "unexpected outer EAP failure %d after inner success")
      else (m, Err "unexpected outer eap packet while awaiting outer success")
  | PeapAwaitingOuterFailure =>
      if Pkt_Code outer =? CodeFailure then (m, Err "peap authentication failed")
      else if Pkt_Code outer =? CodeSuccess then (m, Err "unexpected outer EAP success %d after inner failure")
      else (m, Err "unexpected outer eap packet while awaiting outer failure")
  | PeapCompleted =>
      match pm_msk m with
      | None => (m, Err "peap completed without exported msk")
      | Some msk => (m, Ok (finished msk))
      end
  | PeapFailed => (m, Err "peap method is in failure state")
  end.

Definition handleInner (m : PeapMethod) (packet : list Z) (round : Z) (random : res (list Z)) :
    PeapMethod * res Result :=
  let m := m <| pm_round := round |> in
  andThen (m, Parse packet) (λ m outer,
  match pm_out m, pm_in m with
  | Some out, Some _ =>
      if (Pkt_Code outer =? CodeRequest) && (Pkt_Type outer =? TypePEAP) then
        andThen (m, parsePeapRequest (Identifier outer) (Pkt_Data outer)) (λ m peap,
        let m := m <| pm_messages := pm_messages m + 1 |> in
        let max := Opt_MaxMessageCount (pm_opts m) in
        if (0 <? max) && (max <? pm_messages m) then (m, Err "peap packet count exceeded")
        else if Pending out then
          if negb (isAckRequest peap) then (m, Err "expected peap ack while outbound fragments pending")
          else emitNextFragment m (pr_identifier peap)
        else phase_step m outer (Some peap) random)
      else phase_step m outer None random
  | _, _ => (m, Err "peap method was not initialized")
  end).

Definition peap_Handle (m : PeapMethod) (packet : list Z) (round : Z) (random : res (list Z)) :
    PeapMethod * res Result :=
  match handleInner m packet round random with
  | (m, Err e) => (m <| pm_phase := PeapFailed |>, Err e)
  | r => r
  end.

#[global] Instance PeapMethod_Method : Method PeapMethod := {|
  Method_Initialize := peap_Initialize; Method_Handle := peap_Handle; Method_Close := peap_Close |}.

(* ------------------------------------------------------------------ *)
(** ** methods.go *)

Inductive AnyMethod := PEAP (m : PeapMethod) | MSCHAPV2 (m : MsMethod).

Definition methods_New (cfg : EapConfig) : res AnyMethod :=
  if bool_decide (EapMethodName cfg = "peap"%string) then
    if bool_decide (EapServerName cfg = []) then Err "eap/methods: PEAP requires cfg.ServerName"
    else Ok (PEAP (peap_New (EapServerName cfg) (EapIdentity cfg) (EapPassword cfg)
               (mkOptions (FragmentSize cfg) (MaxMessageCount cfg) (IncludeLength cfg)
                  (EapStrongswanCompatible cfg) (InsecureSkipVerify cfg))))
  else if bool_decide (EapMethodName cfg = "mschapv2"%string) then
    Ok (MSCHAPV2 (ms_New (EapIdentity cfg) (EapPassword cfg)))
  else Err "eap/methods: unsupported EAP method ".

(** The interface value [methods.New] returns. *)
#[global] Instance AnyMethod_Method : Method AnyMethod := {|
  Method_Initialize m :=
    match m with
    | PEAP p => let '(p, r) := peap_Initialize p in (PEAP p, r)
    | MSCHAPV2 p => let '(p, r) := ms_Initialize p in (MSCHAPV2 p, r)
    end;
  Method_Handle m packet round random :=
    match m with
    | PEAP p => let '(p, r) := peap_Handle p packet round random in (PEAP p, r)
    | MSCHAPV2 p => let '(p, r) := ms_Handle p packet round random in (MSCHAPV2 p, r)
    end;
  Method_Close m :=
    match m with
    | PEAP p => let '(p, r) := peap_Close p in (PEAP p, r)
    | MSCHAPV2 p => let '(p, r) := ms_Close p in (MSCHAPV2 p, r)
    end |}.
End Peap.

(* ------------------------------------------------------------------ *)
(** ** Lemmas: fragmentation *)

(** The packets of one message: [Start], then [Next] for every ACK. *)
Fixpoint out_rest (fuel : nat) (f : OutboundFragmenter) : OutboundFragmenter * res (list (list Z)) :=
  match fuel with
  | O => (f, Hang)
  | S fuel =>
      match out_Next f with
      | (f, Ok (pkt, true)) => (f, Ok [pkt])
      | (f, Ok (pkt, false)) => let '(f, r) := out_rest fuel f in (f, pkts ← r; Ok (pkt :: pkts))
      | (f, Err e) => (f, Err e) | (f, Panic) => (f, Panic) | (f, Hang) => (f, Hang)
      end
  end.
Definition out_all (f : OutboundFragmenter) (payload : list Z) : OutboundFragmenter * res (list (list Z)) :=
  match out_Start f payload SupportedVersion with
  | (f, Ok (pkt, true)) => (f, Ok [pkt])
  | (f, Ok (pkt, false)) => let '(f, r) := out_rest (length payload) f in (f, pkts ← r; Ok (pkt :: pkts))
  | (f, Err e) => (f, Err e) | (f, Panic) => (f, Panic) | (f, Hang) => (f, Hang)
  end.

(** The other end: parse the PEAP payload and push it. *)
Definition in_packet (f : InboundFragmenter) (pkt : list Z) : InboundFragmenter * res (option (list Z)) :=
  match parsePeapRequest 0 pkt with
  | Ok req => in_Push f (pr_flags req) (pr_length req) (pr_data req)
  | Err e => (f, Err e) | Panic => (f, Panic) | Hang => (f, Hang)
  end.
Fixpoint in_all (f : InboundFragmenter) (pkts : list (list Z)) : InboundFragmenter * list (res (option (list Z))) :=
  match pkts with
  | [] => (f, [])
  | pkt :: pkts => let '(f, r) := in_packet f pkt in let '(f, rs) := in_all f pkts in (f, r :: rs)
  end.

(** Decides the flag tests of concrete flag bytes. *)
Ltac flag_eval :=
  repeat match goal with |- context [negb (Z.land ?a ?b =? ?c)] =>
    let t := constr:(negb (Z.land a b =? c)) in
    let v := eval vm_compute in t in
    match v with true => idtac | false => idtac end; change t with v end.

(** A continuation fragment. *)
Lemma in_packet_cont parts total expected (more : bool) chunk :
  0 <= total → 0 < expected → total + len chunk <= expected → (more = false → total + len chunk = expected) →
  in_packet (mkInbound parts total expected) ([if more then FlagMoreFragments else 0] ++ chunk)
  = if more then (mkInbound (parts ++ [chunk]) (total + len chunk) expected, Ok None)
    else (NewInboundFragmenter, Ok (Some (concat (parts ++ [chunk])))).
Proof.
  intros Ht He Hle Hlast. pose proof (len_nonneg chunk). unfold in_packet, parsePeapRequest.
  rewrite len_app. change (len [_]) with 1. rewrite (proj2 (Z.ltb_ge _ _)) by lia.
  change (([if more then FlagMoreFragments else 0] ++ chunk).[0]) with (Ok (if more then FlagMoreFragments else 0)). run.
  rewrite slice_from_suffix by done. unfold in_Push.
  destruct more; run; flag_eval; cbn iota; cbn [pr_flags pr_length pr_data In_parts In_total In_expected]; flag_eval; cbn iota;
    rewrite (proj2 (Z.eqb_neq expected (-1))) by lia; cbn iota;
    rewrite (proj2 (Z.ltb_ge expected (total + len chunk))) by lia; [done|].
  by rewrite (proj2 (Z.eqb_eq (total + len chunk) expected)) by auto.
Qed.

Lemma out_rest_in fuel payload off chunk incl parts :
  0 < chunk → 0 < off → off < len payload → (Z.to_nat (len payload - off) <= fuel)%nat →
  concat parts = take (Z.to_nat off) payload →
  ∃ pkts, out_rest fuel (mkOutbound payload off chunk incl) = (mkOutbound [] 0 chunk incl, Ok pkts) ∧
    in_all (mkInbound parts off (len payload)) pkts
    = (NewInboundFragmenter, replicate (length pkts - 1) (Ok None) ++ [Ok (Some payload)]) ∧ pkts ≠ [].
Proof.
  intros Hc. revert off parts. induction fuel as [|fuel IH]; intros off parts Ho Hlt Hf Hparts; [lia|].
  cbn [out_rest]. unfold out_Next, Pending. cbn [Out_payload Out_offset Out_chunk Out_includeLength].
  rewrite (proj2 (Z.ltb_lt off _)) by lia. cbn [negb].
  set (e := if off + chunk <? len payload then off + chunk else len payload).
  assert (He : off < e <= len payload ∧ (e < len payload → e = off + chunk))
    by (unfold e; destruct (_ <? _) eqn:E; lia).
  assert (Es : payload.[off, e] = Ok (take (Z.to_nat (e - off)) (drop (Z.to_nat off) payload)))
    by (apply slice_eq; [lia..|done]).
  rewrite Es. set (ch := take _ (drop _ payload)).
  assert (Hch : len ch = e - off) by (by apply slice_len in Es).
  assert (Hcat : concat (parts ++ [ch]) = take (Z.to_nat e) payload).
  { rewrite concat_app, Hparts. cbn [concat]. rewrite app_nil_r. unfold ch.
    rewrite take_take_drop. f_equal. lia. }
  pose proof (in_packet_cont parts off (len payload) (e <? len payload) ch) as Hin.
  destruct (e <? len payload) eqn:El; cbn [negb].
  - destruct (IH e (parts ++ [ch])) as (pkts & Er & Ein & Hne); [lia..|done|].
    rewrite Er. eexists. split; [reflexivity|]. split; [|done].
    cbn [in_all]. rewrite Hin by lia. replace (off + len ch) with e by lia. rewrite Ein. cbn [length].
    destruct pkts; [done|]. cbn [length Nat.sub]. by rewrite Nat.sub_0_r.
  - eexists. split; [reflexivity|]. split; [|done]. cbn [in_all length]. rewrite Hin by lia.
    rewrite Hcat, firstn_all2 by (unfold len in *; lia). done.
Qed.

(** The first fragment of a message that carries the length field. *)
Lemma in_packet_first payload body (more : bool) : 0 < len payload < 2 ^ 32 → len body <= len payload →
  (more = false → body = payload) →
  let flags := if more then Z.lor (Z.lor SupportedVersion FlagLengthIncluded) FlagMoreFragments
               else Z.lor SupportedVersion FlagLengthIncluded in
  in_packet NewInboundFragmenter ([flags] ++ putUint32 (len payload) ++ body)
  = if more then (mkInbound [body] (len body) (len payload), Ok None)
    else (NewInboundFragmenter, Ok (Some payload)).
Proof.
  intros Hp Hb Hm flags. pose proof (len_nonneg body). unfold in_packet, parsePeapRequest.
  rewrite !len_app, len_putUint32. change (len [flags]) with 1. rewrite (proj2 (Z.ltb_ge _ _)) by lia.
  change (([flags] ++ putUint32 (len payload) ++ body).[0]) with (Ok flags). run.
  rewrite slice_from_suffix by done. run. unfold in_Push, NewInboundFragmenter.
  assert (E4 : (len (putUint32 (len payload) ++ body) <? 4) = false) by (rewrite len_app, len_putUint32; lia).
  unfold flags. clear flags. destruct more; flag_eval; cbn iota; rewrite E4, slice_prefix by done; run;
    rewrite beUint32_put' by lia; run; rewrite slice_from_suffix by done; run;
    cbn [pr_flags pr_length pr_data In_parts In_total In_expected]; flag_eval; cbn iota;
    rewrite (proj2 (Z.eqb_neq (len payload) 0)) by lia; cbn [negb Z.eqb Pos.eqb app In_parts In_total In_expected];
    rewrite Z.add_0_l, (proj2 (Z.ltb_ge (len payload) (len body))) by lia; [done|].
  rewrite (Hm eq_refl), Z.eqb_refl. cbn. by rewrite app_nil_r.
Qed.

Lemma fragments_delivered chunk incl payload : 0 < chunk → len payload < 2 ^ 32 → (incl = true → payload ≠ []) →
  ∃ pkts, out_all (mkOutbound [] 0 chunk incl) payload = (mkOutbound [] 0 chunk incl, Ok pkts) ∧
    in_all NewInboundFragmenter pkts
    = (NewInboundFragmenter, replicate (length pkts - 1) (Ok None) ++ [Ok (Some payload)]).
Proof.
  intros Hc Hl Hne. pose proof (len_nonneg payload). unfold out_all, out_Start, Pending.
  cbn [Out_payload Out_offset Out_chunk Out_includeLength]. change (0 <? len []) with false. cbn iota.
  rewrite (proj2 (Z.leb_gt _ _)) by lia. change [u8 (Z.shiftr (len payload) 24); u8 (Z.shiftr (len payload) 16);
    u8 (Z.shiftr (len payload) 8); u8 (len payload)] with (putUint32 (len payload)).
  destruct (chunk <? len payload) eqn:Em; cbn [orb negb].
  - assert (Es : payload.[0, chunk] = Ok (take (Z.to_nat chunk) payload)).
    { apply slice_eq; [lia..|]. by rewrite Z.sub_0_r. }
    rewrite Es. pose proof (slice_len _ _ _ _ Es) as Hb.
    destruct (out_rest_in (length payload) payload chunk chunk incl [take (Z.to_nat chunk) payload])
      as (pkts & Er & Ein & Hpn); [lia|lia|lia|unfold len in *; lia|cbn; by rewrite app_nil_r|].
    rewrite Er. eexists. split; [reflexivity|]. cbn [in_all].
    rewrite (in_packet_first payload (take (Z.to_nat chunk) payload) true) by (done || lia).
    replace (len (take (Z.to_nat chunk) payload)) with chunk by lia. rewrite Ein.
    destruct pkts; [done|]. cbn [length Nat.sub]. by rewrite Nat.sub_0_r.
  - assert (Es : payload.[0, len payload] = Ok payload).
    { apply slice_eq; [lia..|]. rewrite Z.sub_0_r. apply firstn_all2. unfold len. lia. }
    rewrite Es. eexists. split; [reflexivity|]. cbn [in_all length Nat.sub].
    destruct incl.
    + rewrite (in_packet_first payload payload false); [done| |lia|done].
      destruct payload; [by destruct Hne|unfold len in *; simpl in *; lia].
    + cbn [app]. unfold in_packet, parsePeapRequest. change (SupportedVersion :: payload) with ([SupportedVersion] ++ payload).
      rewrite len_app. change (len [SupportedVersion]) with 1. rewrite (proj2 (Z.ltb_ge _ _)) by lia.
      change (([SupportedVersion] ++ payload).[0]) with (Ok SupportedVersion). run. rewrite slice_from_suffix by done. run.
      flag_eval. cbn iota. done.
Qed.

(* ------------------------------------------------------------------ *)
(** ** Lemmas: the state machine *)

Section PeapMachine.
Context {C : Crypto} {D : DES} {E : Type} {IE : Engine E}.
Abbreviation M := (PeapMethod (E := E)).
Implicit Types m : M.

(** Fields no phase step changes. *)
Definition frame (m m' : M) : Prop :=
  pm_serverName m' = pm_serverName m ∧ pm_identity m' = pm_identity m ∧ pm_password m' = pm_password m ∧
  pm_opts m' = pm_opts m ∧ pm_messages m' = pm_messages m.

Lemma frame_trans m1 m2 m3 : frame m1 m2 → frame m2 m3 → frame m1 m3.
Proof. intros (? & ? & ? & ? & ?) (? & ? & ? & ? & ?). repeat split; congruence. Qed.

(** Steps that leave phase, engine and MSK alone too. *)
Definition quiet (m m' : M) : Prop :=
  frame m m' ∧ pm_phase m' = pm_phase m ∧ pm_tls m' = pm_tls m ∧ pm_msk m' = pm_msk m.

Lemma quiet_refl m : quiet m m.
Proof. by repeat split. Qed.

(** What a plaintext from the tunnel asks for. *)
Definition tunneled_code (plain : list Z) (code : Z) : Prop :=
  ∃ id rest, DecodeInnerRequest plain id = Ok (code :: rest).

(** The protocol: one line per allowed step. *)
Inductive peap_trans (m m' : M) : Result → Prop :=
  | pt_stay resp : frame m m' → pm_msk m' = pm_msk m → pm_phase m' = pm_phase m →
      pm_phase m ∈ [PeapOuterIdentity; PeapTLSTunnel; PeapInnerMethod] → peap_trans m m' (send resp)
  | pt_ack resp : quiet m m' → peap_trans m m' (send resp)
  | pt_start resp : frame m m' → pm_phase m = PeapOuterIdentity → pm_phase m' = PeapTLSTunnel →
      peap_trans m m' (send resp)
  | pt_tunnel resp e : frame m m' → pm_phase m = PeapTLSTunnel → pm_phase m' = PeapInnerMethod →
      pm_tls m' = Some e → eng_VerifyServerIdentity e (pm_serverName m) = Ok tt → peap_trans m m' (send resp)
  | pt_verdict resp e e' record plain code : frame m m' → pm_phase m = PeapInnerMethod → pm_tls m = Some e →
      eng_Unprotect e record = (e', Ok plain) → tunneled_code plain code → code ∈ [CodeSuccess; CodeFailure] →
      pm_phase m' = (if code =? CodeSuccess then PeapAwaitingOuterSuccess else PeapAwaitingOuterFailure) →
      peap_trans m m' (send resp)
  | pt_complete e msk : frame m m' → pm_phase m = PeapAwaitingOuterSuccess → pm_phase m' = PeapCompleted →
      pm_tls m = Some e → eng_ExportMSK e = Ok msk → pm_msk m' = Some msk → peap_trans m m' (finished msk)
  | pt_again msk : quiet m m' → pm_phase m = PeapCompleted → pm_msk m = Some msk → peap_trans m m' (finished msk).

Lemma andThen_Ok {A B} (x : M * res A) (k : M → A → M * res B) m' b :
  andThen x k = (m', Ok b) → ∃ m1 a, x = (m1, Ok a) ∧ k m1 a = (m', Ok b).
Proof. destruct x as [m1 [a| | |]]; try done. intros H. by exists m1, a. Qed.

Lemma on_engine_Ok {A} (m m' : M) (op : E → E * res A) a : on_engine m op = (m', Ok a) →
  ∃ e e', pm_tls m = Some e ∧ op e = (e', Ok a) ∧ m' = m <| pm_tls := Some e' |>.
Proof.
  unfold on_engine. destruct (pm_tls m) as [e|] eqn:Et; [|done]. destruct (op e) as [e' r] eqn:Eo.
  intros H. apply pair_equal_spec in H as [<- ->]. by exists e, e'.
Qed.

Lemma emit_Ok m id p b m' r : emitFragmentedOrSingle m id p b = (m', Ok r) →
  quiet m m' ∧ ∃ resp, r = send resp.
Proof.
  unfold emitFragmentedOrSingle. destruct (pm_out m) as [f|]; [|done]. destruct (out_Start f p _) as [f' x].
  intros H. apply pair_equal_spec in H as [<- H]. apply bind_Ok in H as ([frag d] & _ & H).
  apply bind_Ok in H as (resp & _ & [= <-]). split; [by repeat split|eauto].
Qed.

Lemma emitNext_Ok m id m' r : emitNextFragment m id = (m', Ok r) → quiet m m' ∧ ∃ resp, r = send resp.
Proof.
  unfold emitNextFragment. destruct (pm_out m) as [f|]; [|done]. destruct (out_Next f) as [f' x].
  intros H. apply pair_equal_spec in H as [<- H]. apply bind_Ok in H as ([frag d] & _ & H).
  apply bind_Ok in H as (resp & _ & [= <-]). split; [by repeat split|eauto].
Qed.

Lemma ack_Ok m id m' r : ack m id = (m', Ok r) → m' = m ∧ ∃ resp, r = send resp.
Proof.
  unfold ack. intros H. apply pair_equal_spec in H as [<- H]. apply bind_Ok in H as (resp & _ & [= <-]). eauto.
Qed.

Lemma collect_quiet m req m' whole : collectTLSRecord m req = (m', Ok whole) → quiet m m'.
Proof.
  unfold collectTLSRecord. destruct (pm_in m) as [f|]; [|done]. destruct (in_Push f _ _ _) as [f' x].
  intros H. apply pair_equal_spec in H as [<- _]. by repeat split.
Qed.

Lemma enter_inner_Ok m m' : enter_inner m = (m', Ok tt) →
  frame m m' ∧ pm_phase m' = PeapInnerMethod ∧
  ∃ e, pm_tls m' = Some e ∧ eng_VerifyServerIdentity e (pm_serverName m) = Ok tt.
Proof.
  unfold enter_inner. intros H. apply andThen_Ok in H as (m1 & [] & H1 & H).
  apply on_engine_Ok in H1 as (e & e' & Et & Ev & ->). apply pair_equal_spec in Ev as [<- Ev].
  destruct (pm_inner _) as [inner|]; [|done]. destruct (ms_Initialize inner) as [inner' r].
  apply pair_equal_spec in H as [<- _]. repeat split. by exists e.
Qed.

Lemma onTLSStep_trans m id out step m' r : pm_phase m = PeapTLSTunnel → onTLSStep m id out step = (m', Ok r) →
  ∃ resp, r = send resp ∧ frame m m' ∧
    (quiet m m' ∨ pm_phase m' = PeapInnerMethod ∧
       ∃ e, pm_tls m' = Some e ∧ eng_VerifyServerIdentity e (pm_serverName m) = Ok tt).
Proof.
  intros Hp H. destruct step; cbn [onTLSStep] in H.
  - apply ack_Ok in H as (-> & resp & ->). exists resp. split; [done|]. split; [by repeat split|left; apply quiet_refl].
  - apply andThen_Ok in H as (m1 & [] & H1 & H). apply emit_Ok in H as ((Hf & Hph & Ht & Hm) & resp & ->).
    exists resp. split; [done|].
    assert (m1 = m ∨ enter_inner m = (m1, Ok tt)) as [->|He].
    { destruct (pm_tls m) as [e|].
      - destruct (_ && _); [by right|]. apply pair_equal_spec in H1 as [-> _]. by left.
      - destruct (bool_decide _); [done|]. apply pair_equal_spec in H1 as [-> _]. by left. }
    + split; [done|]. by left.
    + apply enter_inner_Ok in He as (Hf1 & Hp1 & e & Et & Ev). split; [by eapply frame_trans|].
      right. split; [congruence|]. exists e. split; [congruence|done].
  - apply andThen_Ok in H as (m1 & [] & He & H). apply ack_Ok in H as (-> & resp & ->).
    apply enter_inner_Ok in He as (Hf1 & Hp1 & e & Et & Ev). exists resp. split; [done|]. split; [done|]. right. eauto.
Qed.

Lemma handleInnerMethod_trans m id plain rnd m' r : handleInnerMethod m id plain rnd = (m', Ok r) →
  ∃ resp, r = send resp ∧ frame m m' ∧ pm_msk m' = pm_msk m ∧
    (pm_phase m' = pm_phase m ∨
     ∃ code, code ∈ [CodeSuccess; CodeFailure] ∧ tunneled_code plain code ∧
       pm_phase m' = if code =? CodeSuccess then PeapAwaitingOuterSuccess else PeapAwaitingOuterFailure).
Proof.
  unfold handleInnerMethod. intros H. apply andThen_Ok in H as (m1 & inner & H1 & H).
  apply pair_equal_spec in H1 as [<- Hd]. apply andThen_Ok in H as (m1 & code & H1 & H).
  apply pair_equal_spec in H1 as [<- Hc].
  destruct inner as [|c rest]; [done|]. apply idx_ok in Hc as [_ [= ->]].
  destruct (_ || _) eqn:Ecode.
  - apply andThen_Ok in H as (m1 & tunneled & H1 & H). apply pair_equal_spec in H1 as [<- _].
    apply andThen_Ok in H as (m1 & protected & H1 & H). apply on_engine_Ok in H1 as (e & e' & _ & _ & ->).
    apply emit_Ok in H as ((Hf & Hph & Ht & Hm) & resp & ->). exists resp. split; [done|]. split; [done|]. split; [done|].
    right. exists code. split; [|split; [by exists id, rest|exact Hph]].
    rewrite !elem_of_cons. destruct (code =? CodeSuccess) eqn:E1; [left; lia|right; left; lia].
  - destruct (pm_inner m) as [inn|]; [|done]. destruct (ms_Handle inn _ _ _) as [inn' r'].
    apply andThen_Ok in H as (m1 & ir & H1 & H). apply pair_equal_spec in H1 as [<- ->].
    destruct (bool_decide _); [done|]. apply andThen_Ok in H as (m1 & tunneled & H1 & H).
    apply pair_equal_spec in H1 as [<- _]. apply andThen_Ok in H as (m1 & protected & H1 & H).
    apply on_engine_Ok in H1 as (e & e' & _ & _ & ->). apply emit_Ok in H as ((Hf & Hph & Ht & Hm) & resp & ->).
    exists resp. split; [done|]. split; [done|]. split; [done|]. by left.
Qed.

Lemma on_engine_wrap {A} (m m' : M) (op : E → E * res A) s a :
  (let '(m, r) := on_engine m op in (m, wrap s r)) = (m', Ok a) → on_engine m op = (m', Ok a).
Proof. destruct (on_engine m op) as [m1 [x| | |]]; cbn; congruence. Qed.

(** A PEAP request in a tunnel phase: an ACK, or a whole record processed. *)
Lemma tunnel_request_Ok m peap process m' r : tunnel_request m peap process = (m', Ok r) →
  (quiet m m' ∧ ∃ resp, r = send resp) ∨
  (∃ m1 record, quiet m m1 ∧ process m1 record = (m', Ok r)).
Proof.
  unfold tunnel_request. destruct (negb (Z.land _ _ =? 0)); [done|]. destruct (isAckRequest peap).
  - intros H. apply ack_Ok in H as (-> & Hr). left. split; [apply quiet_refl|done].
  - intros H. apply andThen_Ok in H as (m1 & whole & H1 & H). apply collect_quiet in H1.
    destruct whole as [record|]; [right; eauto|]. apply ack_Ok in H as (-> & Hr). by left.
Qed.

Lemma quiet_engine m e : frame m (m <| pm_tls := Some e |>).
Proof. by repeat split. Qed.

Lemma phase_step_trans m outer peap rnd m' r : phase_step m outer peap rnd = (m', Ok r) → peap_trans m m' r.
Proof.
  unfold phase_step. destruct (pm_phase m) eqn:Hp; try done.
  - destruct (_ && _).
    + intros H. apply pair_equal_spec in H as [<- H]. apply bind_Ok in H as (resp & _ & [= <-]).
      apply pt_ack, quiet_refl.
    + destruct peap as [p|]; [|done]. destruct (Z.land _ _ =? 0); [done|]. destruct (_ || _); [done|].
      intros H. apply andThen_Ok in H as (m1 & hello & H1 & H). apply on_engine_wrap, on_engine_Ok in H1 as (e & e' & _ & _ & ->).
      apply emit_Ok in H as ((Hf & Hph & _ & _) & resp & ->). by apply pt_start.
  - destruct (_ && _); [done|]. destruct (_ =? CodeFailure); [done|]. destruct (_ =? CodeSuccess); [done|].
    destruct peap as [p|]; [|done]. intros H. apply tunnel_request_Ok in H as [[Hq [resp ->]]|(m1 & record & Hq & H)];
      [by apply pt_ack|].
    destruct Hq as (Hf1 & Hp1 & Ht1 & Hm1).
    apply andThen_Ok in H as (m2 & [out step] & H1 & H). apply on_engine_wrap, on_engine_Ok in H1 as (e & e' & _ & _ & ->).
    apply onTLSStep_trans in H as (resp & -> & Hf2 & H2); [|cbn; congruence].
    assert (Hf : frame m m') by (eapply frame_trans; [exact Hf1|exact Hf2]).
    destruct H2 as [(_ & Hp2 & _ & Hm2)|(Hp2 & e2 & Et & Ev)].
    + apply pt_stay; [done|cbn in *; congruence..|]. rewrite Hp, !elem_of_cons. auto.
    + eapply pt_tunnel; [done..|]. cbn in Ev. destruct Hf1 as [Hs _]. by rewrite <- Hs.
  - destruct (_ && _); [done|]. destruct (_ =? CodeFailure); [done|]. destruct (_ =? CodeSuccess); [done|].
    destruct peap as [p|]; [|done]. intros H. apply tunnel_request_Ok in H as [[Hq [resp ->]]|(m1 & record & Hq & H)];
      [by apply pt_ack|].
    destruct Hq as (Hf1 & Hp1 & Ht1 & Hm1).
    apply andThen_Ok in H as (m2 & plain & H1 & H). apply on_engine_wrap, on_engine_Ok in H1 as (e & e' & Et & Eu & ->).
    destruct (len plain =? 0); [done|]. apply handleInnerMethod_trans in H as (resp & -> & Hf2 & Hm2 & H2).
    assert (Hf : frame m m') by (eapply frame_trans; [exact Hf1|exact Hf2]).
    destruct H2 as [Hp2|(code & Hc & Htc & Hp2)].
    + apply pt_stay; [done|cbn in *; congruence..|]. rewrite Hp, !elem_of_cons. auto.
    + apply (pt_verdict _ _ _ e e' record plain code); [done|done|congruence|done|done|done|done].
  - destruct (_ =? CodeSuccess); [|by destruct (_ =? CodeFailure)].
    intros H. apply andThen_Ok in H as (m1 & msk & H1 & H). apply on_engine_Ok in H1 as (e & e' & Et & Ee & ->).
    apply pair_equal_spec in Ee as [<- Ee]. apply pair_equal_spec in H as [<- H]. injection H as <-.
    by eapply pt_complete.
  - destruct (_ =? CodeFailure); [done|]. by destruct (_ =? CodeSuccess).
  - destruct (pm_msk m) as [msk|] eqn:Em; [|done]. intros H. apply pair_equal_spec in H as [<- H]. injection H as <-.
    by apply pt_again; [apply quiet_refl|..].
Qed.

(** Bookkeeping at the start of a call: the round, and one more PEAP packet
    within the budget. *)
Definition counted (m m0 : M) : Prop :=
  ∃ round, m0 = m <| pm_round := round |> ∨
    m0 = m <| pm_round := round |> <| pm_messages := pm_messages m + 1 |> ∧
    (0 < Opt_MaxMessageCount (pm_opts m) → pm_messages m + 1 <= Opt_MaxMessageCount (pm_opts m)).

Lemma peap_Handle_trans m pkt round rnd m' r : peap_Handle m pkt round rnd = (m', Ok r) →
  ∃ m0, counted m m0 ∧ peap_trans m0 m' r.
Proof.
  unfold peap_Handle. destruct (handleInner m pkt round rnd) as [m1 [x| | |]] eqn:Eh; [|done..].
  intros H. apply pair_equal_spec in H as [-> H]. injection H as ->. unfold handleInner in Eh.
  apply andThen_Ok in Eh as (m1 & outer & H1 & H). apply pair_equal_spec in H1 as [<- _].
  destruct (pm_out _) as [out|]; [|done]. destruct (pm_in _); [|done].
  destruct (_ && _); [|apply phase_step_trans in H; eexists; split; [by exists round; left|done]].
  apply andThen_Ok in H as (m1 & peap & H1 & H). apply pair_equal_spec in H1 as [<- _].
  destruct ((0 <? _) && _) eqn:Eb; [done|].
  eexists (m <| pm_round := round |> <| pm_messages := pm_messages m + 1 |>). split.
  { exists round. right. split; [done|]. cbn in Eb. intros ?. lia. }
  destruct (Pending out); [|by apply phase_step_trans in H].
  destruct (negb _); [done|]. apply emitNext_Ok in H as (Hq & resp & ->). by apply pt_ack.
Qed.

(** One authentication: the packets in order, until one is refused. The trace
    lists the states before each packet and after the last. *)
Fixpoint peap_session (m : M) (inputs : list (list Z * Z * res (list Z))) (last : Result) : list M * res Result :=
  match inputs with
  | [] => ([m], Ok last)
  | (pkt, round, rnd) :: inputs =>
      match peap_Handle m pkt round rnd with
      | (m', Ok r) => let '(trace, out) := peap_session m' inputs r in (m :: trace, out)
      | (m', Err e) => ([m; m'], Err e)
      | (m', Panic) => ([m; m'], Panic)
      | (m', Hang) => ([m; m'], Hang)
      end
  end.

(** What a trace has to show before a key is handed out: the server's name
    checked against its certificate, then EAP-Success received through the
    tunnel, then the key exported from the tunnel. *)
Definition exported (msk : list Z) (trace : list M) : Prop :=
  ∃ s e, s ∈ trace ∧ pm_tls s = Some e ∧ eng_ExportMSK e = Ok msk.
Definition accepted (msk : list Z) (trace : list M) : Prop :=
  ∃ s rest e e' record plain, (s :: rest) `suffix_of` trace ∧ pm_tls s = Some e ∧
    eng_Unprotect e record = (e', Ok plain) ∧ tunneled_code plain CodeSuccess ∧ exported msk rest.
Definition authenticated (name msk : list Z) (trace : list M) : Prop :=
  ∃ s rest e, (s :: rest) `suffix_of` trace ∧ pm_tls s = Some e ∧
    eng_VerifyServerIdentity e name = Ok tt ∧ accepted msk (s :: rest).

(** The obligation that is left in each phase. *)
Definition owed (m : M) (msk : list Z) (trace : list M) : Prop :=
  match pm_phase m with
  | PeapOuterIdentity | PeapTLSTunnel => authenticated (pm_serverName m) msk trace
  | PeapInnerMethod => accepted msk trace
  | PeapAwaitingOuterSuccess => exported msk trace
  | PeapCompleted => pm_msk m = Some msk
  | _ => False
  end.

Lemma exported_cons msk s trace : exported msk trace → exported msk (s :: trace).
Proof. intros (x & e & Hx & H). exists x, e. split; [by right|done]. Qed.
Lemma accepted_cons msk s trace : accepted msk trace → accepted msk (s :: trace).
Proof. intros (x & rest & e & e' & rec & pl & Hx & H). exists x, rest, e, e', rec, pl. split; [by apply suffix_cons_r|done]. Qed.
Lemma authenticated_cons name msk s trace : authenticated name msk trace → authenticated name msk (s :: trace).
Proof. intros (x & rest & e & Hx & H). exists x, rest, e. split; [by apply suffix_cons_r|done]. Qed.

(** A step hands its obligation to the next state. *)
Lemma owed_step m m0 m' r msk trace : counted m m0 → peap_trans m0 m' r → head trace = Some m' →
  owed m' msk trace → owed m msk (m :: trace).
Proof.
  intros (round & Hc) Ht Hh Ho.
  assert (Hm : pm_phase m0 = pm_phase m ∧ pm_serverName m0 = pm_serverName m ∧ pm_tls m0 = pm_tls m ∧ pm_msk m0 = pm_msk m)
    by (destruct Hc as [->|[-> _]]; done).
  destruct Hm as (Hp & Hs & Htls & Hk). clear Hc round. unfold owed in *. rewrite <- Hp, <- Hs.
  destruct Ht as [resp Hf Hm Hph Hin|resp (Hf & Hph & _ & Hm)|resp Hf Hph Hph'|resp e Hf Hph Hph' Et Ev
    |resp e e' rec pl code Hf Hph Et Eu Htc Hcode Hph'|e k Hf Hph Hph' Et Ee Em|k (Hf & Hph & _ & Hm) Hph0 Ek];
    destruct Hf as (Hsn & _).
  - rewrite Hph, Hsn in Ho. destruct (pm_phase m0); try done; auto using authenticated_cons, accepted_cons.
    all: exfalso; rewrite !elem_of_cons in Hin; by destruct Hin as [?|[?|[?|Hn]]]; try done; apply elem_of_nil in Hn.
  - rewrite Hph, Hsn in Ho. destruct (pm_phase m0); try done;
      auto using authenticated_cons, accepted_cons, exported_cons. congruence.
  - rewrite Hph, Hph' in *. rewrite <- Hsn. by apply authenticated_cons.
  - rewrite Hph, Hph' in *. destruct trace as [|x trace]; [done|]. injection Hh as ->.
    apply authenticated_cons. by exists m', trace, e.
  - rewrite Hph, Hph' in *. rewrite !elem_of_cons in Hcode. destruct Hcode as [->|[->|Hn]]; [|done|by apply elem_of_nil in Hn].
    cbn in Ho. exists m, trace, e, e', rec, pl. by rewrite <- Htls.
  - rewrite Hph, Hph' in *. exists m, e. split; [by left|]. split; congruence.
  - rewrite Hph, Hph0 in *. congruence.
Qed.

Lemma peap_session_head m inputs last : head (peap_session m inputs last).1 = Some m.
Proof.
  destruct inputs as [|[[pkt round] rnd] inputs]; [done|]. cbn [peap_session].
  destruct (peap_Handle _ _ _ _) as [m' [r| | |]]; [|done..]. by destruct (peap_session m' inputs r).
Qed.

Lemma peap_session_owed m inputs last msk : inputs ≠ [] → (peap_session m inputs last).2 = Ok (finished msk) →
  owed m msk (peap_session m inputs last).1.
Proof.
  revert m last. induction inputs as [|[[pkt round] rnd] inputs IH]; intros m last Hne; [done|]. clear Hne.
  cbn [peap_session]. destruct (peap_Handle m pkt round rnd) as [m' [r| | |]] eqn:Eh; [|done..].
  apply peap_Handle_trans in Eh as (m0 & Hc & Ht). pose proof (peap_session_head m' inputs r) as Hh.
  specialize (IH m' r). destruct (peap_session m' inputs r) as [trace out] eqn:Es. cbn [fst snd] in *. intros ->.
  eapply owed_step; [done..|]. destruct inputs as [|i inputs]; [|by apply IH].
  cbn in Es. apply pair_equal_spec in Es as [<- Es]. injection Es as ->. clear - Ht.
  unfold owed. remember (finished msk) as r eqn:Er. destruct Ht as [| | | | |e k _ _ Hph _ _ Ek|k (_ & Hph & _ & Hm) Hp Ek]; try done.
  - injection Er as ->. by rewrite Hph.
  - injection Er as ->. rewrite Hph, Hp. congruence.
Qed.

(** [C34] PEAP hands out a key only to an authenticated session: whatever
    packets the peer sends to a freshly initialized method, if the last one
    makes it complete with a key, then during the session the TLS engine
    accepted the configured server name, after that an EAP-Success came out
    of the tunnel, and after that the key was exported from the tunnel. *)
Theorem peap_key_authenticated m inputs last msk :
  pm_phase m = PeapOuterIdentity → inputs ≠ [] → (peap_session m inputs last).2 = Ok (finished msk) →
  authenticated (pm_serverName m) msk (peap_session m inputs last).1.
Proof. intros Hp Hne H. apply (peap_session_owed _ _ _ _ Hne) in H. unfold owed in H. by rewrite Hp in H. Qed.

(** A PEAP request that can be parsed far enough to be counted. *)
Definition is_peap_request (pkt : list Z) : bool :=
  match Parse pkt with Ok p => (Pkt_Code p =? CodeRequest) && (Pkt_Type p =? TypePEAP) | _ => false end.

Lemma peap_Handle_count m pkt round rnd m' r : peap_Handle m pkt round rnd = (m', Ok r) →
  pm_opts m' = pm_opts m ∧
  if is_peap_request pkt then
    pm_messages m' = pm_messages m + 1 ∧
    (0 < Opt_MaxMessageCount (pm_opts m) → pm_messages m + 1 <= Opt_MaxMessageCount (pm_opts m))
  else pm_messages m' = pm_messages m.
Proof.
  unfold peap_Handle. destruct (handleInner m pkt round rnd) as [m1 [x| | |]] eqn:Eh; [|done..].
  intros H. apply pair_equal_spec in H as [-> H]. injection H as ->. unfold handleInner in Eh.
  apply andThen_Ok in Eh as (m1 & outer & H1 & H). apply pair_equal_spec in H1 as [<- Ep].
  unfold is_peap_request. rewrite Ep.
  destruct (pm_out _) as [out|]; [|done]. destruct (pm_in _); [|done].
  assert (Hfr : ∀ m0 m' r, peap_trans m0 m' r → pm_opts m' = pm_opts m0 ∧ pm_messages m' = pm_messages m0).
  { clear. intros m0 m' r [resp Hf|resp (Hf & _)|resp Hf|resp e Hf|resp e e' rec pl c Hf|e k Hf|k (Hf & _)];
      destruct Hf as (_ & _ & _ & ? & ?); done. }
  destruct (_ && _) eqn:Ek; [|by apply phase_step_trans, Hfr in H].
  apply andThen_Ok in H as (m1 & peap & H1 & H). apply pair_equal_spec in H1 as [<- _].
  destruct ((0 <? _) && _) eqn:Eb; [done|]. cbn in Eb.
  assert (Hb : 0 < Opt_MaxMessageCount (pm_opts m) → pm_messages m + 1 <= Opt_MaxMessageCount (pm_opts m)) by lia.
  destruct (Pending out).
  - destruct (negb _); [done|]. apply emitNext_Ok in H as ((Hf & _) & _). by destruct Hf as (_ & _ & _ & -> & ->).
  - apply phase_step_trans, Hfr in H as [-> ->]. done.
Qed.

Lemma peap_session_count m inputs last : 0 < Opt_MaxMessageCount (pm_opts m) → 0 <= pm_messages m <= Opt_MaxMessageCount (pm_opts m) →
  (∃ r, (peap_session m inputs last).2 = Ok r) →
  pm_messages m + len (List.filter is_peap_request inputs.*1.*1) <= Opt_MaxMessageCount (pm_opts m).
Proof.
  revert m last. induction inputs as [|[[pkt round] rnd] inputs IH]; intros m last Hn Hm [x Hx]; [unfold len; cbn [fmap list_fmap List.filter length]; lia|].
  cbn [peap_session] in Hx. destruct (peap_Handle m pkt round rnd) as [m' [r| | |]] eqn:Eh; [|done..].
  apply peap_Handle_count in Eh as [Ho Hc]. specialize (IH m' r). rewrite Ho in IH.
  destruct (peap_session m' inputs r) as [trace out]. cbn [fst snd] in *. cbn [fmap list_fmap List.filter fst].
  destruct (is_peap_request pkt).
  - rewrite len_cons. destruct Hc as [Hc1 Hc2]. specialize (Hc2 Hn). specialize (IH Hn).
    enough (pm_messages m' + len (List.filter is_peap_request inputs.*1.*1) <= Opt_MaxMessageCount (pm_opts m)) by lia.
    apply IH; [lia|eauto].
  - rewrite Hc in IH. by apply IH; [..|exists x].
Qed.

(** The message budget: with MaxMessageCount n > 0, a session of a
    freshly initialized method that is never refused contains at most n PEAP
    requests. The peer cannot keep the method running for ever. *)
Theorem peap_budget m inputs last r :
  0 < Opt_MaxMessageCount (pm_opts m) → pm_messages m = 0 → (peap_session m inputs last).2 = Ok r →
  len (List.filter is_peap_request inputs.*1.*1) <= Opt_MaxMessageCount (pm_opts m).
Proof.
  intros Hn H0 Hr. pose proof (peap_session_count m inputs last Hn). rewrite H0 in H. apply H; [lia|eauto].
Qed.
End PeapMachine.

(** Fragmentation round trip: a TLS message cut by the outbound
    fragmenter into PEAP packets (one per ACK), each parsed and pushed into the
    inbound fragmenter of the other end, comes out whole with the last packet
    and not before, and both ends are ready for the next message. The
    exception the code has (an empty message with the length field forced) is
    excluded. *)
Theorem peap_fragment_roundtrip chunk incl payload f :
  NewOutboundFragmenter chunk incl = Some f → len payload < 2 ^ 32 → (incl = true → payload ≠ []) →
  ∃ pkts, out_all f payload = (f, Ok pkts) ∧
    in_all NewInboundFragmenter pkts
    = (NewInboundFragmenter, replicate (length pkts - 1) (Ok None) ++ [Ok (Some payload)]).
Proof.
  unfold NewOutboundFragmenter. destruct (chunk <=? 0) eqn:Ec; [done|]. intros [= <-].
  apply fragments_delivered. lia.
Qed.

Lemma peap_fragment_roundtrip_witness : ∃ pkts, out_all (mkOutbound [] 0 2 false) [1; 2; 3; 4; 5] = (mkOutbound [] 0 2 false, Ok pkts) ∧
    in_all NewInboundFragmenter pkts
    = (NewInboundFragmenter, replicate (length pkts - 1) (Ok None) ++ [Ok (Some [1; 2; 3; 4; 5])]).
Proof. apply (peap_fragment_roundtrip 2 false); done. Defined.

(** The exception: an empty message with the length field forced is refused
    by the receiving fragmenter. *)
Lemma empty_message_refused :
  (in_packet NewInboundFragmenter ([Z.lor SupportedVersion FlagLengthIncluded] ++ putUint32 0)).2
  = Err "peap: L flag set but total length is zero".
Proof. reflexivity. Qed.

(* ------------------------------------------------------------------ *)
(** ** A concrete tunnel *)

(** Plaintext "records", up after one flight, with a fixed key. *)
#[local] Instance sample_engine : Engine bool := {|
  NewEngine _ _ := Ok false;
  eng_Start e := (e, Ok [22]);
  eng_Feed _ _ := (true, Ok ([], StepEstablished));
  eng_Established e := e;
  eng_VerifyServerIdentity e name := if bool_decide (name = ascii_bytes "aaa") then Ok tt else Err "identity mismatch";
  eng_Protect e p := (e, Ok p);
  eng_Unprotect e r := (e, Ok r);
  eng_ExportMSK e := if e then Ok [7; 7] else Err "not ready";
  eng_Close e := (e, Ok tt) |}.

Definition sample_peap : PeapMethod :=
  (peap_Initialize (peap_New (ascii_bytes "aaa") (ascii_bytes "me") (ascii_bytes "pw")
    (mkOptions 100 3 false false false))).1.
Definition sample_peap_inputs : list (list Z * Z * res (list Z)) := [
  ([1; 1; 0; 6; 25; 32], 1, Panic);
  ([1; 2; 0; 7; 25; 0; 22], 2, Panic);
  ([1; 3; 0; 17; 25; 0; 1; 3; 0; 11; 33; 128; 3; 0; 2; 0; 1], 3, Panic);
  ([3; 4; 0; 4], 4, Panic)].

Lemma peap_key_authenticated_witness :
  authenticated (ascii_bytes "aaa") [7; 7]
    (peap_session (C := xor_crypto) (D := sample_des) sample_peap sample_peap_inputs (finished [])).1.
Proof.
  apply (peap_key_authenticated (C := xor_crypto) (D := sample_des) sample_peap sample_peap_inputs (finished []) [7; 7]);
    [reflexivity|discriminate|vm_compute; reflexivity].
Defined.

Lemma peap_budget_witness : len (List.filter is_peap_request sample_peap_inputs.*1.*1) <= 3.
Proof.
  apply (peap_budget (C := xor_crypto) (D := sample_des) sample_peap sample_peap_inputs (finished []) (finished [7; 7]));
    [reflexivity|reflexivity|vm_compute; reflexivity].
Defined.
