(* ===== verification/Auth.v ===== *)
(** * Authentication (src/xcrypto/x509.go, src/control/auth.go)

    Verification of the responder's AUTH payload (shared-key MIC over the EAP
    key, or a certificate signature), the initiator's own AUTH payload, the
    processing of IKE_AUTH responses up to the EAP packet they carry, and the
    first IKE_AUTH request. crypto/x509, crypto/rsa and crypto/ecdsa are the
    parameter class [X509]. *)

From S2P Require Import Prelude Suite Crypto Cipher Payload Keying Wire Protected Eap Identity State Negotiate Exchange Mschap.

(* ------------------------------------------------------------------ *)
(** ** xcrypto/x509.go *)

Inductive PublicKey (K : Type) := RSAKey (k : K) | ECDSAKey (k : K) | OtherKey.
Arguments RSAKey {K} k.
Arguments ECDSAKey {K} k.
Arguments OtherKey {K}.

(** [cert_Verify leaf intermediates roots] is [leaf.Verify] for server
    authentication; [ip_String] is [net.IP.String]. *)
Class X509 := {
  Certificate : Type;
  CertPool : Type;
  KeyValue : Type;
  ParseCertificate : list Z → res Certificate;
  SystemCertPool : res (option CertPool);
  cert_Verify : Certificate → list Certificate → option CertPool → res unit;
  VerifyHostname : Certificate → list Z → res unit;
  cert_PublicKey : Certificate → PublicKey KeyValue;
  rsa_VerifyPKCS1v15 : KeyValue → HashKind → list Z → list Z → res unit;
  ecdsa_VerifyASN1 : KeyValue → list Z → list Z → bool;
  ip_String : IP → list Z }.

Definition HashAlgorithmSHA256 : Z := 2.
Definition HashAlgorithmSHA384 : Z := 3.
Definition HashAlgorithmSHA512 : Z := 4.
Definition PublicKeyRSA : Z := 1.
Definition PublicKeyECDSA : Z := 2.

(** [Sig_Hash = None] is the nil hash. *)
Record SignatureAlgorithm := mkSignatureAlgorithm {
  Sig_HashID : Z; Sig_Hash : option HashKind; Sig_KeyType : Z }.

Definition signatureAlgIDs : list (list Z * (Z * HashKind * Z)) := [
  ([48; 13; 6; 9; 42; 134; 72; 134; 247; 13; 1; 1; 11; 5; 0], (HashAlgorithmSHA256, HashSHA256, PublicKeyRSA));
  ([48; 13; 6; 9; 42; 134; 72; 134; 247; 13; 1; 1; 12; 5; 0], (HashAlgorithmSHA384, HashSHA384, PublicKeyRSA));
  ([48; 13; 6; 9; 42; 134; 72; 134; 247; 13; 1; 1; 13; 5; 0], (HashAlgorithmSHA512, HashSHA512, PublicKeyRSA));
  ([48; 10; 6; 8; 42; 134; 72; 206; 61; 4; 3; 2], (HashAlgorithmSHA256, HashSHA256, PublicKeyECDSA));
  ([48; 10; 6; 8; 42; 134; 72; 206; 61; 4; 3; 3], (HashAlgorithmSHA384, HashSHA384, PublicKeyECDSA));
  ([48; 10; 6; 8; 42; 134; 72; 206; 61; 4; 3; 4], (HashAlgorithmSHA512, HashSHA512, PublicKeyECDSA))].

Fixpoint find_alg (algID : list Z) (entries : list (list Z * (Z * HashKind * Z))) : option SignatureAlgorithm :=
  match entries with
  | [] => None
  | (der, (hashID, hash, keyType)) :: entries =>
      if bool_decide (algID = der) then Some (mkSignatureAlgorithm hashID (Some hash) keyType)
      else find_alg algID entries
  end.

Definition ParseSignatureAuthData (data : list Z) : res (SignatureAlgorithm * list Z) :=
  if len data <? 2 then Err "xcrypto: AUTH method 14 data too short"
  else
  algLen ← data.[0];
  if (algLen =? 0) || (len data <=? 1 + algLen) then
    Err "xcrypto: AUTH method 14 missing AlgorithmIdentifier"
  else
  algID ← data.[1, 1 + algLen];
  signature ← slice_from data (1 + algLen);
  match find_alg algID signatureAlgIDs with
  | Some alg => Ok (alg, signature)
  | None => Err "xcrypto: unsupported AUTH method 14 AlgorithmIdentifier %x"
  end.

Section X509Checks.
Context {C : Crypto} {X : X509}.

Definition VerifyCertificateChain (leaf : Certificate) (intermediates : list Certificate)
    (roots : option CertPool) (skipVerify : bool) : res unit :=
  if skipVerify then Ok tt
  else
  roots ← match roots with
          | Some r => Ok (Some r)
          | None => wrap "xcrypto: load system trust anchors: " SystemCertPool
          end;
  wrap "xcrypto: verify responder certificate chain: " (cert_Verify leaf intermediates roots).

Definition verifyCertIdentity (leaf : Certificate) (idType : Z) (idData : list Z) : res unit :=
  if idType =? 2 then
    if negb (utf8_Valid idData) then Err "xcrypto: IDr FQDN is not valid UTF-8"
    else wrap "xcrypto: responder certificate does not match IDr FQDN: " (VerifyHostname leaf idData)
  else if idType =? 1 then
    if negb (len idData =? 4) then Err "xcrypto: invalid IDr IPv4 address length %d"
    else
      a ← idData.[0]; b ← idData.[1]; c ← idData.[2]; d ← idData.[3];
      wrap "xcrypto: responder certificate does not match IDr IP address: "
        (VerifyHostname leaf (ip_String (IPv4 a b c d)))
  else if idType =? 5 then
    if negb (len idData =? 16) then Err "xcrypto: invalid IDr IPv6 address length %d"
    else wrap "xcrypto: responder certificate does not match IDr IP address: "
           (VerifyHostname leaf (ip_String idData))
  else if idType =? 3 then
    Err "xcrypto: certificate identity verification does not support RFC822 IDr for MVP"
  else if idType =? 11 then
    Err "xcrypto: certificate identity verification does not support KEY_ID IDr for MVP"
  else Err "xcrypto: unsupported IDr type %d for certificate identity verification".

Definition verifySignature (leaf : Certificate) (octets signature : list Z) (alg : SignatureAlgorithm) : res unit :=
  match Sig_Hash alg with
  | None => Err "xcrypto: signature algorithm has no assigned hash"
  | Some h =>
      let sum := digest h octets in
      if Sig_KeyType alg =? PublicKeyRSA then
        match cert_PublicKey leaf with
        | RSAKey pub =>
            wrap "xcrypto: AUTH RSA signature verification failed: " (rsa_VerifyPKCS1v15 pub h sum signature)
        | _ => Err "xcrypto: AUTH method 14 declared RSA, peer certificate is not RSA"
        end
      else if Sig_KeyType alg =? PublicKeyECDSA then
        match cert_PublicKey leaf with
        | ECDSAKey pub =>
            if negb (ecdsa_VerifyASN1 pub sum signature) then
              Err "xcrypto: AUTH ECDSA signature verification failed"
            else Ok tt
        | _ => Err "xcrypto: AUTH method 14 declared ECDSA, peer certificate is not ECDSA"
        end
      else Err "xcrypto: unsupported AUTH method 14 public key type %d"
  end.

Definition VerifyPeerAuthSignature (certs : list Certificate) (idType : Z) (idData octets signature : list Z)
    (alg : SignatureAlgorithm) (roots : option CertPool) (skipChainVerify : bool) : res unit :=
  match certs with
  | [] => Err "xcrypto: responder AUTH used a certificate signature without CERT payload"
  | leaf :: intermediates =>
      _ ← VerifyCertificateChain leaf intermediates roots skipChainVerify;
      _ ← verifyCertIdentity leaf idType idData;
      verifySignature leaf octets signature alg
  end.

(* ------------------------------------------------------------------ *)
(** ** control/auth.go: the two AUTH payloads *)

Definition authMaterial (st : State) : option (Selection * IKEKeys) :=
  match SelectedIKE st, St_IKEKeys st with
  | Some sel, Some keys => Some (sel, keys)
  | _, _ => None
  end.

Definition localAuthSecret (st : State) (keys : IKEKeys) : list Z :=
  if 0 <? len (LocalEAPMSK (St_Auth st)) then LocalEAPMSK (St_Auth st) else SKpi keys.

Definition peerAuthSecret (st : State) (keys : IKEKeys) : list Z :=
  if 0 <? len (LocalEAPMSK (St_Auth st)) then LocalEAPMSK (St_Auth st) else SKpr keys.

Definition computeSignedOctets (st : State) (macedID : list Z) (isResponder : bool) : res (list Z) :=
  match authMaterial st with
  | None => Err "control: IKE key material is missing"
  | Some _ =>
      if isResponder then
        if (len (SAInitResponse st) =? 0) || (len (InitiatorNonce st) =? 0) then
          Err "control: missing SA_INIT response checkpoint or initiator nonce"
        else Ok (SAInitResponse st ++ InitiatorNonce st ++ macedID)
      else if (len (SAInitRequest st) =? 0) || (len (ResponderNonce st) =? 0) then
        Err "control: missing SA_INIT request checkpoint or responder nonce"
      else Ok (SAInitRequest st ++ ResponderNonce st ++ macedID)
  end.

Definition buildLocalAuth (st : State) (localID : ID) : res Auth :=
  match authMaterial st with
  | None => Err "control: IKE key material is missing"
  | Some (sel, keys) =>
      let idBody := if len (FirstIDiPayload (St_Auth st)) =? 0 then AppendID [] localID
                    else FirstIDiPayload (St_Auth st) in
      macedID ← wrap "control: compute local MACedID: " (MACedID (Sel_PRF sel) (SKpi keys) idBody);
      octets ← computeSignedOctets st macedID false;
      mac ← wrap "control: compute local AUTH: " (AuthMAC (Sel_PRF sel) (localAuthSecret st keys) octets);
      Ok (mkAuth AuthSharedKeyMIC mac)
  end.

Fixpoint parse_certs (ders : list (list Z)) : res (list Certificate) :=
  match ders with
  | [] => Ok []
  | der :: ders =>
      c ← wrap "control: parse responder certificate: " (ParseCertificate der);
      cs ← parse_certs ders;
      Ok (c :: cs)
  end.

Definition peerCertificates (cfg : Config) (st : State) : res (list Certificate * option CertPool) :=
  if len (PeerCerts (St_Auth st)) =? 0 then
    Err "control: responder AUTH used certificate signature without CERT payload"
  else
  certs ← parse_certs (PeerCerts (St_Auth st));
  if InsecureSkipPeerCertVerify cfg then Ok (certs, None)
  else
  roots ← wrap "control: load system trust roots: " SystemCertPool;
  match roots with
  | None => Err "control: load system trust roots: %!w(<nil>)"
  | Some r => Ok (certs, Some r)
  end.

(** The loop over the key types; [last] is the error of the previous one. *)
Fixpoint try_key_kinds (check : Z → res unit) (kinds : list Z) (last : string) : res unit :=
  match kinds with
  | [] => Err ("control: AUTH signature verification failed: " +:+ last)
  | kt :: kinds => match check kt with Err e => try_key_kinds check kinds e | r => r end
  end.

(** The signature method: algorithm, signature value and key types to try. *)
Definition signature_method (st : State) (auth : Auth) : res (SignatureAlgorithm * list Z * list Z) :=
  if Auth_Method auth =? AuthDigitalSignature then
    '(parsed, sig) ← ParseSignatureAuthData (Auth_Data auth);
    if len (PeerSignatureHashAlgorithms (St_Auth st)) =? 0 then
      Err "control: responder used AUTH method 14 without SIGNATURE_HASH_ALGORITHMS negotiation"
    else if negb (bool_decide (Sig_HashID parsed ∈ PeerSignatureHashAlgorithms (St_Auth st))) then
      Err "control: AUTH method 14 used unadvertised signature hash algorithm %d"
    else Ok (parsed, sig, [Sig_KeyType parsed])
  else Ok (mkSignatureAlgorithm 0 (Some HashSHA1) 0, Auth_Data auth, [PublicKeyRSA; PublicKeyECDSA]).

Definition check_peer_auth (cfg : Config) (st : State) (idr : list Z) (auth : Auth) : res unit :=
  match authMaterial st with
  | None => Err "control: IKE key material is missing"
  | Some (sel, keys) =>
      if Auth_Method auth =? AuthSharedKeyMIC then
        macedID ← wrap "control: compute peer MACedID: " (MACedID (Sel_PRF sel) (SKpr keys) idr);
        octets ← computeSignedOctets st macedID true;
        expected ← wrap "control: compute peer AUTH MAC: " (AuthMAC (Sel_PRF sel) (peerAuthSecret st keys) octets);
        if bool_decide (expected = Auth_Data auth) then Ok tt else Err "control: AUTH verification failed"
      else if (Auth_Method auth =? AuthRsaDigitalSignature) || (Auth_Method auth =? AuthDssDigitalSignature)
              || (Auth_Method auth =? AuthDigitalSignature) then
        '(alg, signature, keyKinds) ← signature_method st auth;
        macedID ← MACedID (Sel_PRF sel) (SKpr keys) idr;
        octets ← computeSignedOctets st macedID true;
        id ← wrap "control: parse IDr for certificate identity: " (ParseID idr);
        '(certs, roots) ← peerCertificates cfg st;
        try_key_kinds (λ kt,
          VerifyPeerAuthSignature certs (ID_Type id) (ID_Data id) octets signature
            (mkSignatureAlgorithm (Sig_HashID alg) (Sig_Hash alg) kt) roots (InsecureSkipPeerCertVerify cfg))
          keyKinds "%!w(<nil>)"
      else Err "control: unsupported AUTH method %d"
  end.

(** Every accepting branch records the method. *)
Definition verifyPeerAuth (cfg : Config) (idr : list Z) (auth : Auth) : go State unit :=
  st ← gets id;
  _ ← lift (check_peer_auth cfg st idr auth);
  modify (λ st, st <| St_Auth := St_Auth st <| PeerAuthMethod := Auth_Method auth |> |>).

(* ------------------------------------------------------------------ *)
(** ** control/auth.go: IKE_AUTH responses *)

Definition recordPeerIdentity (cfg : Config) (idr : list Z) : go State unit :=
  id ← lift (wrap "control: invalid IDr payload: " (ParseID idr));
  if len (ID_Data id) =? 0 then throw "control: empty IDr value"
  else
  ok ← lift (if ID_Type (RightID cfg) =? 0 then Ok true else RightIDMatches (RightID cfg) id);
  if negb ok then throw "control: rightid mismatch: expected %s, received %s"
  else modify (λ st, st <| St_Auth := St_Auth st <| PeerIDr := idr |> |>).

Definition isAllowedAuthNotify (t : Z) : bool :=
  bool_decide (t ∈ [NotifyAdditionalTSPossible; NotifyEapOnlyAuthentication; NotifyEspTFCPaddingNotSupported;
    NotifyFragmentationSupported; NotifyIPCompSupported; NotifyIKEv2MessageIDSyncSupported;
    NotifyNonFirstFragmentsAlso; NotifyUseTransportMode]).

Definition isChildFailureNotify (t : Z) : bool :=
  bool_decide (t ∈ [NotifyNoProposalChosen; NotifySinglePairRequired; NotifyNoAdditionalSAs;
    NotifyInternalAddressFailure; NotifyFailedCPRequired; NotifyTSUnacceptable]).

Fixpoint validateAuthNotifies (notifies : list Notify) : go State unit :=
  match notifies with
  | [] => mret tt
  | n :: notifies =>
      if isAllowedAuthNotify (Notify_Type n) then validateAuthNotifies notifies
      else if isChildFailureNotify (Notify_Type n) then validateAuthNotifies notifies
      else if Notify_Type n =? NotifyIKEv2MessageIDSync then
        throw "control: received unsupported IKEV2_MESSAGE_ID_SYNC notify"
      else if Notify_Type n =? NotifyAuthenticationFailed then
        _ ← modify (λ st, st <| SuppressAuthFailedNotify := true |> <| St_Phase := PhaseFailed |>
                             <| FailureReason := "received AUTHENTICATION_FAILED notify" |>);
        throw "control: received AUTHENTICATION_FAILED notify"
      else if Notify_Type n <? 16384 then throw "control: received IKE_AUTH notify error type %d"
      else validateAuthNotifies notifies
  end.

(** What [handleAuthResponse] collects from the payloads; the last EAP, AUTH
    and IDr payload wins. *)
Record auth_scan := mkAuthScan {
  as_eap : list Z; as_auth : option Auth; as_idr : list Z;
  as_certs : list (list Z); as_notifies : list Notify }.

Definition parse_cert (text : string) (body : list Z) : res (list Z) :=
  c ← wrap text (ParseCert body);
  if negb (Cert_Encoding c =? CertEncodingX509Signature) then Err "control: unsupported CERT encoding %d"
  else Ok (DER c).

Fixpoint scan_auth (ps : list Wire.Payload) (s : auth_scan) : res auth_scan :=
  match ps with
  | [] => Ok s
  | p :: ps =>
      let body := Body p in
      if Payload_Type p =? PayloadTypeEAP then
        scan_auth ps (mkAuthScan body (as_auth s) (as_idr s) (as_certs s) (as_notifies s))
      else if Payload_Type p =? PayloadTypeAuth then
        a ← wrap "control: parse IKE_AUTH AUTH payload: " (ParseAuth body);
        scan_auth ps (mkAuthScan (as_eap s) (Some a) (as_idr s) (as_certs s) (as_notifies s))
      else if Payload_Type p =? PayloadTypeIDr then
        scan_auth ps (mkAuthScan (as_eap s) (as_auth s) body (as_certs s) (as_notifies s))
      else if Payload_Type p =? PayloadTypeCert then
        der ← parse_cert "control: parse IKE_AUTH CERT payload: " body;
        scan_auth ps (mkAuthScan (as_eap s) (as_auth s) (as_idr s) (as_certs s ++ [der]) (as_notifies s))
      else if Payload_Type p =? PayloadTypeNotify then
        n ← wrap "control: parse IKE_AUTH notify: " (ParseNotify body);
        if negb (len (Notify_SPI n) =? 0) then
          Err "control: unexpected SPI-scoped notify during EAP progression"
        else scan_auth ps (mkAuthScan (as_eap s) (as_auth s) (as_idr s) (as_certs s) (as_notifies s ++ [n]))
      else scan_auth ps s
  end.

Definition containsNotify (l : list Notify) (want : Z) : bool := bool_decide (want ∈ Notify_Type <$> l).

(** The IDr the response is judged by: its own, or the one recorded before. *)
Definition effective_idr (idr : list Z) : go State (list Z) :=
  gets (λ st, if len idr =? 0 then PeerIDr (St_Auth st) else idr).

Definition record_certs (certs : list (list Z)) : go State unit :=
  modify (λ st, if 0 <? len certs then st <| St_Auth := St_Auth st <| PeerCerts := certs |> |> else st).

Definition update_peer (notifies : list Notify) (p : PeerCapabilities) : PeerCapabilities :=
  mkPeerCapabilities (containsNotify notifies NotifyEapOnlyAuthentication)
    (containsNotify notifies NotifyIKEv2MessageIDSyncSupported)
    (SupportsFragmentation p || containsNotify notifies NotifyFragmentationSupported).

Definition handleAuthResponse (cfg : Config) (m : Message) (firstResponse : bool) : go State (list Z) :=
  s ← lift (scan_auth (Payloads m) (mkAuthScan [] None [] [] []));
  _ ← validateAuthNotifies (as_notifies s);
  _ ← modify (λ st, st <| Peer := update_peer (as_notifies s) (Peer st) |>);
  peerIDr ← effective_idr (as_idr s);
  if len peerIDr =? 0 then throw "control: IKE_AUTH response missing IDr payload"
  else
  _ ← recordPeerIdentity cfg peerIDr;
  _ ← record_certs (as_certs s);
  _ ← match as_auth s with
      | Some auth => verifyPeerAuth cfg peerIDr auth
      | None =>
          if firstResponse then
            if len (as_eap s) =? 0 then throw "control: first IKE_AUTH response missing AUTH payload"
            else
            supported ← gets (λ st, SupportsEAPOnlyAuthentication (Peer st));
            if negb supported then
              throw "control: configured EAP-only authentication, but the peer does not support it"
            else mret tt
          else mret tt
      end;
  if len (as_eap s) =? 0 then throw "control: IKE_AUTH response missing EAP payload"
  else mret (as_eap s).

(* ------------------------------------------------------------------ *)
(** ** control/auth.go: the bootstrap request *)

Definition tsiAnyDualStack : list Selector := [
  mkSelector 7 0 0 65535 (IPv4 0 0 0 0) (IPv4 255 255 255 255);
  mkSelector 8 0 0 65535 (replicate 16 0) (replicate 16 255)].

Definition tsrStrongswanDefault : list Selector := [
  mkSelector 7 0 0 65535 (IPv4 0 0 0 0) (IPv4 255 255 255 255);
  mkSelector 8 0 0 65535 (32 :: replicate 15 0) (63 :: replicate 15 255)].

(** child_sa.go: concatenates (type, body) parts with their generic headers. *)
Fixpoint cesBuildChain (parts : list (Z * list Z)) : list Z :=
  match parts with
  | [] => []
  | (_, body) :: parts =>
      let next := match parts with [] => PayloadTypeNone | (t, _) :: _ => t end in
      let total := 4 + len body in
      [u8 next; 0; u8 (Z.shiftr total 8); u8 total] ++ body ++ cesBuildChain parts
  end.

Definition generateChildSPI (random : res (list Z)) : res Z :=
  raw ← wrap "control: generate child SPI: " (GenerateNonce (λ _, random) 4);
  spi ← beUint32 raw;
  Ok (if spi =? 0 then 1 else spi).

Definition appendESPProposals (cfg : Config) (dst : list Z) (spi : Z) : res (list Z) :=
  offers ← childOffers cfg;
  sa ← esp_proposals (putUint32 spi) false 0 offers;
  AppendSA dst sa.

Definition notify_part (t : Z) : res (Z * list Z) :=
  body ← AppendNotify [] (mkNotify NotifyProtocolNone [] t []); Ok (PayloadTypeNotify, body).

Definition buildBootstrapAuthRequest (cfg : Config) (msgID : Z) (spi_random : res (list Z))
    (random : Z → Z → res (list Z)) : go State (list (list Z)) :=
  inboundSPI ← lift (generateChildSPI spi_random);
  let idiBody := AppendID [] (IDI cfg) in
  _ ← modify (λ st, st <| NegotiatingChild := Some inboundSPI |>
                       <| St_Auth := St_Auth st <| FirstIDiPayload := idiBody |> |>);
  esp ← lift (appendESPProposals cfg [] inboundSPI);
  initial ← lift (notify_part NotifyInitialContact);
  cp ← lift (AppendConfigRequest []);
  tsi ← lift (AppendTS [] tsiAnyDualStack);
  tsr ← lift (AppendTS [] tsrStrongswanDefault);
  n1 ← lift (notify_part NotifyNoAdditionalAddresses);
  n2 ← lift (notify_part NotifyMultipleAuthSupported);
  n3 ← lift (notify_part NotifyEapOnlyAuthentication);
  let parts :=
    [(PayloadTypeIDi, idiBody); initial] ++
    (if negb (ID_Type (RightID cfg) =? 0) then [(PayloadTypeIDr, AppendID [] (RightID cfg))] else []) ++
    [(PayloadTypeCP, cp); (PayloadTypeSA, esp); (PayloadTypeTSi, tsi); (PayloadTypeTSr, tsr); n1; n2; n3] in
  st ← gets id;
  lift (buildProtectedState (Some cfg) st ExchangeIkeAuth msgID PayloadTypeIDi (cesBuildChain parts) random).
End X509Checks.

(* ------------------------------------------------------------------ *)
(** ** What an accepted AUTH payload proves *)

Section AuthSpec.
Context {C : Crypto} {X : X509}.

(** RFC 7296, 2.15: prf(prf(secret, "Key Pad for IKEv2"), octets). *)
Definition auth_mic (h : HashKind) (secret octets : list Z) : list Z := hmac h (hmac h secret AuthKeyPad) octets.

Lemma Sum_ready p h key data : ready p = Ok h → Sum p key data = Ok (hmac h key data).
Proof. unfold Sum. intros ->. reflexivity. Qed.

Lemma AuthMAC_ready p h secret octets : ready p = Ok h → AuthMAC p secret octets = Ok (auth_mic h secret octets).
Proof. intros H. unfold AuthMAC. rewrite (Sum_ready _ _ _ _ H). run. by rewrite (Sum_ready _ _ _ _ H). Qed.

(** The responder's octets: its SA_INIT response, our nonce, its MACed identity. *)
Definition peer_octets (h : HashKind) (st : State) (keys : IKEKeys) (idr : list Z) : list Z :=
  SAInitResponse st ++ InitiatorNonce st ++ hmac h (SKpr keys) idr.

Lemma peer_octets_Ok st sel keys h idr octets : authMaterial st = Some (sel, keys) → ready (Sel_PRF sel) = Ok h →
  computeSignedOctets st (hmac h (SKpr keys) idr) true = Ok octets → octets = peer_octets h st keys idr.
Proof. unfold computeSignedOctets. intros -> _ H. inv_ok. done. Qed.

(** A certificate signature: the leaf's chain is trusted (unless the check is
    configured away), the certificate names the IDr identity, and its key
    verifies the signature over the octets. *)
Record cert_proof (cfg : Config) (st : State) (idr octets : list Z) : Prop := {
  cp_leaf : ∃ leaf rest id alg sig,
    parse_certs (PeerCerts (St_Auth st)) = Ok (leaf :: rest) ∧ ParseID idr = Ok id ∧
    (InsecureSkipPeerCertVerify cfg = true ∨
     ∃ roots, SystemCertPool = Ok (Some roots) ∧ cert_Verify leaf rest (Some roots) = Ok tt) ∧
    verifyCertIdentity leaf (ID_Type id) (ID_Data id) = Ok tt ∧
    verifySignature leaf octets sig alg = Ok tt }.

Inductive peer_proved (cfg : Config) (st : State) (idr : list Z) (auth : Auth) : Prop :=
  | proved_mic sel keys h : authMaterial st = Some (sel, keys) → ready (Sel_PRF sel) = Ok h →
      Auth_Method auth = AuthSharedKeyMIC →
      Auth_Data auth = auth_mic h (peerAuthSecret st keys) (peer_octets h st keys idr) →
      peer_proved cfg st idr auth
  | proved_cert sel keys h : authMaterial st = Some (sel, keys) → ready (Sel_PRF sel) = Ok h →
      Auth_Method auth ∈ [AuthRsaDigitalSignature; AuthDssDigitalSignature; AuthDigitalSignature] →
      cert_proof cfg st idr (peer_octets h st keys idr) → peer_proved cfg st idr auth.

Lemma Sum_Ok p key data mac : Sum p key data = Ok mac → ∃ h, ready p = Ok h ∧ mac = hmac h key data.
Proof. unfold Sum. intros H. inv_ok. eauto. Qed.

Lemma try_key_kinds_Ok check kinds last : try_key_kinds check kinds last = Ok tt → ∃ kt, kt ∈ kinds ∧ check kt = Ok tt.
Proof.
  revert last. induction kinds as [|kt kinds IH]; intros last; [done|]. cbn [try_key_kinds].
  destruct (check kt) as [[]|e| |] eqn:Ek; try done.
  - intros _. exists kt. by split; [left|].
  - intros H. apply IH in H as (k & Hk & H). exists k. by split; [right|].
Qed.

Lemma peerCertificates_Ok cfg st certs roots : peerCertificates cfg st = Ok (certs, roots) →
  parse_certs (PeerCerts (St_Auth st)) = Ok certs ∧
  (InsecureSkipPeerCertVerify cfg = true ∨ ∃ r, roots = Some r ∧ SystemCertPool = Ok (Some r)).
Proof.
  unfold peerCertificates. intros H. destruct (_ =? 0); [done|]. apply bind_Ok in H as (cs & Hc & H).
  destruct (InsecureSkipPeerCertVerify cfg); [injection H as <- <-; auto|].
  apply bind_Ok in H as ([r|] & Hr & H); [|done]. apply wrap_Ok in Hr. injection H as <- <-. eauto.
Qed.

Lemma VerifyPeerAuthSignature_Ok certs t d octets sig alg roots skip :
  VerifyPeerAuthSignature certs t d octets sig alg roots skip = Ok tt →
  ∃ leaf rest, certs = leaf :: rest ∧ VerifyCertificateChain leaf rest roots skip = Ok tt ∧
    verifyCertIdentity leaf t d = Ok tt ∧ verifySignature leaf octets sig alg = Ok tt.
Proof.
  unfold VerifyPeerAuthSignature. destruct certs as [|leaf rest]; [done|]. intros H.
  apply bind_Ok in H as ([] & H1 & H). apply bind_Ok in H as ([] & H2 & H). by exists leaf, rest.
Qed.

Lemma check_peer_auth_sound cfg st idr auth : check_peer_auth cfg st idr auth = Ok tt → peer_proved cfg st idr auth.
Proof.
  unfold check_peer_auth. destruct (authMaterial st) as [[sel keys]|] eqn:Em; [|done].
  destruct (Auth_Method auth =? AuthSharedKeyMIC) eqn:E2.
  - intros H. apply bind_Ok in H as (maced & H1 & H). apply wrap_Ok, Sum_Ok in H1 as (h & Hr & ->).
    apply bind_Ok in H as (octets & H1 & H). apply (peer_octets_Ok _ _ _ _ _ _ Em Hr) in H1 as ->.
    rewrite (AuthMAC_ready _ _ _ _ Hr) in H. run. cbn [wrap mbind res_bind] in H.
    destruct (bool_decide _) eqn:Eb; [|done]. apply bool_decide_eq_true in Eb.
    eapply proved_mic; [done|done|lia|done].
  - destruct (_ || _) eqn:E3; [|done]. intros H.
    apply bind_Ok in H as ([[alg sig] kinds] & _ & H). apply bind_Ok in H as (maced & H1 & H).
    apply Sum_Ok in H1 as (h & Hr & ->). apply bind_Ok in H as (octets & H1 & H).
    apply (peer_octets_Ok _ _ _ _ _ _ Em Hr) in H1 as ->. apply bind_Ok in H as (id & Hid & H). apply wrap_Ok in Hid.
    apply bind_Ok in H as ([certs roots] & Hc & H). apply peerCertificates_Ok in Hc as (Hp & Hroots).
    apply try_key_kinds_Ok in H as (kt & _ & H). apply VerifyPeerAuthSignature_Ok in H as (leaf & rest & -> & Hch & Hi & Hs).
    eapply proved_cert; [done|done| |constructor].
    + rewrite !elem_of_cons. destruct (Auth_Method auth =? AuthRsaDigitalSignature) eqn:A1; [left; lia|].
      destruct (Auth_Method auth =? AuthDssDigitalSignature) eqn:A2; [right; left; lia|]. right; right; left. cbn in E3. lia.
    + eexists leaf, rest, id, _, sig. do 2 (split; [done|]). split; [|done].
      destruct Hroots as [?|(r & -> & Hr')]; [by left|]. destruct (InsecureSkipPeerCertVerify cfg); [by left|].
      right. exists r. split; [done|]. unfold VerifyCertificateChain in Hch. cbn in Hch. by apply wrap_Ok in Hch.
Qed.

(** Identity: the recorded IDr is well formed, not empty, and the configured
    peer if one is configured. *)
Definition identity_ok (cfg : Config) (idr : list Z) : Prop :=
  ∃ id, ParseID idr = Ok id ∧ ID_Data id ≠ [] ∧ (ID_Type (RightID cfg) ≠ 0 → RightIDMatches (RightID cfg) id = Ok true).

Lemma recordPeerIdentity_Ok cfg idr st st' : recordPeerIdentity cfg idr st = (st', Ok tt) →
  identity_ok cfg idr ∧ st' = st <| St_Auth := St_Auth st <| PeerIDr := idr |> |>.
Proof.
  unfold recordPeerIdentity. intros H. apply go_bind_Ok in H as (s1 & id & H1 & H). apply pair_equal_spec in H1 as [<- Hid].
  apply wrap_Ok in Hid. destruct (_ =? 0) eqn:El; [done|]. apply go_bind_Ok in H as (s1 & ok & H1 & H).
  apply pair_equal_spec in H1 as [<- Hok]. destruct ok; [|done]. cbn [negb] in H. apply pair_equal_spec in H as [<- _].
  split; [|done]. exists id. split; [done|]. split.
  - intros E. rewrite E in El. done.
  - intros Hn. by rewrite (proj2 (Z.eqb_neq _ _)) in Hok.
Qed.

End AuthSpec.
