(* ===== verification/Handshake.v ===== *)
(** * The initiator handshake
    (src/control/sa_init.go, child_sa.go, eap_peer.go, session.go)

    IKE_SA_INIT with its retries, key derivation, the EAP loop, the final
    IKE_AUTH exchange with the CHILD_SA it installs, and the run that composes
    them into an [Established] bundle or the unified failure path. Code that
    only touches the SA state is in the monad [go State]; the run is in
    [go World], whose world also has the packets and timer events still to
    come, the frames sent, the events emitted and the count of random draws. *)

From S2P Require Import Prelude Suite Crypto Cipher Payload Keying Wire Protected Eap Identity State Negotiate Exchange Auth.

(* ------------------------------------------------------------------ *)
(** ** The Go net package *)

(** [ip.Equal(x)] *)
Definition IP_Equal (ip x : IP) : bool :=
  if len ip =? len x then bool_decide (ip = x)
  else if (len ip =? 4) && (len x =? 16) then bool_decide (take 12 x = v4InV6Prefix) && bool_decide (ip = drop 12 x)
  else if (len ip =? 16) && (len x =? 4) then bool_decide (take 12 ip = v4InV6Prefix) && bool_decide (drop 12 ip = x)
  else false.

Definition IsLinkLocalUnicast (ip : IP) : res bool :=
  match To4 ip with
  | Some ip4 => a ← ip4.[0]; b ← ip4.[1]; Ok ((a =? 169) && (b =? 254))
  | None =>
      if negb (len ip =? 16) then Ok false
      else a ← ip.[0]; b ← ip.[1]; Ok ((a =? 254) && (Z.land b 192 =? 128))
  end.

(* ------------------------------------------------------------------ *)
(** ** sa_init.go *)

Definition MaxSAInitAttempts : nat := 3.
Definition LogicalNatTPort : Z := 4500.

Inductive SAInitOutcome := SAInitEstablished | SAInitRetryCookie | SAInitRetryDHGroup.

Definition signatureHashAlgorithmsNotify : list Z := [0; 2; 0; 3; 0; 4].

(** A forced group picks the first suite that offers it. *)
Definition selectIKESuite (cfg : Config) (forcedDHGroup : Z) : res (Suite.Proposal * Selection) :=
  match Cfg_IKE cfg with
  | [] => Err "control: IKE proposals are required"
  | first :: _ =>
      suite ← (if negb (forcedDHGroup =? 0) then
                 match list_find (λ s, forcedDHGroup ∈ DHs s) (Cfg_IKE cfg) with
                 | Some (_, s) => Ok s
                 | None => Err "control: peer requested unsupported DH group %d"
                 end
               else Ok first);
      selection ← wrap "control: select IKE proposal: " (Select suite (Some suite));
      Ok (suite, selection)
  end.

Section SAInit.
Context {C : Crypto} {X : X25519}.

Definition localNATHashes (cfg : Config) (st : State) (responderSPI : Z) : res (list Z * list Z) :=
  let localIP := if len (LocalIP cfg) =? 0 then IPv4 0 0 0 0 else LocalIP cfg in
  src ← wrap "control: compute NAT-D source hash: "
          (NatDetectionHash (St_InitiatorSPI st) responderSPI localIP LogicalNatTPort);
  dst ← wrap "control: compute NAT-D destination hash: "
          (NatDetectionHash (St_InitiatorSPI st) responderSPI (PeerIP cfg) LogicalNatTPort);
  Ok (src, dst).

Definition push_notify (b : Builder) (t : Z) (data : list Z) : res Builder :=
  body ← AppendNotify [] (mkNotify NotifyProtocolNone [] t data);
  Push b PayloadTypeNotify false body.

Definition buildSAInitPacket (cfg : Config) (st : State) : res (list Z) :=
  let b := NewBuilder (mkHeader (Uint64SPI (St_InitiatorSPI st)) (Uint64SPI 0) PayloadTypeNone
             IKEDefaultVersion ExchangeIkeSAInit FlagInitiator 0 0) in
  b ← (if 0 <? len (Cookie st) then push_notify b NotifyCookie (Cookie st) else Ok b);
  saBody ← appendIKEProposals cfg [];
  b ← Push b PayloadTypeSA false saBody;
  b ← Push b PayloadTypeKE false (AppendKE [] (InitiatorKE st));
  b ← Push b PayloadTypeNonce false (AppendNonce [] (InitiatorNonce st));
  b ← push_notify b NotifyNATDetectionSourceIP (SourceHashLocal (NAT st));
  b ← push_notify b NotifyNATDetectionDestinationIP (DestinationHashLocal (NAT st));
  b ← push_notify b NotifyFragmentationSupported [];
  b ← push_notify b NotifySignatureHashAlgorithms signatureHashAlgorithmsNotify;
  Ok (Finish b).

(** [r_spi], [r_nonce] and [r_key] are what the random source yields. *)
Definition buildSAInitRequest (cfg : Config) (forcedDHGroup : Z) (r_spi : res (list Z))
    (r_nonce : Z → res (list Z)) (r_key : res (list Z)) : go State (list (list Z)) :=
  '(_, selection) ← lift (selectIKESuite cfg forcedDHGroup);
  _ ← modify (λ st, st <| SelectedIKE := Some selection |>);
  st ← gets id;
  _ ← (if St_InitiatorSPI st =? 0 then
         v ← lift (wrap "control: generate initiator SPI: " (GenerateSPI r_spi));
         modify (λ st, st <| St_InitiatorSPI := v |>)
       else mret tt);
  _ ← (if len (InitiatorNonce st) =? 0 then
         ni ← lift (wrap "control: generate initiator nonce: " (GenerateNonce r_nonce 32));
         modify (λ st, st <| InitiatorNonce := ni |>)
       else mret tt);
  group ← lift (match Sel_DH selection with Some dh => Ok (DH_TransformID dh) | None => Panic end);
  dh ← lift (wrap "control: generate local KE: " (GenerateDH group r_key));
  pub ← lift (wrap "control: encode local KE: " (PublicBytes dh));
  _ ← modify (λ st, st <| LocalDH := Some dh |> <| InitiatorKE := mkKeyExchange group pub |>);
  st ← gets id;
  '(srcHash, dstHash) ← lift (localNATHashes cfg st 0);
  _ ← modify (λ st, st <| NAT := NAT st <| SourceHashLocal := srcHash |> <| DestinationHashLocal := dstHash |> |>);
  st ← gets id;
  pkt ← lift (buildSAInitPacket cfg st);
  _ ← modify (λ st, st <| SAInitRequest := pkt |>);
  mret [pkt].

Fixpoint hash_ids (data : list Z) : res (list Z) :=
  match data with
  | [] => Ok []
  | [_] => Panic
  | a :: b :: data => v ← beUint16 [a; b]; rest ← hash_ids data; Ok (v :: rest)
  end.

Definition parseSignatureHashAlgorithms (data : list Z) : res (list Z) :=
  if (len data =? 0) || negb (len data mod 2 =? 0) then
    Err "control: invalid SIGNATURE_HASH_ALGORITHMS notify data"
  else hash_ids data.

(** What has been seen of an SA_INIT response; [sawSA] is [is_Some]. *)
Record sa_init_scan := mkSAInitScan {
  sc_sa : option SA; sc_nonce : option (list Z); sc_ke : option KeyExchange;
  sc_cookie : list Z; sc_invalidKE : bool }.

(** Notifies that must be unscoped. *)
Definition unscoped (n : Notify) : bool := (Notify_ProtocolID n =? NotifyProtocolNone) && (len (Notify_SPI n) =? 0).

Definition scan_notify (n : Notify) (s : sa_init_scan) : go State sa_init_scan :=
  let t := Notify_Type n in
  if t =? NotifyCookie then
    if negb (len (Notify_SPI n) =? 0) || (len (Notify_Data n) =? 0) then
      throw "control: COOKIE notify must not carry SPI and must carry data"
    else if 0 <? len (sc_cookie s) then throw "control: duplicate COOKIE notify"
    else mret (mkSAInitScan (sc_sa s) (sc_nonce s) (sc_ke s) (Notify_Data n) (sc_invalidKE s))
  else if t =? NotifyInvalidKePayload then
    if negb (unscoped n) || negb (len (Notify_Data n) =? 2) then
      throw "control: INVALID_KE_PAYLOAD notify must use protocol 0 and carry exactly one DH group"
    else if sc_invalidKE s then throw "control: duplicate INVALID_KE_PAYLOAD notify"
    else mret (mkSAInitScan (sc_sa s) (sc_nonce s) (sc_ke s) (sc_cookie s) true)
  else if t =? NotifyNATDetectionSourceIP then
    if negb (unscoped n) then throw "control: NAT_DETECTION_SOURCE_IP must use protocol 0 and must not carry SPI"
    else _ ← modify (λ st, st <| NAT := NAT st <| SourceHashRemote := Notify_Data n |> |>); mret s
  else if t =? NotifyNATDetectionDestinationIP then
    if negb (unscoped n) then throw "control: NAT_DETECTION_DESTINATION_IP must use protocol 0 and must not carry SPI"
    else _ ← modify (λ st, st <| NAT := NAT st <| DestinationHashRemote := Notify_Data n |> |>); mret s
  else if t =? NotifyFragmentationSupported then
    if negb (unscoped n) then throw "control: FRAGMENTATION_SUPPORTED must use protocol 0 and must not carry SPI"
    else _ ← modify (λ st, st <| Peer := Peer st <| SupportsFragmentation := true |> |>); mret s
  else if t =? NotifySignatureHashAlgorithms then
    if negb (unscoped n) then throw "control: SIGNATURE_HASH_ALGORITHMS must use protocol 0 and must not carry SPI"
    else
    hashes ← lift (parseSignatureHashAlgorithms (Notify_Data n));
    _ ← modify (λ st, st <| St_Auth := St_Auth st <| PeerSignatureHashAlgorithms := hashes |> |>);
    mret s
  else if t =? NotifyNoProposalChosen then throw "control: peer rejected IKE proposal (NO_PROPOSAL_CHOSEN)"
  else if t <? 16384 then throw "control: received IKE_SA_INIT error notify %d"
  else mret s.

Fixpoint scan_sa_init (ps : list Wire.Payload) (s : sa_init_scan) : go State sa_init_scan :=
  match ps with
  | [] => mret s
  | p :: ps =>
      s ← (if Payload_Type p =? PayloadTypeSA then
             if bool_decide (is_Some (sc_sa s)) then throw "control: duplicate SA payload in IKE_SA_INIT response"
             else
             sa ← lift (wrap "control: parse IKE_SA_INIT SA: " (ParseSA (Body p)));
             if negb (len sa =? 1) then
               throw "control: IKE_SA_INIT response must contain exactly one selected proposal"
             else mret (mkSAInitScan (Some sa) (sc_nonce s) (sc_ke s) (sc_cookie s) (sc_invalidKE s))
           else if Payload_Type p =? PayloadTypeNonce then
             if bool_decide (is_Some (sc_nonce s)) then throw "control: duplicate NONCE payload in IKE_SA_INIT response"
             else
             n ← lift (wrap "control: parse IKE_SA_INIT nonce: " (ParseNonce (Body p)));
             mret (mkSAInitScan (sc_sa s) (Some n) (sc_ke s) (sc_cookie s) (sc_invalidKE s))
           else if Payload_Type p =? PayloadTypeKE then
             if bool_decide (is_Some (sc_ke s)) then throw "control: duplicate KEE payload in IKE_SA_INIT response"
             else
             k ← lift (wrap "control: parse IKE_SA_INIT KE: " (ParseKE (Body p)));
             mret (mkSAInitScan (sc_sa s) (sc_nonce s) (Some k) (sc_cookie s) (sc_invalidKE s))
           else if Payload_Type p =? PayloadTypeNotify then
             n ← lift (wrap "control: parse IKE_SA_INIT notify: " (ParseNotify (Body p)));
             scan_notify n s
           else mret s : go State sa_init_scan);
      scan_sa_init ps s
  end.

Definition natDetected (cfg : Config) (st : State) : res bool :=
  '(src, dst) ← localNATHashes cfg st (St_ResponderSPI st);
  let mismatch local remote := (0 <? len remote) && negb (bool_decide (local = remote)) in
  Ok (mismatch src (SourceHashRemote (NAT st)) || mismatch dst (DestinationHashRemote (NAT st))).

Definition applySAInitResponse (cfg : Config) (m : Message) : go State SAInitOutcome :=
  responderSPI ← lift (SPI_Uint64 (Wire.ResponderSPI (Msg_Header m)));
  if (responderSPI =? 0) &&
     match Payloads m with [] => true | p :: _ => negb (Payload_Type p =? PayloadTypeNotify) end then
    throw "control: IKE_SA_INIT without responder SPI must start with a NOTIFY"
  else
  _ ← modify (λ st, st <| NAT := NAT st <| SourceHashRemote := [] |> <| DestinationHashRemote := [] |> |>
                       <| Peer := no_capabilities |>);
  s ← scan_sa_init (Payloads m) (mkSAInitScan None None None [] false);
  if (0 <? len (sc_cookie s)) || sc_invalidKE s then
    if (0 <? len (sc_cookie s)) && sc_invalidKE s then
      throw "control: COOKIE and INVALID_KE_PAYLOAD cannot both require a retry"
    else if bool_decide (is_Some (sc_sa s)) || bool_decide (is_Some (sc_ke s)) || bool_decide (is_Some (sc_nonce s)) then
      throw "control: retry IKE_SA_INIT response must not include SA/KE/NONCE"
    else if 0 <? len (sc_cookie s) then
      _ ← modify (λ st, st <| Cookie := sc_cookie s |>); mret SAInitRetryCookie
    else
      _ ← modify (λ st, st <| Cookie := [] |>); mret SAInitRetryDHGroup
  else
  match sc_sa s with
  | None => throw "control: IKE_SA_INIT response missing SA payload"
  | Some sa =>
      if responderSPI =? 0 then
        throw "control: IKE_SA_INIT response without responder SPI did not request COOKIE/INVALID_KE_PAYLOAD"
      else
      match sc_nonce s, sc_ke s with
      | None, _ => throw "control: IKE_SA_INIT response missing Nr"
      | _, None => throw "control: IKE_SA_INIT response missing KE"
      | Some nonce, Some ke =>
          selection ← lift (decodeIKESelection cfg sa);
          _ ← modify (λ st, st <| Cookie := [] |> <| SelectedIKE := Some selection |>
                               <| St_ResponderSPI := responderSPI |> <| ResponderNonce := nonce |>
                               <| ResponderKE := ke |>);
          st ← gets id;
          detected ← lift (natDetected cfg st);
          _ ← modify (λ st, st <| NAT := NAT st <| Detected := detected |> |>);
          mret SAInitEstablished
      end
  end.

(** The private key is dropped whether or not the agreement succeeds. *)
Definition deriveIKEKeys : go State unit :=
  st ← gets id;
  match LocalDH st with
  | None => throw "control: missing local DH keypair"
  | Some dh =>
      match SelectedIKE st, St_IKEKeys st with
      | Some sel, None =>
          if (len (InitiatorNonce st) =? 0) || (len (ResponderNonce st) =? 0) ||
             (len (KE_Data (ResponderKE st)) =? 0) then throw "control: IKE_SA_INIT is incomplete"
          else
          _ ← modify (λ st, st <| LocalDH := None |>);
          shared ← lift (wrap "control: derive DH shared secret: " (ECDH dh (KE_Data (ResponderKE st))).2);
          skeyseed ← lift (wrap "control: derive SKEYSEED: "
            (SKEYSEED (Sel_PRF sel) (InitiatorNonce st) (ResponderNonce st) shared));
          keys ← lift (match Sel_PRF sel, Sel_Encryption sel with
                       | Some prf, Some enc =>
                           wrap "control: derive IKE keys: "
                             (DeriveIKEKeys prf skeyseed (InitiatorNonce st) (ResponderNonce st)
                                (St_InitiatorSPI st) (St_ResponderSPI st) enc (Sel_Integrity sel))
                       | _, _ => Panic
                       end);
          modify (λ st, st <| St_IKEKeys := Some keys |>)
      | _, _ => throw "control: missing IKE selection"
      end
  end.
End SAInit.

(* ------------------------------------------------------------------ *)
(** ** child_sa.go *)

Record cesSpiNotify := mkCesSpiNotify { csn_typ : Z; csn_protocol : Z; csn_spi : Z }.

Definition cesU32 (b : list Z) : res Z :=
  b0 ← b.[0]; b1 ← b.[1]; b2 ← b.[2]; b3 ← b.[3];
  Ok (Z.lor (Z.lor (Z.lor (Z.shiftl b0 24) (Z.shiftl b1 16)) (Z.shiftl b2 8)) b3).

Fixpoint cesValidateSpiNotifies (notifies : list cesSpiNotify) (expectedOutbound inbound : Z) : res unit :=
  match notifies with
  | [] => Ok tt
  | n :: notifies =>
      if negb (csn_protocol n =? DeleteProtocolESP) then Err "control: unexpected SPI-scoped notify protocol %d"
      else if negb (csn_spi n =? expectedOutbound) && negb (csn_spi n =? inbound) then
        Err "control: SPI-scoped notify %d unexpected SPI 0x%08x"
      else cesValidateSpiNotifies notifies expectedOutbound inbound
  end.

(** [None] is the empty reason. *)
Fixpoint cesChildFailureReason (notifies : list Notify) : option string :=
  match notifies with
  | [] => None
  | n :: notifies =>
      let t := Notify_Type n in
      if t =? NotifyNoProposalChosen then Some "NO_PROPOSAL_CHOSEN"%string
      else if t =? NotifySinglePairRequired then Some "SINGLE_PAIR_REQUIRED"%string
      else if t =? NotifyNoAdditionalSAs then Some "NO_ADDITIONAL_SAS"%string
      else if t =? NotifyInternalAddressFailure then Some "INTERNAL_ADDRESS_FAILURE"%string
      else if t =? NotifyFailedCPRequired then Some "FAILED_CP_REQUIRED"%string
      else if t =? NotifyTSUnacceptable then Some "TS_UNACCEPTABLE"%string
      else cesChildFailureReason notifies
  end.

Record cesAssignedMask := mkCesAssignedMask {
  m_v4Addr : bool; m_v4DNS : bool; m_v6Addr : bool; m_v6DNS : bool; m_expiry : bool }.
#[global] Instance eta_cesAssignedMask : Eta cesAssignedMask := λ m,
  mkCesAssignedMask (m_v4Addr m) (m_v4DNS m) (m_v6Addr m) (m_v6DNS m) (m_expiry m).
#[global] Instance eta_AssignedConfig : Eta AssignedConfig := λ a,
  mkAssignedConfig (InternalIPv4 a) (InternalIPv6 a) (InternalIPv6Prefix a) (DNS4 a) (DNS6 a) (AddressExpirySeconds a).

Definition no_assigned : AssignedConfig := mkAssignedConfig [] [] 0 [] [] 0.

Definition ip4_of (v : list Z) : res IP :=
  a ← v.[0]; b ← v.[1]; c ← v.[2]; d ← v.[3]; Ok (IPv4 a b c d).

Definition assign_attribute (attr : ConfigAttribute) (out : AssignedConfig) (mask : cesAssignedMask) :
    res (AssignedConfig * cesAssignedMask) :=
  let v := Value attr in
  if Attr_Type attr =? ConfigAttrInternalIPv4Address then
    if len v =? 0 then Ok (out, mask)
    else if negb (len v =? 4) then Err "control: invalid INTERNAL_IP4_ADDRESS length %d"
    else ip ← ip4_of v; Ok (out <| InternalIPv4 := ip |>, mask <| m_v4Addr := true |>)
  else if Attr_Type attr =? ConfigAttrInternalIPv4DNS then
    if negb (len v =? 4) then Err "control: invalid INTERNAL_IP4_DNS length %d"
    else ip ← ip4_of v; Ok (out <| DNS4 := DNS4 out ++ [ip] |>, mask <| m_v4DNS := true |>)
  else if Attr_Type attr =? ConfigAttrInternalIPv6Address then
    if len v =? 0 then Ok (out, mask)
    else if negb (len v =? 17) then Err "control: invalid INTERNAL_IP6_ADDRESS length %d"
    else
      prefix ← v.[16];
      if 128 <? prefix then Err "control: invalid INTERNAL_IP6_ADDRESS prefix length %d"
      else
      ip ← v.[0, 16];
      Ok (out <| InternalIPv6 := ip |> <| InternalIPv6Prefix := prefix |>, mask <| m_v6Addr := true |>)
  else if Attr_Type attr =? ConfigAttrInternalIPv6DNS then
    if negb (len v =? 16) then Err "control: invalid INTERNAL_IP6_DNS length %d"
    else Ok (out <| DNS6 := DNS6 out ++ [v] |>, mask <| m_v6DNS := true |>)
  else if Attr_Type attr =? ConfigAttrInternalAddressExpiry then
    if len v =? 4 then
      e ← cesU32 v; Ok (out <| AddressExpirySeconds := e |>, mask <| m_expiry := true |>)
    else Ok (out, mask)
  else Ok (out, mask).

Fixpoint assign_attributes (attrs : list ConfigAttribute) (out : AssignedConfig) (mask : cesAssignedMask) :
    res (AssignedConfig * cesAssignedMask) :=
  match attrs with
  | [] => Ok (out, mask)
  | attr :: attrs => '(out, mask) ← assign_attribute attr out mask; assign_attributes attrs out mask
  end.

Definition cesDecodeAssignedCP (cp : ConfigPayload) : res (AssignedConfig * cesAssignedMask) :=
  assign_attributes (Attributes cp) no_assigned (mkCesAssignedMask false false false false false).

Definition cesDecodeAssigned (b : list Z) : res AssignedConfig :=
  cp ← ParseConfigPayload b;
  if negb (Kind cp =? ConfigTypeReply) && negb (Kind cp =? ConfigTypeSet) then
    Err "control: expected CFG_REPLY or CFG_SET"
  else '(assigned, _) ← cesDecodeAssignedCP cp; Ok assigned.

Definition cesCheckSelector (sel : Selector) : res unit :=
  if negb (TS_ProtocolID sel =? 0) then Err "selector must use protocol 0, got %d"
  else if negb (StartPort sel =? 0) || negb (EndPort sel =? 65535) then Err "selector must allow all ports"
  else Ok tt.

Definition cesAcceptWindowsLinkLocalTS (start end_ assigned : IP) : res bool :=
  if negb (IP_Equal start end_) then Ok false
  else
  ll ← IsLinkLocalUnicast start;
  if negb ll then Ok false
  else
  match To16 assigned, To16 start with
  | Some a16, Some s16 => s ← slice_from s16 8; a ← slice_from a16 8; Ok (IP_Equal s a)
  | _, _ => Ok false
  end.

Definition TSTypeIPv4AddrRange : Z := 7.
Definition TSTypeIPv6AddrRange : Z := 8.

Definition check_tsi (assigned : AssignedConfig) (sel : Selector) : res unit :=
  _ ← wrap "control: invalid TSi selector: " (cesCheckSelector sel);
  if TS_Type sel =? TSTypeIPv4AddrRange then
    if len (InternalIPv4 assigned) =? 0 then Err "control: TSi is IPv4 (%s-%s) but CP has no INTERNAL_IP4_ADDRESS"
    else if negb (IP_Equal (StartAddr sel) (InternalIPv4 assigned)) || negb (IP_Equal (EndAddr sel) (InternalIPv4 assigned)) then
      Err "control: TSi v4 %s-%s must narrow to the CP-assigned INTERNAL_IP4_ADDRESS %s"
    else Ok tt
  else if TS_Type sel =? TSTypeIPv6AddrRange then
    if len (InternalIPv6 assigned) =? 0 then Err "control: TSi is IPv6 (%s-%s) but CP has no INTERNAL_IP6_ADDRESS"
    else if negb (IP_Equal (StartAddr sel) (InternalIPv6 assigned)) || negb (IP_Equal (EndAddr sel) (InternalIPv6 assigned)) then
      ok ← cesAcceptWindowsLinkLocalTS (StartAddr sel) (EndAddr sel) (InternalIPv6 assigned);
      if negb ok then Err "control: TSi v6 %s-%s must narrow to the CP-assigned INTERNAL_IP6_ADDRESS %s"
      else Ok tt
    else Ok tt
  else Err "control: unsupported TSi traffic selector type %d".

Definition check_tsr (sel : Selector) : res unit :=
  _ ← wrap "control: invalid TSr selector: " (cesCheckSelector sel);
  if negb (TS_Type sel =? TSTypeIPv4AddrRange) && negb (TS_Type sel =? TSTypeIPv6AddrRange) then
    Err "control: unsupported TSr traffic selector type %d"
  else Ok tt.

Fixpoint check_all {A} (check : A → res unit) (l : list A) : res unit :=
  match l with [] => Ok tt | x :: l => _ ← check x; check_all check l end.

Definition validateTrafficSelectors (tsi tsr : list Selector) (assigned : AssignedConfig) : res unit :=
  if (len tsi =? 0) || (len tsr =? 0) then Err "control: final IKE_AUTH TS payload has empty selectors"
  else
  _ ← check_all (check_tsi assigned) tsi;
  check_all check_tsr tsr.

(** What [processFinalAuth] collects; the last payload of a kind wins. *)
Record final_scan := mkFinalScan {
  fs_auth : option Auth; fs_idr : list Z; fs_eap : list Z; fs_sa : option SA; fs_tsi : list Z;
  fs_tsr : list Z; fs_cp : list Z; fs_certs : list (list Z); fs_notifies : list Notify;
  fs_spi : list cesSpiNotify }.
#[global] Instance eta_final_scan : Eta final_scan := λ s,
  mkFinalScan (fs_auth s) (fs_idr s) (fs_eap s) (fs_sa s) (fs_tsi s) (fs_tsr s) (fs_cp s) (fs_certs s)
    (fs_notifies s) (fs_spi s).

Definition scan_final_payload (p : Wire.Payload) (s : final_scan) : res final_scan :=
  let body := Body p in
  let t := Payload_Type p in
  if t =? PayloadTypeAuth then a ← ParseAuth body; Ok (s <| fs_auth := Some a |>)
  else if t =? PayloadTypeIDr then Ok (s <| fs_idr := body |>)
  else if t =? PayloadTypeEAP then Ok (s <| fs_eap := body |>)
  else if t =? PayloadTypeCert then
    der ← parse_cert "" body; Ok (s <| fs_certs := fs_certs s ++ [der] |>)
  else if t =? PayloadTypeSA then sa ← ParseSA body; Ok (s <| fs_sa := Some sa |>)
  else if t =? PayloadTypeTSi then Ok (s <| fs_tsi := body |>)
  else if t =? PayloadTypeTSr then Ok (s <| fs_tsr := body |>)
  else if t =? PayloadTypeCP then Ok (s <| fs_cp := body |>)
  else if t =? PayloadTypeNotify then
    n ← ParseNotify body;
    let s := s <| fs_notifies := fs_notifies s ++ [n] |> in
    if 0 <? len (Notify_SPI n) then
      if negb (len (Notify_SPI n) =? 4) then Err "control: unexpected SPI size in final IKE_AUTH notify"
      else if negb (isChildFailureNotify (Notify_Type n)) then
        Err "control: unexpected SPI-scoped notify %d in final IKE_AUTH"
      else
      spi ← cesU32 (Notify_SPI n);
      Ok (s <| fs_spi := fs_spi s ++ [mkCesSpiNotify (Notify_Type n) (Notify_ProtocolID n) spi] |>)
    else Ok s
  else Ok s.

Fixpoint scan_final (ps : list Wire.Payload) (s : final_scan) : res final_scan :=
  match ps with [] => Ok s | p :: ps => s ← scan_final_payload p s; scan_final ps s end.

Definition empty_final_scan : final_scan := mkFinalScan None [] [] None [] [] [] [] [] [].

Section FinalAuth.
Context {C : Crypto} {XC : X509}.

Definition buildFinalAuthRequest (cfg : Config) (msgID : Z) (random : Z → Z → res (list Z)) :
    go State (list (list Z)) :=
  if len (ID_Data (IDI cfg)) =? 0 then throw "control: local identity missing before final AUTH"
  else
  st ← gets id;
  localAuth ← lift (buildLocalAuth st (IDI cfg));
  let idr := if negb (ID_Type (RightID cfg) =? 0) then [(PayloadTypeIDr, AppendID [] (RightID cfg))] else [] in
  let first := if negb (ID_Type (RightID cfg) =? 0) then PayloadTypeIDr else PayloadTypeIDi in
  let idBody := if 0 <? len (FirstIDiPayload (St_Auth st)) then FirstIDiPayload (St_Auth st)
                else AppendID [] (IDI cfg) in
  let parts := idr ++ [(PayloadTypeIDi, idBody); (PayloadTypeAuth, AppendAuth [] localAuth)] in
  lift (buildProtectedState (Some cfg) st ExchangeIkeAuth msgID first (cesBuildChain parts) random).

(** The identity and AUTH half of [processFinalAuth]. *)
Definition authenticate_final (cfg : Config) (s : final_scan) : go State unit :=
  if negb (len (fs_eap s) =? 0) then throw "control: final IKE_AUTH response must not include EAP payload"
  else
  _ ← validateAuthNotifies (fs_notifies s);
  match fs_auth s with
  | None => throw "control: final IKE_AUTH response missing AUTH payload"
  | Some auth =>
      peerIDr ← effective_idr (fs_idr s);
      if len peerIDr <? 4 then throw "control: final IKE_AUTH response missing IDr payload"
      else
      _ ← recordPeerIdentity cfg peerIDr;
      _ ← record_certs (fs_certs s);
      verifyPeerAuth cfg peerIDr auth
  end.

(** The CHILD_SA half: the child and whether the CP payload was CFG_SET. *)
Definition install_child (cfg : Config) (localInbound : Z) (s : final_scan) : go State (ChildSA * bool) :=
  match fs_sa s with
  | None =>
      match cesChildFailureReason (fs_notifies s) with
      | Some reason => throw ("control: CHILD_SA negotiation failed: " +:+ reason)
      | None => throw "control: final IKE_AUTH response missing CHILD_SA proposal"
      end
  | Some childSA =>
      st ← gets id;
      '(peerSPI, selection) ← lift (decodeChildSelection cfg (SelectedIKE st) childSA);
      _ ← lift (cesValidateSpiNotifies (fs_spi s) peerSPI localInbound);
      _ ← modify (λ st, st <| SelectedESP := Some selection |>);
      if len (fs_cp s) =? 0 then throw "control: final IKE_AUTH response missing CP payload"
      else
      cp ← lift (ParseConfigPayload (fs_cp s));
      if negb (Kind cp =? ConfigTypeReply) && negb (Kind cp =? ConfigTypeSet) then
        throw "control: final IKE_AUTH CP payload has unexpected kind %d"
      else
      '(assigned, _) ← lift (cesDecodeAssignedCP cp);
      if (len (InternalIPv4 assigned) =? 0) && (len (InternalIPv6 assigned) =? 0) then
        throw "control: final IKE_AUTH CP reply missing INTERNAL_IP4/6_ADDRESS"
      else if (len (fs_tsi s) =? 0) || (len (fs_tsr s) =? 0) then
        throw "control: final IKE_AUTH response missing TSi/TSr payload"
      else
      tsi ← lift (ParseTS (fs_tsi s));
      tsr ← lift (ParseTS (fs_tsr s));
      _ ← lift (validateTrafficSelectors tsi tsr assigned);
      let child := mkChildSA localInbound peerSPI (fs_tsi s) (fs_tsr s) true in
      _ ← modify (λ st, st <| Assigned := Some assigned |> <| NegotiatingChild := None |>
                           <| ActiveChild := Some child |>);
      mret (child, Kind cp =? ConfigTypeSet)
  end.

Definition processFinalAuth (cfg : Config) (m : Message) : go State (ChildSA * bool) :=
  negotiating ← gets NegotiatingChild;
  match negotiating with
  | None => throw "control: missing negotiating CHILD_SA state"
  | Some localInbound =>
      s ← lift (scan_final (Payloads m) empty_final_scan);
      _ ← authenticate_final cfg s;
      install_child cfg localInbound s
  end.

Definition deriveChildKeys (st : State) : res ChildKeys :=
  match St_IKEKeys st with
  | None => Err "control: IKE key material is missing"
  | Some keys =>
      if (len (InitiatorNonce st) =? 0) || (len (ResponderNonce st) =? 0) then Err "control: missing nonce material"
      else
      match SelectedIKE st, SelectedESP st with
      | Some ike, Some esp =>
          match Sel_Encryption esp with
          | Some enc =>
              DeriveChildKeys (Sel_PRF ike) (SKd keys) (InitiatorNonce st) (ResponderNonce st) [] enc (Sel_Integrity esp)
          | None => Panic
          end
      | _, _ => Err "control: missing selected algorithms"
      end
  end.
End FinalAuth.

(* ------------------------------------------------------------------ *)
(** ** session.go: configuration defaults *)

(** [NearWrapThreshold] is not modelled (a float of the data plane). *)
Definition normalizeConfig (cfg : Config) : Config :=
  let t := Cfg_Timeouts cfg in
  let r := Cfg_Rekey cfg in
  let ifnot (v d : Z) := if v <=? 0 then d else v in
  let ikeTime := ifnot (Life_Time (Rekey_IKE r)) (4 * 3600 * 1000000000) in
  let childTime := ifnot (Life_Time (Rekey_Child r)) (3600 * 1000000000) in
  let rand := RandTime r in
  let rand := if (0 <? rand) && (ikeTime <? rand) then ikeTime else rand in
  let rand := if (0 <? RandTime r) && (childTime <? rand) then childTime else rand in
  mkConfig (PeerIP cfg) (LocalIP cfg) (Cfg_IKE cfg) (Cfg_ESP cfg) (IDI cfg) (RightID cfg) (AAAIdentity cfg)
    (Cfg_EAP cfg) (InsecureSkipPeerCertVerify cfg) (StrongswanCompatible cfg)
    (mkRekeyConfig (mkLifetime ikeTime (Life_Bytes (Rekey_IKE r)) (Life_Packets (Rekey_IKE r)))
       (mkLifetime childTime (Life_Bytes (Rekey_Child r)) (Life_Packets (Rekey_Child r)))
       (ChildPFS r) rand (ifnot (RetryInterval r) (30 * 1000000000)))
    (mkTimeouts (ifnot (InitialRTO t) (InitialRTO DefaultTimeouts)) (ifnot (MaxRTO t) (MaxRTO DefaultTimeouts))
       (if MaxRetries t =? 0 then MaxRetries DefaultTimeouts else MaxRetries t) (Keepalive t)
       (ifnot (Cfg_SkfReassemblyTimeout t) (Cfg_SkfReassemblyTimeout DefaultTimeouts)))
    (ifnot (Cfg_FragmentPlaintextLimit cfg) FragmentPlaintextLimit) (DataUpdates cfg).

(** [New]: the configuration it keeps and the state it allocates. *)
Definition control_New (cfg : option Config) : res (Config * State) :=
  match cfg with
  | None => Err "control: nil config"
  | Some cfg =>
      let cfg := normalizeConfig cfg in
      _ ← Config_Validate cfg;
      Ok (cfg, NewState)
  end.

(* ------------------------------------------------------------------ *)
(** ** The world of a run *)

(** events/hub.go: what the control plane posts. *)
Inductive Stage := StageIKEInit | StageIKEAuth | StageEAP | StageChildSA | StageRunning.
Inductive Event :=
  | EventStageChanged (s : Stage)
  | EventEapProcess (state : string) (round : Z)
  | EventNegotiatedAlgorithm (protocol encryption integrity prf dh : string)
  | EventBroken (reason : string)
  | EventStopped.

Record World := mkWorld {
  w_st : State;
  w_in : list wait_event;
  w_sent : list (list Z);
  w_events : list Event;
  w_draws : Z }.
#[global] Instance eta_World : Eta World := λ w,
  mkWorld (w_st w) (w_in w) (w_sent w) (w_events w) (w_draws w).

Definition on_state {A} (m : go State A) : go World A := λ w,
  let '(st, r) := m (w_st w) in (w <| w_st := st |>, r).
Definition emit (ev : Event) : go World unit := modify (λ w, w <| w_events := w_events w ++ [ev] |>).
Definition put (frames : list (list Z)) : go World unit := modify (λ w, w <| w_sent := w_sent w ++ frames |>).

(** A receive loop run on the events still to come; it hangs while it waits. *)
Definition on_wait {A} (loop : State → list wait_event → State * list (list Z) * waited A) : go World A := λ w,
  match loop (w_st w) (w_in w) with
  | (st, sent, Waiting) => (w <| w_st := st |> <| w_in := [] |> <| w_sent := w_sent w ++ sent |>, Hang)
  | (st, sent, Returned r rest) =>
      (w <| w_st := st |> <| w_in := rest |> <| w_sent := w_sent w ++ sent |>, r)
  end.

Definition send_request (frames : list (list Z)) : go World unit :=
  sent ← on_state (λ st, sendRequest st frames);
  put sent.

(** session.go: the demultiplexer in front of the control mailbox. *)
Definition startDemux (events : list wait_event) : list wait_event :=
  List.filter (λ e, match e with EvNil => false | EvPacket ike _ _ => ike | _ => true end) events.

(** session.go: the group an INVALID_KE_PAYLOAD notify asks for. *)
Fixpoint invalid_ke_group (ps : list Wire.Payload) : res Z :=
  match ps with
  | [] => Ok 0
  | p :: ps =>
      if negb (Payload_Type p =? PayloadTypeNotify) then invalid_ke_group ps
      else
      match ParseNotify (Body p) with
      | Ok n =>
          if negb (Notify_Type n =? NotifyInvalidKePayload) || negb (len (Notify_Data n) =? 2) then invalid_ke_group ps
          else a ← (Notify_Data n).[0]; b ← (Notify_Data n).[1]; Ok (Z.lor (Z.shiftl a 8) b)
      | Err _ => invalid_ke_group ps
      | Panic => Panic
      | Hang => Hang
      end
  end.
Definition invalidKEDHGroup (m : Message) : res Z := invalid_ke_group (Payloads m).

Definition prfName (p : option PRF) : string :=
  match p with
  | None => ""
  | Some p =>
      if PRF_TransformID p =? TransformPRFHMACSHA1 then "prfsha1"
      else if PRF_TransformID p =? TransformPRFHMACSHA256 then "prfsha2_256"
      else if PRF_TransformID p =? TransformPRFHMACSHA512 then "prfsha2_512"
      else "#%d"
  end.

Definition integrityName (i : option Integrity) : string :=
  match i with
  | None => ""
  | Some i =>
      if Integ_TransformID i =? TransformIntegrityHMACSHA196 then "sha1_96"
      else if Integ_TransformID i =? TransformIntegrityHMACSHA2256128 then "sha2_256_128"
      else if Integ_TransformID i =? TransformIntegrityHMACSHA2512256 then "sha2_512_256"
      else "#%d"
  end.

Definition dhName (d : option DH) : string :=
  match d with
  | None => ""
  | Some d => if bool_decide (DH_Name d = ""%string) then "#%d" else DH_Name d
  end.

Definition emitNegotiatedIKE : go World unit :=
  st ← gets w_st;
  match SelectedIKE st with
  | Some {| Sel_Encryption := Some enc; Sel_Integrity := integ; Sel_PRF := prf; Sel_DH := dh |} =>
      emit (EventNegotiatedAlgorithm "ike" (Enc_Name enc) (if AEAD enc then "" else integrityName integ)
              (prfName prf) (dhName dh))
  | _ => mret tt
  end.

Definition emitNegotiatedESP : go World unit :=
  st ← gets w_st;
  match SelectedESP st with
  | Some {| Sel_Encryption := Some enc; Sel_Integrity := integ |} =>
      emit (EventNegotiatedAlgorithm "esp" (Enc_Name enc) (if AEAD enc then "" else integrityName integ) "" "")
  | _ => mret tt
  end.

(** The hand-off bundle; its channels belong to the running actor. *)
Record Established := mkEstablished {
  Est_Assigned : AssignedConfig; Est_Child : ChildSA; Est_State : State;
  Est_IKEKeys : option IKEKeys; Est_ChildKeys : ChildKeys; Est_Selection : Selection }.

Section Run.
Context {C : Crypto} {X : X25519} {XC : X509}.
Context {M : Type} {IM : Method M} (newMethod : EapConfig → res M).
(** [rng n i len]: what the [n]-th use of crypto/rand yields ([i]: fragment). *)
Context (rng : Z → Z → Z → res (list Z)).
Context (cfg : Config).

Definition draw : go World (Z → Z → res (list Z)) := λ w,
  (w <| w_draws := w_draws w + 1 |>, Ok (rng (w_draws w))).

(* ------------------------------------------------------------------ *)
(** ** eap_peer.go *)

Definition maxEAPRounds : nat := 64.

(** [EapPeer.start]: build and initialize the method. *)
Definition eap_start : go World M :=
  m ← lift (wrap "control: build eap method: " (newMethod (Cfg_EAP cfg)));
  let '(m, r) := Method_Initialize m in
  _ ← lift (wrap "control: initialize eap method %s: " r);
  mret m.

(** [EapPeer.recv] *)
Definition eap_recv (firstResponse : bool) : go World (list Z) :=
  st ← gets w_st;
  if negb (HasExpectedResponse st) then throw "control: missing expected IKE_AUTH response message-id"
  else
  let msgID := ExpectedResponseMessageID st in
  '(msg, _) ← on_wait (λ st events, recvProtectedPayloads cfg st ExchangeIkeAuth msgID events);
  eapPayload ← on_state (handleAuthResponse cfg msg firstResponse);
  if len eapPayload =? 0 then throw "control: IKE_AUTH response missing EAP payload (round %d)"
  else
  _ ← emit (EventEapProcess "request" (u16 msgID));
  mret eapPayload.

(** [EapPeer.send] *)
Definition eap_send (data : list Z) : go World Z :=
  msgID ← on_state (λ st, let '(st, id) := beginRequest st in (st, Ok id));
  random ← draw;
  frames ← on_state (λ st, (st, buildProtectedState (Some cfg) st ExchangeIkeAuth msgID PayloadTypeEAP
                                  (cepSinglePayload data) random));
  _ ← send_request frames;
  mret msgID.

(** The loop of [runEAP] with [n] rounds to go; the worker answers one round
    at a time. *)
Fixpoint eap_loop (n : nat) (m : M) (firstResponse : bool) : go World unit :=
  match n with
  | O => throw "control: eap loop exceeded %d rounds"
  | S n =>
      pkt ← eap_recv firstResponse;
      roundID ← gets (λ w, u16 (NextRequestMessageID (w_st w)));
      random ← draw;
      let '(m, r) := Method_Handle m pkt roundID (random 0 16) in
      result ← lift (wrap "control: eap method round %d: " r);
      match Res_Action result with
      | ActionSend =>
          sentID ← eap_send (Response result);
          _ ← emit (EventEapProcess "response" (u16 sentID));
          eap_loop n m false
      | ActionComplete =>
          _ ← on_state (modify (λ st, st <| St_Auth := St_Auth st <| LocalEAPMSK := ExportedMSK result |> |>));
          emit (EventEapProcess "completed" 0)
      end
  end.

Definition runEAP : go World unit :=
  _ ← on_state (modify (λ st, st <| St_Phase := PhaseAuthEAPInProgress |>));
  m ← eap_start;
  _ ← emit (EventEapProcess "started" 0);
  eap_loop maxEAPRounds m true.

(* ------------------------------------------------------------------ *)
(** ** session.go: the run *)

(** The SA_INIT attempts, [n] of them to go. *)
Fixpoint sa_init_loop (n : nat) (forcedDHGroup : Z) : go World unit :=
  match n with
  | O => throw "control: ike_sa_init did not complete after retry handling"
  | S n =>
      _ ← on_state (modify (λ st, st <| St_Phase := PhaseSAInitSent |>));
      r_spi ← draw; r_nonce ← draw; r_key ← draw;
      frames ← on_state (buildSAInitRequest cfg forcedDHGroup (r_spi 0 8) (r_nonce 0) (r_key 0 32));
      _ ← send_request frames;
      msg ← on_wait (λ st events, waitSAInitResponse cfg st events);
      requestedGroup ← lift (invalidKEDHGroup msg);
      outcome ← on_state (applySAInitResponse cfg msg);
      match outcome with
      | SAInitEstablished => mret tt
      | SAInitRetryCookie =>
          if (n =? 0)%nat then throw "control: peer requested too many COOKIE retries"
          else sa_init_loop n forcedDHGroup
      | SAInitRetryDHGroup =>
          if requestedGroup =? 0 then throw "control: INVALID_KE_PAYLOAD retry without a DH group"
          else if (n =? 0)%nat then throw "control: peer requested too many INVALID_KE_PAYLOAD retries"
          else sa_init_loop n requestedGroup
      end
  end.

Definition set_st (f : State → State) : go World unit := on_state (modify f).
Definition begin_request : go World Z := on_state (λ st, let '(st, id) := beginRequest st in (st, Ok id)).

(** IKE_SA_INIT and the IKE keys. *)
Definition stage_sa_init : go World unit :=
  _ ← emit (EventStageChanged StageIKEInit);
  _ ← sa_init_loop MaxSAInitAttempts 0;
  _ ← on_state deriveIKEKeys;
  _ ← emitNegotiatedIKE;
  set_st (λ st, st <| NextRequestMessageID := 1 |> <| HasExpectedResponse := false |>
                   <| ExpectedResponseMessageID := 0 |> <| St_Phase := PhaseSAInitEstablished |>).

(** The first IKE_AUTH request and the EAP rounds. *)
Definition stage_eap : go World unit :=
  _ ← set_st (λ st, st <| St_Phase := PhaseAuthBootstrap |>);
  _ ← emit (EventStageChanged StageIKEAuth);
  bootstrapID ← begin_request;
  r_spi ← draw; random ← draw;
  frames ← on_state (buildBootstrapAuthRequest cfg bootstrapID (r_spi 0 4) random);
  _ ← send_request frames;
  _ ← emit (EventStageChanged StageEAP);
  runEAP.

(** The ESP selection is announced also when the rest of the response fails. *)
Definition process_final (m : Message) : go World bool := λ w,
  match on_state (processFinalAuth cfg m) w with
  | (w, Ok (_, cfgSet)) => (w, Ok cfgSet)
  | (w, Err e) => let '(w, _) := emitNegotiatedESP w in (w, Err e)
  | (w, Panic) => (w, Panic)
  | (w, Hang) => (w, Hang)
  end.

Definition ack_config (finalID : Z) : go World unit :=
  random ← draw;
  frames ← on_state (λ st, (st,
    body ← AppendConfigPayload [] (mkConfigPayload ConfigTypeAck []);
    buildProtectedStateAs (Some cfg) st ExchangeIkeAuth finalID PayloadTypeCP (cepSinglePayload body)
      (responseFlags (stateIKEEnvelope st)) random));
  put frames.

(** The final IKE_AUTH exchange and the CHILD_SA keys. *)
Definition stage_child : go World ChildKeys :=
  _ ← set_st (λ st, st <| St_Phase := PhaseChildInstalling |>);
  _ ← emit (EventStageChanged StageChildSA);
  finalID ← begin_request;
  random ← draw;
  frames ← on_state (buildFinalAuthRequest cfg finalID random);
  _ ← send_request frames;
  '(finalMsg, _) ← on_wait (λ st events, recvProtectedPayloads cfg st ExchangeIkeAuth finalID events);
  cfgSet ← process_final finalMsg;
  _ ← (if (cfgSet : bool) then ack_config finalID else mret tt);
  _ ← emitNegotiatedESP;
  on_state (λ st, (st, deriveChildKeys st)).

Definition hand_off (childKeys : ChildKeys) : go World Established :=
  st ← gets w_st;
  match Assigned st, SelectedESP st, ActiveChild st with
  | None, _, _ => throw "control: handshake completed without assigned configuration"
  | _, None, _ => throw "control: handshake completed without ESP selection"
  | _, _, None => throw "control: handshake completed without an active CHILD_SA"
  | Some assigned, Some esp, Some child =>
      if len (LocalEAPMSK (St_Auth st)) =? 0 then throw "control: handshake completed without EAP MSK"
      else
      _ ← set_st (λ st, st <| St_Phase := PhaseRunning |> <| HasExpectedResponse := false |>
                           <| ExpectedResponseMessageID := 0 |>);
      _ ← emit (EventStageChanged StageRunning);
      st ← gets w_st;
      mret (mkEstablished assigned child st (St_IKEKeys st) childKeys esp)
  end.

Definition handshake_steps : go World Established :=
  _ ← set_st (λ st, Reset st <| St_Phase := PhaseStarting |> <| NextRequestMessageID := 0 |>
                      <| ExpectedResponseMessageID := 0 |> <| HasExpectedResponse := true |>);
  _ ← stage_sa_init;
  _ ← stage_eap;
  childKeys ← stage_child;
  hand_off childKeys.

Definition buildAuthFailedNotify (random : Z → Z → res (list Z)) : go State (list (list Z)) :=
  notifyBody ← lift (AppendNotify [] (mkNotify 0 [] NotifyAuthenticationFailed []));
  st ← gets id;
  let exchange := if bool_decide (St_Phase st ∈ [PhaseAuthBootstrap; PhaseAuthEAPInProgress; PhaseChildInstalling])
                  then ExchangeIkeAuth else ExchangeInformational in
  let msgID := NextRequestMessageID st in
  _ ← modify (λ st, st <| NextRequestMessageID := u32 (msgID + 1) |>);
  st ← gets id;
  lift (buildProtectedState (Some cfg) st exchange msgID PayloadTypeNotify (cepSinglePayload notifyBody) random).

(** The unified failure path; the notify is best effort. *)
Definition fail (e : string) (w : World) : World :=
  let st := w_st w in
  let w :=
    if negb (St_ResponderSPI st =? 0) && bool_decide (is_Some (St_IKEKeys st)) && negb (SuppressAuthFailedNotify st) then
      match (random ← draw; on_state (buildAuthFailedNotify random)) w with
      | (w, Ok frames) => w <| w_sent := w_sent w ++ frames |>
      | (w, _) => w
      end
    else w in
  let w := w <| w_st := ClearSession (w_st w <| FailureReason := e |>) <| St_Phase := PhaseStopped |> |> in
  w <| w_events := w_events w ++ [EventBroken e; EventStopped] |>.

Definition runHandshake (w : World) : World * res Established :=
  match handshake_steps w with
  | (w, Err e) => (fail e w, Err e)
  | r => r
  end.

(** [Control.Run] on the packets that arrive. *)
Definition control_Run (st : State) (events : list wait_event) : World * res Established :=
  runHandshake (mkWorld st (startDemux events) [] [] 0).
End Run.

(* ------------------------------------------------------------------ *)
(** ** Lemmas: the final response *)

(** Takes the head of a successful run apart. *)
Ltac go_step H s a E := apply go_bind_Ok in H; destruct H as (s & a & E & H).
(** The same when the head reads or computes and leaves the state alone. *)
Ltac go_pure H a E :=
  let s := fresh "s" in
  apply go_bind_Ok in H; destruct H as (s & a & E & H); apply pair_equal_spec in E; destruct E as [<- E].
(** The same when the head is an assignment. *)
Ltac go_set H :=
  let s := fresh "s" in let a := fresh "a" in let E := fresh "E" in
  apply go_bind_Ok in H; destruct H as (s & a & E & H); apply pair_equal_spec in E; destruct E as [<- _]; clear a.

(** A selector of the initiator side covers the assigned address only, or is
    the Windows form: one link-local address with its interface identifier. *)
Inductive narrowed (assigned : AssignedConfig) (sel : Selector) : Prop :=
  | narrowed_v4 : TS_Type sel = TSTypeIPv4AddrRange → InternalIPv4 assigned ≠ [] →
      IP_Equal (StartAddr sel) (InternalIPv4 assigned) = true → IP_Equal (EndAddr sel) (InternalIPv4 assigned) = true →
      narrowed assigned sel
  | narrowed_v6 : TS_Type sel = TSTypeIPv6AddrRange → InternalIPv6 assigned ≠ [] →
      IP_Equal (StartAddr sel) (InternalIPv6 assigned) = true → IP_Equal (EndAddr sel) (InternalIPv6 assigned) = true →
      narrowed assigned sel
  | narrowed_link_local a16 s16 : TS_Type sel = TSTypeIPv6AddrRange → InternalIPv6 assigned ≠ [] →
      IP_Equal (StartAddr sel) (EndAddr sel) = true → IsLinkLocalUnicast (StartAddr sel) = Ok true →
      To16 (InternalIPv6 assigned) = Some a16 → To16 (StartAddr sel) = Some s16 → drop 8 s16 = drop 8 a16 →
      narrowed assigned sel.

Definition all_traffic (sel : Selector) : Prop := TS_ProtocolID sel = 0 ∧ StartPort sel = 0 ∧ EndPort sel = 65535.

Lemma len_zero {A} (l : list A) : (len l =? 0) = false → l ≠ [].
Proof. by intros H ->. Qed.

Lemma cesCheckSelector_Ok sel : cesCheckSelector sel = Ok tt → all_traffic sel.
Proof. unfold cesCheckSelector, all_traffic. intros H. inv_ok. lia. Qed.

Lemma To16_len ip b : To16 ip = Some b → len b = 16.
Proof.
  unfold To16. destruct (len ip =? 4) eqn:E; [|destruct (len ip =? 16) eqn:E6; [|done]]; intros [= <-]; [|lia].
  change (len (v4InV6Prefix ++ ip) = 16). rewrite len_app. change (len v4InV6Prefix) with 12. lia.
Qed.

Lemma windows_ts_Ok start end_ assigned : cesAcceptWindowsLinkLocalTS start end_ assigned = Ok true →
  IP_Equal start end_ = true ∧ IsLinkLocalUnicast start = Ok true ∧
  ∃ a16 s16, To16 assigned = Some a16 ∧ To16 start = Some s16 ∧ drop 8 s16 = drop 8 a16.
Proof.
  unfold cesAcceptWindowsLinkLocalTS. destruct (IP_Equal start end_); [|done]. cbn [negb]. intros H.
  apply bind_Ok in H as ([] & Hl & H); [|done]. cbn [negb] in H. split; [done|]. split; [done|].
  destruct (To16 assigned) as [a16|] eqn:Ea; [|done]. destruct (To16 start) as [s16|] eqn:Es; [|done].
  pose proof (To16_len _ _ Ea). pose proof (To16_len _ _ Es).
  unfold slice_from in H. rewrite (slice_eq s16 8 (len s16) (drop 8 s16)) in H by (lia || (apply firstn_all2; rewrite length_drop; unfold len in *; lia)).
  rewrite (slice_eq a16 8 (len a16) (drop 8 a16)) in H by (lia || (apply firstn_all2; rewrite length_drop; unfold len in *; lia)).
  cbn [mbind res_bind] in H. injection H as H. unfold IP_Equal in H. exists a16, s16. split; [done|]. split; [done|].
  unfold len in *. rewrite !length_drop in H. replace (length a16) with (length s16) in H by lia.
  rewrite Z.eqb_refl in H. by apply bool_decide_eq_true in H.
Qed.

Lemma check_tsi_Ok assigned sel : check_tsi assigned sel = Ok tt → all_traffic sel ∧ narrowed assigned sel.
Proof.
  unfold check_tsi. intros H. apply bind_Ok in H as ([] & Hc & H). apply wrap_Ok, cesCheckSelector_Ok in Hc.
  split; [done|]. destruct (TS_Type sel =? TSTypeIPv4AddrRange) eqn:E4; [|destruct (TS_Type sel =? TSTypeIPv6AddrRange) eqn:E6; [|done]].
  - destruct (len (InternalIPv4 assigned) =? 0) eqn:El; [done|]. destruct (_ || _) eqn:Eo; [done|].
    apply orb_false_iff in Eo as [E1 E2]. apply negb_false_iff in E1, E2. apply narrowed_v4; [lia|by apply len_zero|done..].
  - destruct (len (InternalIPv6 assigned) =? 0) eqn:El; [done|]. destruct (_ || _) eqn:Eo.
    + apply bind_Ok in H as ([] & Hw & H); [|done]. apply windows_ts_Ok in Hw as (He & Hl & a16 & s16 & Ha & Hs & Hd).
      by eapply narrowed_link_local; [lia|by apply len_zero|..].
    + apply orb_false_iff in Eo as [E1 E2]. apply negb_false_iff in E1, E2. apply narrowed_v6; [lia|by apply len_zero|done..].
Qed.

Lemma check_all_Ok {A} (check : A → res unit) l : check_all check l = Ok tt → Forall (λ x, check x = Ok tt) l.
Proof.
  induction l as [|x l IH]; [constructor|]. cbn [check_all]. intros H. apply bind_Ok in H as ([] & H1 & H).
  constructor; auto.
Qed.

Section FinalLemmas.
Context {C : Crypto} {XC : X509}.

Lemma verifyPeerAuth_Ok cfg idr auth st st' : verifyPeerAuth cfg idr auth st = (st', Ok tt) →
  check_peer_auth cfg st idr auth = Ok tt ∧ st' = st <| St_Auth := St_Auth st <| PeerAuthMethod := Auth_Method auth |> |>.
Proof.
  unfold verifyPeerAuth. intros H. go_pure H x E. injection E as <-. go_pure H u E'. destruct u.
  apply pair_equal_spec in H as [<- _]. done.
Qed.

Lemma validateAuthNotifies_Ok ns st st' : validateAuthNotifies ns st = (st', Ok tt) → st' = st.
Proof.
  induction ns as [|n ns IH]; cbn [validateAuthNotifies]; [by intros [= ->]|].
  repeat case_match; auto; discriminate.
Qed.

(** The evidence depends on the transcript, the keys, the EAP key and the
    certificates only. *)
Lemma peer_proved_frame cfg st st' idr auth : authMaterial st' = authMaterial st →
  SAInitResponse st' = SAInitResponse st → InitiatorNonce st' = InitiatorNonce st →
  LocalEAPMSK (St_Auth st') = LocalEAPMSK (St_Auth st) → PeerCerts (St_Auth st') = PeerCerts (St_Auth st) →
  peer_proved cfg st idr auth → peer_proved cfg st' idr auth.
Proof.
  intros Hm Hr Hn Hk Hc [sel keys h Ha Hh Hmeth Hd|sel keys h Ha Hh Hmeth Hp].
  - apply (proved_mic _ _ _ _ sel keys h); [congruence|done..|]. unfold peerAuthSecret, peer_octets in *. by rewrite Hr, Hn, Hk.
  - apply (proved_cert _ _ _ _ sel keys h); [congruence|done..|]. destruct Hp as [Hp]. constructor.
    unfold peer_octets in *. by rewrite Hc, Hr, Hn.
Qed.

(** The fields an IKE_AUTH response may change in [Auth]. *)
Lemma authenticate_final_Ok cfg s st st' : authenticate_final cfg s st = (st', Ok tt) →
  ∃ auth a, st' = st <| St_Auth := a |> ∧ LocalEAPMSK a = LocalEAPMSK (St_Auth st) ∧
    PeerAuthMethod a = Auth_Method auth ∧ identity_ok cfg (PeerIDr a) ∧
    peer_proved cfg st' (PeerIDr a) auth.
Proof.
  unfold authenticate_final. destruct (negb _); [done|]. intros H. go_step H s1 u E. destruct u.
  apply validateAuthNotifies_Ok in E as ->. destruct (fs_auth s) as [auth|]; [|done].
  go_pure H idr E. destruct (_ <? 4); [done|]. go_step H s2 u Ei. destruct u.
  apply recordPeerIdentity_Ok in Ei as (Hid & ->). go_set H. apply verifyPeerAuth_Ok in H as [Hc ->].
  apply check_peer_auth_sound in Hc.
  destruct (0 <? len (fs_certs s)); eexists auth, _; (split; [reflexivity|]); repeat (split; [done|]);
    by eapply peer_proved_frame; [..|exact Hc].
Qed.

Definition child_installed (cfg : Config) (st : State) (child : ChildSA) (assigned : AssignedConfig) : Prop :=
  ∃ sa esp tsi tsr, decodeChildSelection cfg (SelectedIKE st) sa = Ok (OutboundSPI child, esp) ∧
    SelectedESP st = Some esp ∧ (InternalIPv4 assigned ≠ [] ∨ InternalIPv6 assigned ≠ []) ∧
    ParseTS (TSi child) = Ok tsi ∧ ParseTS (TSr child) = Ok tsr ∧ tsi ≠ [] ∧ tsr ≠ [] ∧
    Forall (λ s, all_traffic s ∧ narrowed assigned s) tsi ∧ Forall all_traffic tsr.

Lemma install_child_Ok cfg inbound s st st' child b : install_child cfg inbound s st = (st', Ok (child, b)) →
  ∃ esp assigned, st' = st <| SelectedESP := Some esp |> <| Assigned := Some assigned |> <| NegotiatingChild := None |>
      <| ActiveChild := Some child |> ∧
    InboundSPI child = inbound ∧ LocalChildInitiator child = true ∧ child_installed cfg st' child assigned.
Proof.
  unfold install_child. destruct (fs_sa s) as [sa|]; [|by destruct (cesChildFailureReason _)]. intros H.
  go_pure H x E. injection E as <-. go_pure H sel Ed. destruct sel as [peerSPI esp]. go_pure H u Ev. go_set H.
  destruct (len (fs_cp s) =? 0); [done|]. go_pure H cp Ecp. destruct (_ && _); [done|].
  go_pure H am Eas. destruct am as [assigned mask]. destruct (_ && _) eqn:Eaddr; [done|]. destruct (_ || _); [done|].
  go_pure H tsi Ei. go_pure H tsr Er. go_pure H v Ets. destruct v. go_set H.
  apply pair_equal_spec in H as [<- H]. injection H as <- <-. exists esp, assigned. do 3 (split; [done|]).
  exists sa, esp, tsi, tsr. do 2 (split; [done|]). split.
  { apply andb_false_iff in Eaddr as [?|?]; [left|right]; by apply len_zero. }
  do 2 (split; [done|]). unfold validateTrafficSelectors in Ets. destruct (_ || _) eqn:Ee; [done|].
  apply orb_false_iff in Ee as [? ?]. do 2 (split; [by apply len_zero|]).
  apply bind_Ok in Ets as ([] & Hi & Hr'). split.
  - eapply Forall_impl; [by apply check_all_Ok|]. intros x. apply check_tsi_Ok.
  - eapply Forall_impl; [by apply check_all_Ok|]. intros x Hx. unfold check_tsr in Hx. apply bind_Ok in Hx as ([] & Hx & _).
    by apply wrap_Ok, cesCheckSelector_Ok in Hx.
Qed.
End FinalLemmas.

(* ------------------------------------------------------------------ *)
(** ** Lemmas: what the stages leave alone *)

(** [f] is not touched by a successful run of [m]. *)
Definition keeps {A T} (f : State → T) (m : go World A) : Prop :=
  ∀ w w' a, m w = (w', Ok a) → f (w_st w') = f (w_st w).

Lemma keeps_bind {A B T} (f : State → T) (m : go World A) (k : A → go World B) :
  keeps f m → (∀ a, keeps f (k a)) → keeps f (m ≫= k).
Proof. intros Hm Hk w w' b H. apply go_bind_Ok in H as (w1 & a & H1 & H). rewrite (Hk _ _ _ _ H). by apply (Hm _ _ _ H1). Qed.

Lemma keeps_state {A T} (f : State → T) (m : go State A) :
  (∀ st st' a, m st = (st', Ok a) → f st' = f st) → keeps f (on_state m).
Proof.
  intros Hm w w' a. unfold on_state. destruct (m (w_st w)) as [st r] eqn:E. intros H.
  apply pair_equal_spec in H as [<- ->]. by apply (Hm _ _ _ E).
Qed.

Lemma keeps_same {A T} (f : State → T) (m : go World A) : (∀ w, w_st (m w).1 = w_st w) → keeps f m.
Proof. intros Hm w w' a H. specialize (Hm w). rewrite H in Hm. cbn in Hm. by rewrite Hm. Qed.

Lemma keeps_wait {A T} (f : State → T) (loop : State → list wait_event → State * list (list Z) * waited A) :
  (∀ st events, f (loop st events).1.1 = f st) → keeps f (on_wait loop).
Proof.
  intros Hl w w' a. unfold on_wait. specialize (Hl (w_st w) (w_in w)).
  destruct (loop (w_st w) (w_in w)) as [[st sent] [|r rest]]; [done|]. intros H.
  apply pair_equal_spec in H as [<- _]. exact Hl.
Qed.

Lemma wait_loop_keeps {A T} (f : State → T) cfg (handle : State → bool → list Z → Z → State * res (option A)) :
  (∀ st ike raw now, f (handle st ike raw now).1 = f st) → (∀ st, f (st <| InboundFragments := None |>) = f st) →
  ∀ events st rto retries, f (wait_loop cfg handle events st rto retries).1.1 = f st.
Proof.
  intros Hh Hf. induction events as [|e events IH]; intros st rto retries; [done|]. cbn [wait_loop].
  destruct e as [ike raw now| | | |]; auto.
  - specialize (Hh st ike raw now). destruct (handle st ike raw now) as [st' [[a|]|e| |]]; cbn in *; [done| |done..].
    by rewrite IH.
  - unfold retransmit. destruct (OutboundRequest st) as [check|]; [|done].
    destruct (negb _); [done|]. destruct (_ <=? retries); [done|].
    set (st' := st <| InboundFragments := None |>). specialize (IH st'). specialize (Hf st).
    match goal with |- context [wait_loop _ _ _ _ ?r ?n] => specialize (IH r n) end.
    destruct (wait_loop _ _ _ _ _ _) as [[st2 sent] out]. cbn [fst] in *. rewrite IH. exact Hf.
Qed.

Lemma handle_response_keeps {A T} (f : State → T) exchange msgID (accept : State → Message → list Z → State * A) :
  (∀ st msg raw, f (accept st msg raw).1 = f st) →
  (exchange = ExchangeIkeSAInit → ∀ st spi, f (st <| St_ResponderSPI := spi |>) = f st) →
  ∀ st ike raw now, f (handle_response exchange msgID accept st ike raw now).1 = f st.
Proof.
  intros Ha Hs st ike raw now. unfold handle_response. destruct (negb ike); [done|].
  destruct (ParseMessage raw) as [msg|e| |]; [|done..]. destruct (classifyResponse _ _ _) as [[]|e| |]; try done.
  assert (Hv : f (validateResponseHeader st (Msg_Header msg) exchange msgID).1 = f st).
  { unfold validateResponseHeader.
    match goal with |- context [match ?b with _ => _ end] => destruct b as [[spi|]| | |] eqn:Eb end; try done.
    apply Hs. inv_ok; done || lia. }
  destruct (validateResponseHeader _ _ _ _) as [st' [u|e| |]]; cbn in *; try done.
  specialize (Ha st' msg raw). destruct (accept st' msg raw). cbn in *. congruence.
Qed.

(** The SA a handshake works on: transcript, nonces, key shares, keys, SPIs. *)
Definition sa_core (st : State) :=
  (SAInitRequest st, SAInitResponse st, (InitiatorNonce st, ResponderNonce st), (InitiatorKE st, ResponderKE st),
   (St_IKEKeys st, SelectedIKE st), (St_InitiatorSPI st, St_ResponderSPI st)).

(** Changing what a receive loop tracks does not show. *)
Class insensitive {T} (f : State → T) : Prop := {
  ins_frag : ∀ st fr, f (st <| InboundFragments := fr |>) = f st;
  ins_seen : ∀ st b, f (st <| FirstIKEAuthSeen := b |>) = f st;
  ins_last : ∀ st b, f (st <| LastCompletedResponseMessageID := b |>) = f st;
  ins_haslast : ∀ st b, f (st <| HasLastCompletedResponse := b |>) = f st;
  ins_has : ∀ st b, f (st <| HasExpectedResponse := b |>) = f st;
  ins_exp : ∀ st b, f (st <| ExpectedResponseMessageID := b |>) = f st;
  ins_next : ∀ st b, f (st <| NextRequestMessageID := b |>) = f st;
  ins_out : ∀ st b, f (st <| OutboundRequest := b |>) = f st;
  ins_peer : ∀ st b, f (st <| Peer := b |>) = f st;
  ins_auth : ∀ st b, f (st <| St_Auth := b |>) = f st;
  ins_phase : ∀ st b, f (st <| St_Phase := b |>) = f st;
  ins_negotiating : ∀ st b, f (st <| NegotiatingChild := b |>) = f st }.
#[global] Instance sa_core_insensitive : insensitive sa_core.
Proof. by constructor. Qed.

Section Frames.
Context {C : Crypto} {T : Type} (f : State → T) {IF : insensitive f}.

Lemma recv_protected_keeps cfg exchange msgID : exchange ≠ ExchangeIkeSAInit →
  ∀ fuel st events, f (recv_protected cfg exchange msgID fuel st events).1.1 = f st.
Proof.
  intros Hx. induction fuel as [|fuel IH]; intros st events; [done|]. cbn [recv_protected].
  assert (Hw : f (waitResponseRaw cfg st exchange msgID events).1.1 = f st).
  { unfold waitResponseRaw, await. apply wait_loop_keeps; [|intros; apply ins_frag].
    intros st0 ike raw now. by apply handle_response_keeps. }
  destruct (waitResponseRaw _ _ _ _ _) as [[st1 sent] [|[[raw now]|e| |] rest]]; try done. cbn [fst] in Hw.
  unfold openState. destruct (openProtectedRawState _ _ _ _ _) as [fr [opened|e| |]]; cbn [fst];
    try by (rewrite ins_frag).
  match goal with |- context [if exchange =? ExchangeIkeAuth then ?x else ?y] =>
    set (st2 := if exchange =? ExchangeIkeAuth then x else y) end.
  assert (H2 : f st2 = f st) by (unfold st2; destruct (_ =? _); [rewrite ins_seen|]; by rewrite ins_frag).
  destruct opened as [payloads|].
  - cbn [fst]. by rewrite ins_frag, ins_out, ins_exp, ins_has, ins_haslast, ins_last.
  - specialize (IH st2 rest). destruct (recv_protected _ _ _ _ _ _) as [[st3 sent'] out]. cbn in *. congruence.
Qed.

Lemma recvProtectedPayloads_keeps cfg exchange msgID : exchange ≠ ExchangeIkeSAInit →
  keeps f (on_wait (λ st events, recvProtectedPayloads cfg st exchange msgID events)).
Proof. intros Hx. apply keeps_wait. intros st events. by apply recv_protected_keeps. Qed.

Lemma send_request_keeps frames : keeps f (send_request frames).
Proof.
  unfold send_request. apply keeps_bind; [|intros; by apply keeps_same]. apply keeps_state. intros st st' a H.
  unfold sendRequest in H. destruct (negb _); [done|]. apply pair_equal_spec in H as [<- _]. apply ins_out.
Qed.

Lemma begin_request_keeps : keeps f begin_request.
Proof.
  apply keeps_state. intros st st' a. unfold beginRequest. cbv zeta. intros H. apply pair_equal_spec in H as [<- _].
  destruct (negb _); [rewrite ins_next|]; by rewrite ins_has, ins_exp.
Qed.
End Frames.

(* ------------------------------------------------------------------ *)
(** ** The run: authentication *)

Lemma on_state_Ok {A} (m : go State A) w w' a : on_state m w = (w', Ok a) →
  m (w_st w) = (w_st w', Ok a) ∧ w' = w <| w_st := w_st w' |>.
Proof.
  unfold on_state. destruct (m (w_st w)) as [st r]. intros H. apply pair_equal_spec in H as [<- ->]. done.
Qed.

Lemma emitNegotiatedESP_keeps {T} (f : State → T) : keeps f emitNegotiatedESP.
Proof.
  apply keeps_same. intros w. unfold emitNegotiatedESP, gets, mbind, go_bind. by destruct (SelectedESP (w_st w)) as [[[enc|] integ prf dh]|].
Qed.
Lemma emitNegotiatedIKE_keeps {T} (f : State → T) : keeps f emitNegotiatedIKE.
Proof.
  apply keeps_same. intros w. unfold emitNegotiatedIKE, gets, mbind, go_bind. by destruct (SelectedIKE (w_st w)) as [[[enc|] integ prf dh]|].
Qed.

Section RunSpec.
Context {C : Crypto} {X : X25519} {XC : X509}.
Context {M : Type} {IM : Method M} (newMethod : EapConfig → res M).
Context (rng : Z → Z → Z → res (list Z)).
Context (cfg : Config).

(** What the control plane knows when it hands a tunnel over. *)
Record tunnel_ok (st : State) (child : ChildSA) (assigned : AssignedConfig) (childKeys : ChildKeys) : Prop := {
  ok_identity : identity_ok cfg (PeerIDr (St_Auth st));
  ok_auth : ∃ auth, PeerAuthMethod (St_Auth st) = Auth_Method auth ∧ peer_proved cfg st (PeerIDr (St_Auth st)) auth;
  ok_active : ActiveChild st = Some child;
  ok_assigned : Assigned st = Some assigned;
  ok_child : child_installed cfg st child assigned;
  ok_keys : deriveChildKeys st = Ok childKeys }.

Lemma processFinalAuth_Ok m st st' child b : processFinalAuth cfg m st = (st', Ok (child, b)) →
  ∃ auth assigned, PeerAuthMethod (St_Auth st') = Auth_Method auth ∧ identity_ok cfg (PeerIDr (St_Auth st')) ∧
    peer_proved cfg st' (PeerIDr (St_Auth st')) auth ∧ ActiveChild st' = Some child ∧ Assigned st' = Some assigned ∧
    child_installed cfg st' child assigned ∧ sa_core st' = sa_core st.
Proof.
  unfold processFinalAuth. intros H. go_pure H neg E. destruct neg as [inbound|]; [|done]. go_pure H s Es.
  go_step H st1 u Ea. destruct u. apply authenticate_final_Ok in Ea as (auth & a & -> & Hk & Hm & Hid & Hp).
  apply install_child_Ok in H as (esp & assigned & -> & _ & _ & Hc). exists auth, assigned.
  do 2 (split; [done|]). split; [|done]. by eapply peer_proved_frame; [..|exact Hp].
Qed.

Lemma process_final_Ok m w w' b : process_final cfg m w = (w', Ok b) →
  ∃ child, processFinalAuth cfg m (w_st w) = (w_st w', Ok (child, b)).
Proof.
  unfold process_final. destruct (on_state _ w) as [w1 [[child cs]|e| |]] eqn:E; try done.
  - intros H. apply pair_equal_spec in H as [<- H]. injection H as <-. apply on_state_Ok in E as [E _]. eauto.
  - by destruct (emitNegotiatedESP w1).
Qed.

Lemma ack_config_keeps {T} (f : State → T) id : keeps f (ack_config rng cfg id).
Proof.
  unfold ack_config. apply keeps_bind; [by apply keeps_same|]. intros r.
  apply keeps_bind; [|intros; by apply keeps_same]. apply keeps_state. intros st st' a H. by apply pair_equal_spec in H as [-> _].
Qed.

Lemma stage_child_Ok w w' keys : stage_child rng cfg w = (w', Ok keys) →
  ∃ child assigned, tunnel_ok (w_st w') child assigned keys ∧ sa_core (w_st w') = sa_core (w_st w).
Proof.
  unfold stage_child. intros H. go_set H. go_set H. go_step H w1 mid E1. apply (begin_request_keeps sa_core) in E1.
  go_step H w1' rnd E1'. apply pair_equal_spec in E1' as [<- _]. go_step H w2 frames E2. apply on_state_Ok in E2 as [E2 _].
  assert (Hb : w_st w2 = w_st w1).
  { unfold buildFinalAuthRequest in E2. destruct (_ =? 0); [done|]. go_pure E2 x Ex. go_pure E2 y Ey.
    by apply pair_equal_spec in E2 as [<- _]. }
  clear E2. go_step H w3 u E3. apply (send_request_keeps sa_core) in E3.
  go_step H w4 mp E4. destruct mp as [finalMsg pl]. apply (recvProtectedPayloads_keeps sa_core) in E4; [|done].
  go_step H w5 cfgSet E5. apply process_final_Ok in E5 as (child & E5).
  apply processFinalAuth_Ok in E5 as (auth & assigned & Hm & Hid & Hp & Hac & Has & Hch & Hcore).
  go_step H w6 u6 E6. assert (H6 : w_st w6 = w_st w5).
  { destruct cfgSet; [by apply (ack_config_keeps (λ x, x)) in E6|]. apply pair_equal_spec in E6 as [-> _]. done. }
  go_step H w7 u7 E7. apply (emitNegotiatedESP_keeps (λ x, x)) in E7. apply on_state_Ok in H as [H _].
  apply pair_equal_spec in H as [H8 Hk]. exists child, assigned. rewrite <- H8, E7, H6. split.
  - constructor; [done|by exists auth|done..|]. by rewrite <- H6, <- E7.
  - rewrite Hcore, E4, E3. cbn [w_st]. rewrite Hb. exact E1.
Qed.

Lemma hand_off_Ok childKeys w w' est : hand_off childKeys w = (w', Ok est) →
  Assigned (w_st w) = Some (Est_Assigned est) ∧ ActiveChild (w_st w) = Some (Est_Child est) ∧
  SelectedESP (w_st w) = Some (Est_Selection est) ∧ Est_ChildKeys est = childKeys ∧
  LocalEAPMSK (St_Auth (w_st w)) ≠ [] ∧ w_st w' = Est_State est ∧ Est_IKEKeys est = St_IKEKeys (Est_State est) ∧
  Est_State est = w_st w <| St_Phase := PhaseRunning |> <| HasExpectedResponse := false |> <| ExpectedResponseMessageID := 0 |>.
Proof.
  unfold hand_off. intros H. go_pure H st E. injection E as <-. destruct (Assigned (w_st w)) as [assigned|]; [|done].
  destruct (SelectedESP (w_st w)) as [esp|]; [|done]. destruct (ActiveChild (w_st w)) as [child|]; [|done].
  destruct (_ =? 0) eqn:El; [done|]. go_set H. go_set H. go_pure H st E. injection E as <-.
  apply pair_equal_spec in H as [<- H]. injection H as <-. do 4 (split; [done|]). split; [by apply len_zero|done].
Qed.

Lemma runHandshake_Ok w w' est : runHandshake newMethod rng cfg w = (w', Ok est) →
  ∃ w1 w2 w3, stage_sa_init rng cfg w1 = (w2, Ok tt) ∧ stage_eap newMethod rng cfg w2 = (w3, Ok tt) ∧
    ∃ w4, stage_child rng cfg w3 = (w4, Ok (Est_ChildKeys est)) ∧ hand_off (Est_ChildKeys est) w4 = (w', Ok est).
Proof.
  unfold runHandshake. destruct (handshake_steps _ _ _ w) as [w1 [e| | |]] eqn:E; try done. intros H.
  apply pair_equal_spec in H as [<- H]. injection H as <-. unfold handshake_steps in E. go_set E.
  go_step E w2 u E2. destruct u. go_step E w3 u E3. destruct u. go_step E w4 ck E4.
  pose proof (hand_off_Ok _ _ _ _ E) as (_ & _ & _ & <- & _). eauto 10.
Qed.


(* ------------------------------------------------------------------ *)
(** ** The run: keys *)

(** The local key share belongs to the private key kept for the derivation. *)
Definition local_dh (st : State) := (LocalDH st, InitiatorKE st).
#[local] Instance local_dh_insensitive : insensitive local_dh.
Proof. by constructor. Qed.

Definition dh_linked (st : State) : Prop :=
  ∃ dh a, LocalDH st = Some (mkDHKey dh (Some a)) ∧ KE_Data (InitiatorKE st) = x25519_public a.

Lemma buildSAInitRequest_linked g r1 r2 r3 st st' frames :
  buildSAInitRequest cfg g r1 r2 r3 st = (st', Ok frames) → dh_linked st'.
Proof.
  unfold buildSAInitRequest. intros H. go_pure H ss E. destruct ss as [suite selection]. go_set H. go_pure H x E'. clear E'.
  go_step H s1 u E1. go_step H s2 u2 E2. go_pure H group E3. go_pure H dh E4. go_pure H pub E5. go_set H.
  go_pure H y E6. go_pure H hs E7. destruct hs as [src dst]. go_set H. go_pure H z E8. go_pure H pkt E9. go_set H.
  apply pair_equal_spec in H as [<- _]. apply wrap_Ok in E4, E5. unfold GenerateDH in E4. inv_ok. cbn in E5. injection E5 as <-.
  by eexists _, _.
Qed.

Lemma scan_notify_keeps {T} (f : State → T) n s : (∀ st a, f (st <| NAT := a |>) = f st) → (∀ st a, f (st <| Peer := a |>) = f st) →
  (∀ st a, f (st <| St_Auth := a |>) = f st) → ∀ st st' s', scan_notify n s st = (st', Ok s') → f st' = f st.
Proof.
  intros H1 H2 H3 st st' s'. unfold scan_notify. cbv zeta.
  repeat match goal with |- context [if ?b then _ else _] => destruct b; try done end;
    intros H; try (go_set H); try (go_pure H hashes Eh; go_set H); apply pair_equal_spec in H as [<- _]; auto.
Qed.

Lemma scan_sa_init_keeps {T} (f : State → T) : (∀ st a, f (st <| NAT := a |>) = f st) → (∀ st a, f (st <| Peer := a |>) = f st) →
  (∀ st a, f (st <| St_Auth := a |>) = f st) → ∀ ps s st st' s', scan_sa_init ps s st = (st', Ok s') → f st' = f st.
Proof.
  intros H1 H2 H3. induction ps as [|p ps IH]; intros s st st' s'; cbn [scan_sa_init].
  { intros H. by apply pair_equal_spec in H as [-> _]. }
  intros H. go_step H st1 s1 E. rewrite (IH _ _ _ _ H). clear H IH. revert E.
  destruct (_ =? PayloadTypeSA); [|destruct (_ =? PayloadTypeNonce); [|destruct (_ =? PayloadTypeKE); [|destruct (_ =? PayloadTypeNotify)]]].
  - destruct (bool_decide _); [done|]. intros E. go_pure E sa Es. destruct (negb _); [done|]. by apply pair_equal_spec in E as [<- _].
  - destruct (bool_decide _); [done|]. intros E. go_pure E n En. by apply pair_equal_spec in E as [<- _].
  - destruct (bool_decide _); [done|]. intros E. go_pure E k Ek. by apply pair_equal_spec in E as [<- _].
  - intros E. go_pure E n En. by eapply scan_notify_keeps.
  - intros E. by apply pair_equal_spec in E as [<- _].
Qed.

(** The response sets the selection, which decodes an offered proposal. *)
Definition ike_selected (st : State) : Prop := ∃ sa sel, decodeIKESelection cfg sa = Ok sel ∧ SelectedIKE st = Some sel.

Lemma applySAInitResponse_keeps m st st' out : applySAInitResponse cfg m st = (st', Ok out) →
  local_dh st' = local_dh st ∧ (out = SAInitEstablished → ike_selected st').
Proof.
  unfold applySAInitResponse. intros H. go_pure H spi E. destruct (_ && _); [done|]. go_set H. go_step H st1 s E1.
  apply (scan_sa_init_keeps local_dh) in E1; [|done..]. change (local_dh st1 = local_dh st) in E1.
  destruct (_ || _).
  { destruct (_ && _); [done|]. destruct (_ || _); [done|].
    destruct (_ <? _); go_set H; apply pair_equal_spec in H as [<- H]; injection H as <-; done. }
  destruct (sc_sa s) as [sa|]; [|done]. destruct (spi =? 0); [done|]. destruct (sc_nonce s) as [nonce|]; [|done].
  destruct (sc_ke s) as [ke|]; [|done]. go_pure H sel Es. go_set H. go_pure H x Ex. go_pure H det Ed. go_set H.
  apply pair_equal_spec in H as [<- H]. split; [exact E1|]. intros _. by exists sa, sel.
Qed.

Lemma waitSAInit_keeps : keeps local_dh (on_wait (λ st events, waitSAInitResponse cfg st events)).
Proof.
  apply keeps_wait. intros st events. unfold waitSAInitResponse, await. apply wait_loop_keeps; [|done].
  intros st0 ike raw now. by apply handle_response_keeps.
Qed.

Lemma sa_init_loop_Ok n g w w' : sa_init_loop rng cfg n g w = (w', Ok tt) → dh_linked (w_st w') ∧ ike_selected (w_st w').
Proof.
  revert g w. induction n as [|n IH]; intros g w; cbn [sa_init_loop]; [done|]. intros H. go_set H.
  go_step H wd rd1 Ed. apply pair_equal_spec in Ed as [<- _]. go_step H wd rd2 Ed. apply pair_equal_spec in Ed as [<- _].
  go_step H wd rd3 Ed. apply pair_equal_spec in Ed as [<- _].
  go_step H w1 frames E1. apply on_state_Ok in E1 as [E1 _]. apply buildSAInitRequest_linked in E1.
  go_step H w2 u E2. apply (send_request_keeps local_dh) in E2. go_step H w3 msg E3. apply waitSAInit_keeps in E3.
  go_pure H grp Eg. go_step H w4 out E4. apply on_state_Ok in E4 as [E4 _]. apply applySAInitResponse_keeps in E4 as [E4 Hsel].
  destruct out.
  - apply pair_equal_spec in H as [<- _]. split; [|auto]. destruct E1 as (dh & a & Hd & Hk). exists dh, a.
    assert (local_dh (w_st w4) = local_dh (w_st w1)) as He by congruence.
    injection He as -> ->. done.
  - destruct (_ =? 0)%nat; [done|]. by apply IH in H.
  - destruct (_ =? 0); [done|]. destruct (_ =? 0)%nat; [done|]. by apply IH in H.
Qed.

(** The keys of the SA: the derivation of RFC 7296 from the shared secret of
    the two key shares that were exchanged. *)
Definition keys_derived (st : State) : Prop :=
  ∃ a shared sel prf enc skeyseed keys,
    KE_Data (InitiatorKE st) = x25519_public a ∧ x25519_shared a (KE_Data (ResponderKE st)) = Ok shared ∧
    SelectedIKE st = Some sel ∧ Sel_PRF sel = Some prf ∧ Sel_Encryption sel = Some enc ∧
    InitiatorNonce st ≠ [] ∧ ResponderNonce st ≠ [] ∧
    SKEYSEED (Some prf) (InitiatorNonce st) (ResponderNonce st) shared = Ok skeyseed ∧
    DeriveIKEKeys prf skeyseed (InitiatorNonce st) (ResponderNonce st) (St_InitiatorSPI st) (St_ResponderSPI st)
      enc (Sel_Integrity sel) = Ok keys ∧ St_IKEKeys st = Some keys.

Lemma deriveIKEKeys_Ok st st' : dh_linked st → deriveIKEKeys st = (st', Ok tt) →
  keys_derived st' ∧ SelectedIKE st' = SelectedIKE st.
Proof.
  intros (dh & a & Hd & Hk). unfold deriveIKEKeys. intros H. go_pure H x E. injection E as <-. rewrite Hd in H.
  destruct (SelectedIKE st) as [sel|] eqn:Es; [|done]. destruct (St_IKEKeys st); [done|].
  destruct (_ || _) eqn:Eo; [done|]. apply orb_false_iff in Eo as [Eo E3]. apply orb_false_iff in Eo as [E1 E2].
  go_set H. go_pure H shared Esh. go_pure H seed Ese. go_pure H keys Eke. apply pair_equal_spec in H as [<- _].
  apply wrap_Ok in Esh, Ese. destruct (Sel_PRF sel) as [prf|] eqn:Ep; [|done]. destruct (Sel_Encryption sel) as [enc|] eqn:Een; [|done].
  apply wrap_Ok in Eke. split; [|done]. unfold ECDH in Esh. cbn [dhk_key] in Esh. destruct (negb _); [done|].
  destruct (wrap _ _) as [sec| | |] eqn:Ew in Esh; try done. apply wrap_Ok in Ew. injection Esh as ->.
  exists a, shared, sel, prf, enc, seed, keys. do 2 (split; [done|]). do 3 (split; [done|]).
  do 2 (split; [by apply len_zero|]). done.
Qed.

Lemma keys_derived_core st st' : sa_core st' = sa_core st → keys_derived st → keys_derived st'.
Proof. unfold sa_core, keys_derived. intros H. injection H as _ _ -> -> -> -> -> -> -> ->. done. Qed.

Section EapFrames.
Context {T : Type} (f : State → T) {IF : insensitive f}.

Lemma handleAuthResponse_keeps m first st st' eap : handleAuthResponse cfg m first st = (st', Ok eap) → f st' = f st.
Proof.
  unfold handleAuthResponse. intros H. go_pure H s Es. go_step H s1 u E1. destruct u. apply validateAuthNotifies_Ok in E1 as ->.
  go_set H. go_pure H idr Ei. destruct (len idr =? 0); [done|]. go_step H s2 u E2. destruct u. apply recordPeerIdentity_Ok in E2 as [_ ->].
  go_set H. go_step H s3 u E3. destruct (len (as_eap s) =? 0); [done|]. apply pair_equal_spec in H as [<- _].
  destruct (as_auth s) as [auth|].
  - destruct u. apply verifyPeerAuth_Ok in E3 as [_ ->]. destruct (0 <? _); by rewrite !ins_auth, ins_peer.
  - destruct first; [cbn iota in E3; go_pure E3 sup Ep; destruct (negb sup); [done|]|];
      apply pair_equal_spec in E3 as [<- _]; destruct (0 <? _); by rewrite !ins_auth, ins_peer.
Qed.

Lemma eap_recv_keeps first : keeps f (eap_recv cfg first).
Proof.
  unfold eap_recv. apply keeps_bind; [by apply keeps_same|]. intros st. destruct (negb _); [done|].
  apply keeps_bind; [by apply recvProtectedPayloads_keeps; [apply _|]|]. intros [msg pl].
  apply keeps_bind; [apply keeps_state; intros ???; apply handleAuthResponse_keeps|]. intros e.
  destruct (_ =? 0); [done|]. apply keeps_bind; intros; by apply keeps_same.
Qed.

Lemma eap_send_keeps data : keeps f (eap_send rng cfg data).
Proof.
  unfold eap_send. apply keeps_bind; [apply begin_request_keeps, _|]. intros id. apply keeps_bind; [by apply keeps_same|]. intros r.
  apply keeps_bind; [by apply keeps_same|]. intros fr. apply keeps_bind; [apply send_request_keeps, _|]. intros; by apply keeps_same.
Qed.

Lemma eap_loop_keeps n m first : keeps f (eap_loop rng cfg n m first).
Proof.
  revert m first. induction n as [|n IH]; intros m first; cbn [eap_loop]; [done|].
  apply keeps_bind; [apply eap_recv_keeps|]. intros pkt. apply keeps_bind; [by apply keeps_same|]. intros id.
  apply keeps_bind; [by apply keeps_same|]. intros r. destruct (Method_Handle _ _ _ _) as [m' res].
  apply keeps_bind; [by apply keeps_same|]. intros result. destruct (Res_Action result).
  - apply keeps_bind; [apply eap_send_keeps|]. intros sid. apply keeps_bind; [by apply keeps_same|]. auto.
  - apply keeps_bind; [|intros; by apply keeps_same]. apply keeps_state. intros st st' a H.
    apply pair_equal_spec in H as [<- _]. apply ins_auth.
Qed.

Lemma stage_eap_keeps : keeps f (stage_eap newMethod rng cfg).
Proof.
  unfold stage_eap, runEAP, set_st.
  apply keeps_bind; [apply keeps_state; intros st st' a H; apply pair_equal_spec in H as [<- _]; apply ins_phase|]. intros _.
  apply keeps_bind; [by apply keeps_same|]. intros _. apply keeps_bind; [apply begin_request_keeps, _|]. intros bid.
  do 2 (apply keeps_bind; [by apply keeps_same|]; intros ?). apply keeps_bind.
  { apply keeps_state. intros st st' fr H. unfold buildBootstrapAuthRequest in H. go_pure H spi E. go_set H.
    go_pure H esp Ee. go_pure H i Ei. go_pure H cp Ec. go_pure H t1 Et. go_pure H t2 Et2. go_pure H n1 En. go_pure H n2 En2.
    go_pure H n3 En3. go_pure H x Ex. apply pair_equal_spec in H as [<- _]. by rewrite ins_auth, ins_negotiating. }
  intros fr. apply keeps_bind; [apply send_request_keeps, _|]. intros _. apply keeps_bind; [by apply keeps_same|]. intros _.
  apply keeps_bind; [apply keeps_state; intros st st' x H; apply pair_equal_spec in H as [<- _]; apply ins_phase|]. intros _.
  apply keeps_bind; [|intros m; apply keeps_bind; [by apply keeps_same|intros; apply eap_loop_keeps]].
  apply keeps_same. intros w. unfold eap_start, lift, mbind, go_bind. destruct (wrap _ _) as [m0| | |]; [|done..].
  destruct (Method_Initialize m0) as [m1 r]. by destruct (wrap _ r).
Qed.
End EapFrames.

(* ------------------------------------------------------------------ *)
(** ** The run: what the running actor finds *)

(** The fields only the running actor uses. *)
Definition running_fields (st : State) := (Rekey st, OldIKE st, InboundHistory st, OldChild st).
#[local] Instance running_fields_insensitive : insensitive running_fields.
Proof. by constructor. Qed.

Lemma waitSAInit_running : keeps running_fields (on_wait (λ st events, waitSAInitResponse cfg st events)).
Proof.
  apply keeps_wait. intros st events. unfold waitSAInitResponse, await. apply wait_loop_keeps; [|done].
  intros st0 ike raw now. by apply handle_response_keeps.
Qed.

Lemma buildSAInitRequest_running g r1 r2 r3 st st' frames :
  buildSAInitRequest cfg g r1 r2 r3 st = (st', Ok frames) → running_fields st' = running_fields st.
Proof.
  unfold buildSAInitRequest. intros H. go_pure H ss E. destruct ss as [suite selection]. go_set H. go_pure H x E'. clear E'.
  go_step H s1 u E1. go_step H s2 u2 E2. go_pure H group E3. go_pure H dh E4. go_pure H pub E5. go_set H.
  go_pure H y E6. go_pure H hs E7. destruct hs as [src dst]. go_set H. go_pure H z E8. go_pure H pkt E9. go_set H.
  apply pair_equal_spec in H as [<- _]. change (running_fields s2 = running_fields st).
  assert (H1 : running_fields s1 = running_fields st).
  { destruct (St_InitiatorSPI x =? 0); [go_pure E1 v Ev|]; by apply pair_equal_spec in E1 as [<- _]. }
  rewrite <- H1. destruct (len (InitiatorNonce x) =? 0); [go_pure E2 v Ev|]; by apply pair_equal_spec in E2 as [<- _].
Qed.

Lemma applySAInitResponse_running m st st' out :
  applySAInitResponse cfg m st = (st', Ok out) → running_fields st' = running_fields st.
Proof.
  unfold applySAInitResponse. intros H. go_pure H spi E. destruct (_ && _); [done|]. go_set H. go_step H st1 s E1.
  apply (scan_sa_init_keeps running_fields) in E1; [|done..]. change (running_fields st1 = running_fields st) in E1.
  destruct (_ || _).
  { destruct (_ && _); [done|]. destruct (_ || _); [done|]. destruct (_ <? _); go_set H; by apply pair_equal_spec in H as [<- _]. }
  destruct (sc_sa s) as [sa|]; [|done]. destruct (spi =? 0); [done|]. destruct (sc_nonce s) as [nonce|]; [|done].
  destruct (sc_ke s) as [ke|]; [|done]. go_pure H sel Es. go_set H. go_pure H x Ex. go_pure H det Ed. go_set H.
  by apply pair_equal_spec in H as [<- _].
Qed.

Lemma sa_init_loop_running n g : keeps running_fields (sa_init_loop rng cfg n g).
Proof.
  revert g. induction n as [|n IH]; intros g; cbn [sa_init_loop]; [done|].
  apply keeps_bind; [apply keeps_state; intros st st' a H; by apply pair_equal_spec in H as [<- _]|]. intros _.
  do 3 (apply keeps_bind; [by apply keeps_same|]; intros ?).
  apply keeps_bind; [apply keeps_state; intros ???; apply buildSAInitRequest_running|]. intros fr.
  apply keeps_bind; [apply send_request_keeps, _|]. intros _. apply keeps_bind; [apply waitSAInit_running|]. intros m.
  apply keeps_bind; [by apply keeps_same|]. intros grp.
  apply keeps_bind; [apply keeps_state; intros ???; apply applySAInitResponse_running|]. intros [].
  - by apply keeps_same.
  - destruct (_ =? 0)%nat; [done|apply IH].
  - destruct (_ =? 0); [done|]. destruct (_ =? 0)%nat; [done|apply IH].
Qed.

Lemma deriveIKEKeys_running st st' u : deriveIKEKeys st = (st', Ok u) → running_fields st' = running_fields st.
Proof.
  unfold deriveIKEKeys. intros H. go_pure H x E. injection E as <-. destruct (LocalDH st); [|done].
  destruct (SelectedIKE st) as [sel|]; [|done]. destruct (St_IKEKeys st); [done|]. destruct (_ || _); [done|].
  go_set H. go_pure H shared Esh. go_pure H seed Ese. go_pure H keys Eke. by apply pair_equal_spec in H as [<- _].
Qed.

Lemma stage_sa_init_running : keeps running_fields (stage_sa_init rng cfg).
Proof.
  unfold stage_sa_init. apply keeps_bind; [by apply keeps_same|]. intros _. apply keeps_bind; [apply sa_init_loop_running|]. intros _.
  apply keeps_bind; [apply keeps_state; intros ???; apply deriveIKEKeys_running|]. intros _.
  apply keeps_bind; [apply emitNegotiatedIKE_keeps|]. intros _. apply keeps_state.
  intros st st' a H. by apply pair_equal_spec in H as [<- _].
Qed.

(** A received response clears the checkpoint. *)
Lemma recv_protected_idle exchange msgID fuel st events st' sent r rest :
  recv_protected cfg exchange msgID fuel st events = (st', sent, Returned (Ok r) rest) → OutboundRequest st' = None.
Proof.
  revert st events sent. induction fuel as [|fuel IH]; intros st events sent; cbn [recv_protected]; [done|].
  destruct (waitResponseRaw _ _ _ _ _) as [[st1 sent1] [|[[raw now]|e| |] rest1]]; try done.
  destruct (openState _ _ _ _) as [st2 [opened|e| |]]; try done.
  destruct opened as [payloads|].
  - intros H. apply pair_equal_spec in H as [H _]. by apply pair_equal_spec in H as [<- _].
  - destruct (recv_protected _ _ _ fuel _ _) as [[st3 sent3] out] eqn:E. intros H. apply pair_equal_spec in H as [H ->].
    apply pair_equal_spec in H as [<- _]. by apply IH in E.
Qed.

Lemma processFinalAuth_running m st st' x : processFinalAuth cfg m st = (st', Ok x) →
  running_fields st' = running_fields st ∧ OutboundRequest st' = OutboundRequest st.
Proof.
  unfold processFinalAuth. intros H. go_pure H neg E. destruct neg as [inbound|]; [|done]. go_pure H s Es.
  go_step H st1 u Ea. destruct u. apply authenticate_final_Ok in Ea as (auth & a & -> & _). destruct x as [child b].
  by apply install_child_Ok in H as (esp & assigned & -> & _).
Qed.

Lemma stage_child_running w w' keys : stage_child rng cfg w = (w', Ok keys) →
  running_fields (w_st w') = running_fields (w_st w) ∧ OutboundRequest (w_st w') = None.
Proof.
  unfold stage_child. intros H. go_set H. go_set H. go_step H w1 mid E1. apply (begin_request_keeps running_fields) in E1.
  go_step H w1' rnd E1'. apply pair_equal_spec in E1' as [<- _]. go_step H w2 frames E2. apply on_state_Ok in E2 as [E2 _].
  assert (Hb : w_st w2 = w_st w1).
  { unfold buildFinalAuthRequest in E2. destruct (_ =? 0); [done|]. go_pure E2 x Ex. go_pure E2 y Ey.
    by apply pair_equal_spec in E2 as [<- _]. }
  clear E2. go_step H w3 u E3. apply (send_request_keeps running_fields) in E3. go_step H w4 mp E4. destruct mp as [m pl].
  assert (Ho : OutboundRequest (w_st w4) = None).
  { unfold on_wait, recvProtectedPayloads in E4. destruct (recv_protected _ _ _ _ _ _) as [[st sent] [|r rest]] eqn:Er; [done|].
    apply pair_equal_spec in E4 as [<- ->]. by apply recv_protected_idle in Er. }
  apply (recvProtectedPayloads_keeps running_fields) in E4; [|done]. go_step H w5 cfgSet E5.
  apply process_final_Ok in E5 as (child & E5). apply processFinalAuth_running in E5 as [E5 Ho5].
  go_step H w6 u6 E6. assert (H6 : w_st w6 = w_st w5).
  { destruct cfgSet; [by apply (ack_config_keeps (λ x, x)) in E6|]. apply pair_equal_spec in E6 as [-> _]. done. }
  go_step H w7 u7 E7. apply (emitNegotiatedESP_keeps (λ x, x)) in E7. apply on_state_Ok in H as [H _].
  apply pair_equal_spec in H as [H8 _]. rewrite <- H8, E7, H6. split; [|congruence].
  rewrite E5, E4, E3. cbn [w_st]. rewrite Hb. exact E1.
Qed.

(** The state a completed handshake hands over: nothing outstanding, no rekey,
    no retained SA, no cached answer. *)
Lemma established_idle w w' est : runHandshake newMethod rng cfg w = (w', Ok est) →
  let st := Est_State est in
  St_Phase st = PhaseRunning ∧ HasExpectedResponse st = false ∧ OutboundRequest st = None ∧
  running_fields st = (None, [], [], None).
Proof.
  unfold runHandshake. destruct (handshake_steps _ _ _ w) as [w1 [e| | |]] eqn:E; try done. intros H.
  apply pair_equal_spec in H as [<- H]. injection H as <-. unfold handshake_steps in E. go_set E.
  go_step E w2 u E2. apply stage_sa_init_running in E2. go_step E w3 u3 E3. apply (stage_eap_keeps running_fields) in E3.
  go_step E w4 ck E4. apply stage_child_running in E4 as [E4 Ho].
  apply hand_off_Ok in E as (_ & _ & _ & _ & _ & _ & _ & ->). cbv zeta. do 3 (split; [done|]).
  change (running_fields (w_st w4) = (None, [], [], None)). by rewrite E4, E3, E2.
Qed.

(** [C11] The keys of an established tunnel: the IKE selection decodes a
    proposal we offered, and the IKE keys are the RFC 7296 derivation, with
    both nonces and both SPIs of this SA, from the X25519 secret of the key
    share we sent and the one we received, so that a responder holding the
    private half of its share computes the same secret. The EAP exchange, the
    final exchange and every retransmission leave them alone. *)
Theorem established_keys {XL : X25519Laws X} w w' est :
  runHandshake newMethod rng cfg w = (w', Ok est) →
  let st := Est_State est in
  ike_selected st ∧ keys_derived st ∧ Est_IKEKeys est = St_IKEKeys st ∧
  (∀ b, KE_Data (ResponderKE st) = x25519_public b → ∃ a shared,
     KE_Data (InitiatorKE st) = x25519_public a ∧
     x25519_shared a (KE_Data (ResponderKE st)) = Ok shared ∧ x25519_shared b (KE_Data (InitiatorKE st)) = Ok shared).
Proof.
  intros H. apply runHandshake_Ok in H as (w1 & w2 & w3 & Hi & He & w4 & Hc & Hh).
  apply hand_off_Ok in Hh as (_ & _ & _ & _ & _ & _ & Hk & Heq). apply stage_child_Ok in Hc as (_ & _ & _ & Hc).
  apply (stage_eap_keeps sa_core) in He. unfold stage_sa_init in Hi. go_set Hi. go_step Hi wa u Ea. destruct u. go_step Hi wb u Eb. destruct u.
  go_step Hi wc u Ec. apply (emitNegotiatedIKE_keeps sa_core) in Ec. apply on_state_Ok in Hi as [Hi _]. apply pair_equal_spec in Hi as [Hi _].
  apply sa_init_loop_Ok in Ea as [Hl (sa & sel & Hsa & Hsel)]. apply on_state_Ok in Eb as [Eb _].
  apply (deriveIKEKeys_Ok _ _ Hl) in Eb as [Hd Hs].
  assert (Hcore : sa_core (Est_State est) = sa_core (w_st wb)).
  { rewrite Heq. change (sa_core (w_st w4) = sa_core (w_st wb)). rewrite Hc, He, <- Ec. by rewrite <- Hi. }
  apply (keys_derived_core _ _ Hcore) in Hd as Hd'. cbv zeta. split; [|split; [done|split; [done|]]].
  - exists sa, sel. split; [done|]. injection Hcore as _ _ _ _ _ _ _ -> _ _. congruence.
  - intros b Hb. destruct Hd' as (a & shared & _ & _ & _ & _ & _ & Ha & Hsh & _). exists a, shared.
    split; [done|]. split; [done|]. rewrite Ha, <- x25519_agree. by rewrite <- Hb.
Qed.

(* ------------------------------------------------------------------ *)
(** ** The run: failure *)

(** Nothing secret is left in the state. *)
Definition wiped (st : State) : Prop :=
  St_IKEKeys st = None ∧ LocalDH st = None ∧ InitiatorNonce st = [] ∧ ResponderNonce st = [] ∧
  LocalEAPMSK (St_Auth st) = [] ∧ NegotiatingChild st = None ∧ ActiveChild st = None ∧ OldIKE st = [] ∧
  OutboundRequest st = None ∧ Assigned st = None.

End RunSpec.

(* ------------------------------------------------------------------ *)
(** ** A concrete run *)

Definition norm32 (l : list Z) : list Z := u8 <$> take 32 (l ++ replicate 32 0).
#[local] Instance sample_x25519 : X25519 := {|
  x25519_public a := norm32 a;
  x25519_shared a p := Ok (zip_with Z.lxor (norm32 a) (norm32 p)) |}.

Lemma norm32_length l : length (norm32 l) = 32%nat.
Proof. unfold norm32. rewrite length_fmap, length_take, length_app, length_replicate. lia. Qed.
Lemma norm32_bytes l : bytes (norm32 l).
Proof. unfold norm32, bytes. apply Forall_fmap, Forall_true. intros x. apply u8_byte. Qed.
Lemma norm32_idem l : norm32 (norm32 l) = norm32 l.
Proof.
  unfold norm32 at 1. rewrite take_app_le by (rewrite norm32_length; lia). rewrite take_ge by (rewrite norm32_length; lia).
  pose proof (norm32_bytes l) as Hb. induction Hb as [|x m Hx Hm IH]; [done|]. cbn. by rewrite u8_small, IH.
Qed.

#[local] Instance sample_x25519_laws : X25519Laws sample_x25519.
Proof.
  constructor; cbn [x25519_public x25519_shared sample_x25519].
  - apply norm32_bytes.
  - intros a. unfold len. by rewrite norm32_length.
  - intros a b. rewrite !norm32_idem. f_equal.
    generalize (norm32 a) (norm32 b). induction l as [|x l IH]; intros [|y k]; cbn; try done. by rewrite Z.lxor_comm, IH.
  - done.
  - intros a p s [= <-]. pose proof (norm32_bytes a) as Ha. pose proof (norm32_bytes p) as Hp. revert Ha Hp.
    generalize (norm32 a) (norm32 p). induction l as [|x l IH]; intros [|y k] Ha Hp; cbn; constructor.
    + apply Forall_cons in Ha as [Hx _], Hp as [Hy _]. by apply lxor_byte.
    + apply Forall_cons in Ha as [_ Ha], Hp as [_ Hp]. by apply IH.
Qed.

#[local] Instance sample_x509 : X509 := {|
  Certificate := unit; CertPool := unit; KeyValue := unit;
  ParseCertificate _ := Err "no certificates"; SystemCertPool := Ok None;
  cert_Verify _ _ _ := Err ""; VerifyHostname _ _ := Err ""; cert_PublicKey _ := OtherKey;
  rsa_VerifyPKCS1v15 _ _ _ _ := Err ""; ecdsa_VerifyASN1 _ _ _ := false; ip_String _ := [] |}.

(** An EAP method that is done after one packet. *)
#[local] Instance sample_method : Method unit := {|
  Method_Initialize m := (m, Ok tt);
  Method_Handle m _ _ _ := (m, Ok (finished (replicate 64 7)));
  Method_Close m := (m, Ok tt) |}.

Definition sample_cfg : Config := sample_config [sample_gcm] [sample_gcm].
Definition sample_rng (n i l : Z) : res (list Z) := Ok (replicate (Z.to_nat l) (n + 1)).
Definition ok_or {A} (d : A) (r : res A) : A := match r with Ok a => a | _ => d end.

(** The responder's answers. *)
Definition sample_ike_proposal : Payload.Proposal :=
  Payload.mkProposal 1 DeleteProtocolIKE []
    [mkTransform TransformENC 20 (KeyLengthAttr 256); mkTransform TransformPRF 7 []; mkTransform TransformDH 31 []].
Definition sample_sa_init_response : list Z :=
  ok_or [] (
    sa ← AppendSA [] [sample_ike_proposal];
    b ← PushAll (NewBuilder (mkHeader (replicate 8 1) (replicate 8 9) 0 IKEDefaultVersion ExchangeIkeSAInit FlagResponse 0 0))
          [(PayloadTypeSA, false, sa); (PayloadTypeKE, false, AppendKE [] (mkKeyExchange 31 (norm32 (replicate 32 77))));
           (PayloadTypeNonce, false, replicate 32 5)];
    Ok (Finish b)).

Abbreviation sample_run := (runHandshake (C := xor_crypto) (λ _, Ok tt) sample_rng sample_cfg).
Definition sample_world (events : list wait_event) : World := mkWorld NewState events [] [] 0.

(** The SA as the responder sees it. *)
Definition sample_sa : State :=
  w_st (stage_sa_init (C := xor_crypto) sample_rng sample_cfg
          (sample_world [EvPacket true sample_sa_init_response 0] <| w_st := NewState <| HasExpectedResponse := true |> |>)).1.
Definition sample_reply (msgID : Z) (first : Z) (parts : list (Z * list Z)) : list Z :=
  let env := mkIkeEnvelope (St_InitiatorSPI sample_sa) (St_ResponderSPI sample_sa) false (SelectedIKE sample_sa)
               (St_IKEKeys sample_sa) no_capabilities in
  match buildProtectedEnvelopeAs (C := xor_crypto) (Some 1024) env ExchangeIkeAuth msgID first (cesBuildChain parts)
          (responseFlags env) (sample_rng 50) with
  | Ok [pkt] => pkt
  | _ => []
  end.

Definition sample_idr : list Z := AppendID [] (mkID 2 [115]).
Definition sample_boot : list Z := sample_reply 1 PayloadTypeIDr
  [(PayloadTypeIDr, sample_idr);
   (PayloadTypeNotify, ok_or [] (AppendNotify [] (mkNotify 0 [] NotifyEapOnlyAuthentication [])));
   (PayloadTypeEAP, [1; 1; 0; 5; 1])].
Definition sample_auth : list Z :=
  match St_IKEKeys sample_sa with
  | Some keys => auth_mic (C := xor_crypto) HashSHA512 (replicate 64 7)
                   (peer_octets (C := xor_crypto) HashSHA512 sample_sa keys sample_idr)
  | None => []
  end.
Definition sample_final : list Z := sample_reply 2 PayloadTypeIDr
  [(PayloadTypeIDr, sample_idr); (PayloadTypeAuth, AppendAuth [] (mkAuth AuthSharedKeyMIC sample_auth));
   (PayloadTypeCP, ok_or [] (AppendConfigPayload [] (mkConfigPayload ConfigTypeReply
      [mkConfigAttribute ConfigAttrInternalIPv4Address [10; 0; 0; 1]])));
   (PayloadTypeSA, ok_or [] (AppendSA [] [Payload.mkProposal 1 DeleteProtocolESP [0; 0; 0; 77]
      [mkTransform TransformENC 20 (KeyLengthAttr 256); mkTransform TransformESN 0 []]]));
   (PayloadTypeTSi, ok_or [] (AppendTS [] [mkSelector 7 0 0 65535 (IPv4 10 0 0 1) (IPv4 10 0 0 1)]));
   (PayloadTypeTSr, ok_or [] (AppendTS [] [mkSelector 7 0 0 65535 (IPv4 0 0 0 0) (IPv4 255 255 255 255)]))].
Definition sample_events : list wait_event :=
  [EvPacket true sample_sa_init_response 0; EvTimer; EvPacket true sample_boot 0; EvPacket true sample_final 0].

Lemma run_Ok {A B} (x : A * res B) : is_ok x.2 = true → ∃ a b, x = (a, Ok b).
Proof. destruct x as [a [b| | |]]; [|done..]. intros _. by exists a, b. Qed.
Definition is_err {A} (r : res A) : bool := match r with Err _ => true | _ => false end.
Lemma run_Err {A B} (x : A * res B) : is_err x.2 = true → ∃ a e, x = (a, Err e).
Proof. destruct x as [a [b|e| |]]; [done|intros _; by exists a, e|done..]. Qed.

Lemma sample_established : is_ok (sample_run (sample_world sample_events)).2 = true.
Proof. vm_compute. reflexivity. Qed.


Lemma established_keys_witness : ∃ w' est, sample_run (sample_world sample_events) = (w', Ok est) ∧
  ike_selected sample_cfg (Est_State est) ∧ keys_derived (C := xor_crypto) (Est_State est).
Proof.
  destruct (run_Ok _ sample_established) as (w' & est & E). exists w', est. split; [exact E|].
  destruct (established_keys (C := xor_crypto) (λ _, Ok tt) sample_rng sample_cfg _ _ _ E) as (H1 & H2 & _).
  split; [exact H1|exact H2].
Defined.

(** The peer goes away after SA_INIT. *)
Definition sample_broken_events : list wait_event := [EvPacket true sample_sa_init_response 0; EvClosed].


Definition material_ready (x : option (Selection * IKEKeys)) : bool :=
  match x with
  | Some (sel, _) => match ready (Sel_PRF sel) with Ok h => bool_decide (h = HashSHA512) | _ => false end
  | None => false
  end.
Lemma material_ready_Some x : material_ready x = true → ∃ sel keys, x = Some (sel, keys) ∧ ready (Sel_PRF sel) = Ok HashSHA512.
Proof.
  destruct x as [[sel keys]|]; [|done]. cbn. destruct (ready _) as [h| | |] eqn:E; [|done..]. intros H.
  apply bool_decide_eq_true in H as ->. by exists sel, keys.
Qed.

