(* ===== verification/EapPeer.v ===== *)
(** * The EAP mailbox of the handshake (src/control/eap_peer.go)

    [runEAP] does not call the EAP method itself: a worker goroutine owns it,
    rounds travel to the worker through a mailbox and come back on a channel made
    for the round, both sides also watch the context, and the deferred function
    closes the mailbox and waits for the worker. The worker and the bridge are a
    step relation here. What it computes is compared with calling the method
    directly, as [Handshake.eap_loop] does. *)

From stdpp Require Import relations.
From S2P Require Import Prelude Crypto Eap Handshake.

(** [eapPeerWorker.run]: inside [Initialize], in its [select], inside a round,
    inside the deferred [Close], gone. *)
Inductive PeerWorker := PwInit | PwIdle | PwServe (r : Round) | PwClose | PwDone.

(** [start] and [runEAP]: waiting for the initialization, between two rounds,
    sending a round, waiting for its reply, in the deferred function, gone. *)
Inductive Bridge := BrInit | BrReady | BrSend (r : Round) | BrWait | BrDefer | BrReturned.

(** The mailbox, its two ends and the method. [pe_rounds] is the channel (of two),
    [pe_reply] the reply channel of the round (of one), [pe_initDone] the answer
    of the initialization. For the proofs: the rounds sent, the rounds served,
    the replies received. *)
Record Peer (M : Type) := mkPeer {
  pe_method : M;
  pe_completed : bool;
  pe_rounds : list Round;
  pe_rounds_closed : bool;
  pe_reply : option (res Result);
  pe_initDone : option (res unit);
  pe_ctx : bool;
  pe_worker : PeerWorker;
  pe_bridge : Bridge;
  pe_sent : list Round;
  pe_served : list Round;
  pe_received : list (res Result) }.
Arguments mkPeer {_}. Arguments pe_method {_}. Arguments pe_completed {_}. Arguments pe_rounds {_}.
Arguments pe_rounds_closed {_}. Arguments pe_reply {_}. Arguments pe_initDone {_}. Arguments pe_ctx {_}.
Arguments pe_worker {_}. Arguments pe_bridge {_}. Arguments pe_sent {_}. Arguments pe_served {_}. Arguments pe_received {_}.
#[global] Instance eta_Peer M : Eta (Peer M) := λ s,
  mkPeer (pe_method s) (pe_completed s) (pe_rounds s) (pe_rounds_closed s) (pe_reply s) (pe_initDone s) (pe_ctx s)
    (pe_worker s) (pe_bridge s) (pe_sent s) (pe_served s) (pe_received s).

Section Mailbox.
Context {M : Type} {IM : Method M}.

(** One round of the worker's loop: the method and the completed flag it leaves
    and what it sends on the reply channel. *)
Definition peer_serve (m : M) (completed : bool) (r : Round) : M * bool * option (res Result) :=
  if negb (HasReply r) then (m, completed, None)
  else
  match Round_Packet r with
  | None =>
      let '(m, e) := Method_Initialize m in
      (m, completed, Some (match e with Ok _ => Ok zero_result | Err e => Err e | Panic => Panic | Hang => Hang end))
  | Some packet =>
      if completed then (m, completed, Some (Err "control: eap method %s already completed"))
      else
      match Method_Handle m packet (Round_ID r) (Round_Random r) with
      | (m, Ok result) => (m, bool_decide (Res_Action result = ActionComplete), Some (Ok result))
      | (m, e) => (m, false, Some e)
      end
  end.

(** The loop of [runEAP] goes on after this reply. *)
Definition goes_on (x : res Result) : bool :=
  match x with Ok result => bool_decide (Res_Action result = ActionSend) | _ => false end.

Definition newEAPPeerWorker (m : M) : Peer M := mkPeer m false [] false None None false PwInit BrInit [] [] [].

(** The deferred function of [runEAP] closes the mailbox. *)
Definition leave_loop (s : Peer M) : Peer M := s <| pe_rounds_closed := true |> <| pe_bridge := BrDefer |>.

(** A call of the method that does not return, or panics, is no step. *)
Inductive worker_step : Peer M → Peer M → Prop :=
  | pw_init s m u : pe_worker s = PwInit → Method_Initialize (pe_method s) = (m, Ok u) →
      worker_step s (s <| pe_method := m |> <| pe_initDone := Some (Ok tt) |> <| pe_worker := PwIdle |>)
  | pw_init_failed s m e : pe_worker s = PwInit → Method_Initialize (pe_method s) = (m, Err e) →
      worker_step s (s <| pe_method := m |> <| pe_initDone := Some (wrap "control: initialize eap method %s: " (Err e)) |>
                       <| pe_worker := PwClose |>)
  | pw_ctx s : pe_worker s = PwIdle → pe_ctx s = true → worker_step s (s <| pe_worker := PwClose |>)
  | pw_take s r q : pe_worker s = PwIdle → pe_rounds s = r :: q →
      worker_step s (s <| pe_rounds := q |> <| pe_worker := PwServe r |>)
  | pw_closed s : pe_worker s = PwIdle → pe_rounds s = [] → pe_rounds_closed s = true →
      worker_step s (s <| pe_worker := PwClose |>)
  | pw_answer s r m c x : pe_worker s = PwServe r → peer_serve (pe_method s) (pe_completed s) r = (m, c, Some x) → fine x →
      worker_step s (s <| pe_method := m |> <| pe_completed := c |> <| pe_reply := Some x |> <| pe_worker := PwIdle |>
                       <| pe_served := pe_served s ++ [r] |>)
  | pw_no_answer s r m c : pe_worker s = PwServe r → peer_serve (pe_method s) (pe_completed s) r = (m, c, None) →
      worker_step s (s <| pe_worker := PwIdle |> <| pe_served := pe_served s ++ [r] |>)
  | pw_close s m e : pe_worker s = PwClose → Method_Close (pe_method s) = (m, e) → fine e →
      worker_step s (s <| pe_method := m |> <| pe_worker := PwDone |>).

(** Between two rounds the bridge receives, and it may give up. *)
Inductive bridge_step : Peer M → Peer M → Prop :=
  | br_started s : pe_bridge s = BrInit → pe_initDone s = Some (Ok tt) → bridge_step s (s <| pe_bridge := BrReady |>)
  | br_not_started s e : pe_bridge s = BrInit → pe_initDone s = Some (Err e) → bridge_step s (s <| pe_bridge := BrReturned |>)
  | br_round s packet id random : pe_bridge s = BrReady → (length (pe_sent s) < maxEAPRounds)%nat → packet ≠ [] →
      bridge_step s (s <| pe_bridge := BrSend (mkRound (Some packet) id true random) |>)
  | br_finish s : pe_bridge s = BrReady → bridge_step s (leave_loop s)
  | br_send s r : pe_bridge s = BrSend r → (length (pe_rounds s) < 2)%nat →
      bridge_step s (s <| pe_rounds := pe_rounds s ++ [r] |> <| pe_sent := pe_sent s ++ [r] |> <| pe_reply := None |> <| pe_bridge := BrWait |>)
  | br_send_ctx s r : pe_bridge s = BrSend r → pe_ctx s = true → bridge_step s (leave_loop s)
  | br_reply s x : pe_bridge s = BrWait → pe_reply s = Some x → goes_on x = true →
      bridge_step s (s <| pe_reply := None |> <| pe_received := pe_received s ++ [x] |> <| pe_bridge := BrReady |>)
  | br_last_reply s x : pe_bridge s = BrWait → pe_reply s = Some x → goes_on x = false →
      bridge_step s (leave_loop (s <| pe_reply := None |> <| pe_received := pe_received s ++ [x] |>))
  | br_wait_ctx s : pe_bridge s = BrWait → pe_ctx s = true → bridge_step s (leave_loop s)
  | br_done s : pe_bridge s = BrDefer → pe_worker s = PwDone → bridge_step s (s <| pe_bridge := BrReturned |>)
  | br_timer s : pe_bridge s = BrDefer → bridge_step s (s <| pe_bridge := BrReturned |>).

Definition mailbox_step (s s' : Peer M) : Prop := worker_step s s' ∨ bridge_step s s'.
Definition peer_step (s s' : Peer M) : Prop := mailbox_step s s' ∨ s' = s <| pe_ctx := true |>.
Definition peer_reachable (m : M) : Peer M → Prop := rtc peer_step (newEAPPeerWorker m).

(* ------------------------------------------------------------------ *)
(** ** The direct calls *)

(** The method called round after round. *)
Fixpoint handles (m : M) (rs : list Round) : M * list (res Result) :=
  match rs with
  | [] => (m, [])
  | r :: rs =>
      let '(m, x) := Method_Handle m (default [] (Round_Packet r)) (Round_ID r) (Round_Random r) in
      let '(m, xs) := handles m rs in (m, x :: xs)
  end.

Lemma handles_snoc m rs r : handles m (rs ++ [r]) =
  let '(m, xs) := handles m rs in
  let '(m, x) := Method_Handle m (default [] (Round_Packet r)) (Round_ID r) (Round_Random r) in (m, xs ++ [x]).
Proof.
  revert m. induction rs as [|r' rs IH]; intros m; cbn [handles app].
  - by destruct (Method_Handle m _ _ _).
  - destruct (Method_Handle m _ _ _) as [m1 x1]. rewrite IH. destruct (handles m1 rs) as [m2 xs].
    by destruct (Method_Handle m2 _ _ _).
Qed.

(** A round the bridge sends. *)
Definition real_round (r : Round) : Prop := HasReply r = true ∧ ∃ packet, Round_Packet r = Some packet.

Lemma peer_serve_real m r : real_round r →
  peer_serve m false r =
    let '(m, x) := Method_Handle m (default [] (Round_Packet r)) (Round_ID r) (Round_Random r) in
    (m, match x with Ok result => bool_decide (Res_Action result = ActionComplete) | _ => false end, Some x).
Proof.
  intros (Hr & p & Hp). unfold peer_serve. rewrite Hr, Hp. cbn. by destruct (Method_Handle m p _ _) as [? []].
Qed.

(* ------------------------------------------------------------------ *)
(** ** The invariant *)

Definition serving (w : PeerWorker) : list Round := match w with PwServe r => [r] | _ => [] end.
Definition outstanding (s : Peer M) : list Round := serving (pe_worker s) ++ pe_rounds s.
Definition replies (s : Peer M) : list (res Result) := option_list (pe_reply s).
Definition in_loop (b : Bridge) : bool := match b with BrReady | BrSend _ => true | _ => false end.
Definition left_loop (b : Bridge) : bool := match b with BrDefer | BrReturned => true | _ => false end.
Definition load (s : Peer M) : nat := length (outstanding s) + length (replies s).

Record peer_inv (m0 : M) (s : Peer M) : Prop := {
  pi_init : pe_worker s = PwInit → pe_method s = m0 ∧ pe_initDone s = None ∧ pe_sent s = [] ∧ pe_bridge s = BrInit;
  pi_started : pe_worker s ≠ PwInit → pe_initDone s = Some (Ok tt) ∨ ∃ e, pe_initDone s = Some (Err e);
  pi_failed : ∀ e, pe_initDone s = Some (Err e) → pe_worker s = PwClose ∨ pe_worker s = PwDone;
  pi_method : pe_worker s ≠ PwInit → pe_worker s ≠ PwDone →
    pe_method s = (handles (Method_Initialize m0).1 (pe_served s)).1;
  pi_answers : (handles (Method_Initialize m0).1 (pe_served s)).2 = pe_received s ++ replies s;
  pi_sent : pe_sent s = pe_served s ++ outstanding s;
  pi_real : Forall real_round (pe_sent s) ∧ ∀ r, pe_bridge s = BrSend r → real_round r;
  pi_load : (load s <= 1)%nat ∧ (pe_bridge s = BrWait → load s = 1%nat) ∧
    (pe_bridge s = BrInit ∨ in_loop (pe_bridge s) = true → load s = 0%nat);
  pi_completed : pe_completed s = true → outstanding s = [] ∧ pe_bridge s ≠ BrInit ∧ in_loop (pe_bridge s) = false ∧
    ∀ x, pe_reply s = Some x → goes_on x = false;
  pi_bound : (length (pe_sent s) <= maxEAPRounds)%nat ∧
    ∀ r, pe_bridge s = BrSend r → (length (pe_sent s) < maxEAPRounds)%nat;
  pi_closed : left_loop (pe_bridge s) = true → pe_rounds_closed s = true ∨ ∃ e, pe_initDone s = Some (Err e);
  pi_left : (pe_rounds_closed s = true → left_loop (pe_bridge s) = true) ∧
    (∀ e, pe_initDone s = Some (Err e) → pe_bridge s = BrInit ∨ pe_bridge s = BrReturned) ∧
    (pe_worker s = PwClose ∨ pe_worker s = PwDone → pe_ctx s = true ∨ left_loop (pe_bridge s) = true ∨ ∃ e, pe_initDone s = Some (Err e)) }.

Lemma newEAPPeerWorker_inv m : peer_inv m (newEAPPeerWorker m).
Proof. constructor; cbn; try done; try naive_solver lia. Qed.

(** Opens an invariant and what its state counts. *)
Ltac open_peer I := destruct I as [P1 P2 P3 P4 P5 P6 [P7 P7'] (P8 & P8' & P8'') P9 [P10 P10'] P11 (P12 & P13 & P14)];
  unfold load, outstanding, replies in *.

Lemma peer_worker_inv m0 s s' : worker_step s s' → peer_inv m0 s → peer_inv m0 s'.
Proof.
  intros Hs I. open_peer I.
  destruct Hs as [s m u Hw Hm|s m e Hw Hm|s Hw Hc|s r q Hw Hq|s Hw Hq Hc|s r m c x Hw Hx Hf|s r m c Hw Hx|s m e Hw Hm He]; rewrite Hw in *; cbn in *.
  - destruct (P1 eq_refl) as (E1 & E2 & E3 & E6). rewrite E3 in P6. symmetry in P6. apply app_eq_nil in P6 as [E4 E5].
    rewrite E1 in Hm. constructor; cbn; unfold load, outstanding, replies; cbn; rewrite ?E3, ?E4, ?E5 in *; try done; auto.
    + by rewrite Hm.
    + intros H. destruct (P11 H) as [?|[? ?]]; [by left|congruence].
    + split_and!; [done|done|by intros [?|?]].
  - destruct (P1 eq_refl) as (E1 & E2 & E3 & E6). rewrite E3 in P6. symmetry in P6. apply app_eq_nil in P6 as [E4 E5].
    rewrite E1 in Hm. constructor; cbn; unfold load, outstanding, replies; cbn; rewrite ?E3, ?E4, ?E5 in *; try done; auto.
    + intros _. right. by eexists.
    + by rewrite Hm.
    + intros _. right. by eexists.
    + split_and!; [done|by left|]. intros _. right. right. by eexists.
  - constructor; cbn; unfold load, outstanding, replies; cbn; try done; auto.
  - rewrite Hq in *. constructor; cbn; unfold load, outstanding, replies; cbn; try done; auto.
    + intros e He. by destruct (P3 e He).
    + split_and!; [done|done|by intros [?|?]].
  - constructor; cbn; unfold load, outstanding, replies; cbn; try done; auto. split_and!; [done|done|by auto].
  - assert (Hr : real_round r) by (rewrite P6 in P7; apply Forall_app in P7 as [_ P7]; by inversion P7).
    assert (Hcf : pe_completed s = false) by (destruct (pe_completed s); [by destruct (P9 eq_refl)|done]).
    rewrite Hcf, (peer_serve_real _ _ Hr), (P4 ltac:(done) ltac:(done)) in Hx.
    assert (Hq : pe_rounds s = [] ∧ pe_reply s = None) by (destruct (pe_rounds s), (pe_reply s); cbn in *; split; first [done|lia]).
    destruct Hq as [Hq Hn]. rewrite Hq, Hn in *. cbn in *.
    pose proof (handles_snoc (Method_Initialize m0).1 (pe_served s) r) as Hh.
    destruct (handles _ (pe_served s)) as [mk xs] eqn:Eh. cbn in *. rewrite app_nil_r in P5.
    destruct (Method_Handle mk _ _ _) as [mk' x']. injection Hx as <- <- <-.
    constructor; cbn; unfold load, outstanding, replies; cbn; rewrite ?Hh, ?Hq; cbn; try done.
    + by auto.
    + intros e He. by destruct (P3 e He).
    + by rewrite P5.
    + by rewrite P6, app_nil_r.
    + intros Hc. split_and!; [done|by intros Hb; discriminate P8''; left|by apply not_true_is_false; intros Hb; discriminate P8''; right|].
      intros x [= <-]. destruct x' as [res| | |]; try done. cbn.
      apply bool_decide_eq_true in Hc. by rewrite Hc.
    + split_and!; [done|done|by intros [?|?]].
  - assert (Hr : real_round r) by (rewrite P6 in P7; apply Forall_app in P7 as [_ P7]; by inversion P7).
    destruct Hr as (H1 & p & H2). unfold peer_serve in Hx. rewrite H1, H2 in Hx. cbn in Hx.
    destruct (pe_completed s); [done|]. by destruct (Method_Handle _ _ _ _) as [? []].
  - constructor; cbn; unfold load, outstanding, replies; cbn; try done; auto.
Qed.

(** The bridge moves on without touching a channel, or closes the mailbox. *)
Lemma bridge_move_inv m0 s b cl : peer_inv m0 s → pe_worker s ≠ PwInit → b ≠ BrInit → b ≠ BrWait →
  (in_loop b = true → load s = 0%nat ∧ pe_completed s = false) →
  (∀ r, b = BrSend r → real_round r ∧ (length (pe_sent s) < maxEAPRounds)%nat) →
  (left_loop b = true → cl = true ∨ ∃ e, pe_initDone s = Some (Err e)) →
  (cl = true → left_loop b = true) → (∀ e, pe_initDone s = Some (Err e) → b = BrReturned) → (left_loop (pe_bridge s) = true → left_loop b = true) →
  peer_inv m0 (s <| pe_bridge := b |> <| pe_rounds_closed := cl |>).
Proof.
  intros [P1 P2 P3 P4 P5 P6 [P7 _] (P8 & _ & _) P9 [P10 _] _ (P12 & P13 & P14)] Hi Hb Hw Hl Hs Hc Hcl Hie Hlb. constructor; cbn; try done.
  - split; [done|]. intros r Hr. by apply Hs.
  - split_and!; [done..|]. intros [?|H]; [done|]. by apply Hl.
  - intros H. destruct (P9 H) as (H1 & _ & _ & H2). split_and!; try done. destruct (in_loop b); [|done]. destruct Hl; congruence.
  - split; [done|]. intros r Hr. by apply (Hs r).
  - split_and!; [done|by eauto|]. intros H. destruct (P14 H) as [?|[?|?]]; auto.
Qed.

(** The bridge receives the reply of its round. *)
Lemma receive_inv m0 s x b cl : peer_inv m0 s → pe_bridge s = BrWait → pe_reply s = Some x →
  b = BrReady ∧ goes_on x = true ∧ cl = pe_rounds_closed s ∨ b = BrDefer ∧ cl = true →
  peer_inv m0 (s <| pe_reply := None |> <| pe_received := pe_received s ++ [x] |> <| pe_bridge := b |> <| pe_rounds_closed := cl |>).
Proof.
  intros I Hb Hx Hg. open_peer I. rewrite Hb, Hx in *. cbn in *.
  assert (Ho : serving (pe_worker s) ++ pe_rounds s = []) by (apply length_zero_iff_nil; lia).
  constructor; cbn; unfold load, outstanding, replies; cbn; rewrite ?Ho in *; try done.
  - intros Hw. by destruct (P1 Hw) as (_ & _ & _ & ?).
  - by rewrite app_nil_r.
  - split; [done|]. intros r ->. by destruct Hg as [[? _]|[? _]].
  - cbn. split_and!; [lia|intros ->; by destruct Hg as [[? _]|[? _]]|done].
  - intros H. destruct (P9 H) as (_ & _ & _ & H2). destruct Hg as [[-> [Hg _]]|[-> _]]; [|done]. specialize (H2 x eq_refl). congruence.
  - split; [done|]. intros r ->. by destruct Hg as [[? _]|[? _]].
  - intros Hl. destruct Hg as [[-> _]|[_ ->]]; [done|by left].
  - split_and!.
    + intros Hc. destruct Hg as [[-> [_ ->]]|[-> _]]; auto.
    + intros e He. by destruct (P13 e He).
    + intros Hw. destruct (P14 Hw) as [?|[?|?]]; auto; done.
Qed.

(** The bridge sends a round into an empty mailbox. *)
Lemma br_send_inv m0 s r : peer_inv m0 s → pe_bridge s = BrSend r →
  peer_inv m0 (s <| pe_rounds := pe_rounds s ++ [r] |> <| pe_sent := pe_sent s ++ [r] |> <| pe_reply := None |> <| pe_bridge := BrWait |>).
Proof.
  intros I Hb. open_peer I. rewrite Hb in *. cbn in *. specialize (P8'' ltac:(by right)). specialize (P10' r eq_refl).
  assert (Ho : serving (pe_worker s) ++ pe_rounds s = []) by (apply length_zero_iff_nil; lia).
  assert (Hn : pe_reply s = None) by (destruct (pe_reply s); cbn in *; [lia|done]). rewrite Hn in *.
  constructor; cbn; unfold load, outstanding, replies; cbn; rewrite ?app_assoc, ?Ho in *; try done.
  - intros Hw. by destruct (P1 Hw) as (_ & _ & _ & ?).
  - by rewrite P6.
  - split; [|done]. apply Forall_app_2; [done|]. constructor; [by apply P7'|done].
  - cbn. split_and!; [lia|done|naive_solver].
  - intros H. by destruct (P9 H) as (_ & _ & ? & _).
  - rewrite length_app. cbn. split; [lia|done].
  - split_and!; [done|intros e He; by destruct (P13 e He)|]. intros Hw. by destruct (P14 Hw) as [?|[?|?]]; auto.
Qed.

Lemma peer_bridge_inv m0 s s' : bridge_step s s' → peer_inv m0 s → peer_inv m0 s'.
Proof.
  intros Hs I. pose proof (pi_load _ _ I) as (L1 & L2 & L3). pose proof (pi_completed _ _ I) as C1.
  assert (Hloop : in_loop (pe_bridge s) = true ∨ pe_bridge s = BrInit → load s = 0%nat ∧ pe_completed s = false).
  { intros H. split; [apply L3; naive_solver|]. apply not_true_is_false. intros H1. destruct (C1 H1) as (_ & H2 & H3 & _).
    destruct H; congruence. }
  assert (Hinit : pe_bridge s ≠ BrInit ∨ pe_initDone s ≠ None → pe_worker s ≠ PwInit).
  { intros H Hw. by destruct (pi_init _ _ I Hw) as (_ & ? & _ & ?), H. }
  destruct (pi_left _ _ I) as (R1 & R2 & R3). pose proof (pi_closed _ _ I) as R4.
  destruct Hs as [s Hb Hi|s e Hb Hi|s p id rnd Hb Hl Hp|s Hb|s r Hb Hl|s r Hb Hc|s x Hb Hx Hg|s x Hb Hx Hg|s Hb Hc|s Hb Hw|s Hb]; rewrite Hb in *; cbn in *;
    try assert (Hw0 : pe_worker s ≠ PwInit) by (apply Hinit; first [by left|by right; rewrite Hi]).
  - apply (bridge_move_inv _ _ BrReady (pe_rounds_closed s) I); rewrite ?Hb; auto; try done. intros e He. congruence.
  - apply (bridge_move_inv _ _ BrReturned (pe_rounds_closed s) I); rewrite ?Hb; auto; try done. intros _. right. by exists e.
  - apply (bridge_move_inv _ _ (BrSend _) (pe_rounds_closed s) I); rewrite ?Hb; auto; try done.
    + intros r [= <-]. split; [|done]. split; [done|]. by exists p.
    + intros e He. by destruct (R2 e He).
  - apply (bridge_move_inv _ _ BrDefer true I); rewrite ?Hb; auto; try done. intros e He. by destruct (R2 e He).
  - by apply br_send_inv.
  - apply (bridge_move_inv _ _ BrDefer true I); rewrite ?Hb; auto; try done. intros e He. by destruct (R2 e He).
  - apply (receive_inv _ _ x BrReady (pe_rounds_closed s) I); auto.
  - apply (receive_inv _ _ x BrDefer true I); auto.
  - apply (bridge_move_inv _ _ BrDefer true I); rewrite ?Hb; auto; try done. intros e He. by destruct (R2 e He).
  - apply (bridge_move_inv _ _ BrReturned (pe_rounds_closed s) I); rewrite ?Hb; auto; done.
  - apply (bridge_move_inv _ _ BrReturned (pe_rounds_closed s) I); rewrite ?Hb; auto; done.
Qed.

Lemma peer_reachable_inv m s : peer_reachable m s → peer_inv m s.
Proof.
  intros H. unfold peer_reachable in H. pose proof (newEAPPeerWorker_inv m) as I. revert I.
  induction H as [|s0 s1 s2 [[Hs|Hs]| ->] _ IH]; [done|..]; intros I; apply IH.
  - by apply (peer_worker_inv _ _ _ Hs).
  - by apply (peer_bridge_inv _ _ _ Hs).
  - destruct I as [? ? ? ? ? ? ? ? ? ? ? (R1 & R2 & R3)]. constructor; cbn; try done. split_and!; auto.
Qed.

(* ------------------------------------------------------------------ *)
(** ** Termination *)

Definition bridge_work (sent : nat) (b : Bridge) : nat :=
  match b with
  | BrInit => 10 * (maxEAPRounds - sent) + 6 | BrReady => 10 * (maxEAPRounds - sent) + 5
  | BrSend _ => 10 * (maxEAPRounds - sent) + 4 | BrWait => 10 * (maxEAPRounds - sent) + 6 | BrDefer => 1 | BrReturned => 0
  end.
Definition worker_work (w : PeerWorker) : nat :=
  match w with PwInit => 3 | PwIdle => 2 | PwServe _ => 3 | PwClose => 1 | PwDone => 0 end.
Definition mailbox_work (s : Peer M) : nat :=
  bridge_work (length (pe_sent s)) (pe_bridge s) + worker_work (pe_worker s) + 2 * length (pe_rounds s).

Lemma mailbox_step_work m0 s s' : peer_inv m0 s → mailbox_step s s' → (mailbox_work s' < mailbox_work s)%nat.
Proof.
  intros I Hs. pose proof (proj2 (pi_bound _ _ I)) as Hb. clear I. unfold mailbox_work. destruct Hs as [Hs|Hs]; destruct Hs; cbn;
    repeat match goal with H : pe_bridge _ = _ |- _ => rewrite H in *; clear H | H : pe_worker _ = _ |- _ => rewrite H; clear H
      | H : pe_rounds _ = _ |- _ => rewrite H; clear H end; rewrite ?length_app; cbn in *; try lia.
  specialize (Hb r eq_refl). unfold maxEAPRounds in Hb. lia.
Qed.

(** The method is inside a call that does not return. *)
Definition method_stuck (s : Peer M) : Prop :=
  match pe_worker s with
  | PwInit => ¬ fine (Method_Initialize (pe_method s)).2
  | PwServe r => ∃ x, (peer_serve (pe_method s) (pe_completed s) r).2 = Some x ∧ ¬ fine x
  | PwClose => ¬ fine (Method_Close (pe_method s)).2
  | _ => False
  end.

(** The worker moves, is gone, is held by the method, or waits for a round. *)
Lemma worker_progress s : (∃ s', worker_step s s') ∨ pe_worker s = PwDone ∨ method_stuck s ∨
  pe_worker s = PwIdle ∧ pe_rounds s = [] ∧ pe_rounds_closed s = false ∧ pe_ctx s = false.
Proof.
  unfold method_stuck. destruct (pe_worker s) as [| |r| |] eqn:Hw.
  - destruct (Method_Initialize (pe_method s)) as [m [u|e| |]] eqn:Hm.
    + left. eexists. by eapply pw_init.
    + left. eexists. by eapply pw_init_failed.
    + right. right. left. by intros [].
    + right. right. left. by intros [].
  - destruct (pe_rounds s) eqn:Hq; [|left; eexists; by eapply pw_take].
    destruct (pe_rounds_closed s) eqn:Hc; [left; eexists; by eapply pw_closed|].
    destruct (pe_ctx s) eqn:Hx; [left; eexists; by eapply pw_ctx|by do 3 right].
  - destruct (peer_serve (pe_method s) (pe_completed s) r) as [[m c] [x|]] eqn:Hx; [|left; eexists; by eapply pw_no_answer].
    destruct x as [v|e| |].
    + left. eexists. by eapply pw_answer.
    + left. eexists. by eapply pw_answer.
    + right. right. left. exists Panic. split; [done|by intros []].
    + right. right. left. exists Hang. split; [done|by intros []].
  - destruct (Method_Close (pe_method s)) as [m [u|e| |]] eqn:Hm.
    + left. eexists. by eapply pw_close.
    + left. eexists. by eapply pw_close.
    + right. right. left. by intros [].
    + right. right. left. by intros [].
  - by auto.
Qed.

(** The bridge moves, is gone, or waits for the worker. *)
Lemma bridge_progress m0 s : peer_inv m0 s → (∃ s', bridge_step s s') ∨ pe_bridge s = BrReturned ∨
  pe_bridge s = BrInit ∧ pe_worker s = PwInit ∨ pe_bridge s = BrWait ∧ pe_ctx s = false ∧ pe_reply s = None.
Proof.
  intros I. destruct (pe_bridge s) as [| |r| | |] eqn:Hb.
  - destruct (decide (pe_initDone s = None)) as [Hn|Hn].
    + right. right. left. split; [done|]. destruct (pe_worker s) eqn:Hw; [done|..];
        destruct (pi_started _ _ I) as [?|[? ?]]; rewrite ?Hw; congruence.
    + left. assert (Hw : pe_worker s ≠ PwInit) by (intros Hw; by destruct (pi_init _ _ I Hw) as (_ & ? & _)).
      destruct (pi_started _ _ I Hw) as [?|[e ?]]; eexists; [by eapply br_started|by eapply br_not_started].
  - left. eexists. by apply br_finish.
  - left. eexists. eapply br_send; [done|]. destruct (pi_load _ _ I) as (_ & _ & L). rewrite Hb in L. specialize (L ltac:(by right)).
    unfold load, outstanding in L. rewrite length_app in L. lia.
  - destruct (pe_reply s) as [x|] eqn:Hx.
    + left. destruct (goes_on x) eqn:Hg; eexists; [by eapply br_reply|by eapply br_last_reply].
    + destruct (pe_ctx s) eqn:Hc; [left; eexists; by eapply br_wait_ctx|by auto 6].
  - left. eexists. by apply br_timer.
  - by auto.
Qed.

(* ------------------------------------------------------------------ *)
(** ** Properties *)

(** [C19] The mailbox is a call. However the worker, the bridge and a cancelled
    context interleave: the replies the bridge has received, with the one under
    way, are what the method answers when it is initialized and then called
    directly with the rounds served, in the order sent; the method the worker holds
    is the one those calls leave; no round is lost, doubled or reordered; at most
    one is outstanding, so that sending never blocks; at most 64 are sent; and no
    round is sent after the method completed. *)
Theorem eap_mailbox (m : M) (s : Peer M) : peer_reachable m s →
  let '(m', answers) := handles (Method_Initialize m).1 (pe_served s) in
  answers = pe_received s ++ replies s ∧
  (pe_worker s ≠ PwInit → pe_worker s ≠ PwDone → pe_method s = m') ∧
  pe_sent s = pe_served s ++ outstanding s ∧
  (length (outstanding s) <= 1)%nat ∧
  (∀ r, pe_bridge s = BrSend r → pe_rounds s = []) ∧
  (length (pe_sent s) <= maxEAPRounds)%nat ∧
  (pe_completed s = true → outstanding s = [] ∧ in_loop (pe_bridge s) = false).
Proof.
  intros I%peer_reachable_inv. pose proof (pi_method _ _ I) as H1. pose proof (pi_answers _ _ I) as H2.
  destruct (handles _ _) as [m' answers]. cbn in H1, H2. destruct (pi_load _ _ I) as (L1 & L2 & L3).
  split_and!; [done|done|apply (pi_sent _ _ I)|unfold load in *; lia| |apply (pi_bound _ _ I)|].
  - intros r Hb. rewrite Hb in L3. specialize (L3 ltac:(by right)). unfold load, outstanding in L3. rewrite length_app in L3.
    apply length_zero_iff_nil. lia.
  - intros H. by destruct (pi_completed _ _ I H) as (? & _ & ? & _).
Qed.

(** [C20] The mailbox ends. From any reachable state the worker and the bridge take a
    bounded number of steps, and when neither can move, the method is inside a call
    that never returns, or the bridge has returned and the worker is gone. Even a
    call that never returns cannot hold the handshake once the context is
    cancelled, other than during the initialization. *)
Theorem eap_mailbox_ends (m : M) (s s' : Peer M) (n : nat) :
  peer_reachable m s → nsteps mailbox_step n s s' →
  (n + mailbox_work s' <= mailbox_work s)%nat ∧
  ((∀ s'', ¬ mailbox_step s' s'') →
     (method_stuck s' ∨ pe_worker s' = PwDone ∧ pe_bridge s' = BrReturned) ∧
     (pe_ctx s' = true → pe_worker s' ≠ PwInit → pe_bridge s' = BrReturned)).
Proof.
  intros I%peer_reachable_inv Hn.
  assert (H : (n + mailbox_work s' <= mailbox_work s)%nat ∧ peer_inv m s').
  { induction Hn as [|n s0 s1 s2 H _ IH]; [done|]. pose proof (mailbox_step_work _ _ _ I H).
    destruct IH as [? ?]; [|split; [lia|done]]. destruct H as [H|H]; [by apply (peer_worker_inv _ _ _ H)|by apply (peer_bridge_inv _ _ _ H)]. }
  destruct H as [H I']. split; [done|]. clear I. intros Hno.
  destruct (bridge_progress _ _ I') as [[s'' Hs]|B]; [by destruct (Hno s''); right|].
  destruct (worker_progress s') as [[s'' Hs]|W]; [by destruct (Hno s''); left|]. split.
  - destruct W as [W|[W|(W1 & W2 & W3 & W4)]]; [|by left|].
    + destruct B as [B|[[_ B]|(B1 & B2 & B3)]]; [by auto|congruence|]. right. split; [done|].
      destruct (pi_left _ _ I') as (_ & R2 & R3). destruct (R3 (or_intror W)) as [?|[Hl|[e He]]]; [congruence|by rewrite B1 in Hl|].
      destruct (R2 e He); congruence.
    + destruct B as [B|[[_ B]|(B1 & B2 & B3)]]; [|congruence|].
      * destruct (pi_closed _ _ I') as [?|[e He]]; [by rewrite B|congruence|]. by destruct (pi_failed _ _ I' e He); congruence.
      * destruct (pi_load _ _ I') as (_ & L & _). specialize (L B1). unfold load, outstanding, replies in L. by rewrite W1, W2, B3 in L.
  - intros Hc Hi. destruct B as [B|[[_ B]|(_ & B & _)]]; [done|done|congruence].
Qed.
End Mailbox.

(* ------------------------------------------------------------------ *)
(** ** The two workers *)

(** On rounds that carry a packet the handshake's worker and [eap.Worker] answer
    alike, up to the text of a refusal; they differ in when the method is closed. *)
Theorem workers_alike {M : Type} {IM : Method M} (m : M) (completed : bool) (r : Round) :
  real_round r →
  let '(m1, c1, x1) := peer_serve m completed r in
  let '(m2, c2, x2) := serve_round m completed r in
  c1 = c2 ∧ (completed = false → x1 = x2 ∧ (c1 = false → m1 = m2) ∧ (c1 = true → m2 = (Method_Close m1).1)) ∧
  (completed = true → m1 = m2 ∧ ∃ e1 e2, x1 = Some (Err e1) ∧ x2 = Some (Err e2)).
Proof.
  intros (Hr & p & Hp). unfold peer_serve, serve_round. rewrite Hr, Hp. cbn. destruct completed.
  - split; [done|]. split; [done|]. intros _. split; [done|]. by eexists _, _.
  - destruct (Method_Handle m p _ _) as [m' [result|e| |]]; try done.
    destruct (decide (Res_Action result = ActionComplete)) as [H|H];
      [rewrite (bool_decide_eq_true_2 _ H)|rewrite (bool_decide_eq_false_2 _ H)]; done.
Qed.

(* ------------------------------------------------------------------ *)
(** ** A session of two rounds *)

(** A method that echoes its first packet and completes with the second. *)
#[local] Instance echo_method : Method nat := {|
  Method_Initialize _ := (0%nat, Ok tt);
  Method_Handle n packet _ _ := (S n, if (n =? 0)%nat then Ok (send packet) else Ok (finished packet));
  Method_Close n := (n, Ok tt) |}.

Tactic Notation "peer" uconstr(rule) :=
  eapply rtc_l; [first [left; left; eapply rule | left; right; eapply rule]; first [done | reflexivity | cbn; unfold maxEAPRounds; lia]|]; cbn.

Definition round1 : Round := mkRound (Some [5]) 1 true (Err "none").
Definition round2 : Round := mkRound (Some [6]) 2 true (Err "none").

Lemma eap_mailbox_witness : ∃ s, peer_reachable (M := nat) 7%nat s ∧ pe_served s = [round1; round2] ∧
  pe_received s = [Ok (send [5]); Ok (finished [6])] ∧ pe_method s = 2%nat.
Proof.
  assert (H : ∃ s, peer_reachable (M := nat) 7%nat s ∧ pe_served s = [round1; round2] ∧ replies s = [] ∧ pe_worker s = PwIdle).
  { eexists. split; [|split].
    - unfold peer_reachable, newEAPPeerWorker. peer pw_init. peer br_started. peer (br_round _ [5] 1 (Err "none")). peer br_send. peer pw_take. peer pw_answer.
      peer br_reply. peer (br_round _ [6] 2 (Err "none")). peer br_send. peer pw_take. peer pw_answer. peer br_last_reply. apply rtc_refl.
    - reflexivity.
    - by split. }
  destruct H as (s & H1 & H2 & H3 & H4). exists s. pose proof (eap_mailbox 7%nat s H1) as H. rewrite H2, H3 in H. cbn in H.
  destruct H as (E1 & E2 & _). rewrite app_nil_r in E1. rewrite H4 in E2. split_and!; [done|done|done|]. by apply E2.
Defined.

Lemma eap_mailbox_ends_witness : ∃ s s', peer_reachable (M := nat) 7%nat s ∧ nsteps mailbox_step 1 s s' ∧
  (1 + mailbox_work s' <= mailbox_work s)%nat.
Proof.
  assert (H : ∃ s s', peer_reachable (M := nat) 7%nat s ∧ nsteps mailbox_step 1 s s').
  { eexists _, _. split.
    - unfold peer_reachable, newEAPPeerWorker. peer pw_init. peer br_started. apply rtc_refl.
    - apply nsteps_once. right. by apply br_finish. }
  destruct H as (s & s' & H1 & H2). exists s, s'. split_and!; [done..|]. by apply (eap_mailbox_ends 7%nat s s' 1 H1 H2).
Defined.
