(* ===== verification/Rekey.v ===== *)
(** * Rekey helpers (src/control/rekey.go, src/control/config_apply.go and the
    lease arithmetic of src/control/running.go)

    The parts of the running actor that keep no state of their own: timer
    arithmetic, the request chains of the two rekeys with the context they
    fill, the response parsers, key derivation on the initiating side, and the
    merge of configuration pushes. Durations are nanoseconds; what math/rand
    and the clock yield are arguments. *)

From S2P Require Import Prelude Suite Crypto Cipher Payload Keying Wire Protected Eap State Negotiate Exchange Auth Handshake.

Definition Second : Z := 1000000000.

(* ------------------------------------------------------------------ *)
(** ** Timer arithmetic *)

(** [rnd] is [rand.Int63n] (which panics on a bound below 1); [until] is the
    clock reading of [time.Until]. *)
Definition rekeyDeadline (now until lifetime jitterCap : Z) (rnd : Z → Z) : Z :=
  let jitter := jitterCap in
  let jitter := if jitter <=? 0 then lifetime `quot` 10 else jitter in
  let jitter := if (jitter <? 0) || (lifetime <? jitter) then lifetime `quot` 10 else jitter in
  let d := lifetime - jitter in
  let d := if d <? 0 then lifetime else d in
  let d := if 0 <? jitter then d + rnd jitter else d in
  let d := if d <? lifetime `quot` 2 then lifetime `quot` 2 else d in
  now + d - until.

Definition retryBackoff (base : Z) (rnd : Z → Z) : Z :=
  let base := if base <=? 0 then 30 * Second else base in
  let jitter := base `quot` 5 in
  let jitter := if jitter <=? 0 then Second else jitter in
  base - jitter + rnd (i64 (2 * jitter + 1)).

(** running.go; [nano] is [time.Now().UnixNano()]. *)
Definition randInt63n (nano n : Z) : Z := if n <=? 0 then 0 else Z.rem nano n.

Definition leaseRenewDelay (expirySeconds : Z) : Z :=
  let delay := i64 (u64 (u64 (expirySeconds * Second) * 8) `div` 10) in
  if delay <? Second then Second else delay.

Definition leaseRetryDelay (nano remaining : Z) : Z :=
  let delay := remaining `quot` 2 in
  let delay := if 60 * Second <? delay then 60 * Second else delay in
  let delay := delay + randInt63n nano (delay `quot` 20 + 1) in
  if delay <? Second then Second else delay.

(* ------------------------------------------------------------------ *)
(** ** config_apply.go *)

Inductive configApplyMode := configApplyReplace | configApplyMerge.

(** [cloneAssignedConfig]: a deep copy, the zero value for nil. *)
Definition cloneAssignedConfig (a : option AssignedConfig) : AssignedConfig := default no_assigned a.

Fixpoint ipListsEqual (a b : list IP) : bool :=
  match a, b with
  | [], [] => true
  | x :: a, y :: b => IP_Equal x y && ipListsEqual a b
  | _, _ => false
  end.

Definition assignedConfigEqual (a b : AssignedConfig) : bool :=
  (AddressExpirySeconds a =? AddressExpirySeconds b) &&
  (InternalIPv6Prefix a =? InternalIPv6Prefix b) &&
  IP_Equal (InternalIPv4 a) (InternalIPv4 b) && IP_Equal (InternalIPv6 a) (InternalIPv6 b) &&
  ipListsEqual (DNS4 a) (DNS4 b) && ipListsEqual (DNS6 a) (DNS6 b).

(** The value [applyConfigUpdate] stores, over the previous one. *)
Definition next_assigned (prev : option AssignedConfig) (incoming : AssignedConfig) (present : cesAssignedMask)
    (mode : configApplyMode) : AssignedConfig :=
  match mode, prev with
  | configApplyMerge, Some prev =>
      let next := cloneAssignedConfig (Some prev) in
      let next := if m_v4Addr present then next <| InternalIPv4 := InternalIPv4 incoming |> else next in
      let next := if m_v6Addr present then next <| InternalIPv6 := InternalIPv6 incoming |>
                                                <| InternalIPv6Prefix := InternalIPv6Prefix incoming |> else next in
      let next := if m_v4DNS present then next <| DNS4 := DNS4 incoming |> else next in
      let next := if m_v6DNS present then next <| DNS6 := DNS6 incoming |> else next in
      if m_expiry present then next <| AddressExpirySeconds := AddressExpirySeconds incoming |> else next
  | _, _ => cloneAssignedConfig (Some incoming)
  end.

Definition assigned_changed (prev : option AssignedConfig) (next : AssignedConfig) : bool :=
  match prev with None => true | Some prev => negb (assignedConfigEqual prev next) end.

(* ------------------------------------------------------------------ *)
(** ** Requests *)

Definition appendU32 (dst : list Z) (v : Z) : list Z := dst ++ putUint32 v.

Section Requests.
Context {X : X25519}.

Definition generateRekeyDH (scalar : res (list Z)) : res (DHKey * KeyExchange) :=
  dh ← wrap "control: generate rekey DH: " (GenerateDH TransformDHCurve25519 scalar);
  pub ← wrap "control: encode rekey KE: " (PublicBytes dh);
  Ok (dh, mkKeyExchange TransformDHCurve25519 pub).

(** The plaintext chain and the filled context; [r_nonce] and [r_key] are what
    the random source yields. *)
Definition buildChildRekeyRequestPayloads (cfg : Config) (st : State) (rc : RekeyContext)
    (r_nonce : Z → res (list Z)) (r_key : res (list Z)) : res (RekeyContext * list Z) :=
  match ActiveChild st with
  | None => Err "control: child rekey without an active child SA"
  | Some child =>
      ni ← wrap "control: generate child rekey nonce: " (GenerateNonce r_nonce 32);
      let rc := rc <| RC_Ni := ni |> in
      rekeySA ← AppendNotify [] (mkNotify DeleteProtocolESP (appendU32 [] (InboundSPI child)) NotifyRekeySA []);
      inbound ← deref (RC_NewChild rc);
      sa ← appendESPProposalsForRekey cfg [] inbound (ChildPFS (Cfg_Rekey cfg));
      '(rc, ke) ← (if ChildPFS (Cfg_Rekey cfg) then
                     '(dh, ke) ← generateRekeyDH r_key;
                     Ok (rc <| RC_LocalDH := Some dh |> <| RC_LocalKE := Some ke |>, [(PayloadTypeKE, AppendKE [] ke)])
                   else Ok (rc, []));
      Ok (rc, cesBuildChain ([(PayloadTypeNotify, rekeySA); (PayloadTypeSA, sa);
                              (PayloadTypeNonce, AppendNonce [] ni)] ++ ke ++
                             [(PayloadTypeTSi, TSi child); (PayloadTypeTSr, TSr child)]))
  end.

Definition buildIKERekeyRequestPayloads (cfg : Config) (rc : RekeyContext) (r_nonce : Z → res (list Z))
    (r_spi r_key : res (list Z)) : res (RekeyContext * list Z) :=
  ni ← wrap "control: generate IKE rekey nonce: " (GenerateNonce r_nonce 32);
  spiI ← wrap "control: generate new initiator SPI: " (GenerateSPI r_spi);
  '(dh, ke) ← generateRekeyDH r_key;
  let rc := rc <| RC_Ni := ni |> <| RC_NewInitiatorSPI := spiI |> <| RC_LocalDH := Some dh |>
               <| RC_LocalKE := Some ke |> in
  sa ← appendIKEProposalsWithSPI cfg [] spiI;
  Ok (rc, cesBuildChain [(PayloadTypeSA, sa); (PayloadTypeNonce, AppendNonce [] ni);
                         (PayloadTypeKE, AppendKE [] ke)]).

(* ------------------------------------------------------------------ *)
(** ** Responses *)

(** [childRekeyResponse] *)
Record childRekeyResponse := mkChildRekeyResponse {
  Resp_PeerSPI : Z; Resp_Nr : list Z; Resp_KEr : list Z; Resp_TSi : list Z; Resp_TSr : list Z;
  Resp_SA : SA; Resp_Selection : Selection }.

(** The variables of the parsing loop; [None] until seen. *)
Record child_resp_scan := mkChildRespScan {
  cr_sa : option SA; cr_nonce : option (list Z); cr_ke : option (list Z); cr_tsi : list Z; cr_tsr : list Z }.
#[global] Instance eta_child_resp_scan : Eta child_resp_scan := λ s,
  mkChildRespScan (cr_sa s) (cr_nonce s) (cr_ke s) (cr_tsi s) (cr_tsr s).

Fixpoint scan_child_response (inner : list Wire.Payload) (s : child_resp_scan) : res child_resp_scan :=
  match inner with
  | [] => Ok s
  | p :: inner =>
      let t := Payload_Type p in
      s ← (if t =? PayloadTypeSA then
             if bool_decide (is_Some (cr_sa s)) then Err "control: duplicate SA payload in child rekey response"
             else parsed ← ParseSA (Body p); Ok (s <| cr_sa := Some parsed |>)
           else if t =? PayloadTypeNonce then
             if bool_decide (is_Some (cr_nonce s)) then Err "control: duplicate NONCE payload in child rekey response"
             else parsed ← ParseNonce (Body p); Ok (s <| cr_nonce := Some parsed |>)
           else if t =? PayloadTypeKE then
             if bool_decide (is_Some (cr_ke s)) then Err "control: duplicate KE payload in child rekey response"
             else
             parsed ← ParseKE (Body p);
             if negb (DHGroup parsed =? TransformDHCurve25519) then Err "control: unsupported child rekey DH group %d"
             else Ok (s <| cr_ke := Some (KE_Data parsed) |>)
           else if t =? PayloadTypeTSi then Ok (s <| cr_tsi := Body p |>)
           else if t =? PayloadTypeTSr then Ok (s <| cr_tsr := Body p |>)
           else if (t =? PayloadTypeAuth) || (t =? PayloadTypeEAP) then
             Err "control: AUTH/EAP is forbidden in a rekey response"
           else Ok s);
      scan_child_response inner s
  end.

Definition parseChildRekeyResponse (cfg : Config) (st : State) (inner : list Wire.Payload) : res childRekeyResponse :=
  s ← scan_child_response inner (mkChildRespScan None None None [] []);
  match cr_sa s, cr_nonce s with
  | None, _ => Err "control: child rekey response missing SA payload"
  | Some _, None => Err "control: child rekey response missing NONCE payload"
  | Some sa, Some nr =>
      if (len (cr_tsi s) =? 0) || (len (cr_tsr s) =? 0) then
        Err "control: child rekey response missing TSi/TSr payload"
      else if negb (ChildPFS (Cfg_Rekey cfg)) && bool_decide (is_Some (cr_ke s)) then
        Err "control: unexpected KE payload in non-PFS child rekey response"
      else if ChildPFS (Cfg_Rekey cfg) && negb (bool_decide (is_Some (cr_ke s))) then
        Err "control: PFS child rekey response missing KE payload"
      else
      '(peerSPI, selection) ← decodeChildSelection cfg (SelectedIKE st) sa;
      Ok (mkChildRekeyResponse peerSPI nr (default [] (cr_ke s)) (cr_tsi s) (cr_tsr s) sa selection)
  end.

(** The variables of the IKE parsing loop. *)
Record ike_resp_scan := mkIkeRespScan {
  ir_sa : option SA; ir_nonce : option (list Z); ir_ke : option (list Z) }.
#[global] Instance eta_ike_resp_scan : Eta ike_resp_scan := λ s, mkIkeRespScan (ir_sa s) (ir_nonce s) (ir_ke s).

Fixpoint scan_ike_response (inner : list Wire.Payload) (s : ike_resp_scan) : res ike_resp_scan :=
  match inner with
  | [] => Ok s
  | p :: inner =>
      let t := Payload_Type p in
      s ← (if t =? PayloadTypeSA then
             if bool_decide (is_Some (ir_sa s)) then Err "control: duplicate SA payload in IKE rekey response"
             else parsed ← ParseSA (Body p); Ok (s <| ir_sa := Some parsed |>)
           else if t =? PayloadTypeNonce then
             if bool_decide (is_Some (ir_nonce s)) then Err "control: duplicate NONCE payload in IKE rekey response"
             else parsed ← ParseNonce (Body p); Ok (s <| ir_nonce := Some parsed |>)
           else if t =? PayloadTypeKE then
             if bool_decide (is_Some (ir_ke s)) then Err "control: duplicate KE payload in IKE rekey response"
             else
             parsed ← ParseKE (Body p);
             if negb (DHGroup parsed =? TransformDHCurve25519) then Err "control: unsupported IKE rekey DH group %d"
             else Ok (s <| ir_ke := Some (KE_Data parsed) |>)
           else if bool_decide (t ∈ [PayloadTypeTSi; PayloadTypeTSr; PayloadTypeAuth; PayloadTypeEAP]) then
             Err "control: unexpected payload type %d in IKE rekey response"
           else Ok s);
      scan_ike_response inner s
  end.

(** Selection, responder SPI, [Nr] and [KEr]. *)
Definition parseIKERekeyResponse (cfg : Config) (inner : list Wire.Payload) :
    res (Selection * Z * list Z * list Z) :=
  s ← scan_ike_response inner (mkIkeRespScan None None None);
  match ir_sa s, ir_nonce s, ir_ke s with
  | None, _, _ => Err "control: IKE rekey response missing SA payload"
  | _, None, _ => Err "control: IKE rekey response missing NONCE payload"
  | _, _, None => Err "control: IKE rekey response missing KE payload"
  | Some sa, Some nonce, Some ker =>
      if negb (len sa =? 1) then Err "control: IKE rekey response must contain exactly one selected proposal"
      else
      '(spi, sel) ← decodeIKESelectionWithSPI cfg sa;
      Ok (sel, spi, nonce, ker)
  end.

(* ------------------------------------------------------------------ *)
(** ** Key derivation *)

Context {C : Crypto}.

(** The private key of the context is dropped by the attempt. *)
Definition deriveChildRekeyKeys (cfg : Config) (st : State) (rc : RekeyContext) (peerNr peerKE : list Z)
    (selection : Selection) : RekeyContext * res ChildKeys :=
  match St_IKEKeys st with
  | None => (rc, Err "control: IKE key material is missing")
  | Some keys =>
      let derive shared :=
        ike ← deref (SelectedIKE st);
        enc ← deref (Sel_Encryption selection);
        DeriveChildKeys (Sel_PRF ike) (SKd keys) (RC_Ni rc) peerNr shared enc (Sel_Integrity selection) in
      if ChildPFS (Cfg_Rekey cfg) then
        match RC_LocalDH rc with
        | None => (rc, Err "control: missing DH material for PFS child rekey")
        | Some dh =>
            if len peerKE =? 0 then (rc, Err "control: missing DH material for PFS child rekey")
            else
            (rc <| RC_LocalDH := None |>,
             shared ← wrap "control: derive child rekey DH secret: " (ECDH dh peerKE).2; derive shared)
        end
      else (rc, derive [])
  end.

Definition deriveIKERekeyKeys (st : State) (rc : RekeyContext) (peerNr peerKE : list Z)
    (newSPIi newSPIr : Z) (newSelection : Selection) : RekeyContext * res (IKEKeys * list Z) :=
  match RC_LocalDH rc with
  | None => (rc, Err "control: missing IKE rekey DH keypair")
  | Some dh =>
      (rc <| RC_LocalDH := None |>,
       shared ← wrap "control: derive IKE rekey DH secret: " (ECDH dh peerKE).2;
       ike ← deref (SelectedIKE st);
       keys ← deref (St_IKEKeys st);
       skeyseed ← wrap "control: derive IKE rekey SKEYSEED: "
                    (RekeySKEYSEED (Sel_PRF ike) (SKd keys) shared (RC_Ni rc) peerNr);
       prf ← deref (Sel_PRF newSelection);
       enc ← deref (Sel_Encryption newSelection);
       newKeys ← wrap "control: derive IKE rekey keys: "
                   (DeriveIKEKeys prf skeyseed (RC_Ni rc) peerNr newSPIi newSPIr enc (Sel_Integrity newSelection));
       Ok (newKeys, skeyseed))
  end.
End Requests.

(* ------------------------------------------------------------------ *)
(** ** Lemmas: chains built by hand *)

Definition chain_of (parts : list (Z * list Z)) : list outgoing := (λ p, (p.1, false, p.2)) <$> parts.

(** [cesBuildChain] is the chain encoding of the message codec. *)
Lemma cesBuildChain_chain parts : Forall (λ p, is_byte p.1 ∧ 4 + len p.2 < 2 ^ 16) parts →
  cesBuildChain parts = chain_bytes (chain_of parts) PayloadTypeNone.
Proof.
  induction 1 as [|[t body] parts [Ht Hl] Hp IH]; [done|]. cbn [cesBuildChain chain_of fmap list_fmap chain_bytes].
  unfold chain_of in IH. rewrite IH. unfold payload_bytes, PayloadHeaderLen. cbn [fst snd] in *.
  rewrite <- !app_assoc. cbn [app]. pose proof (len_nonneg body).
  assert (Hn : u8 match parts with [] => PayloadTypeNone | (t, _) :: _ => t end =
               first_type ((λ p, (p.1, false, p.2)) <$> parts) PayloadTypeNone).
  { destruct Hp as [|[t' b'] ? [? _] _]; [done|]. cbn. apply u8_small. done. }
  rewrite Hn. reflexivity.
Qed.

Lemma cesBuildChain_deliver t body parts : Forall (λ p, outgoing_wf (p.1, false, p.2)) ((t, body) :: parts) →
  deliver (cesBuildChain ((t, body) :: parts)) t = Ok (Some (chain_payloads (chain_of ((t, body) :: parts)) PayloadTypeNone)).
Proof.
  intros H. unfold deliver. rewrite cesBuildChain_chain.
  - pose proof (ParsePayloads_chain (chain_of ((t, body) :: parts)) false) as E. cbn [chain_of fmap list_fmap first_type fst snd] in E.
    cbn [chain_of fmap list_fmap fst snd]. rewrite E; [done|]. exact (proj2 (Forall_fmap (λ p, (p.1, false, p.2)) outgoing_wf ((t, body) :: parts)) H).
  - eapply Forall_impl; [exact H|]. intros [t' b'] (? & _ & _ & _ & ?). done.
Qed.

Lemma len_cesBuildChain parts : len (cesBuildChain parts) = foldr (λ p n, 4 + len p.2 + n) 0 parts.
Proof.
  induction parts as [|[t body] parts IH]; [done|]. cbn [cesBuildChain foldr]. rewrite !len_app, IH. cbn [snd]. unfold len at 1. simpl. lia.
Qed.
