(* ===== verification/Running.v ===== *)
(** * The running actor (src/control/running.go, src/control/running_rekey.go)

    What serves the SA after the handshake: keepalives and their
    retransmission, the answers to peer requests with the cache that replays
    them, both rekeys in both roles, the lease of the assigned address, and the
    [select] loop around them.

    The actor is one goroutine, so its handlers are state-passing functions
    over [Actor] (the monad [go Actor]). One iteration of the loop is run
    against an [Env]: the clock, how many frames the transmit queue takes before
    the context ends ([None]: all of them), whether the data-plane channel has
    room, and how an installation is acknowledged. A timer is armed with a
    delay or stopped. Frames sent, data-plane updates and draws from the random
    source are logged in the actor. *)

From stdpp Require Import sorting.
From S2P Require Import Prelude Suite Crypto Cipher Payload Keying Wire Protected Eap Identity State Negotiate Exchange Auth Handshake Rekey.

Definition MaxInboundResponseHistory : nat := 4.

(** [DataplaneUpdate], by kind. *)
Inductive DataplaneUpdate :=
  | UpdateChildInstalled (child : ChildSA) (keys : ChildKeys) (selection : Selection)
  | UpdateChildDeleted (child : ChildSA)
  | UpdateAssigned (assigned : AssignedConfig).

(** [Running]; a zero [leaseDeadline] is [None]. *)
Record Actor := mkActor {
  ra_st : State;
  ikeSoft : option Z;
  childSoft : option Z;
  leaseTimer : option Z;
  retryTimer : option Z;
  leaseDeadline : option Z;
  leasePending : bool;
  retryKind : RekeyKind;
  retryTrigger : RekeyTrigger;
  ra_sent : list (list Z);
  ra_updates : list DataplaneUpdate;
  ra_draws : Z }.
#[global] Instance eta_Actor : Eta Actor := λ a,
  mkActor (ra_st a) (ikeSoft a) (childSoft a) (leaseTimer a) (retryTimer a) (leaseDeadline a) (leasePending a)
    (retryKind a) (retryTrigger a) (ra_sent a) (ra_updates a) (ra_draws a).

(** How a pushed installation ends: acknowledged, timed out, or cut short by
    the end of the context before or after the update was queued. *)
Inductive install_outcome := Acked | AckTimeout | AckCancelled | PushCancelled.

Record Env := mkEnv {
  env_now : Z;
  env_queue : option nat;
  env_room : bool;
  env_install : install_outcome }.

Section Handlers.
Context {C : Crypto} {X : X25519}.
(** [rng]: crypto/rand, as in the handshake; [rnd n b]: math/rand's [Int63n]. *)
Context (rng : Z → Z → Z → res (list Z)) (rnd : Z → Z → Z).
Context (cfg : Config) (env : Env).

Definition draw : go Actor (Z → Z → res (list Z)) := λ a,
  (a <| ra_draws := ra_draws a + 1 |>, Ok (rng (ra_draws a))).
Definition draw_jitter : go Actor (Z → Z) := λ a, (a <| ra_draws := ra_draws a + 1 |>, Ok (rnd (ra_draws a))).
Definition set_st (f : State → State) : go Actor unit := modify (λ a, a <| ra_st := f (ra_st a) |>).
Definition get_st : go Actor State := gets ra_st.

(* ------------------------------------------------------------------ *)
(** ** Sending *)

Definition beginRequest : go Actor Z :=
  st ← get_st;
  let id := NextRequestMessageID st in
  _ ← set_st (λ st, st <| NextRequestMessageID := u32 (id + 1) |> <| ExpectedResponseMessageID := id |>
                       <| HasExpectedResponse := true |>);
  mret id.

Definition sendFrames (frames : list (list Z)) : go Actor unit := λ a,
  match env_queue env with
  | None => (a <| ra_sent := ra_sent a ++ frames |>, Ok tt)
  | Some n =>
      (a <| ra_sent := ra_sent a ++ take n frames |>,
       if (length frames <=? n)%nat then Ok tt else Err "context canceled")
  end.

(** Seals a message on the current SA; [limit] carries the configuration. *)
Definition seal (limit : option Config) (exchange msgID next : Z) (plain : list Z) (flags : ikeEnvelope → Z) :
    go Actor (list (list Z)) :=
  random ← draw;
  st ← get_st;
  lift (buildProtectedStateAs limit st exchange msgID next plain (flags (stateIKEEnvelope st)) random).

Definition checkpoint (msgID : Z) (frames : list (list Z)) : go Actor unit :=
  set_st (λ st, st <| OutboundRequest := Some (mkCheckpoint msgID frames) |>).

Definition rememberResponse (msgID : Z) (frames : list (list Z)) : go Actor unit :=
  set_st (λ st,
    let h := InboundHistory st ++ [mkCachedResponse msgID frames] in
    st <| InboundHistory := drop (length h - MaxInboundResponseHistory) h |>).

Definition replayCachedFrames (st : State) (msgID : Z) : option (list (list Z)) :=
  ResponsePackets <$> List.find (λ e, Cached_MessageID e =? msgID) (reverse (InboundHistory st)).

(** Sends an answer to a peer request and caches it. *)
Definition answer (msgID : Z) (frames : list (list Z)) : go Actor unit :=
  _ ← sendFrames frames;
  rememberResponse msgID frames.

(* ------------------------------------------------------------------ *)
(** ** Timers and the data plane *)

Definition reset_soft (lifetime : Lifetime) : go Actor Z :=
  rnd ← draw_jitter;
  mret (rekeyDeadline (env_now env) (env_now env) (Life_Time lifetime) (RandTime (Cfg_Rekey cfg)) rnd).

Definition resetChildSoft : go Actor unit :=
  d ← reset_soft (Rekey_Child (Cfg_Rekey cfg)); modify (λ a, a <| childSoft := Some d |>).
Definition resetIkeSoft : go Actor unit :=
  d ← reset_soft (Rekey_IKE (Cfg_Rekey cfg)); modify (λ a, a <| ikeSoft := Some d |>).

Definition armLeaseTimer : go Actor unit :=
  st ← get_st;
  match Assigned st with
  | None => mret tt
  | Some assigned =>
      if AddressExpirySeconds assigned =? 0 then mret tt
      else modify (λ a, a <| leaseDeadline := Some (env_now env + AddressExpirySeconds assigned * Second) |>
                          <| leaseTimer := Some (leaseRenewDelay (AddressExpirySeconds assigned)) |>)
  end.

Definition push_update (u : DataplaneUpdate) : go Actor unit := modify (λ a, a <| ra_updates := ra_updates a ++ [u] |>).

(** A push that is skipped when the channel is full. *)
Definition try_update (u : DataplaneUpdate) : go Actor unit :=
  if DataUpdates cfg && env_room env then push_update u else mret tt.

Definition installChild (child : ChildSA) (keys : ChildKeys) (selection : Selection) : go Actor unit :=
  if negb (DataUpdates cfg) then throw "control: data-plane update channel is not wired"
  else
  match env_install env with
  | PushCancelled => throw "context canceled"
  | o =>
      _ ← push_update (UpdateChildInstalled child keys selection);
      match o with
      | Acked => mret tt
      | AckTimeout => throw "control: data-plane child install ack timed out"
      | _ => throw "context canceled"
      end
  end.

Definition dataplaneChildDeleted (child : ChildSA) : go Actor unit := try_update (UpdateChildDeleted child).

(** config_apply.go *)
Definition applyConfigUpdate (incoming : AssignedConfig) (present : cesAssignedMask) (mode : configApplyMode) :
    go Actor unit :=
  st ← get_st;
  let next := next_assigned (Assigned st) incoming present mode in
  _ ← set_st (λ st, st <| Assigned := Some next |>);
  _ ← (if 0 <? AddressExpirySeconds next then armLeaseTimer else mret tt);
  if assigned_changed (Assigned st) next then try_update (UpdateAssigned next) else mret tt.

(* ------------------------------------------------------------------ *)
(** ** Keepalive and lease *)

Definition sendKeepalive : go Actor unit :=
  st ← get_st;
  if HasExpectedResponse st then mret tt
  else
  msgID ← beginRequest;
  frames ← seal (Some cfg) ExchangeInformational msgID PayloadTypeNone [] requestFlags;
  _ ← checkpoint msgID frames;
  sendFrames frames.

Definition safeToRekey (st : State) : bool :=
  bool_decide (St_Phase st = PhaseRunning) && negb (HasExpectedResponse st) &&
  negb (bool_decide (is_Some (Rekey st))) && (len (OldIKE st) =? 0).

Definition safeToRenewLease (st : State) : bool :=
  safeToRekey st && match Assigned st with Some a => 0 <? AddressExpirySeconds a | None => false end.

Definition sendLeaseRenewal : go Actor unit :=
  st ← get_st;
  match Assigned st with
  | None => mret tt
  | Some assigned =>
      msgID ← beginRequest;
      body ← lift (AppendConfigRenewRequest [] (mkConfigRenewRequest (InternalIPv4 assigned) (InternalIPv6 assigned)
                     (InternalIPv6Prefix assigned)));
      frames ← seal (Some cfg) ExchangeInformational msgID PayloadTypeCP (cepSinglePayload body) requestFlags;
      _ ← modify (λ a, a <| leasePending := true |>);
      _ ← checkpoint msgID frames;
      sendFrames frames
  end.

Definition leaseRetryOrExpire : go Actor unit :=
  _ ← modify (λ a, a <| leasePending := false |>);
  _ ← set_st (λ st, st <| OutboundRequest := None |> <| InboundFragments := None |> <| HasExpectedResponse := false |>);
  st ← get_st;
  match Assigned st with
  | None => mret tt
  | Some assigned =>
      if AddressExpirySeconds assigned =? 0 then mret tt
      else
      deadline ← gets leaseDeadline;
      match deadline with
      | Some deadline =>
          if deadline <=? env_now env then throw "control: CP address lease expired at %s"
          else modify (λ a, a <| leaseTimer := Some (leaseRetryDelay (env_now env) (deadline - env_now env)) |>)
      | None => throw "control: CP address lease expired"
      end
  end.

Definition first_cp (inner : list Wire.Payload) : list Z :=
  match List.find (λ p, Payload_Type p =? PayloadTypeCP) inner with Some p => Body p | None => [] end.

Definition finishLeaseResponse (inner : list Wire.Payload) : go Actor unit :=
  _ ← modify (λ a, a <| leasePending := false |>);
  let cpBody := first_cp inner in
  if len cpBody =? 0 then leaseRetryOrExpire
  else
  match cesDecodeAssigned cpBody with
  | Ok assigned => applyConfigUpdate assigned (mkCesAssignedMask false false false false false) configApplyReplace
  | Err e => λ a, ((leaseRetryOrExpire a).1, Err e)
  | r => lift (_ ← r; Ok tt)
  end.

(* ------------------------------------------------------------------ *)
(** ** Our rekeys *)

(** [if err := m; err != nil { h; return err }] *)
Definition on_err {A} (m : go Actor A) (h : go Actor unit) : go Actor A := λ a,
  match m a with
  | (a, Err e) => ((h a).1, Err e)
  | r => r
  end.

(** The wiped context is not reachable any more. *)
Definition abandonRekey (retry : bool) : go Actor unit :=
  _ ← set_st (λ st, st <| Rekey := None |> <| OutboundRequest := None |> <| InboundFragments := None |>
                       <| OldChild := None |> <| OldIKE := [] |> <| HasExpectedResponse := false |>
                       <| St_Phase := PhaseRunning |>);
  if retry then
    rnd ← draw_jitter;
    modify (λ a, a <| retryTimer := Some (retryBackoff (RetryInterval (Cfg_Rekey cfg)) rnd) |>)
  else mret tt.

Definition startChildRekey (trigger : RekeyTrigger) : go Actor unit :=
  st ← get_st;
  if negb (safeToRekey st) then mret tt
  else
  match ActiveChild st with
  | None => mret tt
  | Some child =>
      r_spi ← draw;
      inboundSPI ← lift (generateChildSPI (r_spi 0 4));
      let rc := mkRekeyContext RekeyChild trigger 0 [] None None (Some child) (Some inboundSPI) 0 [] 0 in
      r_nonce ← draw; r_key ← draw;
      '(rc, plain) ← lift (buildChildRekeyRequestPayloads cfg st rc (r_nonce 0) (r_key 0 32));
      msgID ← beginRequest;
      frames ← seal (Some cfg) ExchangeCreateChild msgID PayloadTypeNotify plain requestFlags;
      _ ← set_st (λ st, st <| Rekey := Some (rc <| RC_MessageID := msgID |>) |>
                           <| St_Phase := PhaseRekeyChildRequesting |>
                           <| OutboundRequest := Some (mkCheckpoint msgID frames) |>);
      sendFrames frames
  end.

Definition startIKERekey (trigger : RekeyTrigger) : go Actor unit :=
  st ← get_st;
  if negb (safeToRekey st) then mret tt
  else
  let rc := mkRekeyContext RekeyIke trigger 0 [] None None None None 0 [] 0 in
  r_nonce ← draw; r_spi ← draw; r_key ← draw;
  '(rc, plain) ← lift (buildIKERekeyRequestPayloads cfg rc (r_nonce 0) (r_spi 0 8) (r_key 0 32));
  msgID ← beginRequest;
  frames ← seal (Some cfg) ExchangeCreateChild msgID PayloadTypeSA plain requestFlags;
  _ ← set_st (λ st, st <| Rekey := Some (rc <| RC_MessageID := msgID |>) |>
                       <| St_Phase := PhaseRekeyIkeRequesting |>
                       <| OutboundRequest := Some (mkCheckpoint msgID frames) |>);
  sendFrames frames.

Definition sendDeleteOldChild : go Actor unit :=
  st ← get_st;
  match OldChild st with
  | None => set_st (λ st, st <| St_Phase := PhaseRunning |>)
  | Some old =>
      msgID ← beginRequest;
      body ← lift (AppendDelete [] (mkDelete DeleteProtocolESP [InboundSPI old]));
      frames ← seal (Some cfg) ExchangeInformational msgID PayloadTypeDelete (cepSinglePayload body) requestFlags;
      _ ← set_st (λ st, st <| St_Phase := PhaseRekeyChildDeletingOld |>
                           <| OutboundRequest := Some (mkCheckpoint msgID frames) |>);
      sendFrames frames
  end.

Definition finishDeleteOldChild : go Actor unit :=
  st ← get_st;
  _ ← (match OldChild st with Some old => dataplaneChildDeleted old | None => mret tt end);
  set_st (λ st, st <| OldChild := None |> <| St_Phase := PhaseRunning |> <| HasExpectedResponse := false |>
                   <| OutboundRequest := None |>).

Definition abandon {A} (m : go Actor A) : go Actor A := on_err m (abandonRekey true).

Definition finishChildRekeyResponse (inner : list Wire.Payload) : go Actor unit :=
  st ← get_st;
  match Rekey st with
  | Some rc =>
      match RC_Kind rc, RC_OldChild rc with
      | RekeyChild, Some oldChild =>
          resp ← abandon (lift (parseChildRekeyResponse cfg st inner));
          if negb (bool_decide (Resp_TSi resp = TSi oldChild)) || negb (bool_decide (Resp_TSr resp = TSr oldChild)) then
            abandon (throw "control: child rekey response changed traffic selectors")
          else
          let '(rc, r) := deriveChildRekeyKeys cfg st rc (Resp_Nr resp) (Resp_KEr resp) (Resp_Selection resp) in
          _ ← set_st (λ st, st <| Rekey := Some rc |>);
          keys ← abandon (lift r);
          inbound ← lift (deref (RC_NewChild rc));
          let child := mkChildSA inbound (Resp_PeerSPI resp) (Resp_TSi resp) (Resp_TSr resp) true in
          if negb (bool_decide (ActiveChild st = Some oldChild)) then
            abandon (throw "control: active child changed during child rekey")
          else
          _ ← abandon (installChild child keys (Resp_Selection resp));
          _ ← set_st (λ st, st <| SelectedESP := Some (Resp_Selection resp) |> <| ActiveChild := Some child |>
                               <| OldChild := Some oldChild |> <| Rekey := None |> <| HasExpectedResponse := false |>
                               <| OutboundRequest := None |> <| InboundFragments := None |>);
          _ ← resetChildSoft;
          sendDeleteOldChild
      | _, _ => throw "control: child rekey response without rekey context"
      end
  | None => throw "control: child rekey response without rekey context"
  end.

(** The old SA retained after an IKE rekey. *)
Definition retain_old (st : State) : OldIKEContext :=
  mkOldIKEContext (St_InitiatorSPI st) (St_ResponderSPI st) (IsOriginalInitiator st) (SelectedIKE st) (St_IKEKeys st)
    (NextRequestMessageID st) (ExpectedResponseMessageID st) false None (InboundHistory st) None.

(** The assignments that make the new IKE SA current. *)
Definition install_ike (spiI spiR : Z) (original : bool) (ni nr : list Z) (keys : IKEKeys) (sel : Selection)
    (old : OldIKEContext) (st : State) : State :=
  st <| St_InitiatorSPI := spiI |> <| St_ResponderSPI := spiR |> <| IsOriginalInitiator := original |>
     <| InitiatorNonce := ni |> <| ResponderNonce := nr |> <| St_IKEKeys := Some keys |>
     <| SelectedIKE := Some sel |> <| NextRequestMessageID := 0 |> <| ExpectedResponseMessageID := 0 |>
     <| HasExpectedResponse := false |> <| LastCompletedResponseMessageID := 0 |>
     <| HasLastCompletedResponse := false |> <| OutboundRequest := None |> <| InboundHistory := [] |>
     <| InboundFragments := None |> <| SAInitRequest := [] |> <| SAInitResponse := [] |>
     <| OldIKE := OldIKE st ++ [old] |> <| Rekey := None |> <| St_Phase := PhaseRekeyIkeDeletingOld |>.

(** An assignment through [&st.OldIKE[0]]. *)
Definition set_old (f : OldIKEContext → OldIKEContext) : go Actor unit :=
  set_st (λ st, st <| OldIKE := match OldIKE st with old :: rest => f old :: rest | [] => [] end |>).

Definition sendOldIKEDelete : go Actor unit :=
  st ← get_st;
  match OldIKE st with
  | [] => set_st (λ st, st <| St_Phase := PhaseRunning |>)
  | old :: _ =>
      let env' := oldIKEEnvelope old in
      let msgID := Old_NextRequestMessageID old in
      _ ← set_old (λ old, old <| Old_NextRequestMessageID := u32 (msgID + 1) |>);
      body ← lift (AppendDelete [] (mkDelete DeleteProtocolIKE []));
      random ← draw;
      frames ← lift (buildProtectedEnvelopeAs (cfg_limit (Some cfg)) env' ExchangeInformational msgID PayloadTypeDelete
                       (cepSinglePayload body) (requestFlags env') random);
      _ ← set_old (λ old, old <| Old_OutboundRequest := Some (mkCheckpoint msgID frames) |>
                              <| Old_ExpectedResponseMessageID := msgID |> <| Old_HasExpectedResponse := true |>);
      sendFrames frames
  end.

Definition finishIKERekeyResponse (inner : list Wire.Payload) : go Actor unit :=
  st ← get_st;
  match Rekey st with
  | Some rc =>
      match RC_Kind rc with
      | RekeyIke =>
          '(selection, responderSPI, nr, ker) ← abandon (lift (parseIKERekeyResponse cfg inner));
          let rc := rc <| RC_NewResponderSPI := responderSPI |> <| RC_NewNonceN := nr |> in
          let newSPIi := RC_NewInitiatorSPI rc in
          let '(rc, r) := deriveIKERekeyKeys st rc nr ker newSPIi responderSPI selection in
          _ ← set_st (λ st, st <| Rekey := Some rc |>);
          '(newKeys, _) ← abandon (lift r);
          _ ← set_st (install_ike newSPIi responderSPI true (RC_Ni rc) nr newKeys selection (retain_old st));
          _ ← resetIkeSoft;
          sendOldIKEDelete
      | RekeyChild => throw "control: IKE rekey response without rekey context"
      end
  | None => throw "control: IKE rekey response without rekey context"
  end.

Definition finishOldIKEDelete : go Actor unit :=
  set_st (λ st, st <| OldIKE := [] |> <| St_Phase := PhaseRunning |>).

(* ------------------------------------------------------------------ *)
(** ** The peer's rekeys *)

(** A CREATE_CHILD_SA answer made of one NOTIFY. *)
Definition answer_notify (msgID : Z) (n : Notify) : go Actor unit :=
  body ← lift (AppendNotify [] n);
  frames ← seal (Some cfg) ExchangeCreateChild msgID PayloadTypeNotify (cepSinglePayload body) responseFlags;
  answer msgID frames.

Definition sendCreateChildTemporaryFailure (msgID : Z) : go Actor unit :=
  answer_notify msgID (mkNotify NotifyProtocolNone [] NotifyTemporaryFailure []).

Definition firstInnerNonce (inner : list Wire.Payload) : option (list Z) :=
  match List.find (λ p, Payload_Type p =? PayloadTypeNonce) inner with
  | Some p => match ParseNonce (Body p) with Ok n => Some n | _ => None end
  | None => None
  end.

(** The first N(REKEY_SA) of a request. *)
Fixpoint find_rekey_sa (inner : list Wire.Payload) : res (option Notify) :=
  match inner with
  | [] => Ok None
  | p :: inner =>
      if negb (Payload_Type p =? PayloadTypeNotify) then find_rekey_sa inner
      else
      n ← ParseNotify (Body p);
      if Notify_Type n =? NotifyRekeySA then Ok (Some n) else find_rekey_sa inner
  end.

(** What a rekey request carries; the last payload of a type counts. *)
Record rekey_request := mkRekeyRequest {
  rr_sa : option SA; rr_ni : list Z; rr_ke : list Z; rr_tsi : list Z; rr_tsr : list Z }.
#[local] Instance eta_rekey_request : Eta rekey_request := λ r,
  mkRekeyRequest (rr_sa r) (rr_ni r) (rr_ke r) (rr_tsi r) (rr_tsr r).

(** One payload; a rekey of the IKE SA ([ike]) carries no selectors. *)
Definition scan_rekey_payload (ike : bool) (p : Wire.Payload) (r : rekey_request) : res rekey_request :=
  let t := Payload_Type p in
  if t =? PayloadTypeSA then sa ← ParseSA (Body p); Ok (r <| rr_sa := Some sa |>)
  else if t =? PayloadTypeNonce then n ← ParseNonce (Body p); Ok (r <| rr_ni := n |>)
  else if t =? PayloadTypeKE then
    k ← ParseKE (Body p);
    if negb (DHGroup k =? TransformDHCurve25519) then
      Err (if ike then "control: unsupported peer IKE rekey DH group %d"
           else "control: unsupported peer child rekey DH group %d")
    else Ok (r <| rr_ke := KE_Data k |>)
  else if ike && ((t =? PayloadTypeTSi) || (t =? PayloadTypeTSr)) then
    Err "control: unexpected TS payload in peer IKE rekey"
  else if t =? PayloadTypeTSi then Ok (r <| rr_tsi := Body p |>)
  else if t =? PayloadTypeTSr then Ok (r <| rr_tsr := Body p |>)
  else Ok r.

Fixpoint scan_rekey_request (ike : bool) (inner : list Wire.Payload) (r : rekey_request) : res rekey_request :=
  match inner with
  | [] => Ok r
  | p :: inner => r ← scan_rekey_payload ike p r; scan_rekey_request ike inner r
  end.

Definition empty_rekey_request : rekey_request := mkRekeyRequest None [] [] [] [].

(** From the selection on: the answer, the keys, the installation. *)
Definition accept_child_rekey (msgID targetSPI : Z) (old : ChildSA) (sa : SA) (rr : rekey_request) : go Actor unit :=
  r_spi ← draw;
  responseSPI ← lift (generateChildSPI (r_spi 0 4));
  match selectPeerESPProposal cfg sa responseSPI (0 <? len (rr_ke rr)) with
  | Err _ => answer_notify msgID (mkNotify DeleteProtocolESP (appendU32 [] targetSPI) NotifyNoProposalChosen [])
  | Panic => lift Panic
  | Hang => lift Hang
  | Ok (selected, selection) =>
      r_nonce ← draw; r_key ← draw;
      ourNr ← lift (GenerateNonce (r_nonce 0) 32);
      '(ke, shared) ← lift (if 0 <? len (rr_ke rr) then
                              '(dh, ke) ← generateRekeyDH (r_key 0 32);
                              shared ← (ECDH dh (rr_ke rr)).2;
                              Ok ([(PayloadTypeKE, AppendKE [] ke)], shared)
                            else Ok ([], []));
      saBody ← lift (AppendSA [] selected);
      let plain := cesBuildChain ([(PayloadTypeSA, saBody); (PayloadTypeNonce, AppendNonce [] ourNr)] ++ ke ++
                                  [(PayloadTypeTSi, rr_tsi rr); (PayloadTypeTSr, rr_tsr rr)]) in
      frames ← seal (Some cfg) ExchangeCreateChild msgID PayloadTypeSA plain responseFlags;
      st ← get_st;
      ikeKeys ← lift (deref (St_IKEKeys st));
      enc ← lift (deref (Sel_Encryption selection));
      keys ← lift (DeriveChildKeys (Sel_PRF selection) (SKd ikeKeys) (rr_ni rr) ourNr shared enc (Sel_Integrity selection));
      outboundSPI ← lift (selectedPeerOutboundSPI sa);
      let child := mkChildSA responseSPI outboundSPI (rr_tsr rr) (rr_tsi rr) false in
      _ ← installChild child keys selection;
      _ ← set_st (λ st, st <| SelectedESP := Some selection |> <| OldChild := Some old |> <| ActiveChild := Some child |>);
      _ ← resetChildSoft;
      answer msgID frames
  end.

Definition processPeerChildRekey (msgID : Z) (inner : list Wire.Payload) : go Actor unit :=
  st ← get_st;
  rekeyNotify ← lift (find_rekey_sa inner);
  match rekeyNotify with
  | None => throw "control: peer child rekey missing REKEY_SA notify"
  | Some n =>
      if negb (Notify_ProtocolID n =? DeleteProtocolESP) || negb (len (Notify_SPI n) =? 4) then
        throw "control: malformed REKEY_SA notify in peer child rekey"
      else
      targetSPI ← lift (beUint32 (Notify_SPI n));
      let notFound := answer_notify msgID (mkNotify DeleteProtocolESP (appendU32 [] targetSPI) NotifyChildSANotFound []) in
      match ActiveChild st with
      | None => notFound
      | Some old =>
          if negb (targetSPI =? OutboundSPI old) && negb (targetSPI =? InboundSPI old) then notFound
          else
          rr ← lift (scan_rekey_request false inner empty_rekey_request);
          match rr_sa rr with
          | None => throw "control: peer child rekey missing SA/TS/NONCE payload"
          | Some sa =>
              if (len (rr_tsi rr) =? 0) || (len (rr_tsr rr) =? 0) || (len (rr_ni rr) =? 0) then
                throw "control: peer child rekey missing SA/TS/NONCE payload"
              else if negb (bool_decide (rr_tsi rr = TSr old)) || negb (bool_decide (rr_tsr rr = TSi old)) then
                throw "control: peer child rekey selectors do not match the existing child"
              else
              match Rekey st with
              | Some {| RC_Kind := RekeyChild; RC_Ni := ni |} =>
                  match decideNonceCollision ni (rr_ni rr) with
                  | CollisionWeLose => _ ← abandonRekey false; accept_child_rekey msgID targetSPI old sa rr
                  | _ => sendCreateChildTemporaryFailure msgID
                  end
              | _ => accept_child_rekey msgID targetSPI old sa rr
              end
          end
      end
  end.

(** From the payload scan on: the answer, the keys, the new IKE SA. *)
Definition accept_ike_rekey (msgID : Z) (inner : list Wire.Payload) : go Actor unit :=
  rr ← lift (scan_rekey_request true inner empty_rekey_request);
  match rr_sa rr with
  | None => throw "control: peer IKE rekey missing SA/NONCE/KE payload"
  | Some sa =>
      if (len (rr_ni rr) =? 0) || (len (rr_ke rr) =? 0) then throw "control: peer IKE rekey missing SA/NONCE/KE payload"
      else
      r_spi ← draw;
      newResponderSPI ← lift (GenerateSPI (r_spi 0 8));
      match selectPeerIKEProposal cfg sa newResponderSPI with
      | Err _ => answer_notify msgID (mkNotify NotifyProtocolNone [] NotifyNoProposalChosen [])
      | Panic => lift Panic
      | Hang => lift Hang
      | Ok (selected, selection, peerInitiatorSPI) =>
          r_nonce ← draw; r_key ← draw;
          ourNr ← lift (GenerateNonce (r_nonce 0) 32);
          '(dh, ke) ← lift (generateRekeyDH (r_key 0 32));
          shared ← lift (ECDH dh (rr_ke rr)).2;
          saBody ← lift (AppendSA [] selected);
          let plain := cesBuildChain [(PayloadTypeSA, saBody); (PayloadTypeNonce, AppendNonce [] ourNr);
                                      (PayloadTypeKE, AppendKE [] ke)] in
          frames ← seal (Some cfg) ExchangeCreateChild msgID PayloadTypeSA plain responseFlags;
          st ← get_st;
          ike ← lift (deref (SelectedIKE st));
          oldKeys ← lift (deref (St_IKEKeys st));
          skeyseed ← lift (RekeySKEYSEED (Sel_PRF ike) (SKd oldKeys) shared (rr_ni rr) ourNr);
          prf ← lift (deref (Sel_PRF selection));
          enc ← lift (deref (Sel_Encryption selection));
          newKeys ← lift (DeriveIKEKeys prf skeyseed (rr_ni rr) ourNr peerInitiatorSPI newResponderSPI enc
                            (Sel_Integrity selection));
          let oldCtx := retain_old st in
          _ ← sendFrames frames;
          _ ← set_st (install_ike peerInitiatorSPI newResponderSPI false (rr_ni rr) ourNr newKeys selection oldCtx);
          _ ← resetIkeSoft;
          set_old (λ old, old <| Old_InboundHistory := Old_InboundHistory old ++ [mkCachedResponse msgID frames] |>)
      end
  end.

Definition processPeerIKERekey (msgID : Z) (inner : list Wire.Payload) : go Actor unit :=
  st ← get_st;
  match Rekey st with
  | Some {| RC_Kind := RekeyIke; RC_Ni := ni |} =>
      match firstInnerNonce inner with
      | None => sendCreateChildTemporaryFailure msgID
      | Some peerNi =>
          match decideNonceCollision ni peerNi with
          | CollisionWeLose => _ ← abandonRekey false; accept_ike_rekey msgID inner
          | _ => sendCreateChildTemporaryFailure msgID
          end
      end
  | Some _ => sendCreateChildTemporaryFailure msgID
  | None =>
      if 0 <? len (OldIKE st) then sendCreateChildTemporaryFailure msgID else accept_ike_rekey msgID inner
  end.

Definition has_ts (inner : list Wire.Payload) : bool :=
  existsb (λ p, (Payload_Type p =? PayloadTypeTSi) || (Payload_Type p =? PayloadTypeTSr)) inner.

Definition processCreateChild (msgID : Z) (inner : list Wire.Payload) : go Actor unit :=
  if negb (has_ts inner) then processPeerIKERekey msgID inner else processPeerChildRekey msgID inner.

(* ------------------------------------------------------------------ *)
(** ** Requests on the retained old SA *)

(** Whether a request deletes the IKE SA. *)
Fixpoint asks_ike_delete (plds : list Wire.Payload) (found : bool) : res bool :=
  match plds with
  | [] => Ok found
  | p :: plds =>
      if negb (Payload_Type p =? PayloadTypeDelete) then asks_ike_delete plds found
      else
      d ← ParseDelete (Body p);
      asks_ike_delete plds (if (Delete_ProtocolID d =? DeleteProtocolIKE) && (len (SPIs d) =? 0) then true else found)
  end.

Definition processOldIKEPacket (msg : Message) (raw : list Z) : go Actor bool :=
  let hdr := Msg_Header msg in
  st ← get_st;
  match OldIKE st with
  | [] => mret false
  | old :: _ =>
      spiI ← lift (SPI_Uint64 (Wire.InitiatorSPI hdr));
      spiR ← lift (SPI_Uint64 (Wire.ResponderSPI hdr));
      if negb (spiI =? Old_InitiatorSPI old) || negb (spiR =? Old_ResponderSPI old) then mret false
      else
      let env' := oldIKEEnvelope old in
      if negb (Z.land (Flags hdr) FlagResponse =? 0) then
        if negb (is_ok (validateResponseEnvelopeForRole hdr (Old_IsOriginalInitiator old))) then mret false
        else if negb (Old_HasExpectedResponse old) || negb (MessageID hdr =? Old_ExpectedResponseMessageID old) then
          mret false
        else
        _ ← lift (openProtectedMessageEnvelope env' raw);
        _ ← finishOldIKEDelete;
        mret false
      else
      plds ← lift (openProtectedMessageEnvelope env' raw);
      if MessageID hdr =? 0 then throw "control: old IKE SA request missing message-id"
      else
      match List.find (λ e, Cached_MessageID e =? MessageID hdr) (Old_InboundHistory old) with
      | Some e => _ ← sendFrames (ResponsePackets e); mret false
      | None =>
          if ExchangeType hdr =? ExchangeInformational then
            ikeDelete ← lift (asks_ike_delete plds false);
            random ← draw;
            frames ← lift (buildProtectedEnvelopeAs (cfg_limit (Some cfg)) env' ExchangeInformational (MessageID hdr)
                             PayloadTypeNone [] (responseFlags env') random);
            _ ← sendFrames frames;
            _ ← set_old (λ old, old <| Old_InboundHistory :=
                                         Old_InboundHistory old ++ [mkCachedResponse (MessageID hdr) frames] |>);
            _ ← (if (ikeDelete : bool) then finishOldIKEDelete else mret tt);
            mret false
          else mret false
      end
  end.

(* ------------------------------------------------------------------ *)
(** ** INFORMATIONAL requests *)

(** The DELETE of a request that carries nothing else. *)
Fixpoint only_delete (plds : list Wire.Payload) (found : option Delete) : res Delete :=
  match plds with
  | [] => match found with
          | Some d => Ok d
          | None => Err "control: running request carries no delete payload"
          end
  | p :: plds =>
      if negb (Payload_Type p =? PayloadTypeDelete) then
        Err "control: unexpected non-delete payload in running request"
      else
      d ← ParseDelete (Body p);
      match found with
      | Some _ => Err "control: multiple delete payloads in one running request"
      | None => only_delete plds (Some d)
      end
  end.

Definition delete_child (spi : Z) : go Actor unit :=
  st ← get_st;
  match OldChild st with
  | Some old =>
      if spi =? OutboundSPI old then
        _ ← dataplaneChildDeleted old;
        set_st (λ st, st <| OldChild := None |>
                         <| St_Phase := if bool_decide (St_Phase st = PhaseRekeyChildDeletingOld)
                                        then PhaseRunning else St_Phase st |>)
      else
      match ActiveChild st with
      | Some child =>
          if negb (spi =? OutboundSPI child) then mret tt
          else _ ← dataplaneChildDeleted child; set_st (λ st, st <| ActiveChild := None |>)
      | None => mret tt
      end
  | None =>
      match ActiveChild st with
      | Some child =>
          if negb (spi =? OutboundSPI child) then mret tt
          else _ ← dataplaneChildDeleted child; set_st (λ st, st <| ActiveChild := None |>)
      | None => mret tt
      end
  end.

(** Whether the peer shuts the SA down, and whether to answer CFG_ACK. *)
Definition handleInformationalForPayloads (plds : list Wire.Payload) : go Actor (bool * bool) :=
  match plds with
  | [] => mret (false, false)
  | _ =>
  match
    match plds with
    | [p] => if Payload_Type p =? PayloadTypeCP then Some (Body p) else None
    | _ => None
    end
  with
  | Some body =>
      cp ← lift (ParseConfigPayload body);
      if negb (Kind cp =? ConfigTypeSet) then throw "control: unexpected non-delete payload in running request"
      else
      '(assigned, present) ← lift (cesDecodeAssignedCP cp);
      _ ← applyConfigUpdate assigned present configApplyMerge;
      mret (false, true)
  | None =>
      d ← lift (only_delete plds None);
      if Delete_ProtocolID d =? DeleteProtocolIKE then
        if negb (len (SPIs d) =? 0) then throw "control: ike delete must not carry spis"
        else mret (true, false)
      else if Delete_ProtocolID d =? DeleteProtocolESP then
        match SPIs d with
        | [spi] => _ ← delete_child spi; mret (false, false)
        | _ => throw "control: esp delete must carry exactly one spi"
        end
      else throw "control: unsupported delete protocol %d"
  end
  end.

Definition processInformational (msgID : Z) (inner : list Wire.Payload) : go Actor bool :=
  '(shutdown, cfgAck) ← handleInformationalForPayloads inner;
  '(next, responseBody) ← lift (if (cfgAck : bool) then
                                  body ← AppendConfigPayload [] (mkConfigPayload ConfigTypeAck []);
                                  Ok (PayloadTypeCP, cepSinglePayload body)
                                else Ok (PayloadTypeNone, []));
  frames ← seal None ExchangeInformational msgID next responseBody responseFlags;
  _ ← answer msgID frames;
  _ ← (if (shutdown : bool) then set_st (λ st, ClearSession st <| St_Phase := PhaseStopped |>) else mret tt);
  mret shutdown.

(* ------------------------------------------------------------------ *)
(** ** Packets *)

(** Opens a packet on the current SA; [None] while fragments are missing. *)
Definition openRunning (raw : list Z) : go Actor (option (list Wire.Payload)) := λ a,
  let '(st, r) := openState None (ra_st a) (env_now env) raw in (a <| ra_st := st |>, r).

Definition request_done : go Actor unit :=
  set_st (λ st, st <| HasExpectedResponse := false |> <| OutboundRequest := None |> <| InboundFragments := None |>).

(** The response to the outstanding request, by what it was. *)
Definition finish_response (msgID : Z) (inner : list Wire.Payload) : go Actor unit :=
  st ← get_st;
  match Rekey st with
  | Some rc =>
      match RC_Kind rc with
      | RekeyChild =>
          _ ← finishChildRekeyResponse inner;
          st ← get_st;
          if bool_decide (St_Phase st = PhaseRekeyChildDeletingOld) then mret tt else request_done
      | RekeyIke => _ ← finishIKERekeyResponse inner; request_done
      end
  | None =>
      pending ← gets leasePending;
      if (pending : bool) then _ ← finishLeaseResponse inner; request_done
      else
      _ ← set_st (λ st, st <| HasExpectedResponse := false |> <| HasLastCompletedResponse := true |>
                           <| LastCompletedResponseMessageID := msgID |> <| OutboundRequest := None |>
                           <| InboundFragments := None |>);
      st ← get_st;
      if bool_decide (St_Phase st = PhaseRekeyChildDeletingOld) then finishDeleteOldChild else mret tt
  end.

(** Whether a response is for the outstanding request of the current SA. *)
Definition response_expected (st : State) (hdr : Header) : res bool :=
  spiI ← SPI_Uint64 (Wire.InitiatorSPI hdr);
  spiR ← SPI_Uint64 (Wire.ResponderSPI hdr);
  Ok (is_ok (validateResponseEnvelopeForRole hdr (IsOriginalInitiator st)) &&
      (spiI =? St_InitiatorSPI st) && ((St_ResponderSPI st =? 0) || (spiR =? St_ResponderSPI st)) &&
      HasExpectedResponse st && (MessageID hdr =? ExpectedResponseMessageID st)).

Definition processResponse (msg : Message) (raw : list Z) : go Actor unit :=
  st ← get_st;
  expected ← lift (response_expected st (Msg_Header msg));
  if negb expected then mret tt
  else
  inner ← openRunning raw;
  match inner with
  | None => mret tt
  | Some inner => finish_response (MessageID (Msg_Header msg)) inner
  end.

Definition last_answered (st : State) : option Z := Cached_MessageID <$> last (InboundHistory st).

(** A decrypted request on the current SA: replayed, refused as stale, or
    dispatched; the result is the shutdown flag. *)
Definition dispatch_request (hdr : Header) (inner : list Wire.Payload) : go Actor bool :=
  let msgID := MessageID hdr in
  st ← get_st;
  match replayCachedFrames st msgID with
  | Some frames => _ ← sendFrames frames; mret false
  | None =>
      if match last_answered st with Some last => msgID <=? last | None => false end then
        throw "control: stale inbound running request %d after %d"
      else if ExchangeType hdr =? ExchangeInformational then processInformational msgID inner
      else if ExchangeType hdr =? ExchangeCreateChild then _ ← processCreateChild msgID inner; mret false
      else mret false
  end.

Definition processRequest (msg : Message) (raw : list Z) : go Actor bool :=
  inner ← openRunning raw;
  match inner with
  | None => throw "control: inbound rekey/control request requires more fragments"
  | Some inner => dispatch_request (Msg_Header msg) inner
  end.

Definition on_old_sa (st : State) (hdr : Header) : res bool :=
  match OldIKE st with
  | [] => Ok false
  | old :: _ =>
      spiI ← SPI_Uint64 (Wire.InitiatorSPI hdr);
      spiR ← SPI_Uint64 (Wire.ResponderSPI hdr);
      Ok ((spiI =? Old_InitiatorSPI old) && (spiR =? Old_ResponderSPI old))
  end.

(** [ike]: the packet is of kind IKE. *)
Definition processPacket (ike : bool) (raw : list Z) : go Actor bool :=
  if negb ike then mret false
  else
  msg ← lift (ParseMessage raw);
  if negb (bool_decide (is_Some (Encrypted msg))) then throw "control: cleartext packet rejected in running state"
  else
  st ← get_st;
  old ← lift (on_old_sa st (Msg_Header msg));
  if (old : bool) then processOldIKEPacket msg raw
  else if negb (Z.land (Flags (Msg_Header msg)) FlagResponse =? 0) then _ ← processResponse msg raw; mret false
  else processRequest msg raw.
End Handlers.

(* ------------------------------------------------------------------ *)
(** ** The loop *)

(** The variables of [Run]; a retransmission timer is armed or not. *)
Record Loop := mkLoop {
  lp_actor : Actor;
  rto : Z; retries : Z; rtoArmed : bool; rtoArmedID : Z;
  oldRto : Z; oldRetries : Z; oldRtoArmed : bool }.
#[global] Instance eta_Loop : Eta Loop := λ l,
  mkLoop (lp_actor l) (rto l) (retries l) (rtoArmed l) (rtoArmedID l) (oldRto l) (oldRetries l) (oldRtoArmed l).

(** What one [select] observes. *)
Inductive run_event :=
  | RunDone | RunRTO | RunOldRTO | RunTick | RunIkeSoft | RunChildSoft | RunNearWrap | RunRetry | RunLease
  | RunClosed | RunNil | RunPacket (ike : bool) (raw : list Z).

(** An iteration goes on, or [Run] returns ([Ok]: a clean shutdown). *)
Inductive verdict := Continue | Return (r : res unit).

Section Loop.
Context {C : Crypto} {X : X25519}.
Context (rng : Z → Z → Z → res (list Z)) (rnd : Z → Z → Z).
Context (cfg : Config).

Definition doubled (rto : Z) : Z :=
  let t := Cfg_Timeouts cfg in
  if rto <? MaxRTO t then let rto := i64 (rto * 2) in if MaxRTO t <? rto then MaxRTO t else rto else rto.

(** A request has just been sent: fresh retransmission state. *)
Definition arm_fresh (l : Loop) : Loop :=
  l <| retries := 0 |> <| rto := InitialRTO (Cfg_Timeouts cfg) |>
    <| rtoArmedID := ExpectedResponseMessageID (ra_st (lp_actor l)) |> <| rtoArmed := true |>.

Definition fresh_rto (l : Loop) : Loop := l <| retries := 0 |> <| rto := InitialRTO (Cfg_Timeouts cfg) |>.

Definition cancelled : string := "context canceled".
Definition is_cancel (e : string) : bool := bool_decide (e = cancelled).

(** A rekey attempt: [start] failing for another reason than the end of the
    context abandons it. *)
Definition attempt (start : go Actor unit) (stop_on_cancel : bool) (l : Loop) : Loop * verdict :=
  match start (lp_actor l) with
  | (a, Ok _) => (arm_fresh (l <| lp_actor := a |>), Continue)
  | (a, Err e) =>
      if stop_on_cancel && is_cancel e then (l <| lp_actor := a |>, Return (Err e))
      else (l <| lp_actor := (abandonRekey rnd cfg true a).1 |>, Continue)
  | (a, Panic) => (l <| lp_actor := a |>, Return Panic)
  | (a, Hang) => (l <| lp_actor := a |>, Return Hang)
  end.

Definition on_rto (env : Env) (l : Loop) : Loop * verdict :=
  let l := l <| rtoArmed := false |> in
  let a := lp_actor l in
  let st := ra_st a in
  if negb (HasExpectedResponse st) then (l, Continue)
  else if MaxRetries (Cfg_Timeouts cfg) <=? retries l then
    if bool_decide (is_Some (Rekey st)) then
      (fresh_rto (l <| lp_actor := (abandonRekey rnd cfg true a).1 |>), Continue)
    else if leasePending a then
      match leaseRetryOrExpire env a with
      | (a, Ok _) => (fresh_rto (l <| lp_actor := a |>), Continue)
      | (a, Err e) => (l <| lp_actor := a |>, Return (Err e))
      | (a, Panic) => (l <| lp_actor := a |>, Return Panic)
      | (a, Hang) => (l <| lp_actor := a |>, Return Hang)
      end
    else (l, Return (Err "control: keepalive request %d unanswered after %d retries"))
  else
  match OutboundRequest st with
  | None => (l, Return (Err "control: outstanding request has no retransmit checkpoint"))
  | Some check =>
      match sendFrames env (Packets check) a with
      | (a, Ok _) =>
          (l <| lp_actor := a |> <| retries := u8 (retries l + 1) |> <| rto := doubled (rto l) |>
             <| rtoArmed := true |>, Continue)
      | (a, Err e) => (l <| lp_actor := a |>, Return (Err e))
      | (a, Panic) => (l <| lp_actor := a |>, Return Panic)
      | (a, Hang) => (l <| lp_actor := a |>, Return Hang)
      end
  end.

Definition old_expected (st : State) : bool :=
  match OldIKE st with old :: _ => Old_HasExpectedResponse old | [] => false end.

Definition on_old_rto (env : Env) (l : Loop) : Loop * verdict :=
  let l := l <| oldRtoArmed := false |> in
  let a := lp_actor l in
  match OldIKE (ra_st a) with
  | [] => (l, Continue)
  | old :: _ =>
      if negb (Old_HasExpectedResponse old) then (l, Continue)
      else if MaxRetries (Cfg_Timeouts cfg) <=? oldRetries l then
        let a := (set_old (λ old, old <| Old_HasExpectedResponse := false |> <| Old_OutboundRequest := None |>) a).1 in
        (l <| lp_actor := a |> <| oldRetries := 0 |> <| oldRto := InitialRTO (Cfg_Timeouts cfg) |>, Continue)
      else
      match Old_OutboundRequest old with
      | None => (l, Continue)
      | Some check =>
          match sendFrames env (Packets check) a with
          | (a, Ok _) =>
              (l <| lp_actor := a |> <| oldRetries := u8 (oldRetries l + 1) |> <| oldRto := doubled (oldRto l) |>
                 <| oldRtoArmed := true |>, Continue)
          | (a, Err e) => (l <| lp_actor := a |>, Return (Err e))
          | (a, Panic) => (l <| lp_actor := a |>, Return Panic)
          | (a, Hang) => (l <| lp_actor := a |>, Return Hang)
          end
      end
  end.

Definition on_tick (env : Env) (l : Loop) : Loop * verdict :=
  let a := lp_actor l in
  let a := match InboundFragments (ra_st a) with
           | Some frag => if ExpiresAt frag <? env_now env then a <| ra_st := ra_st a <| InboundFragments := None |> |> else a
           | None => a
           end in
  let l := l <| lp_actor := a |> in
  if HasExpectedResponse (ra_st a) then (l, Continue)
  else
  match sendKeepalive rng cfg env a with
  | (a, Ok _) =>
      (l <| lp_actor := a |> <| retries := 0 |> <| rtoArmedID := ExpectedResponseMessageID (ra_st a) |>
         <| rtoArmed := true |>, Continue)
  | (a, Err e) => (l <| lp_actor := a |>, Return (Err e))
  | (a, Panic) => (l <| lp_actor := a |>, Return Panic)
  | (a, Hang) => (l <| lp_actor := a |>, Return Hang)
  end.

Definition on_retry (env : Env) (l : Loop) : Loop * verdict :=
  let a := lp_actor l in
  if negb (safeToRekey (ra_st a)) then (l, Continue)
  else
  match retryKind a with
  | RekeyIke => attempt (startIKERekey rng cfg env (retryTrigger a)) false l
  | RekeyChild =>
      if bool_decide (is_Some (ActiveChild (ra_st a)))
      then attempt (startChildRekey rng cfg env (retryTrigger a)) false l
      else (arm_fresh l, Continue)
  end.

Definition on_lease (env : Env) (l : Loop) : Loop * verdict :=
  let a := lp_actor l in
  if negb (safeToRenewLease (ra_st a)) then (l, Continue)
  else
  match sendLeaseRenewal rng cfg env a with
  | (a, Ok _) => (arm_fresh (l <| lp_actor := a |>), Continue)
  | (a, Err e) =>
      if is_cancel e then (l <| lp_actor := a |>, Return (Err e))
      else
      match leaseRetryOrExpire env a with
      | (a, Ok _) => (l <| lp_actor := a |>, Continue)
      | (a, r) => (l <| lp_actor := a |>, Return r)
      end
  | (a, Panic) => (l <| lp_actor := a |>, Return Panic)
  | (a, Hang) => (l <| lp_actor := a |>, Return Hang)
  end.

(** The retransmission timers after a packet was handled. *)
Definition after_packet (l : Loop) : Loop :=
  let st := ra_st (lp_actor l) in
  let l :=
    if HasExpectedResponse st && negb (rtoArmedID l =? ExpectedResponseMessageID st) then arm_fresh l
    else if negb (HasExpectedResponse st) && negb (old_expected st) then
      fresh_rto l <| rtoArmed := false |> <| rtoArmedID := 0 |>
    else l in
  l <| oldRtoArmed := old_expected st |>.

Definition on_packet (env : Env) (ike : bool) (raw : list Z) (l : Loop) : Loop * verdict :=
  match processPacket rng rnd cfg env ike raw (lp_actor l) with
  | (a, Ok shutdown) =>
      (after_packet (l <| lp_actor := a |>), if (shutdown : bool) then Return (Ok tt) else Continue)
  | (a, Err _) => (l <| lp_actor := a |>, Continue)
  | (a, Panic) => (l <| lp_actor := a |>, Return Panic)
  | (a, Hang) => (l <| lp_actor := a |>, Return Hang)
  end.

(** One iteration. A stopped timer does not fire: its event changes nothing. *)
Definition iterate (env : Env) (e : run_event) (l : Loop) : Loop * verdict :=
  let a := lp_actor l in
  match e with
  | RunDone => (l, Return (Err cancelled))
  | RunRTO => if rtoArmed l then on_rto env l else (l, Continue)
  | RunOldRTO => if oldRtoArmed l then on_old_rto env l else (l, Continue)
  | RunTick => on_tick env l
  | RunIkeSoft =>
      if bool_decide (is_Some (ikeSoft a)) then
        let l := l <| lp_actor := a <| ikeSoft := None |> |> in
        if safeToRekey (ra_st a) then attempt (startIKERekey rng cfg env RekeyTriggerTime) true l else (l, Continue)
      else (l, Continue)
  | RunChildSoft =>
      if bool_decide (is_Some (childSoft a)) then
        let l := l <| lp_actor := a <| childSoft := None |> |> in
        if safeToRekey (ra_st a) then attempt (startChildRekey rng cfg env RekeyTriggerTime) true l else (l, Continue)
      else (l, Continue)
  | RunNearWrap =>
      if safeToRekey (ra_st a) && bool_decide (is_Some (ActiveChild (ra_st a)))
      then attempt (startChildRekey rng cfg env RekeyTriggerNearWrap) true l else (l, Continue)
  | RunRetry =>
      if bool_decide (is_Some (retryTimer a)) then on_retry env (l <| lp_actor := a <| retryTimer := None |> |>)
      else (l, Continue)
  | RunLease =>
      if bool_decide (is_Some (leaseTimer a)) then on_lease env (l <| lp_actor := a <| leaseTimer := None |> |>)
      else (l, Continue)
  | RunClosed => (l, Return (Err "control: running inbound channel closed"))
  | RunNil => (l, Continue)
  | RunPacket ike raw => on_packet env ike raw l
  end.

(** [Run] once armed, over the iterations observed: the loop variables it
    leaves, and what it returned ([None]: it is still serving). *)
Fixpoint run_loop (events : list (Env * run_event)) (l : Loop) : Loop * option (res unit) :=
  match events with
  | [] => (l, None)
  | (env, e) :: events =>
      match iterate env e l with
      | (l, Continue) => run_loop events l
      | (l, Return r) => (l, Some r)
      end
  end.

(** The actor on the state the handshake hands over, and the timers [Run]
    arms. *)
Definition start_actor (env : Env) (st : State) : Actor :=
  let a := mkActor st None None None None None false RekeyChild RekeyTriggerTime [] [] 0 in
  let a := (resetIkeSoft rnd cfg env a).1 in
  let a := (resetChildSoft rnd cfg env a).1 in
  (armLeaseTimer env a).1.

Definition start_loop (env : Env) (st : State) : Loop :=
  let t := Cfg_Timeouts cfg in
  mkLoop (start_actor env st) (InitialRTO t) 0 false 0 (InitialRTO t) 0 false.

Definition Run (env : Env) (st : State) (events : list (Env * run_event)) : Loop * option (res unit) :=
  run_loop events (start_loop env st).
End Loop.
