(* ===== verification/RunInvariant.v ===== *)
(** * The invariant of the running actor

    A program logic for the handlers of Running.v ([stp]: what a handler
    guarantees of the actor it leaves, on success and on error) and the
    invariant [actor_ok] with the proof that every handler and every iteration
    of the loop keeps it. *)

From stdpp Require Import sorting.
From S2P Require Import Prelude Suite Crypto Cipher Payload Keying Wire Protected Eap Identity State Negotiate Exchange Auth Handshake Rekey Running.

(* ------------------------------------------------------------------ *)
(** ** A program logic for the handlers *)

(** [m], run by any actor whose state is [st], ends with an outcome and a
    state that satisfy [Q]; the rest of the actor is arbitrary. *)
Definition stp {A} (m : go Actor A) (Q : res A → State → Prop) (st : State) : Prop :=
  ∀ a, ra_st a = st → Q (m a).2 (ra_st (m a).1).

Section Logic.
Context {A B : Type}.
Implicit Types (Q : res A → State → Prop).

Lemma stp_bind (m : go Actor B) (k : B → go Actor A) Q st :
  stp m (λ r st', match r with
                  | Ok x => stp (k x) Q st'
                  | Err e => Q (Err e) st' | Panic => Q Panic st' | Hang => Q Hang st'
                  end) st →
  stp (m ≫= k) Q st.
Proof.
  intros H a Ha. specialize (H a Ha). unfold mbind, go_bind. destruct (m a) as [a' [x|e| |]]; [|exact H..].
  cbn [fst snd] in H. by apply H.
Qed.

Lemma stp_mono (m : go Actor A) Q Q' st : stp m Q st → (∀ r st', Q r st' → Q' r st') → stp m Q' st.
Proof. intros H HQ a Ha. by apply HQ, H. Qed.

Lemma stp_ret (x : A) Q st : Q (Ok x) st → stp (mret x) Q st.
Proof. by intros H a <-. Qed.
Lemma stp_lift (r : res A) Q st : Q r st → stp (lift r) Q st.
Proof. by intros H a <-. Qed.
Lemma stp_throw e Q st : Q (Err e) st → stp (throw e) Q st.
Proof. by intros H a <-. Qed.
Lemma stp_gets (f : Actor → A) Q st : (∀ x, Q (Ok x) st) → stp (gets f) Q st.
Proof. intros H a <-. apply H. Qed.

(** An action that leaves the state alone. *)
Lemma stp_frame (m : go Actor A) Q st : (∀ a, ra_st (m a).1 = ra_st a) → (∀ r, Q r st) → stp m Q st.
Proof. intros Hm H a <-. by rewrite Hm. Qed.

Lemma stp_on_err (m : go Actor A) (h : go Actor unit) Q st :
  stp m (λ r st', match r with Err e => stp h (λ _ st'', Q (Err e) st'') st' | _ => Q r st' end) st →
  stp (on_err m h) Q st.
Proof.
  intros H a Ha. specialize (H a Ha). unfold on_err. destruct (m a) as [a' [x|e| |]]; try exact H. cbn [fst snd] in *.
  by apply H.
Qed.
End Logic.

Lemma stp_get (Q : res State → State → Prop) st : Q (Ok st) st → stp get_st Q st.
Proof. by intros H a <-. Qed.
Lemma stp_set f (Q : res unit → State → Prop) st : Q (Ok tt) (f st) → stp (set_st f) Q st.
Proof. by intros H a <-. Qed.
Lemma stp_modify f (Q : res unit → State → Prop) st :
  (∀ a, ra_st (f a) = ra_st a) → Q (Ok tt) st → stp (modify f) Q st.
Proof. intros Hf H a <-. unfold modify. cbn. by rewrite Hf. Qed.
Lemma stp_send env fs (Q : res unit → State → Prop) st : Q (Ok tt) st → Q (Err cancelled) st → stp (sendFrames env fs) Q st.
Proof. intros H1 H2 a <-. unfold sendFrames. destruct (env_queue env); cbn; [destruct (_ <=? _)%nat|]; done. Qed.
Lemma stp_draw rng (Q : res _ → State → Prop) st : (∀ r, Q (Ok r) st) → stp (draw rng) Q st.
Proof. intros H a <-. apply H. Qed.
Lemma stp_draw_jitter rnd (Q : res _ → State → Prop) st : (∀ r, Q (Ok r) st) → stp (draw_jitter rnd) Q st.
Proof. intros H a <-. apply H. Qed.
Lemma stp_push_update u (Q : res unit → State → Prop) st : Q (Ok tt) st → stp (push_update u) Q st.
Proof. by intros H a <-. Qed.
Lemma stp_try_update cfg env u (Q : res unit → State → Prop) st : Q (Ok tt) st → stp (try_update cfg env u) Q st.
Proof. intros H a <-. unfold try_update. by destruct (_ && _). Qed.

(* ------------------------------------------------------------------ *)
(** ** The invariant of the actor *)

(** What a rekey we have started requires of the rest of the state. *)
Record rekey_ok (st : State) (rc : RekeyContext) : Prop := {
  rk_expected : HasExpectedResponse st = true;
  rk_id : RC_MessageID rc = ExpectedResponseMessageID st;
  rk_checkpoint : is_Some (OutboundRequest st);
  rk_old : OldIKE st = [];
  rk_kind : match RC_Kind rc with
            | RekeyChild => St_Phase st = PhaseRekeyChildRequesting ∧
                ∃ old, RC_OldChild rc = Some old ∧ (ActiveChild st = Some old ∨ ActiveChild st = None)
            | RekeyIke => St_Phase st = PhaseRekeyIkeRequesting
            end }.

(** The phase tells what is retained and what is outstanding; the checkpoint is
    the one of the outstanding request; the answer cache is bounded and holds
    strictly increasing ids; at most one old IKE SA is retained. *)
Record actor_ok (st : State) : Prop := {
  ok_history : StronglySorted Z.lt (Cached_MessageID <$> InboundHistory st);
  ok_history_len : (length (InboundHistory st) <= MaxInboundResponseHistory)%nat;
  ok_checkpoint : ∀ c, OutboundRequest st = Some c →
    HasExpectedResponse st = true ∧ Check_MessageID c = ExpectedResponseMessageID st;
  ok_rekey : ∀ rc, Rekey st = Some rc → rekey_ok st rc;
  ok_one_old : (length (OldIKE st) <= 1)%nat;
  ok_old_phase : OldIKE st = [] ↔ St_Phase st ≠ PhaseRekeyIkeDeletingOld;
  ok_deleting : St_Phase st = PhaseRekeyChildDeletingOld → is_Some (OldChild st);
  ok_phase : St_Phase st ∈ [PhaseRunning; PhaseRekeyChildRequesting; PhaseRekeyChildDeletingOld;
                            PhaseRekeyIkeRequesting; PhaseRekeyIkeDeletingOld; PhaseStopped] }.

(** The state [abandonRekey] leaves. *)
Definition abandoned (st : State) : State :=
  st <| Rekey := None |> <| OutboundRequest := None |> <| InboundFragments := None |>
     <| OldChild := None |> <| OldIKE := [] |> <| HasExpectedResponse := false |> <| St_Phase := PhaseRunning |>.

(** Fields the invariant does not read. *)
Definition same_control (st st' : State) : Prop :=
  InboundHistory st' = InboundHistory st ∧ OutboundRequest st' = OutboundRequest st ∧
  HasExpectedResponse st' = HasExpectedResponse st ∧ ExpectedResponseMessageID st' = ExpectedResponseMessageID st ∧
  Rekey st' = Rekey st ∧ OldIKE st' = OldIKE st ∧ St_Phase st' = St_Phase st ∧ OldChild st' = OldChild st ∧
  ActiveChild st' = ActiveChild st.

Lemma same_control_ok st st' : same_control st st' → actor_ok st → actor_ok st'.
Proof.
  intros (E1 & E2 & E3 & E4 & E5 & E6 & E7 & E8 & E9) [H1 H2 H3 H4 H5 H6 H7 H8].
  constructor; rewrite ?E1, ?E2, ?E3, ?E4, ?E5, ?E6, ?E7, ?E8; auto.
  intros rc Hrc. destruct (H4 rc Hrc). constructor; rewrite ?E2, ?E3, ?E4, ?E6, ?E7, ?E9; auto.
Qed.

Lemma idle_checkpoint st : actor_ok st → HasExpectedResponse st = false → OutboundRequest st = None ∧ Rekey st = None.
Proof.
  intros H Hi. split.
  - destruct (OutboundRequest st) as [c|] eqn:E; [|done]. destruct (ok_checkpoint st H c E). congruence.
  - destruct (Rekey st) as [rc|] eqn:E; [|done]. destruct (ok_rekey st H rc E). congruence.
Qed.

Lemma abandoned_ok st : actor_ok st → actor_ok (abandoned st).
Proof. intros []. constructor; cbn; auto; [done..|set_solver]. Qed.

(** No request outstanding any more. *)
Lemma request_done_ok st : actor_ok st → Rekey st = None →
  actor_ok (st <| HasExpectedResponse := false |> <| OutboundRequest := None |> <| InboundFragments := None |>).
Proof. intros [] Hr. constructor; cbn; auto; [done|by rewrite Hr]. Qed.

(** One step of a handler under [stp]; [cut] lemmas are applied by hand. *)
Ltac stp_step :=
  match goal with
  | |- stp (_ ≫= _) _ _ => apply stp_bind
  | |- stp (mret _) _ _ => apply stp_ret
  | |- stp get_st _ _ => apply stp_get
  | |- stp (set_st _) _ _ => apply stp_set
  | |- stp (set_old _) _ _ => apply stp_set
  | |- stp (modify _) _ _ => apply stp_modify; [by intros []|]
  | |- stp (throw _) _ _ => apply stp_throw
  | |- stp (gets _) _ _ => apply stp_gets; intros ?
  | |- stp (sendFrames _ _) _ _ => apply stp_send
  | |- stp (draw _) _ _ => apply stp_draw; intros ?
  | |- stp (draw_jitter _) _ _ => apply stp_draw_jitter; intros ?
  | |- stp (push_update _) _ _ => apply stp_push_update
  | |- stp (try_update _ _ _) _ _ => apply stp_try_update
  | |- stp (dataplaneChildDeleted _ _ _) _ _ => apply stp_try_update
  | |- stp (lift ?r) _ _ => apply stp_lift; destruct r eqn:?
  | |- stp (if ?b then _ else _) _ _ => destruct b eqn:?
  | |- stp (match ?x with _ => _ end) _ _ => destruct x eqn:?
  end; cbv beta iota.
Ltac stp_go := repeat stp_step.

(** The id of a request not answered yet. *)
Definition unanswered (msgID : Z) (st : State) : Prop := Forall (λ e, Cached_MessageID e < msgID) (InboundHistory st).

Lemma sorted_snoc l x : StronglySorted Z.lt l → Forall (λ y, y < x) l → StronglySorted Z.lt (l ++ [x]).
Proof.
  induction 1 as [|y l Hs IH Hy]; intros Hx; [by repeat constructor|]. inversion Hx; subst. cbn. constructor; [by apply IH|].
  apply Forall_app. split; [done|]. by constructor.
Qed.

Lemma sorted_drop l n : StronglySorted Z.lt l → StronglySorted Z.lt (drop n l).
Proof.
  revert l. induction n as [|n IH]; [done|]. intros l H. destruct H; [by rewrite drop_nil; constructor|]. by apply IH.
Qed.

Lemma remember_ok st msgID frames : actor_ok st → unanswered msgID st →
  let h := InboundHistory st ++ [mkCachedResponse msgID frames] in
  actor_ok (st <| InboundHistory := drop (length h - MaxInboundResponseHistory) h |>).
Proof.
  intros [] Hu h. constructor; cbn; auto.
  - rewrite fmap_drop. apply sorted_drop. unfold h. rewrite fmap_app. apply sorted_snoc; [done|]. by apply Forall_fmap.
  - rewrite length_drop. lia.
  - intros rc Hrc. destruct (ok_rekey0 rc Hrc). by constructor.
Qed.

(** The staleness test keeps the ids increasing. *)
Lemma not_stale msgID st : actor_ok st →
  match last_answered st with Some last => msgID <=? last | None => false end = false → unanswered msgID st.
Proof.
  intros H. unfold last_answered, unanswered. pose proof (ok_history st H) as Hs.
  destruct (InboundHistory st) as [|e h] using rev_ind; [by constructor|]. clear IHh.
  rewrite last_snoc. cbn. intros Hl. apply Z.leb_gt in Hl. rewrite fmap_app in Hs. apply Forall_app. split; [|by repeat constructor].
  apply Forall_forall. intros x Hx. cut (Cached_MessageID x < Cached_MessageID e); [lia|].
  assert (Hin : Cached_MessageID x ∈ Cached_MessageID <$> h) by by apply list_elem_of_fmap_2.
  induction (Cached_MessageID <$> h) as [|y l IH]; [by apply not_elem_of_nil in Hin|].
  inversion Hs; subst. apply elem_of_cons in Hin as [->|Hin]; [|by apply IH].
  eapply Forall_forall; [done|]. set_solver.
Qed.

Section Invariant.
Context {C : Crypto} {X : X25519}.
Context (rng : Z → Z → Z → res (list Z)) (rnd : Z → Z → Z).
Context (cfg : Config) (env : Env).

Lemma stp_seal limit exchange msgID next plain flags (Q : res _ → State → Prop) st :
  (∀ r, Q r st) → stp (seal rng limit exchange msgID next plain flags) Q st.
Proof. intros H. apply stp_frame; [|done]. by intros a. Qed.

Lemma stp_abandonRekey retry (Q : res unit → State → Prop) st :
  Q (Ok tt) (abandoned st) → stp (abandonRekey rnd cfg retry) Q st.
Proof. intros H. unfold abandonRekey. by stp_go. Qed.

Lemma stp_abandon {A} (m : go Actor A) (Q : res A → State → Prop) st :
  stp m (λ r st', match r with Err e => Q (Err e) (abandoned st') | _ => Q r st' end) st →
  stp (abandon rnd cfg m) Q st.
Proof.
  intros H. apply stp_on_err. eapply stp_mono; [exact H|]. intros [x|e| |] st'; auto. intros HQ.
  by apply stp_abandonRekey.
Qed.

Lemma stp_beginRequest (Q : res Z → State → Prop) st :
  Q (Ok (NextRequestMessageID st))
    (st <| NextRequestMessageID := u32 (NextRequestMessageID st + 1) |>
        <| ExpectedResponseMessageID := NextRequestMessageID st |> <| HasExpectedResponse := true |>) →
  stp beginRequest Q st.
Proof. intros H. unfold beginRequest. by stp_go. Qed.

Lemma stp_resetChildSoft (Q : res unit → State → Prop) st : Q (Ok tt) st → stp (resetChildSoft rnd cfg env) Q st.
Proof. intros H. unfold resetChildSoft, reset_soft. by stp_go. Qed.
Lemma stp_resetIkeSoft (Q : res unit → State → Prop) st : Q (Ok tt) st → stp (resetIkeSoft rnd cfg env) Q st.
Proof. intros H. unfold resetIkeSoft, reset_soft. by stp_go. Qed.
Lemma stp_armLeaseTimer (Q : res unit → State → Prop) st : Q (Ok tt) st → stp (armLeaseTimer env) Q st.
Proof. intros H. unfold armLeaseTimer. by stp_go. Qed.
Lemma stp_installChild child keys sel (Q : res unit → State → Prop) st :
  Q (Ok tt) st → (∀ e, Q (Err e) st) → stp (installChild cfg env child keys sel) Q st.
Proof. intros H1 H2. unfold installChild. by stp_go. Qed.

(** Starting a request keeps the invariant when none is outstanding. *)
Lemma begin_ok st id : actor_ok st → HasExpectedResponse st = false →
  actor_ok (st <| NextRequestMessageID := u32 (id + 1) |> <| ExpectedResponseMessageID := id |>
               <| HasExpectedResponse := true |>).
Proof.
  intros H Hi. destruct (idle_checkpoint st H Hi) as [Ho Hr]. destruct H. constructor; cbn; auto; rewrite ?Ho, ?Hr; done.
Qed.

Lemma checkpoint_ok st id frames : actor_ok st → HasExpectedResponse st = true → ExpectedResponseMessageID st = id →
  Rekey st = None → actor_ok (st <| OutboundRequest := Some (mkCheckpoint id frames) |>).
Proof.
  intros [] Hx Hi Hr. constructor; cbn; auto; [by intros c [= <-]|by rewrite Hr].
Qed.

Lemma sendKeepalive_ok st : actor_ok st → stp (sendKeepalive rng cfg env) (λ _, actor_ok) st.
Proof.
  intros H. unfold sendKeepalive. stp_go; [done|]. apply stp_beginRequest, stp_bind, stp_seal.
  destruct (idle_checkpoint st) as [_ Hr]; [done..|].
  intros [frames|e| |]; [|by apply begin_ok..]. unfold checkpoint. stp_go; apply checkpoint_ok; try done; by apply begin_ok.
Qed.

Lemma safeToRekey_spec st : safeToRekey st = true ↔
  St_Phase st = PhaseRunning ∧ HasExpectedResponse st = false ∧ Rekey st = None ∧ OldIKE st = [].
Proof.
  unfold safeToRekey. rewrite !andb_true_iff, bool_decide_eq_true, !negb_true_iff, bool_decide_eq_false, Z.eqb_eq.
  rewrite <- eq_None_not_Some. unfold len. destruct (OldIKE st); simpl; intuition (done || lia).
Qed.

Lemma leaseRetryOrExpire_ok st : actor_ok st → Rekey st = None →
  stp (leaseRetryOrExpire env) (λ _ st', actor_ok st' ∧ Rekey st' = None) st.
Proof.
  intros H Hr. unfold leaseRetryOrExpire. stp_go; split; try done;
    (eapply same_control_ok; [|by apply (request_done_ok st)]); done.
Qed.

Lemma sendLeaseRenewal_ok st : actor_ok st → HasExpectedResponse st = false →
  stp (sendLeaseRenewal rng cfg env) (λ _ st', actor_ok st' ∧ Rekey st' = None) st.
Proof.
  intros H Hi. destruct (idle_checkpoint st H Hi) as [_ Hr]. unfold sendLeaseRenewal. stp_go; [|done].
  apply stp_beginRequest. stp_go; [|split; [by apply begin_ok|done]..]. apply stp_seal.
  intros [frames|e| |]; [|split; [by apply begin_ok|done]..]. unfold checkpoint.
  stp_go; (split; [|done]); apply checkpoint_ok; try done; by apply begin_ok.
Qed.

(** A rekey that has been sent. *)
Lemma rekey_started_ok st rc frames id phase : actor_ok st → HasExpectedResponse st = true → OldIKE st = [] →
  RC_MessageID rc = ExpectedResponseMessageID st → RC_MessageID rc = id →
  phase = match RC_Kind rc with RekeyChild => PhaseRekeyChildRequesting | RekeyIke => PhaseRekeyIkeRequesting end →
  (RC_Kind rc = RekeyChild → ∃ old, RC_OldChild rc = Some old ∧ ActiveChild st = Some old) →
  actor_ok (st <| Rekey := Some rc |> <| St_Phase := phase |> <| OutboundRequest := Some (mkCheckpoint id frames) |>).
Proof.
  intros [] Hx Ho Hi Hid -> Hk. constructor; cbn; auto.
  - intros c [= <-]. split; [done|]. cbn. congruence.
  - intros rc' [= <-]. constructor; cbn; auto. destruct (RC_Kind rc); [|done]. destruct Hk as (old & ? & ?); eauto 6.
  - rewrite Ho. by destruct (RC_Kind rc).
  - by destruct (RC_Kind rc).
  - destruct (RC_Kind rc); set_solver.
Qed.

Lemma buildChildRekeyRequestPayloads_keeps st rc r_nonce r_key rc' plain :
  buildChildRekeyRequestPayloads cfg st rc r_nonce r_key = Ok (rc', plain) →
  RC_Kind rc' = RC_Kind rc ∧ RC_OldChild rc' = RC_OldChild rc.
Proof.
  unfold buildChildRekeyRequestPayloads. destruct (ActiveChild st); [|done]. intros H.
  do 4 (apply bind_Ok in H as (? & _ & H)). destruct (ChildPFS _).
  - apply bind_Ok in H as ([rc1 ke] & H1 & H). apply bind_Ok in H1 as ([dh k] & _ & [= <- <-]).
    by injection H as <- <-.
  - by injection H as <- <-.
Qed.

Lemma buildIKERekeyRequestPayloads_keeps rc r_nonce r_spi r_key rc' plain :
  buildIKERekeyRequestPayloads cfg rc r_nonce r_spi r_key = Ok (rc', plain) → RC_Kind rc' = RC_Kind rc.
Proof.
  unfold buildIKERekeyRequestPayloads. intros H. do 2 (apply bind_Ok in H as (? & _ & H)).
  apply bind_Ok in H as ([dh k] & _ & H). apply bind_Ok in H as (? & _ & H). by injection H as <- <-.
Qed.

Lemma startChildRekey_ok trigger st : actor_ok st → stp (startChildRekey rng cfg env trigger) (λ _, actor_ok) st.
Proof.
  intros H. unfold startChildRekey. stp_go; try done. apply negb_false_iff, safeToRekey_spec in Heqb as (Hp & Hi & Hr & Ho).
  apply stp_beginRequest, stp_bind, stp_seal. intros [frames|e| |]; [|by apply begin_ok..].
  match goal with H : buildChildRekeyRequestPayloads _ _ _ _ _ = Ok (?x, _) |- _ =>
    rename x into rc; apply buildChildRekeyRequestPayloads_keeps in H as [Hk Hc] end. cbn in Hk, Hc.
  stp_go; (apply rekey_started_ok; [by apply begin_ok|cbn; rewrite ?Hk; first [done|eauto]..]).
Qed.

Lemma startIKERekey_ok trigger st : actor_ok st → stp (startIKERekey rng cfg env trigger) (λ _, actor_ok) st.
Proof.
  intros H. unfold startIKERekey. stp_go; try done. apply negb_false_iff, safeToRekey_spec in Heqb as (Hp & Hi & Hr & Ho).
  apply stp_beginRequest, stp_bind, stp_seal. intros [frames|e| |]; [|by apply begin_ok..].
  match goal with H : buildIKERekeyRequestPayloads _ _ _ _ _ = Ok (?x, _) |- _ =>
    rename x into rc; apply buildIKERekeyRequestPayloads_keeps in H as Hk end. cbn in Hk.
  stp_go; (apply rekey_started_ok; [by apply begin_ok|cbn; rewrite ?Hk; first [done|eauto]..]).
Qed.

(** The DELETE of a replaced child. *)
Lemma sendDeleteOldChild_ok st : actor_ok st → HasExpectedResponse st = false → OldIKE st = [] →
  stp (sendDeleteOldChild rng cfg env) (λ r st', actor_ok st' ∧ Rekey st' = None ∧
    (r = Ok tt → St_Phase st' = PhaseRekeyChildDeletingOld ∨ OldChild st = None)) st.
Proof.
  intros H Hi Ho. destruct (idle_checkpoint st H Hi) as [Hc Hr]. unfold sendDeleteOldChild. stp_go.
  - apply stp_beginRequest. stp_go; [|split; [by apply begin_ok|done]..]. apply stp_seal.
    intros [frames|e| |]; [|split; [by apply begin_ok|done]..].
    assert (Hok : actor_ok (st <| NextRequestMessageID := u32 (NextRequestMessageID st + 1) |>
        <| ExpectedResponseMessageID := NextRequestMessageID st |> <| HasExpectedResponse := true |>
        <| St_Phase := PhaseRekeyChildDeletingOld |>
        <| OutboundRequest := Some (mkCheckpoint (NextRequestMessageID st) frames) |>)).
    { destruct H. constructor; cbn; auto; [by intros ? [= <-]|by rewrite Hr|by rewrite Ho|set_solver]. }
    stp_go; (split; [exact Hok|]); (split; [exact Hr|]); [by left|done].
  - split; [|split; [done|auto]]. destruct H. constructor; cbn; auto; [by rewrite Hr|by rewrite Ho|done|set_solver].
Qed.

Lemma finishDeleteOldChild_ok st : actor_ok st → Rekey st = None → OldIKE st = [] →
  stp (finishDeleteOldChild cfg env) (λ _, actor_ok) st.
Proof.
  intros H Hr Ho. unfold finishDeleteOldChild. destruct H.
  stp_go; (constructor; cbn; auto; [done|by rewrite Hr|by rewrite Ho|done|set_solver]).
Qed.

Lemma deriveChildRekeyKeys_keeps st rc nr ke sel rc' r : deriveChildRekeyKeys cfg st rc nr ke sel = (rc', r) →
  RC_Kind rc' = RC_Kind rc ∧ RC_OldChild rc' = RC_OldChild rc ∧ RC_MessageID rc' = RC_MessageID rc.
Proof. unfold deriveChildRekeyKeys. intros H. repeat case_match; apply pair_equal_spec in H as [<- _]; done. Qed.

Lemma deriveIKERekeyKeys_keeps st rc nr ke i r' sel rc' r : deriveIKERekeyKeys st rc nr ke i r' sel = (rc', r) →
  RC_Kind rc' = RC_Kind rc ∧ RC_MessageID rc' = RC_MessageID rc.
Proof. unfold deriveIKERekeyKeys. intros H. repeat case_match; apply pair_equal_spec in H as [<- _]; done. Qed.

(** A context that differs in its key material only. *)
Lemma set_rekey_ok st rc rc' : actor_ok st → Rekey st = Some rc →
  RC_Kind rc' = RC_Kind rc → RC_OldChild rc' = RC_OldChild rc → RC_MessageID rc' = RC_MessageID rc →
  actor_ok (st <| Rekey := Some rc' |>).
Proof.
  intros [] Hr Hk Ho Hi. constructor; cbn; auto. intros ? [= <-]. destruct (ok_rekey0 rc Hr).
  constructor; cbn; auto; [congruence|]. by rewrite Hk, Ho.
Qed.

Lemma finishChildRekeyResponse_ok inner st : actor_ok st → is_Some (Rekey st) →
  stp (finishChildRekeyResponse rng rnd cfg env inner) (λ r st', actor_ok st' ∧
    (r = Ok tt → Rekey st' = None ∧ St_Phase st' = PhaseRekeyChildDeletingOld)) st.
Proof.
  intros H [rc Hr]. unfold finishChildRekeyResponse. do 2 stp_step. rewrite Hr.
  destruct (ok_rekey st H rc Hr) as [Hx Hi Hc Ho Hk].
  destruct (RC_Kind rc) eqn:Ek; [|by stp_step]. destruct Hk as (Hp & old & Hold & Hact). rewrite Hold.
  apply stp_bind, stp_abandon, stp_lift. destruct (parseChildRekeyResponse cfg st inner) as [resp|e| |];
    [|split; [by apply abandoned_ok|done]|done..].
  destruct (_ || _); [apply stp_abandon, stp_throw; split; [by apply abandoned_ok|done]|].
  destruct (deriveChildRekeyKeys _ _ _ _ _ _) as [rc' r] eqn:Ed.
  apply deriveChildRekeyKeys_keeps in Ed as (Hk' & Hold' & Hi').
  assert (H' : actor_ok (st <| Rekey := Some rc' |>)) by by apply (set_rekey_ok st rc).
  apply stp_bind, stp_set, stp_bind, stp_abandon, stp_lift.
  destruct r as [keys|e| |]; [|split; [by apply abandoned_ok|done]|done..].
  apply stp_bind, stp_lift. destruct (RC_NewChild rc') as [inbound|]; cbn [deref]; [|done].
  destruct (bool_decide_reflect (ActiveChild st = Some old)) as [Ha|]; cbn [negb];
    [|apply stp_abandon, stp_throw; split; [by apply abandoned_ok|done]].
  apply stp_bind, stp_abandon, stp_installChild; [|intros e; split; [by apply abandoned_ok|done]].
  apply stp_bind, stp_set, stp_bind, stp_resetChildSoft.
  eapply stp_mono; [apply sendDeleteOldChild_ok; cbn; [|done..]|].
  - destruct H. by constructor; cbn; auto.
  - cbn. intros r st' (Hok & Hr' & Hph). split; [done|]. intros Hr0. split; [done|]. destruct (Hph Hr0); done.
Qed.

(** The new IKE SA is current and the old one retained. *)
Lemma install_ike_ok st spiI spiR orig ni nr keys sel old : actor_ok st → OldIKE st = [] →
  actor_ok (install_ike spiI spiR orig ni nr keys sel old st).
Proof.
  intros [] Ho. constructor; cbn; auto; [constructor|unfold MaxInboundResponseHistory; lia|done|done|by rewrite Ho|by rewrite Ho|done|set_solver].
Qed.

Lemma set_old_ok st f : actor_ok st →
  actor_ok (st <| OldIKE := match OldIKE st with old :: rest => f old :: rest | [] => [] end |>).
Proof.
  intros []. constructor; cbn; auto.
  - intros rc Hrc. destruct (ok_rekey0 rc Hrc). constructor; cbn; auto. by rewrite rk_old0.
  - by destruct (OldIKE st).
  - rewrite <- ok_old_phase0. by destruct (OldIKE st).
Qed.

Lemma sendOldIKEDelete_ok st : actor_ok st → OldIKE st ≠ [] →
  stp (sendOldIKEDelete rng cfg env) (λ _ st', actor_ok st' ∧ Rekey st' = Rekey st) st.
Proof.
  intros H Ho. unfold sendOldIKEDelete. stp_go; [done|..]; (split; [|done]);
    repeat first [done | match goal with |- actor_ok (?s <| OldIKE := _ |>) => apply (set_old_ok s) end].
Qed.

Lemma finishIKERekeyResponse_ok inner st : actor_ok st → is_Some (Rekey st) →
  stp (finishIKERekeyResponse rng rnd cfg env inner) (λ r st', actor_ok st' ∧ (r = Ok tt → Rekey st' = None)) st.
Proof.
  intros H [rc Hr]. unfold finishIKERekeyResponse. do 2 stp_step. rewrite Hr.
  destruct (ok_rekey st H rc Hr) as [Hx Hi Hc Ho Hk]. destruct (RC_Kind rc) eqn:Ek; [by stp_step|].
  apply stp_bind, stp_abandon, stp_lift. destruct (parseIKERekeyResponse cfg inner) as [[[[sel spi] nr] ker]|e| |];
    [|split; [by apply abandoned_ok|done]|done..].
  destruct (deriveIKERekeyKeys _ _ _ _ _ _ _) as [rc' r] eqn:Ed.
  apply deriveIKERekeyKeys_keeps in Ed as (Hk' & Hi'). cbn in Hk', Hi'.
  assert (H' : actor_ok (st <| Rekey := Some rc' |>)).
  { destruct H. constructor; cbn; auto. intros ? [= <-]. constructor; cbn; auto; [congruence|].
    rewrite Hk', Ek. done. }
  apply stp_bind, stp_set, stp_bind, stp_abandon, stp_lift.
  destruct r as [[keys seed]|e| |]; [|split; [by apply abandoned_ok|done]|done..].
  apply stp_bind, stp_set, stp_bind, stp_resetIkeSoft.
  eapply stp_mono; [apply sendOldIKEDelete_ok; [by apply install_ike_ok|]|].
  - cbn. by rewrite Ho.
  - by intros r st' [? ?].
Qed.

Lemma stp_answer msgID frames st : actor_ok st → unanswered msgID st → stp (answer env msgID frames) (λ _, actor_ok) st.
Proof. intros H Hu. unfold answer, rememberResponse. stp_go; [by apply remember_ok|done]. Qed.

Lemma answer_notify_ok msgID n st : actor_ok st → unanswered msgID st →
  stp (answer_notify rng cfg env msgID n) (λ _, actor_ok) st.
Proof.
  intros H Hu. unfold answer_notify. stp_go; try done. apply stp_seal. intros [frames|e| |]; try done. by apply stp_answer.
Qed.

(** A replaced child while no child rekey of ours is open. *)
Lemma replace_child_ok st sel old child : actor_ok st → (∀ rc, Rekey st = Some rc → RC_Kind rc = RekeyIke) →
  actor_ok (st <| SelectedESP := Some sel |> <| OldChild := Some old |> <| ActiveChild := Some child |>).
Proof.
  intros [] Hk. constructor; cbn; auto. intros rc Hrc. specialize (Hk rc Hrc). destruct (ok_rekey0 rc Hrc).
  constructor; cbn; auto. by rewrite Hk in *.
Qed.

Lemma accept_child_rekey_ok msgID target old sa rr st : actor_ok st → unanswered msgID st →
  (∀ rc, Rekey st = Some rc → RC_Kind rc = RekeyIke) →
  stp (accept_child_rekey rng rnd cfg env msgID target old sa rr) (λ _, actor_ok) st.
Proof.
  intros H Hu Hk. unfold accept_child_rekey. apply stp_bind, stp_draw. intros r_spi. apply stp_bind, stp_lift.
  destruct (generateChildSPI _) as [spi|e| |]; try done.
  destruct (selectPeerESPProposal _ _ _ _) as [[selected sel]|e| |]; [|by apply answer_notify_ok|by apply stp_lift..].
  apply stp_bind, stp_draw. intros r_nonce. apply stp_bind, stp_draw. intros r_key. apply stp_bind, stp_lift.
  destruct (GenerateNonce _ _) as [nr|e| |]; try done. apply stp_bind, stp_lift.
  match goal with |- match ?r with _ => _ end => destruct r as [[ke shared]|e| |]; try done end.
  apply stp_bind, stp_lift. destruct (AppendSA _ _) as [body|e| |]; try done.
  apply stp_bind, stp_seal. intros [frames|e| |]; try done.
  apply stp_bind, stp_get. do 4 (apply stp_bind, stp_lift; match goal with |- match ?r with _ => _ end => destruct r; try done end).
  apply stp_bind, stp_installChild; [|done]. apply stp_bind, stp_set, stp_bind, stp_resetChildSoft, stp_answer; [|done].
  by apply replace_child_ok.
Qed.

Lemma processPeerChildRekey_ok msgID inner st : actor_ok st → unanswered msgID st →
  stp (processPeerChildRekey rng rnd cfg env msgID inner) (λ _, actor_ok) st.
Proof.
  intros H Hu. unfold processPeerChildRekey. stp_go; try done; try (by apply answer_notify_ok).
  all: try (apply stp_abandonRekey, accept_child_rekey_ok; [by apply abandoned_ok|done|done]).
  all: apply accept_child_rekey_ok; [done|done|]; intros rc Hrc; congruence || by simplify_eq.
Qed.

Lemma accept_ike_rekey_ok msgID inner st : actor_ok st → unanswered msgID st → OldIKE st = [] →
  stp (accept_ike_rekey rng rnd cfg env msgID inner) (λ _, actor_ok) st.
Proof.
  intros H Hu Ho. unfold accept_ike_rekey. stp_go; try done; try (by apply answer_notify_ok).
  apply stp_seal. intros [frames|e| |]; try done. stp_go; try done.
  apply stp_resetIkeSoft. stp_go. apply (set_old_ok (install_ike _ _ _ _ _ _ _ _ st)). by apply install_ike_ok.
Qed.

Lemma processPeerIKERekey_ok msgID inner st : actor_ok st → unanswered msgID st →
  stp (processPeerIKERekey rng rnd cfg env msgID inner) (λ _, actor_ok) st.
Proof.
  intros H Hu. unfold processPeerIKERekey. stp_go; try (by apply answer_notify_ok).
  - apply stp_abandonRekey, accept_ike_rekey_ok; [by apply abandoned_ok|done|done].
  - apply accept_ike_rekey_ok; [done|done|]. destruct (OldIKE st) as [|o l]; [done|].
    rewrite len_cons in Heqb. pose proof (len_nonneg l). lia.
Qed.

Lemma processCreateChild_ok msgID inner st : actor_ok st → unanswered msgID st →
  stp (processCreateChild rng rnd cfg env msgID inner) (λ _, actor_ok) st.
Proof.
  intros H Hu. unfold processCreateChild. stp_go; [by apply processPeerIKERekey_ok|by apply processPeerChildRekey_ok].
Qed.

(** The retained old SA is gone. *)
Lemma drop_old_ok st : actor_ok st → OldIKE st ≠ [] → actor_ok (st <| OldIKE := [] |> <| St_Phase := PhaseRunning |>).
Proof.
  intros [] Ho. assert (Hp : St_Phase st = PhaseRekeyIkeDeletingOld) by (apply dec_stable; tauto).
  constructor; cbn; auto; [|done..|set_solver]. intros rc Hrc. by destruct (ok_rekey0 rc Hrc).
Qed.

Lemma processOldIKEPacket_ok msg raw st : actor_ok st → stp (processOldIKEPacket rng cfg env msg raw) (λ _, actor_ok) st.
Proof.
  intros H. unfold processOldIKEPacket, finishOldIKEDelete.
  stp_go; try done; try (apply drop_old_ok; [done|congruence]).
  - apply (drop_old_ok (st <| OldIKE := _ |>)); [by apply set_old_ok|]. cbn. by case_match.
  - by apply set_old_ok.
Qed.

Lemma delete_child_ok spi st : actor_ok st → stp (delete_child cfg env spi) (λ _ st', actor_ok st' ∧ InboundHistory st' = InboundHistory st) st.
Proof.
  intros H. unfold delete_child. stp_go; (split; [|done]); try done.
  - destruct H. constructor; cbn; auto.
    + intros rc Hrc. destruct (ok_rekey0 rc Hrc). constructor; cbn; auto.
      case_bool_decide as Hd; [|done]. by rewrite Hd in rk_kind0; destruct (RC_Kind rc) as [|]; [destruct rk_kind0|].
    + rewrite ok_old_phase0. case_bool_decide as Hd; [|done]. by rewrite Hd.
    + case_bool_decide; done.
    + case_bool_decide; [set_solver|done].
  - destruct H. constructor; cbn; auto. intros rc Hrc. destruct (ok_rekey0 rc Hrc). constructor; cbn; auto.
    destruct (RC_Kind rc); [|done]. destruct rk_kind0 as (? & o & ? & ?). eauto 6.
  - destruct H. constructor; cbn; auto. intros rc Hrc. destruct (ok_rekey0 rc Hrc). constructor; cbn; auto.
    destruct (RC_Kind rc); [|done]. destruct rk_kind0 as (? & o & ? & ?). eauto 6.
Qed.

Lemma applyConfigUpdate_ok incoming present mode st : actor_ok st →
  stp (applyConfigUpdate cfg env incoming present mode)
    (λ _ st', actor_ok st' ∧ InboundHistory st' = InboundHistory st ∧ Rekey st' = Rekey st) st.
Proof.
  intros H. unfold applyConfigUpdate. do 4 stp_step. apply stp_bind.
  assert (Hok : ∀ x, actor_ok (st <| Assigned := x |>)) by (intros x; by apply (same_control_ok st)).
  destruct (0 <? _); [apply stp_armLeaseTimer|apply stp_ret]; stp_go; done.
Qed.

Lemma handleInformational_ok plds st : actor_ok st →
  stp (handleInformationalForPayloads cfg env plds) (λ _ st', actor_ok st' ∧ InboundHistory st' = InboundHistory st) st.
Proof.
  intros H. unfold handleInformationalForPayloads. stp_go; try done.
  all: (eapply stp_mono; [by (apply applyConfigUpdate_ok || apply delete_child_ok)|]); intros [] st' Hst'; try stp_go; tauto.
Qed.

Lemma processInformational_ok msgID inner st : actor_ok st → unanswered msgID st →
  stp (processInformational rng cfg env msgID inner) (λ _, actor_ok) st.
Proof.
  intros H Hu. unfold processInformational. apply stp_bind. eapply stp_mono; [by apply handleInformational_ok|].
  intros r st' [H' Hh]. destruct r as [[shutdown ack]| | |]; try done. assert (Hu' : unanswered msgID st') by (unfold unanswered; by rewrite Hh).
  apply stp_bind, stp_lift. match goal with |- match ?r with _ => _ end => destruct r as [[next body]|e| |]; try done end.
  apply stp_bind, stp_seal. intros [frames|e| |]; try done. apply stp_bind. eapply stp_mono; [by apply stp_answer|].
  intros [u|e| |] st'' H''; try done. destruct shutdown; stp_go; [|done]. 
  constructor; cbn; first [done|apply SSorted_nil|unfold MaxInboundResponseHistory; lia|set_solver].
Qed.

Lemma openRunning_ok raw st (Q : res _ → State → Prop) :
  (∀ r frags, Q r (st <| InboundFragments := frags |>)) → stp (openRunning env raw) Q st.
Proof.
  intros H a <-. unfold openRunning, openState. destruct (openProtectedRawState _ _ _ _ _) as [frags r]. apply H.
Qed.

Lemma finish_response_ok msgID inner st : actor_ok st → stp (finish_response rng rnd cfg env msgID inner) (λ _, actor_ok) st.
Proof.
  intros H. unfold finish_response, request_done. do 2 stp_step. destruct (Rekey st) as [rc|] eqn:Er.
  - destruct (RC_Kind rc).
    + apply stp_bind. eapply stp_mono; [by apply finishChildRekeyResponse_ok|]. intros [[]|e| |] st' [H' Hd]; try done.
      destruct Hd as [? Hd]; [done|]. stp_go; [done|]. by rewrite bool_decide_eq_false in Heqb.
    + apply stp_bind. eapply stp_mono; [by apply finishIKERekeyResponse_ok|]. intros [[]|e| |] st' [H' Hd]; try done.
      stp_go. apply request_done_ok; auto.
  - do 2 stp_step. stp_step.
    + apply stp_bind. apply (stp_mono _ (λ _ st', actor_ok st' ∧ Rekey st' = None)).
      * unfold finishLeaseResponse. do 2 stp_step. destruct (_ =? 0); [by apply leaseRetryOrExpire_ok|].
        destruct (cesDecodeAssigned _) as [assigned|e| |]; [|intros a Ha; by apply (leaseRetryOrExpire_ok st)|by apply stp_lift..].
        eapply stp_mono; [by apply applyConfigUpdate_ok|]. intros r st' (? & ? & ->). done.
      * intros [[]|e| |] st' [H' Hr]; try done. stp_go. by apply request_done_ok.
    + stp_go.
      * apply finishDeleteOldChild_ok; [|done|].
        -- eapply same_control_ok; [|by apply request_done_ok]. done.
        -- apply bool_decide_eq_true in Heqb0. cbn in *. apply (ok_old_phase st H). congruence.
      * eapply same_control_ok; [|by apply (request_done_ok st)]. done.
Qed.

Lemma processResponse_ok msg raw st : actor_ok st → stp (processResponse rng rnd cfg env msg raw) (λ _, actor_ok) st.
Proof.
  intros H. unfold processResponse. stp_go; try done. apply openRunning_ok. intros r frags.
  assert (H' : actor_ok (st <| InboundFragments := frags |>)) by by apply (same_control_ok st).
  destruct r as [[inner|]|e| |]; try done; [by apply finish_response_ok|by stp_step].
Qed.

Lemma processRequest_ok msg raw st : actor_ok st → stp (processRequest rng rnd cfg env msg raw) (λ _, actor_ok) st.
Proof.
  intros H. unfold processRequest. apply stp_bind, openRunning_ok. intros r frags.
  assert (H' : actor_ok (st <| InboundFragments := frags |>)) by by apply (same_control_ok st).
  destruct r as [[inner|]|e| |]; try done; [|by stp_step]. unfold dispatch_request. do 2 stp_step.
  destruct (replayCachedFrames _ _); [by stp_go|].
  match goal with |- stp (if ?b then _ else _) _ _ => destruct b eqn:Hb; [by stp_step|] end.
  apply not_stale in Hb; [|done]. destruct (_ =? _); [by apply processInformational_ok|]. destruct (_ =? _); [|by stp_step].
  apply stp_bind. eapply stp_mono; [by apply processCreateChild_ok|]. intros [] st' ?; try done. by stp_step.
Qed.

Lemma processPacket_ok ike raw st : actor_ok st → stp (processPacket rng rnd cfg env ike raw) (λ _, actor_ok) st.
Proof.
  intros H. unfold processPacket. stp_go; try done; [by apply processOldIKEPacket_ok| |by apply processRequest_ok].
  eapply stp_mono; [by apply processResponse_ok|]. intros [] st' ?; try done. by stp_step.
Qed.
End Invariant.

Section LoopInvariant.
Context {C : Crypto} {X : X25519}.
Context (rng : Z → Z → Z → res (list Z)) (rnd : Z → Z → Z).
Context (cfg : Config).

Definition loop_st (l : Loop) : State := ra_st (lp_actor l).

(** What a handler run by an actor leaves. *)
Lemma stp_run {A} (m : go Actor A) (Q : res A → State → Prop) a a' r : m a = (a', r) → stp m Q (ra_st a) → Q r (ra_st a').
Proof. intros E H. specialize (H a eq_refl). by rewrite E in H. Qed.

Lemma attempt_ok start b l : stp start (λ _, actor_ok) (loop_st l) → actor_ok (loop_st (attempt rnd cfg start b l).1).
Proof.
  intros H. unfold attempt. destruct (start (lp_actor l)) as [a r] eqn:E. apply (stp_run _ _ _ _ _ E) in H.
  destruct r as [u|e| |]; try done. destruct (_ && _); [done|]. cbn. by apply abandoned_ok.
Qed.

Lemma on_rto_ok env l : actor_ok (loop_st l) → actor_ok (loop_st (on_rto rnd cfg env l).1).
Proof.
  intros H. unfold on_rto. change (lp_actor (l <| rtoArmed := false |>)) with (lp_actor l). fold (loop_st l). destruct (negb _); [done|]. destruct (_ <=? _).
  - case_bool_decide as Hr; [by apply (abandoned_ok (loop_st l))|]. rewrite <- eq_None_not_Some in Hr.
    destruct (leasePending _); [|done]. destruct (leaseRetryOrExpire env (lp_actor l)) as [a r] eqn:E.
    apply (stp_run _ (λ _ st', actor_ok st' ∧ Rekey st' = None)) in E as [? _]; [by destruct r|by apply leaseRetryOrExpire_ok].
  - destruct (OutboundRequest _) as [c|]; [|done]. destruct (sendFrames _ _ _) as [a r] eqn:E.
    apply (stp_run _ (λ _, actor_ok)) in E; [by destruct r|by apply stp_send].
Qed.

Lemma on_old_rto_ok env l : actor_ok (loop_st l) → actor_ok (loop_st (on_old_rto cfg env l).1).
Proof.
  intros H. unfold on_old_rto. change (lp_actor (l <| oldRtoArmed := false |>)) with (lp_actor l). fold (loop_st l). destruct (OldIKE (loop_st l)) as [|old rest]; [done|].
  destruct (negb _); [done|]. destruct (_ <=? _); [by apply set_old_ok|]. destruct (Old_OutboundRequest old); [|done].
  destruct (sendFrames _ _ _) as [a r] eqn:E. apply (stp_run _ (λ _, actor_ok)) in E; [by destruct r|by apply stp_send].
Qed.

Lemma on_tick_ok env l : actor_ok (loop_st l) → actor_ok (loop_st (on_tick rng cfg env l).1).
Proof.
  intros H. unfold on_tick. fold (loop_st l). match goal with |- context [l <| lp_actor := ?x |>] => set (a := x) end.
  assert (Ha : actor_ok (ra_st a)).
  { unfold a. destruct (InboundFragments _); [|done]. destruct (_ <? _); [|done]. by apply (same_control_ok (loop_st l)). }
  clearbody a. cbn. destruct (HasExpectedResponse _); [done|]. destruct (sendKeepalive _ _ _ _) as [a' r] eqn:E.
  apply (stp_run _ (λ _, actor_ok)) in E; [by destruct r|by apply sendKeepalive_ok].
Qed.

Lemma on_lease_ok env l : actor_ok (loop_st l) → actor_ok (loop_st (on_lease rng cfg env l).1).
Proof.
  intros H. unfold on_lease. fold (loop_st l). destruct (safeToRenewLease (loop_st l)) eqn:Es; [|done]. cbn [negb].
  unfold safeToRenewLease in Es. apply andb_true_iff in Es as [Es _]. apply safeToRekey_spec in Es as (_ & Hi & _ & _).
  destruct (sendLeaseRenewal _ _ _ _) as [a r] eqn:E.
  apply (stp_run _ (λ _ st', actor_ok st' ∧ Rekey st' = None)) in E as [Ha Hr]; [|by apply sendLeaseRenewal_ok].
  destruct r as [u|e| |]; try done. destruct (is_cancel e); [done|].
  destruct (leaseRetryOrExpire env a) as [a' r] eqn:E.
  apply (stp_run _ (λ _ st', actor_ok st' ∧ Rekey st' = None)) in E as [? _]; [by destruct r|by apply leaseRetryOrExpire_ok].
Qed.

Lemma after_packet_st l : loop_st (after_packet cfg l) = loop_st l.
Proof. unfold after_packet. by destruct (_ && _); [|destruct (_ && _)]. Qed.

Lemma iterate_ok env e l : actor_ok (loop_st l) → actor_ok (loop_st (iterate rng rnd cfg env e l).1).
Proof.
  intros H. destruct e; cbn [iterate]; try done; repeat case_match; try done.
  - by apply on_rto_ok.
  - by apply on_old_rto_ok.
  - by apply on_tick_ok.
  - by apply attempt_ok, startIKERekey_ok.
  - by apply attempt_ok, startChildRekey_ok.
  - by apply attempt_ok, startChildRekey_ok.
  - unfold on_retry. repeat case_match; try done; apply attempt_ok; [by apply startChildRekey_ok|by apply startIKERekey_ok].
  - by apply on_lease_ok.
  - unfold on_packet. destruct (processPacket _ _ _ _ _ _ _) as [a r] eqn:E.
    apply (stp_run _ (λ _, actor_ok)) in E; [|by apply processPacket_ok]. destruct r; cbn [fst]; try done.
    by rewrite after_packet_st.
Qed.

Lemma run_loop_ok events l : actor_ok (loop_st l) → actor_ok (loop_st (run_loop rng rnd cfg events l).1).
Proof.
  revert l. induction events as [|[env e] events IH]; intros l H; [done|]. cbn [run_loop].
  pose proof (iterate_ok env e l H) as H'. destruct (iterate _ _ _ _ _ _) as [l' []]; [by apply IH|done].
Qed.

Lemma start_loop_st env st : loop_st (start_loop rnd cfg env st) = st.
Proof.
  unfold loop_st, start_loop, start_actor. cbn [lp_actor].
  match goal with |- ra_st (armLeaseTimer env ?a).1 = _ => apply (stp_armLeaseTimer env (λ _ st', st' = st) st eq_refl a) end. done.
Qed.
End LoopInvariant.
