(* ===== verification/RunPeer.v ===== *)
(** * The running actor and the peer

    What packets of the peer can do to the actor: nothing at all when they do
    not verify, exactly one execution when they are requests. *)

From stdpp Require Import sorting.
From S2P Require Import Prelude Suite Crypto Cipher Payload Keying Wire Protected Eap Identity State Negotiate Exchange Auth Handshake Rekey Running RunInvariant.

(* ------------------------------------------------------------------ *)
(** ** Packets that do not verify *)

(** [raw] verifies under the inbound keys of the current SA (as additional
    data and protected body, in place), or under those of the retained one
    (whose additional data is re-marshalled). *)
Inductive authentic {C : Crypto} (st : State) (raw : list Z) : Prop :=
  | authentic_current sel ek ik aad body tail plain :
      SelectedIKE st = Some sel → inboundKeyHalves (stateIKEEnvelope st) = Ok (ek, ik) →
      raw = aad ++ body ++ tail → openEncryptedBody sel ek ik aad body = Ok plain → authentic st raw
  | authentic_old old rest msg sel ek ik aad enc plain :
      OldIKE st = old :: rest → ParseMessage raw = Ok msg → Encrypted msg = Some enc →
      Old_SelectedIKE old = Some sel → inboundKeyHalves (oldIKEEnvelope old) = Ok (ek, ik) →
      rebuildPrefix msg = Ok aad → openEncryptedBody sel ek ik aad (Enc_Body enc) = Ok plain → authentic st raw.

Lemma slices_split {A} (b : list A) i j x y : slice b 0 i = Ok x → slice b i j = Ok y → ∃ z, b = x ++ y ++ z.
Proof.
  intros Hx%slice_split Hy%slice_drop. exists (drop (Z.to_nat j) b). rewrite <- Hy. exact Hx.
Qed.

Lemma raw_walk_split raw rest next t inner frag aad body :
  raw_walk raw rest next = Ok (t, inner, frag, aad, body) → ∃ tail, raw = aad ++ body ++ tail.
Proof.
  unfold raw_walk. intros H. cut (∃ tail, raw = (t, inner, frag, aad, body).1.2 ++ (t, inner, frag, aad, body).2 ++ tail); [done|].
  revert H. apply (loop_ind _ (λ _ r, ∃ tail, raw = r.1.2 ++ r.2 ++ tail)); [|done].
  intros [nxt off] [[[[t' i'] f'] a'] b'] H. unfold raw_walk_step in H. inv_ok; by eapply slices_split.
Qed.

Section Unauthenticated.
Context {C : Crypto} {X : X25519}.
Context (rng : Z → Z → Z → res (list Z)) (rnd : Z → Z → Z).
Context (cfg : Config) (env : Env).

(** Only a packet that verifies is delivered or stored for reassembly. *)
Lemma openState_unauthentic st now raw st' r : openState None st now raw = (st', r) → ¬ authentic st raw →
  st' = st ∧ ∀ x, r ≠ Ok x.
Proof.
  intros H Hn. unfold openState in H. destruct (openProtectedRawState _ _ _ _ _) as [frags r'] eqn:E.
  apply pair_equal_spec in H as [<- <-]. cut (frags = InboundFragments st ∧ ∀ x, r' ≠ Ok x).
  { intros [-> ?]. split; [by destruct st|done]. }
  unfold openProtectedRawState in E. cbn [Env_SelectedIKE Env_IKEKeys stateIKEEnvelope] in E.
  destruct (SelectedIKE st) as [sel|] eqn:Es; [|by apply pair_equal_spec in E as [<- <-]].
  destruct (St_IKEKeys st); [|by apply pair_equal_spec in E as [<- <-]].
  match type of E with match ?m with _ => _ end = _ => destruct m as [[[[[[hdr t] inner] frag] body] plain]|e| |] eqn:Em end;
    [|by apply pair_equal_spec in E as [<- <-]..].
  destruct Hn. apply bind_Ok in Em as ([h rest] & _ & Em). apply bind_Ok in Em as ([[[[t' i'] f'] aad] b'] & Ew & Em).
  apply bind_Ok in Em as ([ek ik] & Ek & Em). apply bind_Ok in Em as (p & Ep & Em). injection Em as <- <- <- <- <- <-.
  apply raw_walk_split in Ew as [tail Ew]. by eapply authentic_current.
Qed.

Lemma openRunning_unauthentic raw a a' r : openRunning env raw a = (a', r) → ¬ authentic (ra_st a) raw →
  a' = a ∧ ∀ x, r ≠ Ok x.
Proof.
  unfold openRunning. destruct (openState _ _ _ _) as [st r'] eqn:E. intros H Hn. apply pair_equal_spec in H as [<- <-].
  apply openState_unauthentic in E as [-> ?]; [|done]. split; [by destruct a|done].
Qed.

Lemma oldIKE_unauthentic st old rest msg raw : OldIKE st = old :: rest → ParseMessage raw = Ok msg →
  is_Some (Encrypted msg) → ¬ authentic st raw → ∀ plds, openProtectedMessageEnvelope (oldIKEEnvelope old) raw ≠ Ok plds.
Proof.
  intros Ho Hm [enc He] Hn plds H. unfold openProtectedMessageEnvelope in H. rewrite Hm in H. cbn [mbind res_bind] in H.
  rewrite He in H. destruct (Fragmented enc); [done|]. apply bind_Ok in H as (aad & Ha & H).
  apply bind_Ok in H as ([ek ik] & Ek & H). apply bind_Ok in H as (sel & Es & H). apply bind_Ok in H as (plain & Ep & H).
  apply Hn. cbn in Es. destruct (Old_SelectedIKE old) as [sel'|] eqn:E; [|done]. injection Es as ->. by eapply authentic_old.
Qed.

(** The step logic for actions that may only fail or do nothing. *)
Definition inert {A} (m : go Actor A) (a : Actor) (fine_result : A → Prop) : Prop :=
  (m a).1 = a ∧ ∀ x, (m a).2 = Ok x → fine_result x.

Lemma inert_bind {A B} (m : go Actor A) (k : A → go Actor B) a P :
  (m a).1 = a → (∀ x, (m a).2 = Ok x → inert (k x) a P) → inert (m ≫= k) a P.
Proof.
  intros Hm Hk. unfold inert, mbind, go_bind. destruct (m a) as [a' [x|e| |]]; cbn in *; subst; [|done..].
  by apply Hk.
Qed.

Lemma inert_fail {A B} (m : go Actor A) (k : A → go Actor B) a P :
  (m a).1 = a → (∀ x, (m a).2 ≠ Ok x) → inert (m ≫= k) a P.
Proof. intros Hm Hx. apply inert_bind; [done|]. intros x H. by destruct (Hx x). Qed.

Lemma processPacket_unauthentic ike raw a : ¬ authentic (ra_st a) raw →
  inert (processPacket rng rnd cfg env ike raw) a (λ b, b = false).
Proof.
  intros Hn. unfold processPacket. destruct ike; [|by split; [|intros ? [= <-]]]. cbn [negb].
  apply inert_bind; [done|]. intros msg Em. cbn in Em. case_bool_decide as He; [|done]. cbn [negb].
  apply inert_bind; [done|]. intros st [= <-]. apply inert_bind; [done|]. intros [] Eo; cbn in Eo.
  - unfold processOldIKEPacket. apply inert_bind; [done|]. intros st [= <-].
    destruct (OldIKE (ra_st a)) as [|old rest] eqn:Hold; [by split; [|intros ? [= <-]]|].
    do 2 (apply inert_bind; [done|]; intros ? _). destruct (_ || _); [by split; [|intros ? [= <-]]|].
    assert (Hf := oldIKE_unauthentic _ _ _ _ _ Hold Em He Hn).
    destruct (negb (Z.land _ _ =? 0)); [|by apply inert_fail].
    destruct (negb (is_ok _)); [by split; [|intros ? [= <-]]|]. destruct (_ || _); [by split; [|intros ? [= <-]]|].
    by apply inert_fail.
  - destruct (negb (Z.land _ _ =? 0)).
    + assert (Hr : inert (processResponse rng rnd cfg env msg raw) a (λ _, True)).
      { unfold processResponse. apply inert_bind; [done|]. intros st [= <-]. apply inert_bind; [done|]. intros [] _; cbn [negb]; [|done].
        destruct (openRunning env raw a) as [a' r] eqn:E. pose proof (openRunning_unauthentic _ _ _ _ E Hn) as [-> ?].
        apply inert_fail; by rewrite E. }
      destruct Hr as [Hr _]. apply inert_bind; [done|]. intros x _. by split; [|intros ? [= <-]].
    + unfold processRequest. destruct (openRunning env raw a) as [a' r] eqn:E. pose proof (openRunning_unauthentic _ _ _ _ E Hn) as [-> ?].
      apply inert_fail; by rewrite E.
Qed.
End Unauthenticated.

Lemma ParseMessage_spis raw msg : bytes raw → ParseMessage raw = Ok msg →
  len (Wire.InitiatorSPI (Msg_Header msg)) = 8 ∧ len (Wire.ResponderSPI (Msg_Header msg)) = 8.
Proof.
  intros Hb H. unfold ParseMessage in H. apply bind_Ok in H as ([h rest] & Eh & H). apply bind_Ok in H as ([ps enc] & _ & H).
  injection H as <-. apply ParseHeader_inv in Eh as (W & _); [|done]. destruct W. done.
Qed.

(** On usable keys an arbitrary packet does not make the actor panic before it
    verifies. *)
Lemma processPacket_no_panic {C : Crypto} {L : CryptoLaws} {X : X25519} rng rnd cfg env ike raw a enc ig k :
  env_ok (stateIKEEnvelope (ra_st a)) enc ig k → OldIKE (ra_st a) = [] → bytes raw → ¬ authentic (ra_st a) raw →
  fine (processPacket rng rnd cfg env ike raw a).2.
Proof.
  intros Henv Ho Hb Hn. unfold processPacket. destruct ike; [|done]. cbn [negb]. unfold mbind, go_bind, lift.
  pose proof (ParseMessage_fine raw) as Hf. destruct (ParseMessage raw) as [msg|?| |] eqn:Em; try done.
  destruct (negb (bool_decide _)); [done|]. unfold get_st, gets, on_old_sa. rewrite Ho.
  assert (Hopen : fine (openRunning env raw a).2 ∧ ∀ x, (openRunning env raw a).2 ≠ Ok x).
  { destruct (openRunning env raw a) as [a' r] eqn:E. pose proof (openRunning_unauthentic _ _ _ _ _ E Hn) as [_ Hx].
    split; [|done]. unfold openRunning, openState in E.
    pose proof (protected_robust _ _ _ _ None (InboundFragments (ra_st a)) (env_now env) raw Henv Hb) as Hr.
    destruct (openProtectedRawState _ _ _ _ _) as [fr r']. by apply pair_equal_spec in E as [_ <-]. }
  destruct Hopen as [Hof Hox]. destruct (ParseMessage_spis raw msg Hb Em) as [L1 L2]. destruct (negb (Z.land _ _ =? 0)).
  - unfold processResponse, mbind, go_bind, lift, get_st, gets, response_expected, SPI_Uint64.
    pose proof (beUint64_fine (Wire.InitiatorSPI (Msg_Header msg))) as F1. pose proof (beUint64_fine (Wire.ResponderSPI (Msg_Header msg))) as F2.
    unfold mbind, res_bind. destruct (beUint64 (Wire.InitiatorSPI _)); [|done|by destruct F1; lia..].
    destruct (beUint64 (Wire.ResponderSPI _)); [|done|by destruct F2; lia..]. destruct (negb _); [done|].
    destruct (openRunning env raw a) as [a' [x|?| |]]; [by destruct (Hox x)|done..].
  - unfold processRequest, mbind, go_bind. destruct (openRunning env raw a) as [a' [x|?| |]]; [by destruct (Hox x)|done..].
Qed.

(* ------------------------------------------------------------------ *)
(** ** Answers and duplicates *)

Lemma find_reverse_sorted h e : StronglySorted Z.lt (Cached_MessageID <$> h) → e ∈ h →
  List.find (λ x, Cached_MessageID x =? Cached_MessageID e) (reverse h) = Some e.
Proof.
  induction h as [|x h IH] using rev_ind; intros Hs He; [by apply not_elem_of_nil in He|].
  rewrite reverse_app. cbn. rewrite fmap_app in Hs. cbn in Hs.
  assert (Hx : ∀ y, y ∈ h → Cached_MessageID y < Cached_MessageID x).
  { intros y Hy. apply (list_elem_of_fmap_2 Cached_MessageID) in Hy. clear IH He.
    induction (Cached_MessageID <$> h) as [|z l IH]; [by apply not_elem_of_nil in Hy|]. inversion Hs as [|?? Hs' Hf]; subst.
    apply elem_of_cons in Hy as [->|Hy]; [|by apply IH]. rewrite Forall_app, Forall_singleton in Hf. tauto. }
  apply elem_of_app in He as [He|He%list_elem_of_singleton]; [|subst; by rewrite Z.eqb_refl].
  specialize (Hx e He) as Hlt. destruct (Z.eqb_spec (Cached_MessageID x) (Cached_MessageID e)); [lia|]. apply IH; [|done].
  clear -Hs. induction (Cached_MessageID <$> h) as [|z l IH]; [constructor|]. inversion Hs as [|?? Hs' Hf]; subst.
  constructor; [by apply IH|]. rewrite Forall_app in Hf. tauto.
Qed.

Lemma replayCachedFrames_spec st msgID frames : actor_ok st → mkCachedResponse msgID frames ∈ InboundHistory st →
  replayCachedFrames st msgID = Some frames.
Proof.
  intros H He. unfold replayCachedFrames. pose proof (find_reverse_sorted _ _ (ok_history st H) He) as Hf. cbn in Hf.
  by rewrite Hf.
Qed.

Lemma replayCachedFrames_cached st msgID frames : replayCachedFrames st msgID = Some frames →
  mkCachedResponse msgID frames ∈ InboundHistory st.
Proof.
  unfold replayCachedFrames. intros (e & He & ->)%fmap_Some. apply List.find_some in He as [He Hid].
  apply Z.eqb_eq in Hid. subst msgID. apply list_elem_of_In in He. rewrite elem_of_reverse in He. by destruct e.
Qed.

Section Answers.
Context {C : Crypto} {X : X25519}.
Context (rng : Z → Z → Z → res (list Z)) (rnd : Z → Z → Z).
Context (cfg : Config) (env : Env).

(** [m] puts nothing on the wire. *)
Definition quiet {A} (m : go Actor A) : Prop := ∀ a, ra_sent (m a).1 = ra_sent a.

Lemma quiet_bind {A B} (m : go Actor A) (k : A → go Actor B) : quiet m → (∀ x, quiet (k x)) → quiet (m ≫= k).
Proof.
  intros Hm Hk a. specialize (Hm a). unfold mbind, go_bind. destruct (m a) as [a' [x|e| |]]; cbn in *; [|done..].
  by rewrite Hk.
Qed.

Lemma quiet_on_err {A} (m : go Actor A) h : quiet m → quiet h → quiet (on_err m h).
Proof.
  intros Hm Hh a. specialize (Hm a). unfold on_err. destruct (m a) as [a' [x|e| |]]; cbn in *; [done| |done..]. by rewrite Hh.
Qed.

(** The answer to the peer's request [mid] is kept for a retransmission of it,
    with the SA that sent it. *)
Definition cached_answer (st : State) (mid : Z) (frames : list (list Z)) : Prop :=
  mkCachedResponse mid frames ∈ InboundHistory st ∨
  ∃ old, old ∈ OldIKE st ∧ mkCachedResponse mid frames ∈ Old_InboundHistory old.

(** [m] answers the request [mid] exactly once, and an error answers nothing. *)
Definition answering {A} (mid : Z) (m : go Actor A) : Prop := ∀ a a' r, m a = (a', r) →
  match r with
  | Ok _ => ∃ frames, ra_sent a' = ra_sent a ++ frames ∧ cached_answer (ra_st a') mid frames
  | _ => ra_sent a' = ra_sent a
  end.

Lemma answering_bind {A B} mid (m : go Actor A) (k : A → go Actor B) :
  quiet m → (∀ x, answering mid (k x)) → answering mid (m ≫= k).
Proof.
  intros Hm Hk a a' r. specialize (Hm a). unfold mbind, go_bind. destruct (m a) as [a1 [x|e| |]]; cbn in Hm.
  - intros H. apply Hk in H. by rewrite Hm in H.
  - intros H. by apply pair_equal_spec in H as [<- <-].
  - intros H. by apply pair_equal_spec in H as [<- <-].
  - intros H. by apply pair_equal_spec in H as [<- <-].
Qed.

Lemma answering_fail {A} mid (m : go Actor A) : quiet m → (∀ a x, (m a).2 ≠ Ok x) → answering mid m.
Proof.
  intros Hm Hf a a' r H. specialize (Hm a). specialize (Hf a). rewrite H in Hm, Hf. cbn in *. destruct r; [by destruct (Hf a0)|done..].
Qed.

Ltac quiet_step :=
  match goal with
  | |- quiet (_ ≫= _) => apply quiet_bind; [|intros ?]
  | |- quiet (if ?b then _ else _) => destruct b
  | |- quiet (match ?x with _ => _ end) => destruct x
  | |- quiet (on_err _ _) => apply quiet_on_err
  | |- quiet _ => by intros []
  end.
Ltac quiet_go := repeat quiet_step.

Lemma quiet_try_update u : quiet (try_update cfg env u).
Proof. unfold try_update. by destruct (_ && _). Qed.
Lemma quiet_installChild child keys sel : quiet (installChild cfg env child keys sel).
Proof. unfold installChild. quiet_go. Qed.
Lemma quiet_resetChildSoft : quiet (resetChildSoft rnd cfg env).
Proof. by intros []. Qed.
Lemma quiet_abandonRekey b : quiet (abandonRekey rnd cfg b).
Proof. unfold abandonRekey. quiet_go. Qed.
Lemma quiet_seal limit exchange msgID next plain flags : quiet (seal rng limit exchange msgID next plain flags).
Proof. by intros []. Qed.
Lemma quiet_armLeaseTimer : quiet (armLeaseTimer env).
Proof. unfold armLeaseTimer. quiet_go. Qed.
Lemma quiet_applyConfigUpdate incoming present mode : quiet (applyConfigUpdate cfg env incoming present mode).
Proof.
  unfold applyConfigUpdate. quiet_step; [quiet_go|]. quiet_step; [quiet_go|]. quiet_step.
  - destruct (0 <? _); [apply quiet_armLeaseTimer|quiet_go].
  - destruct (assigned_changed _ _); [apply quiet_try_update|quiet_go].
Qed.

Lemma quiet_delete_child spi : quiet (delete_child cfg env spi).
Proof. unfold delete_child, dataplaneChildDeleted. quiet_go; apply quiet_try_update. Qed.

Lemma quiet_handleInformational plds : quiet (handleInformationalForPayloads cfg env plds).
Proof.
  unfold handleInformationalForPayloads. quiet_go; apply quiet_applyConfigUpdate || apply quiet_delete_child.
Qed.

Context (Hqueue : env_queue env = None).

Lemma answering_answer mid frames : answering mid (answer env mid frames).
Proof.
  intros a a' r. unfold answer, sendFrames. rewrite Hqueue. intros H. cbn in H. apply pair_equal_spec in H as [<- <-].
  exists frames. split; [done|]. left. cbn. rewrite length_app. cbn.
  destruct (decide (length (InboundHistory (ra_st a)) < 4)%nat).
  - replace (_ - _)%nat with 0%nat by (unfold MaxInboundResponseHistory; lia). rewrite drop_0. set_solver.
  - rewrite drop_app_le by (unfold MaxInboundResponseHistory; lia). set_solver.
Qed.

Lemma answering_notify mid n : answering mid (answer_notify rng cfg env mid n).
Proof.
  unfold answer_notify. apply answering_bind; [quiet_go|]. intros body. apply answering_bind; [apply quiet_seal|]. intros frames.
  apply answering_answer.
Qed.

Lemma answering_accept_child mid target old sa rr : answering mid (accept_child_rekey rng rnd cfg env mid target old sa rr).
Proof.
  unfold accept_child_rekey. do 2 (apply answering_bind; [quiet_go|]; intros ?).
  destruct (selectPeerESPProposal _ _ _ _) as [[selected sel]|e| |];
    [|apply answering_notify|apply answering_fail; [quiet_go|done]..].
  do 4 (apply answering_bind; [quiet_go|]; intros ?). destruct x4 as [ke shared]. apply answering_bind; [quiet_go|]. intros body.
  apply answering_bind; [apply quiet_seal|]. intros frames. do 5 (apply answering_bind; [quiet_go|]; intros ?).
  apply answering_bind; [apply quiet_installChild|]. intros _. apply answering_bind; [quiet_go|]. intros _.
  apply answering_bind; [apply quiet_resetChildSoft|]. intros _. apply answering_answer.
Qed.

Lemma answering_accept_ike mid inner : answering mid (accept_ike_rekey rng rnd cfg env mid inner).
Proof.
  unfold accept_ike_rekey. apply answering_bind; [quiet_go|]. intros rr.
  destruct (rr_sa rr); [|apply answering_fail; [quiet_go|done]]. destruct (_ || _); [apply answering_fail; [quiet_go|done]|].
  do 2 (apply answering_bind; [quiet_go|]; intros ?).
  destruct (selectPeerIKEProposal _ _ _) as [[[selected sel] spi]|e| |];
    [|apply answering_notify|apply answering_fail; [quiet_go|done]..].
  do 4 (apply answering_bind; [quiet_go|]; intros ?). destruct x4 as [dh ke]. do 2 (apply answering_bind; [quiet_go|]; intros ?).
  apply answering_bind; [apply quiet_seal|]. intros frames. do 7 (apply answering_bind; [quiet_go|]; intros ?).
  intros a a' r. unfold sendFrames. rewrite Hqueue. intros H. cbn in H. apply pair_equal_spec in H as [<- <-].
  exists frames. split; [done|]. right. cbn. destruct (OldIKE (ra_st a)); cbn; (eexists; split; [by apply elem_of_cons; left|]); cbn; set_solver.
Qed.

Lemma answering_createChild mid inner : answering mid (processCreateChild rng rnd cfg env mid inner).
Proof.
  unfold processCreateChild. destruct (negb _).
  - unfold processPeerIKERekey, sendCreateChildTemporaryFailure. apply answering_bind; [quiet_go|]. intros st.
    repeat match goal with |- answering _ (match ?x with _ => _ end) => destruct x end; try apply answering_notify; try apply answering_accept_ike.
    apply answering_bind; [apply quiet_abandonRekey|]. intros _. apply answering_accept_ike.
  - unfold processPeerChildRekey, sendCreateChildTemporaryFailure. apply answering_bind; [quiet_go|]. intros st.
    apply answering_bind; [quiet_go|]. intros [n|]; [|apply answering_fail; [quiet_go|done]].
    destruct (_ || _); [apply answering_fail; [quiet_go|done]|]. apply answering_bind; [quiet_go|]. intros target.
    destruct (ActiveChild st) as [old|]; [|apply answering_notify]. destruct (_ && _); [apply answering_notify|].
    apply answering_bind; [quiet_go|]. intros rr. destruct (rr_sa rr); [|apply answering_fail; [quiet_go|done]].
    destruct (_ || _); [apply answering_fail; [quiet_go|done]|]. destruct (_ || _); [apply answering_fail; [quiet_go|done]|].
    repeat match goal with |- answering _ (match ?x with _ => _ end) => destruct x end; try apply answering_notify; try apply answering_accept_child.
    apply answering_bind; [apply quiet_abandonRekey|]. intros _. apply answering_accept_child.
Qed.

(** A clean shutdown drops the cache with the session. *)
Lemma processInformational_answers mid inner a a' r : processInformational rng cfg env mid inner a = (a', r) →
  match r with
  | Ok shutdown => ∃ frames, ra_sent a' = ra_sent a ++ frames ∧ (shutdown = true ∨ cached_answer (ra_st a') mid frames)
  | _ => ra_sent a' = ra_sent a
  end.
Proof.
  unfold processInformational. intros H.
  assert (Hq : answering mid ('(shutdown, cfgAck) ← handleInformationalForPayloads cfg env inner;
    '(next, responseBody) ← lift (if (cfgAck : bool) then
                                  body ← AppendConfigPayload [] (mkConfigPayload ConfigTypeAck []);
                                  Ok (PayloadTypeCP, cepSinglePayload body)
                                else Ok (PayloadTypeNone, []));
    frames ← seal rng None ExchangeInformational mid next responseBody responseFlags;
    answer env mid frames)).
  { apply answering_bind; [apply quiet_handleInformational|]. intros [shutdown ack]. apply answering_bind; [quiet_go|].
    intros [next body]. apply answering_bind; [apply quiet_seal|]. intros frames. apply answering_answer. }
  specialize (Hq a). unfold mbind, go_bind in H, Hq.
  destruct (handleInformationalForPayloads _ _ _ _) as [a1 [[shutdown ack]|e| |]];
    [|apply pair_equal_spec in H as [<- <-]; exact (Hq _ _ eq_refl)..].
  destruct (lift _ a1) as [a2 [[next body]|e| |]]; [|apply pair_equal_spec in H as [<- <-]; exact (Hq _ _ eq_refl)..].
  destruct (seal _ _ _ _ _ _ _ a2) as [a3 [frames|e| |]]; [|apply pair_equal_spec in H as [<- <-]; exact (Hq _ _ eq_refl)..].
  destruct (answer env mid frames a3) as [a4 [[]|e| |]]; [|apply pair_equal_spec in H as [<- <-]; exact (Hq _ _ eq_refl)..].
  destruct (Hq _ _ eq_refl) as (fr & Hs & Hc).
  destruct shutdown; apply pair_equal_spec in H as [<- <-]; exists fr; auto.
Qed.
End Answers.
