(* ===== verification/RunTunnel.v ===== *)
(** * The running actor and the data plane

    How the child SA of the actor can change in one iteration of the loop, and
    the retransmission of requests the peer does not answer. *)

From stdpp Require Import sorting.
From S2P Require Import Prelude Suite Crypto Cipher Payload Keying Wire Protected Eap Identity State Negotiate Exchange Auth Handshake Rekey Running RunInvariant RunPeer.

(* ------------------------------------------------------------------ *)
(** ** The tunnel *)

Section Tunnel.
Context {C : Crypto} {X : X25519}.
Context (rng : Z → Z → Z → res (list Z)) (rnd : Z → Z → Z).
Context (cfg : Config) (env : Env).

(** [m] leaves the active child alone ([calm2]: the replaced one too); the
    data plane may be told something. *)
Definition calm {A} (m : go Actor A) : Prop := ∀ a,
  ActiveChild (ra_st (m a).1) = ActiveChild (ra_st a) ∧ ra_updates a `prefix_of` ra_updates (m a).1.
Definition calm2 {A} (m : go Actor A) : Prop := ∀ a,
  OldChild (ra_st (m a).1) = OldChild (ra_st a) ∧
  ActiveChild (ra_st (m a).1) = ActiveChild (ra_st a) ∧ ra_updates a `prefix_of` ra_updates (m a).1.

Lemma calm2_calm {A} (m : go Actor A) : calm2 m → calm m.
Proof. intros H a. apply H. Qed.

Lemma calm_bind {A B} (m : go Actor A) (k : A → go Actor B) : calm m → (∀ x, calm (k x)) → calm (m ≫= k).
Proof.
  intros Hm Hk a. specialize (Hm a) as [Ha Hu]. unfold mbind, go_bind. destruct (m a) as [a' [x|e| |]]; cbn in *; try done.
  destruct (Hk x a') as [Ha' Hu']. split; [congruence|by etrans].
Qed.
Lemma calm2_bind {A B} (m : go Actor A) (k : A → go Actor B) : calm2 m → (∀ x, calm2 (k x)) → calm2 (m ≫= k).
Proof.
  intros Hm Hk a. specialize (Hm a) as (Ho & Ha & Hu). unfold mbind, go_bind. destruct (m a) as [a' [x|e| |]]; cbn in *; try done.
  destruct (Hk x a') as (Ho' & Ha' & Hu'). split; [congruence|]. split; [congruence|by etrans].
Qed.
Lemma calm_on_err {A} (m : go Actor A) h : calm m → calm h → calm (on_err m h).
Proof.
  intros Hm Hh a. specialize (Hm a) as [Ha Hu]. unfold on_err. destruct (m a) as [a' [x|e| |]]; cbn in *; try done.
  destruct (Hh a') as [Ha' Hu']. split; [congruence|by etrans].
Qed.

Ltac calm_leaf := intros []; repeat split; first [done | reflexivity | by eexists].
Ltac calm_step :=
  match goal with
  | |- calm (_ ≫= _) => apply calm_bind; [|intros ?]
  | |- calm2 (_ ≫= _) => apply calm2_bind; [|intros ?]
  | |- calm (if ?b then _ else _) => destruct b
  | |- calm2 (if ?b then _ else _) => destruct b
  | |- calm (match ?x with _ => _ end) => destruct x
  | |- calm2 (match ?x with _ => _ end) => destruct x
  | |- calm (on_err _ _) => apply calm_on_err
  | |- _ => calm_leaf
  end.
Ltac calm_go := repeat calm_step.

Lemma calm_sendFrames fs : calm2 (sendFrames env fs).
Proof. intros []. unfold sendFrames. destruct (env_queue env); done. Qed.
Lemma calm_try_update u : calm2 (try_update cfg env u).
Proof. unfold try_update. calm_go. Qed.
Lemma calm_installChild child keys sel : calm2 (installChild cfg env child keys sel).
Proof. unfold installChild. calm_go. Qed.
Lemma calm_answer mid frames : calm2 (answer env mid frames).
Proof. unfold answer, rememberResponse. calm_step; [apply calm_sendFrames|calm_go]. Qed.
Lemma calm_answer_notify mid n : calm2 (answer_notify rng cfg env mid n).
Proof. unfold answer_notify. do 2 (calm_step; [calm_go|]). apply calm_answer. Qed.
Lemma calm_abandonRekey b : calm (abandonRekey rnd cfg b).
Proof. unfold abandonRekey. calm_go. Qed.
Lemma calm_seal limit exchange msgID next plain flags : calm2 (seal rng limit exchange msgID next plain flags).
Proof. unfold seal. calm_go. Qed.
Lemma calm_armLeaseTimer : calm2 (armLeaseTimer env).
Proof. unfold armLeaseTimer. calm_go. Qed.

Lemma calm_applyConfigUpdate incoming present mode : calm (applyConfigUpdate cfg env incoming present mode).
Proof.
  unfold applyConfigUpdate. do 2 (calm_step; [calm_go|]). calm_step.
  - destruct (0 <? _); [apply calm2_calm, calm_armLeaseTimer|calm_go].
  - destruct (assigned_changed _ _); [apply calm2_calm, calm_try_update|calm_go].
Qed.

Lemma calm_sendKeepalive : calm (sendKeepalive rng cfg env).
Proof. unfold sendKeepalive, beginRequest, checkpoint. calm_go. apply calm2_calm, calm_sendFrames. Qed.
Lemma calm_sendLeaseRenewal : calm (sendLeaseRenewal rng cfg env).
Proof. unfold sendLeaseRenewal, beginRequest, checkpoint. calm_go. apply calm2_calm, calm_sendFrames. Qed.
Lemma calm_leaseRetryOrExpire : calm (leaseRetryOrExpire env).
Proof. unfold leaseRetryOrExpire. calm_go. Qed.
Lemma calm_startChildRekey t : calm (startChildRekey rng cfg env t).
Proof. unfold startChildRekey, beginRequest. calm_go. apply calm2_calm, calm_sendFrames. Qed.
Lemma calm_startIKERekey t : calm (startIKERekey rng cfg env t).
Proof. unfold startIKERekey, beginRequest. calm_go. apply calm2_calm, calm_sendFrames. Qed.
Lemma calm_sendDeleteOldChild : calm2 (sendDeleteOldChild rng cfg env).
Proof. unfold sendDeleteOldChild, beginRequest. calm_go. apply calm_sendFrames. Qed.
Lemma calm_finishDeleteOldChild : calm (finishDeleteOldChild cfg env).
Proof. unfold finishDeleteOldChild, dataplaneChildDeleted. calm_go. apply calm2_calm, calm_try_update. Qed.
Lemma calm_resetSoft : calm2 (resetChildSoft rnd cfg env) ∧ calm2 (resetIkeSoft rnd cfg env).
Proof. unfold resetChildSoft, resetIkeSoft, reset_soft. split; calm_go. Qed.
Lemma calm_set_old f : calm2 (set_old f).
Proof. unfold set_old. calm_go. Qed.
Lemma calm_sendOldIKEDelete : calm (sendOldIKEDelete rng cfg env).
Proof. unfold sendOldIKEDelete. calm_go; apply calm2_calm; (apply calm_set_old || apply calm_sendFrames). Qed.
Lemma calm_abandon {A} (m : go Actor A) : calm m → calm (abandon rnd cfg m).
Proof. intros H. apply calm_on_err; [done|apply calm_abandonRekey]. Qed.

Lemma calm_finishIKERekeyResponse inner : calm (finishIKERekeyResponse rng rnd cfg env inner).
Proof.
  unfold finishIKERekeyResponse. calm_step; [calm_go|]. destruct (Rekey _) as [rc|]; [|calm_go]. destruct (RC_Kind rc); [calm_go|].
  apply calm_bind; [apply calm_abandon; calm_go|]. intros [[[sel spi] nr] ker].
  destruct (deriveIKERekeyKeys _ _ _ _ _ _ _) as [rc' r]. calm_step; [calm_go|].
  apply calm_bind; [apply calm_abandon; calm_go|]. intros [keys seed]. calm_step; [calm_go|].
  apply calm_bind; [apply calm2_calm, calm_resetSoft|]. intros _. apply calm_sendOldIKEDelete.
Qed.

Lemma calm_finishLeaseResponse inner : calm (finishLeaseResponse cfg env inner).
Proof.
  unfold finishLeaseResponse. calm_step; [calm_go|]. destruct (_ =? 0); [apply calm_leaseRetryOrExpire|].
  destruct (cesDecodeAssigned _); [apply calm_applyConfigUpdate|intros a; apply calm_leaseRetryOrExpire|calm_go..].
Qed.

Lemma calm_accept_ike mid inner : calm (accept_ike_rekey rng rnd cfg env mid inner).
Proof.
  unfold accept_ike_rekey. repeat first [apply calm2_calm, calm_answer_notify | apply calm2_calm, calm_seal |
    apply calm2_calm, calm_sendFrames | apply calm2_calm, calm_set_old | apply calm2_calm, calm_resetSoft | calm_step].
Qed.

Lemma calm_processOldIKEPacket msg raw : calm (processOldIKEPacket rng cfg env msg raw).
Proof.
  unfold processOldIKEPacket, finishOldIKEDelete.
  repeat first [apply calm2_calm, calm_sendFrames | apply calm2_calm, calm_set_old | calm_step].
Qed.

Lemma calm_processPeerIKERekey mid inner : calm (processPeerIKERekey rng rnd cfg env mid inner).
Proof.
  unfold processPeerIKERekey, sendCreateChildTemporaryFailure.
  repeat first [apply calm2_calm, calm_answer_notify | apply calm_accept_ike | apply calm_abandonRekey | calm_step].
Qed.

(** The active child as before, or a new one in its place: acknowledged by the
    data plane first, with the old one retained. *)
Definition replaced (a a' : Actor) : Prop :=
  (ActiveChild (ra_st a') = ActiveChild (ra_st a)) ∨
  ∃ old child keys sel us, ActiveChild (ra_st a) = Some old ∧ ActiveChild (ra_st a') = Some child ∧
    OldChild (ra_st a') = Some old ∧ env_install env = Acked ∧
    ra_updates a' = ra_updates a ++ us ∧ UpdateChildInstalled child keys sel ∈ us.

Lemma installed_replaced a a1 a2 child keys sel old : ActiveChild (ra_st a) = Some old → ra_updates a `prefix_of` ra_updates a1 →
  ∀ a1', installChild cfg env child keys sel a1 = (a1', Ok tt) →
  ActiveChild (ra_st a2) = Some child → OldChild (ra_st a2) = Some old → ra_updates a1' `prefix_of` ra_updates a2 →
  replaced a a2.
Proof.
  intros Ha [us Hu] a1' Hi H1 H2 [vs Hv]. right. unfold installChild in Hi. destruct (DataUpdates cfg); [|done]. cbn [negb] in Hi.
  destruct (env_install env); try done. apply pair_equal_spec in Hi as [<- _]. cbn in Hv.
  exists old, child, keys, sel, (us ++ UpdateChildInstalled child keys sel :: vs). repeat (split; [done|]).
  split; [rewrite Hv, Hu; by rewrite <- !app_assoc|set_solver].
Qed.

(** [a] has become [a1] without a change of the child. *)
Definition still (a a1 : Actor) : Prop :=
  ActiveChild (ra_st a1) = ActiveChild (ra_st a) ∧ ra_updates a `prefix_of` ra_updates a1.

Lemma replaced_bind {A B} (m : go Actor A) (k : A → go Actor B) a0 a : calm m → still a0 a →
  (∀ x a1, m a = (a1, Ok x) → still a0 a1 → replaced a0 (k x a1).1) → replaced a0 ((m ≫= k) a).1.
Proof.
  intros Hm [Hs Hp] Hk. destruct (Hm a) as [Ha Hu]. unfold mbind, go_bind. destruct (m a) as [a1 [x|e| |]]; cbn in *;
    [|left; congruence..].
  apply Hk; [done|]. split; [congruence|by etrans].
Qed.

Lemma still_refl a : still a a.
Proof. by split. Qed.
Hint Resolve still_refl : core.

Lemma replaced_still {A} (m : go Actor A) a0 a : still a0 a → calm m → replaced a0 (m a).1.
Proof. intros [Hs _] Hm. left. destruct (Hm a) as [-> _]. done. Qed.

Lemma finishChild_replaced inner a : replaced a (finishChildRekeyResponse rng rnd cfg env inner a).1.
Proof.
  unfold finishChildRekeyResponse. apply replaced_bind; [calm_go|done|]. intros st a1 E [Ha Hu].
  apply pair_equal_spec in E as [<- E]. injection E as <-.
  destruct (Rekey (ra_st a)) as [rc|]; [|by left]. destruct (RC_Kind rc); [|by left].
  destruct (RC_OldChild rc) as [old|]; [|by left].
  apply replaced_bind; [apply calm_abandon; calm_go|done|]. intros resp a1 _ Hs.
  destruct (_ || _); [apply replaced_still; [done|apply calm_abandon; calm_go]|].
  destruct (deriveChildRekeyKeys _ _ _ _ _ _) as [rc' r].
  apply replaced_bind; [calm_go|done|]. intros _ a2 _ Hs2.
  apply replaced_bind; [apply calm_abandon; calm_go|done|]. intros keys a3 _ Hs3.
  apply replaced_bind; [calm_go|done|]. intros inbound a4 _ Hs4.
  case_bool_decide as Hact; cbn [negb]; [|apply replaced_still; [done|apply calm_abandon; calm_go]].
  set (child := mkChildSA _ _ _ _ _). apply replaced_bind; [apply calm_abandon, calm2_calm, calm_installChild|done|].
  intros [] a5 Ei _. unfold abandon, on_err in Ei.
  destruct (installChild cfg env child keys (Resp_Selection resp) a4) as [a5' [[]|e| |]] eqn:Ei'; try done.
  apply pair_equal_spec in Ei as [-> _].
  assert (Hc : calm2 (_ ← resetChildSoft rnd cfg env; sendDeleteOldChild rng cfg env)).
  { apply calm2_bind; [apply calm_resetSoft|]. intros _. apply calm_sendDeleteOldChild. }
  match goal with |- replaced a ((set_st ?f ≫= λ _, ?k) a5).1 => set (a6 := (set_st f a5).1); change (replaced a (k a6).1) end.
  destruct (Hc a6) as (Ho & Hac & Hp). eapply installed_replaced; [exact Hact|apply Hs4|exact Ei'|by rewrite Hac|by rewrite Ho|exact Hp].
Qed.

Lemma accept_child_replaced mid target old sa rr a0 a : still a0 a → ActiveChild (ra_st a0) = Some old →
  replaced a0 (accept_child_rekey rng rnd cfg env mid target old sa rr a).1.
Proof.
  intros Hs Hact. unfold accept_child_rekey. do 2 (apply replaced_bind; [calm_go|done|]; intros ? ? _ ?).
  destruct (selectPeerESPProposal _ _ _ _) as [[selected sel]|e| |];
    [|apply replaced_still; [done|apply calm2_calm, calm_answer_notify]|apply replaced_still; [done|calm_go]..].
  do 4 (apply replaced_bind; [calm_go|done|]; intros ? ? _ ?). destruct x4 as [ke shared].
  apply replaced_bind; [calm_go|done|]. intros body ? _ ?. apply replaced_bind; [apply calm2_calm, calm_seal|done|]. intros frames ? _ ?.
  do 5 (apply replaced_bind; [calm_go|done|]; intros ? ? _ ?). set (child := mkChildSA _ _ _ _ _).
  apply replaced_bind; [apply calm2_calm, calm_installChild|done|]. intros [] b5 Ei _.
  assert (Hc : calm2 (_ ← resetChildSoft rnd cfg env; answer env mid frames)).
  { apply calm2_bind; [apply calm_resetSoft|]. intros _. apply calm_answer. }
  match goal with |- replaced a0 ((set_st ?f ≫= λ _, ?k) b5).1 => set (b6 := (set_st f b5).1); change (replaced a0 (k b6).1) end.
  destruct (Hc b6) as (Ho & Hac & Hp).
  match goal with H : still a0 ?x, E : installChild _ _ _ _ _ ?x = _ |- _ =>
    eapply installed_replaced; [exact Hact|apply H|exact E|by rewrite Hac|by rewrite Ho|exact Hp] end.
Qed.

Lemma processPeerChildRekey_replaced mid inner a : replaced a (processPeerChildRekey rng rnd cfg env mid inner a).1.
Proof.
  unfold processPeerChildRekey, sendCreateChildTemporaryFailure. apply replaced_bind; [calm_go|done|]. intros st a1 E _.
  apply pair_equal_spec in E as [<- E]. injection E as <-. apply replaced_bind; [calm_go|done|]. intros n a1 _ Hs.
  destruct n as [n|]; [|apply replaced_still; [done|calm_go]]. destruct (_ || _); [apply replaced_still; [done|calm_go]|].
  apply replaced_bind; [calm_go|done|]. intros target a2 _ Hs2. clear Hs.
  destruct (ActiveChild (ra_st a)) as [old|] eqn:Ea; [|apply replaced_still; [done|apply calm2_calm, calm_answer_notify]].
  destruct (_ && _); [apply replaced_still; [done|apply calm2_calm, calm_answer_notify]|].
  apply replaced_bind; [calm_go|done|]. intros rr a3 _ Hs3. destruct (rr_sa rr) as [sa|]; [|apply replaced_still; [done|calm_go]].
  destruct (_ || _); [apply replaced_still; [done|calm_go]|]. destruct (_ || _); [apply replaced_still; [done|calm_go]|].
  repeat match goal with |- replaced _ (match ?x with _ => _ end _).1 => destruct x end;
    by (apply accept_child_replaced || (apply replaced_still; [done|apply calm2_calm, calm_answer_notify])).
Qed.

Lemma finish_response_replaced mid inner a : replaced a (finish_response rng rnd cfg env mid inner a).1.
Proof.
  unfold finish_response, request_done. apply replaced_bind; [calm_go|done|]. intros st a1 E _.
  apply pair_equal_spec in E as [<- E]. injection E as <-. destruct (Rekey (ra_st a)) as [rc|].
  - destruct (RC_Kind rc).
    + assert (Hr := finishChild_replaced inner a). unfold mbind, go_bind.
      destruct (finishChildRekeyResponse _ _ _ _ _ a) as [a2 [u|e| |]]; cbn [fst] in Hr; try exact Hr.
      cbn. destruct (bool_decide _); [exact Hr|]. exact Hr.
    + apply replaced_still; [done|]. apply calm_bind; [apply calm_finishIKERekeyResponse|]. intros; calm_go.
  - apply replaced_still; [done|]. calm_step; [calm_go|]. destruct x.
    + apply calm_bind; [apply calm_finishLeaseResponse|]. intros; calm_go.
    + do 2 (calm_step; [calm_go|]). destruct (bool_decide _); [apply calm_finishDeleteOldChild|calm_go].
Qed.

Lemma get_bind {A} (k : State → go Actor A) a : (get_st ≫= k) a = k (ra_st a) a.
Proof. done. Qed.

(** A request that deletes the child [c] or the IKE SA, and nothing else. *)
Definition deleted_by (inner : list Wire.Payload) (c : ChildSA) : Prop :=
  ∃ d, only_delete inner None = Ok d ∧
    (Delete_ProtocolID d = DeleteProtocolIKE ∨ (Delete_ProtocolID d = DeleteProtocolESP ∧ SPIs d = [OutboundSPI c])).

(** [a'] has the child of [a], or lost it to a DELETE in [inner]. *)
Definition kept_or_deleted (inner : list Wire.Payload) (a a' : Actor) : Prop :=
  ActiveChild (ra_st a') = ActiveChild (ra_st a) ∨
  (ActiveChild (ra_st a') = None ∧ ∀ c, ActiveChild (ra_st a) = Some c → deleted_by inner c).

Lemma kept_calm {A} (m : go Actor A) inner a0 a : calm m → kept_or_deleted inner a0 a → kept_or_deleted inner a0 (m a).1.
Proof. intros Hm H. destruct (Hm a) as [E _]. unfold kept_or_deleted. by rewrite E. Qed.

Lemma kept_bind {A B} (m : go Actor A) (k : A → go Actor B) inner a0 a :
  kept_or_deleted inner a0 (m a).1 → (∀ x a1, m a = (a1, Ok x) → kept_or_deleted inner a0 a1 → kept_or_deleted inner a0 (k x a1).1) →
  kept_or_deleted inner a0 ((m ≫= k) a).1.
Proof. intros H Hk. unfold mbind, go_bind. destruct (m a) as [a1 [?|?| |]]; cbn in *; auto. Qed.

Lemma delete_child_kept spi a : ActiveChild (ra_st (delete_child cfg env spi a).1) = ActiveChild (ra_st a) ∨
  (ActiveChild (ra_st (delete_child cfg env spi a).1) = None ∧ ∃ c, ActiveChild (ra_st a) = Some c ∧ OutboundSPI c = spi).
Proof.
  unfold delete_child, dataplaneChildDeleted, mbind, go_bind, get_st, gets. cbn.
  destruct (OldChild (ra_st a)) as [o|]; [destruct (spi =? OutboundSPI o); [|clear o]|].
  - destruct (calm_try_update (UpdateChildDeleted o) a) as (_ & E & _).
    destruct (try_update _ _ _ a) as [a1 [?|?| |]]; left; done.
  - destruct (ActiveChild (ra_st a)) as [c|] eqn:Ea; [|by left]. destruct (Z.eqb_spec spi (OutboundSPI c)); [|by left].
    cbn [negb]. destruct (calm_try_update (UpdateChildDeleted c) a) as (_ & E & _).
    destruct (try_update _ _ _ a) as [a1 [?|?| |]]; [right; cbn; eauto|left; by rewrite <- Ea..].
  - destruct (ActiveChild (ra_st a)) as [c|] eqn:Ea; [|by left]. destruct (Z.eqb_spec spi (OutboundSPI c)); [|by left].
    cbn [negb]. destruct (calm_try_update (UpdateChildDeleted c) a) as (_ & E & _).
    destruct (try_update _ _ _ a) as [a1 [?|?| |]]; [right; cbn; eauto|left; by rewrite <- Ea..].
Qed.

(** The shutdown flag is set by an IKE DELETE only. *)
Lemma handleInformational_kept inner a a' r : handleInformationalForPayloads cfg env inner a = (a', r) →
  kept_or_deleted inner a a' ∧ (∀ ack, r = Ok (true, ack) → ∀ c, deleted_by inner c).
Proof.
  intros H. unfold handleInformationalForPayloads in H. destruct inner as [|p plds]; [apply pair_equal_spec in H as [<- <-]; by split; [left|]|].
  match type of H with match ?m with _ => _ end _ = _ => destruct m as [body|] end.
  - assert (Hc : calm (cp ← lift (ParseConfigPayload body);
      if negb (Kind cp =? ConfigTypeSet) then throw "control: unexpected non-delete payload in running request"
      else
      '(assigned, present) ← lift (cesDecodeAssignedCP cp);
      _ ← applyConfigUpdate cfg env assigned present configApplyMerge;
      mret (false, true))).
    { calm_step; [calm_go|]. destruct (negb _); [calm_go|]. calm_step; [calm_go|]. destruct x0 as [assigned present].
      apply calm_bind; [apply calm_applyConfigUpdate|]. intros _. calm_go. }
    destruct (Hc a) as [E _]. rewrite H in E. split; [by left|]. intros ack ->. exfalso. go_step H a1 cp E1. destruct (negb _); [done|].
    go_step H a2 pr E2. destruct pr. go_step H a3 u E3. apply pair_equal_spec in H as [_ H]. done.
  - unfold mbind, go_bind, lift in H. destruct (only_delete (p :: plds) None) as [d|?| |] eqn:Ed;
      [|apply pair_equal_spec in H as [<- <-]; by split; [left|]..].
    destruct (Z.eqb_spec (Delete_ProtocolID d) DeleteProtocolIKE) as [Hi|Hi].
    { destruct (negb _); apply pair_equal_spec in H as [<- <-]; (split; [by left|]); [done|]. intros ack _ c. exists d. auto. }
    destruct (Z.eqb_spec (Delete_ProtocolID d) DeleteProtocolESP) as [He|]; [|apply pair_equal_spec in H as [<- <-]; by split; [left|]].
    destruct (SPIs d) as [|spi [|]] eqn:Es; [apply pair_equal_spec in H as [<- <-]; by split; [left|]| |apply pair_equal_spec in H as [<- <-]; by split; [left|]].
    pose proof (delete_child_kept spi a) as Hk. destruct (delete_child _ _ _ a) as [a1 [?|?| |]]; cbn in Hk, H;
      apply pair_equal_spec in H as [<- <-]; (split; [|done]).
    all: destruct Hk as [?|(? & c & Hc & Hs)]; [by left|right; split; [done|]; intros c' Hc'; exists d; split; [done|]; right; split; [done|]; congruence].
Qed.

Lemma processInformational_kept mid inner a : kept_or_deleted inner a (processInformational rng cfg env mid inner a).1.
Proof.
  unfold processInformational. destruct (handleInformationalForPayloads cfg env inner a) as [a1 r] eqn:E.
  apply handleInformational_kept in E as E'. destruct E' as [Hk Hs]. apply kept_bind; rewrite E; [done|].
  intros [shutdown ack] a1' E1 _. apply pair_equal_spec in E1 as [-> ->]. apply kept_bind; [done|]. intros [next body] a2 E2 Hk2.
  apply kept_bind; [by apply (kept_calm (seal _ _ _ _ _ _ _)); [apply calm2_calm, calm_seal|]|]. intros frames a3 _ Hk3.
  apply kept_bind; [by apply (kept_calm (answer _ _ _)); [apply calm2_calm, calm_answer|]|]. intros _ a4 _ Hk4.
  destruct shutdown; [|done]. right. split; [done|]. intros c _. by eapply Hs.
Qed.

Lemma replaced_frags a frags a' : replaced (a <| ra_st := ra_st a <| InboundFragments := frags |> |>) a' → replaced a a'.
Proof. done. Qed.

Lemma dispatch_child hdr inner a : let a' := (dispatch_request rng rnd cfg env hdr inner a).1 in
  replaced a a' ∨ kept_or_deleted inner a a'.
Proof.
  cbv zeta. unfold dispatch_request. rewrite get_bind. destruct (replayCachedFrames _ _) as [fs|].
  { left. apply (replaced_still (_ ← sendFrames env fs; mret false)); [done|].
    apply calm_bind; [apply calm2_calm, calm_sendFrames|intros; calm_go]. }
  match goal with |- context [if ?b then throw _ else _] => destruct b end; [by left; left|].
  destruct (_ =? _); [right; apply processInformational_kept|]. destruct (_ =? _); [|by left; left].
  left. assert (Hr : replaced a (processCreateChild rng rnd cfg env (MessageID hdr) inner a).1).
  { unfold processCreateChild. destruct (negb _); [apply replaced_still; [done|apply calm_processPeerIKERekey]|].
    apply processPeerChildRekey_replaced. }
  unfold mbind, go_bind. destruct (processCreateChild _ _ _ _ _ _ a) as [a2 [?|?| |]]; exact Hr.
Qed.

Lemma processRequest_child msg raw a a' r : processRequest rng rnd cfg env msg raw a = (a', r) →
  replaced a a' ∨ ∃ inner, (openState None (ra_st a) (env_now env) raw).2 = Ok (Some inner) ∧ kept_or_deleted inner a a'.
Proof.
  unfold processRequest, openRunning, openState, mbind, go_bind.
  destruct (openProtectedRawState _ _ _ _ _) as [frags [[inner|]|?| |]]; intros H; try by apply pair_equal_spec in H as [<- _]; left; left.
  set (a1 := a <| ra_st := _ |>) in H. destruct (dispatch_child (Msg_Header msg) inner a1) as [Hr|Hk]; rewrite H in *; cbn in *.
  - by left.
  - right. by exists inner.
Qed.

Lemma processResponse_replaced msg raw a : replaced a (processResponse rng rnd cfg env msg raw a).1.
Proof.
  unfold processResponse. apply replaced_bind; [calm_go|done|]. intros st a1 E _. apply pair_equal_spec in E as [<- _].
  apply replaced_bind; [calm_go|done|]. intros b a1 E _. apply pair_equal_spec in E as [<- _]. destruct (negb b); [by left|].
  unfold openRunning, openState, mbind, go_bind. destruct (openProtectedRawState _ _ _ _ _) as [frags [[inner|]|?| |]]; try by left.
  apply (replaced_frags a frags), finish_response_replaced.
Qed.

Lemma processPacket_child ike raw a a' r : processPacket rng rnd cfg env ike raw a = (a', r) →
  replaced a a' ∨ ∃ inner, ike = true ∧ (openState None (ra_st a) (env_now env) raw).2 = Ok (Some inner) ∧ kept_or_deleted inner a a'.
Proof.
  unfold processPacket. destruct ike; [|intros H; apply pair_equal_spec in H as [<- _]; by left; left]. cbn [negb]. unfold mbind, go_bind, lift.
  destruct (ParseMessage raw) as [msg|?| |]; try by intros H; apply pair_equal_spec in H as [<- _]; left; left.
  destruct (negb (bool_decide _)); [by intros H; apply pair_equal_spec in H as [<- _]; left; left|]. unfold get_st, gets.
  destruct (on_old_sa _ _) as [[]|?| |]; try by intros H; apply pair_equal_spec in H as [<- _]; left; left.
  - intros H. left. pose proof (replaced_still _ _ _ (still_refl a) (calm_processOldIKEPacket msg raw)) as Hr. by rewrite H in Hr.
  - destruct (negb (Z.land _ _ =? 0)).
    + intros H. left. pose proof (processResponse_replaced msg raw a) as Hr.
      destruct (processResponse _ _ _ _ _ _ a) as [a2 [?|?| |]]; by apply pair_equal_spec in H as [<- _].
    + intros H. apply processRequest_child in H as [?|(inner & ? & ?)]; [by left|right; eauto].
Qed.
End Tunnel.

Section LoopTunnel.
Context {C : Crypto} {X : X25519}.
Context (rng : Z → Z → Z → res (list Z)) (rnd : Z → Z → Z).
Context (cfg : Config) (env : Env).

Lemma on_packet_actor ike raw l :
  lp_actor (on_packet rng rnd cfg env ike raw l).1 = (processPacket rng rnd cfg env ike raw (lp_actor l)).1.
Proof.
  unfold on_packet. destruct (processPacket _ _ _ _ _ _ _) as [a [b|?| |]]; [|done..].
  cbn [fst]. unfold after_packet. by destruct (_ && _); [|destruct (_ && _)].
Qed.

Lemma calm_run {A} (m : go Actor A) a a' r : calm m → m a = (a', r) → ActiveChild (ra_st a') = ActiveChild (ra_st a).
Proof. intros Hm E. destruct (Hm a) as [H _]. by rewrite E in H. Qed.

Lemma attempt_calm start b l : calm start → ActiveChild (loop_st (attempt rnd cfg start b l).1) = ActiveChild (loop_st l).
Proof.
  intros Hs. unfold attempt. destruct (start (lp_actor l)) as [a r] eqn:E. apply (calm_run _ _ _ _ Hs) in E.
  destruct r as [?|?| |]; [done| |done..]. by destruct (_ && _).
Qed.

Lemma on_rto_calm l : ActiveChild (loop_st (on_rto rnd cfg env l).1) = ActiveChild (loop_st l).
Proof.
  unfold on_rto. change (lp_actor (l <| rtoArmed := false |>)) with (lp_actor l). destruct (negb _); [done|]. destruct (_ <=? _).
  - destruct (bool_decide _); [done|]. destruct (leasePending _); [|done].
    destruct (leaseRetryOrExpire env (lp_actor l)) as [a r] eqn:E. apply calm_run in E; [by destruct r|apply calm_leaseRetryOrExpire].
  - destruct (OutboundRequest _) as [c|]; [|done]. destruct (sendFrames _ _ _) as [a r] eqn:E.
    apply calm_run in E; [by destruct r|apply calm2_calm, calm_sendFrames].
Qed.

Lemma on_old_rto_calm l : ActiveChild (loop_st (on_old_rto cfg env l).1) = ActiveChild (loop_st l).
Proof.
  unfold on_old_rto. change (lp_actor (l <| oldRtoArmed := false |>)) with (lp_actor l). destruct (OldIKE _) as [|old rest]; [done|].
  destruct (negb _); [done|]. destruct (_ <=? _); [done|]. destruct (Old_OutboundRequest old); [|done].
  destruct (sendFrames _ _ _) as [a r] eqn:E. apply calm_run in E; [by destruct r|apply calm2_calm, calm_sendFrames].
Qed.

Lemma on_tick_calm l : ActiveChild (loop_st (on_tick rng cfg env l).1) = ActiveChild (loop_st l).
Proof.
  unfold on_tick. match goal with |- context [l <| lp_actor := ?x |>] => set (a := x) end.
  assert (Ha : ActiveChild (ra_st a) = ActiveChild (loop_st l)).
  { unfold a. destruct (InboundFragments _); [|done]. by destruct (_ <? _). }
  clearbody a. cbn. destruct (HasExpectedResponse _); [done|]. destruct (sendKeepalive _ _ _ _) as [a' r] eqn:E.
  apply calm_run in E; [|apply calm_sendKeepalive]. rewrite <- Ha, <- E. by destruct r.
Qed.

Lemma on_lease_calm l : ActiveChild (loop_st (on_lease rng cfg env l).1) = ActiveChild (loop_st l).
Proof.
  unfold on_lease. destruct (negb _); [done|]. destruct (sendLeaseRenewal _ _ _ _) as [a r] eqn:E.
  apply calm_run in E; [|apply calm_sendLeaseRenewal]. destruct r as [?|e| |]; try done. destruct (is_cancel e); [done|].
  destruct (leaseRetryOrExpire env a) as [a' r] eqn:E'. apply calm_run in E'; [|apply calm_leaseRetryOrExpire].
  change (ActiveChild (loop_st l)) with (ActiveChild (ra_st (lp_actor l))). rewrite <- E, <- E'. by destruct r.
Qed.

Definition is_datagram (e : run_event) : Prop := match e with RunPacket _ _ => True | _ => False end.

Lemma iterate_calm e l : ¬ is_datagram e → ActiveChild (loop_st (iterate rng rnd cfg env e l).1) = ActiveChild (loop_st l).
Proof.
  destruct e; intros Hd; try by destruct Hd; cbn [iterate].
  all: cbn [iterate]; repeat case_match; try done; rewrite ?attempt_calm; try done.
  all: try (apply calm_startIKERekey || apply calm_startChildRekey || apply on_rto_calm || apply on_old_rto_calm || apply on_tick_calm).
  - unfold on_retry. repeat case_match; try done; rewrite attempt_calm; (done || apply calm_startIKERekey || apply calm_startChildRekey).
  - by rewrite on_lease_calm.
Qed.
End LoopTunnel.

(* ------------------------------------------------------------------ *)
(** ** Unanswered requests *)

Section Retries.
Context {C : Crypto} {X : X25519}.
Context (rng : Z → Z → Z → res (list Z)) (rnd : Z → Z → Z).
Context (cfg : Config).

(** A request is outstanding and its timer runs; [n] retransmissions so far. *)
Record outstanding_request (l : Loop) (c : Checkpoint) (n : Z) : Prop := {
  or_expected : HasExpectedResponse (loop_st l) = true;
  or_checkpoint : OutboundRequest (loop_st l) = Some c;
  or_armed : rtoArmed l = true;
  or_retries : retries l = n }.

Definition rto_fires (envs : list Env) : list (Env * run_event) := (λ env, (env, RunRTO)) <$> envs.

Lemma rto_resends l c n env : outstanding_request l c n → 0 <= n < MaxRetries (Cfg_Timeouts cfg) →
  MaxRetries (Cfg_Timeouts cfg) <= 255 → env_queue env = None →
  ∃ l', iterate rng rnd cfg env RunRTO l = (l', Continue) ∧ outstanding_request l' c (n + 1) ∧
    lp_actor l' = lp_actor l <| ra_sent := ra_sent (lp_actor l) ++ Packets c |>.
Proof.
  intros [Hx Hc Ha Hr] Hn Hm Hq. cbn [iterate]. rewrite Ha. unfold on_rto.
  change (lp_actor (l <| rtoArmed := false |>)) with (lp_actor l). change (retries (l <| rtoArmed := false |>)) with (retries l).
  fold (loop_st l). rewrite Hx, Hr, Hc. cbn [negb].
  replace (MaxRetries (Cfg_Timeouts cfg) <=? n) with false by lia. unfold sendFrames. rewrite Hq.
  eexists. split; [done|]. split; [|done]. constructor; try done. cbn. unfold u8. rewrite Z.mod_small by lia. lia.
Qed.

(** All the retransmissions, each of the checkpoint as it was sent. *)
Lemma rto_ladder envs : ∀ l c n, outstanding_request l c n → 0 <= n →
  n + len envs <= MaxRetries (Cfg_Timeouts cfg) → MaxRetries (Cfg_Timeouts cfg) <= 255 → Forall (λ e, env_queue e = None) envs →
  ∃ l', run_loop rng rnd cfg (rto_fires envs) l = (l', None) ∧ outstanding_request l' c (n + len envs) ∧
    lp_actor l' = lp_actor l <| ra_sent := ra_sent (lp_actor l) ++ concat (replicate (length envs) (Packets c)) |>.
Proof.
  induction envs as [|env envs IH]; intros l c n Ho Hn Hle Hm Hq.
  - exists l. split; [done|]. rewrite Z.add_0_r. split; [done|]. cbn. rewrite app_nil_r. by destruct l as [[]].
  - inversion Hq; subst. rewrite len_cons in Hle. pose proof (len_nonneg envs).
    destruct (rto_resends l c n env Ho) as (l1 & E1 & Ho1 & Ha1); [lia|done..|].
    destruct (IH l1 c (n + 1)) as (l2 & E2 & Ho2 & Ha2); [done|lia|lia|done..|].
    exists l2. split; [|split].
    + cbn [rto_fires fmap list_fmap run_loop]. by rewrite E1.
    + rewrite len_cons. by replace (n + (1 + len envs)) with (n + 1 + len envs) by lia.
    + rewrite Ha2, Ha1. cbn. by rewrite <- app_assoc.
Qed.

Lemma run_loop_app evs evs' l l' : run_loop rng rnd cfg evs l = (l', None) →
  run_loop rng rnd cfg (evs ++ evs') l = run_loop rng rnd cfg evs' l'.
Proof.
  revert l. induction evs as [|[env e] evs IH]; intros l; [by intros [= ->]|]. cbn [run_loop app].
  destruct (iterate _ _ _ _ _ _) as [l1 []]; [apply IH|done].
Qed.
End Retries.
