(* ===== verification/RunProps.v ===== *)
(** * Properties of the running actor *)

From stdpp Require Import sorting.
From S2P Require Import Prelude Suite Crypto Cipher Payload Keying Wire Protected Eap Identity State Negotiate Exchange Auth Handshake Rekey Running RunInvariant RunPeer RunTunnel.

(* ------------------------------------------------------------------ *)
(** ** Properties *)

(** [C17] From the hand-off of a completed handshake on, whatever packets and
    timers arrive in whatever order, and however the queues, the data plane and
    the random source behave: at most one IKE SA is retained and the phase says
    when; the checkpoint is always the one of the outstanding request; a rekey
    of ours is open only with its request outstanding and, for a child, while
    the child it replaces is still the active one (or was deleted by the peer);
    and the answer cache holds at most four answers in increasing id order. *)
Theorem running_invariant {C : Crypto} {X : X25519} {XC : X509} {M : Type} {IM : Method M}
    (newMethod : EapConfig → res M) (rng rng' : Z → Z → Z → res (list Z)) (rnd : Z → Z → Z) (cfg : Config)
    w w' est env events :
  runHandshake newMethod rng cfg w = (w', Ok est) →
  actor_ok (loop_st (Run rng' rnd cfg env (Est_State est) events).1).
Proof.
  intros H. apply established_idle in H as (Hp & Hx & Ho & Hf). unfold running_fields in Hf. injection Hf as Hr Hi Hh Hc.
  unfold Run. apply run_loop_ok. rewrite start_loop_st.
  constructor; rewrite ?Hh, ?Ho, ?Hr, ?Hi, ?Hp; try done; [constructor|simpl; unfold MaxInboundResponseHistory; lia|simpl; lia|set_solver].
Qed.


(** A complete request of the peer on the current SA. *)
Record current_request {C : Crypto} (env : Env) (st : State) (raw : list Z) (hdr : Header) (inner : list Wire.Payload)
    (frags : option FragmentReassembly) : Prop := {
  cq_parse : ∃ ps enc, ParseMessage raw = Ok {| Msg_Header := hdr; Payloads := ps; Encrypted := Some enc |};
  cq_current : on_old_sa st hdr = Ok false;
  cq_request : Z.land (Flags hdr) FlagResponse = 0;
  cq_open : openState None st (env_now env) raw = (st <| InboundFragments := frags |>, Ok (Some inner)) }.

Lemma current_request_dispatch {C : Crypto} {X : X25519} rng rnd cfg env a raw hdr inner frags :
  current_request env (ra_st a) raw hdr inner frags →
  processPacket rng rnd cfg env true raw a =
  dispatch_request rng rnd cfg env hdr inner (a <| ra_st := ra_st a <| InboundFragments := frags |> |>).
Proof.
  intros [(ps & enc & Hp) Hc Hq Ho]. unfold processPacket, mbind, go_bind, lift. cbn [negb]. rewrite Hp. cbn [Encrypted Msg_Header].
  rewrite bool_decide_true by done. cbn [negb]. unfold get_st, gets. rewrite Hc, Hq. cbn [negb Z.eqb].
  unfold processRequest, mbind, go_bind, openRunning. rewrite Ho. done.
Qed.

(** [C15] A peer request is executed at most once and its answer is repeated
    verbatim: a request whose id is in the cache gets exactly the cached frames
    and changes nothing else; an older id that left the cache is dropped; and a
    new INFORMATIONAL or CREATE_CHILD_SA request either fails without sending
    anything, or sends exactly one answer, which is then in the cache of the SA
    it was sent on (unless it ended the session). *)
Theorem requests_answered_once {C : Crypto} {X : X25519} (rng : Z → Z → Z → res (list Z)) (rnd : Z → Z → Z)
    (cfg : Config) (env : Env) (a : Actor) raw hdr inner frags :
  actor_ok (ra_st a) → env_queue env = None → current_request env (ra_st a) raw hdr inner frags →
  let a1 := a <| ra_st := ra_st a <| InboundFragments := frags |> |> in
  let '(a', r) := processPacket rng rnd cfg env true raw a in
  (∀ frames, mkCachedResponse (MessageID hdr) frames ∈ InboundHistory (ra_st a) →
     a' = a1 <| ra_sent := ra_sent a ++ frames |> ∧ r = Ok false) ∧
  ((∀ frames, mkCachedResponse (MessageID hdr) frames ∉ InboundHistory (ra_st a)) → ¬ unanswered (MessageID hdr) (ra_st a) →
     a' = a1 ∧ ∃ e, r = Err e) ∧
  (unanswered (MessageID hdr) (ra_st a) → ExchangeType hdr ∈ [ExchangeInformational; ExchangeCreateChild] →
     match r with
     | Ok shutdown => ∃ frames, ra_sent a' = ra_sent a ++ frames ∧
         (shutdown = true ∨ cached_answer (ra_st a') (MessageID hdr) frames)
     | _ => ra_sent a' = ra_sent a
     end).
Proof.
  intros Hok Hq Hcr a1. rewrite (current_request_dispatch _ _ _ _ _ _ _ _ _ Hcr). fold a1. unfold dispatch_request.
  rewrite get_bind. assert (Hh : InboundHistory (ra_st a1) = InboundHistory (ra_st a)) by done.
  assert (Hok1 : actor_ok (ra_st a1)) by by apply (same_control_ok (ra_st a)).
  destruct (replayCachedFrames (ra_st a1) (MessageID hdr)) as [fs|] eqn:Er.
  - apply replayCachedFrames_cached in Er as Hin. rewrite Hh in Hin.
    unfold mbind, go_bind, sendFrames. rewrite Hq. split; [|split].
    + intros frames Hf. rewrite <- Hh in Hf. apply replayCachedFrames_spec in Hf; [|done]. by simplify_eq.
    + intros Hno. by destruct (Hno fs).
    + intros Hu _. eapply Forall_forall in Hu; [|exact Hin]. cbn in Hu. lia.
  - assert (Hno : ∀ frames, mkCachedResponse (MessageID hdr) frames ∉ InboundHistory (ra_st a)).
    { intros frames Hf. rewrite <- Hh in Hf. apply replayCachedFrames_spec in Hf; [congruence|done]. }
    destruct (match last_answered (ra_st a1) with Some last => MessageID hdr <=? last | None => false end) eqn:Est.
    { split; [by intros fr Hf; destruct (Hno fr)|]. split; [by eauto|]. intros Hu _. exfalso. unfold last_answered in Est.
      destruct (last (InboundHistory (ra_st a1))) as [e|] eqn:El; cbn in Est; [|done].
      rewrite Hh in El. apply last_Some_elem_of in El. eapply Forall_forall in Hu; [|exact El]. cbn in Hu. lia. }
    apply not_stale in Est as Hu; [|done].
    match goal with |- context [let '(a', r) := ?m a1 in _] => destruct (m a1) as [a' r] eqn:Em end.
    split; [by intros fr Hf; destruct (Hno fr)|]. split; [by intros _ []|]. intros _ Hex.
    destruct (Z.eqb_spec (ExchangeType hdr) ExchangeInformational).
    { by apply processInformational_answers in Em. }
    destruct (Z.eqb_spec (ExchangeType hdr) ExchangeCreateChild); [|set_solver].
    pose proof (answering_createChild rng rnd cfg env Hq (MessageID hdr) inner a1) as Ha. unfold mbind, go_bind in Em.
    destruct (processCreateChild _ _ _ _ _ _ a1) as [a2 [?|?| |]]; apply pair_equal_spec in Em as [<- <-];
      specialize (Ha _ _ eq_refl); [|exact Ha..].
    destruct Ha as (fr & ? & ?). exists fr. auto.
Qed.

#[local] Instance is_datagram_dec e : Decision (is_datagram e).
Proof. destruct e; [right; tauto..|left; done]. Defined.

(** [C13] Make before break: in one iteration of the loop, on whatever event, the
    tunnel stays on its CHILD_SA; or moves to a new one that the data plane was
    given and has acknowledged in that iteration, with the old one retained
    until its DELETE completes; or ends, and then only because a request that
    opened under the SA's keys deletes exactly that child (or the IKE SA). *)
Theorem tunnel_make_before_break {C : Crypto} {X : X25519} (rng : Z → Z → Z → res (list Z)) (rnd : Z → Z → Z)
    (cfg : Config) (env : Env) (e : run_event) (l : Loop) (c : ChildSA) :
  ActiveChild (loop_st l) = Some c →
  let l' := (iterate rng rnd cfg env e l).1 in
  ActiveChild (loop_st l') = Some c ∨
  (∃ child keys sel us, ActiveChild (loop_st l') = Some child ∧ OldChild (loop_st l') = Some c ∧ env_install env = Acked ∧
     ra_updates (lp_actor l') = ra_updates (lp_actor l) ++ us ∧ UpdateChildInstalled child keys sel ∈ us) ∨
  (ActiveChild (loop_st l') = None ∧ ∃ raw inner, e = RunPacket true raw ∧
     (openState None (loop_st l) (env_now env) raw).2 = Ok (Some inner) ∧ deleted_by inner c).
Proof.
  intros Hc. cbv zeta. destruct (decide (is_datagram e)) as [Hd|Hd]; [|left; by rewrite iterate_calm].
  destruct e as [| | | | | | | | | | |ike raw]; try by destruct Hd. cbn [iterate]. unfold loop_st. rewrite !on_packet_actor.
  destruct (processPacket _ _ _ _ _ _ _) as [a r] eqn:E. cbn [fst].
  apply processPacket_child in E as [[Hk|(old & child & keys & sel & us & Ha & Hk)]|(inner & -> & Ho & [Hk|[Hk Hdel]])].
  - left. by rewrite Hk.
  - right; left. exists child, keys, sel, us. unfold loop_st in Hc. rewrite Hc in Ha. by injection Ha as ->.
  - left. by rewrite Hk.
  - right; right. split; [done|]. exists raw, inner. auto.
Qed.

(** [C18] A request the peer never answers is retransmitted exactly [MaxRetries]
    times, byte for byte as first sent, and at the next expiry of its timer: a
    keepalive ends the loop with an error (the peer is dead) and the SA state
    is untouched; a rekey is abandoned instead, with the retry timer armed, and
    the session goes on in the running phase on the IKE SA and the child it
    had. *)
Theorem unanswered_request {C : Crypto} {X : X25519} (rng : Z → Z → Z → res (list Z)) (rnd : Z → Z → Z) (cfg : Config)
    (l : Loop) (c : Checkpoint) (envs : list Env) (env : Env) :
  outstanding_request l c 0 → len envs = MaxRetries (Cfg_Timeouts cfg) → MaxRetries (Cfg_Timeouts cfg) <= 255 →
  Forall (λ e, env_queue e = None) envs → (Rekey (loop_st l) = None → leasePending (lp_actor l) = false) →
  let '(l', out) := run_loop rng rnd cfg (rto_fires (envs ++ [env])) l in
  ra_sent (lp_actor l') = ra_sent (lp_actor l) ++ concat (replicate (length envs) (Packets c)) ∧
  ra_updates (lp_actor l') = ra_updates (lp_actor l) ∧
  match Rekey (loop_st l) with
  | Some _ => out = None ∧ loop_st l' = abandoned (loop_st l) ∧ is_Some (retryTimer (lp_actor l'))
  | None => out = Some (Err "control: keepalive request %d unanswered after %d retries") ∧ loop_st l' = loop_st l
  end.
Proof.
  intros Ho Hlen Hmax Hq Hlease. destruct (rto_ladder rng rnd cfg envs l c 0) as (l1 & E1 & [Hx Hc Ha Hr] & Hact); [done|lia|lia|done..|].
  unfold rto_fires. rewrite fmap_app. fold (rto_fires envs). rewrite (run_loop_app _ _ _ _ _ _ _ E1). cbn [fmap list_fmap run_loop iterate].
  rewrite Ha. unfold on_rto. change (lp_actor (l1 <| rtoArmed := false |>)) with (lp_actor l1).
  change (retries (l1 <| rtoArmed := false |>)) with (retries l1). fold (loop_st l1). rewrite Hx, Hr. cbn [negb].
  replace (MaxRetries (Cfg_Timeouts cfg) <=? 0 + len envs) with true by lia.
  assert (Hst : loop_st l1 = loop_st l) by (unfold loop_st; by rewrite Hact). rewrite Hst.
  destruct (Rekey (loop_st l)) as [rc|].
  - rewrite bool_decide_true by done. cbn. rewrite Hact. cbn. eauto.
  - rewrite bool_decide_false by (by intros []). rewrite Hact. cbn. rewrite Hlease by done. cbn. rewrite Hact. cbn.
    done.
Qed.

(* ------------------------------------------------------------------ *)
(** ** Witnesses *)

#[local] Existing Instances sample_x25519 sample_x509 sample_method.

Definition run_env : Env := mkEnv 0 None true Acked.
Definition run_rnd (n b : Z) : Z := 0.
Definition run_child : ChildSA := mkChildSA 11 12 [] [] true.
Definition run_state : State := xchg_state <| ActiveChild := Some run_child |> <| St_Phase := PhaseRunning |>.
Definition run_actor (st : State) : Actor := mkActor st None None None None None false RekeyChild RekeyTriggerTime [] [] 0.
Definition run_sample (st : State) : Loop := mkLoop (run_actor st) 1000 0 true 7 1000 0 false.

(** A request of the sample peer, its first bytes only, and the DELETE of the
    child. *)
Definition run_request (msgID first : Z) (plain : list Z) : list Z :=
  match buildProtectedEnvelopeAs (C := xor_crypto) (Some 1024) (ike_sample false) ExchangeInformational msgID first plain
          (requestFlags (ike_sample false)) ike_sample_iv with
  | Ok [pkt] => pkt
  | _ => []
  end.
Definition run_delete_body : list Z := [3; 4; 0; 1; 0; 0; 0; 12].
Definition run_delete : list Z := run_request 0 PayloadTypeDelete ([0; 0; 0; 12] ++ run_delete_body).
Definition run_forged : list Z := take 40 run_delete.

(** Whether some part of [raw] opens under the inbound keys: all splits. *)
Definition opens_somewhere {C : Crypto} (sel : Selection) (ek ik raw : list Z) : bool :=
  existsb (λ i, existsb (λ j, is_ok (openEncryptedBody sel ek ik (take i raw) (take j (drop i raw))))
    (seq 0 (S (length raw)))) (seq 0 (S (length raw))).

Lemma opens_nowhere {C : Crypto} st raw sel ek ik : OldIKE st = [] → SelectedIKE st = Some sel →
  inboundKeyHalves (stateIKEEnvelope st) = Ok (ek, ik) → opens_somewhere sel ek ik raw = false → ¬ authentic st raw.
Proof.
  intros Ho Hs Hk Hn [sel' ek' ik' aad body tail plain Hs' Hk' -> Hp|]; [|congruence]. rewrite Hs in Hs'. rewrite Hk in Hk'. injection Hs' as <-. injection Hk' as <- <-.
  cut (opens_somewhere sel ek ik (aad ++ body ++ tail) = true); [congruence|].
  apply existsb_exists. exists (length aad). split; [apply in_seq; rewrite !length_app; lia|].
  apply existsb_exists. exists (length body). split; [apply in_seq; rewrite !length_app; lia|].
  rewrite take_app_length, drop_app_length, take_app_length, Hp. done.
Qed.

Lemma running_invariant_witness : ∃ w' est, sample_run (sample_world sample_events) = (w', Ok est) ∧
  actor_ok (loop_st (Run (C := xor_crypto) sample_rng run_rnd sample_cfg run_env (Est_State est)
    [(run_env, RunTick); (run_env, RunNearWrap); (run_env, RunPacket true [1; 2]); (run_env, RunRTO)]).1).
Proof.
  destruct (run_Ok _ sample_established) as (w' & est & E). exists w', est. split; [exact E|].
  exact (running_invariant (C := xor_crypto) (λ _, Ok tt) sample_rng sample_rng run_rnd sample_cfg _ _ _ run_env _ E).
Defined.


Lemma requests_answered_once_witness :
  let '(a', r) := processPacket (C := xor_crypto) sample_rng run_rnd xchg_config run_env true run_delete (run_actor run_state) in
  is_ok r = true ∧ ∃ frames, ra_sent a' = frames ∧ (r = Ok true ∨ cached_answer (ra_st a') 0 frames).
Proof.
  assert (Hok : is_ok (processPacket (C := xor_crypto) sample_rng run_rnd xchg_config run_env true
    run_delete (run_actor run_state)).2 = true) by (vm_compute; reflexivity).
  pose proof (requests_answered_once (C := xor_crypto) sample_rng run_rnd xchg_config run_env (run_actor run_state)
    run_delete (mkHeader (Uint64SPI 77) (Uint64SPI 88) PayloadTypeSK IKEDefaultVersion ExchangeInformational 0 0 76)
    [Wire.mkPayload PayloadTypeDelete false 0 run_delete_body] None) as H.
  destruct (processPacket _ _ _ _ _ _ _) as [a' r]. split; [exact Hok|].
  destruct H as (_ & _ & H).
  - constructor; try done; simpl;
      [constructor|unfold MaxInboundResponseHistory; lia|by intros c [= <-]|lia|set_solver].
  - done.
  - constructor; [eexists _, _; vm_compute; reflexivity|vm_compute; reflexivity..].
  - specialize (H (Forall_nil_2 _) ltac:(set_solver)). destruct r as [b| | |]; [|done..].
    destruct H as (frames & H1 & H2). exists frames. split; [exact H1|]. destruct H2 as [->|H2]; auto.
Defined.

Lemma tunnel_make_before_break_witness :
  let l' := (iterate (C := xor_crypto) sample_rng run_rnd xchg_config run_env (RunPacket true run_delete) (run_sample run_state)).1 in
  ActiveChild (loop_st l') = None ∧
  ∃ inner, (openState (C := xor_crypto) None run_state 0 run_delete).2 = Ok (Some inner) ∧ deleted_by inner run_child.
Proof.
  assert (Hn : ActiveChild (loop_st (iterate (C := xor_crypto) sample_rng run_rnd xchg_config run_env
    (RunPacket true run_delete) (run_sample run_state)).1) = None) by (vm_compute; reflexivity).
  pose proof (tunnel_make_before_break (C := xor_crypto) sample_rng run_rnd xchg_config run_env (RunPacket true run_delete)
    (run_sample run_state) run_child eq_refl) as T. cbv zeta in T |- *.
  split; [exact Hn|]. revert Hn T. generalize (iterate (C := xor_crypto) sample_rng run_rnd xchg_config run_env
    (RunPacket true run_delete) (run_sample run_state)).1. intros l' Hn.
  intros [H|[(? & ? & ? & ? & H & _)|(_ & raw & inner & He & Ho & Hd)]]; [congruence|congruence|].
  injection He as <-. exists inner. split; [exact Ho|exact Hd].
Defined.

Lemma unanswered_request_witness :
  let '(l', out) := run_loop (C := xor_crypto) sample_rng run_rnd xchg_config (rto_fires [run_env; run_env; run_env])
    (run_sample run_state) in
  ra_sent (lp_actor l') = [[1; 2]; [3]; [1; 2]; [3]] ∧
  out = Some (Err "control: keepalive request %d unanswered after %d retries").
Proof.
  pose proof (unanswered_request (C := xor_crypto) sample_rng run_rnd xchg_config (run_sample run_state)
    (mkCheckpoint 7 [[1; 2]; [3]]) [run_env; run_env] run_env) as H.
  destruct (run_loop _ _ _ _ _) as [l' out].
  destruct H as (H1 & _ & H2 & _); [by constructor|done|done|by repeat constructor|done|done].
Defined.
