(* ===== verification/RekeyAgree.v ===== *)
(** * The two ends of an IKE rekey

    The initiator ([startIKERekey], [finishIKERekeyResponse]) and the responder
    ([processCreateChild] on a request without selectors) of a CREATE_CHILD_SA
    exchange that rekeys the IKE SA, run against each other: both are in
    src/control/running_rekey.go, and this file shows that they agree. *)

From S2P Require Import Prelude Suite Crypto Cipher Payload Keying Wire Protected Eap Identity State Negotiate Exchange Auth Handshake Rekey Running RunInvariant.

(** A successful read of crypto/rand fills the buffer. *)
Definition rng_fills (rng : Z → Z → Z → res (list Z)) : Prop :=
  ∀ n i l b, rng n i l = Ok b → bytes b ∧ len b = l.

Lemma GenerateSPI_range r v : (∀ b, r = Ok b → bytes b ∧ len b = 8) → GenerateSPI r = Ok v → 0 < v < 2 ^ 64.
Proof.
  intros Hr H. destruct r as [b| | |]; [|done..]. destruct (Hr b eq_refl) as [Hb Hl].
  destruct (GenerateSPI_nonzero b Hb Hl) as (v' & E & ?). congruence.
Qed.

Lemma GenerateNonce_len r n : (∀ b, r 32 = Ok b → bytes b ∧ len b = 32) → GenerateNonce r 32 = Ok n → len n = 32.
Proof. unfold GenerateNonce. cbn [Z.leb Z.compare]. intros Hr. destruct (r 32) as [b| | |]; cbn; [|done..]. intros [= <-]. by apply Hr. Qed.

(* ------------------------------------------------------------------ *)
(** ** Key shares *)

Section Shares.
Context {X : X25519} {L : X25519Laws X}.

Lemma generateRekeyDH_inv s dh ke : generateRekeyDH s = Ok (dh, ke) →
  ∃ k, dhk_key dh = Some k ∧ ke = mkKeyExchange TransformDHCurve25519 (x25519_public k).
Proof.
  unfold generateRekeyDH, GenerateDH. destruct s as [k| | |]; [|done..]. cbn. intros [= <- <-]. by exists k.
Qed.

Lemma ECDH_shared dh k peer : dhk_key dh = Some k → len peer = 32 →
  (ECDH dh peer).2 = wrap "xcrypto: derive X25519 shared secret: " (x25519_shared k peer).
Proof. intros Hk Hl. unfold ECDH. rewrite Hk, Hl. cbn [negb Z.eqb Pos.eqb]. by destruct (wrap _ _). Qed.

(** Either end of the exchange computes the secret of the other. *)
Lemma ECDH_agree dh dh' k k' s : dhk_key dh = Some k → dhk_key dh' = Some k' →
  (ECDH dh (x25519_public k')).2 = Ok s → (ECDH dh' (x25519_public k)).2 = Ok s.
Proof.
  intros Hk Hk'. rewrite (ECDH_shared dh k), (ECDH_shared dh' k') by (done || apply x25519_public_len).
  by rewrite x25519_agree.
Qed.
End Shares.

(* ------------------------------------------------------------------ *)
(** ** The messages *)

(** Request and answer have the same shape. *)
Definition ike_parts (sa nonce pub : list Z) : list (Z * list Z) :=
  [(PayloadTypeSA, sa); (PayloadTypeNonce, AppendNonce [] nonce);
   (PayloadTypeKE, AppendKE [] (mkKeyExchange TransformDHCurve25519 pub))].
Definition ike_payloads (sa nonce pub : list Z) : list Wire.Payload :=
  chain_payloads (chain_of (ike_parts sa nonce pub)) PayloadTypeNone.

Lemma ike_parts_deliver sa nonce pub : len (cesBuildChain (ike_parts sa nonce pub)) < 2 ^ 16 →
  deliver (cesBuildChain (ike_parts sa nonce pub)) PayloadTypeSA = Ok (Some (ike_payloads sa nonce pub)).
Proof.
  intros Hl. apply cesBuildChain_deliver. rewrite len_cesBuildChain in Hl. unfold ike_parts in *. cbn [foldr snd] in Hl.
  pose proof (len_nonneg sa). pose proof (len_nonneg (AppendNonce [] nonce)).
  pose proof (len_nonneg (AppendKE [] (mkKeyExchange TransformDHCurve25519 pub))).
  repeat apply Forall_cons_2; [..|by apply Forall_nil_2]; unfold outgoing_wf, PayloadHeaderLen; cbn [fst snd];
    repeat split; first [lia|done].
Qed.

Lemma ike_payloads_no_ts sa nonce pub : has_ts (ike_payloads sa nonce pub) = false.
Proof. done. Qed.

Section Scans.
Context (sa nonce pub : list Z) (s : SA).
Hypothesis Hsa : ParseSA sa = Ok s.
Hypothesis Hn : nonce ≠ [].
Hypothesis Hp : pub ≠ [].

Lemma parse_nonce : ParseNonce nonce = Ok nonce.
Proof using Hn. unfold ParseNonce. destruct (len nonce =? 0) eqn:E; [|done]. apply Z.eqb_eq, len_0_inv in E. done. Qed.

Lemma parse_ke : ParseKE (AppendKE [] (mkKeyExchange TransformDHCurve25519 pub)) = Ok (mkKeyExchange TransformDHCurve25519 pub).
Proof using Hp. by apply ParseKE_append. Qed.

Lemma ike_request_scan : scan_rekey_request true (ike_payloads sa nonce pub) empty_rekey_request =
  Ok (mkRekeyRequest (Some s) nonce pub [] []).
Proof using All.
  unfold ike_payloads, ike_parts, chain_of. cbn [fmap list_fmap chain_payloads scan_rekey_request fst snd].
  unfold scan_rekey_payload. cbn [Payload_Type Body]. cbn [Z.eqb Pos.eqb PayloadTypeSA PayloadTypeNonce PayloadTypeKE].
  rewrite Hsa. run. unfold AppendNonce. cbn [app]. rewrite parse_nonce. run. rewrite parse_ke. run. done.
Qed.

Lemma ike_response_scan cfg : len s = 1 →
  parseIKERekeyResponse cfg (ike_payloads sa nonce pub) =
  ('(spi, sel) ← decodeIKESelectionWithSPI cfg s; Ok (sel, spi, nonce, pub)).
Proof using All.
  intros Hl. unfold parseIKERekeyResponse, ike_payloads, ike_parts, chain_of.
  cbn [fmap list_fmap chain_payloads scan_ike_response fst snd Payload_Type Body].
  cbn [Z.eqb Pos.eqb PayloadTypeSA PayloadTypeNonce PayloadTypeKE ir_sa ir_nonce ir_ke].
  rewrite Hsa. run. unfold AppendNonce. cbn [app]. rewrite parse_nonce. run. rewrite parse_ke. run.
  cbn. rewrite Hl. done.
Qed.
End Scans.

(* ------------------------------------------------------------------ *)
(** ** The handlers *)

(** The IKE SA a state is on. *)
Definition current_sa (st : State) : Z * Z * bool * option Selection * option IKEKeys :=
  (St_InitiatorSPI st, St_ResponderSPI st, IsOriginalInitiator st, SelectedIKE st, St_IKEKeys st).

(** [frames] carry [plain] in message [msgID] of the SA of [st]. *)
Definition carries_chain {C : Crypto} (cfg : Config) (st : State) (msgID : Z) (plain : list Z)
    (flags : ikeEnvelope → Z) (frames : list (list Z)) : Prop :=
  ∃ random, buildProtectedStateAs (Some cfg) st ExchangeCreateChild msgID PayloadTypeSA plain (flags (stateIKEEnvelope st)) random
            = Ok frames.

(** The context of an IKE rekey whose request offered [pub] and [ni]. *)
Record ike_context {X : X25519} (rc : RekeyContext) (spiI : Z) (ni pub : list Z) : Prop := {
  ic_kind : RC_Kind rc = RekeyIke;
  ic_spi : RC_NewInitiatorSPI rc = spiI;
  ic_nonce : RC_Ni rc = ni;
  ic_key : ∃ dh k, RC_LocalDH rc = Some dh ∧ dhk_key dh = Some k ∧ pub = x25519_public k }.

(** Takes a step of a successful run apart whose result is known. *)
Ltac go_val H x :=
  let s := fresh "s" in let E := fresh "E" in
  apply go_bind_Ok in H; destruct H as (s & x & E & H); apply pair_equal_spec in E; destruct E as [<- E];
  injection E as <-.

Section Ends.
Context {C : Crypto} {X : X25519}.
Context (rng : Z → Z → Z → res (list Z)) (rnd : Z → Z → Z) (cfg : Config) (env : Env).
Hypothesis Hrng : rng_fills rng.

Lemma sendFrames_Ok frames a a' u : sendFrames env frames a = (a', Ok u) → a' = a <| ra_sent := ra_sent a ++ frames |>.
Proof.
  unfold sendFrames. destruct (env_queue env) as [q|]; [|by intros [= <-]].
  destruct (length frames <=? q)%nat eqn:El; intros [= <-]. by rewrite take_ge by (by apply Nat.leb_le).
Qed.

Lemma buildIKERekeyRequest_inv rc0 n m l rc plain : RC_Kind rc0 = RekeyIke →
  buildIKERekeyRequestPayloads cfg rc0 (rng n 0) (rng m 0 8) (rng l 0 32) = Ok (rc, plain) →
  ∃ sa spiI ni pub, appendIKEProposalsWithSPI cfg [] spiI = Ok sa ∧ 0 < spiI < 2 ^ 64 ∧ len ni = 32 ∧
    plain = cesBuildChain (ike_parts sa ni pub) ∧ ike_context rc spiI ni pub.
Proof using Hrng.
  intros Hk H. unfold buildIKERekeyRequestPayloads in H.
  apply bind_Ok in H as (ni & En & H). apply bind_Ok in H as (spi & Es & H). apply bind_Ok in H as ([dh ke] & Ed & H).
  apply bind_Ok in H as (sa & Esa & H). injection H as <- <-. apply wrap_Ok in En, Es.
  apply generateRekeyDH_inv in Ed as (k & Hd & ->). exists sa, spi, ni, (x25519_public k). split; [done|].
  split; [by eapply GenerateSPI_range, Es; apply Hrng|]. split; [by eapply GenerateNonce_len, En; apply Hrng|].
  split; [done|]. constructor; [done..|]. by exists dh, k.
Qed.

Lemma startIKERekey_inv trigger a a' : startIKERekey rng cfg env trigger a = (a', Ok tt) → safeToRekey (ra_st a) = true →
  ∃ sa spiI ni pub rc frames, appendIKEProposalsWithSPI cfg [] spiI = Ok sa ∧ 0 < spiI < 2 ^ 64 ∧ len ni = 32 ∧
    ike_context rc spiI ni pub ∧ Rekey (ra_st a') = Some rc ∧
    current_sa (ra_st a') = current_sa (ra_st a) ∧ ra_sent a' = ra_sent a ++ frames ∧
    carries_chain cfg (ra_st a) (NextRequestMessageID (ra_st a)) (cesBuildChain (ike_parts sa ni pub)) requestFlags frames.
Proof using Hrng.
  unfold startIKERekey. intros H Hs. go_val H st. rewrite Hs in H. cbn [negb] in H.
  go_val H r1. go_val H r2. go_val H r3. go_pure H p E. destruct p as [rc plain].
  apply buildIKERekeyRequest_inv in E as (sa & spiI & ni & pub & Esa & [Hlo Hhi] & Hni & -> & [Hk Hi Hn Hd]); [|done].
  unfold beginRequest in H. apply go_bind_Ok in H as (s & id & E & H). go_val E st0. go_set E.
  apply pair_equal_spec in E as [<- E]. injection E as <-.
  unfold seal in H. apply go_bind_Ok in H as (s' & frames & E & H). go_val E r4. go_val E st1.
  apply pair_equal_spec in E as [<- E]. go_set H.
  exists sa, spiI, ni, pub, (rc <| RC_MessageID := NextRequestMessageID (ra_st a) |>), frames.
  apply sendFrames_Ok in H as ->. split; [exact Esa|]. split; [done|]. split; [exact Hni|].
  split; [by constructor|]. do 3 (split; [done|]). by exists (rng (ra_draws a + 1 + 1 + 1)).
Qed.

(** The keys of the new SA, from the SA of [st]. *)
Definition rekeyed_keys (st : State) (shared ni nr : list Z) (spiI spiR : Z) (sel : Selection) (keys : IKEKeys) : Prop :=
  ∃ ike old seed prf enc, SelectedIKE st = Some ike ∧ St_IKEKeys st = Some old ∧
    RekeySKEYSEED (Sel_PRF ike) (SKd old) shared ni nr = Ok seed ∧ Sel_PRF sel = Some prf ∧ Sel_Encryption sel = Some enc ∧
    DeriveIKEKeys prf seed ni nr spiI spiR enc (Sel_Integrity sel) = Ok keys.

Lemma deref_Ok {A} (o : option A) v : deref o = Ok v → o = Some v.
Proof. by destruct o; [intros [= ->]|]. Qed.

Lemma answer_notify_sa msgID n a a' u : answer_notify rng cfg env msgID n a = (a', Ok u) → current_sa (ra_st a') = current_sa (ra_st a).
Proof using Type.
  unfold answer_notify. intros H. go_pure H body E. unfold seal in H. apply go_bind_Ok in H as (s & frames & Es & H).
  go_val Es r. go_val Es st. apply pair_equal_spec in Es as [<- _].
  unfold answer in H. apply go_bind_Ok in H as (s & u' & Es & H). apply sendFrames_Ok in Es as ->.
  by apply pair_equal_spec in H as [<- _].
Qed.

Lemma resetIkeSoft_same a a' r : resetIkeSoft rnd cfg env a = (a', r) → ra_st a' = ra_st a ∧ ra_sent a' = ra_sent a.
Proof using Type. by intros [<- _]%pair_equal_spec. Qed.

Lemma go_bind_run {A B} (m : go Actor A) (k : A → go Actor B) a a1 x : m a = (a1, Ok x) → (m ≫= k) a = k x a1.
Proof using Type. intros H. unfold mbind, go_bind. by rewrite H. Qed.

(** Whatever its outcome, [m] leaves the current SA alone. *)
Definition keeps_sa {A} (m : go Actor A) : Prop := ∀ a, current_sa (ra_st (m a).1) = current_sa (ra_st a).

Lemma keeps_sa_bind {A B} (m : go Actor A) (k : A → go Actor B) : keeps_sa m → (∀ x, keeps_sa (k x)) → keeps_sa (m ≫= k).
Proof using Type.
  intros Hm Hk a. unfold mbind, go_bind. specialize (Hm a). destruct (m a) as [a1 [x| | |]]; cbn in *; [|done..].
  by rewrite Hk.
Qed.

Lemma keeps_sa_set f : (∀ st, current_sa (f st) = current_sa st) → keeps_sa (set_st f).
Proof using Type. intros H a. apply H. Qed.

Lemma sendOldIKEDelete_sa : keeps_sa (sendOldIKEDelete rng cfg env).
Proof using Type.
  unfold sendOldIKEDelete. apply keeps_sa_bind; [done|]. intros st. destruct (OldIKE st); [by apply keeps_sa_set|].
  repeat (apply keeps_sa_bind; [done|intros ?]). intros b. unfold sendFrames. by destruct (env_queue env).
Qed.

(** What a responder that accepts did. *)
Lemma accept_ike_rekey_inv msgID inner sa ni ke a a' :
  accept_ike_rekey rng rnd cfg env msgID inner a = (a', Ok tt) →
  scan_rekey_request true inner empty_rekey_request = Ok (mkRekeyRequest (Some sa) ni ke [] []) → OldIKE (ra_st a) = [] →
  ∃ spiR, 0 < spiR < 2 ^ 64 ∧
  match selectPeerIKEProposal cfg sa spiR with
  | Ok (selected, sel, spiI) => ∃ nr k dh shared saBody keys frames,
      len nr = 32 ∧ dhk_key dh = Some k ∧ (ECDH dh ke).2 = Ok shared ∧ AppendSA [] selected = Ok saBody ∧
      rekeyed_keys (ra_st a) shared ni nr spiI spiR sel keys ∧
      current_sa (ra_st a') = (spiI, spiR, false, Some sel, Some keys) ∧
      oldIKEEnvelope <$> OldIKE (ra_st a') = [oldIKEEnvelope (retain_old (ra_st a))] ∧
      ra_sent a' = ra_sent a ++ frames ∧
      carries_chain cfg (ra_st a) msgID (cesBuildChain (ike_parts saBody nr (x25519_public k))) responseFlags frames
  | Err _ => current_sa (ra_st a') = current_sa (ra_st a)
  | _ => False
  end.
Proof using Hrng.
  unfold accept_ike_rekey. intros H Hscan Hold. go_pure H rr E. rewrite Hscan in E. injection E as <-. cbn [rr_sa rr_ni rr_ke] in H.
  destruct ((len ni =? 0) || (len ke =? 0)); [done|]. go_val H r1. go_pure H spiR Espi.
  exists spiR. split; [by eapply GenerateSPI_range, Espi; apply Hrng|].
  destruct (selectPeerIKEProposal cfg sa spiR) as [[[selected sel] spiI]|e| |] eqn:Esel; [|by apply answer_notify_sa in H|done..].
  go_val H r2. go_val H r3. go_pure H nr En. go_pure H p Ed. destruct p as [dh kex].
  go_pure H shared Esh. go_pure H saBody Esa. unfold seal in H. apply go_bind_Ok in H as (s & frames & Es & H).
  go_val Es r4. go_val Es st0. apply pair_equal_spec in Es as [<- Es].
  go_val H st1. go_pure H ike Eike. go_pure H old Eold. go_pure H seed Eseed. go_pure H prf Eprf. go_pure H enc Eenc.
  go_pure H keys Ekeys. apply go_bind_Ok in H as (s & u & Ef & H). apply sendFrames_Ok in Ef as ->.
  go_set H. apply go_bind_Ok in H as (s & u' & Ei & H). apply resetIkeSoft_same in Ei as [Est Esent].
  apply pair_equal_spec in H as [<- _]. apply generateRekeyDH_inv in Ed as (k & Hk & ->).
  apply deref_Ok in Eike, Eold, Eprf, Eenc.
  exists nr, k, dh, shared, saBody, keys, frames. split; [by eapply GenerateNonce_len, En; apply Hrng|].
  split; [exact Hk|]. split; [exact Esh|]. split; [exact Esa|].
  split; [by exists ike, old, seed, prf, enc|].
  split; [|split; [|split; [by transitivity (ra_sent s)|by eexists]]].
  - change (current_sa (ra_st s) = (spiI, spiR, false, Some sel, Some keys)). by rewrite Est.
  - cbn. rewrite Est. cbn. by rewrite Hold.
Qed.

(** The initiator on an answer it can read, with the key share of its request. *)
Lemma finishIKERekeyResponse_eq inner rc spiI ni pub dh sel spiR nr ker shared keys a :
  Rekey (ra_st a) = Some rc → ike_context rc spiI ni pub → RC_LocalDH rc = Some dh →
  parseIKERekeyResponse cfg inner = Ok (sel, spiR, nr, ker) → (ECDH dh ker).2 = Ok shared →
  rekeyed_keys (ra_st a) shared ni nr spiI spiR sel keys →
  current_sa (ra_st (finishIKERekeyResponse rng rnd cfg env inner a).1) = (spiI, spiR, true, Some sel, Some keys).
Proof using Type.
  intros Hr [Hk Hi Hn _] Hd Hp Hs (ike & old & seed & prf & enc & E1 & E2 & E3 & E4 & E5 & E6).
  assert (Ed : deriveIKERekeyKeys (ra_st a) (rc <| RC_NewResponderSPI := spiR |> <| RC_NewNonceN := nr |>) nr ker spiI spiR sel =
    (rc <| RC_NewResponderSPI := spiR |> <| RC_NewNonceN := nr |> <| RC_LocalDH := None |>, Ok (keys, seed))).
  { unfold deriveIKERekeyKeys. cbn -[RekeySKEYSEED DeriveIKEKeys ECDH wrap mbind deref]. rewrite Hd, Hs, Hn, E1, E2, E4, E5.
    f_equal. cbn [wrap deref]. run. rewrite E3. cbn [wrap]. run. rewrite E6. done. }
  unfold finishIKERekeyResponse. rewrite (go_bind_run _ _ _ a (ra_st a)) by done. rewrite Hr, Hk.
  rewrite (go_bind_run _ _ a a (sel, spiR, nr, ker)) by (unfold abandon, on_err, lift; by rewrite Hp).
  cbv zeta. change (RC_NewInitiatorSPI (rc <| RC_NewResponderSPI := spiR |> <| RC_NewNonceN := nr |>)) with (RC_NewInitiatorSPI rc).
  rewrite Hi, Ed. rewrite (go_bind_run _ _ _ _ tt) by done. rewrite (go_bind_run _ _ _ _ (keys, seed)) by done.
  rewrite (go_bind_run _ _ _ _ tt) by done. rewrite (go_bind_run _ _ _ _ tt) by done. by rewrite sendOldIKEDelete_sa.
Qed.
End Ends.

(* ------------------------------------------------------------------ *)
(** ** The new SA *)

(** Two states on the two ends of one IKE SA that the protected-message layer
    can use. *)
Record shared_sa (i r : State) : Prop := {
  sh_spi : St_InitiatorSPI i = St_InitiatorSPI r ∧ St_ResponderSPI i = St_ResponderSPI r;
  sh_initiator : IsOriginalInitiator i = true;
  sh_mirrored : mirrored (stateIKEEnvelope i) (stateIKEEnvelope r);
  sh_usable : ∃ enc ig k, env_ok (stateIKEEnvelope i) enc ig k ∧ env_ok (stateIKEEnvelope r) enc ig k }.

Lemma derived_env_ok {C : Crypto} {L : CryptoLaws} prf id seed ni nr spiI spiR b sel enc ig keys caps :
  negotiated (Some sel) enc ig → NewPRF id = Ok prf →
  DeriveIKEKeys prf seed ni nr spiI spiR enc (Some ig) = Ok keys → 0 < spiI < 2 ^ 64 → 0 <= spiR < 2 ^ 64 →
  env_ok (mkIkeEnvelope spiI spiR b (Some sel) (Some keys) caps) enc ig keys.
Proof.
  intros Hn (h & Hh & Hl)%NewPRF_cases Hd HI HR. pose proof Hn as [_ (eid & kl & He) (iid & Hi) _].
  pose proof (NewEncryption_keylen _ _ _ He). pose proof (NewIntegrity_keylen _ _ Hi).
  destruct (DeriveIKEKeys_ok prf h seed ni nr spiI spiR enc ig Hh Hl) as (k & E & Ep & Hlen); [lia..|].
  rewrite Hd in E. injection E as <-. destruct Hlen as (? & ? & ? & ? & ? & ? & ?).
  apply len_prf_plus in Ep as [_ Hb]; [|pose proof (hash_size_pos h); lia].
  assert (Hs : bytes (SKei keys) ∧ bytes (SKer keys)).
  { unfold bytes in *. rewrite !Forall_app in Hb. tauto. }
  by constructor.
Qed.

Lemma agreed_shared {C : Crypto} {L : CryptoLaws} prf id seed ni nr spiI spiR sel enc ig keys i r :
  current_sa i = (spiI, spiR, true, Some sel, Some keys) → current_sa r = (spiI, spiR, false, Some sel, Some keys) →
  negotiated (Some sel) enc ig → NewPRF id = Ok prf →
  DeriveIKEKeys prf seed ni nr spiI spiR enc (Some ig) = Ok keys → 0 < spiI < 2 ^ 64 → 0 < spiR < 2 ^ 64 → shared_sa i r.
Proof.
  unfold current_sa. intros Hi Hr Hn Hp Hd HI HR. injection Hi as I1 I2 I3 I4 I5. injection Hr as R1 R2 R3 R4 R5.
  constructor; [by rewrite I1, I2, R1, R2|done| |].
  - unfold mirrored, stateIKEEnvelope. cbn. by rewrite I3, I4, I5, R3, R4, R5.
  - exists enc, ig, keys. unfold stateIKEEnvelope. rewrite I1, I2, I3, I4, I5, R1, R2, R3, R4, R5.
    split; eapply derived_env_ok; try done; lia.
Qed.

(** The answer of a responder that selected, at the initiator. *)
Lemma ike_answer_accepted {C : Crypto} {L : CryptoLaws} {X : X25519} {XL : X25519Laws X}
    rng rnd icfg env spiI spiR ni rc sel enc ig prf rbody rsa k dh dh' k' nr shared keys (i r : Actor) (st : State) :
  ike_context rc spiI ni (x25519_public k) → RC_LocalDH rc = Some dh → dhk_key dh = Some k → dhk_key dh' = Some k' →
  Rekey (ra_st i) = Some rc → SelectedIKE st = SelectedIKE (ra_st i) → St_IKEKeys st = St_IKEKeys (ra_st i) →
  ParseSA rbody = Ok rsa → len rbody <= 64 → len rsa = 1 → len nr = 32 →
  decodeIKESelectionWithSPI icfg rsa = Ok (spiR, sel) → negotiated (Some sel) enc ig →
  Sel_PRF sel = Some prf → NewPRF (PRF_TransformID prf) = Ok prf →
  (ECDH dh' (x25519_public k)).2 = Ok shared → rekeyed_keys st shared ni nr spiI spiR sel keys →
  current_sa (ra_st r) = (spiI, spiR, false, Some sel, Some keys) → 0 < spiI < 2 ^ 64 → 0 < spiR < 2 ^ 64 →
  let answer := cesBuildChain (ike_parts rbody nr (x25519_public k')) in
  ∃ inner, deliver answer PayloadTypeSA = Ok (Some inner) ∧
    shared_sa (ra_st (finishIKERekeyResponse rng rnd icfg env inner i).1) (ra_st r).
Proof.
  intros Hrc Hdh Hk Hk' Hrk Hse Hke Ersa Hlb Hl1 Hnr Edec Hng Eprf Hnew Esh Hrek Hcur HI HR answer.
  pose proof (x25519_public_len k') as Hlk. exists (ike_payloads rbody nr (x25519_public k')). split.
  { apply ike_parts_deliver. rewrite len_cesBuildChain. unfold ike_parts. cbn [foldr snd]. rewrite AppendKE_bytes.
    unfold AppendNonce, ke_bytes. cbn [KE_Data DHGroup app]. rewrite len_app, len_putUint16. len_norm. rewrite Hlk, Hnr. lia. }
  assert (Hrek' : rekeyed_keys (ra_st i) shared ni nr spiI spiR sel keys).
  { unfold rekeyed_keys in *. by rewrite <- Hse, <- Hke. }
  destruct Hrek as (ike & old & seed & prf' & enc' & _ & _ & _ & Ep & Ee & Ed).
  destruct (ng_sel _ _ _ Hng) as (po & dho & Es). injection Es as ->.
  cbn [Sel_PRF Sel_Encryption Sel_Integrity] in Eprf, Ep, Ee, Ed. subst po. injection Ep as <-. injection Ee as <-.
  eapply (agreed_shared prf _ seed ni nr spiI spiR _ enc ig keys);
    [|exact Hcur|exact Hng|exact Hnew|exact Ed|exact HI|exact HR].
  eapply finishIKERekeyResponse_eq; [exact Hrk|exact Hrc|exact Hdh| |by eapply ECDH_agree|exact Hrek'].
  rewrite (ike_response_scan rbody nr (x25519_public k') rsa) by (done || by intros E; rewrite E in *).
  rewrite Edec. done.
Qed.

(* ------------------------------------------------------------------ *)
(** ** Property *)

(** [C14] Both ends of an IKE rekey agree. When our rekey request goes out, its
    plaintext chain reads back at the peer, and a peer running this code that
    accepts it either found no suite of its own that selects from ours, and
    then there is none and its IKE SA is unchanged, or answers with a chain
    that reads back here; on that answer we switch to the same new SPIs,
    algorithms and keys in the opposite role, both ends usable by the
    protected-message layer and mirrored, so that what either end then sends
    the other can open. *)
Theorem ike_rekey_agrees {C : Crypto} {L : CryptoLaws} {X : X25519} {XL : X25519Laws X}
    (rng : Z → Z → Z → res (list Z)) (rnd : Z → Z → Z) (icfg rcfg : Config) (env env' env'' : Env)
    (trigger : RekeyTrigger) (msgID : Z) (i i1 r : Actor) :
  rng_fills rng → Forall proposal_ok (Cfg_IKE icfg) → Cfg_IKE icfg ≠ [] → len (Cfg_IKE icfg) <= 255 → Cfg_IKE rcfg ≠ [] →
  SelectedIKE (ra_st r) = SelectedIKE (ra_st i) → St_IKEKeys (ra_st r) = St_IKEKeys (ra_st i) →
  safeToRekey (ra_st i) = true → Rekey (ra_st r) = None → OldIKE (ra_st r) = [] →
  startIKERekey rng icfg env trigger i = (i1, Ok tt) →
  ∃ request frames, ra_sent i1 = ra_sent i ++ frames ∧
    carries_chain icfg (ra_st i) (NextRequestMessageID (ra_st i)) request requestFlags frames ∧
    (len request < 2 ^ 16 → ∃ inner, deliver request PayloadTypeSA = Ok (Some inner) ∧
     ∀ r1, processCreateChild rng rnd rcfg env' msgID inner r = (r1, Ok tt) →
       (current_sa (ra_st r1) = current_sa (ra_st r) ∧
        ∀ p q, p ∈ Cfg_IKE icfg → q ∈ Cfg_IKE rcfg → is_ok (Select q (Some p)) = false) ∨
       ∃ answer frames' inner', ra_sent r1 = ra_sent r ++ frames' ∧
         carries_chain rcfg (ra_st r) msgID answer responseFlags frames' ∧
         deliver answer PayloadTypeSA = Ok (Some inner') ∧
         shared_sa (ra_st (finishIKERekeyResponse rng rnd icfg env'' inner' i1).1) (ra_st r1)).
Proof.
  intros Hrng Hok Hne Hl255 Hr Hsel Hkeys Hsafe Hnr Hno Hstart.
  destruct (startIKERekey_inv rng icfg env Hrng trigger i i1 Hstart Hsafe)
    as (sa & spiI & ni & pub & rc & frames & Esa & HspiI & Hni & Hrc & Hrk & Hsa & Hsent & Hch).
  exists (cesBuildChain (ike_parts sa ni pub)), frames. split; [done|]. split; [done|]. intros Hlen.
  exists (ike_payloads sa ni pub). split; [by apply ike_parts_deliver|]. intros r1 Hacc.
  unfold processCreateChild in Hacc. rewrite ike_payloads_no_ts in Hacc. cbn [negb] in Hacc.
  unfold processPeerIKERekey in Hacc. rewrite (go_bind_run _ _ r r (ra_st r)) in Hacc by done. rewrite Hnr, Hno in Hacc.
  change (0 <? len (@nil OldIKEContext)) with false in Hacc. cbv iota in Hacc.
  pose proof Hrc as [_ _ _ (dh & k & Hdh & Hk & Hpub)].
  assert (Hni' : ni ≠ []) by (intros ->; done).
  assert (Hpub' : pub ≠ []) by (intros E; pose proof (x25519_public_len k) as El; rewrite <- Hpub, E in El; done).
  destruct (ike_negotiation_agrees icfg rcfg spiI 1) as (sa' & props & Esa' & Eprops & _); [done..|lia|lia|].
  rewrite Esa in Esa'. injection Esa' as <-.
  destruct (accept_ike_rekey_inv rng rnd rcfg env' Hrng msgID _ props ni pub r r1 Hacc) as (spiR & HspiR & Hres);
    [by apply ike_request_scan|done|].
  destruct (ike_negotiation_agrees icfg rcfg spiI spiR) as (sa2 & props2 & Esa2 & Eprops2 & Hneg); [done..|lia|lia|].
  rewrite Esa in Esa2. injection Esa2 as <-. rewrite Eprops in Eprops2. injection Eprops2 as <-.
  destruct (selectPeerIKEProposal rcfg props spiR) as [[[selected sel] spiI']|e| |]; [|by left|done..]. right.
  destruct Hneg as (-> & rbody & rsa & enc & ig & prf & Erb & Ersa & Hlb & Hl1 & Edec & Hng & Eprf & Hnewprf).
  destruct Hres as (nr & k' & dh' & shared & saBody & keys & frames' & Hnr' & Hk' & Esh & Eb & Hrek & Hcur & _ & Hs' & Hch').
  rewrite Erb in Eb. injection Eb as <-. subst pub. injection Hsa as _ _ _ Hs4 Hs5.
  destruct (ike_answer_accepted rng rnd icfg env'' spiI spiR ni rc sel enc ig prf rbody rsa k dh dh' k' nr shared keys
    i1 r1 (ra_st r)) as (inner' & Hd & Hsh); try done; [by rewrite Hs4|by rewrite Hs5|].
  by eexists _, frames', inner'.
Qed.

(* ------------------------------------------------------------------ *)
(** ** Witness *)

Definition agree_rng (n i l : Z) : res (list Z) := if 0 <=? l then Ok (replicate (Z.to_nat l) 7) else Err "EOF".
Definition agree_env : Env := mkEnv 0 None true Acked.
Definition agree_actor (initiator : bool) : Actor :=
  mkActor (sample_sa <| St_Phase := PhaseRunning |> <| HasExpectedResponse := false |> <| OutboundRequest := None |>
             <| IsOriginalInitiator := initiator |>)
    None None None None None false RekeyChild RekeyTriggerTime [] [] 0.

Lemma agree_rng_fills : rng_fills agree_rng.
Proof.
  intros n i l b. unfold agree_rng. destruct (0 <=? l) eqn:E; [|done]. intros [= <-]. split.
  - apply Forall_replicate. by unfold is_byte.
  - unfold len. rewrite length_replicate. lia.
Qed.

Lemma agree_actor_sa b : SelectedIKE (ra_st (agree_actor b)) = SelectedIKE sample_sa ∧
  St_IKEKeys (ra_st (agree_actor b)) = St_IKEKeys sample_sa.
Proof. unfold agree_actor. generalize sample_sa. intros st. split; reflexivity. Qed.

(** The answer of the sample responder to the sample request exists. *)
Abbreviation agree_start :=
  (startIKERekey (C := xor_crypto) (X := sample_x25519) agree_rng sample_cfg agree_env RekeyTriggerTime (agree_actor true)).
Definition agree_request : list Wire.Payload :=
  match Rekey (ra_st agree_start.1) with
  | Some rc => ike_payloads (ok_or [] (appendIKEProposalsWithSPI sample_cfg [] (RC_NewInitiatorSPI rc))) (RC_Ni rc)
                 (match RC_LocalKE rc with Some ke => KE_Data ke | None => [] end)
  | None => []
  end.
Definition agree_accept :=
  processCreateChild (C := xor_crypto) (X := sample_x25519) agree_rng (λ _ _, 0) sample_cfg agree_env 0 agree_request (agree_actor false).
Lemma agree_runs : is_ok agree_start.2 && is_ok agree_accept.2 &&
  bool_decide (St_Phase (ra_st agree_accept.1) = PhaseRekeyIkeDeletingOld) = true.
Proof. vm_compute. reflexivity. Qed.

Lemma agree_suites : Forall proposal_ok (Cfg_IKE sample_cfg).
Proof. by apply Forall_singleton, (Forall_inv sample_suites_ok). Qed.

Lemma agree_facts : ∃ i1, agree_start = (i1, Ok tt) ∧ safeToRekey (ra_st (agree_actor true)) = true ∧
  Rekey (ra_st (agree_actor false)) = None ∧ OldIKE (ra_st (agree_actor false)) = [] ∧
  SelectedIKE (ra_st (agree_actor false)) = SelectedIKE (ra_st (agree_actor true)) ∧
  St_IKEKeys (ra_st (agree_actor false)) = St_IKEKeys (ra_st (agree_actor true)) ∧ ra_sent (agree_actor true) = [].
Proof.
  assert (Hs : is_ok agree_start.2 = true) by (vm_compute; reflexivity).
  destruct (run_Ok _ Hs) as (i1 & [] & E). exists i1. split; [exact E|].
  split; [vm_compute; reflexivity|]. split; [vm_compute; reflexivity|]. split; [vm_compute; reflexivity|].
  destruct (agree_actor_sa true) as [Hs1 Hk1], (agree_actor_sa false) as [Hs2 Hk2].
  split; [exact (eq_trans Hs2 (eq_sym Hs1))|]. split; [exact (eq_trans Hk2 (eq_sym Hk1))|exact eq_refl].
Qed.

Lemma ike_rekey_agrees_witness : ∃ i1 request, agree_start = (i1, Ok tt) ∧
  carries_chain (C := xor_crypto) sample_cfg (ra_st (agree_actor true)) (NextRequestMessageID (ra_st (agree_actor true)))
    request requestFlags (ra_sent i1) ∧
  (len request < 2 ^ 16 → ∃ inner, deliver request PayloadTypeSA = Ok (Some inner) ∧
   ∀ r1, processCreateChild (C := xor_crypto) (X := sample_x25519) agree_rng (λ _ _, 0) sample_cfg agree_env 0 inner
     (agree_actor false) = (r1, Ok tt) →
     current_sa (ra_st r1) = current_sa (ra_st (agree_actor false)) ∨
     ∃ inner', shared_sa (ra_st (finishIKERekeyResponse (C := xor_crypto) (X := sample_x25519) agree_rng (λ _ _, 0)
                                    sample_cfg agree_env inner' i1).1) (ra_st r1)).
Proof.
  destruct agree_facts as (i1 & E & Hsafe & Hidle & Hone & Hsel & Hkeys & Hsent).
  destruct (ike_rekey_agrees (C := xor_crypto) (L := xor_crypto_laws) (X := sample_x25519) (XL := sample_x25519_laws)
    agree_rng (λ _ _, 0) sample_cfg sample_cfg agree_env agree_env agree_env RekeyTriggerTime 0
    (agree_actor true) i1 (agree_actor false) agree_rng_fills) as (request & frames & H1 & H2 & H3);
    [exact agree_suites|discriminate|by vm_compute|discriminate|exact Hsel|exact Hkeys|exact Hsafe|exact Hidle|exact Hone|exact E|].
  exists i1, request. split; [exact E|]. rewrite H1, Hsent. split; [exact H2|]. intros Hl.
  destruct (H3 Hl) as (inner & Hd & Hr). exists inner. split; [exact Hd|]. intros r1 H.
  destruct (Hr r1 H) as [[Hc _]|(answer & frames' & inner' & _ & _ & _ & Hsh)]; [left; exact Hc|right; exists inner'; exact Hsh].
Defined.
