(* ===== verification/Hub.v ===== *)
(** * The event hub (src/events/hub.go)

    One goroutine serves a bounded mailbox of requests; emitters, subscribers
    and readers run concurrently with it. The operations of the worker are
    functions on the heap ([World]); the callers interleave with it in the step
    relation [step], where a [select] with several ready cases may take any of
    them. A channel is the list of what it holds and its capacity.

    The heap also records what the proofs speak of: the events taken from a
    stream so far ([strm_read]), what a full stream missed ([strm_missed]), the
    events the mailbox took ([accepted]) and those the worker dispatched
    ([dispatched]), in order. No operation reads them. *)

From stdpp Require Import list relations.
From S2P Require Import Prelude.

Definition DefaultReplayHistory : Z := 16.
Definition hubMailboxCapacity : nat := 256.

Section Hub.
Context {Event : Type}.

(** [Stream]: the channel [c] (of capacity [queue]) and whether [closed] is
    closed. *)
Record Stream := mkStream {
  strm_c : list Event;
  strm_closed : bool;
  strm_read : list Event;
  strm_missed : nat;
  strm_since : nat }.

(** [hubReq] by its discriminator; streams, replies and done channels are
    named by their place in the heap. *)
Inductive hubReq :=
  | ReqEmit (event : Event) (done : option nat)
  | ReqStream (stream : nat)
  | ReqReply (reply : nat).

(** The worker goroutine: in its loop, in [drain], or gone. *)
Inductive Worker := Serving | Draining | Exited.

(** A call of [EmitSync] or [Subscribe] under way, by where it is. *)
Inductive Call :=
  | SyncSend (event : Event)
  | SyncWait (event : Event) (done : nat)
  | SyncReturn (event : Event) (result : bool)
  | SubCheck
  | SubSend
  | SubWait (reply : nat)
  | SubReturn (result : option nat).

(** [Hub] and the heap around it. A reply channel holds at most one result
    ([None]: empty); a done channel is closed or not. *)
Record World := mkHubWorld {
  mailbox : list hubReq;
  queue : nat;
  replayCap : nat;
  retained : list Event;
  subs : list nat;
  stopped : bool;
  worker : Worker;
  streams : list Stream;
  replies : list (option (option nat));
  dones : list bool;
  calls : list Call;
  accepted : list Event;
  dispatched : list Event }.
#[global] Instance Worker_eq_dec : EqDecision Worker.
Proof. solve_decision. Defined.
#[global] Instance eta_HubWorld : Eta World := λ w,
  mkHubWorld (mailbox w) (queue w) (replayCap w) (retained w) (subs w) (stopped w) (worker w) (streams w) (replies w)
    (dones w) (calls w) (accepted w) (dispatched w).

Definition NewHub (queue replay : Z) : World :=
  let replay := if replay <? 0 then 0 else replay in
  let queue := if queue <? replay then replay else queue in
  let queue := if queue <=? 0 then 1 else queue in
  mkHubWorld [] (Z.to_nat queue) (Z.to_nat replay) [] [] false Serving [] [] [] [] [] [].

(* ------------------------------------------------------------------ *)
(** ** The worker *)

Definition retain (cap : nat) (r : list Event) (ev : Event) : list Event :=
  if (cap =? 0)%nat then r
  else if (length r =? cap)%nat then drop 1 r ++ [ev]
  else r ++ [ev].

Fixpoint removeSub (s : nat) (subs : list nat) : list nat :=
  match subs with
  | [] => []
  | sub :: rest => if (sub =? s)%nat then rest else sub :: removeSub s rest
  end.

(** A non-blocking send to a stream. *)
Definition offer (q : nat) (ev : Event) (s : Stream) : Stream :=
  if (length (strm_c s) <? q)%nat
  then mkStream (strm_c s ++ [ev]) (strm_closed s) (strm_read s) (strm_missed s) (strm_since s)
  else mkStream (strm_c s) (strm_closed s) (strm_read s) (S (strm_missed s)) (strm_since s).

(** The loop of [dispatch] from index [i]: a closed stream is removed and the
    index stays. *)
Fixpoint dispatch_loop (fuel : nat) (q : nat) (ev : Event) (i : nat) (subs : list nat) (streams : list Stream) :
    list nat * list Stream :=
  match fuel with
  | O => (subs, streams)
  | S fuel =>
      match subs !! i with
      | None => (subs, streams)
      | Some s =>
          match streams !! s with
          | None => (subs, streams)
          | Some st =>
              if strm_closed st then dispatch_loop fuel q ev i (removeSub s subs) streams
              else dispatch_loop fuel q ev (S i) subs (<[s := offer q ev st]> streams)
          end
      end
  end.

Definition dispatch (ev : Event) (w : World) : World :=
  let w := w <| retained := retain (replayCap w) (retained w) ev |> <| dispatched := dispatched w ++ [ev] |> in
  let '(sb, st) := dispatch_loop (length (subs w)) (queue w) ev 0 (subs w) (streams w) in
  w <| subs := sb |> <| streams := st |>.

(** [None]: a send of the worker blocks, and the worker with it. *)
Definition subscribe (reply : nat) (w : World) : option World :=
  if (queue w <? length (retained w))%nat then None
  else
  let s := length (streams w) in
  let w := w <| streams := streams w ++ [mkStream (retained w) false [] 0 (length (dispatched w))] |>
             <| subs := subs w ++ [s] |> in
  match replies w !! reply with
  | Some None => Some (w <| replies := <[reply := Some (Some s)]> (replies w) |>)
  | _ => None
  end.

Definition handle (req : hubReq) (w : World) : option World :=
  match req with
  | ReqEmit ev done =>
      let w := dispatch ev w in
      Some (match done with Some d => w <| dones := <[d := true]> (dones w) |> | None => w end)
  | ReqStream s => Some (w <| subs := removeSub s (subs w) |>)
  | ReqReply r => subscribe r w
  end.

(** One receive of [drain]. *)
Definition drain_one (req : hubReq) (w : World) : option World :=
  match req with
  | ReqReply r =>
      match replies w !! r with
      | Some None => Some (w <| replies := <[r := Some None]> (replies w) |>)
      | _ => None
      end
  | _ => Some w
  end.

(* ------------------------------------------------------------------ *)
(** ** The callers *)

Definition room (w : World) : bool := (length (mailbox w) <? hubMailboxCapacity)%nat.

Definition post (req : hubReq) (w : World) : World :=
  w <| mailbox := mailbox w ++ [req] |>
    <| accepted := match req with ReqEmit ev _ => accepted w ++ [ev] | _ => accepted w end |>.

Definition Emit (ev : Event) (w : World) : World := if room w then post (ReqEmit ev None) w else w.

Definition Close (w : World) : World := w <| stopped := true |>.

(** [Stream.Close] with its [unsubscribe]; the second call does nothing. *)
Definition Stream_Close (s : nat) (w : World) : World :=
  match streams w !! s with
  | Some st =>
      if strm_closed st then w
      else
      let w := w <| streams := <[s := mkStream (strm_c st) true (strm_read st) (strm_missed st) (strm_since st)]> (streams w) |> in
      if room w then post (ReqStream s) w else w
  | None => w
  end.

(** A reader takes the next event of its channel. *)
Definition Stream_recv (s : nat) (w : World) : World :=
  match streams w !! s with
  | Some (mkStream (ev :: c) cl rd ms sc) =>
      w <| streams := <[s := mkStream c cl (rd ++ [ev]) ms sc]> (streams w) |>
  | _ => w
  end.

(** One step of a call: the next [select] it passes. *)
Inductive call_step (w : World) : Call → World → Call → Prop :=
  | sync_send ev : room w = true →
      call_step w (SyncSend ev) (post (ReqEmit ev (Some (length (dones w)))) w <| dones := dones w ++ [false] |>)
        (SyncWait ev (length (dones w)))
  | sync_send_stopped ev : stopped w = true → call_step w (SyncSend ev) w (SyncReturn ev false)
  | sync_done ev d : dones w !! d = Some true → call_step w (SyncWait ev d) w (SyncReturn ev true)
  | sync_wait_stopped ev d : stopped w = true → call_step w (SyncWait ev d) w (SyncReturn ev false)
  | sub_check : call_step w SubCheck w (if stopped w then SubReturn None else SubSend)
  | sub_send : room w = true →
      call_step w SubSend (post (ReqReply (length (replies w))) w <| replies := replies w ++ [None] |>)
        (SubWait (length (replies w)))
  | sub_send_stopped : stopped w = true → call_step w SubSend w (SubReturn None)
  | sub_reply r x : replies w !! r = Some (Some x) →
      call_step w (SubWait r) (w <| replies := <[r := None]> (replies w) |>) (SubReturn x)
  | sub_wait_stopped r : stopped w = true → replies w !! r = Some None → call_step w (SubWait r) w (SubReturn None).

(** One step of the program. *)
Inductive step : World → World → Prop :=
  | step_handle w w' req rest : worker w = Serving → mailbox w = req :: rest →
      handle req (w <| mailbox := rest |>) = Some w' → step w w'
  | step_stop w : worker w = Serving → stopped w = true → step w (w <| worker := Draining |>)
  | step_drain w w' req rest : worker w = Draining → mailbox w = req :: rest →
      drain_one req (w <| mailbox := rest |>) = Some w' → step w w'
  | step_exit w : worker w = Draining → mailbox w = [] → step w (w <| worker := Exited |>)
  | step_emit w ev : step w (Emit ev w)
  | step_close w : step w (Close w)
  | step_stream_close w s : step w (Stream_Close s w)
  | step_recv w s : step w (Stream_recv s w)
  | step_enter w c : c = SubCheck ∨ (∃ ev, c = SyncSend ev) → step w (w <| calls := calls w ++ [c] |>)
  | step_call w w' i c c' : calls w !! i = Some c → call_step w c w' c' → step w (w' <| calls := <[i := c']> (calls w') |>).

Definition reachable (queue replay : Z) (w : World) : Prop := rtc step (NewHub queue replay) w.
End Hub.
Arguments Stream : clear implicits.
Arguments hubReq : clear implicits.
Arguments Call : clear implicits.
Arguments World : clear implicits.

(* ------------------------------------------------------------------ *)
(** ** The loop of [dispatch] as a map over the subscribers *)

Section Dispatch.
Context {Event : Type}.
Implicit Types (ev : Event) (sts : list (Stream Event)).

Definition open_in sts (s : nat) : bool := match sts !! s with Some st => negb (strm_closed st) | None => false end.

(** What one event does to the stream at [k] when the streams [ss] get it. *)
Definition touch (q : nat) ev (ss : list nat) (k : nat) (st : Stream Event) : Stream Event :=
  if bool_decide (k ∈ ss) && negb (strm_closed st) then offer q ev st else st.

Lemma offer_closed q ev (st : Stream Event) : strm_closed (offer q ev st) = strm_closed st.
Proof. unfold offer. by destruct (_ <? _)%nat. Qed.

Lemma open_in_touch q ev ss sts sts' s : (∀ k, sts' !! k = touch q ev ss k <$> (sts !! k)) → open_in sts' s = open_in sts s.
Proof.
  intros H. unfold open_in. rewrite H. destruct (sts !! s) as [st|]; cbn; [|done].
  unfold touch. destruct (_ && _); [by rewrite offer_closed|done].
Qed.

Lemma touch_nil q ev k : touch q ev [] k = id.
Proof. done. Qed.

Lemma removeSub_split s l1 l2 : s ∉ l1 → removeSub s (l1 ++ s :: l2) = l1 ++ l2.
Proof.
  induction l1 as [|x l1 IH]; intros Hn; cbn; [by rewrite Nat.eqb_refl|].
  apply not_elem_of_cons in Hn as [Hx Hn]. destruct (Nat.eqb_spec x s); [congruence|]. by rewrite IH.
Qed.

Lemma removeSub_elem s x l : x ∈ removeSub s l → x ∈ l.
Proof.
  induction l as [|y l IH]; cbn; [done|]. destruct (y =? s)%nat; [by right|].
  rewrite !elem_of_cons. intros [->|H]; auto.
Qed.

Lemma removeSub_keep s x l : x ∈ l → x ≠ s → x ∈ removeSub s l.
Proof.
  induction l as [|y l IH]; cbn; [done|]. rewrite elem_of_cons. intros [->|H] Hx.
  - destruct (Nat.eqb_spec y s); [done|]. by left.
  - destruct (Nat.eqb_spec y s); [done|]. right. auto.
Qed.

Lemma removeSub_nodup s l : NoDup l → NoDup (removeSub s l).
Proof.
  induction 1 as [|y l Hy Hl IH]; cbn; [constructor|]. destruct (y =? s)%nat; [done|].
  constructor; [|done]. by intros H%removeSub_elem.
Qed.

Lemma dispatch_loop_spec q ev fuel : ∀ i ss sts, NoDup ss → Forall (λ s, (s < length sts)%nat) ss →
  (length ss - i <= fuel)%nat →
  let '(ss', sts') := dispatch_loop fuel q ev i ss sts in
  ss' = take i ss ++ filter (λ s, open_in sts s = true) (drop i ss) ∧
  (∀ k, sts' !! k = touch q ev (drop i ss) k <$> (sts !! k)).
Proof.
  induction fuel as [|fuel IH]; intros i ss sts Hnd Hv Hf; cbn [dispatch_loop].
  { rewrite drop_ge, take_ge by lia. split; [by rewrite filter_nil, app_nil_r|]. intros k. by rewrite touch_nil, option_fmap_id. }
  destruct (ss !! i) as [s|] eqn:Ei.
  2: { apply lookup_ge_None in Ei. rewrite drop_ge, take_ge by lia. split; [by rewrite filter_nil, app_nil_r|].
       intros k. by rewrite touch_nil, option_fmap_id. }
  pose proof (take_drop_middle ss i s Ei) as Hss. apply lookup_lt_Some in Ei as Hi.
  destruct (sts !! s) as [st|] eqn:Es.
  2: { apply lookup_ge_None in Es. eapply Forall_lookup_1 in Hv; [|exact Ei]. cbn in Hv. lia. }
  assert (Hd : drop i ss = s :: drop (S i) ss) by by apply drop_S.
  assert (Hn : (s ∉ take i ss) ∧ (s ∉ drop (S i) ss)).
  { rewrite <- Hss in Hnd. apply NoDup_app in Hnd as (_ & H1 & H2). apply NoDup_cons in H2 as [H2 _].
    split; [|done]. intros H. by destruct (H1 s H); left. }
  destruct (strm_closed st) eqn:Ec.
  - assert (Hr : removeSub s ss = take i ss ++ drop (S i) ss) by (rewrite <- Hss at 1; apply removeSub_split, Hn).
    specialize (IH i (removeSub s ss) sts). destruct (dispatch_loop fuel q ev i (removeSub s ss) sts) as [ss' sts'].
    destruct IH as [-> Hs].
    + by apply removeSub_nodup.
    + apply Forall_forall. intros x Hx%removeSub_elem. by eapply Forall_forall in Hv.
    + rewrite Hr, length_app, length_take, length_drop. lia.
    + rewrite Hr in *. rewrite take_app_length' in * by (rewrite length_take; lia).
      rewrite drop_app_length' in * by (rewrite length_take; lia). rewrite Hd. split.
      * rewrite filter_cons_False; [done|]. unfold open_in. rewrite Es, Ec. done.
      * intros k. rewrite Hs. destruct (sts !! k) as [sk|] eqn:Ek; [|done]. cbn. f_equal. unfold touch.
        destruct (decide (k = s)) as [->|Hk].
        { rewrite Es in Ek. injection Ek as <-. rewrite Ec. by rewrite !andb_false_r. }
        replace (bool_decide (k ∈ s :: drop (S i) ss)) with (bool_decide (k ∈ drop (S i) ss)); [done|].
        apply bool_decide_ext. rewrite elem_of_cons. tauto.
  - specialize (IH (S i) ss (<[s := offer q ev st]> sts)).
    destruct (dispatch_loop fuel q ev (S i) ss _) as [ss' sts']. destruct IH as [-> Hs]; [done| |lia|].
    { eapply Forall_impl; [exact Hv|]. intros x. cbn. by rewrite length_insert. }
    assert (Hl : (s < length sts)%nat) by (by eapply lookup_lt_Some).
    assert (Ho : ∀ x, open_in (<[s := offer q ev st]> sts) x = open_in sts x).
    { intros x. unfold open_in. destruct (decide (x = s)) as [->|]; [|by rewrite list_lookup_insert_ne].
      rewrite list_lookup_insert_eq, Es by done. by rewrite offer_closed. }
    split.
    + rewrite Hd, filter_cons_True by (unfold open_in; by rewrite Es, Ec).
      rewrite (take_S_r _ _ s) by done. rewrite <- app_assoc. f_equal. cbn. f_equal.
      apply list_filter_iff. intros x. by rewrite Ho.
    + intros k. rewrite Hs, Hd. destruct (decide (k = s)) as [->|Hk].
      * rewrite list_lookup_insert_eq, Es by done. cbn. f_equal. unfold touch.
        rewrite (bool_decide_false (s ∈ drop (S i) ss)) by tauto. rewrite bool_decide_true by (by left). by rewrite Ec.
      * rewrite list_lookup_insert_ne by done. destruct (sts !! k); [|done]. cbn. f_equal. unfold touch.
        replace (bool_decide (k ∈ s :: drop (S i) ss)) with (bool_decide (k ∈ drop (S i) ss)); [done|].
        apply bool_decide_ext. rewrite elem_of_cons. tauto.
Qed.

(** [dispatch] offers the event to every subscribed open stream and forgets the
    closed ones. *)
Lemma dispatch_eq ev (w : World Event) : NoDup (subs w) → Forall (λ s, (s < length (streams w))%nat) (subs w) →
  ∃ sts, dispatch ev w =
    w <| retained := retain (replayCap w) (retained w) ev |> <| dispatched := dispatched w ++ [ev] |>
      <| subs := filter (λ s, open_in (streams w) s = true) (subs w) |> <| streams := sts |> ∧
    length sts = length (streams w) ∧ ∀ k, sts !! k = touch (queue w) ev (subs w) k <$> (streams w !! k).
Proof.
  intros Hnd Hv. pose proof (dispatch_loop_spec (queue w) ev (length (subs w)) 0 (subs w) (streams w) Hnd Hv) as H.
  unfold dispatch. change (subs (_ <| dispatched := _ |>)) with (subs w). change (streams (_ <| dispatched := _ |>)) with (streams w).
  change (queue (_ <| dispatched := _ |>)) with (queue w).
  destruct (dispatch_loop _ _ _ _ _ _) as [ss sts]. destruct H as [-> Hs]; [lia|]. rewrite drop_0 in *.
  exists sts. split; [done|]. split; [|done].
  assert (Heq : ∀ k, is_Some (sts !! k) ↔ is_Some (streams w !! k)) by (intros k; by rewrite Hs, fmap_is_Some).
  destruct (Nat.lt_trichotomy (length sts) (length (streams w))) as [H|[H|H]]; [|done|]; exfalso.
  - apply lookup_lt_is_Some_2, Heq, lookup_lt_is_Some_1 in H. lia.
  - apply lookup_lt_is_Some_2, Heq, lookup_lt_is_Some_1 in H. lia.
Qed.
End Dispatch.

(* ------------------------------------------------------------------ *)
(** ** The invariant *)

(** The last [n] elements. *)
Definition lastn {A} (n : nat) (l : list A) : list A := drop (length l - n) l.

Lemma lastn_snoc {A} n (l : list A) x : (0 < n)%nat → lastn n (l ++ [x]) = lastn (n - 1) l ++ [x].
Proof.
  intros Hn. unfold lastn. rewrite length_app. cbn. rewrite drop_app_le by lia.
  do 2 f_equal. lia.
Qed.

Lemma length_lastn {A} n (l : list A) : length (lastn n l) = (n `min` length l)%nat.
Proof. unfold lastn. rewrite length_drop. lia. Qed.

Section Invariant.
Context {Event : Type}.
Implicit Types (ev : Event) (st : Stream Event) (log : list Event) (w : World Event).

Lemma retain_lastn cap log ev : retain cap (lastn cap log) ev = lastn cap (log ++ [ev]).
Proof.
  unfold retain. destruct (Nat.eqb_spec cap 0) as [->|Hc].
  { unfold lastn. rewrite length_app, !drop_ge; [done|rewrite length_app|]; lia. }
  rewrite lastn_snoc by lia. rewrite length_lastn. destruct (Nat.eqb_spec (cap `min` length log) cap).
  - f_equal. unfold lastn. rewrite drop_drop. f_equal. lia.
  - f_equal. unfold lastn. f_equal. lia.
Qed.

(** What a stream was given, in terms of the dispatched events: the replay
    first and whole, then the live events in order, all of them but those that
    found it full. *)
Record stream_ok (cap q : nat) log st : Prop := {
  so_bound : (length (strm_c st) <= q)%nat;
  so_since : (strm_since st <= length log)%nat;
  so_given : ∃ live, strm_read st ++ strm_c st = lastn cap (take (strm_since st) log) ++ live ∧
    live `sublist_of` drop (strm_since st) log ∧
    (strm_closed st = false → (length live + strm_missed st = length log - strm_since st)%nat) }.

Lemma stream_ok_offer cap q log st ev : stream_ok cap q log st → strm_closed st = false →
  stream_ok cap q (log ++ [ev]) (offer q ev st).
Proof.
  intros [Hb Hs (live & Hg & Hsub & Hex)] Hc. specialize (Hex Hc).
  assert (Hd : drop (strm_since st) (log ++ [ev]) = drop (strm_since st) log ++ [ev]) by (rewrite drop_app_le by lia; done).
  assert (Ht : take (strm_since st) (log ++ [ev]) = take (strm_since st) log) by (rewrite take_app_le by lia; done).
  unfold offer. destruct (Nat.ltb_spec (length (strm_c st)) q); constructor; cbn;
    rewrite ?length_app; cbn; try lia; rewrite Ht, Hd.
  - exists (live ++ [ev]). rewrite !app_assoc, Hg. split; [done|].
    split; [by apply sublist_app|]. intros _. rewrite length_app. cbn. lia.
  - exists live. split; [done|]. split; [by apply sublist_inserts_r|]. intros _. lia.
Qed.

Lemma stream_ok_closed cap q log st ev : stream_ok cap q log st → strm_closed st = true → stream_ok cap q (log ++ [ev]) st.
Proof.
  intros [Hb Hs (live & Hg & Hsub & _)] Hc. constructor; [done|rewrite length_app; lia|].
  exists live. rewrite drop_app_le, take_app_le by lia. split; [done|]. split; [by apply sublist_inserts_r|congruence].
Qed.

(** The events still in the mailbox. *)
Definition emits (m : list (hubReq Event)) : list Event :=
  omap (λ r, match r with ReqEmit ev _ => Some ev | _ => None end) m.
Definition asked (m : list (hubReq Event)) : list nat := omap (λ r, match r with ReqReply r => Some r | _ => None end) m.

Record hub_ok w : Prop := {
  ho_mailbox : (length (mailbox w) <= hubMailboxCapacity)%nat;
  ho_caps : (replayCap w <= queue w)%nat;
  ho_retained : retained w = lastn (replayCap w) (dispatched w);
  ho_subs : NoDup (subs w) ∧ Forall (λ s, (s < length (streams w))%nat) (subs w);
  ho_streams : ∀ k st, streams w !! k = Some st →
    stream_ok (replayCap w) (queue w) (dispatched w) st ∧ (strm_closed st = false → k ∈ subs w);
  ho_unsub : ∀ s, ReqStream s ∈ mailbox w → ∃ st, streams w !! s = Some st ∧ strm_closed st = true;
  ho_replies : NoDup (asked (mailbox w)) ∧ ∀ r, r ∈ asked (mailbox w) → replies w !! r = Some None;
  ho_order : if decide (worker w = Serving) then accepted w = dispatched w ++ emits (mailbox w)
             else dispatched w `prefix_of` accepted w;
  ho_dones : ∀ ev d, ReqEmit ev (Some d) ∈ mailbox w → (d < length (dones w))%nat;
  ho_sync : ∀ ev d, SyncWait ev d ∈ calls w → (d < length (dones w))%nat ∧
    (dones w !! d = Some true → ev ∈ dispatched w) ∧ ∀ ev', ReqEmit ev' (Some d) ∈ mailbox w → ev' = ev;
  ho_return : ∀ ev, SyncReturn ev true ∈ calls w → ev ∈ dispatched w;
  ho_wait : ∀ r, SubWait r ∈ calls w → (r < length (replies w))%nat }.

Lemma hub_ok_new q r : hub_ok (@NewHub Event q r).
Proof.
  constructor; cbn; try done; try lia; try set_solver.
  - destruct (Z.ltb_spec r 0); destruct (q <? _) eqn:E1; cbv zeta; destruct (_ <=? 0) eqn:E2; lia.
  - split; constructor.
  - split; [constructor|set_solver].
Qed.

(** The worker took [req] off the mailbox and handled it. *)
Lemma handle_emit_ok w ev done rest : hub_ok w → worker w = Serving → mailbox w = ReqEmit ev done :: rest →
  ∃ w', handle (ReqEmit ev done) (w <| mailbox := rest |>) = Some w' ∧ hub_ok w'.
Proof.
  intros [Hm Hc Hret [Hnd Hv] Hst Hun [Hra Hrb] Hord Hdn Hsy Hrt Hwt] Hw Hmb. rewrite Hmb in *.
  destruct (dispatch_eq ev (w <| mailbox := rest |>)) as (sts & Ed & Hlen & Hsts); [exact Hnd|exact Hv|].
  unfold handle. cbv zeta. rewrite Ed. eexists. split; [reflexivity|].
  change (streams (w <| mailbox := rest |>)) with (streams w) in *. change (queue (w <| mailbox := rest |>)) with (queue w) in *.
  change (subs (w <| mailbox := rest |>)) with (subs w) in *.
  rewrite decide_True in Hord by done.
  assert (Hdone : match done with Some d => (d < length (dones w))%nat | None => True end).
  { destruct done as [d|]; [|done]. eapply Hdn. by left. }
  set (dn := match done with Some d => <[d := true]> (dones w) | None => dones w end).
  match goal with |- hub_ok ?x => assert (E : x = w <| mailbox := rest |> <| retained := retain (replayCap w) (retained w) ev |>
    <| dispatched := dispatched w ++ [ev] |> <| subs := filter (λ s, open_in (streams w) s = true) (subs w) |>
    <| streams := sts |> <| dones := dn |>) by (by destruct done) end.
  rewrite E. clear E.
  assert (Hdl : length dn = length (dones w)) by (unfold dn; destruct done; [by rewrite length_insert|done]).
  constructor; cbn.
  - cbn in Hm. lia.
  - done.
  - rewrite Hret. apply retain_lastn.
  - split; [by apply NoDup_filter|]. rewrite Hlen. apply Forall_forall. intros s [_ Hs]%list_elem_of_filter. by eapply Forall_forall in Hv.
  - intros k st Hk. rewrite Hsts in Hk. destruct (streams w !! k) as [st0|] eqn:Ek; [|done]. cbn in Hk. injection Hk as <-.
    destruct (Hst k st0 Ek) as [Hok Hin]. unfold touch. destruct (strm_closed st0) eqn:Ecl.
    + rewrite andb_false_r. split; [by apply stream_ok_closed|congruence].
    + rewrite bool_decide_true by auto. cbn. split; [by apply stream_ok_offer|]. intros _.
      apply list_elem_of_filter. split; [unfold open_in; by rewrite Ek, Ecl|auto].
  - intros s Hs. destruct (Hun s) as (st & Es & Ec); [by right|]. exists st. rewrite Hsts, Es. cbn. unfold touch.
    by rewrite Ec, andb_false_r.
  - split; [exact Hra|exact Hrb].
  - rewrite Hw. rewrite decide_True by done. rewrite Hord. cbn. by rewrite <- app_assoc.
  - intros ev' d Hin. rewrite Hdl. eapply Hdn. by right.
  - intros ev' d Hin. destruct (Hsy ev' d Hin) as (H1 & H2 & H3). rewrite Hdl. split; [done|]. split.
    + intros Ht. apply elem_of_app. unfold dn in Ht. destruct done as [d'|]; [|left; auto].
      destruct (decide (d = d')) as [->|Hne]; [|rewrite list_lookup_insert_ne in Ht by done; left; auto].
      right. rewrite <- (H3 ev) by (by left). by left.
    + intros e He. apply H3. by right.
  - intros e He. apply elem_of_app. left. auto.
  - done.
Qed.

Lemma handle_stream_ok w s rest : hub_ok w → worker w = Serving → mailbox w = ReqStream s :: rest →
  hub_ok (w <| mailbox := rest |> <| subs := removeSub s (subs w) |>).
Proof.
  intros [Hm Hc Hret [Hnd Hv] Hst Hun [Hra Hrb] Hord Hdn Hsy Hrt Hwt] Hw Hmb. rewrite Hmb in *.
  constructor; cbn; try done.
  - cbn in Hm. lia.
  - split; [by apply removeSub_nodup|]. apply Forall_forall. intros x Hx%removeSub_elem. by eapply Forall_forall in Hv.
  - intros k st Hk. destruct (Hst k st Hk) as [H1 H2]. split; [done|]. intros Ho. apply removeSub_keep; [auto|].
    intros ->. destruct (Hun s) as (st' & Es & Ec); [by left|]. congruence.
  - intros x Hx. apply Hun. by right.
  - intros e d Hin. eapply Hdn. by right.
  - intros e d Hin. destruct (Hsy e d Hin) as (H1 & H2 & H3). split; [done|]. split; [done|]. intros e' He. apply H3. by right.
Qed.

(** The worker answers a waiting subscriber: the reply channel is empty and the
    replay fits the new stream, so neither send blocks. *)
Lemma handle_reply_ok w r rest : hub_ok w → worker w = Serving → mailbox w = ReqReply r :: rest →
  ∃ w', handle (ReqReply r) (w <| mailbox := rest |>) = Some w' ∧ hub_ok w'.
Proof.
  intros [Hm Hc Hret [Hnd Hv] Hst Hun [Hra Hrb] Hord Hdn Hsy Hrt Hwt] Hw Hmb. rewrite Hmb in *.
  cbn in Hra, Hrb, Hord. apply NoDup_cons in Hra as [Hr Hra].
  assert (Hrr : replies w !! r = Some None) by (apply Hrb; by left).
  assert (Hfit : (length (retained w) <= queue w)%nat) by (rewrite Hret, length_lastn; lia).
  unfold handle, subscribe. cbn -[Nat.ltb]. rewrite (proj2 (Nat.ltb_ge _ _)) by lia. rewrite Hrr. eexists. split; [reflexivity|].
  rewrite decide_True in Hord by done.
  constructor; cbn; try done.
  - cbn in Hm. lia.
  - split.
    + apply NoDup_app. split; [done|]. split; [|apply NoDup_singleton]. intros x Hx ->%list_elem_of_singleton.
      eapply Forall_forall in Hv; [|exact Hx]. cbn in Hv. lia.
    + rewrite length_app. cbn. apply Forall_app. split; [|apply Forall_singleton; lia].
      eapply Forall_impl; [exact Hv|]. cbn. lia.
  - intros k st Hk. apply lookup_app_Some in Hk as [Hk|[Hl Hk]].
    + destruct (Hst k st Hk) as [H1 H2]. split; [done|]. intros Ho. apply elem_of_app. auto.
    + apply list_lookup_singleton_Some in Hk as [Hk0 <-]. split.
      * constructor; cbn; [done|lia|]. exists []. rewrite app_nil_r, Hret, take_ge by lia. split; [done|].
        split; [apply sublist_nil_l|]. intros _. cbn. lia.
      * intros _. apply elem_of_app. right. apply list_elem_of_singleton. lia.
  - intros s Hs. destruct (Hun s) as (st & Es & Ec); [by right|]. exists st. by rewrite (lookup_app_l_Some _ _ _ _ Es).
  - split; [exact Hra|]. intros r' Hr'. rewrite list_lookup_insert_ne by (intros <-; done). apply Hrb. by right.
  - rewrite decide_True by done. done.
  - intros e d Hin. eapply Hdn. by right.
  - intros e d Hin. destruct (Hsy e d Hin) as (H1 & H2 & H3). split; [done|]. split; [done|]. intros e' He. apply H3. by right.
  - intros r' Hr'. rewrite length_insert. auto.
Qed.

Lemma emits_app m m' : emits (m ++ m') = emits m ++ emits m'.
Proof. apply omap_app. Qed.
Lemma asked_app m m' : asked (m ++ m') = asked m ++ asked m'.
Proof. apply omap_app. Qed.
Lemma asked_elem m r : ReqReply r ∈ m → r ∈ asked m.
Proof. intros H. apply list_elem_of_omap. by exists (ReqReply r). Qed.

Lemma drain_one_ok w req rest : hub_ok w → worker w = Draining → mailbox w = req :: rest →
  ∃ w', drain_one req (w <| mailbox := rest |>) = Some w' ∧ hub_ok w'.
Proof.
  intros [Hm Hc Hret Hsb Hst Hun [Hra Hrb] Hord Hdn Hsy Hrt Hwt] Hw Hmb. rewrite Hmb in *.
  rewrite decide_False in Hord by congruence.
  assert (Hnd' : NoDup (asked rest) ∧ ∀ r, r ∈ asked rest → replies w !! r = Some None).
  { destruct req; [exact (conj Hra Hrb)..|]. cbn in Hra. apply NoDup_cons in Hra as [_ ?].
    split; [done|]. intros r Hr. apply Hrb. by right. }
  assert (Hok : ∀ rp, length rp = length (replies w) → (∀ r, r ∈ asked rest → rp !! r = Some None) →
    hub_ok (w <| mailbox := rest |> <| replies := rp |>)).
  { intros rp Hl Hrp. constructor; cbn; try done.
    - cbn in Hm. lia.
    - intros s Hs. apply Hun. by right.
    - split; [apply Hnd'|done].
    - by rewrite decide_False by congruence.
    - intros e d Hin. eapply Hdn. by right.
    - intros e d Hin. destruct (Hsy e d Hin) as (H1 & H2 & H3). split; [done|]. split; [done|]. intros e' He. apply H3. by right.
    - intros r Hr. rewrite Hl. auto. }
  destruct req as [ev d|s|r]; cbn [drain_one].
  1, 2: (exists (w <| mailbox := rest |> <| replies := replies w |>); split; [by destruct w|apply Hok; [done|apply Hnd']]).
  cbn in Hra, Hrb. apply NoDup_cons in Hra as [Hr _]. cbn.
  rewrite (Hrb r) by (by left). eexists. split; [reflexivity|]. apply Hok; [by rewrite length_insert|].
  intros r' Hr'. rewrite list_lookup_insert_ne by (intros <-; done). by apply Hnd'.
Qed.

(** A request that names no new channel is posted. *)
Lemma post_ok w req : hub_ok w → room w = true →
  match req with
  | ReqEmit _ None => True
  | ReqStream s => ∃ st, streams w !! s = Some st ∧ strm_closed st = true
  | _ => False
  end → hub_ok (post req w).
Proof.
  intros [Hm Hc Hret Hsb Hst Hun [Hra Hrb] Hord Hdn Hsy Hrt Hwt] Hroom Hreq. apply Nat.ltb_lt in Hroom.
  assert (Hask : asked [req] = []) by (by destruct req as [? []| |]).
  constructor; cbn; try done.
  - rewrite length_app. cbn. lia.
  - intros s [Hs|Hs%list_elem_of_singleton]%elem_of_app; [by apply Hun|]. by subst req.
  - by rewrite asked_app, Hask, app_nil_r.
  - destruct (decide (worker w = Serving)).
    + rewrite emits_app, Hord. destruct req; cbn; by rewrite ?app_nil_r, <- ?app_assoc.
    + destruct req; [by apply prefix_app_r|done..].
  - intros e d [Hin|Hin%list_elem_of_singleton]%elem_of_app; [by eapply Hdn|]. by subst req.
  - intros e d Hin. destruct (Hsy e d Hin) as (H1 & H2 & H3). split; [done|]. split; [done|].
    intros e' [He|He%list_elem_of_singleton]%elem_of_app; [by apply H3|]. by subst req.
Qed.

Lemma Stream_Close_ok w s : hub_ok w → hub_ok (Stream_Close s w).
Proof.
  intros H. unfold Stream_Close. destruct (streams w !! s) as [st|] eqn:Es; [|done].
  destruct (strm_closed st) eqn:Ecl; [done|].
  assert (Hl : (s < length (streams w))%nat) by (by eapply lookup_lt_Some).
  set (st' := mkStream _ true _ _ _).
  assert (H1 : hub_ok (w <| streams := <[s := st']> (streams w) |>)).
  { destruct H as [Hm Hc Hret [Hnd Hv] Hst Hun [Hra Hrb] Hord Hdn Hsy Hrt Hwt]. constructor; cbn; try done.
    - split; [done|]. by rewrite length_insert.
    - intros k x Hk. destruct (decide (k = s)) as [->|Hne].
      + rewrite list_lookup_insert_eq in Hk by done. injection Hk as <-. split; [|done].
        destruct (Hst s st Es) as [[Hb Hs (live & Hg & Hsub & _)] _]. constructor; cbn; [done..|]. by exists live.
      + rewrite list_lookup_insert_ne in Hk by done. by apply Hst.
    - intros x Hx. destruct (Hun x Hx) as (y & Ey & Hy). destruct (decide (x = s)) as [->|Hne].
      + exists st'. by rewrite list_lookup_insert_eq.
      + exists y. by rewrite list_lookup_insert_ne. }
  cbv zeta. destruct (room _) eqn:Er; [|done]. apply post_ok; [done..|]. exists st'. cbn. by rewrite list_lookup_insert_eq.
Qed.

Lemma Stream_recv_ok w s : hub_ok w → hub_ok (Stream_recv s w).
Proof.
  intros H. unfold Stream_recv. destruct (streams w !! s) as [[[|ev c] cl rd ms sc]|] eqn:Es; [done| |done].
  assert (Hl : (s < length (streams w))%nat) by (by eapply lookup_lt_Some).
  destruct H as [Hm Hc Hret [Hnd Hv] Hst Hun [Hra Hrb] Hord Hdn Hsy Hrt Hwt]. constructor; cbn; try done.
  - split; [done|]. by rewrite length_insert.
  - intros k x Hk. destruct (decide (k = s)) as [->|Hne].
    + rewrite list_lookup_insert_eq in Hk by done. injection Hk as <-.
      destruct (Hst s _ Es) as [[Hb Hs (live & Hg & Hsub & Hex)] Hin]. cbn in *. split; [|done].
      constructor; cbn; [lia|done|]. exists live. by rewrite <- app_assoc.
    + rewrite list_lookup_insert_ne in Hk by done. by apply Hst.
  - intros x Hx. destruct (Hun x Hx) as (y & Ey & Hy). destruct (decide (x = s)) as [->|Hne].
    + rewrite Es in Ey. injection Ey as <-. eexists. by rewrite list_lookup_insert_eq.
    + exists y. by rewrite list_lookup_insert_ne.
Qed.

Lemma elem_of_insert_inv {A} (l : list A) i x y : y ∈ <[i := x]> l → y = x ∨ y ∈ l.
Proof.
  intros [j Hj]%list_elem_of_lookup. apply list_lookup_insert_Some in Hj as [(_ & -> & _)|[_ Hj]]; [by left|].
  right. by eapply list_elem_of_lookup_2.
Qed.

(** The calls change; each waits for channels that exist. *)
Definition call_ok w (c : Call Event) : Prop :=
  match c with
  | SyncWait ev d => (d < length (dones w))%nat ∧ (dones w !! d = Some true → ev ∈ dispatched w) ∧
      ∀ ev', ReqEmit ev' (Some d) ∈ mailbox w → ev' = ev
  | SyncReturn ev true => ev ∈ dispatched w
  | SubWait r => (r < length (replies w))%nat
  | _ => True
  end.

Lemma calls_ok w cs : hub_ok w → Forall (call_ok w) cs → hub_ok (w <| calls := cs |>).
Proof.
  intros [Hm Hc Hret Hsb Hst Hun Hrp Hord Hdn Hsy Hrt Hwt] Hcs. rewrite Forall_forall in Hcs.
  constructor; cbn; try done; intros *; intros H%Hcs; done.
Qed.

Lemma calls_are_ok w : hub_ok w → Forall (call_ok w) (calls w).
Proof.
  intros [Hm Hc Hret Hsb Hst Hun Hrp Hord Hdn Hsy Hrt Hwt]. apply Forall_forall. intros [ev|ev d|ev []| | |r|x] H; cbn; auto.
Qed.

Lemma call_set_ok w i c : hub_ok w → call_ok w c → hub_ok (w <| calls := <[i := c]> (calls w) |>).
Proof. intros H Hc. apply calls_ok; [done|]. by apply Forall_insert; [apply calls_are_ok|]. Qed.

Lemma step_sync_send w ev : hub_ok w → room w = true →
  let w' := post (ReqEmit ev (Some (length (dones w)))) w <| dones := dones w ++ [false] |> in
  hub_ok w' ∧ call_ok w' (SyncWait ev (length (dones w))).
Proof.
  intros H Hroom. pose proof (calls_are_ok w H) as Hcalls. rewrite Forall_forall in Hcalls.
  destruct H as [Hm Hc Hret Hsb Hst Hun [Hra Hrb] Hord Hdn Hsy Hrt Hwt]. apply Nat.ltb_lt in Hroom.
  assert (Hfresh : ∀ ev', ReqEmit ev' (Some (length (dones w))) ∉ mailbox w) by (intros ev' Hin; apply Hdn in Hin; lia).
  split.
  - constructor; cbn; try done.
    + rewrite length_app. cbn. lia.
    + intros s [Hs|Hs%list_elem_of_singleton]%elem_of_app; [by apply Hun|done].
    + by rewrite asked_app, app_nil_r.
    + destruct (decide (worker w = Serving)); [by rewrite emits_app, Hord, <- app_assoc|by apply prefix_app_r].
    + intros e d [Hin|Hin%list_elem_of_singleton]%elem_of_app; rewrite length_app; cbn; [apply Hdn in Hin; lia|].
      injection Hin as _ ->. lia.
    + intros e d Hin. destruct (Hsy e d Hin) as (H1 & H2 & H3). rewrite length_app. cbn. split; [lia|]. split.
      * intros Ht. rewrite lookup_app_l in Ht by done. auto.
      * intros e' [He|He%list_elem_of_singleton]%elem_of_app; [by apply H3|]. injection He as _ ->. lia.
  - cbn. rewrite length_app. cbn. split; [lia|]. split.
    + rewrite lookup_app_r, Nat.sub_diag by lia. done.
    + intros e' [He|He%list_elem_of_singleton]%elem_of_app; [by destruct (Hfresh e')|]. by injection He as ->.
Qed.

Lemma step_sub_send w : hub_ok w → room w = true →
  let w' := post (ReqReply (length (replies w))) w <| replies := replies w ++ [None] |> in
  hub_ok w' ∧ call_ok w' (SubWait (length (replies w))).
Proof.
  intros [Hm Hc Hret Hsb Hst Hun [Hra Hrb] Hord Hdn Hsy Hrt Hwt] Hroom. apply Nat.ltb_lt in Hroom.
  assert (Hfresh : length (replies w) ∉ asked (mailbox w)).
  { intros H%Hrb. apply lookup_lt_Some in H. lia. }
  split.
  - constructor; cbn; try done.
    + rewrite length_app. cbn. lia.
    + intros s [Hs|Hs%list_elem_of_singleton]%elem_of_app; [by apply Hun|done].
    + rewrite asked_app. cbn. split.
      * apply NoDup_app. split; [done|]. split; [|apply NoDup_singleton]. by intros x Hx ->%list_elem_of_singleton.
      * intros r [Hr| ->%list_elem_of_singleton]%elem_of_app.
        -- specialize (Hrb r Hr). by rewrite (lookup_app_l_Some _ _ _ _ Hrb).
        -- by rewrite lookup_app_r, Nat.sub_diag by lia.
    + destruct (decide (worker w = Serving)); [by rewrite emits_app, app_nil_r|done].
    + intros e d [Hin|Hin%list_elem_of_singleton]%elem_of_app; [by eapply Hdn|done].
    + intros e d Hin. destruct (Hsy e d Hin) as (H1 & H2 & H3). split; [done|]. split; [done|].
      intros e' [He|He%list_elem_of_singleton]%elem_of_app; [by apply H3|done].
    + intros r Hr. rewrite length_app. specialize (Hwt r Hr). lia.
  - cbn. rewrite length_app. cbn. lia.
Qed.

Lemma step_sub_reply w r x : hub_ok w → replies w !! r = Some (Some x) → hub_ok (w <| replies := <[r := None]> (replies w) |>).
Proof.
  intros [Hm Hc Hret Hsb Hst Hun [Hra Hrb] Hord Hdn Hsy Hrt Hwt] Hr. constructor; cbn; try done.
  - split; [done|]. intros r' Hr'. specialize (Hrb r' Hr'). rewrite list_lookup_insert_ne by congruence. done.
  - intros r' Hr'. rewrite length_insert. auto.
Qed.

Lemma step_ok w w' : hub_ok w → step w w' → hub_ok w'.
Proof.
  intros H Hs. destruct Hs as [w w' req rest Hw Hmb Hh|w Hw Hsp|w w' req rest Hw Hmb Hh|w Hw Hmb|w ev|w|w s|w s|w c Hc|w w' i c c' Hi Hcs].
  - destruct req as [ev d|s|r].
    + destruct (handle_emit_ok w ev d rest H Hw Hmb) as (w1 & E & Hok). congruence.
    + injection Hh as <-. by apply handle_stream_ok.
    + destruct (handle_reply_ok w r rest H Hw Hmb) as (w1 & E & Hok). congruence.
  - destruct H as [Hm Hc Hret Hsb Hst Hun Hrp Hord Hdn Hsy Hrt Hwt]. constructor; cbn; try done.
    rewrite decide_True in Hord by done. rewrite Hord. by apply prefix_app_r.
  - destruct (drain_one_ok w req rest H Hw Hmb) as (w1 & E & Hok). congruence.
  - destruct H as [Hm Hc Hret Hsb Hst Hun Hrp Hord Hdn Hsy Hrt Hwt]. constructor; cbn; try done.
    by rewrite decide_False in Hord by congruence.
  - unfold Emit. destruct (room w) eqn:Er; [by apply post_ok|done].
  - destruct H as [Hm Hc Hret Hsb Hst Hun Hrp Hord Hdn Hsy Hrt Hwt]. by constructor.
  - by apply Stream_Close_ok.
  - by apply Stream_recv_ok.
  - apply calls_ok; [done|]. apply Forall_app. split; [by apply calls_are_ok|]. apply Forall_singleton.
    by destruct Hc as [->|[ev ->]].
  - apply list_elem_of_lookup_2 in Hi as Hin. pose proof (calls_are_ok w H) as Hco. rewrite Forall_forall in Hco.
    specialize (Hco c Hin). destruct Hcs; cbn in Hco.
    + destruct (step_sync_send w ev H) as [? ?]; [done|]. by apply call_set_ok.
    + by apply call_set_ok.
    + apply call_set_ok; [done|]. cbn. by apply Hco.
    + by apply call_set_ok.
    + apply call_set_ok; [done|]. by destruct (stopped w).
    + destruct (step_sub_send w H) as [? ?]; [done|]. by apply call_set_ok.
    + by apply call_set_ok.
    + apply call_set_ok; [|done]. by eapply step_sub_reply.
    + by apply call_set_ok.
Qed.

Lemma reachable_ok q r w : reachable q r w → hub_ok w.
Proof.
  unfold reachable. intros H. assert (H0 : hub_ok (@NewHub Event q r)) by apply hub_ok_new. revert H0.
  induction H as [w|w1 w2 w3 Hs _ IH]; [done|]. intros H0. apply IH. by eapply step_ok.
Qed.
End Invariant.

(* ------------------------------------------------------------------ *)
(** ** Properties *)

(** How many [select]s a call has still to pass. *)
Definition pending {Event} (c : Call Event) : nat :=
  match c with
  | SubCheck => 3
  | SyncSend _ | SubSend => 2
  | SyncWait _ _ | SubWait _ => 1
  | SyncReturn _ _ | SubReturn _ => 0
  end.

Lemma call_step_pending {Event} (w w' : World Event) c c' : call_step w c w' c' → (pending c' < pending c)%nat.
Proof. destruct 1; cbn; try lia. destruct (stopped w); cbn; lia. Qed.

Lemma stopped_call_step {Event} (w : World Event) c : hub_ok w → stopped w = true → c ∈ calls w →
  pending c = 0%nat ∨ ∃ w' c', call_step w c w' c'.
Proof.
  intros H Hs Hc. destruct c as [ev|ev d|ev b| | |r|x]; [right|right|by left|right|right|right|by left].
  - exists w, (SyncReturn ev false). by constructor.
  - exists w, (SyncReturn ev false). by constructor.
  - eexists _, _. constructor.
  - exists w, (SubReturn None). by constructor.
  - pose proof (ho_wait _ H r Hc) as Hr. apply lookup_lt_is_Some_2 in Hr as [[x|] Hr].
    + eexists _, _. by apply sub_reply.
    + exists w, (SubReturn None). by constructor.
Qed.

(** [C27] The hub never stalls, whatever emitters, subscribers and readers do and
    however they interleave. Its mailbox, its replay history and every stream
    keep their bounds; the worker can always take its next step on a non-empty
    mailbox, even the preload of a new stream and the answer to a subscriber,
    which are blocking sends; and once the hub is closed every [EmitSync] and
    [Subscribe] under way can go on by itself and returns after at most three
    of its own steps. *)
Theorem hub_never_stalls {Event} (q r : Z) (w : World Event) : reachable q r w →
  (length (mailbox w) <= hubMailboxCapacity)%nat ∧ (length (retained w) <= replayCap w)%nat ∧
  (∀ k st, streams w !! k = Some st → (length (strm_c st) <= queue w)%nat) ∧
  (mailbox w ≠ [] → worker w ≠ Exited → ∃ w' req rest, mailbox w = req :: rest ∧
     (if decide (worker w = Serving) then handle req else drain_one req) (w <| mailbox := rest |>) = Some w') ∧
  (stopped w = true → ∀ c, c ∈ calls w → pending c = 0%nat ∨
     (∃ w' c', call_step w c w' c') ∧ ∀ w' c', call_step w c w' c' → (pending c' < pending c <= 3)%nat).
Proof.
  intros H%reachable_ok. split; [apply H|]. split; [rewrite (ho_retained _ H), length_lastn; lia|].
  split; [intros k st Hk; by apply (ho_streams _ H k st Hk)|]. split.
  - intros Hm Hw. destruct (mailbox w) as [|req rest] eqn:Em; [done|]. destruct (decide (worker w = Serving)) as [Hs|Hs].
    + destruct req as [ev d|s|x].
      * destruct (handle_emit_ok w ev d rest H Hs Em) as (w1 & E & _). by exists w1, (ReqEmit ev d), rest.
      * by eexists _, (ReqStream s), rest.
      * destruct (handle_reply_ok w x rest H Hs Em) as (w1 & E & _). by exists w1, (ReqReply x), rest.
    + assert (Hd : worker w = Draining) by (by destruct (worker w)).
      destruct (drain_one_ok w req rest H Hd Em) as (w1 & E & _). by exists w1, req, rest.
  - intros Hs c Hc. destruct (stopped_call_step w c H Hs Hc) as [Hp|Hstep]; [by left|]. right. split; [done|].
    intros w' c' Hcs%call_step_pending. split; [done|]. destruct c; cbn; lia.
Qed.

(** [C26] What subscribers see. Events are dispatched in the order the mailbox
    took them, and [EmitSync] reports true only for a dispatched event. What a
    stream has been given is the history retained when it was registered,
    whole and first (the last [replayCap] events dispatched before), then live
    events in dispatch order without duplicates; of the events dispatched
    since, an open stream got every one except as many as found it full. *)
Theorem hub_delivery {Event} (q r : Z) (w : World Event) : reachable q r w →
  (dispatched w `prefix_of` accepted w) ∧
  (∀ ev, SyncReturn ev true ∈ calls w → ev ∈ dispatched w) ∧
  (∀ k st, streams w !! k = Some st → ∃ live,
     strm_read st ++ strm_c st = lastn (replayCap w) (take (strm_since st) (dispatched w)) ++ live ∧
     live `sublist_of` drop (strm_since st) (dispatched w) ∧
     (strm_closed st = false → (length live + strm_missed st)%nat = length (drop (strm_since st) (dispatched w)))).
Proof.
  intros H%reachable_ok. split; [|split].
  - pose proof (ho_order _ H) as Ho. destruct (decide (worker w = Serving)); [rewrite Ho; by apply prefix_app_r|done].
  - apply H.
  - intros k st Hk. destruct (ho_streams _ H k st Hk) as [[_ _ (live & H1 & H2 & H3)] _]. exists live.
    rewrite length_drop. auto.
Qed.

(* ------------------------------------------------------------------ *)
(** ** Witnesses *)

(** Two events before a subscription with one event of history, one after it. *)
Definition sample_hub : World Z :=
  mkHubWorld [] 1 1 [3] [0%nat] false Serving [mkStream [2] false [] 1 2] [None] [] [SubReturn (Some 0%nat)] [1; 2; 3] [1; 2; 3].

Lemma step_to (w w1 w2 w3 : World Z) : step w w1 → w1 = w2 → rtc step w2 w3 → rtc step w w3.
Proof. intros H -> H3. by eapply rtc_l. Qed.
Ltac hub_go s := eapply step_to; [s|vm_compute; reflexivity|].

Lemma sample_hub_reachable : reachable 1 1 sample_hub.
Proof.
  unfold reachable. hub_go ltac:(apply (step_emit _ 1)). hub_go ltac:(apply (step_emit _ 2)).
  hub_go ltac:(eapply step_handle; [reflexivity|reflexivity|vm_compute; reflexivity]).
  hub_go ltac:(eapply step_handle; [reflexivity|reflexivity|vm_compute; reflexivity]).
  hub_go ltac:(apply (step_enter _ SubCheck); by left).
  hub_go ltac:(eapply (step_call _ _ 0); [reflexivity|apply sub_check]).
  hub_go ltac:(eapply (step_call _ _ 0); [reflexivity|by apply sub_send]).
  hub_go ltac:(eapply step_handle; [reflexivity|reflexivity|vm_compute; reflexivity]).
  hub_go ltac:(eapply (step_call _ _ 0); [reflexivity|by apply sub_reply]).
  hub_go ltac:(apply (step_emit _ 3)). hub_go ltac:(eapply step_handle; [reflexivity|reflexivity|vm_compute; reflexivity]).
  apply rtc_refl.
Qed.

Lemma hub_never_stalls_witness : reachable 1 1 sample_hub ∧ (length (mailbox sample_hub) <= 256)%nat.
Proof. split; [exact sample_hub_reachable|]. exact (proj1 (hub_never_stalls 1 1 sample_hub sample_hub_reachable)). Defined.

Lemma hub_delivery_witness : ∃ live, [2] = lastn 1 (take 2 [1; 2; 3]) ++ live ∧ (length live + 1)%nat = 1%nat.
Proof.
  destruct (hub_delivery 1 1 sample_hub sample_hub_reachable) as (_ & _ & H).
  destruct (H 0%nat _ eq_refl) as (live & H1 & _ & H3). exists live. split; [exact H1|exact (H3 eq_refl)].
Defined.
