(* ===== verification/Transport.v ===== *)
(** * Transport (src/transport/frame.go, src/transport/workers.go, src/wire.go)

    NAT-T framing and its classification, the writer and the reader of the
    injected wire, and the adapter that carries datagrams over a byte stream.

    The wire is the caller's: a write is answered by an oracle, a read observes
    what the environment chose. Pooled buffers and frames are named by numbers,
    so that who holds them can be stated. *)

From stdpp Require Import relations.
From S2P Require Import Prelude.

Definition MaxWireDatagram : Z := 65535.
Definition LogicalNatTPort : Z := 4500.
Definition NonESPMarkerLen : Z := 4.

Inductive Kind := KindIKE | KindESP | KindKeepalive.
#[global] Instance Kind_eq_dec : EqDecision Kind.
Proof. solve_decision. Defined.

(* ------------------------------------------------------------------ *)
(** ** frame.go *)

Definition all_zeros (b : list Z) : bool := forallb (λ v, v =? 0) b.

Definition Classify (payload : list Z) : Kind :=
  if bool_decide (payload = [255]) then KindKeepalive
  else if (NonESPMarkerLen <=? len payload) && all_zeros (take (Z.to_nat NonESPMarkerLen) payload) then KindIKE
  else KindESP.

(** [net.Addr] as [LogicalAddr] tells its cases apart. *)
Inductive Addr :=
  | TCPAddr (ip : list Z) (port : Z) (zone : string)
  | UDPAddr (ip : list Z) (port : Z) (zone : string)
  | OtherAddr (name : string).

Definition LogicalAddr (a : option Addr) : option Addr :=
  match a with
  | None => None
  | Some (TCPAddr ip _ zone) => Some (TCPAddr ip LogicalNatTPort zone)
  | Some (UDPAddr ip _ zone) => Some (UDPAddr ip LogicalNatTPort zone)
  | Some a => Some a
  end.

(** [Frame]; [fr_id] names its backing, [fr_hook] whether a release hook is
    attached. *)
Record Frame := mkFrame { fr_id : nat; fr_kind : Kind; fr_payload : list Z; fr_hook : bool }.

Definition shapedPayload (f : Frame) : res (list Z) :=
  match fr_kind f with
  | KindKeepalive => Ok [255]
  | KindIKE =>
      let total := NonESPMarkerLen + len (fr_payload f) in
      if MaxWireDatagram <? total then Err "github.com/wsm25/swan/transport: ike frame payload %d exceeds limit %d"
      else Ok (replicate (Z.to_nat NonESPMarkerLen) 0 ++ fr_payload f)
  | KindESP =>
      if MaxWireDatagram <? len (fr_payload f) then Err "github.com/wsm25/swan/transport: esp frame payload %d exceeds limit %d"
      else Ok (fr_payload f)
  end.

(* ------------------------------------------------------------------ *)
(** ** TxWorker *)

Definition writeBatch : nat := 32.

(** The wire as the writer sees it: what the [n]-th call answers to the bytes
    (or to the datagrams) it is given: a count and an error. *)
Record Wire := mkWire {
  wire_Write : Z → list Z → Z * option string;
  wire_WriteBatch : option (Z → list (list Z) → Z * option string) }.

(** The worker and its queue ([None]: a nil frame); [tx_wire] are the datagrams
    the wire took, [tx_released] the frames whose hook has run; [tx_ended]: the
    queue is closed, [tx_closed]: the worker is. *)
Record Tx := mkTx {
  tx_frames : list (option Frame);
  tx_ended : bool;
  tx_closed : bool;
  tx_calls : Z;
  tx_wire : list (list Z);
  tx_released : list nat }.
#[global] Instance Frame_eq_dec : EqDecision Frame.
Proof. solve_decision. Defined.
#[global] Instance eta_Tx : Eta Tx := λ t,
  mkTx (tx_frames t) (tx_ended t) (tx_closed t) (tx_calls t) (tx_wire t) (tx_released t).

Section Tx.
Context (wire : Wire).

(** [Release] on a frame. *)
Definition release (f : Frame) (t : Tx) : Tx :=
  if fr_hook f then t <| tx_released := tx_released t ++ [fr_id f] |> else t.

(** [writeAll]: every call takes at least one byte or ends the loop. *)
Fixpoint writeAll (fuel : nat) (b : list Z) (t : Tx) : Tx * res unit :=
  match b with
  | [] => (t, Ok tt)
  | _ =>
      match fuel with
      | O => (t, Hang)
      | S fuel =>
          let '(n, err) := wire_Write wire (tx_calls t) b in
          let t := t <| tx_calls := tx_calls t + 1 |> in
          if (n <? 0) || (len b <? n) then (t, Err "github.com/wsm25/swan/transport: invalid write count %d")
          else
          let t := if 0 <? n then t <| tx_wire := tx_wire t ++ [take (Z.to_nat n) b] |> else t in
          match err with
          | Some e => (t, Err e)
          | None => if n =? 0 then (t, Err "short write") else writeAll fuel (drop (Z.to_nat n) b) t
          end
      end
  end.

Definition writeFrame (f : Frame) (t : Tx) : Tx * res unit :=
  let '(t, r) :=
    match shapedPayload f with
    | Ok body => writeAll (length body) body t
    | Err e => (t, Err e)
    | Panic => (t, Panic)
    | Hang => (t, Hang)
    end in
  (release f t, r).

(** The per-frame loop over a drained group. *)
Fixpoint write_frames (fs : list Frame) (t : Tx) : Tx * res unit :=
  match fs with
  | [] => (t, Ok tt)
  | f :: fs => match writeFrame f t with (t, Ok _) => write_frames fs t | r => r end
  end.

Fixpoint shape_all (fs : list Frame) : res (list (list Z)) :=
  match fs with
  | [] => Ok []
  | f :: fs => b ← shapedPayload f; bs ← shape_all fs; Ok (b :: bs)
  end.

(** The [WriteBatch] loop over what is left of the bodies. *)
Fixpoint write_bodies (call : Z → list (list Z) → Z * option string) (fuel : nat) (bodies : list (list Z)) (t : Tx) :
    Tx * res unit :=
  match bodies with
  | [] => (t, Ok tt)
  | _ =>
      match fuel with
      | O => (t, Hang)
      | S fuel =>
          let '(n, err) := call (tx_calls t) bodies in
          let t := t <| tx_calls := tx_calls t + 1 |> in
          if (n <? 0) || (len bodies <? n) then (t, Err "github.com/wsm25/swan/transport: invalid batch write count %d")
          else
          let t := t <| tx_wire := tx_wire t ++ take (Z.to_nat n) bodies |> in
          match err with
          | Some e => (t, Err e)
          | None => if n =? 0 then (t, Err "short write") else write_bodies call fuel (drop (Z.to_nat n) bodies) t
          end
      end
  end.

Definition release_all (fs : list Frame) (t : Tx) : Tx := foldl (λ t f, release f t) t fs.

Definition write_batch (call : Z → list (list Z) → Z * option string) (fs : list Frame) (t : Tx) : Tx * res unit :=
  let '(t, r) :=
    match shape_all fs with
    | Ok bodies => write_bodies call (length bodies) bodies t
    | Err e => (t, Err e)
    | Panic => (t, Panic)
    | Hang => (t, Hang)
    end in
  (release_all fs t, r).

(** Up to [n] more frames that are already queued; a nil frame uses up its
    turn. *)
Fixpoint drain_queue (n : nat) (q : list (option Frame)) : list Frame * list (option Frame) :=
  match n, q with
  | S n, Some f :: q => let '(fs, q) := drain_queue n q in (f :: fs, q)
  | S n, None :: q => drain_queue n q
  | _, q => ([], q)
  end.

(** One iteration of [Run] that finds a frame: the burst it takes, written. *)
Definition tx_burst (t : Tx) : Tx * res unit :=
  match tx_frames t with
  | [] => (t, Ok tt)
  | None :: q => (t <| tx_frames := q |>, Ok tt)
  | Some f :: q =>
      let '(fs, q) := drain_queue writeBatch q in
      let t := t <| tx_frames := q |> in
      match wire_WriteBatch wire with
      | Some call => write_batch call (f :: fs) t
      | None => write_frames (f :: fs) t
      end
  end.

(** The drain after [Close]. *)
Fixpoint tx_drain (q : list (option Frame)) (t : Tx) : Tx * res unit :=
  match q with
  | [] => (t <| tx_frames := [] |>, Ok tt)
  | None :: q => tx_drain q t
  | Some f :: q => match writeFrame f (t <| tx_frames := q |>) with (t, Ok _) => tx_drain q t | r => r end
  end.

(** What happens around the worker: a frame is queued, the queue or the worker
    is closed, the worker's [select] takes a frame or the close. *)
Inductive tx_event := TxQueue (f : option Frame) | TxEnd | TxClose | TxBurst | TxDrain.

(** [Run] over a schedule; [Some r]: it returned [r]. *)
Fixpoint tx_run (events : list tx_event) (t : Tx) : Tx * option (res unit) :=
  match events with
  | [] => (t, None)
  | TxQueue f :: events => tx_run events (t <| tx_frames := tx_frames t ++ [f] |>)
  | TxEnd :: events => tx_run events (t <| tx_ended := true |>)
  | TxClose :: events => tx_run events (t <| tx_closed := true |>)
  | TxBurst :: events =>
      if tx_ended t && bool_decide (tx_frames t = []) then (t, Some (Ok tt))
      else match tx_burst t with (t, Ok _) => tx_run events t | (t, r) => (t, Some r) end
  | TxDrain :: events => if tx_closed t then let '(t, r) := tx_drain (tx_frames t) t in (t, Some r) else tx_run events t
  end.
End Tx.

(* ------------------------------------------------------------------ *)
(** ** RxWorker *)

Definition rxBatch : nat := 32.

(** [Packet] with the pool buffer behind it. *)
Record Packet := mkPacket { pk_kind : Kind; pk_payload : list Z; pk_buf : nat }.

(** The reader goroutine: before a read, with the datagrams of a read (each in
    its buffer), the buffers the read left unused and its error, or gone. *)
Inductive Reader :=
  | RdIdle
  | RdBusy (todo : list (nat * list Z)) (unused : list nat) (err : option string)
  | RdDone.

(** The worker: reader and [Run] loop with the channels between them.
    [rx_gets] counts the buffers taken from the pool, which names them;
    [rx_flushing] is [Some fast] while [Run] is blocked in [deliverBatch], with
    the value [fastOK] takes afterwards;
    [rx_ctl], [rx_esp] and [rx_returned] are what was handed over and what went
    back to the pool, [rx_wire] the datagrams read from the wire and [rx_seen]
    those that were consumed, in order. *)
Record Rx := mkRx {
  rx_gets : nat;
  rx_keepalives : Z;
  rx_closed : bool;
  rx_reader : Reader;
  rx_err : option string;
  rx_batch : list Packet;
  rx_fastOK : bool;
  rx_flushing : option bool;
  rx_result : option (res unit);
  rx_ctl : list Packet;
  rx_esp : list (list Packet);
  rx_returned : list nat;
  rx_wire : list (list Z);
  rx_seen : list (list Z) }.
#[global] Instance eta_Rx : Eta Rx := λ w,
  mkRx (rx_gets w) (rx_keepalives w) (rx_closed w) (rx_reader w) (rx_err w) (rx_batch w) (rx_fastOK w) (rx_flushing w)
    (rx_result w) (rx_ctl w) (rx_esp w) (rx_returned w)
    (rx_wire w) (rx_seen w).

Definition NewRxWorker : Rx := mkRx 0 0 false RdIdle None [] true None None [] [] [] [] [].

Definition rx_put (bufs : list nat) (w : Rx) : Rx := w <| rx_returned := rx_returned w ++ bufs |>.

(** [releaseBatch] on the way out of [Run]. *)
Definition rx_leave (r : res unit) (w : Rx) : Rx :=
  rx_put (pk_buf <$> rx_batch w) w <| rx_batch := [] |> <| rx_flushing := None |> <| rx_result := Some r |>.

(** [deliverBatch]: the channel took the batch, or the close was seen instead. *)
Definition rx_taken (fast : bool) (w : Rx) : Rx :=
  w <| rx_esp := rx_esp w ++ [rx_batch w] |> <| rx_batch := [] |> <| rx_fastOK := fast |> <| rx_flushing := None |>.
Definition rx_given_up (w : Rx) : Rx := rx_leave (Ok tt) w.

(** [Run] receives an ESP packet from the reader. *)
Definition rx_packet (p : Packet) (w : Rx) : Rx :=
  let w := w <| rx_batch := rx_batch w ++ [p] |> in
  if (rxBatch <=? length (rx_batch w))%nat then w <| rx_flushing := Some true |>
  else if rx_fastOK w then w <| rx_flushing := Some false |>
  else w.

Definition rx_tick (w : Rx) : Rx := if bool_decide (rx_batch w = []) then w else w <| rx_flushing := Some true |>.

(** A datagram was consumed. *)
Definition rx_consume (d : list Z) (w : Rx) : Rx := w <| rx_seen := rx_seen w ++ [d] |>.

(** The reader saw the close while it delivered: what it still holds goes back. *)
Definition rx_abort (buf : nat) (todo : list (nat * list Z)) (unused : list nat) (w : Rx) : Rx :=
  rx_put (buf :: (fst <$> todo) ++ unused) w <| rx_reader := RdDone |>.

(** [classifyAndDeliver] on the next datagram of a read: [taken] says whether a
    channel took it or the close was seen. *)
Definition classifyAndDeliver (taken : bool) (buf : nat) (d : list Z) (todo : list (nat * list Z)) (unused : list nat)
    (err : option string) (w : Rx) : Rx :=
  let next w := w <| rx_reader := RdBusy todo unused err |> in
  match Classify d with
  | KindKeepalive =>
      rx_put [buf] (rx_consume d (next w)) <| rx_keepalives := u64 (rx_keepalives w + 1) |>
  | KindIKE =>
      if taken then
        rx_consume d (next w) <| rx_ctl := rx_ctl w ++ [mkPacket KindIKE (drop (Z.to_nat NonESPMarkerLen) d) buf] |>
      else rx_abort buf todo unused w
  | KindESP =>
      if taken then rx_packet (mkPacket KindESP d buf) (rx_consume d (next w))
      else rx_abort buf todo unused w
  end.

Definition EOF : string := "EOF".

(** The steps of reader, [Run] and the caller of [Close]; a send that is given
    up needs the close. *)
Inductive rx_step : Rx → Rx → Prop :=
  | rx_close w : rx_step w (w <| rx_closed := true |>)
  | rx_reader_close w : rx_reader w = RdIdle → rx_closed w = true → rx_step w (w <| rx_reader := RdDone |>)
  | rx_read w (ds : list (list Z)) (n : nat) err : rx_reader w = RdIdle →
      (rx_step w (w <| rx_reader := RdBusy (zip (seq (rx_gets w) (length ds)) ds) (seq (rx_gets w + length ds) n) err |>
                    <| rx_gets := (rx_gets w + length ds + n)%nat |> <| rx_wire := rx_wire w ++ ds |>))
  | rx_deliver w buf d todo unused err taken : rx_reader w = RdBusy ((buf, d) :: todo) unused err →
      (taken = false → rx_closed w = true) →
      (Classify d = KindESP → taken = true → rx_result w = None ∧ rx_flushing w = None) →
      rx_step w (classifyAndDeliver taken buf d todo unused err w)
  | rx_read_done w unused : rx_reader w = RdBusy [] unused None →
      rx_step w (rx_put unused w <| rx_reader := RdIdle |>)
  | rx_read_err w unused e : rx_reader w = RdBusy [] unused (Some e) → ¬ (e = EOF ∧ rx_closed w = true) →
      rx_step w (rx_put unused w <| rx_reader := RdDone |> <| rx_err := Some e |>)
  | rx_read_end w unused e : rx_reader w = RdBusy [] unused (Some e) → rx_closed w = true →
      rx_step w (rx_put unused w <| rx_reader := RdDone |>)
  | rx_run_closed w : rx_result w = None → rx_flushing w = None → rx_closed w = true → rx_step w (rx_leave (Ok tt) w)
  | rx_run_err w e : rx_result w = None → rx_flushing w = None → rx_err w = Some e →
      rx_step w (rx_leave (if bool_decide (e = EOF) && rx_closed w then Ok tt else Err e) (w <| rx_err := None |>))
  | rx_run_tick w : rx_result w = None → rx_flushing w = None → rx_step w (rx_tick w)
  | rx_run_taken w fast : rx_flushing w = Some fast → rx_step w (rx_taken fast w)
  | rx_run_given_up w fast : rx_flushing w = Some fast → rx_closed w = true → rx_step w (rx_given_up w).

Definition rx_reachable : Rx → Prop := rtc rx_step NewRxWorker.

(* ------------------------------------------------------------------ *)
(** ** The framed wire (wire.go) *)

(** [framedWire]: the bytes accumulated and the latched error. *)
Record Framed := mkFramed { fw_acc : list Z; fw_terminal : option string }.

Definition ErrUnexpectedEOF : string := "unexpected EOF".

(** The length announced by the prefix, once two bytes are there. *)
Definition fw_need (acc : list Z) : option Z :=
  match acc with b0 :: b1 :: _ => Some (be_value [b0; b1]) | _ => None end.
Definition fw_whole (acc : list Z) : bool := match fw_need acc with Some n => 2 + n <=? len acc | None => false end.

(** [Read] into a buffer of [cap] bytes over what the stream's [Read] still
    yields ([None]: no error): the state, the reads left and the datagram;
    [Hang]: it still waits for the stream. *)
Fixpoint fw_fill (cap : Z) (reads : list (list Z * option string)) (w : Framed) :
    Framed * list (list Z * option string) * res (list Z) :=
  if fw_whole (fw_acc w) then
    match fw_need (fw_acc w) with
    | Some n =>
        if cap <? n then (w, reads, Err "short buffer")
        else (mkFramed (drop (Z.to_nat (2 + n)) (fw_acc w)) (fw_terminal w), reads,
              Ok (take (Z.to_nat n) (drop 2 (fw_acc w))))
    | None => (w, reads, Panic)
    end
  else
  match fw_terminal w with
  | Some _ => (mkFramed [] (fw_terminal w), reads, Err ErrUnexpectedEOF)
  | None =>
      match reads with
      | [] => (w, [], Hang)
      | (chunk, err) :: reads =>
          let acc := fw_acc w ++ chunk in
          match err with
          | None => fw_fill cap reads (mkFramed acc None)
          | Some e =>
              if bool_decide (e = EOF) && (0 <? len chunk) then fw_fill cap reads (mkFramed acc None)
              else if len acc =? 0 then (mkFramed acc (Some e), reads, Err e)
              else fw_fill cap reads (mkFramed acc (Some e))
          end
      end
  end.

Definition framed_Read (cap : Z) (reads : list (list Z * option string)) (w : Framed) :
    Framed * list (list Z * option string) * res (list Z) :=
  match fw_terminal w with
  | Some e => if len (fw_acc w) =? 0 then (w, reads, Err e) else fw_fill cap reads w
  | None => fw_fill cap reads w
  end.

Definition framed_bytes (p : list Z) : list Z := putUint16 (len p) ++ p.

(** The stream writes of [Write], the [n]-th answered by [write n]; [sent] is
    what the stream took so far. *)
Fixpoint fw_push (write : Z → list Z → Z * option string) (fuel : nat) (n written : Z) (frame sent : list Z) :
    list Z * res unit :=
  if len frame <=? written then (sent, Ok tt)
  else if written <? 0 then (sent, Panic)
  else
  match fuel with
  | O => (sent, Hang)
  | S fuel =>
      let rest := drop (Z.to_nat written) frame in
      let '(k, err) := write n rest in
      let sent := sent ++ take (Z.to_nat k) rest in
      match err with
      | Some e => (sent, Err e)
      | None => if k =? 0 then (sent, Err "short write") else fw_push write fuel (n + 1) (written + k) frame sent
      end
  end.

Definition framed_Write (write : Z → list Z → Z * option string) (p : list Z) : list Z * res unit :=
  if MaxWireDatagram <? len p then ([], Err "short write")
  else fw_push write (length (framed_bytes p)) 0 0 (framed_bytes p) [].

(* ------------------------------------------------------------------ *)
(** ** Lemmas: framing *)

Lemma classify_shape f b : shapedPayload f = Ok b → fr_kind f = KindIKE →
  Classify b = KindIKE ∧ drop (Z.to_nat NonESPMarkerLen) b = fr_payload f.
Proof.
  unfold shapedPayload. intros H Hk. rewrite Hk in H. destruct (_ <? _); [done|]. injection H as <-. cbn.
  unfold Classify, NonESPMarkerLen. rewrite bool_decide_false by done. rewrite !len_cons.
  pose proof (len_nonneg (fr_payload f)). replace (4 <=? _) with true by lia. done.
Qed.

(** A reader that gets, in whatever pieces, the frames of [ds] and then the end
    of the stream. *)
Definition datagram_ok (p : list Z) : Prop := bytes p ∧ len p <= MaxWireDatagram.

Lemma fw_need_frame p rest : datagram_ok p → fw_need (framed_bytes p ++ rest) = Some (len p).
Proof.
  intros [_ Hl]. unfold framed_bytes. pose proof (len_nonneg p). unfold MaxWireDatagram in Hl.
  pose proof (beUint16_put (len p) []) as E. unfold putUint16 in *. cbn [app] in *.
  rewrite beUint16_value in E by (apply (putUint16_bytes (len p))). injection (E ltac:(lia)) as E'.
  unfold fw_need. by rewrite E'.
Qed.

Lemma fw_whole_frame p rest : datagram_ok p → fw_whole (framed_bytes p ++ rest) = true.
Proof.
  intros Hp. unfold fw_whole. rewrite fw_need_frame by done. unfold framed_bytes. len_norm.
  pose proof (len_nonneg rest). lia.
Qed.

(** A read that only brings data: no error, or the end of the stream together
    with data (which the stream then reports again). *)
Definition plain_read (r : list Z * option string) : Prop := r.2 = None ∨ (r.2 = Some EOF ∧ r.1 ≠ []).
Definition received (reads : list (list Z * option string)) : list Z := concat (fst <$> reads).

Lemma fw_need_prefix acc x n : fw_need (acc ++ x) = Some n → fw_need acc = None ∨ fw_need acc = Some n.
Proof. destruct acc as [|a [|b acc]]; cbn; auto. Qed.

Lemma fw_whole_prefix acc x p rest : datagram_ok p → acc ++ x = framed_bytes p ++ rest → fw_whole acc = true →
  fw_need acc = Some (len p) ∧ ∃ acc', acc = framed_bytes p ++ acc' ∧ acc' ++ x = rest.
Proof.
  intros Hp He Hw. unfold fw_whole in Hw.
  destruct (fw_need_prefix acc x (len p)) as [E|E]; [rewrite He; by apply fw_need_frame|by rewrite E in Hw|].
  rewrite E in Hw. split; [done|]. assert (Hl : (length (framed_bytes p) <= length acc)%nat).
  { apply Z.leb_le in Hw. unfold framed_bytes. rewrite length_app. change (length (putUint16 (len p))) with 2%nat.
    unfold len in Hw. lia. }
  apply app_eq_app in He as (l & [[-> ->]|[He ->]]); [by exists l|].
  exists []. rewrite He in Hl. rewrite length_app in Hl. destruct l; [|cbn in Hl; lia]. rewrite !app_nil_r in *. by subst.
Qed.

Lemma fw_fill_plain cap c e reads acc : plain_read (c, e) → fw_whole acc = false →
  fw_fill cap ((c, e) :: reads) (mkFramed acc None) = fw_fill cap reads (mkFramed (acc ++ c) None).
Proof.
  intros Hp Hw. cbn [fw_fill fw_acc fw_terminal]. rewrite Hw. destruct Hp as [He|[He Hc]]; cbn in He; subst e; [done|]. cbn in Hc.
  rewrite bool_decide_true by done. destruct c; [done|]. rewrite len_cons. pose proof (len_nonneg c).
  by replace (0 <? 1 + len c) with true by lia.
Qed.

Lemma fw_take p acc : take (Z.to_nat (len p)) (drop 2 (framed_bytes p ++ acc)) = p.
Proof.
  unfold framed_bytes. rewrite <- app_assoc. rewrite drop_app_length' by done.
  unfold len. rewrite Nat2Z.id. apply take_app_length.
Qed.
Lemma fw_drop p acc : drop (Z.to_nat (2 + len p)) (framed_bytes p ++ acc) = acc.
Proof. apply drop_app_length'. unfold framed_bytes, len. rewrite length_app. change (length (putUint16 (Z.of_nat (length p)))) with 2%nat. lia. Qed.

(** One datagram comes out as soon as its last byte is there. *)
Lemma fw_fill_one cap p rest tail reads : datagram_ok p → MaxWireDatagram <= cap → Forall plain_read reads →
  ∀ acc, acc ++ received reads = framed_bytes p ++ rest →
  ∃ acc' reads', fw_fill cap (reads ++ tail) (mkFramed acc None) = (mkFramed acc' None, reads' ++ tail, Ok p) ∧
    acc' ++ received reads' = rest ∧ Forall plain_read reads'.
Proof.
  intros Hp Hcap Hr. induction Hr as [|[c e] reads Hc Hr IH]; intros acc He.
  - assert (Hw : fw_whole acc = true) by (unfold received in He; cbn in He; rewrite app_nil_r in He; rewrite He; by apply fw_whole_frame).
    destruct (fw_whole_prefix acc _ p rest Hp He Hw) as (Hn & acc' & -> & Hx).
    exists acc', []. split; [|done]. cbn [app]. destruct tail as [|[c e] tail]; cbn [fw_fill fw_acc];
      rewrite Hw, Hn, fw_take, fw_drop; by destruct (Z.ltb_spec cap (len p)); [destruct Hp; lia|].
  - destruct (fw_whole acc) eqn:Hw.
    + destruct (fw_whole_prefix acc _ p rest Hp He Hw) as (Hn & acc' & -> & Hx).
      exists acc', ((c, e) :: reads). split; [|by split; [|constructor]]. cbn [app fw_fill fw_acc].
      rewrite Hw, Hn, fw_take, fw_drop. by destruct (Z.ltb_spec cap (len p)); [destruct Hp; lia|].
    + cbn [app]. rewrite fw_fill_plain by done. apply IH. rewrite <- app_assoc. exact He.
Qed.

Lemma fw_whole_mono acc x : fw_whole acc = true → fw_whole (acc ++ x) = true.
Proof.
  unfold fw_whole. destruct (fw_need acc) as [n|] eqn:E; [|done]. destruct acc as [|b0 [|b1 acc]]; [done..|].
  cbn in E |- *. injection E as <-. rewrite !len_cons, len_app. pose proof (len_nonneg x). lia.
Qed.

(** The stream ends, between two frames or inside one. *)
Lemma fw_fill_end cap part reads : Forall plain_read reads → fw_whole part = false → ∀ acc, acc ++ received reads = part →
  fw_fill cap (reads ++ [([], Some EOF)]) (mkFramed acc None) =
  (mkFramed [] (Some EOF), [], Err (if bool_decide (part = []) then EOF else ErrUnexpectedEOF)).
Proof.
  intros Hr Hw. induction Hr as [|[c e] reads Hc Hr IH]; intros acc He.
  - unfold received in He. cbn in He. rewrite app_nil_r in He. subst acc. cbn [app fw_fill fw_acc fw_terminal].
    rewrite Hw, bool_decide_true by done. cbn. rewrite app_nil_r. destruct part as [|b part]; [done|].
    rewrite len_cons. pose proof (len_nonneg part). replace (1 + len part =? 0) with false by lia.
    cbn [fw_acc fw_terminal]. by rewrite Hw.
  - assert (Ha : fw_whole acc = false).
    { destruct (fw_whole acc) eqn:E; [|done]. apply (fw_whole_mono _ (received ((c, e) :: reads))) in E. congruence. }
    cbn [app]. rewrite fw_fill_plain by done. apply IH. rewrite <- app_assoc. exact He.
Qed.

(** [n] calls of [Read] in a row. *)
Fixpoint read_n (n : nat) (cap : Z) (reads : list (list Z * option string)) (w : Framed) : list (res (list Z)) :=
  match n with
  | O => []
  | S n => let '(w, reads, r) := framed_Read cap reads w in r :: read_n n cap reads w
  end.

(** A stream that takes at least one byte of every write. *)
Definition stream_takes (write : Z → list Z → Z * option string) : Prop :=
  ∀ n b, b ≠ [] → (write n b).2 = None ∧ 0 < (write n b).1 <= len b.

Lemma fw_push_all write frame : stream_takes write → ∀ fuel n written sent, 0 <= written <= len frame →
  len frame - written <= Z.of_nat fuel →
  fw_push write fuel n written frame sent = (sent ++ drop (Z.to_nat written) frame, Ok tt).
Proof.
  intros Hs. induction fuel as [|fuel IH]; intros n written sent Hw Hf; cbn [fw_push];
    destruct (Z.leb_spec (len frame) written) as [Hl|Hl];
    try (rewrite drop_ge by (unfold len in *; lia); by rewrite app_nil_r); [lia|].
  replace (written <? 0) with false by lia. set (rest := drop (Z.to_nat written) frame).
  assert (Hlr : len rest = len frame - written) by (unfold rest, len in *; rewrite length_drop; lia).
  assert (Hne : rest ≠ []) by (intros E; rewrite E in Hlr; rewrite len_nil in Hlr; lia).
  destruct (Hs n rest Hne) as [He Hk]. destruct (write n rest) as [k err]. cbn in He, Hk. subst err.
  replace (k =? 0) with false by lia. rewrite IH by lia. f_equal. rewrite <- app_assoc. f_equal.
  unfold rest. rewrite <- (take_drop (Z.to_nat k) (drop (Z.to_nat written) frame)) at 2. f_equal. rewrite drop_drop.
  f_equal. lia.
Qed.

Lemma framed_Write_all write p : stream_takes write → datagram_ok p → framed_Write write p = (framed_bytes p, Ok tt).
Proof.
  intros Hs [_ Hl]. unfold framed_Write. replace (MaxWireDatagram <? len p) with false by lia.
  rewrite fw_push_all; [done|done| |]; pose proof (len_nonneg (framed_bytes p)); unfold len in *; lia.
Qed.

(** The stream adapter is transparent. Datagrams of at most 65535 bytes
    written through it over any stream that takes the bytes in pieces, and read
    back from any fragmentation of those bytes (empty reads, reads that end
    inside a length prefix, data that comes together with the end of the
    stream), come out one per [Read], unchanged and in order; after the last
    one [Read] reports the end of the stream, and a stream cut inside a frame is
    reported as such once and never as a datagram. *)
Theorem framed_roundtrip (write : Z → list Z → Z * option string) (cap : Z) (ds : list (list Z)) (part : list Z)
    (reads : list (list Z * option string)) :
  stream_takes write → Forall datagram_ok ds → MaxWireDatagram <= cap → Forall plain_read reads → fw_whole part = false →
  received reads = concat ((λ p, (framed_Write write p).1) <$> ds) ++ part →
  Forall (λ p, (framed_Write write p).2 = Ok tt) ds ∧
  read_n (length ds + 2) cap (reads ++ [([], Some EOF)]) (mkFramed [] None) =
    (Ok <$> ds) ++ [Err (if bool_decide (part = []) then EOF else ErrUnexpectedEOF); Err EOF].
Proof.
  intros Hs Hds Hcap Hr Hw Hrec. split.
  { eapply Forall_impl; [exact Hds|]. intros p Hp. cbn. by rewrite framed_Write_all. }
  assert (E : (λ p, (framed_Write write p).1) <$> ds = framed_bytes <$> ds).
  { apply list_fmap_ext. intros i p Hp. by rewrite framed_Write_all; [|done|by eapply Forall_lookup_1]. }
  rewrite E in Hrec. clear E. revert reads Hr Hrec.
  assert (H : ∀ acc reads, Forall plain_read reads → acc ++ received reads = concat (framed_bytes <$> ds) ++ part →
    read_n (length ds + 2) cap (reads ++ [([], Some EOF)]) (mkFramed acc None) =
      (Ok <$> ds) ++ [Err (if bool_decide (part = []) then EOF else ErrUnexpectedEOF); Err EOF]); [|by intros; apply H].
  induction Hds as [|p ds Hp Hds IH]; intros acc reads Hr Hrec.
  - cbn [length Nat.add read_n fmap list_fmap app]. unfold framed_Read at 1. cbn [fw_terminal].
    by rewrite (fw_fill_end cap part) by done.
  - cbn [length Nat.add read_n fmap list_fmap app]. unfold framed_Read. cbn [fw_terminal].
    cbn [fmap list_fmap concat] in Hrec. rewrite <- app_assoc in Hrec.
    destruct (fw_fill_one cap p (concat (framed_bytes <$> ds) ++ part) [([], Some EOF)] reads Hp Hcap Hr acc Hrec)
      as (acc' & reads' & E & Hacc & Hr'). rewrite E. f_equal. by apply IH.
Qed.

(* ------------------------------------------------------------------ *)
(** ** The writer *)

(** A datagram wire: a write takes the whole datagram, a batch write at least
    one. *)
Record wire_takes (wire : Wire) : Prop := {
  wt_write : ∀ n b, wire_Write wire n b = (len b, None);
  wt_batch : ∀ call, wire_WriteBatch wire = Some call →
    ∀ n bs, bs ≠ [] → (call n bs).2 = None ∧ 0 < (call n bs).1 <= len bs }.

(** What a frame is on the wire; only frames that fit have one. *)
Definition shape (f : Frame) : list Z := match shapedPayload f with Ok b => b | _ => [] end.
Definition fits (f : Frame) : Prop := ∃ b, shapedPayload f = Ok b ∧ b ≠ [].
Definition hooked (fs : list Frame) : list nat := fr_id <$> filter (λ f, fr_hook f = true) fs.

Lemma hooked_app fs gs : hooked (fs ++ gs) = hooked fs ++ hooked gs.
Proof. unfold hooked. by rewrite filter_app, fmap_app. Qed.

Section TxLemmas.
Context (wire : Wire) (Hwire : wire_takes wire).

(** From [t] the worker wrote and released exactly [fs], leaving the queue
    alone. *)
Record wrote (fs : list Frame) (t t' : Tx) : Prop := {
  wr_wire : tx_wire t' = tx_wire t ++ (shape <$> fs);
  wr_released : tx_released t' = tx_released t ++ hooked fs;
  wr_queue : tx_frames t' = tx_frames t ∧ tx_ended t' = tx_ended t ∧ tx_closed t' = tx_closed t }.

Lemma wrote_nil t : wrote [] t t.
Proof. constructor; cbn; by rewrite ?app_nil_r. Qed.

Lemma wrote_app fs gs t t1 t2 : wrote fs t t1 → wrote gs t1 t2 → wrote (fs ++ gs) t t2.
Proof.
  intros [H1 H2 (H3 & H4 & H5)] [G1 G2 (G3 & G4 & G5)]. constructor.
  - by rewrite G1, H1, fmap_app, app_assoc.
  - by rewrite G2, H2, hooked_app, app_assoc.
  - by rewrite G3, G4, G5.
Qed.

Lemma release_spec f t : tx_released (release f t) = tx_released t ++ hooked [f] ∧ tx_wire (release f t) = tx_wire t ∧
  tx_frames (release f t) = tx_frames t ∧ tx_ended (release f t) = tx_ended t ∧ tx_closed (release f t) = tx_closed t.
Proof.
  unfold release, hooked. destruct (fr_hook f) eqn:E.
  - rewrite filter_cons_True by done. done.
  - rewrite filter_cons_False by congruence. cbn. by rewrite app_nil_r.
Qed.

Lemma writeFrame_ok f t : fits f → ∃ t', writeFrame wire f t = (t', Ok tt) ∧ wrote [f] t t'.
Proof using Hwire.
  intros (b & Eb & Hb). unfold writeFrame. rewrite Eb. destruct b as [|x b]; [done|].
  cbn [length writeAll]. rewrite (wt_write _ Hwire). pose proof (len_nonneg b).
  assert (Hl : len (x :: b) = 1 + len b) by apply len_cons.
  replace ((len (x :: b) <? 0) || (len (x :: b) <? len (x :: b))) with false by lia.
  replace (0 <? len (x :: b)) with true by lia. replace (len (x :: b) =? 0) with false by lia.
  rewrite take_ge, drop_ge by (unfold len; lia).
  set (t1 := t <| tx_calls := tx_calls t + 1 |> <| tx_wire := _ |>).
  assert (E : writeAll wire (length b) [] t1 = (t1, Ok tt)) by (by destruct b).
  rewrite E. eexists. split; [reflexivity|]. destruct (release_spec f t1) as (H1 & H2 & H3 & H4 & H5).
  constructor; [|done|done]. rewrite H2. unfold shape. cbn. by rewrite Eb.
Qed.

Lemma write_frames_ok fs : Forall fits fs → ∀ t, ∃ t', write_frames wire fs t = (t', Ok tt) ∧ wrote fs t t'.
Proof using Hwire.
  induction 1 as [|f fs Hf Hfs IH]; intros t; cbn [write_frames]; [exists t; split; [done|apply wrote_nil]|].
  destruct (writeFrame_ok f t Hf) as (t1 & E1 & W1). rewrite E1. destruct (IH t1) as (t2 & E2 & W2).
  exists t2. split; [done|]. exact (wrote_app [f] fs _ _ _ W1 W2).
Qed.

Lemma shape_all_ok fs : Forall fits fs → shape_all fs = Ok (shape <$> fs).
Proof.
  induction 1 as [|f fs (b & Eb & _) _ IH]; [done|]. cbn [shape_all fmap list_fmap]. rewrite Eb, IH. run.
  unfold shape at 2. by rewrite Eb.
Qed.

Lemma write_bodies_ok call : wire_WriteBatch wire = Some call → ∀ fuel bs t, (length bs <= fuel)%nat →
  ∃ t', write_bodies call fuel bs t = (t', Ok tt) ∧ tx_wire t' = tx_wire t ++ bs ∧ tx_released t' = tx_released t ∧
    tx_frames t' = tx_frames t ∧ tx_ended t' = tx_ended t ∧ tx_closed t' = tx_closed t.
Proof using Hwire.
  intros Hc. induction fuel as [|fuel IH]; intros bs t Hf.
  { destruct bs; [|cbn in Hf; lia]. exists t. cbn. by rewrite app_nil_r. }
  destruct bs as [|b bs]; cbn [write_bodies]; [exists t; cbn; by rewrite app_nil_r|].
  destruct (wt_batch _ Hwire call Hc (tx_calls t) (b :: bs)) as [He Hk]; [done|].
  destruct (call (tx_calls t) (b :: bs)) as [k err]. cbn in He, Hk. subst err.
  replace ((k <? 0) || (len (b :: bs) <? k)) with false by lia. replace (k =? 0) with false by lia.
  edestruct (IH (drop (Z.to_nat k) (b :: bs))) as (t' & E & H1 & H2 & H3 & H4 & H5).
  { rewrite length_drop. unfold len in *. cbn in *. lia. }
  exists t'. split; [exact E|]. rewrite H1, H2, H3, H4, H5. cbn. split; [|done]. by rewrite <- app_assoc, take_drop.
Qed.

Lemma release_all_spec fs : ∀ t, let t' := release_all fs t in
  tx_released t' = tx_released t ++ hooked fs ∧ tx_wire t' = tx_wire t ∧
  tx_frames t' = tx_frames t ∧ tx_ended t' = tx_ended t ∧ tx_closed t' = tx_closed t.
Proof.
  induction fs as [|f fs IH]; intros t; cbv zeta; [cbn; by rewrite app_nil_r|].
  destruct (IH (release f t)) as (H1 & H2 & H3 & H4 & H5). destruct (release_spec f t) as (G1 & G2 & G3 & G4 & G5).
  change (release_all (f :: fs) t) with (release_all fs (release f t)).
  rewrite H1, H2, H3, H4, H5, G1, G2, G3, G4, G5. split; [|done].
  change (f :: fs) with ([f] ++ fs). by rewrite hooked_app, app_assoc.
Qed.

Lemma write_batch_ok call fs t : wire_WriteBatch wire = Some call → Forall fits fs →
  ∃ t', write_batch call fs t = (t', Ok tt) ∧ wrote fs t t'.
Proof using Hwire.
  intros Hc Hfs. unfold write_batch. rewrite shape_all_ok by done.
  destruct (write_bodies_ok call Hc (length (shape <$> fs)) (shape <$> fs) t) as (t1 & E & H1 & H2 & H3 & H4 & H5); [lia|].
  rewrite E. eexists. split; [reflexivity|]. destruct (release_all_spec fs t1) as (G1 & G2 & G3 & G4 & G5).
  constructor; rewrite ?G1, ?G2, ?G3, ?G4, ?G5; repeat split; congruence.
Qed.

(** The frames of a queue that are not nil. *)
Definition live (q : list (option Frame)) : list Frame := omap id q.

Lemma drain_queue_live n q : let '(fs, q') := drain_queue n q in live q = fs ++ live q'.
Proof.
  revert q. induction n as [|n IH]; intros [|[f|] q]; cbn [drain_queue]; [done..| |];
    specialize (IH q); destruct (drain_queue n q) as [fs q']; [|exact IH].
  change (live (Some f :: q)) with (f :: live q). by rewrite IH.
Qed.

Lemma tx_burst_ok t : Forall fits (live (tx_frames t)) → ∃ t' fs, tx_burst wire t = (t', Ok tt) ∧
  tx_wire t' = tx_wire t ++ (shape <$> fs) ∧ tx_released t' = tx_released t ++ hooked fs ∧
  live (tx_frames t) = fs ++ live (tx_frames t') ∧ tx_closed t' = tx_closed t ∧ tx_ended t' = tx_ended t.
Proof using Hwire.
  intros Hf. unfold tx_burst. destruct (tx_frames t) as [|[f|] q] eqn:Eq.
  - exists t, []. cbn. rewrite !app_nil_r, Eq. done.
  - pose proof (drain_queue_live writeBatch q) as Hd. destruct (drain_queue writeBatch q) as [fs q'].
    assert (Hl : live (Some f :: q) = (f :: fs) ++ live q') by (cbn; f_equal; exact Hd).
    assert (Hfs : Forall fits (f :: fs)) by (rewrite Hl in Hf; by apply Forall_app in Hf as [? _]).
    destruct (wire_WriteBatch wire) as [call|] eqn:Ec.
    + destruct (write_batch_ok call (f :: fs) (t <| tx_frames := q' |>) Ec Hfs) as (t' & E & [H1 H2 (H3 & H4 & H5)]).
      exists t', (f :: fs). rewrite E, H3, H4, H5. done.
    + destruct (write_frames_ok (f :: fs) Hfs (t <| tx_frames := q' |>)) as (t' & E & [H1 H2 (H3 & H4 & H5)]).
      exists t', (f :: fs). rewrite E, H3, H4, H5. done.
  - eexists _, []. split; [reflexivity|]. cbn. by rewrite !app_nil_r.
Qed.

Lemma tx_drain_ok q : ∀ t, Forall fits (live q) → ∃ t', tx_drain wire q t = (t', Ok tt) ∧
  tx_wire t' = tx_wire t ++ (shape <$> live q) ∧ tx_released t' = tx_released t ++ hooked (live q) ∧ tx_frames t' = [].
Proof using Hwire.
  induction q as [|[f|] q IH]; intros t Hf; cbn [tx_drain].
  - eexists. split; [reflexivity|]. cbn. by rewrite !app_nil_r.
  - change (live (Some f :: q)) with ([f] ++ live q) in *. apply Forall_cons in Hf as [Hf Hq].
    destruct (writeFrame_ok f (t <| tx_frames := q |>) Hf) as (t1 & E1 & [H1 H2 _]). rewrite E1.
    destruct (IH t1 Hq) as (t2 & E2 & G1 & G2 & G3). exists t2. rewrite E2, G1, G2, H1, H2, hooked_app, fmap_app.
    by rewrite <- !app_assoc.
  - by apply IH.
Qed.
End TxLemmas.

(** The frames a schedule queues, in order. *)
Definition queued (events : list tx_event) : list Frame :=
  live (omap (λ e, match e with TxQueue f => Some f | _ => None end) events).

(** The writer: over a wire that takes what it is given (in batches of any size
    when it supports them) and for frames that fit a datagram, whatever the
    schedule of producers, bursts and close, the datagrams on the wire are the
    shapes of a prefix of the queued frames, in order, and the frames whose hook
    ran are exactly those; a return after the close leaves nothing queued. *)
Lemma tx_run_spec (wire : Wire) (events : list tx_event) (t : Tx) (out : option (res unit)) :
  wire_takes wire → Forall fits (queued events) → tx_run wire events (mkTx [] false false 0 [] []) = (t, out) →
  ∃ sent rest, queued events = sent ++ rest ∧ tx_wire t = shape <$> sent ∧ tx_released t = hooked sent ∧
    match out with
    | None => rest = live (tx_frames t)
    | Some r => r = Ok tt ∧ live (tx_frames t) = []
    end.
Proof.
  intros Hw Hf Hrun.
  cut (∀ t0 done, Forall fits (live (tx_frames t0)) → tx_wire t0 = shape <$> done → tx_released t0 = hooked done →
    tx_run wire events t0 = (t, out) → ∃ sent rest, live (tx_frames t0) ++ queued events = sent ++ rest ∧
      tx_wire t = shape <$> (done ++ sent) ∧ tx_released t = hooked (done ++ sent) ∧
      match out with None => rest = live (tx_frames t) | Some r => r = Ok tt ∧ live (tx_frames t) = [] end).
  { intros H. destruct (H (mkTx [] false false 0 [] []) []) as (sent & rest & H1 & H2 & H3 & H4); try done.
    by exists sent, rest. }
  clear Hrun. induction events as [|e events IH]; intros t0 done Hq H1 H2 Hrun; cbn [tx_run] in Hrun.
  { apply pair_equal_spec in Hrun as [<- <-]. exists [], (live (tx_frames t0)). by rewrite !app_nil_r. }
  destruct e as [f| | | |].
  - assert (E : queued (TxQueue f :: events) = live [f] ++ queued events) by (by destruct f).
    rewrite E in Hf. apply Forall_app in Hf as [Hf1 Hf2].
    destruct (IH Hf2 (t0 <| tx_frames := tx_frames t0 ++ [f] |>) done) as (sent & rest & G1 & G2); [|done..|].
    { cbn. unfold live. rewrite omap_app. by apply Forall_app. }
    exists sent, rest. rewrite E, <- G1. cbn. unfold live. rewrite omap_app. split; [by rewrite app_assoc|done].
  - refine (IH Hf _ done _ _ _ Hrun); done.
  - refine (IH Hf _ done _ _ _ Hrun); done.
  - destruct (tx_ended t0 && bool_decide (tx_frames t0 = [])) eqn:Ee.
    { apply andb_prop in Ee as [_ Ee%bool_decide_eq_true]. apply pair_equal_spec in Hrun as [<- <-].
      exists [], (queued events). rewrite Ee, !app_nil_r. done. }
    destruct (tx_burst_ok wire Hw t0 Hq) as (t1 & fs & E & G1 & G2 & G3 & _). rewrite E in Hrun.
    rewrite G3 in Hq. apply Forall_app in Hq as [_ Hq].
    destruct (IH Hf t1 (done ++ fs) Hq) as (sent & rest & K1 & K2 & K3 & K4); [by rewrite G1, H1, fmap_app|by rewrite G2, H2, hooked_app|done|].
    exists (fs ++ sent), rest. rewrite G3, <- !app_assoc in *. change (queued (TxBurst :: events)) with (queued events).
    rewrite K1. done.
  - destruct (tx_closed t0); [|exact (IH Hf t0 done Hq H1 H2 Hrun)].
    destruct (tx_drain_ok wire Hw (tx_frames t0) t0 Hq) as (t1 & E & G1 & G2 & G3). rewrite E in Hrun.
    apply pair_equal_spec in Hrun as [<- <-]. exists (live (tx_frames t0)), (queued events).
    rewrite G1, G2, G3, H1, H2, fmap_app, hooked_app. done.
Qed.

(* ------------------------------------------------------------------ *)
(** ** The reader *)

(** The datagrams of a kind, in order. *)
Definition of_kind (k : Kind) (ds : list (list Z)) : list (list Z) := filter (λ d, Classify d = k) ds.

#[global] Arguments of_kind : simpl never.

Lemma of_kind_same k ds d : Classify d = k → of_kind k (ds ++ [d]) = of_kind k ds ++ [d].
Proof. intros H. unfold of_kind. rewrite filter_app. by rewrite filter_cons_True. Qed.
Lemma of_kind_other k ds d : Classify d ≠ k → of_kind k (ds ++ [d]) = of_kind k ds.
Proof. intros H. unfold of_kind. rewrite filter_app, filter_cons_False by done. apply app_nil_r. Qed.

(** What the reader holds: datagrams still to deliver, and buffers. *)
Definition rd_todo (r : Reader) : list (nat * list Z) := match r with RdBusy todo _ _ => todo | _ => [] end.
Definition rd_bufs (r : Reader) : list nat :=
  match r with RdBusy todo unused _ => (fst <$> todo) ++ unused | _ => [] end.

(** The buffers of the worker itself, and those of packets it handed over. *)
Definition rx_held (w : Rx) : list nat := rd_bufs (rx_reader w) ++ (pk_buf <$> rx_batch w).
Definition rx_delivered (w : Rx) : list nat := (pk_buf <$> rx_ctl w) ++ (pk_buf <$> concat (rx_esp w)).

Record rx_inv (w : Rx) : Prop := {
  ri_bufs : rx_held w ++ rx_delivered w ++ rx_returned w ≡ₚ seq 0 (rx_gets w);
  ri_esp : (pk_payload <$> concat (rx_esp w)) `prefix_of` of_kind KindESP (rx_seen w);
  ri_batch : rx_result w = None →
    of_kind KindESP (rx_seen w) = (pk_payload <$> concat (rx_esp w)) ++ (pk_payload <$> rx_batch w);
  ri_ctl : pk_payload <$> rx_ctl w = drop (Z.to_nat NonESPMarkerLen) <$> of_kind KindIKE (rx_seen w);
  ri_keepalives : rx_keepalives w = u64 (len (of_kind KindKeepalive (rx_seen w)));
  ri_sizes : Forall (λ b, 1 <= length b <= rxBatch)%nat (rx_esp w);
  ri_size : (length (rx_batch w) <= rxBatch)%nat ∧
    match rx_flushing w with Some _ => rx_batch w ≠ [] | None => (length (rx_batch w) < rxBatch)%nat end;
  ri_flush : rx_flushing w ≠ None → rx_result w = None;
  ri_left : rx_result w ≠ None → rx_batch w = [];
  ri_wire : ∃ lost, rx_wire w = rx_seen w ++ (snd <$> rd_todo (rx_reader w)) ++ lost ∧
    (lost ≠ [] → rx_reader w = RdDone ∧ rx_closed w = true);
  ri_err : rx_err w ≠ None → rx_reader w = RdDone;
  ri_ended : rx_result w ≠ None → rx_closed w = true ∨ rx_reader w = RdDone }.

Lemma rx_inv_init : rx_inv NewRxWorker.
Proof. constructor; cbn; try done. all: try (split; [unfold rxBatch; lia|unfold rxBatch; lia]). by exists []. Qed.

(** Permutations of concatenations, by counting. *)
Ltac solve_perm :=
  apply (Permutation_count_occ Nat.eq_dec); intros ?x;
  repeat match goal with H : _ ≡ₚ _ |- _ => rewrite (Permutation_count_occ Nat.eq_dec) in H; specialize (H x) end;
  rewrite ?fmap_app, ?concat_app, ?fmap_app in *; cbn [fmap list_fmap concat app fst pk_buf] in *;
  rewrite ?app_nil_r in *; do 3 (rewrite ?count_occ_app in *; cbn [count_occ] in *);
  repeat match goal with |- context [Nat.eq_dec ?a ?b] => destruct (Nat.eq_dec a b) in * end; lia.

Lemma rx_leave_inv r w : rx_inv w → rx_result w = None → (rx_closed w = true ∨ rx_reader w = RdDone) →
  rx_inv (rx_leave r w).
Proof.
  intros [I1 I2 I3 I4 I5 I6 I7 I8 I9 I10 I11 I12] Hr Hc. unfold rx_leave, rx_put. constructor; cbn; try done.
  unfold rx_held, rx_delivered in *. cbn in *. solve_perm.
  split; unfold rxBatch; lia.
Qed.

(** The reader takes one step forward over a datagram that was consumed. *)
Lemma rx_wire_next w buf d todo unused err : rx_inv w → rx_reader w = RdBusy ((buf, d) :: todo) unused err →
  rx_wire w = (rx_seen w ++ [d]) ++ (snd <$> todo) ++ [].
Proof.
  intros I Hr. destruct (ri_wire _ I) as (lost & E & Hl). rewrite Hr in E, Hl. cbn in E. rewrite E.
  destruct lost; [by rewrite <- app_assoc|]. by destruct Hl.
Qed.

Lemma rx_abort_inv w buf d todo unused err : rx_inv w → rx_reader w = RdBusy ((buf, d) :: todo) unused err →
  rx_closed w = true → rx_inv (rx_abort buf todo unused w).
Proof.
  intros I Hr Hc. pose proof (rx_wire_next _ _ _ _ _ _ I Hr) as Hw.
  destruct I as [I1 I2 I3 I4 I5 I6 I7 I8 I9 I10 I11 I12]. unfold rx_abort, rx_put. constructor; cbn; try done.
  - unfold rx_held, rx_delivered in *. rewrite Hr in I1. cbn in *. solve_perm.
  - exists (d :: (snd <$> todo)). split; [|by split]. rewrite Hw, app_nil_r, <- app_assoc. done.
  - intros H. by left.
Qed.

Lemma rx_packet_inv w buf d todo unused err : rx_inv w → rx_reader w = RdBusy ((buf, d) :: todo) unused err →
  Classify d = KindESP → rx_result w = None → rx_flushing w = None →
  rx_inv (rx_packet (mkPacket KindESP d buf) (rx_consume d (w <| rx_reader := RdBusy todo unused err |>))).
Proof.
  intros I Hr Hk Hres Hfl. pose proof (rx_wire_next _ _ _ _ _ _ I Hr) as Hw.
  destruct I as [I1 I2 I3 I4 I5 I6 [I7 I7'] I8 I9 I10 I11 I12]. rewrite Hfl in I7'.
  assert (Hc : rx_inv (rx_consume d (w <| rx_reader := RdBusy todo unused err |>)
      <| rx_batch := rx_batch w ++ [mkPacket KindESP d buf] |> <| rx_flushing := Some true |>)).
  { constructor; cbn; rewrite ?(of_kind_same KindESP), ?(of_kind_other KindIKE), ?(of_kind_other KindKeepalive) by congruence; try done.
    - unfold rx_held, rx_delivered in *. rewrite Hr in I1. cbn in *. solve_perm.
    - by apply prefix_app_r.
    - intros _. rewrite fmap_app, app_assoc. by rewrite I3.
    - rewrite length_app. cbn. split; [lia|]. by destruct (rx_batch w).
    - exists []. split; [exact Hw|done].
    - intros H. rewrite Hr in I11. by specialize (I11 H). }
  unfold rx_packet. cbv zeta. match goal with |- context [(rxBatch <=? length ?b)%nat] => change b with (rx_batch w ++ [mkPacket KindESP d buf]) end.
  destruct (Nat.leb_spec rxBatch (length (rx_batch w ++ [mkPacket KindESP d buf]))) as [Hl|Hl]; [exact Hc|].
  match goal with |- context [rx_fastOK ?x] => change (rx_fastOK x) with (rx_fastOK w) end.
  destruct Hc as [C1 C2 C3 C4 C5 C6 [C7 C7'] C8 C9 C10 C11 C12]. cbn in *.
  destruct (rx_fastOK w); constructor; cbn; try done. by rewrite Hfl.
Qed.

Lemma classifyAndDeliver_inv w taken buf d todo unused err : rx_inv w → rx_reader w = RdBusy ((buf, d) :: todo) unused err →
  (taken = false → rx_closed w = true) →
  (Classify d = KindESP → taken = true → rx_result w = None ∧ rx_flushing w = None) →
  rx_inv (classifyAndDeliver taken buf d todo unused err w).
Proof.
  intros I Hr Hc Hesp. pose proof (rx_wire_next _ _ _ _ _ _ I Hr) as Hw. unfold classifyAndDeliver.
  destruct (Classify d) eqn:Hk; [destruct taken; [|by eapply rx_abort_inv; eauto]
    |destruct taken; [destruct (Hesp eq_refl eq_refl); by apply rx_packet_inv|by eapply rx_abort_inv; eauto]|].
  all: destruct I as [I1 I2 I3 I4 I5 I6 I7 I8 I9 I10 I11 I12]; rewrite Hr in I11, I12;
    constructor; cbn; rewrite ?(of_kind_other KindESP), ?(of_kind_other KindIKE), ?(of_kind_other KindKeepalive) by congruence; try done.
  - unfold rx_held, rx_delivered in *. rewrite Hr in I1. cbn in *. solve_perm.
  - rewrite fmap_app, of_kind_same, fmap_app by done. by rewrite I4.
  - by exists [].
  - intros H. by specialize (I11 H).
  - intros H. by destruct (I12 H); [left|].
  - unfold rx_held, rx_delivered in *. rewrite Hr in I1. cbn in *. solve_perm.
  - rewrite of_kind_same by done. rewrite I5, len_app. change (len [d]) with 1. unfold u64. by rewrite Zplus_mod_idemp_l.
  - by exists [].
  - intros H. by specialize (I11 H).
  - intros H. by destruct (I12 H); [left|].
Qed.

Lemma rx_read_inv w ds n err : rx_inv w → rx_reader w = RdIdle →
  rx_inv (w <| rx_reader := RdBusy (zip (seq (rx_gets w) (length ds)) ds) (seq (rx_gets w + length ds) n) err |>
            <| rx_gets := (rx_gets w + length ds + n)%nat |> <| rx_wire := rx_wire w ++ ds |>).
Proof.
  intros [I1 I2 I3 I4 I5 I6 I7 I8 I9 (lost & E & Hl) I11 I12] Hr. rewrite Hr in E, Hl, I11, I12.
  assert (Hlost : lost = []) by (destruct lost; [done|by destruct Hl]). subst lost.
  constructor; cbn; try done.
  - unfold rx_held, rx_delivered in *. rewrite Hr in I1. cbn in *. rewrite fst_zip by (rewrite length_seq; lia).
    rewrite (seq_app (rx_gets w + length ds)), (seq_app (rx_gets w)). cbn [Nat.add]. solve_perm.
  - exists []. cbn. rewrite snd_zip by (rewrite length_seq; lia). rewrite E. cbn. by rewrite !app_nil_r.
  - intros H. by specialize (I11 H).
  - intros H. by destruct (I12 H); [left|].
Qed.

(** The reader finishes a read: back to the next one, or gone for good. *)
Lemma rx_finish_inv w unused err r e : rx_inv w → rx_reader w = RdBusy [] unused err → (r = RdIdle ∨ r = RdDone) →
  (r = RdIdle → e = rx_err w) →
  rx_inv (rx_put unused w <| rx_reader := r |> <| rx_err := e |>).
Proof.
  intros [I1 I2 I3 I4 I5 I6 I7 I8 I9 (lost & E & Hl) I11 I12] Hr Hd He. rewrite Hr in E, Hl, I11, I12.
  assert (Hlost : lost = []) by (destruct lost; [done|by destruct Hl]). subst lost.
  constructor; cbn; try done.
  - unfold rx_held, rx_delivered in *. rewrite Hr in I1. destruct Hd as [-> | ->]; cbn in *; solve_perm.
  - exists []. by destruct Hd as [-> | ->].
  - destruct Hd as [-> | ->]; [|done]. rewrite He by done. intros H. by specialize (I11 H).
  - intros H. destruct (I12 H); [by left|done].
Qed.

Lemma rx_step_inv w w' : rx_step w w' → rx_inv w → rx_inv w'.
Proof.
  intros Hs I. destruct Hs.
  - destruct I as [I1 I2 I3 I4 I5 I6 I7 I8 I9 (lost & E & Hl) I11 I12]. constructor; cbn; try done; [|by left].
    exists lost. split; [done|]. intros H. by destruct (Hl H).
  - destruct I as [I1 I2 I3 I4 I5 I6 I7 I8 I9 (lost & E & Hl) I11 I12]. rewrite H in *. constructor; cbn; try done.
    + unfold rx_held, rx_delivered in *. by rewrite H in I1.
    + by exists lost.
    + by left.
  - by apply rx_read_inv.
  - by apply classifyAndDeliver_inv.
  - exact (rx_finish_inv w unused None RdIdle (rx_err w) I H (or_introl eq_refl) (λ _, eq_refl)).
  - by eapply rx_finish_inv; [exact I|exact H|by right|].
  - exact (rx_finish_inv w unused (Some e) RdDone (rx_err w) I H (or_intror eq_refl) (λ _, eq_refl)).
  - apply rx_leave_inv; auto.
  - apply rx_leave_inv; [|done|right; by apply (ri_err _ I); rewrite H1].
    destruct I. by constructor.
  - unfold rx_tick. case_bool_decide as Hb; [done|]. destruct I as [I1 I2 I3 I4 I5 I6 [I7 I7'] I8 I9 I10 I11 I12].
    by constructor.
  - destruct I as [I1 I2 I3 I4 I5 I6 [I7 I7'] I8 I9 I10 I11 I12]. rewrite H in I7', I8.
    assert (Hn : rx_result w = None) by auto. constructor; cbn; try done.
    + unfold rx_held, rx_delivered in *. cbn in *. solve_perm.
    + rewrite concat_app, fmap_app. cbn. rewrite app_nil_r. by rewrite I3.
    + intros _. rewrite concat_app, fmap_app. cbn. rewrite !app_nil_r. by apply I3.
    + apply Forall_app. split; [done|]. constructor; [|done]. destruct (rx_batch w); [done|]. cbn in *. lia.
    + split; unfold rxBatch; lia.
  - apply rx_leave_inv; [done|apply (ri_flush _ I); by rewrite H|by left].
Qed.

Lemma rx_reachable_inv w : rx_reachable w → rx_inv w.
Proof.
  intros H. unfold rx_reachable in H. pose proof rx_inv_init as I. revert I.
  induction H as [|w0 w1 w2 Hs _ IH]; [done|]. intros I. by apply IH, (rx_step_inv _ _ Hs).
Qed.


(** Frames a peer can tell apart: an ESP frame starts with a non-zero SPI. *)
Definition plain_frame (f : Frame) : Prop :=
  match fr_kind f with KindESP => Classify (fr_payload f) = KindESP | _ => True end.
Definition payloads_of (k : Kind) (fs : list Frame) : list (list Z) := fr_payload <$> filter (λ f, fr_kind f = k) fs.

Lemma shape_kind f : fits f → plain_frame f → Classify (shape f) = fr_kind f ∧
  match fr_kind f with
  | KindIKE => drop (Z.to_nat NonESPMarkerLen) (shape f) = fr_payload f
  | KindESP => shape f = fr_payload f
  | KindKeepalive => True
  end.
Proof.
  intros (b & Eb & _) Hp. unfold shape. rewrite Eb. destruct (fr_kind f) eqn:Hk.
  - by destruct (classify_shape f b Eb Hk).
  - unfold shapedPayload in Eb. rewrite Hk in Eb. destruct (_ <? _); [done|]. injection Eb as <-.
    unfold plain_frame in Hp. by rewrite Hk in Hp.
  - unfold shapedPayload in Eb. rewrite Hk in Eb. by injection Eb as <-.
Qed.

Lemma of_kind_shape fs : Forall fits fs → Forall plain_frame fs →
  of_kind KindESP (shape <$> fs) = payloads_of KindESP fs ∧
  drop (Z.to_nat NonESPMarkerLen) <$> of_kind KindIKE (shape <$> fs) = payloads_of KindIKE fs.
Proof.
  induction 1 as [|f fs Hf Hfs IH]; intros Hp; [done|]. apply Forall_cons in Hp as [Hp Hps].
  destruct (IH Hps) as [I1 I2], (shape_kind f Hf Hp) as [Hc Hs]. unfold of_kind, payloads_of in *.
  cbn [fmap list_fmap] in *. rewrite !filter_cons, Hc. destruct (fr_kind f);
    cbn [decide decide_rel Kind_eq_dec]; repeat (case_decide; [|done || idtac]); try done.
  all: cbn [fmap list_fmap]; by rewrite ?I1, ?I2, ?Hs.
Qed.

(** Two ends connected by a wire agree on the traffic. Over a wire that takes
    what it is given (in batches of any size when it supports them), for frames
    that fit a datagram and any schedule of producers, bursts and close: the
    writer puts a prefix of its queue on the wire, in order, and runs the release
    hook of exactly those frames, once each; it returns only with an empty queue.
    When a reader got those datagrams and is between two reads with nothing
    waiting in a batch, what its control and ESP consumers received are exactly
    the payloads of the IKE and of the ESP frames, in order: the marker is added
    and removed, kinds are never confused (an ESP frame starts with a non-zero
    SPI), keepalives are delivered to neither. *)
Theorem transport_link (wire : Wire) (events : list tx_event) (t : Tx) (out : option (res unit)) (w : Rx) :
  wire_takes wire → Forall fits (queued events) → Forall plain_frame (queued events) →
  tx_run wire events (mkTx [] false false 0 [] []) = (t, out) →
  rx_reachable w → rx_wire w = tx_wire t → rx_closed w = false → rx_result w = None → rx_reader w = RdIdle →
  rx_batch w = [] →
  ∃ sent rest, queued events = sent ++ rest ∧ tx_wire t = shape <$> sent ∧ tx_released t = hooked sent ∧
    match out with None => rest = live (tx_frames t) | Some r => r = Ok tt ∧ live (tx_frames t) = [] end ∧
    pk_payload <$> rx_ctl w = payloads_of KindIKE sent ∧
    pk_payload <$> concat (rx_esp w) = payloads_of KindESP sent.
Proof.
  intros Hw Hf Hp Hrun [I1 I2 I3 I4 I5 I6 I7 I8 I9 (lost & E & Hl) I11 I12]%rx_reachable_inv Hwire Hc Hres Hrd Hb.
  destruct (tx_run_spec wire events t out Hw Hf Hrun) as (sent & rest & Hq & Ht & Hh & Hout).
  exists sent, rest. split; [done|]. split; [done|]. split; [done|]. split; [done|].
  rewrite Hrd in E, Hl. destruct lost; [|by destruct Hl]. cbn in E. rewrite app_nil_r, Hwire, Ht in E.
  rewrite Hq in Hf, Hp. apply Forall_app in Hf as [Hf _], Hp as [Hp _].
  destruct (of_kind_shape sent Hf Hp) as [H1 H2]. rewrite <- E in I3, I4. rewrite H1, Hb in I3. rewrite H2 in I4.
  split; [done|]. by rewrite I3, app_nil_r.
Qed.

(* ------------------------------------------------------------------ *)
(** ** Witnesses *)

(** A stream that takes two bytes at a time, and a datagram wire that takes one
    datagram of a batch. *)
Definition demo_stream (_ : Z) (b : list Z) : Z * option string := (Z.min 2 (len b), None).
Lemma demo_stream_takes : stream_takes demo_stream.
Proof. intros n [|x b]; [done|]. intros _. unfold demo_stream. rewrite len_cons. pose proof (len_nonneg b). cbn [fst snd]. split; [done|lia]. Qed.

Definition demo_wire : Wire := mkWire (λ _ b, (len b, None)) (Some (λ _ _, (1, None))).
Lemma demo_wire_takes : wire_takes demo_wire.
Proof.
  constructor; [done|]. intros call [= <-] n [|b bs]; [done|]. intros _. rewrite len_cons.
  pose proof (len_nonneg bs). cbn [fst snd]. split; [done|lia].
Qed.

Definition demo_ike : Frame := mkFrame 0 KindIKE [1; 2] true.
Definition demo_esp : Frame := mkFrame 1 KindESP [0; 0; 0; 9; 7] true.
Definition demo_keepalive : Frame := mkFrame 2 KindKeepalive [] false.
Definition demo_events : list tx_event :=
  [TxQueue (Some demo_ike); TxQueue None; TxQueue (Some demo_esp); TxQueue (Some demo_keepalive); TxBurst].
Definition demo_tx : Tx * option (res unit) := tx_run demo_wire demo_events (mkTx [] false false 0 [] []).

Lemma demo_fits : Forall fits (queued demo_events).
Proof. repeat constructor; (eexists; split; [reflexivity|done]). Qed.
Lemma demo_plain : Forall plain_frame (queued demo_events).
Proof. repeat constructor. Qed.

(** A batch read brings the three datagrams in one go. *)
Definition demo_rx : Rx :=
  mkRx 5 1 false RdIdle None [] false None None [mkPacket KindIKE [1; 2] 0] [[mkPacket KindESP [0; 0; 0; 9; 7] 1]]
    [2; 3; 4]%nat [[0; 0; 0; 0; 1; 2]; [0; 0; 0; 9; 7]; [255]] [[0; 0; 0; 0; 1; 2]; [0; 0; 0; 9; 7]; [255]].
Lemma demo_rx_reachable : rx_reachable demo_rx.
Proof.
  eapply rtc_l; [apply (rx_read _ [[0; 0; 0; 0; 1; 2]; [0; 0; 0; 9; 7]; [255]] 2 None); done|].
  eapply rtc_l; [eapply (rx_deliver _ 0 _ _ _ _ true); [reflexivity|done|done]|].
  eapply rtc_l; [eapply (rx_deliver _ 1 _ _ _ _ true); [reflexivity|done|done]|].
  eapply rtc_l; [eapply (rx_run_taken _ false); reflexivity|].
  eapply rtc_l; [eapply (rx_deliver _ 2 _ _ _ _ true); [reflexivity|done|done]|].
  eapply rtc_l; [eapply rx_read_done; reflexivity|]. apply rtc_refl.
Qed.

Lemma framed_roundtrip_witness :
  let reads := [([0], None); ([2; 7], None); ([8; 0; 1; 9; 0], Some EOF)] in
  received reads = concat ((λ p, (framed_Write demo_stream p).1) <$> [[7; 8]; [9]]) ++ [0] ∧
  read_n 4 65536 (reads ++ [([], Some EOF)]) (mkFramed [] None) = [Ok [7; 8]; Ok [9]; Err ErrUnexpectedEOF; Err EOF].
Proof.
  cbv zeta. split; [vm_compute; reflexivity|].
  refine (proj2 (framed_roundtrip demo_stream 65536 [[7; 8]; [9]] [0] _ _ _ _ _ _ _)); [exact demo_stream_takes| | | |done|vm_compute; reflexivity].
  - repeat constructor; vm_compute; congruence.
  - unfold MaxWireDatagram. lia.
  - do 3 (apply Forall_cons; split; [unfold plain_read; cbn; auto; right; done|]). apply Forall_nil_2.
Defined.


Lemma transport_link_witness : ∃ sent rest, queued demo_events = sent ++ rest ∧ tx_wire demo_tx.1 = shape <$> sent ∧
  tx_released demo_tx.1 = hooked sent ∧ rest = live (tx_frames demo_tx.1) ∧
  [[1; 2]] = payloads_of KindIKE sent ∧ [[0; 0; 0; 9; 7]] = payloads_of KindESP sent.
Proof.
  exact (transport_link demo_wire demo_events demo_tx.1 None demo_rx demo_wire_takes demo_fits demo_plain
    ltac:(vm_compute; reflexivity) demo_rx_reachable ltac:(vm_compute; reflexivity) eq_refl eq_refl eq_refl eq_refl).
Defined.
