(* ===== verification/Tunnel.v ===== *)
(** * The tunnel (src/tunnel.go)

    The raw-IP surface of an established session. The inbound channel, the
    outbound channel and the termination markers are shared with the data plane
    and the session, which act while a call runs: a call is given, per channel
    operation it performs, what the others do just before it ([turn]). *)

From S2P Require Import Prelude State.

(** [esp.InboundPacket]: the plaintext and the pooled backing it aliases. *)
Record InboundPacket := mkInboundPacket { pkt_IP : list Z; pkt_buf : nat }.

(** [Tunnel] with its channels: the queued batches, the packets in the outbound
    queue, and the markers. The last three fields are for the proofs: the backings
    released so far, every packet that ever arrived, and every packet the
    outbound queue ever took. *)
Record Tunnel := mkTunnel {
  tn_inbound : list (list InboundPacket);
  tn_inbound_closed : bool;
  tn_outbound : list (list Z);
  tn_outbound_cap : nat;
  tn_closed : bool;
  tn_done : bool;
  tn_closedFlag : bool;
  tn_pending : list Z;
  tn_pendingBatch : list InboundPacket;
  tn_assigned : option AssignedConfig;
  tn_childSA : option ChildSA;
  tn_close_once : bool;
  tn_released : list nat;
  tn_arrived : list InboundPacket;
  tn_accepted : list (list Z) }.
#[global] Instance eta_Tunnel : Eta Tunnel := λ t,
  mkTunnel (tn_inbound t) (tn_inbound_closed t) (tn_outbound t) (tn_outbound_cap t) (tn_closed t) (tn_done t)
    (tn_closedFlag t) (tn_pending t) (tn_pendingBatch t) (tn_assigned t) (tn_childSA t) (tn_close_once t)
    (tn_released t) (tn_arrived t) (tn_accepted t).

(** The tunnel [Start] commits, before its snapshots are installed. *)
Definition new_tunnel (cap : nat) : Tunnel := mkTunnel [] false [] cap false false false [] [] None None false [] [] [].

(* ------------------------------------------------------------------ *)
(** ** What the others do *)

(** A batch is delivered, the session closes the inbound channel, the outbound
    worker takes a packet, [markEnded] flips the flag and then closes the
    channels. *)
Inductive action := Arrive (batch : list InboundPacket) | CloseInbound | TakeOutbound | SetFlag | CloseChannels.

Definition act (a : action) (t : Tunnel) : Tunnel :=
  match a with
  | Arrive batch =>
      if tn_inbound_closed t then t
      else t <| tn_inbound := tn_inbound t ++ [batch] |> <| tn_arrived := tn_arrived t ++ batch |>
  | CloseInbound => t <| tn_inbound_closed := true |>
  | TakeOutbound => t <| tn_outbound := drop 1 (tn_outbound t) |>
  | SetFlag => t <| tn_closedFlag := true |>
  | CloseChannels =>
      if tn_closedFlag t then t <| tn_closed := true |> <| tn_done := true |> else t
  end.

(** What happens before one channel operation, and which ready case of a
    [select] is taken. *)
Record turn := mkTurn { tu_actions : list action; tu_closed_first : bool }.
Definition arrive (u : turn) (t : Tunnel) : Tunnel := foldl (λ t a, act a t) t (tu_actions u).

(** [markEnded]; its two stores are the actions above. *)
Definition markEnded (t : Tunnel) : Tunnel := act CloseChannels (act SetFlag t).

(* ------------------------------------------------------------------ *)
(** ** Read *)

Definition ErrEOF : string := "EOF".

(** The first packet of the batch that has a payload; the empty ones before it
    are released. *)
Fixpoint pop_batch (batch : list InboundPacket) (released : list nat) :
    option InboundPacket * list InboundPacket * list nat :=
  match batch with
  | [] => (None, [], released)
  | pkt :: batch =>
      match pkt_IP pkt with
      | [] => pop_batch batch (released ++ [pkt_buf pkt])
      | _ => (Some pkt, batch, released)
      end
  end.

(** [deliverPacket] into a buffer of [cap] bytes. *)
Definition deliverPacket (cap : nat) (pkt : InboundPacket) (t : Tunnel) : Tunnel * list Z :=
  match pkt_IP pkt with
  | [] => (t <| tn_released := tn_released t ++ [pkt_buf pkt] |>, [])
  | ip =>
      let n := Nat.min cap (length ip) in
      let t := if (n <? length ip)%nat then t <| tn_pending := drop n ip |> else t in
      (t <| tn_released := tn_released t ++ [pkt_buf pkt] |>, take n ip)
  end.

(** The head of [read]'s loop: the remainder of a packet, then the batch. *)
Definition read_local (cap : nat) (t : Tunnel) : Tunnel * option (list Z) :=
  match tn_pending t with
  | [] =>
      let '(pkt, rest, released) := pop_batch (tn_pendingBatch t) (tn_released t) in
      let t := t <| tn_pendingBatch := rest |> <| tn_released := released |> in
      match pkt with
      | Some pkt => let '(t, data) := deliverPacket cap pkt t in (t, Some data)
      | None => (t, None)
      end
  | pending =>
      let n := Nat.min cap (length pending) in
      (t <| tn_pending := drop n pending |>, Some (take n pending))
  end.

(** A receive from the inbound channel. *)
Inductive received := RecvBatch (batch : list InboundPacket) | RecvClosed | RecvNone.
Definition recv (t : Tunnel) : Tunnel * received :=
  match tn_inbound t with
  | batch :: q => (t <| tn_inbound := q |>, RecvBatch batch)
  | [] => (t, if tn_inbound_closed t then RecvClosed else RecvNone)
  end.

(** A batch was received; an empty one leaves the previous (drained) batch. *)
Definition set_batch (batch : list InboundPacket) (t : Tunnel) : Tunnel :=
  match batch with [] => t | _ => t <| tn_pendingBatch := batch |> end.

(** Where [read] is: the poll, the blocking [select], the last drain. *)
Inductive phase := Poll | Blocked | Final.

(** [select] takes the close: it is ready, and preferred or alone. *)
Definition takes_close (u : turn) (t : Tunnel) : bool :=
  tn_closed t && (tu_closed_first u || (bool_decide (tn_inbound t = []) && negb (tn_inbound_closed t))).

(** [read] from its channel operations on: [Ok data] is the copied bytes, [Hang]
    that it still waits after [turns]. *)
Fixpoint read_loop (cap : nat) (block : bool) (ph : phase) (turns : list turn) (t : Tunnel) : Tunnel * res (list Z) :=
  match turns with
  | [] => (t, Hang)
  | u :: turns =>
      let t := arrive u t in
      match ph, takes_close u t with
      | Blocked, true => read_loop cap block Final turns t
      | _, _ =>
          match recv t with
          | (t, RecvBatch batch) =>
              match read_local cap (set_batch batch t) with
              | (t, Some data) => (t, Ok data)
              | (t, None) => read_loop cap block Poll turns t
              end
          | (t, RecvClosed) => (t, Err ErrEOF)
          | (t, RecvNone) =>
              match ph with
              | Poll => if block then read_loop cap block Blocked turns t else (t, Ok [])
              | Blocked => read_loop cap block Blocked turns t
              | Final => (t, Err ErrEOF)
              end
          end
      end
  end.

Definition read (cap : nat) (block : bool) (turns : list turn) (t : Tunnel) : Tunnel * res (list Z) :=
  match read_local cap t with
  | (t, Some data) => (t, Ok data)
  | (t, None) => read_loop cap block Poll turns t
  end.

Definition Read (cap : nat) (turns : list turn) (t : Tunnel) : Tunnel * res (list Z) := read cap true turns t.

(** [ReadBatch] into buffers of these sizes (each with the turns its read
    meets): the packets copied, and the error. *)
Fixpoint read_batch_loop (block : bool) (bufs : list (nat * list turn)) (t : Tunnel) (out : list (list Z)) :
    Tunnel * list (list Z) * res unit :=
  match bufs with
  | [] => (t, out, Ok tt)
  | (cap, turns) :: bufs =>
      match read cap block turns t with
      | (t, Ok []) => (t, out, Ok tt)
      | (t, Ok data) => read_batch_loop false bufs t (out ++ [data])
      | (t, Err e) => (t, out, Err e)
      | (t, Panic) => (t, out, Panic)
      | (t, Hang) => (t, out, Hang)
      end
  end.
Definition ReadBatch (bufs : list (nat * list turn)) (t : Tunnel) : Tunnel * list (list Z) * res unit :=
  read_batch_loop true bufs t [].

(* ------------------------------------------------------------------ *)
(** ** Write and Close *)

Definition ErrClosedPipe : string := "io: read/write on closed pipe".

(** The blocking [select] of [Write], and the check after the send. *)
Fixpoint write_select (p : list Z) (turns : list turn) (t : Tunnel) : Tunnel * res Z :=
  match turns with
  | [] => (t, Hang)
  | u :: turns =>
      let t := arrive u t in
      let room := (length (tn_outbound t) <? tn_outbound_cap t)%nat in
      if tn_closed t && (tu_closed_first u || negb room) then (t, Err ErrClosedPipe)
      else if room then
        let t := t <| tn_outbound := tn_outbound t ++ [p] |> <| tn_accepted := tn_accepted t ++ [p] |> in
        match turns with
        | [] => (t, Hang)
        | u :: _ => let t := arrive u t in (t, if tn_closedFlag t then Err ErrClosedPipe else Ok (len p))
        end
      else write_select p turns t
  end.

Definition Write (p : list Z) (turns : list turn) (t : Tunnel) : Tunnel * res Z :=
  if tn_closedFlag t then (t, Err ErrClosedPipe)
  else match p, turns with
  | [], _ => (t, Ok 0)
  | _, u1 :: u2 :: turns =>
      let t := arrive u1 t in
      if tn_closed t then (t, Err ErrClosedPipe)
      else
      let t := arrive u2 t in
      if tn_closedFlag t then (t, Err ErrClosedPipe) else write_select p turns t
  | _, _ => (t, Hang)
  end.

(** [Close]: [closeFn] is the session's [Stop]. *)
Definition Close (closeFn : option (Tunnel → Tunnel * res unit)) (t : Tunnel) : Tunnel * res unit :=
  if tn_close_once t then (t, Ok tt)
  else
  let t := t <| tn_close_once := true |> in
  let '(t, err) := match closeFn with Some f => f t | None => (t, Ok tt) end in
  (markEnded t, err).

(** The snapshots; the copies are deep, so a value is what it was. *)
Definition setAssigned (a : AssignedConfig) (t : Tunnel) : Tunnel := t <| tn_assigned := Some a |>.
Definition setChildSA (c : ChildSA) (t : Tunnel) : Tunnel := t <| tn_childSA := Some c |>.
Definition tunnel_Assigned (t : Tunnel) : AssignedConfig := default (mkAssignedConfig [] [] 0 [] [] 0) (tn_assigned t).
Definition zero_child : ChildSA := mkChildSA 0 0 [] [] false.
Definition tunnel_ChildSA (t : Tunnel) : ChildSA := default zero_child (tn_childSA t).

(* ------------------------------------------------------------------ *)
(** ** The abstract tunnel: a queue of packets *)

(** A read of at most [cap] bytes: from one packet only, the rest of which stays
    in front. *)
Definition abs_read (cap : nat) (q : list (list Z)) : option (list Z * list (list Z)) :=
  match q with
  | [] => None
  | p :: q => Some (take cap p, if (cap <? length p)%nat then drop cap p :: q else q)
  end.

(** Reads of these sizes in a row, as long as there are packets. *)
Fixpoint abs_reads (caps : list nat) (q : list (list Z)) : list (list Z) * list (list Z) :=
  match caps with
  | [] => ([], q)
  | cap :: caps =>
      match abs_read cap q with
      | None => ([], q)
      | Some (data, q) => let '(out, q) := abs_reads caps q in (data :: out, q)
      end
  end.

(** What a tunnel still has to deliver. *)
Definition payloads (pkts : list InboundPacket) : list (list Z) := filter (λ p, p ≠ []) (pkt_IP <$> pkts).
#[global] Arguments payloads : simpl never.
Definition waiting (t : Tunnel) : list InboundPacket := tn_pendingBatch t ++ concat (tn_inbound t).
Definition abs (t : Tunnel) : list (list Z) :=
  match tn_pending t with [] => [] | p => [p] end ++ payloads (waiting t).

(** The invariant: a backing is released or still waiting, in the order of
    arrival; the flag flips before the channels close; the queue is bounded. *)
Record tunnel_inv (t : Tunnel) : Prop := {
  ti_bufs : tn_released t ++ (pkt_buf <$> waiting t) = pkt_buf <$> tn_arrived t;
  ti_flag : tn_closed t = true → tn_closedFlag t = true;
  ti_bound : (length (tn_outbound t) <= tn_outbound_cap t)%nat }.

Lemma payloads_app a b : payloads (a ++ b) = payloads a ++ payloads b.
Proof. unfold payloads. by rewrite fmap_app, filter_app. Qed.

(** The others only add to what waits, and never take a close back. *)
Record grown (extra : list InboundPacket) (t t' : Tunnel) : Prop := {
  gr_arrived : tn_arrived t' = tn_arrived t ++ extra;
  gr_waiting : concat (tn_inbound t') = concat (tn_inbound t) ++ extra;
  gr_local : tn_pending t' = tn_pending t ∧ tn_pendingBatch t' = tn_pendingBatch t ∧ tn_released t' = tn_released t ∧
    tn_accepted t' = tn_accepted t;
  gr_marks : (tn_closed t = true → tn_closed t' = true) ∧ (tn_closedFlag t = true → tn_closedFlag t' = true) }.

Lemma act_spec a t : tunnel_inv t → ∃ extra, grown extra t (act a t) ∧ tunnel_inv (act a t).
Proof.
  intros [I1 I2 I3]. destruct a as [batch| | | |]; cbn.
  - destruct (tn_inbound_closed t); [exists []|exists batch]; (split; constructor; cbn; rewrite ?app_nil_r; try done).
    + by rewrite concat_app; cbn; rewrite app_nil_r.
    + unfold waiting in *. cbn. rewrite concat_app, !fmap_app, <- I1, fmap_app. cbn. by rewrite app_nil_r, <- !app_assoc.
  - exists []. split; constructor; cbn; rewrite ?app_nil_r; try done.
  - exists []. split; constructor; cbn; rewrite ?app_nil_r; try done. rewrite length_drop. lia.
  - exists []. split; constructor; cbn; rewrite ?app_nil_r; try done.
  - destruct (tn_closedFlag t) eqn:E; exists []; (split; constructor; cbn; rewrite ?app_nil_r, ?E; try done).
Qed.

Lemma arrive_spec u t : tunnel_inv t → ∃ extra, grown extra t (arrive u t) ∧ tunnel_inv (arrive u t).
Proof.
  unfold arrive. generalize (tu_actions u). intros acts. revert t. induction acts as [|a acts IH]; intros t I.
  - exists []. split; [|done]. constructor; rewrite ?app_nil_r; done.
  - destruct (act_spec a t I) as (e1 & [G1 G2 (G3 & G4 & G5 & G6) [G7 G8]] & I1). cbn [foldl].
    destruct (IH _ I1) as (e2 & [H1 H2 (H3 & H4 & H5 & H6) [H7 H8]] & I2). exists (e1 ++ e2). split; [|done].
    constructor; [by rewrite H1, G1, app_assoc|by rewrite H2, G2, app_assoc|by rewrite H3, H4, H5, H6|auto].
Qed.

Lemma grown_abs extra t t' : grown extra t t' → abs t' = abs t ++ payloads extra.
Proof.
  intros [H1 H2 (H3 & H4 & H5 & H6) _]. unfold abs, waiting. rewrite H3, H4, H2, !payloads_app. by rewrite !app_assoc.
Qed.

(** What the head of the loop does: it is the abstract read, or there was nothing
    at hand and only empty packets were let go. *)
Lemma pop_batch_spec batch : ∀ released, let '(pkt, rest, released') := pop_batch batch released in
  match pkt with
  | Some p => pkt_IP p ≠ [] ∧ payloads batch = pkt_IP p :: payloads rest ∧
      released' ++ pkt_buf p :: (pkt_buf <$> rest) = released ++ (pkt_buf <$> batch)
  | None => payloads batch = [] ∧ rest = [] ∧ released' = released ++ (pkt_buf <$> batch)
  end.
Proof.
  induction batch as [|p batch IH]; intros released; cbn [pop_batch]; [by rewrite app_nil_r|].
  unfold payloads. cbn [fmap list_fmap]. destruct (pkt_IP p) as [|x ip] eqn:E.
  - specialize (IH (released ++ [pkt_buf p])). rewrite filter_cons_False by auto.
    destruct (pop_batch batch _) as [[[q|] rest] released']; rewrite <- !app_assoc in IH; exact IH.
  - rewrite filter_cons_True by done. rewrite E. done.
Qed.

Lemma drop_short {A} n (l : list A) : drop n l = [] → (n < length l)%nat → False.
Proof. intros E. apply (f_equal length) in E. rewrite length_drop in E. cbn in E. lia. Qed.

Lemma read_local_spec cap t : tunnel_inv t → let '(t', r) := read_local cap t in
  tunnel_inv t' ∧ tn_arrived t' = tn_arrived t ∧ tn_closed t' = tn_closed t ∧
  tn_inbound_closed t' = tn_inbound_closed t ∧
  match r with
  | Some data => abs_read cap (abs t) = Some (data, abs t')
  | None => tn_pending t' = [] ∧ tn_pendingBatch t' = [] ∧ abs t' = abs t
  end.
Proof.
  intros [I1 I2 I3]. unfold read_local, abs. destruct (tn_pending t) as [|x pending] eqn:Ep.
  - pose proof (pop_batch_spec (tn_pendingBatch t) (tn_released t)) as Hp.
    destruct (pop_batch (tn_pendingBatch t) (tn_released t)) as [[[p|] rest] released].
    + destruct Hp as (Hne & Hpay & Hrel). unfold deliverPacket. destruct (pkt_IP p) as [|y ip] eqn:Ei; [done|].
      set (full := y :: ip) in *. set (n := Nat.min cap (length full)).
      assert (Hn : (n <? length full)%nat = (cap <? length full)%nat)
        by (unfold n; destruct (Nat.ltb_spec cap (length full)), (Nat.ltb_spec (Nat.min cap (length full)) (length full)); lia).
      rewrite Hn. unfold waiting in *. cbn [app]. rewrite payloads_app, Hpay. cbn [app abs_read].
      assert (Htake : take n full = take cap full).
      { unfold n. destruct (Nat.le_gt_cases cap (length full)); [by rewrite Nat.min_l|].
        rewrite Nat.min_r, !take_ge by lia. done. }
      destruct (Nat.ltb_spec cap (length full)) as [Hc|Hc].
      * assert (n = cap) as -> by (unfold n; lia). split_and!; try done.
        { constructor; [|done..]. unfold waiting. cbn. rewrite <- I1, !fmap_app, (app_assoc (tn_released t)), <- Hrel.
          by rewrite <- !app_assoc. }
        cbn. unfold waiting. cbn. destruct (drop cap full) eqn:Ed; [|by rewrite payloads_app].
        by apply drop_short in Ed.
      * rewrite Htake. split_and!; try done.
        { constructor; [|done..]. unfold waiting. cbn. rewrite <- I1, !fmap_app, (app_assoc (tn_released t)), <- Hrel.
          by rewrite <- !app_assoc. }
        cbn. rewrite Ep. unfold waiting. cbn. by rewrite payloads_app.
    + destruct Hp as (Hpay & -> & ->). unfold waiting in *. split_and!; try done.
      * constructor; [|done..]. unfold waiting. cbn. by rewrite <- I1, fmap_app, app_assoc.
      * cbn. rewrite Ep. unfold waiting. cbn. by rewrite payloads_app, Hpay.
  - cbn beta iota. remember (x :: pending) as full eqn:Ef. clear Ef. do 4 (split; [done|]). cbn -[Nat.ltb].
    destruct (Nat.ltb_spec cap (length full)) as [Hc|Hc].
    + rewrite Nat.min_l by lia. destruct (drop cap full) eqn:Ed; [|done].
      by apply drop_short in Ed.
    + rewrite Nat.min_r, drop_ge, !take_ge by lia. done.
Qed.

(** The outcome of one read of a tunnel, with what arrived meanwhile. *)
Definition read_outcome (cap : nat) (block : bool) (t : Tunnel) (tr : Tunnel * res (list Z)) : Prop :=
  let '(t', r) := tr in ∃ extra, tn_arrived t' = tn_arrived t ++ extra ∧ tunnel_inv t' ∧
  match r with
  | Ok data => abs_read cap (abs t ++ payloads extra) = Some (data, abs t') ∨
               (data = [] ∧ block = false ∧ abs t ++ payloads extra = [] ∧ abs t' = [])
  | Err e => e = ErrEOF ∧ abs t ++ payloads extra = [] ∧ abs t' = [] ∧ (tn_closed t' = true ∨ tn_inbound_closed t' = true)
  | Hang => abs t' = abs t ++ payloads extra
  | Panic => False
  end.

(** Steps that only let packets arrive come before an outcome. *)
Lemma read_outcome_after cap block t t1 tr extra : tn_arrived t1 = tn_arrived t ++ extra →
  abs t1 = abs t ++ payloads extra → read_outcome cap block t1 tr → read_outcome cap block t tr.
Proof.
  destruct tr as [t2 r]. intros Ha Hb (e & E & I & H). exists (extra ++ e). rewrite E, Ha, app_assoc. split; [done|]. split; [done|].
  rewrite payloads_app, (app_assoc (abs t)), <- Hb. exact H.
Qed.

Lemma read_outcome_local cap block t t1 r : tunnel_inv t → read_local cap t = (t1, Some r) → read_outcome cap block t (t1, Ok r).
Proof.
  intros I E. pose proof (read_local_spec cap t I) as H. rewrite E in H. destruct H as (I1 & Ha & _ & _ & H).
  exists []. rewrite !app_nil_r. split; [done|]. split; [done|]. by left.
Qed.

Lemma set_batch_spec batch q t : tunnel_inv t → tn_pending t = [] → tn_pendingBatch t = [] → tn_inbound t = batch :: q →
  let t1 := set_batch batch (t <| tn_inbound := q |>) in
  tunnel_inv t1 ∧ tn_arrived t1 = tn_arrived t ∧ abs t1 = abs t.
Proof.
  intros [I1 I2 I3] Hp Hb Hq. assert (Hw : waiting (set_batch batch (t <| tn_inbound := q |>)) = waiting t).
  { unfold waiting. rewrite Hq, Hb. destruct batch; [by cbn; rewrite Hb|done]. }
  cbv zeta. split_and!; [constructor; [rewrite Hw|..]; by destruct batch|by destruct batch|].
  unfold abs. rewrite Hw. by destruct batch.
Qed.

Lemma arrive_local u t extra : grown extra t (arrive u t) → tn_pending t = [] → tn_pendingBatch t = [] →
  tn_pending (arrive u t) = [] ∧ tn_pendingBatch (arrive u t) = [].
Proof. intros [_ _ (H1 & H2 & _) _]. split; congruence. Qed.

Lemma abs_empty t : tn_pending t = [] → tn_pendingBatch t = [] → tn_inbound t = [] → abs t = [].
Proof. intros H1 H2 H3. unfold abs, waiting. by rewrite H1, H2, H3. Qed.

Lemma read_loop_spec cap block turns : ∀ ph t, tunnel_inv t → tn_pending t = [] → tn_pendingBatch t = [] →
  (ph = Final → tn_closed t = true) → (ph ≠ Poll → block = true) →
  read_outcome cap block t (read_loop cap block ph turns t).
Proof.
  induction turns as [|u turns IH]; intros ph t I Hp Hb Hph Hbl; cbn [read_loop].
  { exists []. cbn. rewrite !app_nil_r. done. }
  destruct (arrive_spec u t I) as (extra & G & I1). destruct (arrive_local u t extra G Hp Hb) as [Hp1 Hb1].
  pose proof (grown_abs _ _ _ G) as Ha. apply (read_outcome_after cap block t (arrive u t) _ extra (gr_arrived _ _ _ G) Ha).
  assert (Hc1 : ph = Final → tn_closed (arrive u t) = true) by (intros H; by apply (gr_marks _ _ _ G), Hph).
  remember (arrive u t) as t1. clear G Ha Heqt1.
  assert (Hrecv : read_outcome cap block t1
    (match recv t1 with
     | (t2, RecvBatch batch) => match read_local cap (set_batch batch t2) with
         | (t3, Some data) => (t3, Ok data) | (t3, None) => read_loop cap block Poll turns t3 end
     | (t2, RecvClosed) => (t2, Err ErrEOF)
     | (t2, RecvNone) => match ph with
         | Poll => if block then read_loop cap block Blocked turns t2 else (t2, Ok [])
         | Blocked => read_loop cap block Blocked turns t2 | Final => (t2, Err ErrEOF) end
     end)); [|destruct ph; [exact Hrecv| |exact Hrecv]].
  - unfold recv. destruct (tn_inbound t1) as [|batch q] eqn:Eq.
    + pose proof (abs_empty t1 Hp1 Hb1 Eq) as He. destruct (tn_inbound_closed t1) eqn:Ec.
      { exists []. rewrite !app_nil_r, He. split; [done|]. split; [done|]. auto. }
      destruct ph; [destruct block; [by apply IH|]|by apply IH; [..|auto]|].
      * exists []. rewrite !app_nil_r, He. split; [done|]. split; [done|]. by right.
      * exists []. rewrite !app_nil_r, He. split; [done|]. split; [done|]. split_and!; auto.
    + destruct (set_batch_spec batch q t1 I1 Hp1 Hb1 Eq) as (I2 & Ha & Habs).
      eapply (read_outcome_after cap block t1 _ _ []); [rewrite app_nil_r; exact Ha|rewrite app_nil_r; exact Habs|].
      pose proof (read_local_spec cap _ I2) as Hl. destruct (read_local cap (set_batch batch _)) as [t3 [data|]] eqn:El.
      * by apply read_outcome_local.
      * destruct Hl as (I3 & Ha3 & _ & _ & Hp3 & Hb3 & Habs3).
        eapply (read_outcome_after cap block _ t3 _ []); [rewrite app_nil_r; exact Ha3|rewrite app_nil_r; exact Habs3|].
        by apply IH.
  - destruct (takes_close u t1) eqn:Et; [|exact Hrecv]. apply IH; try done; [|intros _; by apply Hbl].
    intros _. unfold takes_close in Et. by apply andb_prop in Et as [? _].
Qed.

Lemma read_spec cap block turns t : tunnel_inv t → read_outcome cap block t (read cap block turns t).
Proof.
  intros I. unfold read. pose proof (read_local_spec cap t I) as Hl.
  destruct (read_local cap t) as [t1 [data|]] eqn:El; [by apply read_outcome_local|].
  destruct Hl as (I1 & Ha & _ & _ & Hp & Hb & Habs).
  eapply (read_outcome_after cap block _ t1 _ []); [by rewrite app_nil_r|by rewrite app_nil_r|].
  by apply read_loop_spec.
Qed.

(** The reads of a client, one after the other. *)
Fixpoint client (calls : list (nat * list turn)) (t : Tunnel) : Tunnel * list (res (list Z)) :=
  match calls with
  | [] => (t, [])
  | (cap, turns) :: calls =>
      let '(t, r) := Read cap turns t in let '(t, rs) := client calls t in (t, r :: rs)
  end.

Lemma abs_read_app cap q x data q' : abs_read cap q = Some (data, q') → abs_read cap (q ++ x) = Some (data, q' ++ x).
Proof. destruct q as [|p q]; [done|]. cbn [abs_read app]. intros [= <- <-]. by destruct (cap <? length p)%nat. Qed.

Lemma abs_reads_concat caps : ∀ q, concat (abs_reads caps q).1 ++ concat (abs_reads caps q).2 = concat q.
Proof.
  induction caps as [|cap caps IH]; intros q; cbn [abs_reads]; [done|]. destruct q as [|p q]; [done|].
  cbn [abs_read]. specialize (IH (if (cap <? length p)%nat then drop cap p :: q else q)).
  destruct (abs_reads caps _) as [out q'] eqn:E. cbn [concat fst snd] in *. rewrite <- app_assoc, IH.
  destruct (Nat.ltb_spec cap (length p)); cbn [concat]; [by rewrite app_assoc, take_drop|].
  by rewrite take_ge by lia.
Qed.

Lemma client_spec calls : ∀ t t' rs, tunnel_inv t → client calls t = (t', rs) →
  ∃ extra, tn_arrived t' = tn_arrived t ++ extra ∧ tunnel_inv t' ∧
    ∀ outs, rs = Ok <$> outs → abs_reads (fst <$> calls) (abs t ++ payloads extra) = (outs, abs t').
Proof.
  induction calls as [|[cap turns] calls IH]; intros t t' rs I Hc; cbn [client] in Hc.
  { apply pair_equal_spec in Hc as [<- <-]. exists []. rewrite !app_nil_r. split; [done|]. split; [done|].
    intros outs. by destruct outs. }
  unfold Read in Hc. pose proof (read_spec cap true turns t I) as Hr. destruct (read cap true turns t) as [t1 r].
  destruct Hr as (e1 & A1 & I1 & H1). destruct (client calls t1) as [t2 rs2] eqn:E2. apply pair_equal_spec in Hc as [<- <-].
  destruct (IH t1 t2 rs2 I1 E2) as (e2 & A2 & I2 & H2). exists (e1 ++ e2). rewrite A2, A1, app_assoc.
  split; [done|]. split; [done|]. intros [|data outs] Ho; [done|]. injection Ho as -> ->.
  destruct H1 as [H1|(_ & H1 & _)]; [|done]. rewrite payloads_app, app_assoc. cbn [fmap list_fmap abs_reads fst].
  rewrite (abs_read_app cap _ (payloads e2) _ _ H1). by rewrite (H2 outs eq_refl).
Qed.

(** [C21] Reading refines a queue of packets. Whatever the data plane, the session
    and the outbound worker do while the calls run, and whatever the sizes of the
    buffers: the blocking reads of a fresh tunnel return, as long as they
    succeed, exactly what reading one packet at a time from the sequence of
    non-empty packets that arrived gives (a read never crosses a packet, the
    rest of a packet comes first in the next read, no byte is lost or repeated);
    every pooled backing was released exactly once, in order, or still waits. *)
Theorem tunnel_reads_refine (cap : nat) (calls : list (nat * list turn)) (t : Tunnel) (outs : list (list Z)) :
  client calls (new_tunnel cap) = (t, Ok <$> outs) →
  abs_reads (fst <$> calls) (payloads (tn_arrived t)) = (outs, abs t) ∧
  concat outs ++ concat (abs t) = concat (payloads (tn_arrived t)) ∧
  tn_released t ++ (pkt_buf <$> waiting t) = pkt_buf <$> tn_arrived t.
Proof.
  intros Hc. destruct (client_spec calls (new_tunnel cap) t _ ltac:(by constructor; [..|cbn; lia]) Hc) as (extra & A & I & H).
  specialize (H outs eq_refl). cbn in A. change (abs (new_tunnel cap)) with (@nil (list Z)) in H. cbn [app] in H.
  rewrite A. split; [done|]. split; [|rewrite <- A; apply (ti_bufs _ I)].
  pose proof (abs_reads_concat (fst <$> calls) (payloads extra)) as E. by rewrite H in E.
Qed.

(** A turn in which no batch arrives. *)
Definition quiet (u : turn) : Prop := Forall (λ a, match a with Arrive _ => False | _ => True end) (tu_actions u).

Lemma arrive_quiet u t : quiet u → tn_inbound (arrive u t) = tn_inbound t ∧
  (tn_closed t = true → tn_closed (arrive u t) = true) ∧ tn_pending (arrive u t) = tn_pending t ∧
  tn_pendingBatch (arrive u t) = tn_pendingBatch t.
Proof.
  unfold arrive, quiet. generalize (tu_actions u). intros acts H. revert t.
  induction H as [|a acts Ha _ IH]; intros t; [done|]. cbn [foldl]. destruct (IH (act a t)) as (H1 & H2 & H3 & H4).
  rewrite H1, H3, H4. destruct a; try done; cbn in *; [auto..|]. by destruct (tn_closedFlag t); cbn in *; auto.
Qed.

Lemma read_local_rest cap t t' r : read_local cap t = (t', r) →
  tn_inbound t' = tn_inbound t ∧ tn_closed t' = tn_closed t.
Proof.
  unfold read_local, deliverPacket. destruct (tn_pending t); [|by intros [= <- _]].
  destruct (pop_batch _ _) as [[[p|] rest] rel]; [|by intros [= <- _]]. destruct (pkt_IP p) as [|y ip]; [by intros [= <- _]|].
  destruct (_ <? _)%nat; by intros [= <- _].
Qed.

(** The turns a read needs from here on, at most. *)
Definition need (ph : phase) (t : Tunnel) : nat :=
  3 * length (tn_inbound t) + match ph with Poll => 3 | Blocked => 2 | Final => 1 end.

Lemma read_loop_returns cap block turns : ∀ ph t, tn_closed t = true → Forall quiet turns →
  (need ph t <= length turns)%nat → (read_loop cap block ph turns t).2 ≠ Hang.
Proof.
  induction turns as [|u turns IH]; intros ph t Hc Hq Hn; [unfold need in Hn; destruct ph; cbn in Hn; lia|].
  apply Forall_cons in Hq as [Hu Hq]. destruct (arrive_quiet u t Hu) as (H1 & H2 & _ & _). specialize (H2 Hc).
  unfold need in Hn. rewrite <- H1 in Hn. cbn [read_loop length] in *. remember (arrive u t) as t1. clear Heqt1 H1 Hc t.
  assert (Hrecv : ∀ batch q, tn_inbound t1 = batch :: q →
    (match read_local cap (set_batch batch (t1 <| tn_inbound := q |>)) with
     | (t3, Some data) => (t3, Ok data) | (t3, None) => read_loop cap block Poll turns t3 end).2 ≠ Hang).
  { intros batch q Eq. destruct (read_local cap _) as [t3 [data|]] eqn:El; [done|].
    apply read_local_rest in El as [Hi Hcl]. assert (Hi' : tn_inbound t3 = q) by (by destruct batch).
    assert (Hcl' : tn_closed t3 = true) by (rewrite Hcl; by destruct batch).
    apply IH; [done..|]. unfold need. rewrite Hi'. rewrite Eq in Hn. destruct ph; cbn [length] in Hn; lia. }
  unfold recv, takes_close. rewrite H2. destruct ph, (tn_inbound t1) as [|batch q] eqn:Eq; cbn [bool_decide andb length] in *;
    try (by apply Hrecv); [| | |by destruct (tn_inbound_closed t1)].
  - destruct (tn_inbound_closed t1); [done|]. destruct block; [|done]. apply IH; [done..|]. unfold need. rewrite Eq. cbn. lia.
  - destruct (tu_closed_first u || _) eqn:Ec; [apply IH; [done..|]; unfold need; rewrite Eq; cbn; lia|].
    destruct (tn_inbound_closed t1); [done|]. destruct (tu_closed_first u); done.
  - destruct (tu_closed_first u || _) eqn:Ec; [|by apply Hrecv].
    apply IH; [done..|]. unfold need. rewrite Eq. cbn [length]. lia.
Qed.

(** A read of a closed tunnel returns. *)
Lemma read_returns (cap : nat) (block : bool) (turns : list turn) (t : Tunnel) :
  tn_closed t = true → Forall quiet turns → (3 * length (tn_inbound t) + 3 <= length turns)%nat →
  ∃ t' r, read cap block turns t = (t', r) ∧ r ≠ Hang.
Proof.
  intros Hc Hq Hn. unfold read. destruct (read_local cap t) as [t1 [data|]] eqn:El; [by eexists _, _|].
  apply read_local_rest in El as [Hi Hcl]. eexists _, _. split; [apply surjective_pairing|].
  apply read_loop_returns; [congruence|done|]. unfold need. by rewrite Hi.
Qed.

(** [C29] The end of a tunnel is reported after its last packet only. From any
    state between two calls, for any interleaving: an error of a read is EOF,
    comes only once the tunnel is closed or its channel is, and with nothing
    left to deliver; a read that does not block and returns no byte with room
    in the buffer found nothing to deliver; [ReadBatch] returns no empty
    packet; and once the tunnel is closed and no more batches arrive, a read
    returns: after three channel operations plus three per batch that is still
    queued, at most, whichever ready case the runtime picks. *)
Theorem tunnel_eof (cap : nat) (block : bool) (turns : list turn) (t t' : Tunnel) (r : res (list Z)) :
  tunnel_inv t → read cap block turns t = (t', r) →
  tunnel_inv t' ∧ r ≠ Panic ∧
  (∀ e, r = Err e → e = ErrEOF ∧ abs t' = [] ∧ (tn_closed t' = true ∨ tn_inbound_closed t' = true)) ∧
  (r = Ok [] → (0 < cap)%nat → block = false ∧ abs t' = []) ∧
  (∀ bufs out, Forall (λ d, d ≠ []) out → Forall (λ d, d ≠ []) (read_batch_loop block bufs t out).1.2) ∧
  (tn_closed t = true → Forall quiet turns → (3 * length (tn_inbound t) + 3 <= length turns)%nat → r ≠ Hang).
Proof.
  intros I Hr. pose proof (read_spec cap block turns t I) as H. rewrite Hr in H. destruct H as (extra & A & I' & H).
  split; [done|]. split; [by intros ->|]. split; [intros e ->; by destruct H as (? & _ & ? & ?)|]. split; [|split].
  - intros -> Hcap. destruct H as [H|(_ & ? & _ & ?)]; [|done].
    destruct (abs t ++ payloads extra) as [|p q] eqn:E; [done|]. cbn [abs_read] in H. injection H as H _.
    assert (Hp : p ∈ abs t ++ payloads extra) by (rewrite E; left).
    destruct p as [|x p]; [|by destruct cap; [lia|]]. exfalso. clear -Hp. unfold abs, payloads in Hp.
    rewrite !elem_of_app, !list_elem_of_filter in Hp. destruct (tn_pending t); set_solver.
  - clear. revert block t. intros block t bufs. revert block t.
    induction bufs as [|[c us] bufs IH]; intros block t out Ho; cbn [read_batch_loop]; [done|].
    destruct (read c block us t) as [t1 [[|x d]|e| |]]; try done. apply IH. apply Forall_app. by split; [|constructor].
  - intros Hc Hq Hn. destruct (read_returns cap block turns t Hc Hq Hn) as (t2 & r2 & E & Hh). congruence.
Qed.

(** The blocking part of [Write]: the packet is queued at most once. *)
Lemma write_select_spec p turns : ∀ t, tunnel_inv t → let '(t', r) := write_select p turns t in
  tunnel_inv t' ∧ (tn_closedFlag t = true → tn_closedFlag t' = true) ∧
  match r with
  | Ok n => n = len p ∧ tn_accepted t' = tn_accepted t ++ [p] ∧ tn_closedFlag t' = false
  | Err e => e = ErrClosedPipe ∧ tn_closedFlag t' = true ∧
      (tn_accepted t' = tn_accepted t ∨ tn_accepted t' = tn_accepted t ++ [p])
  | Hang => tn_accepted t' = tn_accepted t ∨ tn_accepted t' = tn_accepted t ++ [p]
  | Panic => False
  end.
Proof.
  induction turns as [|u turns IH]; intros t I; cbn [write_select]; [split_and!; auto|].
  destruct (arrive_spec u t I) as (e & [_ _ (_ & _ & _ & Ha) [_ Hf]] & I1).
  destruct (tn_closed (arrive u t) && _) eqn:Ec.
  { apply andb_prop in Ec as [Ec _]. apply (ti_flag _ I1) in Ec. split_and!; auto. }
  destruct (Nat.ltb_spec (length (tn_outbound (arrive u t))) (tn_outbound_cap (arrive u t))) as [Hr|Hr].
  - set (t2 := arrive u t <| tn_outbound := _ |> <| tn_accepted := _ |>).
    assert (I2 : tunnel_inv t2).
    { destruct I1 as [J1 J2 J3]. constructor; [done..|]. cbn. rewrite length_app. cbn. lia. }
    assert (Ha2 : tn_accepted t2 = tn_accepted t ++ [p]) by (cbn; by rewrite Ha).
    destruct turns as [|u' turns]; [by split_and!; auto|].
    destruct (arrive_spec u' t2 I2) as (e' & [_ _ (_ & _ & _ & Ha') [_ Hf']] & I3).
    destruct (tn_closedFlag (arrive u' t2)) eqn:Ef; (split; [done|]); rewrite Ha', Ha2.
    + split_and!; auto.
    + split_and!; auto.
  - specialize (IH (arrive u t) I1). destruct (write_select p turns (arrive u t)) as [t' r]. rewrite Ha in IH.
    destruct IH as (H1 & H2 & H3). split_and!; auto.
Qed.

(** [C30] Writing. Whatever happens while the call runs: it reports success only
    for the whole packet, queued exactly once while the tunnel was open (an empty
    packet is accepted and not queued); its only error is the closed pipe, with
    the tunnel ended, and the packet was then queued at most once; a call on an
    ended tunnel fails at once and queues nothing; the queue never exceeds its
    bound. *)
Theorem tunnel_write (p : list Z) (turns : list turn) (t t' : Tunnel) (r : res Z) :
  tunnel_inv t → Write p turns t = (t', r) →
  (length (tn_outbound t') <= tn_outbound_cap t')%nat ∧
  (tn_closedFlag t = true → t' = t ∧ r = Err ErrClosedPipe) ∧
  match r with
  | Ok n => n = len p ∧ tn_accepted t' = tn_accepted t ++ (if bool_decide (p = []) then [] else [p]) ∧
      tn_closedFlag t' = false
  | Err e => e = ErrClosedPipe ∧ tn_closedFlag t' = true ∧
      (tn_accepted t' = tn_accepted t ∨ tn_accepted t' = tn_accepted t ++ [p])
  | Hang => tn_accepted t' = tn_accepted t ∨ tn_accepted t' = tn_accepted t ++ [p]
  | Panic => False
  end.
Proof.
  intros I Hw. unfold Write in Hw. destruct (tn_closedFlag t) eqn:Ef.
  { apply pair_equal_spec in Hw as [<- <-]. split_and!; auto. apply (ti_bound _ I). }
  destruct p as [|x p].
  { apply pair_equal_spec in Hw as [<- <-]. cbn. rewrite app_nil_r. split_and!; auto; [apply (ti_bound _ I)|done]. }
  destruct turns as [|u1 [|u2 turns]]; try (apply pair_equal_spec in Hw as [<- <-]; split_and!; auto; [apply (ti_bound _ I)|done]).
  destruct (arrive_spec u1 t I) as (e1 & [_ _ (_ & _ & _ & A1) _] & I1).
  destruct (tn_closed (arrive u1 t)) eqn:Ec.
  { apply pair_equal_spec in Hw as [<- <-]. apply (ti_flag _ I1) in Ec. split_and!; auto; [apply (ti_bound _ I1)|done]. }
  destruct (arrive_spec u2 _ I1) as (e2 & [_ _ (_ & _ & _ & A2) _] & I2).
  destruct (tn_closedFlag (arrive u2 (arrive u1 t))) eqn:Ef2.
  { apply pair_equal_spec in Hw as [<- <-]. split_and!; auto; [apply (ti_bound _ I2)|done|]. left. congruence. }
  pose proof (write_select_spec (x :: p) turns _ I2) as Hs. rewrite Hw in Hs. destruct Hs as (I3 & _ & Hs).
  rewrite A2, A1 in Hs. split; [apply (ti_bound _ I3)|]. split; [done|].
  by destruct r.
Qed.

(* ------------------------------------------------------------------ *)
(** ** Witnesses *)

(** A batch with an empty packet arrives while a read blocks, then the tunnel
    ends while another packet is queued. *)
Definition demo_calls : list (nat * list turn) :=
  [(2%nat, [mkTurn [] false; mkTurn [Arrive [mkInboundPacket [] 0; mkInboundPacket [1; 2; 3] 1]] false]);
   (2%nat, []);
   (9%nat, [mkTurn [] false; mkTurn [SetFlag; CloseChannels] true; mkTurn [Arrive [mkInboundPacket [4] 2]] true])].

Lemma tunnel_reads_refine_witness : let t := (client demo_calls (new_tunnel 1)).1 in
  abs_reads [2; 2; 9]%nat (payloads (tn_arrived t)) = ([[1; 2]; [3]; [4]], abs t) ∧
  concat [[1; 2]; [3]; [4]] ++ concat (abs t) = concat (payloads (tn_arrived t)) ∧
  tn_released t ++ (pkt_buf <$> waiting t) = pkt_buf <$> tn_arrived t.
Proof.
  cbv zeta. apply (tunnel_reads_refine 1 demo_calls); [vm_compute; reflexivity].
Defined.

Lemma new_tunnel_inv cap : tunnel_inv (new_tunnel cap).
Proof. constructor; cbn; [done..|lia]. Qed.

Lemma tunnel_inv_closed cap : tunnel_inv (act CloseInbound (new_tunnel cap)).
Proof. constructor; cbn; [done..|lia]. Qed.

Lemma tunnel_eof_witness : let t := act CloseInbound (new_tunnel 1) in
  read 8 true [mkTurn [] false] t = (t, Err ErrEOF) ∧ abs t = [].
Proof.
  cbv zeta. split; [vm_compute; reflexivity|].
  refine (proj1 (proj2 (proj1 (proj2 (proj2 (tunnel_eof 8 true [mkTurn [] false] _ _ (Err ErrEOF) _ _))) ErrEOF eq_refl))).
  - exact (tunnel_inv_closed 1).
  - vm_compute. reflexivity.
Defined.

Lemma tunnel_write_witness : let t := (Write [69; 0] (replicate 4 (mkTurn [] false)) (new_tunnel 1)).1 in
  2 = len [69; 0] ∧ tn_accepted t = [] ++ [[69; 0]] ∧ tn_closedFlag t = false.
Proof.
  cbv zeta. refine (proj2 (proj2 (tunnel_write [69; 0] (replicate 4 (mkTurn [] false)) (new_tunnel 1) _ (Ok 2) (new_tunnel_inv 1) _))). vm_compute. reflexivity.
Defined.
