(* ===== verification/PipelineRun.v ===== *)
(** * The data-plane workers (src/esp/pipeline.go)

    [Pipeline.Run] starts the inbound worker, which decrypts the batches of the
    transport and hands the inner packets to the tunnel, and the outbound worker,
    which gathers, encrypts and submits the packets of the tunnel. Here they are
    a step relation: the workers' own steps interleave with what transport,
    tunnel, session and control plane do to the channels and codecs they share
    ([env_step]). What the interleaving computes is compared with a sequential
    pipeline ([pipe_run]), and every pooled buffer is followed to its release. *)

From S2P Require Import Prelude Suite Crypto Cipher Keying Replay Esp Transport Tunnel.

Definition txBatch : nat := 32.

(** How the encrypt loop of [runOutbound] ends: all packets were tried, the
    sequence number wrapped, there is no codec, or the loop panicked. *)
Inductive group_end := GroupSent | GroupWrapped | GroupNone | GroupPanic.

(** [runInbound]: in its outer [select], inside a batch with the packets still to
    do and the packets produced, in the send of a batch, or gone. A panic keeps
    what the worker held. *)
Inductive InWorker :=
  | InIdle
  | InBatch (todo : list (option Packet)) (out : list InboundPacket)
  | InSend (out : list InboundPacket)
  | InDone
  | InPanic (todo : list (option Packet)) (out : list InboundPacket).

(** [runOutbound]: in its outer [select], draining the queue (round [i]), in the
    send loop, or gone. *)
Inductive OutWorker :=
  | OutIdle
  | OutGather (i : nat) (packets : list (list Z))
  | OutSend (frames : list Frame)
  | OutDone
  | OutPanic.

(** What happened to the codecs, in order: an inbound datagram was processed, a
    group was encrypted (each packet with the random bytes drawn for it), the
    child was replaced, an SPI was dropped. *)
Inductive pl_event :=
  | EvIn (payload : list Z)
  | EvGroup (sends : list ((Z → res (list Z)) * list Z))
  | EvReplace (inbound : option Inbound) (outbound : option Outbound) (oldInboundSPI : Z)
  | EvDrop (spi : Z).

(** The pipeline's codecs, its channels and its workers. A nil batch behaves as
    an empty one. [wk_ipOut] and [wk_tx] are everything sent so far,
    [wk_esp_taken] and [wk_ip_taken] everything received. The plaintext and the
    datagram backings are numbered in the order the pools hand them out (one that
    goes back within the call that took it is not counted); [wk_pkt_freed],
    [wk_plain_freed] and [wk_frame_freed] are the buffers released,
    [wk_leaked] the datagrams that were built and then forgotten. *)
Record Workers := mkWorkers {
  wk_pl : Pipeline;
  wk_ctx : bool;
  wk_childClosed : bool;
  wk_nearWrap : bool;
  wk_espIn : list (list (option Packet));
  wk_espIn_closed : bool;
  wk_ipIn : list (option (list Z));
  wk_ipIn_closed : bool;
  wk_in : InWorker;
  wk_out : OutWorker;
  wk_ipOut : list (list InboundPacket);
  wk_tx : list Frame;
  wk_esp_taken : list (list (option Packet));
  wk_ip_taken : list (option (list Z));
  wk_plains : nat;
  wk_datagrams : nat;
  wk_pkt_freed : list nat;
  wk_plain_freed : list nat;
  wk_frame_freed : list nat;
  wk_leaked : list nat;
  wk_log : list pl_event }.
#[global] Instance eta_Workers : Eta Workers := λ w,
  mkWorkers (wk_pl w) (wk_ctx w) (wk_childClosed w) (wk_nearWrap w) (wk_espIn w) (wk_espIn_closed w) (wk_ipIn w)
    (wk_ipIn_closed w) (wk_in w) (wk_out w) (wk_ipOut w) (wk_tx w) (wk_esp_taken w) (wk_ip_taken w) (wk_plains w)
    (wk_datagrams w) (wk_pkt_freed w) (wk_plain_freed w) (wk_frame_freed w) (wk_leaked w) (wk_log w).

(** [Run] has started the workers. *)
Definition start_workers (p : Pipeline) : Workers :=
  mkWorkers p false false false [] false [] false InIdle OutIdle [] [] [] [] 0 0 [] [] [] [] [].

(** [stopped], also the two stop cases of every [select]. *)
Definition stopped (w : Workers) : bool := wk_ctx w || wk_childClosed w.

Definition packet_bufs (batch : list (option Packet)) : list nat := pk_buf <$> omap id batch.
Definition releasePackets (batch : list (option Packet)) (w : Workers) : Workers :=
  w <| wk_pkt_freed := wk_pkt_freed w ++ packet_bufs batch |>.
Definition releaseInbound (batch : list InboundPacket) (w : Workers) : Workers :=
  w <| wk_plain_freed := wk_plain_freed w ++ (pkt_buf <$> batch) |>.
Definition releaseFrames (frames : list Frame) (w : Workers) : Workers :=
  w <| wk_frame_freed := wk_frame_freed w ++ (fr_id <$> frames) |>.

Section Workers.
Context {C : Crypto}.

(* ------------------------------------------------------------------ *)
(** ** The inbound worker *)

(** The body of the batch loop for one packet. *)
Definition in_next (pkt : option Packet) (todo : list (option Packet)) (out : list InboundPacket) (w : Workers) : Workers :=
  match pkt with
  | None => w <| wk_in := InBatch todo out |>
  | Some k =>
      let '(p, r) := processInbound (wk_pl w) (pk_payload k) in
      let w := w <| wk_pl := p |> <| wk_log := wk_log w ++ [EvIn (pk_payload k)] |> in
      match r with
      | Ok ip =>
          releasePackets [Some k] w <| wk_plains := S (wk_plains w) |>
            <| wk_in := InBatch todo (out ++ [mkInboundPacket ip (wk_plains w)]) |>
      | Err _ => releasePackets [Some k] w <| wk_in := InBatch todo out |>
      | Panic | Hang => w <| wk_in := InPanic (pkt :: todo) out |>
      end
  end.

(** The end of the batch loop: an empty result is not sent. *)
Definition in_finish (out : list InboundPacket) (w : Workers) : Workers :=
  w <| wk_in := if bool_decide (out = []) then InIdle else InSend out |>.

Definition in_abort (todo : list (option Packet)) (out : list InboundPacket) (w : Workers) : Workers :=
  releasePackets todo (releaseInbound out w) <| wk_in := InDone |>.

(* ------------------------------------------------------------------ *)
(** ** The outbound worker *)

(** The encrypt loop: the datagrams built, how it ended and whether the
    rekey trigger was raised. *)
Fixpoint encrypt (o : Outbound) (sends : list ((Z → res (list Z)) * list Z)) : Outbound * list (list Z) * group_end * bool :=
  match sends with
  | [] => (o, [], GroupSent, false)
  | (random, pkt) :: sends =>
      let '(o, warn, r) := process o random pkt in
      match r with
      | Ok datagram =>
          let '(o, ds, e, warn') := encrypt o sends in (o, datagram :: ds, e, warn || warn')
      | Err e =>
          if bool_decide (e = ErrSeqWrapped) then (o, [], GroupWrapped, warn)
          else let '(o, ds, e, warn') := encrypt o sends in (o, ds, e, warn || warn')
      | Panic | Hang => (o, [], GroupPanic, warn)
      end
  end.

(** One group: the codec is loaded once, and the wrap is reported. *)
Definition seal_group (p : Pipeline) (sends : list ((Z → res (list Z)) * list Z)) :
    Pipeline * list (list Z) * group_end * bool :=
  match pl_outbound p with
  | None => (p, [], GroupNone, false)
  | Some o =>
      let '(o, ds, e, warn) := encrypt o sends in
      let p := mkPipeline (pl_inbound p) (Some o) (pl_fatal p) in
      (match e with GroupWrapped => reportFatal p ErrSeqWrapped | _ => p end, ds, e, warn)
  end.

(** The frames of a group, each with the backing it was built in. *)
Definition group_frames (first : nat) (ds : list (list Z)) : list Frame :=
  zip_with (λ n d, mkFrame n KindESP d true) (seq first (length ds)) ds.

(** [runOutbound] from the label [encrypt] to the send loop. *)
Definition out_encrypt (sends : list ((Z → res (list Z)) * list Z)) (w : Workers) : Workers :=
  let '(p, ds, e, warn) := seal_group (wk_pl w) sends in
  let frames := group_frames (wk_datagrams w) ds in
  let w := w <| wk_pl := p |> <| wk_log := wk_log w ++ [EvGroup sends] |> <| wk_nearWrap := wk_nearWrap w || warn |>
             <| wk_datagrams := (wk_datagrams w + length ds)%nat |> in
  match e with
  | GroupSent => w <| wk_out := OutSend frames |>
  | GroupWrapped => w <| wk_leaked := wk_leaked w ++ (fr_id <$> frames) |> <| wk_out := OutDone |>
  | GroupNone => w <| wk_out := OutDone |>
  | GroupPanic => w <| wk_leaked := wk_leaked w ++ (fr_id <$> frames) |> <| wk_out := OutPanic |>
  end.

(* ------------------------------------------------------------------ *)
(** ** Steps *)

(** The workers' steps. A [select] takes any ready case; a send is ready when the
    receiver takes it, whatever the capacity of the channel. *)
Inductive worker_step : Workers → Workers → Prop :=
  | in_stop w : wk_in w = InIdle → stopped w = true → worker_step w (w <| wk_in := InDone |>)
  | in_closed w : wk_in w = InIdle → wk_espIn w = [] → wk_espIn_closed w = true → worker_step w (w <| wk_in := InDone |>)
  | in_take w batch q : wk_in w = InIdle → wk_espIn w = batch :: q →
      worker_step w (w <| wk_espIn := q |> <| wk_esp_taken := wk_esp_taken w ++ [batch] |> <| wk_in := InBatch batch [] |>)
  | in_packet w pkt todo out : wk_in w = InBatch (pkt :: todo) out → stopped w = false →
      worker_step w (in_next pkt todo out w)
  | in_halt w pkt todo out : wk_in w = InBatch (pkt :: todo) out → stopped w = true →
      worker_step w (in_abort (pkt :: todo) out w)
  | in_end w out : wk_in w = InBatch [] out → worker_step w (in_finish out w)
  | in_sent w out : wk_in w = InSend out →
      worker_step w (w <| wk_ipOut := wk_ipOut w ++ [out] |> <| wk_in := InIdle |>)
  | in_give_up w out : wk_in w = InSend out → stopped w = true → worker_step w (in_abort [] out w)
  | out_stop w : wk_out w = OutIdle → stopped w = true → worker_step w (w <| wk_out := OutDone |>)
  | out_closed w : wk_out w = OutIdle → wk_ipIn w = [] → wk_ipIn_closed w = true → worker_step w (w <| wk_out := OutDone |>)
  | out_first w pkt q : wk_out w = OutIdle → wk_ipIn w = pkt :: q →
      worker_step w (w <| wk_ipIn := q |> <| wk_ip_taken := wk_ip_taken w ++ [pkt] |>
                       <| wk_out := match pkt with None => OutIdle | Some p => OutGather 0 [p] end |>)
  | out_more w i packets pkt q : wk_out w = OutGather i packets → (i < txBatch)%nat → wk_ipIn w = pkt :: q →
      worker_step w (w <| wk_ipIn := q |> <| wk_ip_taken := wk_ip_taken w ++ [pkt] |>
                       <| wk_out := OutGather (S i) (packets ++ option_list pkt) |>)
  | out_group w i packets randoms : wk_out w = OutGather i packets → i = txBatch ∨ wk_ipIn w = [] →
      length randoms = length packets → worker_step w (out_encrypt (zip randoms packets) w)
  | out_sent w f frames : wk_out w = OutSend (f :: frames) →
      worker_step w (w <| wk_tx := wk_tx w ++ [f] |> <| wk_out := OutSend frames |>)
  | out_give_up w f frames : wk_out w = OutSend (f :: frames) → stopped w = true →
      worker_step w (releaseFrames (f :: frames) w <| wk_out := OutDone |>)
  | out_next w : wk_out w = OutSend [] → worker_step w (w <| wk_out := OutIdle |>).

(** The others: transport and tunnel fill the channels (until they close), the
    session and the control plane stop the workers, replace the child, drop an
    SPI and consume the rekey trigger. *)
Inductive env_step : Workers → Workers → Prop :=
  | env_esp w batch : wk_espIn_closed w = false → env_step w (w <| wk_espIn := wk_espIn w ++ [batch] |>)
  | env_esp_close w : env_step w (w <| wk_espIn_closed := true |>)
  | env_ip w pkt : wk_ipIn_closed w = false → env_step w (w <| wk_ipIn := wk_ipIn w ++ [pkt] |>)
  | env_ip_close w : env_step w (w <| wk_ipIn_closed := true |>)
  | env_cancel w : env_step w (w <| wk_ctx := true |>)
  | env_child w : env_step w (w <| wk_childClosed := true |>)
  | env_warned w : env_step w (w <| wk_nearWrap := false |>)
  | env_replace w i o old : env_step w (w <| wk_pl := ReplaceChild (wk_pl w) i o old |>
                                          <| wk_log := wk_log w ++ [EvReplace i o old] |>)
  | env_drop w spi : env_step w (w <| wk_pl := DropInboundSPI (wk_pl w) spi |> <| wk_log := wk_log w ++ [EvDrop spi] |>).

Definition run_step (w w' : Workers) : Prop := worker_step w w' ∨ env_step w w'.
Definition run_reachable (p : Pipeline) : Workers → Prop := rtc run_step (start_workers p).

(** [Run] returns when both workers are done, with the context's error. *)
Definition Run_result (w : Workers) : option (res unit) :=
  match wk_in w, wk_out w with
  | InDone, OutDone => Some (if wk_ctx w then Err "context canceled" else Ok tt)
  | _, _ => None
  end.

(** The steps as functions, for running a schedule: [stop] takes the stop case
    of the [select] the worker is in. *)
Definition move_in (stop : bool) (w : Workers) : option Workers :=
  match wk_in w with
  | InIdle =>
      if stop then if stopped w then Some (w <| wk_in := InDone |>) else None
      else match wk_espIn w with
      | batch :: q => Some (w <| wk_espIn := q |> <| wk_esp_taken := wk_esp_taken w ++ [batch] |> <| wk_in := InBatch batch [] |>)
      | [] => if wk_espIn_closed w then Some (w <| wk_in := InDone |>) else None
      end
  | InBatch (pkt :: todo) out => Some (if stopped w then in_abort (pkt :: todo) out w else in_next pkt todo out w)
  | InBatch [] out => Some (in_finish out w)
  | InSend out =>
      if stop then if stopped w then Some (in_abort [] out w) else None
      else Some (w <| wk_ipOut := wk_ipOut w ++ [out] |> <| wk_in := InIdle |>)
  | InDone | InPanic _ _ => None
  end.

Definition move_out (random : Z → res (list Z)) (stop : bool) (w : Workers) : option Workers :=
  match wk_out w with
  | OutIdle =>
      if stop then if stopped w then Some (w <| wk_out := OutDone |>) else None
      else match wk_ipIn w with
      | pkt :: q => Some (w <| wk_ipIn := q |> <| wk_ip_taken := wk_ip_taken w ++ [pkt] |>
                            <| wk_out := match pkt with None => OutIdle | Some p => OutGather 0 [p] end |>)
      | [] => if wk_ipIn_closed w then Some (w <| wk_out := OutDone |>) else None
      end
  | OutGather i packets =>
      match wk_ipIn w with
      | pkt :: q =>
          if (i <? txBatch)%nat then
            Some (w <| wk_ipIn := q |> <| wk_ip_taken := wk_ip_taken w ++ [pkt] |>
                    <| wk_out := OutGather (S i) (packets ++ option_list pkt) |>)
          else if (i =? txBatch)%nat then Some (out_encrypt (zip (replicate (length packets) random) packets) w) else None
      | [] => Some (out_encrypt (zip (replicate (length packets) random) packets) w)
      end
  | OutSend (f :: frames) =>
      if stop then if stopped w then Some (releaseFrames (f :: frames) w <| wk_out := OutDone |>) else None
      else Some (w <| wk_tx := wk_tx w ++ [f] |> <| wk_out := OutSend frames |>)
  | OutSend [] => Some (w <| wk_out := OutIdle |>)
  | OutDone | OutPanic => None
  end.

(** A schedule: moves of the workers and inputs of the others. *)
Inductive move :=
  | MoveIn (stop : bool)
  | MoveOut (random : Z → res (list Z)) (stop : bool)
  | PutEsp (batch : list (option Packet))
  | PutIp (pkt : option (list Z))
  | Cancel.

Definition do_move (m : move) (w : Workers) : option Workers :=
  match m with
  | MoveIn stop => move_in stop w
  | MoveOut random stop => move_out random stop w
  | PutEsp batch => if wk_espIn_closed w then None else Some (w <| wk_espIn := wk_espIn w ++ [batch] |>)
  | PutIp pkt => if wk_ipIn_closed w then None else Some (w <| wk_ipIn := wk_ipIn w ++ [pkt] |>)
  | Cancel => Some (w <| wk_ctx := true |>)
  end.

Fixpoint do_moves (ms : list move) (w : Workers) : option Workers :=
  match ms with [] => Some w | m :: ms => match do_move m w with Some w => do_moves ms w | None => None end end.

(* ------------------------------------------------------------------ *)
(** ** The sequential pipeline *)

(** The inner packets and the datagrams an event produces. *)
Definition apply_event (p : Pipeline) (e : pl_event) : Pipeline * list (list Z) * list (list Z) :=
  match e with
  | EvIn d => let '(p, r) := processInbound p d in (p, match r with Ok ip => [ip] | _ => [] end, [])
  | EvGroup sends =>
      let '(p, ds, e, _) := seal_group p sends in (p, [], match e with GroupSent => ds | _ => [] end)
  | EvReplace i o old => (ReplaceChild p i o old, [], [])
  | EvDrop spi => (DropInboundSPI p spi, [], [])
  end.

Fixpoint pipe_run (p : Pipeline) (log : list pl_event) : Pipeline * list (list Z) * list (list Z) :=
  match log with
  | [] => (p, [], [])
  | e :: log =>
      let '(p, ins, outs) := apply_event p e in
      let '(p, ins', outs') := pipe_run p log in
      (p, ins ++ ins', outs ++ outs')
  end.

End Workers.

(** The datagrams and the packets a history processed. *)
Definition log_in (log : list pl_event) : list (list Z) := omap (λ e, match e with EvIn d => Some d | _ => None end) log.
Definition log_sends (log : list pl_event) : list ((Z → res (list Z)) * list Z) :=
  concat ((λ e, match e with EvGroup sends => sends | _ => [] end) <$> log).

(* ------------------------------------------------------------------ *)
(** ** Invariants *)

(** What the inbound worker holds: packets whose buffer it must still release,
    packets it has not looked at, packets it produced. *)
Definition in_todo (s : InWorker) : list (option Packet) :=
  match s with InBatch todo _ | InPanic todo _ => todo | _ => [] end.
Definition in_ahead (s : InWorker) : list (option Packet) :=
  match s with InBatch todo _ => todo | InPanic todo _ => drop 1 todo | _ => [] end.
Definition in_made (s : InWorker) : list InboundPacket :=
  match s with InBatch _ out | InSend out | InPanic _ out => out | _ => [] end.

(** What the outbound worker holds. *)
Definition out_gathered (s : OutWorker) : list (list Z) := match s with OutGather _ packets => packets | _ => [] end.
Definition out_frames (s : OutWorker) : list Frame := match s with OutSend frames => frames | _ => [] end.

Definition payloads_in (batch : list (option Packet)) : list (list Z) := pk_payload <$> omap id batch.

#[global] Arguments log_in : simpl never.
#[global] Arguments log_sends : simpl never.
#[global] Arguments payloads_in : simpl never.
#[global] Arguments packet_bufs : simpl never.
#[global] Arguments stopped : simpl never.
#[local] Arguments seq : simpl never.

Section Invariant.
Context {C : Crypto} (p0 : Pipeline).

Definition log_ips (log : list pl_event) : list (list Z) := (pipe_run p0 log).1.2.
Definition log_datagrams (log : list pl_event) : list (list Z) := (pipe_run p0 log).2.

Record in_inv (w : Workers) : Prop := {
  ii_read : ∃ lost, payloads_in (concat (wk_esp_taken w)) = log_in (wk_log w) ++ payloads_in (in_ahead (wk_in w)) ++ lost ∧
    (lost ≠ [] → wk_in w = InDone ∧ stopped w = true);
  ii_made : ∃ lost, log_ips (wk_log w) = (pkt_IP <$> concat (wk_ipOut w)) ++ (pkt_IP <$> in_made (wk_in w)) ++ lost ∧
    (lost ≠ [] → wk_in w = InDone ∧ stopped w = true);
  ii_pkts : packet_bufs (concat (wk_esp_taken w)) = wk_pkt_freed w ++ packet_bufs (in_todo (wk_in w));
  ii_plains : (pkt_buf <$> concat (wk_ipOut w)) ++ (pkt_buf <$> in_made (wk_in w)) ++ wk_plain_freed w ≡ₚ
    seq 0 (wk_plains w);
  ii_batches : Forall (λ b, b ≠ []) (wk_ipOut w);
  ii_send : ∀ out, wk_in w = InSend out → out ≠ [] }.

Record out_inv (w : Workers) : Prop := {
  oi_read : omap id (wk_ip_taken w) = (snd <$> log_sends (wk_log w)) ++ out_gathered (wk_out w);
  oi_made : ∃ lost, log_datagrams (wk_log w) = (fr_payload <$> wk_tx w) ++ (fr_payload <$> out_frames (wk_out w)) ++ lost ∧
    (lost ≠ [] → wk_out w = OutDone ∧ stopped w = true);
  oi_frames : (fr_id <$> wk_tx w) ++ (fr_id <$> out_frames (wk_out w)) ++ wk_frame_freed w ++ wk_leaked w ≡ₚ
    seq 0 (wk_datagrams w);
  oi_kind : Forall (λ f, fr_kind f = KindESP ∧ fr_hook f = true) (wk_tx w ++ out_frames (wk_out w));
  oi_leak : wk_leaked w ≠ [] → wk_out w = OutPanic ∨ wk_out w = OutDone ∧ pl_fatal (wk_pl w) ≠ None;
  oi_group : ∀ i packets, wk_out w = OutGather i packets → (i <= txBatch ∧ 1 <= length packets <= S i)%nat }.

Lemma pipe_run_app log1 : ∀ p log2, pipe_run p (log1 ++ log2) =
  let '(p, ins, outs) := pipe_run p log1 in
  let '(p, ins', outs') := pipe_run p log2 in (p, ins ++ ins', outs ++ outs').
Proof.
  induction log1 as [|e log1 IH]; intros p log2; cbn [app pipe_run].
  { by destruct (pipe_run p log2) as [[]]. }
  destruct (apply_event p e) as [[p1 i1] o1]. rewrite IH. destruct (pipe_run p1 log1) as [[p2 i2] o2].
  destruct (pipe_run p2 log2) as [[p3 i3] o3]. by rewrite !app_assoc.
Qed.

Lemma pipe_run_snoc p log e p1 ins outs : pipe_run p log = (p1, ins, outs) →
  pipe_run p (log ++ [e]) = let '(p2, i, o) := apply_event p1 e in (p2, ins ++ i, outs ++ o).
Proof.
  intros E. rewrite pipe_run_app, E. cbn [pipe_run]. destruct (apply_event p1 e) as [[p2 i] o]. by rewrite !app_nil_r.
Qed.

(** The codecs are those of the history. *)
Definition pl_inv (w : Workers) : Prop := (pipe_run p0 (wk_log w)).1.1 = wk_pl w.

Lemma log_snoc w e p i o : pl_inv w → apply_event (wk_pl w) e = (p, i, o) →
  (pipe_run p0 (wk_log w ++ [e])).1.1 = p ∧ log_ips (wk_log w ++ [e]) = log_ips (wk_log w) ++ i ∧
  log_datagrams (wk_log w ++ [e]) = log_datagrams (wk_log w) ++ o.
Proof.
  unfold pl_inv, log_ips, log_datagrams. destruct (pipe_run p0 (wk_log w)) as [[p1 ins] outs] eqn:E. cbn.
  intros -> Ha. by rewrite (pipe_run_snoc _ _ _ _ _ _ E), Ha.
Qed.

Lemma log_in_app l1 l2 : log_in (l1 ++ l2) = log_in l1 ++ log_in l2.
Proof. apply omap_app. Qed.
Lemma log_sends_app l1 l2 : log_sends (l1 ++ l2) = log_sends l1 ++ log_sends l2.
Proof. unfold log_sends. by rewrite fmap_app, concat_app. Qed.
Lemma payloads_in_app b1 b2 : payloads_in (b1 ++ b2) = payloads_in b1 ++ payloads_in b2.
Proof. unfold payloads_in. by rewrite omap_app, fmap_app. Qed.
Lemma packet_bufs_app b1 b2 : packet_bufs (b1 ++ b2) = packet_bufs b1 ++ packet_bufs b2.
Proof. unfold packet_bufs. by rewrite omap_app, fmap_app. Qed.

(** A step that leaves one side alone keeps its invariant. *)
Lemma in_inv_keep w w' : in_inv w → wk_esp_taken w' = wk_esp_taken w → wk_in w' = wk_in w → wk_ipOut w' = wk_ipOut w →
  wk_pkt_freed w' = wk_pkt_freed w → wk_plains w' = wk_plains w → wk_plain_freed w' = wk_plain_freed w →
  log_in (wk_log w') = log_in (wk_log w) → log_ips (wk_log w') = log_ips (wk_log w) →
  (stopped w = true → stopped w' = true) → in_inv w'.
Proof.
  intros [I1 I2 I3 I4 I5 I6] E1 E2 E3 E4 E5 E6 E7 E8 Hs.
  constructor; rewrite ?E1, ?E2, ?E3, ?E4, ?E5, ?E6, ?E7, ?E8; try done.
  all: destruct I1 as (l1 & H1 & K1), I2 as (l2 & H2 & K2); eexists; split; [eassumption|naive_solver].
Qed.

Lemma out_inv_keep w w' : out_inv w → wk_ip_taken w' = wk_ip_taken w → wk_out w' = wk_out w → wk_tx w' = wk_tx w →
  wk_frame_freed w' = wk_frame_freed w → wk_leaked w' = wk_leaked w → wk_datagrams w' = wk_datagrams w →
  log_sends (wk_log w') = log_sends (wk_log w) → log_datagrams (wk_log w') = log_datagrams (wk_log w) →
  (stopped w = true → stopped w' = true) → (pl_fatal (wk_pl w) ≠ None → pl_fatal (wk_pl w') ≠ None) → out_inv w'.
Proof.
  intros [I1 I2 I3 I4 I5 I6] E1 E2 E3 E4 E5 E6 E7 E8 Hs Hf.
  constructor; rewrite ?E1, ?E2, ?E3, ?E4, ?E5, ?E6, ?E7, ?E8; try done.
  - destruct I2 as (l2 & H2 & K2). eexists. split; [eassumption|naive_solver].
  - intros Hl. destruct (I5 Hl) as [|[? ?]]; [by left|right; auto].
Qed.

Lemma ReplaceChild_fatal p i o old : pl_fatal (ReplaceChild p i o old) = pl_fatal p.
Proof. by destruct i. Qed.
Lemma DropInboundSPI_fatal p spi : pl_fatal (DropInboundSPI p spi) = pl_fatal p.
Proof.
  unfold DropInboundSPI. destruct (spi =? 0); [done|]. destruct (pl_inbound p) as [t|]; [|done]. by destruct (t !! spi).
Qed.

Lemma processInbound_keeps p d : pl_fatal (processInbound p d).1 = pl_fatal p ∧ pl_outbound (processInbound p d).1 = pl_outbound p.
Proof.
  unfold processInbound. destruct (len d <? 4); [done|]. destruct (pl_inbound p) as [t|]; [|done].
  destruct (_ ← _; _) as [spi| | |]; try done. destruct (t !! spi) as [c|]; [|done]. by destruct (ProcessPooled c d).
Qed.

Record run_inv (w : Workers) : Prop := { rv_pl : pl_inv w; rv_in : in_inv w; rv_out : out_inv w }.

Lemma run_inv_start : run_inv (start_workers p0).
Proof. split; [done| |]; constructor; cbn; try done; by exists []. Qed.

(** Steps that touch neither worker's data. *)
Ltac keep := first [eapply in_inv_keep | eapply out_inv_keep]; first [eassumption | cbn; try done].

Lemma in_next_inv w pkt todo out : run_inv w → wk_in w = InBatch (pkt :: todo) out → stopped w = false →
  run_inv (in_next pkt todo out w).
Proof.
  intros [Hp Hi Ho] Hw Hs. destruct pkt as [k|]; cbn [in_next].
  2: { split; [done| |by keep]. destruct Hi as [(l1 & I1 & K1) (l2 & I2 & K2) I3 I4 I5 I6]. rewrite Hw in *.
       constructor; try done; eexists; (split; [eassumption|]); [by intros [? _]%K1|by intros [? _]%K2]. }
  destruct (processInbound_keeps (wk_pl w) (pk_payload k)) as [Hf _].
  destruct (processInbound (wk_pl w) (pk_payload k)) as [p r] eqn:E. cbn [fst] in Hf.
  destruct (log_snoc w (EvIn (pk_payload k)) p (match r with Ok ip => [ip] | _ => [] end) [] Hp) as (L1 & L2 & L3).
  { cbn. by rewrite E. }
  rewrite app_nil_r in L3. destruct Hi as [(l1 & I1 & K1) (l2 & I2 & K2) I3 I4 I5 I6]. rewrite Hw in *.
  assert (l1 = [] ∧ l2 = []) as [-> ->].
  { split; [destruct l1; [done|by destruct K1]|destruct l2; [done|by destruct K2]]. }
  assert (Hin : log_in (wk_log w ++ [EvIn (pk_payload k)]) = log_in (wk_log w) ++ [pk_payload k]) by apply log_in_app.
  cbn [in_ahead in_made in_todo] in *. rewrite app_nil_r in *.
  assert (Hread : payloads_in (concat (wk_esp_taken w)) = (log_in (wk_log w) ++ [pk_payload k]) ++ payloads_in todo).
  { by rewrite I1, <- app_assoc. }
  assert (Hfree : packet_bufs (concat (wk_esp_taken w)) = (wk_pkt_freed w ++ [pk_buf k]) ++ packet_bufs todo).
  { by rewrite I3, <- app_assoc. }
  assert (Hsends : log_sends (wk_log w ++ [EvIn (pk_payload k)]) = log_sends (wk_log w)).
  { rewrite log_sends_app. apply app_nil_r. }
  destruct r as [ip|e| |]; (split; [done| |keep; by rewrite Hf]).
  all: constructor; cbn; rewrite ?Hin, ?L2, ?I2; try done.
  all: try (exists []; rewrite ?app_nil_r; split; done).
  - exists []. by rewrite fmap_app, !app_nil_r, app_assoc.
  - rewrite fmap_app. cbn. rewrite seq_S, <- I4. cbn. solve_perm.
Qed.

Lemma in_abort_inv w todo out : run_inv w → stopped w = true → in_todo (wk_in w) = todo → in_ahead (wk_in w) = todo →
  in_made (wk_in w) = out → wk_in w ≠ InDone → run_inv (in_abort todo out w).
Proof.
  intros [Hp Hi Ho] Hs H1 H2 H3 Hd. split; [done| |by keep].
  destruct Hi as [(l1 & I1 & K1) (l2 & I2 & K2) I3 I4 I5 I6]. rewrite H1, ?H2, ?H3 in *.
  assert (l1 = [] ∧ l2 = []) as [-> ->].
  { split; [destruct l1; [done|by destruct K1]|destruct l2; [done|by destruct K2]]. }
  rewrite app_nil_r in *. constructor; cbn; try done.
  - by exists (payloads_in todo).
  - by exists (pkt_IP <$> out).
  - change (packet_bufs []) with (@nil nat). by rewrite I3, app_nil_r.
  - rewrite <- I4. solve_perm.
Qed.

Lemma group_frames_spec n ds : fr_id <$> group_frames n ds = seq n (length ds) ∧ fr_payload <$> group_frames n ds = ds ∧
  Forall (λ f, fr_kind f = KindESP ∧ fr_hook f = true) (group_frames n ds).
Proof.
  unfold group_frames. revert n. induction ds as [|d ds IH]; intros n; [done|].
  destruct (IH (S n)) as (I1 & I2 & I3). cbn. change (seq n (S (length ds))) with (n :: seq (S n) (length ds)). cbn.
  rewrite I1, I2. split_and!; [done..|]. by constructor.
Qed.

Lemma encrypt_end sends : ∀ o, (encrypt o sends).1.2 ≠ GroupNone.
Proof.
  induction sends as [|[rnd pkt] sends IH]; intros o; cbn; [done|]. destruct (process o rnd pkt) as [[o1 warn] r].
  specialize (IH o1). destruct r; try done; [|destruct (bool_decide _); [done|]];
    by destruct (encrypt o1 sends) as [[[]]].
Qed.

Lemma out_encrypt_inv w i packets randoms : run_inv w → wk_out w = OutGather i packets →
  length randoms = length packets → run_inv (out_encrypt (zip randoms packets) w).
Proof.
  intros [Hp Hi Ho] Hw Hl. set (sends := zip randoms packets).
  assert (Hsnd : snd <$> sends = packets) by (apply snd_zip; lia). unfold out_encrypt.
  destruct (seal_group (wk_pl w) sends) as [[[p ds] e] warn] eqn:E.
  destruct (log_snoc w (EvGroup sends) p [] (match e with GroupSent => ds | _ => [] end) Hp) as (L1 & L2 & L3).
  { cbn. by rewrite E. }
  rewrite app_nil_r in L2.
  assert (Hin : log_in (wk_log w ++ [EvGroup sends]) = log_in (wk_log w)) by (rewrite log_in_app; apply app_nil_r).
  assert (Hsends : log_sends (wk_log w ++ [EvGroup sends]) = log_sends (wk_log w) ++ sends).
  { rewrite log_sends_app. unfold log_sends at 2. cbn. by rewrite app_nil_r. }
  destruct Ho as [I1 (l2 & I2 & K2) I3 I4 I5 I6]. rewrite Hw in *. cbn [out_gathered out_frames] in *.
  assert (l2 = []) as -> by (destruct l2; [done|by destruct K2]).
  assert (wk_leaked w = []) as Hlk by (destruct (wk_leaked w); [done|by destruct I5 as [|[? _]]]).
  destruct (group_frames_spec (wk_datagrams w) ds) as (G1 & G2 & G3).
  rewrite !app_nil_r in *. rewrite Hlk, app_nil_r in I3.
  assert (Hids : (fr_id <$> wk_tx w) ++ seq (wk_datagrams w) (length ds) ++ wk_frame_freed w ≡ₚ
    seq 0 (wk_datagrams w + length ds)).
  { rewrite seq_app, <- I3. cbn. solve_perm. }
  assert (Hids' : (fr_id <$> wk_tx w) ++ wk_frame_freed w ++ seq (wk_datagrams w) (length ds) ≡ₚ
    seq 0 (wk_datagrams w + length ds)) by (rewrite <- Hids; solve_perm).
  assert (He : (e = GroupWrapped → pl_fatal p ≠ None) ∧ (e = GroupNone → ds = [])).
  { clear L1. unfold seal_group in E. destruct (pl_outbound (wk_pl w)) as [o|]; [|by simplify_eq].
    pose proof (encrypt_end sends o) as Hne.
    destruct (encrypt o sends) as [[[o1 ds1] e1] warn1]. simplify_eq. split; [|by intros ->].
    intros ->. unfold reportFatal. cbn. destruct (pl_fatal (wk_pl w)) eqn:Hpf; cbn; by rewrite ?Hpf. }
  destruct He as [Hf Hn].
  destruct e; (split; [done|by keep|]); constructor; cbn; rewrite ?Hsends, ?fmap_app, ?Hsnd, ?L3, ?I2, ?G1, ?G2, ?Hlk,
    ?app_nil_r, ?app_nil_l; try done.
  all: try (exists []; by rewrite ?app_nil_r).
  - by apply Forall_app.
  - intros _. right. auto.
  - by rewrite Hn, Nat.add_0_r by done.
  - intros _. by left.
Qed.

Lemma in_take_inv w batch q : run_inv w → wk_in w = InIdle → run_inv
  (w <| wk_espIn := q |> <| wk_esp_taken := wk_esp_taken w ++ [batch] |> <| wk_in := InBatch batch [] |>).
Proof.
  intros [Hp Hi Ho] Hw. split; [done| |by keep].
  destruct Hi as [(l1 & I1 & K1) (l2 & I2 & K2) I3 I4 I5 I6]. rewrite Hw in *.
  assert (l1 = []) as -> by (destruct l1; [done|by destruct K1]).
  assert (l2 = []) as -> by (destruct l2; [done|by destruct K2]).
  cbn in I1, I3. change (payloads_in []) with (@nil (list Z)) in I1. change (packet_bufs []) with (@nil nat) in I3.
  rewrite app_nil_r in *. constructor; cbn; rewrite ?concat_app, ?payloads_in_app, ?packet_bufs_app; cbn;
    rewrite ?app_nil_r, ?I1, ?I3; try done; exists []; by rewrite ?app_nil_r.
Qed.

(** A state change of the inbound worker that moves nothing. *)
Lemma in_goto_inv w s : run_inv w → in_todo s = in_todo (wk_in w) → in_ahead s = in_ahead (wk_in w) →
  in_made s = in_made (wk_in w) → wk_in w ≠ InDone → (∀ out, s = InSend out → out ≠ []) → run_inv (w <| wk_in := s |>).
Proof.
  intros [Hp Hi Ho] H1 H2 H3 Hd Hs. split; [done| |by keep].
  destruct Hi as [(l1 & I1 & K1) (l2 & I2 & K2) I3 I4 I5 I6].
  assert (l1 = []) as -> by (destruct l1; [done|by destruct K1]).
  assert (l2 = []) as -> by (destruct l2; [done|by destruct K2]).
  constructor; cbn; rewrite ?H1, ?H2, ?H3; try done; by exists [].
Qed.

Lemma in_sent_inv w out : run_inv w → wk_in w = InSend out →
  run_inv (w <| wk_ipOut := wk_ipOut w ++ [out] |> <| wk_in := InIdle |>).
Proof.
  intros [Hp Hi Ho] Hw. split; [done| |by keep].
  destruct Hi as [(l1 & I1 & K1) (l2 & I2 & K2) I3 I4 I5 I6]. pose proof (I6 out Hw) as Hne. rewrite Hw in *.
  assert (l1 = []) as -> by (destruct l1; [done|by destruct K1]).
  assert (l2 = []) as -> by (destruct l2; [done|by destruct K2]).
  constructor; cbn; rewrite ?concat_app, ?fmap_app; cbn; rewrite ?app_nil_r; try done.
  - by exists [].
  - exists []. cbn in I2. by rewrite app_nil_r, I2, app_nil_r.
  - cbn in I3. change (packet_bufs []) with (@nil nat) in I3. by rewrite app_nil_r in I3.
  - rewrite <- I4. cbn. solve_perm.
  - apply Forall_app. by split; [|constructor].
Qed.

(** The outbound worker takes a packet, or changes state without moving one. *)
Lemma out_read_inv w pkt q s : run_inv w → out_gathered s = out_gathered (wk_out w) ++ option_list pkt →
  out_frames s = out_frames (wk_out w) → (wk_out w = OutIdle ∨ ∃ i ps, wk_out w = OutGather i ps) →
  (∀ i ps, s = OutGather i ps → (i <= txBatch ∧ 1 <= length ps <= S i)%nat) →
  run_inv (w <| wk_ipIn := q |> <| wk_ip_taken := wk_ip_taken w ++ [pkt] |> <| wk_out := s |>).
Proof.
  intros [Hp Hi Ho] H1 H2 Hw Hs. split; [done|by keep|]. destruct Ho as [I1 (l2 & I2 & K2) I3 I4 I5 I6].
  assert (l2 = []) as ->. { destruct l2; [done|]. destruct K2 as [K2 _]; [done|]. by destruct Hw as [Hw|(? & ? & Hw)]; rewrite Hw in K2. }
  assert (wk_leaked w = []) as Hlk.
  { destruct (wk_leaked w); [done|]. destruct I5 as [K|[K _]]; [done|..]; by destruct Hw as [Hw|(? & ? & Hw)]; rewrite Hw in K. }
  constructor; cbn; rewrite ?H1, ?H2, ?Hlk; try done.
  - rewrite omap_app, I1, app_assoc. by destruct pkt.
  - by exists [].
  - by rewrite <- I3, Hlk.
Qed.

Lemma out_goto_inv w s : run_inv w → out_gathered s = out_gathered (wk_out w) → out_frames s = out_frames (wk_out w) →
  (wk_out w = OutIdle ∨ wk_out w = OutSend []) → (∀ i ps, s ≠ OutGather i ps) → run_inv (w <| wk_out := s |>).
Proof.
  intros [Hp Hi Ho] H1 H2 Hw Hs. split; [done|by keep|]. destruct Ho as [I1 (l2 & I2 & K2) I3 I4 I5 I6].
  assert (l2 = []) as ->. { destruct l2; [done|]. destruct K2 as [K2 _]; [done|]. by destruct Hw as [Hw|Hw]; rewrite Hw in K2. }
  assert (wk_leaked w = []) as Hlk.
  { destruct (wk_leaked w); [done|]. destruct I5 as [K|[K _]]; [done|..]; by destruct Hw as [Hw|Hw]; rewrite Hw in K. }
  constructor; cbn; rewrite ?H1, ?H2, ?Hlk; try done.
  - by exists [].
  - by rewrite <- I3, Hlk.
  - intros i ps E. by destruct (Hs i ps).
Qed.

(** Frames of the send loop go to the transport, or to the pool. *)
Lemma out_drain_inv w frames sent rest freed s : run_inv w → wk_out w = OutSend frames → frames = sent ++ rest ++ freed →
  out_gathered s = [] → out_frames s = rest → (freed ≠ [] → s = OutDone ∧ stopped w = true) → (∀ i ps, s ≠ OutGather i ps) →
  run_inv (releaseFrames freed w <| wk_tx := wk_tx w ++ sent |> <| wk_out := s |>).
Proof.
  intros [Hp Hi Ho] Hw -> H1 H2 Hs Hg. split; [done|by keep|]. destruct Ho as [I1 (l2 & I2 & K2) I3 I4 I5 I6].
  rewrite Hw in *. cbn [out_gathered out_frames] in *.
  assert (l2 = []) as -> by (destruct l2; [done|by destruct K2]).
  assert (wk_leaked w = []) as Hlk by (destruct (wk_leaked w); [done|by destruct I5 as [|[? _]]]).
  constructor; cbn; rewrite ?H1, ?H2, ?Hlk; try done.
  - exists (fr_payload <$> freed). rewrite I2, !fmap_app, app_nil_r, <- !app_assoc. split; [done|].
    intros Hf. apply Hs. by intros ->.
  - rewrite <- I3, Hlk. rewrite !fmap_app. solve_perm.
  - rewrite !Forall_app in *. tauto.
  - intros i ps E. by destruct (Hg i ps).
Qed.

Lemma worker_step_inv w w' : worker_step w w' → run_inv w → run_inv w'.
Proof.
  intros Hs I. destruct Hs as [w Hw Hst|w Hw Hq Hc|w b q Hw Hq|w pkt todo out Hw Hst|w pkt todo out Hw Hst|w out Hw
    |w out Hw|w out Hw Hst|w Hw Hst|w Hw Hq Hc|w pkt q Hw Hq|w i ps pkt q Hw Hi Hq|w i ps rnds Hw Hi Hl|w f fs Hw
    |w f fs Hw Hst|w Hw].
  - apply in_goto_inv; rewrite ?Hw; done.
  - apply in_goto_inv; rewrite ?Hw; done.
  - by apply in_take_inv.
  - by apply in_next_inv.
  - apply in_abort_inv; rewrite ?Hw; done.
  - apply in_goto_inv; rewrite ?Hw; try done; case_bool_decide; subst; try done. by intros ? [= <-].
  - by apply in_sent_inv.
  - apply in_abort_inv; rewrite ?Hw; done.
  - apply out_goto_inv; rewrite ?Hw; auto.
  - apply out_goto_inv; rewrite ?Hw; auto.
  - apply out_read_inv; rewrite ?Hw; [done|by destruct pkt|by destruct pkt|by left|].
    intros i ps E. destruct pkt; simplify_eq. cbn. unfold txBatch. lia.
  - pose proof (oi_group _ (rv_out _ I) _ _ Hw) as [G1 G2]. apply out_read_inv; rewrite ?Hw; [done..|by eauto|].
    intros i' ps' [= <- <-]. rewrite length_app. destruct pkt; cbn; lia.
  - by eapply out_encrypt_inv.
  - pose proof (out_drain_inv w (f :: fs) [f] fs [] (OutSend fs) I Hw) as P.
    unfold releaseFrames in P. cbn in P. rewrite app_nil_r in P.
    assert (P' : run_inv (w <| wk_tx := wk_tx w ++ [f] |> <| wk_out := OutSend fs |>)).
    2: exact P'. { rewrite app_nil_r in P. by apply P. }
  - pose proof (out_drain_inv w (f :: fs) [] [] (f :: fs) OutDone I Hw) as P. cbn in P. rewrite app_nil_r in P. by apply P.
  - apply out_goto_inv; rewrite ?Hw; auto.
Qed.

Lemma env_step_inv w w' : env_step w w' → run_inv w → run_inv w'.
Proof.
  intros Hs [Hp Hi Ho]. destruct Hs as [w b Hc|w|w pkt Hc|w|w|w|w|w i o old|w spi].
  1-7: split; [done| |]; keep; unfold stopped; cbn; intros _; by rewrite ?orb_true_r.
  - destruct (log_snoc w (EvReplace i o old) _ [] [] Hp eq_refl) as (L1 & L2 & L3). rewrite app_nil_r in L2, L3.
    split; [done| |]; keep; rewrite ?log_in_app, ?log_sends_app, ?ReplaceChild_fatal; try done; apply app_nil_r.
  - destruct (log_snoc w (EvDrop spi) _ [] [] Hp eq_refl) as (L1 & L2 & L3). rewrite app_nil_r in L2, L3.
    split; [done| |]; keep; rewrite ?log_in_app, ?log_sends_app, ?DropInboundSPI_fatal; try done; apply app_nil_r.
Qed.

Lemma run_reachable_inv w : run_reachable p0 w → run_inv w.
Proof.
  intros H. unfold run_reachable in H. pose proof run_inv_start as I. revert I.
  induction H as [|w0 w1 w2 [Hs|Hs] _ IH]; [done|..]; intros I; apply IH.
  - by apply (worker_step_inv _ _ Hs).
  - by apply (env_step_inv _ _ Hs).
Qed.

End Invariant.

(* ------------------------------------------------------------------ *)
(** ** Termination *)

(** The work the workers still have: every step of a worker costs some. *)
Definition in_work (s : InWorker) : nat :=
  match s with InIdle => 1 | InBatch todo _ => length todo + 3 | InSend _ => 2 | InDone | InPanic _ _ => 0 end%nat.
Definition out_work (s : OutWorker) : nat :=
  match s with OutIdle => 1 | OutGather _ ps => length ps + 3 | OutSend fs => length fs + 2 | OutDone | OutPanic => 0 end%nat.
Definition work (w : Workers) : nat :=
  (in_work (wk_in w) + sum_list ((λ b, length b + 3) <$> wk_espIn w) + out_work (wk_out w) + 4 * length (wk_ipIn w))%nat.

Section Termination.
Context {C : Crypto}.

Lemma encrypt_length sends : ∀ o, (length (encrypt o sends).1.1.2 <= length sends)%nat.
Proof.
  induction sends as [|[rnd pkt] sends IH]; intros o; cbn; [done|]. destruct (process o rnd pkt) as [[o1 warn] r].
  specialize (IH o1). destruct r; cbn; try lia; [|destruct (bool_decide _); cbn; [lia|]];
    destruct (encrypt o1 sends) as [[[]]]; cbn in *; lia.
Qed.

Lemma seal_group_length p sends : (length (seal_group p sends).1.1.2 <= length sends)%nat.
Proof.
  unfold seal_group. destruct (pl_outbound p) as [o|]; [|cbn; lia]. pose proof (encrypt_length sends o) as H.
  by destruct (encrypt o sends) as [[[]]].
Qed.

Lemma worker_step_work w w' : worker_step w w' → (work w' < work w)%nat.
Proof.
  intros Hs. unfold work. destruct Hs as [w Hw Hst|w Hw Hq Hc|w b q Hw Hq|w pkt todo out Hw Hst|w pkt todo out Hw Hst|w out Hw
    |w out Hw|w out Hw Hst|w Hw Hst|w Hw Hq Hc|w pkt q Hw Hq|w i ps pkt q Hw Hi Hq|w i ps rnds Hw Hi Hl|w f fs Hw
    |w f fs Hw Hst|w Hw]; rewrite ?Hw.
  4: { destruct pkt as [k|]; cbn; [|lia]. destruct (processInbound _ _) as [p r]. destruct r; cbn; lia. }
  5: { unfold in_finish. case_bool_decide; cbn; lia. }
  9: { rewrite Hq. destruct pkt; cbn; lia. }
  9: { rewrite Hq. destruct pkt; cbn; rewrite ?length_app; cbn; lia. }
  9: { pose proof (seal_group_length (wk_pl w) (zip rnds ps)) as H. rewrite length_zip in H. unfold out_encrypt.
       destruct (seal_group (wk_pl w) (zip rnds ps)) as [[[p ds] e] warn]. cbn in H.
       assert (length (group_frames (wk_datagrams w) ds) = length ds).
       { unfold group_frames. rewrite length_zip_with, length_seq. lia. }
       destruct e; cbn in *; lia. }
  all: cbn; rewrite ?Hq; cbn; lia.
Qed.

Lemma worker_steps_bounded n w w' : nsteps worker_step n w w' → (n + work w' <= work w)%nat.
Proof. induction 1 as [|n w0 w1 w2 Hs _ IH]; [lia|]. apply worker_step_work in Hs. lia. Qed.

(** A worker that cannot move waits for input with an empty channel, or is gone. *)
Lemma worker_stuck w : (∀ w', ¬ worker_step w w') → (∀ i ps, wk_out w = OutGather i ps → i <= txBatch)%nat →
  ((wk_in w = InIdle ∧ wk_espIn w = [] ∧ wk_espIn_closed w = false ∧ stopped w = false) ∨
     wk_in w = InDone ∨ ∃ todo out, wk_in w = InPanic todo out) ∧
  ((wk_out w = OutIdle ∧ wk_ipIn w = [] ∧ wk_ipIn_closed w = false ∧ stopped w = false) ∨
     wk_out w = OutDone ∨ wk_out w = OutPanic).
Proof.
  intros H Hg. split.
  - destruct (wk_in w) as [|[|pkt todo] out|out| |todo out] eqn:Hw; eauto.
    + left. destruct (wk_espIn w) eqn:Hq; [|by destruct (H _ (in_take _ _ _ Hw Hq))].
      destruct (wk_espIn_closed w) eqn:Hc; [by destruct (H _ (in_closed _ Hw Hq Hc))|].
      destruct (stopped w) eqn:Hs; [by destruct (H _ (in_stop _ Hw Hs))|done].
    + by destruct (H _ (in_end _ _ Hw)).
    + destruct (stopped w) eqn:Hs; [by destruct (H _ (in_halt _ _ _ _ Hw Hs))|by destruct (H _ (in_packet _ _ _ _ Hw Hs))].
    + by destruct (H _ (in_sent _ _ Hw)).
  - destruct (wk_out w) as [|i ps|[|f fs]| |] eqn:Hw; auto.
    + left. destruct (wk_ipIn w) eqn:Hq; [|by destruct (H _ (out_first _ _ _ Hw Hq))].
      destruct (wk_ipIn_closed w) eqn:Hc; [by destruct (H _ (out_closed _ Hw Hq Hc))|].
      destruct (stopped w) eqn:Hs; [by destruct (H _ (out_stop _ Hw Hs))|done].
    + destruct (wk_ipIn w) as [|pkt q] eqn:Hq.
      { destruct (H _ (out_group _ i ps (replicate (length ps) (λ _, Panic)) Hw (or_intror Hq) ltac:(by rewrite length_replicate))). }
      destruct (decide (i < txBatch)%nat) as [Hi|Hi]; [by destruct (H _ (out_more _ _ _ _ _ Hw Hi Hq))|].
      assert (i = txBatch) as -> by (specialize (Hg _ _ eq_refl); lia).
      by destruct (H _ (out_group _ _ ps (replicate (length ps) (λ _, Panic)) Hw (or_introl eq_refl) ltac:(by rewrite length_replicate))).
    + by destruct (H _ (out_next _ Hw)).
    + by destruct (H _ (out_sent _ _ _ Hw)).
Qed.

End Termination.

(* ------------------------------------------------------------------ *)
(** ** Panics *)

Section Usable.
Context {C : Crypto} {L : CryptoLaws}.

(** Codecs of a negotiated child, after any number of packets, and what they are
    given: bytes from the wire, bytes from the application, and a random source
    that fails or fills the buffer. *)
Definition usable_in (i : Inbound) : Prop := ∃ enc ig ek ik, in_ok (codec_spi i) enc ig ek ik i ∧ bytes ek.
Definition usable_out (o : Outbound) : Prop := ∃ spi enc ig ek ik, out_ok spi enc ig ek ik o ∧ bytes ek.
Definition usable_pl (p : Pipeline) : Prop :=
  (∀ t spi i, pl_inbound p = Some t → t !! spi = Some i → codec_spi i = spi ∧ usable_in i) ∧
  (∀ o, pl_outbound p = Some o → usable_out o).
Definition fills (random : Z → res (list Z)) : Prop :=
  ∀ n, 0 <= n → (∃ e, random n = Err e) ∨ ∃ b, random n = Ok b ∧ bytes b ∧ len b = n.
Definition usable_event (e : pl_event) : Prop :=
  match e with
  | EvIn d => bytes d
  | EvGroup sends => Forall (λ s, fills s.1 ∧ bytes s.2) sends
  | EvReplace i o _ => (∀ c, i = Some c → usable_in c) ∧ (∀ c, o = Some c → usable_out c)
  | EvDrop _ => True
  end.

Lemma processInbound_total p d : usable_pl p → bytes d →
  usable_pl (processInbound p d).1 ∧ fine (processInbound p d).2.
Proof.
  intros Hu Hb. pose proof Hu as [Hi Ho]. unfold processInbound. destruct (len d <? 4) eqn:Hl; [done|].
  destruct (pl_inbound p) as [t|] eqn:Ht; [|done].
  assert (Hf : fine (b ← d.[0, 4]; beUint32 b)) by (apply Z.ltb_ge in Hl; fine_solve).
  destruct (b ← d.[0, 4]; beUint32 b) as [spi| | |]; try done.
  destruct (t !! spi) as [c|] eqn:Hc; [|done]. destruct (Hi t spi c eq_refl Hc) as (Hs & enc & ig & ek & ik & Hin & Hk).
  pose proof (ProcessPooled_total _ _ _ _ _ c d Hin Hk Hb) as P. destruct (ProcessPooled c d) as [c' r].
  destruct P as (Hin' & Hfr & _). split; [|done]. split; [|done]. cbn. intros t' spi' i [= <-] Hl'.
  assert (Hspi : codec_spi c' = codec_spi c) by (unfold codec_spi at 1; by rewrite (io_spi _ _ _ _ _ _ Hin')).
  apply lookup_insert_Some in Hl' as [[<- <-]|[_ Hl']]; [|by eapply Hi].
  split; [congruence|]. exists enc, ig, ek, ik. by rewrite Hspi.
Qed.

Lemma encrypt_total sends : Forall (λ s, fills s.1 ∧ bytes s.2) sends → ∀ o, usable_out o →
  usable_out (encrypt o sends).1.1.1 ∧ (encrypt o sends).1.2 ≠ GroupPanic.
Proof.
  induction 1 as [|[rnd pkt] sends [Hf Hb] _ IH]; intros o (spi & enc & ig & ek & ik & Ho & Hk); cbn; [by split; [exists spi, enc, ig, ek, ik|]|].
  assert (Hiv : 0 <= IVLen enc).
  { pose proof (oo_sel _ _ _ _ _ _ Ho) as [_ (id & kl & Hen) _ _]. destruct (NewEncryption_wf _ _ _ Hen) as (W & _ & _).
    pose proof (ew_iv _ W). lia. }
  destruct (process_total spi enc ig ek ik o rnd pkt Ho Hk Hb (Hf _ Hiv)) as [Ho1 Hfr].
  destruct (process o rnd pkt) as [[o1 warn] r]. cbn in Ho1, Hfr.
  assert (Hu : usable_out o1) by (unfold usable_out; eauto 10). specialize (IH o1 Hu).
  destruct r; try done; [|destruct (bool_decide _); [done|]]; by destruct (encrypt o1 sends) as [[[]]].
Qed.

Lemma seal_group_total p sends : usable_pl p → Forall (λ s, fills s.1 ∧ bytes s.2) sends →
  usable_pl (seal_group p sends).1.1.1 ∧ (seal_group p sends).1.2 ≠ GroupPanic.
Proof.
  intros Hu Hs. pose proof Hu as [Hi Ho]. unfold seal_group. destruct (pl_outbound p) as [o|] eqn:Eo; [|done].
  destruct (encrypt_total sends Hs o (Ho o eq_refl)) as [Ho' He].
  destruct (encrypt o sends) as [[[o' ds] e] warn]. cbn in *. split; [|done].
  assert (Hp : usable_pl (mkPipeline (pl_inbound p) (Some o') (pl_fatal p))).
  { split; cbn; [done|]. by intros ? [= <-]. }
  destruct e; try done. unfold reportFatal. cbn. by destruct (pl_fatal p).
Qed.

Lemma ReplaceChild_usable p i o old : usable_pl p → usable_event (EvReplace i o old) → usable_pl (ReplaceChild p i o old).
Proof.
  intros [Hi Ho] [Hni Hno]. destruct i as [c|]; [|done]. split; cbn.
  - intros t spi i [= <-] Hl. apply lookup_insert_Some in Hl as [[<- <-]|[_ Hl]]; [by auto|].
    destruct (pl_inbound p) as [t|]; [|by rewrite lookup_empty in Hl].
    apply map_lookup_filter_Some in Hl as [Hl _]. by eapply Hi.
  - intros x Hx. destruct o; simplify_eq; auto.
Qed.

Lemma DropInboundSPI_usable p spi : usable_pl p → usable_pl (DropInboundSPI p spi).
Proof.
  intros Hu. pose proof Hu as [Hi Ho]. unfold DropInboundSPI. destruct (spi =? 0); [done|].
  destruct (pl_inbound p) as [t|] eqn:Et; [|done]. destruct (t !! spi) as [c|]; [|done].
  split; cbn; [|done]. intros t' s i [= <-] Hl.
  apply map_lookup_filter_Some in Hl as [Hl _]. by eapply Hi.
Qed.

Definition no_panic (w : Workers) : Prop := (∀ todo out, wk_in w ≠ InPanic todo out) ∧ wk_out w ≠ OutPanic.

(** The history only grows. *)
Lemma run_step_log w w' : run_step w w' → ∃ more, wk_log w' = wk_log w ++ more.
Proof.
  assert (Hnil : ∀ w : Workers, ∃ more, wk_log w = wk_log w ++ more) by (intros ?; exists []; by rewrite app_nil_r).
  intros [Hs|Hs]; destruct Hs; eauto; cbn; eauto.
  - destruct pkt as [k|]; cbn; [|eauto]. destruct (processInbound _ _) as [p []]; cbn; eauto.
  - unfold out_encrypt. destruct (seal_group _ _) as [[[p ds] []] warn]; cbn; eauto.
Qed.

Lemma run_step_usable w w' : run_step w w' → no_panic w → usable_pl (wk_pl w) → Forall usable_event (wk_log w') →
  no_panic w' ∧ usable_pl (wk_pl w').
Proof.
  intros Hs [N1 N2] Hu Hl. destruct Hs as [Hs|Hs]; destruct Hs as [| | |w pkt todo out Hw Hst| | | | | | |w pkt q Hw Hq
    | |w i ps rnds Hw Hi Hlen| | | ] || destruct Hs as [| | | | | | |w i o old|w spi].
  all: try (split; [split; cbn; try done; congruence|done]).
  - destruct pkt as [k|]; cbn in *; [|by split; [split|]].
    destruct (processInbound_total (wk_pl w) (pk_payload k) Hu) as [Hu' Hf].
    { destruct (processInbound _ _) as [p []]; cbn in Hl; apply Forall_app in Hl as [_ Hl]; by apply Forall_cons in Hl as [Hl _]. }
    destruct (processInbound _ _) as [p []]; by split; [split|].
  - unfold in_finish. case_bool_decide; by split; [split|].
  - split; [|done]. split; cbn; [done|by destruct pkt].
  - destruct (seal_group_total (wk_pl w) (zip rnds ps) Hu) as [Hu' He].
    { unfold out_encrypt in Hl. destruct (seal_group _ _) as [[[p ds] []] warn]; cbn in Hl;
        apply Forall_app in Hl as [_ Hl]; by apply Forall_cons in Hl as [Hl _]. }
    unfold out_encrypt. destruct (seal_group _ _) as [[[p ds] []] warn]; by split; [split|].
  - cbn in *. apply Forall_app in Hl as [_ Hl]. apply Forall_cons in Hl as [Hl _]. split; [done|by apply ReplaceChild_usable].
  - split; [done|by apply DropInboundSPI_usable].
Qed.

Lemma run_usable w w' : rtc run_step w w' → no_panic w → usable_pl (wk_pl w) → Forall usable_event (wk_log w') → no_panic w'.
Proof.
  induction 1 as [|w w1 w2 Hs Hr IH]; intros Hn Hu Hl; [done|].
  assert (Hl1 : Forall usable_event (wk_log w1)).
  { clear -Hr Hl. induction Hr as [|w w1 w2 Hs _ IH]; [done|]. destruct (run_step_log _ _ Hs) as [more E].
    specialize (IH Hl). rewrite E in IH. by apply Forall_app in IH as [? _]. }
  destruct (run_step_usable _ _ Hs Hn Hu Hl1) as [Hn1 Hu1]. by apply IH.
Qed.

End Usable.

(* ------------------------------------------------------------------ *)
(** ** Schedules *)

Section Schedules.
Context {C : Crypto}.

Lemma move_in_sound stop w w' : move_in stop w = Some w' → worker_step w w'.
Proof.
  unfold move_in. destruct (wk_in w) as [|[|pkt todo] out|out| |] eqn:Hw; try done.
  - destruct stop; [destruct (stopped w) eqn:Hs; [|done]; intros [= <-]; by apply in_stop|].
    destruct (wk_espIn w) as [|b q] eqn:Hq; [|intros [= <-]; by apply in_take].
    destruct (wk_espIn_closed w) eqn:Hc; [|done]. intros [= <-]. by apply in_closed.
  - intros [= <-]. by apply in_end.
  - destruct (stopped w) eqn:Hs; intros [= <-]; [by apply in_halt|by apply in_packet].
  - destruct stop; [destruct (stopped w) eqn:Hs; [|done]|]; intros [= <-]; [by apply in_give_up|by apply in_sent].
Qed.

Lemma move_out_sound random stop w w' : move_out random stop w = Some w' → worker_step w w'.
Proof.
  assert (Hlen : ∀ ps : list (list Z), length (replicate (length ps) random) = length ps) by (intros; by rewrite length_replicate).
  unfold move_out. destruct (wk_out w) as [|i ps|[|f fs]| |] eqn:Hw; try done.
  - destruct stop; [destruct (stopped w) eqn:Hs; [|done]; intros [= <-]; by apply out_stop|].
    destruct (wk_ipIn w) as [|b q] eqn:Hq; [|intros [= <-]; by apply out_first].
    destruct (wk_ipIn_closed w) eqn:Hc; [|done]. intros [= <-]. by apply out_closed.
  - destruct (wk_ipIn w) as [|b q] eqn:Hq; [intros [= <-]; by eapply out_group; eauto|].
    destruct (i <? txBatch)%nat eqn:Hi; [intros [= <-]; apply Nat.ltb_lt in Hi; by apply out_more|].
    destruct (i =? txBatch)%nat eqn:He; [|done]. intros [= <-]. apply Nat.eqb_eq in He. by eapply out_group; eauto.
  - intros [= <-]. by apply out_next.
  - destruct stop; [destruct (stopped w) eqn:Hs; [|done]|]; intros [= <-]; [by apply out_give_up|by apply out_sent].
Qed.

Lemma do_moves_sound ms : ∀ w w', do_moves ms w = Some w' → rtc run_step w w'.
Proof.
  induction ms as [|m ms IH]; intros w w'; cbn; [by intros [= <-]|].
  destruct (do_move m w) as [w1|] eqn:E; [|done]. intros H. eapply rtc_l; [|by apply IH]. clear IH H.
  destruct m as [stop|random stop|b|pkt|]; cbn [do_move] in E.
  - left. by eapply move_in_sound.
  - left. by eapply move_out_sound.
  - destruct (wk_espIn_closed w) eqn:Hc; [done|]. injection E as <-. right. by apply env_esp.
  - destruct (wk_ipIn_closed w) eqn:Hc; [done|]. injection E as <-. right. by apply env_ip.
  - injection E as <-. right. apply env_cancel.
Qed.

End Schedules.

(* ------------------------------------------------------------------ *)
(** ** Properties *)

(** A worker that waits for input, or that left because its channel closed. *)
Definition in_settled (w : Workers) : Prop := wk_in w = InIdle ∨ wk_in w = InDone ∧ stopped w = false.
Definition out_settled (w : Workers) : Prop := wk_out w = OutIdle ∨ wk_out w = OutDone ∧ stopped w = false.

Lemma run_facts {C : Crypto} (p : Pipeline) (w : Workers) : run_reachable p w →
  log_in (wk_log w) `prefix_of` payloads_in (concat (wk_esp_taken w)) ∧
  (pkt_IP <$> concat (wk_ipOut w)) `prefix_of` log_ips p (wk_log w) ∧
  (in_settled w → log_in (wk_log w) = payloads_in (concat (wk_esp_taken w)) ∧
     pkt_IP <$> concat (wk_ipOut w) = log_ips p (wk_log w)) ∧
  (snd <$> log_sends (wk_log w)) `prefix_of` omap id (wk_ip_taken w) ∧
  (fr_payload <$> wk_tx w) `prefix_of` log_datagrams p (wk_log w) ∧
  (out_settled w → snd <$> log_sends (wk_log w) = omap id (wk_ip_taken w) ∧
     fr_payload <$> wk_tx w = log_datagrams p (wk_log w)).
Proof.
  intros [Hp [(l1 & I1 & K1) (l2 & I2 & K2) _ _ _ _] [I3 (l4 & I4 & K4) _ _ _ _]]%run_reachable_inv.
  rewrite I1, I2, I3, I4. split_and!; try (by eexists).
  - intros Hs. assert (l1 = [] ∧ l2 = [] ∧ in_ahead (wk_in w) = [] ∧ in_made (wk_in w) = []) as (-> & -> & -> & ->).
    { destruct Hs as [Hs|[Hs Hn]]; rewrite Hs, ?Hn in *; (split_and!; [..|done|done]).
      all: first [destruct l1; [done|by destruct K1]|destruct l2; [done|by destruct K2]]. }
    cbn. change (payloads_in []) with (@nil (list Z)). by rewrite ?app_nil_r.
  - intros Hs. assert (l4 = [] ∧ out_gathered (wk_out w) = [] ∧ out_frames (wk_out w) = []) as (-> & -> & ->).
    { destruct Hs as [Hs|[Hs Hn]]; rewrite Hs, ?Hn in *; (split_and!; [|done|done]); destruct l4; try done; by destruct K4. }
    by rewrite ?app_nil_r.
Qed.


(** [C23] No buffer of the data plane is lost or released twice. In every reachable
    state the transport packets received are, in order, those released and those
    of the batch in work; every plaintext backing is with the tunnel, with the
    worker or back in its pool, and every datagram backing with the transport,
    with the worker or back in its pool - except the datagrams of a group in which
    the sequence number wrapped, which are neither sent nor released. Once both
    workers are gone, nothing is left with them. *)
Theorem workers_ownership {C : Crypto} (p : Pipeline) (w : Workers) : run_reachable p w →
  packet_bufs (concat (wk_esp_taken w)) = wk_pkt_freed w ++ packet_bufs (in_todo (wk_in w)) ∧
  (pkt_buf <$> concat (wk_ipOut w)) ++ (pkt_buf <$> in_made (wk_in w)) ++ wk_plain_freed w ≡ₚ seq 0 (wk_plains w) ∧
  (fr_id <$> wk_tx w) ++ (fr_id <$> out_frames (wk_out w)) ++ wk_frame_freed w ++ wk_leaked w ≡ₚ seq 0 (wk_datagrams w) ∧
  Forall (λ f, fr_kind f = KindESP ∧ fr_hook f = true) (wk_tx w) ∧
  (wk_leaked w ≠ [] → wk_out w = OutPanic ∨ wk_out w = OutDone ∧ pl_fatal (wk_pl w) ≠ None) ∧
  (Run_result w ≠ None → wk_pkt_freed w = packet_bufs (concat (wk_esp_taken w)) ∧
     (pkt_buf <$> concat (wk_ipOut w)) ++ wk_plain_freed w ≡ₚ seq 0 (wk_plains w) ∧
     (pl_fatal (wk_pl w) = None → (fr_id <$> wk_tx w) ++ wk_frame_freed w ≡ₚ seq 0 (wk_datagrams w))).
Proof.
  intros [Hp [_ _ I3 I4 _ _] [_ _ I7 I8 I9 _]]%run_reachable_inv. apply Forall_app in I8 as [I8 _].
  split_and!; try done. unfold Run_result. intros Hr.
  destruct (wk_in w) eqn:Hin, (wk_out w) eqn:Hout; try done. cbn in *. change (packet_bufs []) with (@nil nat) in I3.
  rewrite app_nil_r in I3. split_and!; try done. intros Hf.
  assert (wk_leaked w = []) as Hlk by (destruct (wk_leaked w); [done|by destruct I9 as [|[_ ?]]]).
  by rewrite Hlk, app_nil_r in I7.
Qed.


(* ------------------------------------------------------------------ *)
(** ** Witnesses *)

(** A pipeline that talks to itself: two packets are sent, the two frames come
    back in one batch behind a nil packet and a datagram nobody knows. *)
Definition demo_pipeline : Pipeline :=
  match NewInbound sample_icfg, NewOutbound sample_ocfg with
  | Ok i, Ok o => NewPipeline (Some i) (Some o)
  | _, _ => NewPipeline None None
  end.
Definition demo_random (n : Z) : res (list Z) := Ok (zeros n).
Definition demo_out_moves : list move :=
  [PutIp (Some [69; 1; 2]); MoveOut demo_random false; PutIp None; PutIp (Some [96; 7])] ++
  replicate 6 (MoveOut demo_random false).
Definition demo_sent : Workers := default (start_workers demo_pipeline)
  (do_moves (C := xor_crypto) demo_out_moves (start_workers demo_pipeline)).
Definition demo_batch : list (option Packet) :=
  None :: Some (mkPacket KindESP [9; 9; 9; 9; 9] 7) ::
  zip_with (λ n f, Some (mkPacket KindESP (fr_payload f) n)) (seq 8 2) (wk_tx demo_sent).
Definition demo_moves : list move := demo_out_moves ++ PutEsp demo_batch :: replicate 7 (MoveIn false).
Definition demo_state : Workers := default (start_workers demo_pipeline)
  (do_moves (C := xor_crypto) demo_moves (start_workers demo_pipeline)).

Lemma demo_reachable : run_reachable (C := xor_crypto) demo_pipeline demo_state.
Proof. apply (do_moves_sound (C := xor_crypto) demo_moves). vm_compute. reflexivity. Qed.


(** The same run, cancelled in the send of the batch: the two plaintexts go back. *)
Definition demo_cancelled : Workers := default (start_workers demo_pipeline)
  (do_moves (C := xor_crypto) (take 17 demo_moves ++ [Cancel]) (start_workers demo_pipeline)).
Definition demo_stopped : Workers := default (start_workers demo_pipeline)
  (do_moves (C := xor_crypto) [MoveIn true; MoveOut demo_random true] demo_cancelled).

Lemma demo_cancelled_reachable : run_reachable (C := xor_crypto) demo_pipeline demo_cancelled.
Proof. apply (do_moves_sound (C := xor_crypto) (take 17 demo_moves ++ [Cancel])). vm_compute. reflexivity. Qed.

Lemma demo_stopped_reachable : run_reachable (C := xor_crypto) demo_pipeline demo_stopped.
Proof.
  unfold run_reachable. etransitivity; [apply demo_cancelled_reachable|].
  apply (do_moves_sound (C := xor_crypto) [MoveIn true; MoveOut demo_random true]). vm_compute. reflexivity.
Qed.

Lemma workers_ownership_witness : wk_pkt_freed demo_stopped = [7; 8; 9]%nat ∧ wk_plain_freed demo_stopped = [0; 1]%nat ∧
  (pkt_buf <$> concat (wk_ipOut demo_stopped)) ++ wk_plain_freed demo_stopped ≡ₚ seq 0 (wk_plains demo_stopped).
Proof.
  split; [vm_compute; reflexivity|]. split; [vm_compute; reflexivity|].
  destruct (workers_ownership (C := xor_crypto) demo_pipeline demo_stopped demo_stopped_reachable) as (_ & _ & _ & _ & _ & H).
  destruct H as (_ & H & _); [vm_compute; discriminate|exact H].
Defined.

Lemma demo_usable : usable_pl (C := xor_crypto) demo_pipeline.
Proof.
  assert (Hb : bytes (Child_SKer sample_keys) ∧ bytes (Child_SKei sample_keys)) by (split; by apply (bool_decide_unpack _)).
  destruct (NewInbound_ok (C := xor_crypto) sample_icfg sample_enc sample_integ sample_keys sample_negotiated) as (i & Ei & Hi & _);
    [reflexivity..|].
  destruct (NewOutbound_ok (C := xor_crypto) sample_ocfg sample_enc sample_integ sample_keys sample_negotiated) as (o & Eo & Ho & _);
    [reflexivity..|].
  unfold demo_pipeline. rewrite Ei, Eo. split; cbn.
  - intros t spi c [= <-] [<- <-]%lookup_singleton_Some. split; [done|].
    rewrite <- (io_spi _ _ _ _ _ _ Hi) in Hi. eexists _, _, _, _. split; [exact Hi|apply Hb].
  - intros c [= <-]. eexists _, _, _, _, _. split; [exact Ho|apply Hb].
Qed.

Lemma demo_fills : fills demo_random.
Proof. intros n Hn. right. exists (zeros n). split_and!; [done|apply zeros_bytes|by apply len_zeros]. Qed.

Lemma demo_events_usable : Forall (usable_event (C := xor_crypto)) (wk_log demo_stopped).
Proof.
  assert (E : wk_log demo_stopped = EvGroup [(demo_random, [69; 1; 2]); (demo_random, [96; 7])] ::
    (EvIn <$> log_in (wk_log demo_stopped))) by (vm_compute; reflexivity).
  rewrite E. constructor.
  - repeat apply Forall_cons_2; [..|by apply Forall_nil_2]; (split; [apply demo_fills|by apply (bool_decide_unpack _)]).
  - assert (H : Forall bytes (log_in (wk_log demo_stopped))).
    { apply (bool_decide_unpack _). vm_compute. exact I. }
    apply Forall_fmap. exact H.
Qed.

