(* ===== verification/ClassifyID.v ===== *)
(** * Identity strings (src/wire/payload/id.go, ClassifyID)

    strongSwan-style identity text to an ID payload, with what it uses of
    strings.TrimSpace and net.ParseIP. Text is its UTF-8 bytes. *)

From S2P Require Import Prelude Payload Identity Mschap.

Definition IDIPv4Addr : Z := 1.
Definition IDIPv6Addr : Z := 5.
Definition IDKeyID : Z := 11.

(* ------------------------------------------------------------------ *)
(** ** strings.TrimSpace *)

(** The encodings of the runes of [unicode.IsSpace]. *)
Definition spaces : list (list Z) :=
  ((λ c, [c]) <$> [9; 10; 11; 12; 13; 32]) ++ [[194; 133]; [194; 160]; [225; 154; 128]] ++
  ((λ c, [226; 128; c]) <$> [128; 129; 130; 131; 132; 133; 134; 135; 136; 137; 138; 168; 169; 175]) ++
  [[226; 129; 159]; [227; 128; 128]].

(** What is left after one of [sps] in front. *)
Fixpoint strip_one (sps : list (list Z)) (s : list Z) : option (list Z) :=
  match sps with
  | [] => None
  | sp :: sps => match CutPrefix s sp with Some rest => Some rest | None => strip_one sps s end
  end.

Fixpoint trim_front (sps : list (list Z)) (fuel : nat) (s : list Z) : list Z :=
  match fuel with
  | O => s
  | S fuel => match strip_one sps s with Some rest => trim_front sps fuel rest | None => s end
  end.

Definition TrimLeft (s : list Z) : list Z := trim_front spaces (length s) s.
Definition TrimRight (s : list Z) : list Z := reverse (trim_front (reverse <$> spaces) (length s) (reverse s)).
Definition TrimSpace (s : list Z) : list Z := TrimRight (TrimLeft s).

(* ------------------------------------------------------------------ *)
(** ** net.ParseIP *)

(** The scan of [parseIPv4Fields] over the bytes that are left: [prev] is the
    byte before ([None] at the start), [val] and [digLen] the current octet,
    [fields] those done. *)
Fixpoint ipv4_fields (s : list Z) (prev : option Z) (val digLen : Z) (fields : list Z) : option (list Z) :=
  match s with
  | [] => if len fields <? 3 then None else Some (fields ++ [val])
  | c :: s =>
      if isDigit c then
        if (digLen =? 1) && (val =? 0) then None
        else
        let val := val * 10 + (c - 48) in
        if 255 <? val then None else ipv4_fields s (Some c) val (digLen + 1) fields
      else if c =? 46 then
        if bool_decide (prev = None) || bool_decide (s = []) || bool_decide (prev = Some 46) then None
        else if len fields =? 3 then None
        else ipv4_fields s (Some c) 0 0 (fields ++ [val])
      else None
  end.

Definition hexDigit (c : Z) : option Z :=
  if isDigit c then Some (c - 48)
  else if between 97 c 102 then Some (c - 97 + 10)
  else if between 65 c 70 then Some (c - 65 + 10)
  else None.

(** One group: the digits in front, their number and value; [None] after more
    than four or a value that does not fit. *)
Fixpoint hex_group (s : list Z) (off acc : Z) : option (Z * Z * list Z) :=
  match s with
  | [] => Some (off, acc, [])
  | c :: s' =>
      match hexDigit c with
      | None => Some (off, acc, s)
      | Some d =>
          let acc := acc * 16 + d in
          if (3 <? off) || (65535 <? acc) then None else hex_group s' (off + 1) acc
      end
  end.

(** The groups of [parseIPv6]: the bytes so far, where the ellipsis is, and the
    text left; it is called for at most eight groups. *)
Fixpoint ipv6_groups (fuel : nat) (s : list Z) (ip : list Z) (ellipsis : option Z) :
    option (list Z * option Z * list Z) :=
  match fuel with
  | O => Some (ip, ellipsis, s)
  | S fuel =>
      if 16 <=? len ip then Some (ip, ellipsis, s)
      else
      match hex_group s 0 0 with
      | None => None
      | Some (off, acc, rest) =>
          if off =? 0 then None
          else
          match rest with
          | [] => Some (ip ++ [acc / 256; acc mod 256], ellipsis, [])
          | c :: more =>
              if c =? 46 then
                if bool_decide (ellipsis = None) && negb (len ip =? 12) then None
                else if 16 <? len ip + 4 then None
                else match ipv4_fields s None 0 0 [] with
                     | None => None
                     | Some v4 => Some (ip ++ v4, ellipsis, [])
                     end
              else if negb (c =? 58) then None
              else
              let ip := ip ++ [acc / 256; acc mod 256] in
              match more with
              | [] => None
              | c :: more' =>
                  if c =? 58 then
                    if bool_decide (ellipsis ≠ None) then None
                    else match more' with
                         | [] => Some (ip, Some (len ip), [])
                         | _ => ipv6_groups fuel more' ip (Some (len ip))
                         end
                  else ipv6_groups fuel more ip ellipsis
              end
          end
      end
  end.

(** The ellipsis expanded. *)
Definition ipv6_expand (ip : list Z) (ellipsis : option Z) : option (list Z) :=
  if len ip <? 16 then
    match ellipsis with
    | None => None
    | Some e => Some (take (Z.to_nat e) ip ++ replicate (Z.to_nat (16 - len ip)) 0 ++ drop (Z.to_nat e) ip)
    end
  else match ellipsis with Some _ => None | None => Some ip end.

(** [parseIPv6] without a zone. *)
Definition parseIPv6 (s : list Z) : option (list Z) :=
  let start :=
    match s with
    | 58 :: 58 :: rest => (Some 0, rest)
    | _ => (None, s)
    end in
  match start with
  | (Some _, []) => Some (replicate 16 0)
  | (ellipsis, s) =>
      match ipv6_groups 8 s [] ellipsis with
      | Some (ip, ellipsis, []) => ipv6_expand ip ellipsis
      | _ => None
      end
  end.

Definition v4InV6Prefix : list Z := replicate 10 0 ++ [255; 255].

(** [net.ParseIP]: the 16-byte form; a zone is refused. *)
Fixpoint parse_kind (s : list Z) : option Z :=
  match s with
  | [] => None
  | c :: s => if (c =? 46) || (c =? 58) then Some c else if c =? 37 then None else parse_kind s
  end.
Definition ParseIP (s : list Z) : option (list Z) :=
  match parse_kind s with
  | Some c =>
      if c =? 46 then v4 ← ipv4_fields s None 0 0 []; Some (v4InV6Prefix ++ v4)
      else if bool_decide (37 ∈ s) then None else parseIPv6 s
  | None => None
  end.

(** [To4] on what [ParseIP] returns: is it an IPv4 address. *)
Definition isV4 (ip : list Z) : bool := bool_decide (take 12 ip = v4InV6Prefix).

(* ------------------------------------------------------------------ *)
(** ** id.go *)

Definition make_id (typ : Z) (v : list Z) : res ID :=
  match v with [] => Err "identity value must not be empty" | _ => Ok (mkID typ v) end.
Definition keyID (v : list Z) : res ID := make_id IDKeyID v.

Fixpoint trimPrefix (v : list Z) (prefixes : list (list Z)) : option (list Z) :=
  match prefixes with
  | [] => None
  | p :: ps => match CutPrefix v p with Some tail => Some (TrimSpace tail) | None => trimPrefix v ps end
  end.

Definition pfx (l : list string) : list (list Z) := ascii_bytes <$> l.

(** The rules after the prefix table. *)
Definition classify_generic (value : list Z) : res ID :=
  match trimPrefix value (pfx ["ipv4:"%string]) with
  | Some rest =>
      match ParseIP rest with
      | Some ip => if isV4 ip then make_id IDIPv4Addr rest else Err "identity %q is not a valid ipv4 address"
      | None => Err "identity %q is not a valid ipv4 address"
      end
  | None =>
  match trimPrefix value (pfx ["ipv6:"%string]) with
  | Some rest =>
      match ParseIP rest with
      | Some ip => if isV4 ip then Err "identity %q is not a valid ipv6 address" else make_id IDIPv6Addr rest
      | None => Err "identity %q is not a valid ipv6 address"
      end
  | None =>
  if bool_decide (64 ∈ value) then make_id IDRfc822Addr value
  else match ParseIP value with
  | Some ip => make_id (if isV4 ip then IDIPv4Addr else IDIPv6Addr) value
  | None => make_id IDFqdn value
  end end end.

Definition ClassifyID (s : list Z) : res ID :=
  let value := TrimSpace s in
  if bool_decide (value = []) then Err "identity must not be empty"
  else
  match trimPrefix value (pfx ["keyid:"%string]) with Some rest => keyID rest | None =>
  match trimPrefix value (pfx ["@#"%string]) with Some rest => keyID rest | None =>
  match trimPrefix value (pfx ["#"%string]) with Some rest => keyID rest | None =>
  match trimPrefix value (pfx ["fqdn:"%string; "dns:"%string; "%"%string]) with Some rest => make_id IDFqdn rest | None =>
  match trimPrefix value (pfx ["rfc822:"%string; "email:"%string; "userfqdn:"%string; "@@"%string]) with
  | Some rest => make_id IDRfc822Addr rest | None =>
  match (if bool_decide (take 2 value = ascii_bytes "@@") then None else trimPrefix value (pfx ["@"%string])) with
  | Some rest => make_id IDFqdn rest | None => classify_generic value
  end end end end end end.

Example classify_samples : ClassifyID <$> (ascii_bytes <$> ["  @vpn.example.org "%string; "10.0.0.1"%string; "user@x"%string; "ipv6: ::1"%string; "2001:db8::1:2"%string; "01.2.3.4"%string; "keyid:"%string; "::ffff:1.2.3.4"%string]) =
  [Ok (mkID 2 (ascii_bytes "vpn.example.org")); Ok (mkID 1 (ascii_bytes "10.0.0.1")); Ok (mkID 3 (ascii_bytes "user@x"));
   Ok (mkID 5 (ascii_bytes "::1")); Ok (mkID 5 (ascii_bytes "2001:db8::1:2")); Ok (mkID 2 (ascii_bytes "01.2.3.4"));
   Err "identity value must not be empty"; Ok (mkID 1 (ascii_bytes "::ffff:1.2.3.4"))].
Proof. vm_compute. reflexivity. Qed.

(* ------------------------------------------------------------------ *)
(** ** Lemmas: trimming *)

Lemma CutPrefix_Some s p rest : CutPrefix s p = Some rest ↔ s = p ++ rest.
Proof.
  unfold CutPrefix. split.
  - case_bool_decide as E; [|done]. intros [= <-]. by rewrite <- E at 1; rewrite take_drop.
  - intros ->. by rewrite take_app_length, drop_app_length, bool_decide_true.
Qed.
Lemma CutPrefix_None s p : CutPrefix s p = None ↔ ¬ p `prefix_of` s.
Proof.
  split.
  - intros H [rest E]. apply CutPrefix_Some in E. congruence.
  - intros H. destruct (CutPrefix s p) eqn:E; [|done]. apply CutPrefix_Some in E. destruct H. by exists l.
Qed.
Lemma CutPrefix_head a p b s : a ≠ b → CutPrefix (b :: s) (a :: p) = None.
Proof. intros H. apply CutPrefix_None. intros [k E]. by injection E. Qed.

(** None of [sps] is in front. *)
Definition no_front (sps : list (list Z)) (s : list Z) : Prop := Forall (λ sp, ¬ sp `prefix_of` s) sps.

Lemma strip_one_None sps s : strip_one sps s = None ↔ no_front sps s.
Proof.
  unfold no_front. induction sps as [|sp sps IH]; cbn [strip_one]; [done|]. rewrite Forall_cons, <- IH, <- CutPrefix_None.
  destruct (CutPrefix s sp); naive_solver.
Qed.
Lemma strip_one_Some sps s rest : strip_one sps s = Some rest → ∃ sp, sp ∈ sps ∧ s = sp ++ rest.
Proof.
  induction sps as [|sp sps IH]; cbn [strip_one]; [done|]. destruct (CutPrefix s sp) eqn:E.
  - intros [= <-]. apply CutPrefix_Some in E. exists sp. split; [left|done].
  - intros H. destruct (IH H) as (sp' & ? & ?). exists sp'. split; [by right|done].
Qed.

Lemma trim_front_spec sps fuel : Forall (λ sp, sp ≠ []) sps → ∀ s, (length s <= fuel)%nat →
  no_front sps (trim_front sps fuel s) ∧ trim_front sps fuel s `suffix_of` s.
Proof.
  intros Hn. induction fuel as [|fuel IH]; intros s Hl; cbn [trim_front].
  - destruct s; [|cbn in Hl; lia]. split; [|done]. eapply Forall_impl; [exact Hn|]. intros sp Hsp [k E]. by destruct sp.
  - destruct (strip_one sps s) as [rest|] eqn:E; [|split; [by apply strip_one_None|reflexivity]].
    apply strip_one_Some in E as (sp & Hin & ->). rewrite Forall_forall in Hn. specialize (Hn sp Hin).
    rewrite length_app in Hl. destruct (IH rest) as [H1 H2]; [destruct sp; [done|cbn in Hl; lia]|].
    split; [done|]. by apply suffix_app_r.
Qed.
Lemma trim_front_id sps fuel s : no_front sps s → trim_front sps fuel s = s.
Proof. intros H%strip_one_None. destruct fuel; cbn; [done|]. by rewrite H. Qed.

(** Neither starts nor ends with a space. *)
Definition trimmed (s : list Z) : Prop := no_front spaces s ∧ no_front (reverse <$> spaces) (reverse s).

Lemma spaces_nonempty : Forall (λ sp, sp ≠ []) spaces ∧ Forall (λ sp, sp ≠ []) (reverse <$> spaces).
Proof. split; apply Forall_forall; intros sp H; vm_compute in H; set_solver. Qed.

Lemma TrimSpace_trimmed s : trimmed (TrimSpace s).
Proof.
  unfold TrimSpace, TrimLeft, TrimRight. destruct spaces_nonempty as [H1 H2].
  destruct (trim_front_spec spaces (length s) H1 s) as [F1 S1]; [done|].
  set (l := trim_front spaces (length s) s) in *.
  destruct (trim_front_spec (reverse <$> spaces) (length l) H2 (reverse l)) as [F2 S2]; [by rewrite length_reverse|].
  split; [|by rewrite reverse_involutive]. eapply Forall_impl; [exact F1|]. intros sp Hsp Hp. apply Hsp.
  etrans; [exact Hp|]. destruct S2 as [k Hk]. exists (reverse k).
  apply (f_equal reverse) in Hk. by rewrite reverse_involutive, reverse_app in Hk.
Qed.

Lemma TrimSpace_id s : trimmed s → TrimSpace s = s.
Proof.
  intros [H1 H2]. unfold TrimSpace, TrimLeft. rewrite (trim_front_id _ _ _ H1). unfold TrimRight.
  by rewrite trim_front_id, reverse_involutive.
Qed.

Lemma prefix_app_cases {A} (sp a b : list A) : sp `prefix_of` a ++ b → sp `prefix_of` a ∨ ∃ x, head b = Some x ∧ x ∈ sp.
Proof.
  intros [k E]. apply app_eq_app in E as (l & [[-> _]|[-> Hb]]); [by left; exists l|].
  destruct l as [|x l]; [left; by exists []; rewrite !app_nil_r|]. right. exists x. rewrite Hb. split; [done|]. set_solver.
Qed.

(** The bytes of printable ASCII are in no space. *)
Lemma printable_no_space c : 33 <= c <= 126 → Forall (λ sp, c ∉ sp) spaces.
Proof.
  intros Hc. apply Forall_forall. intros sp Hsp Hin. vm_compute in Hsp.
  repeat (apply elem_of_cons in Hsp as [->|Hsp]; [repeat (apply elem_of_cons in Hin as [->|Hin]; [lia|]); by apply not_elem_of_nil in Hin|]).
  by apply not_elem_of_nil in Hsp.
Qed.

Lemma trimmed_app first mid last d : 33 <= first <= 126 → 33 <= last <= 126 → trimmed d →
  trimmed (first :: mid ++ last :: d).
Proof.
  intros Hf Hl [D1 D2]. split; apply Forall_forall; intros sp Hin Hp.
  - pose proof (printable_no_space first Hf) as Hs. rewrite Forall_forall in Hs. specialize (Hs sp Hin).
    destruct sp as [|x sp]; [by destruct spaces_nonempty as [H _]; rewrite Forall_forall in H; specialize (H _ Hin)|].
    destruct Hp as [k E]. injection E as -> _. set_solver.
  - apply list_elem_of_fmap in Hin as (sp' & -> & Hin).
    rewrite reverse_cons, reverse_app, reverse_cons, <- !app_assoc in Hp. cbn [app] in Hp.
    apply prefix_app_cases in Hp as [Hp|(x & Hx & Hxin)].
    + unfold no_front in D2. rewrite Forall_forall in D2. refine (D2 _ _ Hp). by apply list_elem_of_fmap_2.
    + injection Hx as <-. pose proof (printable_no_space last Hl) as Hs. rewrite Forall_forall in Hs.
      apply (Hs sp' Hin). by rewrite <- elem_of_reverse.
Qed.

(* ------------------------------------------------------------------ *)
(** ** Classification *)

(** The unambiguous text of an identity. *)
Definition id_prefix (typ : Z) : list Z :=
  ascii_bytes (if typ =? IDKeyID then "keyid:" else if typ =? IDFqdn then "fqdn:"
               else if typ =? IDRfc822Addr then "email:" else if typ =? IDIPv4Addr then "ipv4:" else "ipv6:").
Definition print_id (id : ID) : list Z := id_prefix (ID_Type id) ++ ID_Data id.

(** What classification guarantees of an identity. *)
Record id_wf (id : ID) : Prop := {
  iw_data : ID_Data id ≠ [];
  iw_trimmed : trimmed (ID_Data id);
  iw_type : ID_Type id ∈ [IDKeyID; IDFqdn; IDRfc822Addr; IDIPv4Addr; IDIPv6Addr];
  iw_ipv4 : ID_Type id = IDIPv4Addr → ∃ ip, ParseIP (ID_Data id) = Some ip ∧ isV4 ip = true;
  iw_ipv6 : ID_Type id = IDIPv6Addr → ∃ ip, ParseIP (ID_Data id) = Some ip ∧ isV4 ip = false }.

Lemma make_id_wf typ v id : make_id typ v = Ok id → trimmed v → typ ∈ [IDKeyID; IDFqdn; IDRfc822Addr; IDIPv4Addr; IDIPv6Addr] →
  (typ = IDIPv4Addr → ∃ ip, ParseIP v = Some ip ∧ isV4 ip = true) →
  (typ = IDIPv6Addr → ∃ ip, ParseIP v = Some ip ∧ isV4 ip = false) → id_wf id.
Proof. destruct v; [done|]. cbn. intros [= <-] H1 H2 H3 H4. by constructor. Qed.

Lemma trimPrefix_trimmed v ps rest : trimPrefix v ps = Some rest → trimmed rest.
Proof.
  induction ps as [|p ps IH]; cbn [trimPrefix]; [done|]. destruct (CutPrefix v p); [|done].
  intros [= <-]. apply TrimSpace_trimmed.
Qed.

Ltac id_type := first [done | rewrite !elem_of_cons; tauto].

Lemma classify_generic_wf value id : trimmed value → classify_generic value = Ok id → id_wf id.
Proof.
  intros Ht. unfold classify_generic. destruct (trimPrefix value (pfx ["ipv4:"%string])) as [rest|] eqn:E4.
  { apply trimPrefix_trimmed in E4. destruct (ParseIP rest) as [ip|] eqn:Ep; [|done]. destruct (isV4 ip) eqn:Ev; [|done].
    intros H. eapply make_id_wf; [exact H|done|id_type|eauto|done]. }
  destruct (trimPrefix value (pfx ["ipv6:"%string])) as [rest|] eqn:E6.
  { apply trimPrefix_trimmed in E6. destruct (ParseIP rest) as [ip|] eqn:Ep; [|done]. destruct (isV4 ip) eqn:Ev; [done|].
    intros H. eapply make_id_wf; [exact H|done|id_type|done|eauto]. }
  case_bool_decide; [intros H1; by eapply make_id_wf; [exact H1|done|id_type|..]|].
  destruct (ParseIP value) as [ip|] eqn:Ep; [destruct (isV4 ip) eqn:Ev|]; intros H1;
    (eapply make_id_wf; [exact H1|done|id_type|..]); by eauto.
Qed.

Lemma ClassifyID_wf s id : ClassifyID s = Ok id → id_wf id.
Proof.
  unfold ClassifyID. pose proof (TrimSpace_trimmed s) as Ht. generalize dependent (TrimSpace s). intros value Ht.
  case_bool_decide; [done|]. unfold keyID.
  destruct (trimPrefix value (pfx ["keyid:"%string])) as [rest|] eqn:E1;
    [intros H1; by eapply make_id_wf; [exact H1|by eapply trimPrefix_trimmed|id_type|..]|].
  destruct (trimPrefix value (pfx ["@#"%string])) as [rest|] eqn:E2;
    [intros H1; by eapply make_id_wf; [exact H1|by eapply trimPrefix_trimmed|id_type|..]|].
  destruct (trimPrefix value (pfx ["#"%string])) as [rest|] eqn:E3;
    [intros H1; by eapply make_id_wf; [exact H1|by eapply trimPrefix_trimmed|id_type|..]|].
  destruct (trimPrefix value (pfx ["fqdn:"%string; "dns:"%string; "%"%string])) as [rest|] eqn:E4;
    [intros H1; by eapply make_id_wf; [exact H1|by eapply trimPrefix_trimmed|id_type|..]|].
  destruct (trimPrefix value (pfx ["rfc822:"%string; "email:"%string; "userfqdn:"%string; "@@"%string])) as [rest|] eqn:E5;
    [intros H1; by eapply make_id_wf; [exact H1|by eapply trimPrefix_trimmed|id_type|..]|].
  case_bool_decide; [by apply classify_generic_wf|].
  destruct (trimPrefix value (pfx ["@"%string])) as [rest|] eqn:E6;
    [intros H1; by eapply make_id_wf; [exact H1|by eapply trimPrefix_trimmed|id_type|..]|by apply classify_generic_wf].
Qed.

Lemma cut_own p d : CutPrefix (p ++ d) p = Some d.
Proof. by apply CutPrefix_Some. Qed.

(** Rules of other prefixes do not apply to a text that starts differently. *)
Ltac skip_rules := repeat (rewrite CutPrefix_head by done).

Lemma classify_print id : id_wf id → ClassifyID (print_id id) = Ok id.
Proof.
  destruct id as [typ d]. intros [Hd Ht Hty H4 H6]. cbn in *. unfold print_id. cbn [ID_Type ID_Data].
  assert (Htp : TrimSpace (id_prefix typ ++ d) = id_prefix typ ++ d).
  { apply TrimSpace_id. repeat (apply elem_of_cons in Hty as [->|Hty]; [apply (trimmed_app _ [_; _; _; _] _ d) || apply (trimmed_app _ [_; _; _] _ d); [vm_compute; split; congruence..|done]|]).
    by apply not_elem_of_nil in Hty. }
  unfold ClassifyID. rewrite Htp. assert (Hne : id_prefix typ ++ d ≠ []) by (by destruct (id_prefix typ), d).
  rewrite bool_decide_false by done. assert (Hmk : ∀ t, make_id t d = Ok (mkID t d)) by (by destruct d).
  repeat (apply elem_of_cons in Hty as [->|Hty]).
  - unfold pfx. cbn [fmap list_fmap trimPrefix]. change (id_prefix IDKeyID) with (ascii_bytes "keyid:").
    rewrite cut_own, TrimSpace_id by done. apply Hmk.
  - change (id_prefix IDFqdn) with (ascii_bytes "fqdn:") in *. unfold pfx. cbn [fmap list_fmap trimPrefix].
    rewrite (cut_own (ascii_bytes "fqdn:")), TrimSpace_id by done. cbn -[CutPrefix make_id]. skip_rules. apply Hmk.
  - change (id_prefix IDRfc822Addr) with (ascii_bytes "email:") in *. unfold pfx. cbn [fmap list_fmap trimPrefix].
    rewrite (cut_own (ascii_bytes "email:")), TrimSpace_id by done. cbn -[CutPrefix make_id]. skip_rules. apply Hmk.
  - change (id_prefix IDIPv4Addr) with (ascii_bytes "ipv4:") in *. unfold classify_generic, pfx. cbn [fmap list_fmap trimPrefix].
    rewrite (cut_own (ascii_bytes "ipv4:")), TrimSpace_id by done. destruct (H4 eq_refl) as (ip & -> & ->).
    cbn -[CutPrefix make_id]. skip_rules. apply Hmk.
  - change (id_prefix IDIPv6Addr) with (ascii_bytes "ipv6:") in *. unfold classify_generic, pfx. cbn [fmap list_fmap trimPrefix].
    rewrite (cut_own (ascii_bytes "ipv6:")), TrimSpace_id by done. destruct (H6 eq_refl) as (ip & -> & ->).
    cbn -[CutPrefix make_id]. skip_rules. apply Hmk.
  - by apply not_elem_of_nil in Hty.
Qed.

(* ------------------------------------------------------------------ *)
(** ** Properties *)

(** [C31] Identity text round trips. Whatever text is classified as an identity, by
    a prefix, as an address or by a guess: the identity is non-empty and of one
    of the five types, an address type only for text that parses as such an
    address; writing it with the prefix of its type is classified as the same
    identity again, so every identity has an unambiguous text; and it survives
    the wire. *)
Theorem classify_roundtrip (s : list Z) (id : ID) : ClassifyID s = Ok id →
  ID_Type id ∈ [IDKeyID; IDFqdn; IDRfc822Addr; IDIPv4Addr; IDIPv6Addr] ∧
  (ID_Type id = IDIPv4Addr ∨ ID_Type id = IDIPv6Addr →
     ∃ ip, ParseIP (ID_Data id) = Some ip ∧ isV4 ip = bool_decide (ID_Type id = IDIPv4Addr)) ∧
  ClassifyID (print_id id) = Ok id ∧ ParseID (AppendID [] id) = Ok id.
Proof.
  intros H%ClassifyID_wf. split; [apply (iw_type _ H)|]. split; [|split; [by apply classify_print|apply ParseID_append, (iw_data _ H)]].
  intros [E|E]; [destruct (iw_ipv4 _ H E) as (ip & ? & ?)|destruct (iw_ipv6 _ H E) as (ip & ? & ?)]; exists ip; rewrite E; done.
Qed.

Lemma classify_roundtrip_witness : ClassifyID (print_id (mkID IDIPv4Addr (ascii_bytes "10.0.0.1"))) = Ok (mkID IDIPv4Addr (ascii_bytes "10.0.0.1")).
Proof.
  refine (proj1 (proj2 (proj2 (classify_roundtrip (ascii_bytes " 10.0.0.1 ") _ _)))). vm_compute. reflexivity.
Defined.
