(* ===== verification/Debug.v ===== *)
(** * Protocol dumps (src/debug/names.go, src/debug/fmt.go)

    The name tables and the renderers of the debug logger. A table is the list of
    the cases of its [switch]; a renderer gives the log records it emits, or the
    panic it dies of. The text of an IP address ([net.IP.String]) is a parameter. *)

From stdpp Require Import pretty.
From S2P Require Import Prelude Wire Payload Identity Negotiate Eap Handshake Transport ClassifyID.

(* ------------------------------------------------------------------ *)
(** ** Formatting *)

Definition hex_digit (d : Z) : string := String (Ascii.ascii_of_nat (Z.to_nat (if d <? 10 then 48 + d else 87 + d))) EmptyString.

(** [%x] of a number below [16^fuel]. *)
Fixpoint hex_of (fuel : nat) (n : Z) : string :=
  match fuel with
  | O => ""
  | S fuel => if n <? 16 then hex_digit n else hex_of fuel (n / 16) +:+ hex_digit (n mod 16)
  end.
Definition Hex (n : Z) : string := hex_of 16 n.

(** [%0wx]. *)
Definition HexPad (w : nat) (n : Z) : string := String.concat "" (replicate (w - String.length (Hex n)) "0") +:+ Hex n.

(** [hex.EncodeToString]. *)
Definition EncodeToString (b : list Z) : string := String.concat "" (HexPad 2 <$> b).

(* ------------------------------------------------------------------ *)
(** ** names.go *)

(** A [switch] over the cases of a table. *)
Fixpoint switch (table : list (Z * string)) (other : Z → string) (t : Z) : string :=
  match table with
  | [] => other t
  | (c, name) :: table => if t =? c then name else switch table other t
  end.

Definition unknown_hex (t : Z) : string := "#0x" +:+ Hex t.
Definition unknown_dec (t : Z) : string := "#" +:+ pretty t.

Definition payload_names : list (Z * string) := [
  (PayloadTypeNone, "NONE"); (PayloadTypeSA, "SA"); (PayloadTypeKE, "KE"); (PayloadTypeIDi, "IDi"); (PayloadTypeIDr, "IDr");
  (PayloadTypeCert, "CERT"); (PayloadTypeAuth, "AUTH"); (PayloadTypeNonce, "N"); (PayloadTypeNotify, "NOTIFY");
  (PayloadTypeDelete, "DELETE"); (PayloadTypeTSi, "TSi"); (PayloadTypeTSr, "TSr"); (PayloadTypeSK, "SK"); (PayloadTypeCP, "CP");
  (PayloadTypeEAP, "EAP"); (PayloadTypeSKF, "SKF")].
Definition PayloadName : Z → string := switch payload_names unknown_hex.

Definition exchange_names : list (Z * string) := [
  (ExchangeIkeSAInit, "IKE_SA_INIT"); (ExchangeIkeAuth, "IKE_AUTH"); (ExchangeCreateChild, "CREATE_CHILD_SA");
  (ExchangeInformational, "INFORMATIONAL")].
Definition ExchangeName : Z → string := switch exchange_names unknown_hex.

Definition id_names : list (Z * string) := [
  (IDIPv4Addr, "IPV4_ADDR"); (IDFqdn, "FQDN"); (IDRfc822Addr, "RFC822_ADDR"); (IDIPv6Addr, "IPV6_ADDR"); (IDKeyID, "KEY_ID")].
Definition IDTypeName : Z → string := switch id_names unknown_hex.

Definition cert_names : list (Z * string) := [(CertEncodingX509Signature, "X509_SIGNATURE")].
Definition CertEncodingName : Z → string := switch cert_names unknown_hex.

Definition auth_names : list (Z * string) := [
  (AuthRsaDigitalSignature, "RSA_DIGITAL_SIGNATURE"); (AuthSharedKeyMIC, "SHARED_KEY_MIC");
  (AuthDssDigitalSignature, "DSS_DIGITAL_SIGNATURE"); (AuthDigitalSignature, "DIGITAL_SIGNATURE")].
Definition AuthMethodName : Z → string := switch auth_names unknown_hex.

Definition notify_names : list (Z * string) := [
  (NotifyNoProposalChosen, "NO_PROPOSAL_CHOSEN"); (NotifyInvalidKePayload, "INVALID_KE_PAYLOAD");
  (NotifyAuthenticationFailed, "AUTHENTICATION_FAILED"); (NotifySinglePairRequired, "SINGLE_PAIR_REQUIRED");
  (NotifyNoAdditionalSAs, "NO_ADDITIONAL_SAS"); (NotifyInternalAddressFailure, "INTERNAL_ADDRESS_FAILURE");
  (NotifyFailedCPRequired, "FAILED_CP_REQUIRED"); (NotifyTSUnacceptable, "TS_UNACCEPTABLE");
  (NotifyInvalidSelectors, "INVALID_SELECTORS"); (NotifyInitialContact, "INITIAL_CONTACT");
  (NotifyAdditionalTSPossible, "ADDITIONAL_TS_POSSIBLE"); (NotifyIPCompSupported, "IPCOMP_SUPPORTED");
  (NotifyNATDetectionSourceIP, "NAT_DETECTION_SOURCE_IP"); (NotifyNATDetectionDestinationIP, "NAT_DETECTION_DESTINATION_IP");
  (NotifyCookie, "COOKIE"); (NotifyUseTransportMode, "USE_TRANSPORT_MODE");
  (NotifyEspTFCPaddingNotSupported, "ESP_TFC_PADDING_NOT_SUPPORTED"); (NotifyNonFirstFragmentsAlso, "NON_FIRST_FRAGMENTS_ALSO");
  (NotifyMobikeSupported, "MOBIKE_SUPPORTED"); (NotifyNoAdditionalAddresses, "NO_ADDITIONAL_ADDRESSES");
  (NotifyMultipleAuthSupported, "MULTIPLE_AUTH_SUPPORTED"); (NotifyEapOnlyAuthentication, "EAP_ONLY_AUTHENTICATION");
  (NotifyIKEv2MessageIDSyncSupported, "IKEV2_MESSAGE_ID_SYNC_SUPPORTED"); (NotifyIKEv2MessageIDSync, "IKEV2_MESSAGE_ID_SYNC");
  (NotifyFragmentationSupported, "FRAGMENTATION_SUPPORTED"); (NotifySignatureHashAlgorithms, "SIGNATURE_HASH_ALGORITHMS");
  (NotifyIntermediateExchangeSupported, "INTERMEDIATE_EXCHANGE_SUPPORTED")].
Definition NotifyName : Z → string := switch notify_names unknown_dec.

Definition transform_names : list (Z * string) := [
  (TransformENC, "ENCR"); (TransformPRF, "PRF"); (TransformINTEG, "INTEG"); (TransformDH, "DH"); (TransformESN, "ESN")].
Definition TransformTypeName : Z → string := switch transform_names unknown_hex.

Definition config_names : list (Z * string) := [
  (ConfigTypeRequest, "CFG_REQUEST"); (ConfigTypeReply, "CFG_REPLY"); (ConfigTypeSet, "CFG_SET"); (ConfigTypeAck, "CFG_ACK")].
Definition ConfigTypeName : Z → string := switch config_names unknown_dec.

Definition attribute_names : list (Z * string) := [
  (ConfigAttrInternalIPv4Address, "INTERNAL_IP4_ADDRESS"); (ConfigAttrInternalIPv4DNS, "INTERNAL_IP4_DNS");
  (ConfigAttrInternalIPv6Address, "INTERNAL_IP6_ADDRESS"); (ConfigAttrInternalIPv6DNS, "INTERNAL_IP6_DNS")].
Definition ConfigAttributeName : Z → string := switch attribute_names unknown_dec.

Definition eap_code_names : list (Z * string) := [(1, "REQUEST"); (2, "RESPONSE"); (3, "SUCCESS"); (4, "FAILURE")].
Definition EAPCodeName : Z → string := switch eap_code_names unknown_hex.

Definition eap_type_names : list (Z * string) := [(1, "IDENTITY"); (3, "NAK"); (21, "MSTLV"); (25, "PEAP"); (26, "MSCHAPV2")].
Definition EAPTypeName : Z → string := switch eap_type_names unknown_dec.

(** The stages and the kinds count from zero. *)
Definition stage_names : list (Z * string) := [(0, "ike_init"); (1, "ike_auth"); (2, "eap"); (3, "child_sa"); (4, "running")].
Definition StageName : Z → string := switch stage_names unknown_dec.

Definition kind_code (k : Kind) : Z := match k with KindIKE => 0 | KindESP => 1 | KindKeepalive => 2 end.
Definition kind_names : list (Z * string) := [
  (kind_code KindIKE, "IKE"); (kind_code KindESP, "ESP"); (kind_code KindKeepalive, "NAT_KEEPALIVE")].
Definition FrameKindName : Z → string := switch kind_names unknown_dec.

(* ------------------------------------------------------------------ *)
(** ** fmt.go *)

(** A logged value: text, a number, a flag, raw bytes shown as a string. *)
Inductive LogValue := VText (s : string) | VNum (n : Z) | VBool (b : bool) | VRaw (b : list Z) | VDots (b : list Z).
Definition LogRecord : Type := string * list (string * LogValue).

(** [fmt.Sprintf("0x%016x", spi.Uint64())]. *)
Definition spi_text (s : SPI) : res string := v ← SPI_Uint64 s; Ok ("0x" +:+ HexPad 16 v).

(** More than 48 bytes are cut, with dots after them ([VDots]). *)
Definition shortString (b : list Z) : LogValue := if 48 <? len b then VDots (take 48 b) else VRaw b.

Definition join_texts (texts : list string) : string := String.concat " " texts.
Definition spisHex (spis : list Z) : string := "[" +:+ join_texts ((λ spi, "0x" +:+ HexPad 8 spi) <$> spis) +:+ "]".
Definition cpSummary (cp : ConfigPayload) : string :=
  "[" +:+ join_texts ((λ a, ConfigAttributeName (Attr_Type a) +:+ "(len=" +:+ pretty (len (Value a)) +:+ ")") <$> Attributes cp) +:+ "]".

Definition Bytes (dir label : string) (b : list Z) : list LogRecord :=
  ("bytes", [("dir", VText dir); ("label", VText label); ("len", VNum (len b))]) ::
  if 0 <? len b then [("hex", [("dir", VText dir); ("label", VText label); ("dump", VText (EncodeToString b))])] else [].

Definition bool_text (b : bool) : string := if b then "true" else "false".

(** The detail of an EAP packet of type [typ] and declared length [length]. *)
Definition eap_detail (typ length : Z) (b : list Z) : res string :=
  if typ =? 25 then
    if 6 <=? length then
      flags ← b.[5];
      Ok ("flags=0x" +:+ HexPad 2 flags +:+ " l=" +:+ bool_text (negb (Z.land flags 128 =? 0)) +:+
          " m=" +:+ bool_text (negb (Z.land flags 64 =? 0)) +:+ " s=" +:+ bool_text (negb (Z.land flags 32 =? 0)) +:+
          " v=" +:+ pretty (Z.land flags 7))
    else Ok ""
  else if typ =? 26 then
    if 6 <=? length then
      op ← b.[5];
      Ok ("opcode=" +:+ pretty op +:+
          (if op =? 1 then " CHALLENGE" else if op =? 2 then " RESPONSE" else if op =? 3 then " SUCCESS"
           else if op =? 4 then " FAILURE" else ""))
    else Ok ""
  else Ok "".

Definition EAP (dir : string) (b : list Z) : res (list LogRecord) :=
  if len b <? 4 then Ok []
  else
  code ← b.[0]; id ← b.[1]; hi ← b.[2]; lo ← b.[3];
  let length := Z.lor (Z.shiftl hi 8) lo in
  '(typ, detail) ← (if 5 <=? length then typ ← b.[4]; detail ← eap_detail typ length b; Ok (typ, detail) else Ok (0, ""));
  Ok [("eap packet", [("dir", VText dir); ("code", VText (EAPCodeName code)); ("identifier", VNum id);
        ("type", VText (EAPTypeName typ)); ("len", VNum length); ("detail", VText detail)])].

Definition ESP (dir : string) (b : list Z) : res (list LogRecord) :=
  if len b <? 8 then Ok [("esp packet", [("dir", VText dir); ("len", VNum (len b)); ("note", VText "truncated header")])]
  else
  spi ← (h ← b.[0, 4]; beUint32 h);
  seq ← (h ← b.[4, 8]; beUint32 h);
  Ok [("esp packet", [("dir", VText dir); ("spi", VText ("0x" +:+ HexPad 8 spi)); ("seq", VNum seq); ("len", VNum (len b))])].

Definition Packet (dir : string) (kind : Z) (b : list Z) : res (list LogRecord) :=
  let plain := [("transport packet", [("dir", VText dir); ("kind", VText (FrameKindName kind)); ("len", VNum (len b))])] in
  if kind =? kind_code KindIKE then
    match ParseHeader b with
    | Ok (hdr, _) =>
        ispi ← spi_text (InitiatorSPI hdr);
        rspi ← spi_text (ResponderSPI hdr);
        Ok [("transport packet", [("dir", VText dir); ("kind", VText (FrameKindName kind)); ("exchange", VText (ExchangeName (ExchangeType hdr)));
              ("initiator_spi", VText ispi); ("responder_spi", VText rspi); ("message_id", VNum (MessageID hdr)); ("len", VNum (len b))])]
    | Err _ => Ok plain
    | Panic => Panic
    | Hang => Hang
    end
  else if kind =? kind_code KindESP then ESP dir b
  else Ok plain.

Section Renderers.
Context (ip_text : IP → string).

Definition tsSummary (ts : list Selector) : string :=
  if len ts =? 0 then "[]"
  else pretty (len ts) +:+ ":[" +:+
    join_texts ((λ sel, "t=" +:+ pretty (TS_Type sel) +:+ " ports=" +:+ pretty (StartPort sel) +:+ "-" +:+ pretty (EndPort sel) +:+
      " " +:+ ip_text (StartAddr sel) +:+ ".." +:+ ip_text (EndAddr sel)) <$> ts) +:+ "]".

Definition proposal_text (p : Proposal) : string :=
  "num=" +:+ pretty (Num p) +:+ " proto=" +:+ pretty (ProtocolID p) +:+ " spi=" +:+ EncodeToString (Proposal_SPI p) +:+
  " transforms=" +:+ pretty (len (Transforms p)).

(** What a parsed body adds to the record; a body that does not parse adds nothing. *)
Definition if_parsed {A} (r : res A) (f : A → list (string * LogValue)) : res (list (string * LogValue)) :=
  match r with Ok a => Ok (f a) | Err _ => Ok [] | Panic => Panic | Hang => Hang end.

Definition payload_attrs (p : Payload) : res (list (string * LogValue)) :=
  let t := Payload_Type p in
  if t =? PayloadTypeSA then if_parsed (ParseSA (Body p)) (λ sa, (λ prop, ("proposal", VText (proposal_text prop))) <$> sa)
  else if t =? PayloadTypeKE then
    if_parsed (ParseKE (Body p)) (λ ke, [("dh_group", VNum (DHGroup ke)); ("key_len", VNum (len (KE_Data ke)))])
  else if t =? PayloadTypeNonce then Ok [("nonce_len", VNum (len (Body p)))]
  else if (t =? PayloadTypeIDi) || (t =? PayloadTypeIDr) then
    if_parsed (ParseID (Body p)) (λ id, [("id_type", VText (IDTypeName (ID_Type id))); ("id", shortString (ID_Data id))])
  else if t =? PayloadTypeCert then
    if_parsed (ParseCert (Body p)) (λ c, [("encoding", VText (CertEncodingName (Cert_Encoding c))); ("der_len", VNum (len (DER c)))])
  else if t =? PayloadTypeAuth then
    if_parsed (ParseAuth (Body p)) (λ a, [("method", VText (AuthMethodName (Auth_Method a))); ("auth_len", VNum (len (Auth_Data a)))])
  else if t =? PayloadTypeNotify then
    if_parsed (ParseNotify (Body p)) (λ n, [("notify", VText (NotifyName (Notify_Type n))); ("spi_len", VNum (len (Notify_SPI n)));
      ("data_len", VNum (len (Notify_Data n)))])
  else if t =? PayloadTypeDelete then
    if_parsed (ParseDelete (Body p)) (λ d, [("protocol", VNum (Delete_ProtocolID d)); ("spis", VText (spisHex (SPIs d)))])
  else if (t =? PayloadTypeTSi) || (t =? PayloadTypeTSr) then
    if_parsed (ParseTS (Body p)) (λ ts, [("selectors", VText (tsSummary ts))])
  else if t =? PayloadTypeCP then
    if_parsed (ParseConfigPayload (Body p)) (λ cp, [("kind", VText (ConfigTypeName (Payload.Kind cp))); ("attributes", VText (cpSummary cp))])
  else Ok [].

Definition renderPayload (dir : string) (p : Payload) : res (list LogRecord) :=
  eap ← (if Payload_Type p =? PayloadTypeEAP then EAP dir (Body p) else Ok []);
  attrs ← payload_attrs p;
  Ok (eap ++ [("ike payload", [("dir", VText dir); ("payload", VText (PayloadName (Payload_Type p))); ("len", VNum (len (Body p)))] ++ attrs)]).

Fixpoint render_payloads (dir : string) (ps : list Payload) : res (list LogRecord) :=
  match ps with
  | [] => Ok []
  | p :: ps => recs ← renderPayload dir p; more ← render_payloads dir ps; Ok (recs ++ more)
  end.

Definition Message (dir : string) (m : Wire.Message) : res (list LogRecord) :=
  let h := Msg_Header m in
  ispi ← spi_text (InitiatorSPI h);
  rspi ← spi_text (ResponderSPI h);
  recs ← render_payloads dir (Payloads m);
  Ok (("ike message", [("dir", VText dir); ("exchange", VText (ExchangeName (ExchangeType h))); ("initiator_spi", VText ispi);
        ("responder_spi", VText rspi); ("message_id", VNum (MessageID h)); ("next_payload", VText (PayloadName (NextPayload h)));
        ("payload_count", VNum (len (Payloads m)))]) :: recs ++
      match Encrypted m with
      | Some enc =>
          [("ike encrypted envelope", [("dir", VText dir); ("type", VText (PayloadName (Enc_Type enc))); ("inner_next", VText (PayloadName (InnerNext enc)));
            ("fragmented", VBool (Fragmented enc));
            ("frag", VText (pretty (FragmentNumber (Frag enc)) +:+ "/" +:+ pretty (TotalFragments (Frag enc)))); ("body_len", VNum (len (Enc_Body enc)))])]
      | None => []
      end).
End Renderers.

(* ------------------------------------------------------------------ *)
(** ** Lemmas *)

(** The sign [#]. *)
Definition hash_char : Ascii.ascii := Ascii.ascii_of_nat 35.

(** A name of a table does not look like an unknown code. *)
Definition plain_name (s : string) : bool := match s with String c _ => negb (Ascii.eqb c hash_char) | EmptyString => true end.
Definition table_ok (table : list (Z * string)) : bool :=
  bool_decide (NoDup table.*2) && forallb plain_name table.*2.

Lemma switch_cases table other t : (t, switch table other t) ∈ table ∨ switch table other t = other t.
Proof.
  induction table as [|[c name] table IH]; [by right|]. cbn. destruct (Z.eqb_spec t c) as [->|_]; [left; constructor|].
  destruct IH; [left; by constructor|by right].
Qed.

Lemma switch_inj table other (inD : Z → Prop) : table_ok table = true → (∀ t, plain_name (other t) = false) →
  (∀ t1 t2, inD t1 → inD t2 → other t1 = other t2 → t1 = t2) →
  ∀ t1 t2, inD t1 → inD t2 → switch table other t1 = switch table other t2 → t1 = t2.
Proof.
  unfold table_ok. intros [Hn%bool_decide_eq_true Hp]%andb_true_iff Ho Hi t1 t2 H1 H2 He.
  assert (Hplain : ∀ t n, (t, n) ∈ table → plain_name n = true).
  { intros t n Hin. rewrite forallb_forall in Hp. apply Hp, list_elem_of_In, list_elem_of_fmap. by exists (t, n). }
  destruct (switch_cases table other t1) as [E1|E1], (switch_cases table other t2) as [E2|E2]; rewrite <- He in E2.
  - apply list_elem_of_lookup in E1 as [i E1], E2 as [j E2].
    assert (i = j) as <- by (apply (NoDup_lookup table.*2 i j (switch table other t1)); rewrite ?list_lookup_fmap, ?E1, ?E2; done).
    congruence.
  - apply Hplain in E1. rewrite E2, Ho in E1. done.
  - apply Hplain in E2. rewrite E1, Ho in E2. done.
  - apply Hi; congruence.
Qed.

Lemma Hex_inj t1 t2 : 0 <= t1 < 256 → 0 <= t2 < 256 → Hex t1 = Hex t2 → t1 = t2.
Proof.
  intros H1 H2 He.
  assert (Hall : NoDup (Hex <$> seqZ 0 256)) by (apply (bool_decide_unpack _); vm_compute; exact I).
  assert (L : ∀ t, 0 <= t < 256 → (Hex <$> seqZ 0 256) !! Z.to_nat t = Some (Hex t)).
  { intros t Ht. rewrite list_lookup_fmap, lookup_seqZ_lt by lia. replace (0 + Z.of_nat (Z.to_nat t)) with t by lia. done. }
  assert (Z.to_nat t1 = Z.to_nat t2) by (eapply NoDup_lookup; [exact Hall|by apply L|rewrite He; by apply L]). lia.
Qed.

Lemma unknown_hex_inj t1 t2 : 0 <= t1 < 256 → 0 <= t2 < 256 → unknown_hex t1 = unknown_hex t2 → t1 = t2.
Proof. intros H1 H2 He. apply Hex_inj; try done. unfold unknown_hex in He. cbn in He. by injection He. Qed.

Lemma unknown_dec_inj t1 t2 : unknown_dec t1 = unknown_dec t2 → t1 = t2.
Proof. intros He. unfold unknown_dec in He. cbn in He. injection He as He. by apply (inj pretty). Qed.

(** The names say which code they stand for: two codes of one byte (two bytes for
    notifications and attributes) never share one. *)
Theorem names_unambiguous t1 t2 : 0 <= t1 < 256 → 0 <= t2 < 256 →
  (∀ name, name ∈ [PayloadName; ExchangeName; IDTypeName; CertEncodingName; AuthMethodName; TransformTypeName; EAPCodeName] →
     name t1 = name t2 → t1 = t2) ∧
  (∀ name, name ∈ [NotifyName; ConfigTypeName; ConfigAttributeName; EAPTypeName; StageName; FrameKindName] →
     ∀ u1 u2, name u1 = name u2 → u1 = u2).
Proof.
  intros H1 H2. split.
  - intros name Hn. set (inD := λ t, 0 <= t < 256).
    assert (∃ table, name = switch table unknown_hex ∧ table_ok table = true) as (table & -> & Ht).
    { repeat (apply elem_of_cons in Hn as [->|Hn]; [eexists; split; [reflexivity|vm_compute; reflexivity]|]). by apply elem_of_nil in Hn. }
    apply (switch_inj table unknown_hex inD); try done. intros. by apply unknown_hex_inj.
  - intros name Hn u1 u2.
    assert (∃ table, name = switch table unknown_dec ∧ table_ok table = true) as (table & -> & Ht).
    { repeat (apply elem_of_cons in Hn as [->|Hn]; [eexists; split; [reflexivity|vm_compute; reflexivity]|]). by apply elem_of_nil in Hn. }
    apply (switch_inj table unknown_dec (λ _, True)); try done. intros. by apply unknown_dec_inj.
Qed.

(** An EAP packet whose header declares a type, or a PEAP or MSCHAPv2 packet whose
    header declares flags or an opcode, that the packet does not have. *)
Definition overclaims (b : list Z) : bool :=
  match b with
  | _ :: _ :: hi :: lo :: rest =>
      let length := Z.lor (Z.shiftl hi 8) lo in
      match rest with
      | [] => 5 <=? length
      | [typ] => (6 <=? length) && ((typ =? 25) || (typ =? 26))
      | _ => false
      end
  | _ => false
  end.

(** A renderer that gives records, or panics when [bad]. *)
Definition renders (r : res (list LogRecord)) (bad : bool) : Prop := if bad then r = Panic else ∃ recs, r = Ok recs.

Lemma EAP_renders dir b : renders (EAP dir b) (overclaims b).
Proof.
  unfold renders, EAP. destruct b as [|c [|i [|hi [|lo rest]]]]; try (cbn; by eexists).
  assert (Hl : (len (c :: i :: hi :: lo :: rest) <? 4) = false) by (apply Z.ltb_ge; llia). rewrite Hl. cbn [overclaims].
  set (n := Z.lor (Z.shiftl hi 8) lo).
  change ((c :: i :: hi :: lo :: rest).[0]) with (Ok c). change ((c :: i :: hi :: lo :: rest).[1]) with (Ok i).
  change ((c :: i :: hi :: lo :: rest).[2]) with (Ok hi). change ((c :: i :: hi :: lo :: rest).[3]) with (Ok lo).
  cbn [mbind res_bind]. fold n. unfold eap_detail. clearbody n.
  destruct rest as [|typ [|x rest]].
  - change ([c; i; hi; lo].[4]) with (@Panic Z). destruct (5 <=? n); [done|by eexists].
  - change ([c; i; hi; lo; typ].[4]) with (Ok typ). change ([c; i; hi; lo; typ].[5]) with (@Panic Z). cbn [mbind res_bind].
    destruct (Z.leb_spec 5 n), (Z.leb_spec 6 n); try lia; destruct (typ =? 25), (typ =? 26); try done; by eexists.
  - change ((c :: i :: hi :: lo :: typ :: x :: rest).[4]) with (Ok typ). change ((c :: i :: hi :: lo :: typ :: x :: rest).[5]) with (Ok x).
    cbn [mbind res_bind]. destruct (5 <=? n), (6 <=? n), (typ =? 25), (typ =? 26); by eexists.
Qed.

Lemma spi_text_total s : len s = 8 → ∃ t, spi_text s = Ok t.
Proof.
  intros H. do 8 (destruct s as [|? s]; [done|]). unfold spi_text, SPI_Uint64, beUint64. cbn. by eexists.
Qed.

Section RendererLemmas.
Context (ip_text : IP → string).

Lemma if_parsed_total {A} (r : res A) f : fine r → ∃ attrs, if_parsed r f = Ok attrs.
Proof. intros H. destruct r; try done; by eexists. Qed.

Lemma payload_attrs_total p : bytes (Body p) → ∃ attrs, payload_attrs ip_text p = Ok attrs.
Proof.
  intros Hb. unfold payload_attrs. repeat (destruct (_ =? _); cbn [orb]); try (by eexists); apply if_parsed_total;
    auto using ParseSA_fine, ParseKE_fine, ParseID_fine, ParseCert_fine, ParseAuth_fine, ParseNotify_fine, ParseDelete_fine,
      ParseTS_fine, ParseConfigPayload_fine.
Qed.

Definition payload_overclaims (p : Payload) : bool := (Payload_Type p =? PayloadTypeEAP) && overclaims (Body p).

Lemma render_payloads_renders dir ps : Forall (λ p, bytes (Body p)) ps →
  renders (render_payloads ip_text dir ps) (existsb payload_overclaims ps).
Proof.
  induction 1 as [|p ps Hp _ IH]; [by eexists|]. cbn [render_payloads existsb]. unfold renderPayload.
  destruct (payload_attrs_total p Hp) as [attrs ->]. unfold payload_overclaims at 1. pose proof (EAP_renders dir (Body p)) as He.
  destruct (Payload_Type p =? PayloadTypeEAP); cbn [andb orb].
  - destruct (overclaims (Body p)); [by rewrite He|]. destruct He as [recs ->]. cbn. unfold renders in *.
    destruct (existsb _ ps); [by rewrite IH|]. destruct IH as [more ->]. by eexists.
  - cbn. unfold renders in *. destruct (existsb _ ps); [by rewrite IH|]. destruct IH as [more ->]. by eexists.
Qed.

(** The dump of a message that was received is total but for one case: it panics
    exactly when the message carries an EAP packet that overclaims its length. *)
Theorem message_dump dir m : len (InitiatorSPI (Msg_Header m)) = 8 → len (ResponderSPI (Msg_Header m)) = 8 →
  Forall (λ p, bytes (Body p)) (Payloads m) →
  renders (Message ip_text dir m) (existsb payload_overclaims (Payloads m)).
Proof.
  intros H1 H2 Hp. unfold Message. destruct (spi_text_total _ H1) as [t1 ->], (spi_text_total _ H2) as [t2 ->]. cbn.
  pose proof (render_payloads_renders dir _ Hp) as Hr. unfold renders in *. destruct (existsb _ _); [by rewrite Hr|].
  destruct Hr as [recs ->]. by eexists.
Qed.
End RendererLemmas.

(** Five bytes declared, four there: [b[4]] is out of range. *)
Example eap_dump_panics : EAP "recv" [1; 7; 0; 5] = Panic.
Proof. reflexivity. Qed.
