(* ===== verification/TlsEngine.v ===== *)
(** * The TLS engine of PEAP (src/eap/peap/tls.go)

    The engine runs a third-party TLS client over an in-memory pipe. Three
    goroutines meet there: the TLS client with its handshake, the relay that
    pumps bytes between the pipe and two queues, and the PEAP state machine that
    feeds records in and collects what comes out. The bridge is a step relation
    over the pipe, the queues and the three goroutines; the TLS client is whatever
    reads and writes the pipe. Server names, certificate checks and the export of
    the key are functions, over the class [X509] and the connection's values. *)

From stdpp Require Import relations.
From S2P Require Import Prelude Suite Crypto Cipher Keying Payload Auth Mschap Peap ClassifyID.

(* ------------------------------------------------------------------ *)
(** ** Server names *)

(** [strings.TrimLeft(s, "@")]. *)
Fixpoint trim_at (s : list Z) : list Z :=
  match s with c :: r => if c =? 64 then trim_at r else s | [] => [] end.

(** The index of the first, and of the last, [c]. *)
Fixpoint IndexByte (s : list Z) (c : Z) : option nat :=
  match s with [] => None | x :: r => if x =? c then Some O else S <$> IndexByte r c end.
Fixpoint LastIndexByte (s : list Z) (c : Z) : option nat :=
  match s with
  | [] => None
  | x :: r => match LastIndexByte r c with Some i => Some (S i) | None => if x =? c then Some O else None end
  end.
Definition has_byte (s : list Z) (c : Z) : bool := existsb (λ x, x =? c) s.

(** [net.SplitHostPort]: the host of a [host:port], [[host]:port]. *)
Definition SplitHostPort (s : list Z) : option (list Z) :=
  match LastIndexByte s 58, s with
  | Some i, first :: _ =>
      if first =? 91 then
        match IndexByte s 93 with
        | Some e =>
            if negb (S e =? i)%nat then None
            else if has_byte (drop 1 s) 91 || has_byte (drop (S e) s) 93 then None
            else Some (drop 1 (take e s))
        | None => None
        end
      else
        let host := take i s in
        if has_byte host 58 || has_byte s 91 || has_byte s 93 then None else Some host
  | _, _ => None
  end.

(** [strings.TrimSuffix(s, ".")]. *)
Definition trim_dot (s : list Z) : list Z := if bool_decide (last s = Some 46) then removelast s else s.

Definition normalizeServerName (name : list Z) : list Z :=
  let name := trim_at (TrimSpace name) in
  let name := match SplitHostPort name with Some (h :: host) => h :: host | _ => name end in
  trim_dot name.

(* ------------------------------------------------------------------ *)
(** ** Certificates *)

Section Certificates.
Context {X : X509}.

(** [leaf.Verify] with the key usage of a TLS server, the intermediates and the
    roots; a parameter beside the class because of the usage. *)
Context (verify_server : Certificate → list Certificate → option CertPool → res unit).

(** The pool and the name the engine is built with. *)
Definition engine_config (serverName : list Z) (opts : Options) (roots : option CertPool) : res (list Z * option CertPool) :=
  let clean := normalizeServerName serverName in
  if bool_decide (clean = []) then Err "github.com/wsm25/swan/eap/peap: empty PEAP TLS server name"
  else match roots with
  | Some pool => Ok (clean, Some pool)
  | None =>
      if Opt_InsecureSkipVerify opts then Ok (clean, None)
      else pool ← wrap "github.com/wsm25/swan/eap/peap: load system cert pool: " SystemCertPool; Ok (clean, pool)
  end.

Fixpoint parse_certs (rawCerts : list (list Z)) : res (list Certificate) :=
  match rawCerts with
  | [] => Ok []
  | raw :: rawCerts =>
      cert ← wrap "github.com/wsm25/swan/eap/peap: parse server certificate: " (ParseCertificate raw);
      certs ← parse_certs rawCerts;
      Ok (cert :: certs)
  end.

(** The callback [VerifyPeerCertificate] of the TLS configuration. *)
Definition VerifyPeerCertificate (opts : Options) (clean : list Z) (pool : option CertPool) (rawCerts : list (list Z)) : res unit :=
  if Opt_InsecureSkipVerify opts then Ok tt
  else
  certs ← parse_certs rawCerts;
  match certs with
  | [] => Err "github.com/wsm25/swan/eap/peap: server sent no certificate"
  | leaf :: intermediates =>
      _ ← wrap "github.com/wsm25/swan/eap/peap: verify server certificate chain: " (verify_server leaf intermediates pool);
      wrap "github.com/wsm25/swan/eap/peap: server certificate identity %q: " (VerifyHostname leaf clean)
  end.

Definition VerifyServerIdentity (peerCertificates : list Certificate) (name : list Z) : res unit :=
  let clean := normalizeServerName name in
  if bool_decide (clean = []) then Err "github.com/wsm25/swan/eap/peap: empty TLS server identity"
  else match peerCertificates with
  | [] => Err "github.com/wsm25/swan/eap/peap: missing TLS peer certificate"
  | cert :: _ => wrap "github.com/wsm25/swan/eap/peap: TLS server identity %q: " (VerifyHostname cert clean)
  end.
End Certificates.

(* ------------------------------------------------------------------ *)
(** ** The exported key *)

Definition VersionTLS13 : Z := 772.
Definition MSKLen : Z := 64.
Definition ExportContextPEAP : Z := 25.
Definition ExportLabelRFC : list Z := ascii_bytes "EXPORTER_EAP_TLS_Key_Material".
Definition ExportLabelCompat : list Z := ascii_bytes "client EAP encryption".

(** What the TLS client says of the connection: its version, the exporter of the
    connection state, the master secret and, once they were seen, the randoms of
    the two hellos and whether the suite's name has SHA384. *)
Record Connection := mkConnection {
  cs_Version : Z;
  cs_Export : list Z → option (list Z) → Z → res (list Z);
  hs_MasterSecret : list Z;
  hs_Hello : option (list Z);
  hs_ServerHello : option (list Z * bool) }.

Definition ExportMSK {C : Crypto} (opts : Options) (established : bool) (c : Connection) : res (list Z) :=
  if negb established then Err "github.com/wsm25/swan/eap/peap: TLS tunnel is not ready"
  else if VersionTLS13 <=? cs_Version c then
    let '(label, context, length) :=
      if Opt_StrongswanCompatible opts then (ExportLabelCompat, None, 128) else (ExportLabelRFC, Some [ExportContextPEAP], 128) in
    keymat ← wrap "github.com/wsm25/swan/eap/peap: export EAP MSK: " (cs_Export c label context length);
    if len keymat <? MSKLen then Err "github.com/wsm25/swan/eap/peap: exporter returned %d bytes, need %d"
    else keymat.[0, MSKLen]
  else
  match hs_Hello c, hs_ServerHello c with
  | Some clientRandom, Some (serverRandom, sha384) =>
      if len (hs_MasterSecret c) =? 0 then
        Err "github.com/wsm25/swan/eap/peap: TLS 1.2 handshake state unavailable for MSK export"
      else
      keymat ← tls12PRF sha384 (hs_MasterSecret c) ExportLabelCompat (clientRandom ++ serverRandom) MSKLen;
      if len keymat <? MSKLen then Err "github.com/wsm25/swan/eap/peap: TLS 1.2 PRF produced %d bytes, need %d"
      else keymat.[0, MSKLen]
  | _, _ => Err "github.com/wsm25/swan/eap/peap: TLS 1.2 handshake state unavailable for MSK export"
  end.

(* ------------------------------------------------------------------ *)
(** ** The bridge *)

Definition inboundCap : nat := 16.
Definition outboundCap : nat := 32.
Definition pendingMax : nat := 8.

(** [relay]: at the top of its loop, inside [peer.Write] of a record, flushing
    [pending], at the check for a flush request, in the two halves of the flush
    (reading the pipe until it is quiet, then sending what was read), before a
    read of the pipe, with the chunk of a read, blocked on a full queue, gone. *)
Inductive Relay :=
  | RTop | RWrite (rest : list Z) | RPending | RFlushCheck | RFlushRead | RFlushSend
  | RRead | RChunk (c : list Z) | RBlocked (c : list Z) | RDone.

(** The handshake goroutine of [launch]: inside [client.Handshake], about to ask
    for the flush, waiting for it, storing [established], publishing, gone.
    [None] is a handshake without error. *)
Inductive Hs :=
  | HsRunning | HsRequest (err : option string) | HsWait (err : option string) | HsStore (err : option string)
  | HsPublish (err : option string) | HsEnd.

#[global] Instance Hs_eq_dec : EqDecision Hs.
Proof. solve_decision. Defined.

(** The caller: outside the engine; in [collect] with what it has; in the final
    drain of [collect] after the completion with its error; inside [client.Write]
    of [Protect]; in [drainOutbound]; in the reads of [Unprotect]; and in [Close]:
    inside [client.Close], waiting for the relay, waiting for the group. *)
Inductive Caller :=
  | CIdle
  | CCollect (out : list Z) (got : bool)
  | CDrain (err : option string) (out : list Z) (got : bool)
  | CProtect
  | CQuiet (out : list Z)
  | CUnprotect
  | CClosing | CWaitDone | CWaitGroup.

(** The engine with its queues and goroutines. [en_writing] is what is left of the
    TLS client's write into the pipe, which blocks it; [en_flushReq] and
    [en_flushDone] are the flush request and its answer; [en_wg] is the counter of
    the wait group. For the proofs:
    [en_produced] and [en_read] are the bytes the TLS client wrote and read,
    [en_fed] the bytes given to the engine, [en_chunks] the chunks the relay read,
    [en_taken] the chunks the caller took, [en_overflow] whether a chunk was ever
    parked because the queue was full, [en_late] whether the handshake stopped
    waiting for its flush, [en_app] whether application data was ever written. *)
Record Eng := mkEng {
  en_inbound : list (list Z);
  en_outbound : list (list Z);
  en_pending : list (list Z);
  en_flushReq : bool;
  en_flushDone : bool;
  en_stop : bool;
  en_closed : bool;
  en_wg : nat;
  en_started : bool;
  en_established : bool;
  en_handshakeDone : option (option string);
  en_relay : Relay;
  en_hs : Hs;
  en_caller : Caller;
  en_writing : list Z;
  en_produced : list Z;
  en_read : list Z;
  en_fed : list Z;
  en_chunks : list (list Z);
  en_taken : list (list Z);
  en_overflow : bool;
  en_late : bool;
  en_app : bool;
  en_result : option (list Z * bool * bool * option string) }.
#[global] Instance eta_Eng : Eta Eng := λ e,
  mkEng (en_inbound e) (en_outbound e) (en_pending e) (en_flushReq e) (en_flushDone e) (en_stop e) (en_closed e) (en_wg e)
    (en_started e) (en_established e) (en_handshakeDone e) (en_relay e) (en_hs e) (en_caller e) (en_writing e)
    (en_produced e) (en_read e) (en_fed e) (en_chunks e) (en_taken e) (en_overflow e) (en_late e) (en_app e) (en_result e).

(** After [launch], which adds two to the wait group, [Start] waits for the
    ClientHello. *)
Definition launch : Eng :=
  mkEng [] [] [] false false false false 2 true false None RTop HsRunning (CCollect [] false) [] [] [] [] [] [] false false false None.

Definition has_room (e : Eng) : Prop := (length (en_outbound e) < outboundCap)%nat.

(** A chunk goes to the caller's queue, or is taken from it. *)
Definition push_out (c : list Z) (e : Eng) : Eng := e <| en_outbound := en_outbound e ++ [c] |>.
Definition take_out (c : list Z) (q : list (list Z)) (e : Eng) : Eng :=
  e <| en_outbound := q |> <| en_taken := en_taken e ++ [c] |>.

(** [peer.Read] returns what is there of the client's write, up to the buffer. *)
Definition read_pipe (c rest : list Z) (e : Eng) : Eng := e <| en_writing := rest |> <| en_chunks := en_chunks e ++ [c] |>.

Definition at_relay (s : Relay) (e : Eng) : Eng := e <| en_relay := s |>.

Inductive relay_step : Eng → Eng → Prop :=
  (* the inner loop: deliver what was fed *)
  | rl_stop e : en_relay e = RTop → en_stop e = true → relay_step e (at_relay RDone e)
  | rl_feed e rec q : en_relay e = RTop → en_inbound e = rec :: q →
      relay_step e (at_relay (RWrite rec) (e <| en_inbound := q |>))
  | rl_written e : en_relay e = RWrite [] → relay_step e (at_relay RTop e)
  | rl_write_closed e rest : en_relay e = RWrite rest → en_closed e = true → relay_step e (at_relay RDone e)
  | rl_nothing e : en_relay e = RTop → en_inbound e = [] → en_stop e = false → relay_step e (at_relay RPending e)
  (* flush what was parked *)
  | rl_pending_none e : en_relay e = RPending → en_pending e = [] → relay_step e (at_relay RFlushCheck e)
  | rl_pending_send e c ps : en_relay e = RPending → en_pending e = c :: ps → has_room e →
      relay_step e (push_out c (e <| en_pending := ps |>))
  | rl_pending_stop e : en_relay e = RPending → en_pending e ≠ [] → en_stop e = true → relay_step e (at_relay RDone e)
  | rl_pending_full e : en_relay e = RPending → en_pending e ≠ [] → ¬ has_room e → en_stop e = false →
      relay_step e (at_relay RRead e)
  (* the barrier of the handshake *)
  | rl_flush e : en_relay e = RFlushCheck → en_flushReq e = true →
      relay_step e (at_relay RFlushRead (e <| en_flushReq := false |>))
  | rl_no_flush e : en_relay e = RFlushCheck → en_flushReq e = false → relay_step e (at_relay RRead e)
  | rl_flush_chunk e c rest : en_relay e = RFlushRead → en_writing e = c ++ rest → c ≠ [] → en_closed e = false →
      relay_step e (read_pipe c rest e <| en_pending := en_pending e ++ [c] |>)
  | rl_flush_quiet e : en_relay e = RFlushRead → relay_step e (at_relay RFlushSend e)
  | rl_flush_send e c ps : en_relay e = RFlushSend → en_pending e = c :: ps → has_room e →
      relay_step e (push_out c (e <| en_pending := ps |>))
  | rl_flush_stop e : en_relay e = RFlushSend → en_pending e ≠ [] → en_stop e = true → relay_step e (at_relay RDone e)
  | rl_flush_done e : en_relay e = RFlushSend → en_pending e = [] →
      relay_step e (at_relay RTop (e <| en_flushDone := true |>))
  (* read the pipe *)
  | rl_chunk e c rest : en_relay e = RRead → en_writing e = c ++ rest → c ≠ [] → en_closed e = false →
      relay_step e (at_relay (RChunk c) (read_pipe c rest e))
  | rl_timeout e : en_relay e = RRead → en_closed e = false → relay_step e (at_relay RTop e)
  | rl_read_closed e : en_relay e = RRead → en_closed e = true → relay_step e (at_relay RDone e)
  | rl_send e c : en_relay e = RChunk c → has_room e → relay_step e (at_relay RTop (push_out c e))
  | rl_send_stop e c : en_relay e = RChunk c → en_stop e = true → relay_step e (at_relay RDone e)
  | rl_park e c : en_relay e = RChunk c → ¬ has_room e → en_stop e = false → (length (en_pending e) < pendingMax)%nat →
      relay_step e (at_relay RTop (e <| en_pending := en_pending e ++ [c] |> <| en_overflow := true |>))
  | rl_block e c : en_relay e = RChunk c → ¬ has_room e → en_stop e = false → (pendingMax <= length (en_pending e))%nat →
      relay_step e (at_relay (RBlocked c) (e <| en_overflow := true |>))
  | rl_unblock e c : en_relay e = RBlocked c → has_room e → relay_step e (at_relay RTop (push_out c e))
  | rl_block_stop e c : en_relay e = RBlocked c → en_stop e = true → relay_step e (at_relay RDone e).

(** The TLS client works while the handshake runs or a call is inside it. *)
Definition inside (c : Caller) : bool := match c with CProtect | CUnprotect | CClosing => true | _ => false end.
Definition client_active (e : Eng) : Prop := en_hs e = HsRunning ∨ inside (en_caller e) = true.

(** The TLS client and the goroutine of [launch]. *)
Inductive client_step : Eng → Eng → Prop :=
  | cl_write e b : client_active e → en_writing e = [] → b ≠ [] → en_closed e = false →
      client_step e (e <| en_writing := b |> <| en_produced := en_produced e ++ b |>
                       <| en_app := en_app e || bool_decide (en_hs e ≠ HsRunning) |>)
  | cl_read e c rest : client_active e → en_relay e = RWrite (c ++ rest) → c ≠ [] → en_closed e = false →
      client_step e (at_relay (RWrite rest) e <| en_read := en_read e ++ c |>)
  | hs_return e err : en_hs e = HsRunning → (en_writing e = [] ∨ en_closed e = true ∧ err ≠ None) →
      client_step e (e <| en_hs := HsRequest err |>)
  | hs_request e err : en_hs e = HsRequest err → client_step e (e <| en_hs := HsWait err |> <| en_flushReq := true |>)
  | hs_request_stop e err : en_hs e = HsRequest err → en_stop e = true →
      client_step e (e <| en_hs := HsStore err |> <| en_late := true |>)
  | hs_flushed e err : en_hs e = HsWait err → en_flushDone e = true → client_step e (e <| en_hs := HsStore err |>)
  | hs_late e err : en_hs e = HsWait err → client_step e (e <| en_hs := HsStore err |> <| en_late := true |>)
  | hs_store e err : en_hs e = HsStore err →
      client_step e (e <| en_hs := HsPublish err |> <| en_established := bool_decide (err = None) |>)
  | hs_publish e err : en_hs e = HsPublish err →
      client_step e (e <| en_hs := HsEnd |> <| en_handshakeDone := Some err |>).

(** What [Start] and [Feed] make of a [collect]. *)
Definition Start_returns (r : list Z * bool * bool * option string) : res (list Z) :=
  let '(out, _, got, err) := r in
  match err with
  | Some e => Err e
  | None => if got then Ok out else Err "github.com/wsm25/swan/eap/peap: TLS handshake produced no ClientHello: %w"
  end.
Definition Feed_returns (r : list Z * bool * bool * option string) : res (list Z * Step) :=
  let '(out, est, _, err) := r in
  match err with
  | Some e => Err e
  | None => Ok (if bool_decide (out = []) then ([], if est then StepEstablished else StepNeedMoreData) else (out, StepOutbound))
  end.

(** [Feed] of a record it does not take. *)
Definition Feed_refuses (e : Eng) (record : list Z) : option (res (list Z * Step)) :=
  if negb (en_started e) then Some (Err "github.com/wsm25/swan/eap/peap: TLS engine not started")
  else if en_established e then Some (Err "github.com/wsm25/swan/eap/peap: TLS handshake already established; use Unprotect")
  else if len record =? 0 then Some (Ok ([], StepNeedMoreData))
  else None.

(** One turn of [readApplication]: the deadline cannot be set, or what the TLS
    client's [Read] returns, bytes and an error. *)
Inductive ReadErr := ReadTimeout | ReadEOF | ReadFailed (text : string).
Inductive AppRead := DeadlineFailed (text : string) | AppData (n : list Z) (err : option ReadErr).

Fixpoint readApplication (reads : list AppRead) (plain : list Z) : res (list Z * option string) :=
  match reads with
  | [] => Hang
  | DeadlineFailed text :: _ => Ok (plain, Some ("github.com/wsm25/swan/eap/peap: TLS read deadline: " +:+ text))
  | AppData n err :: reads =>
      let plain := plain ++ n in
      match err with
      | None => readApplication reads plain
      | Some ReadTimeout | Some ReadEOF => Ok (plain, None)
      | Some (ReadFailed text) => Ok (plain, Some ("github.com/wsm25/swan/eap/peap: TLS unprotect: " +:+ text))
      end
  end.

Definition returns (r : list Z * bool * bool * option string) (e : Eng) : Eng :=
  e <| en_caller := CIdle |> <| en_result := Some r |>.

(** The PEAP state machine calls [Feed], [Protect] and [Unprotect]; the last two
    work inside the TLS client. *)
Inductive call_step : Eng → Eng → Prop :=
  | ca_feed e rec : en_caller e = CIdle → Feed_refuses e rec = None → (length (en_inbound e) < inboundCap)%nat →
      call_step e (e <| en_inbound := en_inbound e ++ [rec] |> <| en_fed := en_fed e ++ rec |> <| en_caller := CCollect [] false |>)
  | ca_protect e : en_caller e = CIdle → en_established e = true → call_step e (e <| en_caller := CProtect |>)
  | ca_protected e : en_caller e = CProtect → en_writing e = [] ∨ en_closed e = true →
      call_step e (e <| en_caller := CQuiet [] |>)
  | ca_unprotect e rec : en_caller e = CIdle → en_established e = true → (length (en_inbound e) < inboundCap)%nat →
      call_step e (e <| en_inbound := en_inbound e ++ [rec] |> <| en_fed := en_fed e ++ rec |> <| en_caller := CUnprotect |>)
  | ca_unprotected e : en_caller e = CUnprotect → en_writing e = [] ∨ en_closed e = true →
      call_step e (e <| en_caller := CIdle |>).

(** The loop of [collect]; timers fire at any time. *)
Inductive collect_step : Eng → Eng → Prop :=
  | ca_chunk e out got c q : en_caller e = CCollect out got → en_outbound e = c :: q →
      collect_step e (take_out c q e <| en_caller := CCollect (out ++ c) true |>)
  | ca_done e out got err : en_caller e = CCollect out got → en_handshakeDone e = Some err →
      collect_step e (e <| en_handshakeDone := None |> <| en_caller := CDrain err out got |>)
  | ca_timer e out got : en_caller e = CCollect out got → en_handshakeDone e = None →
      collect_step e (returns (out, false, got, None) e)
  | ca_drain e err out got c q : en_caller e = CDrain err out got → en_outbound e = c :: q →
      collect_step e (take_out c q e <| en_caller := CDrain err (out ++ c) true |>)
  | ca_drained e err out got : en_caller e = CDrain err out got → en_outbound e = [] →
      collect_step e (returns (out, bool_decide (err = None), got, err) e).

(** The loop of [drainOutbound]. *)
Inductive drain_step : Eng → Eng → Prop :=
  | ca_settle e out c q : en_caller e = CQuiet out → en_outbound e = c :: q →
      drain_step e (take_out c q e <| en_caller := CQuiet (out ++ c) |>)
  | ca_settled e out : en_caller e = CQuiet out → drain_step e (returns (out, false, true, None) e).

(** [Close] of an engine that was launched: the stop, the two ends of the pipe, the
    relay (or 500 ms), the wait group. *)
Inductive close_step : Eng → Eng → Prop :=
  | ca_close e : en_caller e = CIdle → close_step e (e <| en_stop := true |> <| en_caller := CClosing |>)
  | ca_close_pipe e : en_caller e = CClosing → close_step e (e <| en_closed := true |> <| en_caller := CWaitDone |>)
  | ca_relay_done e : en_caller e = CWaitDone → close_step e (e <| en_caller := CWaitGroup |>)
  | ca_closed e : en_caller e = CWaitGroup → en_wg e = 0%nat → close_step e (e <| en_caller := CIdle |>).

Definition caller_step (e e' : Eng) : Prop := call_step e e' ∨ collect_step e e' ∨ drain_step e e' ∨ close_step e e'.

Definition engine_step (e e' : Eng) : Prop := relay_step e e' ∨ client_step e e' ∨ caller_step e e'.
Definition engine_reachable : Eng → Prop := rtc engine_step launch.

(* ------------------------------------------------------------------ *)
(** ** The derivation of the key *)

Section Derivation.
Context {C : Crypto} {L : CryptoLaws}.

(** RFC 5246: [A(0) = seed], [A(i) = HMAC(secret, A(i-1))], and the stream of
    [HMAC(secret, A(i) + seed)]. *)
Fixpoint P_hash_A (h : HashKind) (secret seed : list Z) (i : nat) : list Z :=
  match i with O => seed | S i => hmac h secret (P_hash_A h secret seed i) end.
Fixpoint P_hash (h : HashKind) (secret seed : list Z) (n : nat) : list Z :=
  match n with O => [] | S n => P_hash h secret seed n ++ hmac h secret (P_hash_A h secret seed (S n) ++ seed) end.

Lemma len_P_hash h secret seed n : len (P_hash h secret seed n) = Z.of_nat n * hash_size h.
Proof. induction n as [|n IH]; [done|]. cbn [P_hash]. rewrite len_app, IH, hmac_len. lia. Qed.

(** A long enough stream has one prefix. *)
Lemma P_hash_take h secret seed n k l : l <= Z.of_nat n * hash_size h →
  take (Z.to_nat l) (P_hash h secret seed (n + k)) = take (Z.to_nat l) (P_hash h secret seed n).
Proof.
  intros Hl. induction k as [|k IH]; [by rewrite Nat.add_0_r|]. rewrite Nat.add_succ_r. cbn [P_hash].
  rewrite take_app_le, IH; [done|]. pose proof (len_P_hash h secret seed (n + k)) as H. unfold len in H.
  pose proof (hash_size_pos h). nia.
Qed.

Lemma p_hash_loop_spec h secret seed l fuel i : 0 <= l <= Z.of_nat (i + fuel) * hash_size h →
  p_hash_loop (S fuel) h secret seed (P_hash_A h secret seed (S i)) (P_hash h secret seed i) l =
  Ok (take (Z.to_nat l) (P_hash h secret seed (i + fuel))).
Proof.
  revert i. induction fuel as [|fuel IH]; intros i Hl; cbn [p_hash_loop]; pose proof (len_P_hash h secret seed i) as Hi.
  - rewrite Nat.add_0_r in *. destruct (Z.ltb_spec (len (P_hash h secret seed i)) l); [lia|]. apply slice_take. lia.
  - destruct (Z.ltb_spec (len (P_hash h secret seed i)) l) as [_|Hge].
    + specialize (IH (S i)). cbn [Nat.add] in IH. rewrite <- Nat.add_succ_r in IH. by apply IH.
    + rewrite slice_take by lia. by rewrite P_hash_take by lia.
Qed.

(** The loop ends within its fuel with the first bytes of the stream. *)
Lemma tls12PRF_stream (sha384 : bool) secret label seed l n :
  let h := if sha384 then HashSHA384 else HashSHA256 in
  0 <= l <= Z.of_nat n * hash_size h →
  tls12PRF sha384 secret label seed l = Ok (take (Z.to_nat l) (P_hash h secret (label ++ seed) n)).
Proof.
  intros h Hl. unfold tls12PRF. fold h. pose proof (hash_size_pos h).
  etransitivity; [apply (p_hash_loop_spec h secret (label ++ seed) l (Z.to_nat l) 0); nia|]. f_equal. cbn [Nat.add].
  destruct (Nat.le_ge_cases (Z.to_nat l) n) as [[k ->]%Nat.le_sum|[k Hk]%Nat.le_sum].
  - symmetry. apply P_hash_take. nia.
  - rewrite Hk at 2. apply P_hash_take. lia.
Qed.
End Derivation.

(** What [Unprotect] returns is all the plaintext read before the first error, and
    running dry is no error. *)
Lemma readApplication_reads chunks last reads plain :
  readApplication (((λ c, AppData c None) <$> chunks) ++ AppData last (Some ReadTimeout) :: reads) plain =
  Ok (plain ++ concat chunks ++ last, None).
Proof.
  revert plain. induction chunks as [|c chunks IH]; intros plain; cbn; [done|]. by rewrite IH, <- !app_assoc.
Qed.

(* ------------------------------------------------------------------ *)
(** ** The invariant *)

(** What the relay holds: the rest of a record it delivers, and a chunk it read. *)
Definition relay_rest (r : Relay) : list Z := match r with RWrite rest => rest | _ => [] end.
Definition relay_chunk (r : Relay) : list (list Z) := match r with RChunk c | RBlocked c => [c] | _ => [] end.
Definition in_flush (r : Relay) : bool := match r with RFlushRead | RFlushSend => true | _ => false end.
Definition hs_past (h : Hs) : bool := match h with HsRunning => false | _ => true end.
Definition hs_waited (h : Hs) : bool := match h with HsStore _ | HsPublish _ | HsEnd => true | _ => false end.
Definition working (c : Caller) : bool := match c with CProtect | CUnprotect => true | _ => false end.
Definition closing (c : Caller) : bool := match c with CClosing | CWaitDone | CWaitGroup => true | _ => false end.
Definition collecting (c : Caller) : bool := match c with CCollect _ _ | CDrain _ _ _ => true | _ => false end.

(** Everything the relay has read is taken, queued, in its hands, parked or, when
    it is gone, lost. *)
Definition accounted (e : Eng) (lost : list (list Z)) : list (list Z) :=
  en_taken e ++ en_outbound e ++ relay_chunk (en_relay e) ++ lost ++ en_pending e.

Record eng_inv (e : Eng) : Prop := {
  gi_feed : ∃ lost, en_fed e = en_read e ++ relay_rest (en_relay e) ++ lost ++ concat (en_inbound e) ∧
    (lost ≠ [] → en_relay e = RDone);
  gi_out : ∃ lost, accounted e lost ≡ₚ en_chunks e ∧ (en_overflow e = false → accounted e lost = en_chunks e) ∧
    (lost ≠ [] → en_relay e = RDone);
  gi_bytes : en_produced e = concat (en_chunks e) ++ en_writing e;
  gi_parked : en_overflow e = false → en_pending e ≠ [] → in_flush (en_relay e) = true ∨ en_relay e = RDone;
  gi_overflow : en_overflow e = true → (outboundCap < length (en_chunks e))%nat;
  gi_request : en_flushReq e = true ∨ in_flush (en_relay e) = true ∨ en_flushDone e = true → hs_past (en_hs e) = true;
  gi_silent : hs_past (en_hs e) = true → en_app e = false → en_stop e = false → en_writing e = [];
  gi_flushed : en_flushDone e = true → en_app e = false → en_stop e = false →
    en_pending e = [] ∧ relay_chunk (en_relay e) = [];
  gi_waited : hs_waited (en_hs e) = true → en_late e = true ∨ en_flushDone e = true;
  gi_established : en_established e = true → en_hs e = HsPublish None ∨ en_hs e = HsEnd;
  gi_published : (en_handshakeDone e ≠ None → en_hs e = HsEnd) ∧ (en_handshakeDone e = Some None → en_established e = true) ∧
    (en_hs e = HsPublish None → en_established e = true);
  gi_app : (en_app e = true → en_established e = true ∨ en_stop e = true) ∧ (collecting (en_caller e) = true → en_app e = false) ∧
    (working (en_caller e) = true → en_established e = true);
  gi_drain : ∀ err out got, en_caller e = CDrain err out got →
    en_hs e = HsEnd ∧ (err = None → en_established e = true);
  gi_stop : en_closed e = true → en_stop e = true;
  gi_done : en_relay e = RDone → en_stop e = true;
  gi_close : en_wg e = 2%nat ∧ en_stop e = closing (en_caller e) }.

Lemma launch_inv : eng_inv launch.
Proof. constructor; cbn; try done; try (by exists []); try naive_solver. Qed.

Definition chunk_eq (x y : list Z) : {x = y} + {x ≠ y} := decide (x = y).

(** Permutations of concatenations of chunks, by counting. *)
Ltac chunk_perm :=
  apply (Permutation_count_occ chunk_eq); intros ?x;
  repeat match goal with H : _ ≡ₚ _ |- _ => rewrite (Permutation_count_occ chunk_eq) in H; specialize (H x) end;
  repeat (rewrite ?count_occ_app in *; cbn [count_occ] in *);
  repeat match goal with |- context [chunk_eq ?a ?b] => destruct (chunk_eq a b) in * end; lia.

(** A move of the relay that carries nothing. *)
Lemma relay_move_inv e s : eng_inv e → relay_rest s = relay_rest (en_relay e) → relay_chunk s = relay_chunk (en_relay e) →
  (in_flush s = true → hs_past (en_hs e) = true) →
  (en_overflow e = false → en_pending e ≠ [] → in_flush s = true ∨ s = RDone) → en_relay e ≠ RDone →
  (s = RDone → en_stop e = true) → eng_inv (at_relay s e).
Proof.
  intros [(lf & F1 & F2) (lo & O1 & O2 & O3) B P V Q S L W E U A D T G K] H1 H2 H3 H4 Hd H5.
  assert (lf = []) as -> by (destruct lf; [done|by destruct Hd; apply F2]).
  assert (lo = []) as -> by (destruct lo; [done|by destruct Hd; apply O3]).
  constructor; cbn; unfold accounted in *; cbn; rewrite ?H1, ?H2; try done.
  - by exists [].
  - by exists [].
  - intros [?|[?|?]]; auto.
Qed.

(** The relay leaves: what it holds is lost. *)
Lemma relay_leave_inv e : eng_inv e → en_relay e ≠ RDone → en_stop e = true → eng_inv (at_relay RDone e).
Proof.
  intros [(lf & F1 & F2) (lo & O1 & O2 & O3) B P V Q S L W E U A D T G K] Hd Hs.
  assert (lf = []) as -> by (destruct lf; [done|by destruct Hd; apply F2]).
  assert (lo = []) as -> by (destruct lo; [done|by destruct Hd; apply O3]).
  constructor; cbn; unfold accounted in *; cbn; try done.
  - exists (relay_rest (en_relay e)). split; [|done]. by rewrite F1.
  - by exists (relay_chunk (en_relay e)).
  - auto.
  - intros [?|[?|?]]; auto.
  - intros H1 H2 H3. congruence.
Qed.

(** Opens the invariant of a state whose relay is [s], which has lost nothing. *)
Ltac open_inv I Hr :=
  destruct I as [(lf & F1 & F2) (lo & O1 & O2 & O3) B P V Q S L W E U A D T G K]; unfold accounted in *; rewrite Hr in *;
  assert (lf = []) as -> by (destruct lf; [done|by exfalso; discriminate F2]);
  assert (lo = []) as -> by (destruct lo; [done|by exfalso; discriminate O3]);
  cbn [relay_rest relay_chunk in_flush app] in *.

Lemma rl_feed_inv e rec q : eng_inv e → en_relay e = RTop → en_inbound e = rec :: q →
  eng_inv (at_relay (RWrite rec) (e <| en_inbound := q |>)).
Proof.
  intros I Hr Hq. open_inv I Hr. rewrite Hq in F1. constructor; cbn; unfold accounted; cbn; try done; [by exists []..|].
  intros H1 H2. by destruct (P H1 H2).
Qed.

(** The head of the parked chunks goes to the queue. *)
Lemma push_pending_inv e c ps : eng_inv e → en_pending e = c :: ps → relay_chunk (en_relay e) = [] → en_relay e ≠ RDone →
  eng_inv (push_out c (e <| en_pending := ps |>)).
Proof.
  intros [(lf & F1 & F2) (lo & O1 & O2 & O3) B P V Q S L W E U A D T G K] Hp Hc Hd. unfold accounted in *.
  assert (lf = []) as -> by (destruct lf; [done|by destruct Hd; apply F2]).
  assert (lo = []) as -> by (destruct lo; [done|by destruct Hd; apply O3]).
  rewrite Hc, Hp in *. constructor; cbn; unfold accounted; cbn; rewrite ?Hc; try done.
  - by exists [].
  - exists []. cbn in *. split; [rewrite <- O1; chunk_perm|]. split; [|done]. intros Ho. rewrite <- (O2 Ho). by rewrite <- app_assoc.
  - intros H1 H2. by apply P.
  - intros H1 H2 H3. by destruct (L H1 H2 H3).
Qed.

(** A chunk is read from the pipe: only while the client may write. *)
Lemma read_pipe_silent e c rest : eng_inv e → en_writing e = c ++ rest → c ≠ [] →
  hs_past (en_hs e) = true → en_app e = false → en_stop e = false → False.
Proof. intros I Hw Hc Hp Ha Hst. pose proof (gi_silent _ I Hp Ha Hst) as S. rewrite Hw in S. by destruct c. Qed.

Lemma rl_flush_chunk_inv e c rest : eng_inv e → en_relay e = RFlushRead → en_writing e = c ++ rest → c ≠ [] → en_closed e = false →
  eng_inv (read_pipe c rest e <| en_pending := en_pending e ++ [c] |>).
Proof.
  intros I Hr Hw Hc Hcl. pose proof (read_pipe_silent e c rest I Hw Hc) as X. open_inv I Hr.
  assert (Hpast : hs_past (en_hs e) = true) by auto. specialize (X Hpast).
  constructor; cbn; unfold accounted; cbn; rewrite ?Hr; cbn; try done.
  - by exists [].
  - exists []. cbn in *. split; [rewrite <- O1; chunk_perm|]. split; [|done]. intros Ho. rewrite <- (O2 Ho). by rewrite !app_assoc.
  - rewrite B, Hw, concat_app. cbn. by rewrite app_nil_r, app_assoc.
  - auto.
  - intros H. apply V in H. rewrite length_app. lia.
  - intros _ H2 H3. destruct (X H2 H3).
  - intros _ H2 H3. destruct (X H2 H3).
Qed.

Lemma rl_chunk_inv e c rest : eng_inv e → en_relay e = RRead → en_writing e = c ++ rest → c ≠ [] → en_closed e = false →
  eng_inv (at_relay (RChunk c) (read_pipe c rest e)).
Proof.
  intros I Hr Hw Hc Hcl. pose proof (read_pipe_silent e c rest I Hw Hc) as X. open_inv I Hr.
  constructor; cbn; unfold accounted; cbn; try done.
  - by exists [].
  - exists []. cbn in *. split; [rewrite <- O1; chunk_perm|]. split; [|done]. intros Ho. rewrite <- (O2 Ho).
    destruct (en_pending e) eqn:Hp; [by rewrite !app_nil_r, app_assoc|]. by destruct (P Ho).
  - rewrite B, Hw, concat_app. cbn. by rewrite app_nil_r, app_assoc.
  - intros H1 H2. by destruct (P H1 H2).
  - intros H. apply V in H. rewrite length_app. lia.
  - intros H1 H2 H3. destruct (X H1 H2 H3).
  - intros H1 H2 H3. destruct X; auto.
Qed.

Lemma rl_push_inv e c : eng_inv e → relay_chunk (en_relay e) = [c] → relay_rest (en_relay e) = [] → in_flush (en_relay e) = false →
  en_relay e ≠ RDone → eng_inv (at_relay RTop (push_out c e)).
Proof.
  intros [(lf & F1 & F2) (lo & O1 & O2 & O3) B P V Q S L W E U A D T G K] Hc Hrest Hf Hd. unfold accounted in *.
  assert (lf = []) as -> by (destruct lf; [done|by destruct Hd; apply F2]).
  assert (lo = []) as -> by (destruct lo; [done|by destruct Hd; apply O3]).
  rewrite Hc, Hrest, Hf in *. constructor; cbn; unfold accounted; cbn; try done.
  - by exists [].
  - exists []. cbn in *. rewrite <- app_assoc. done.
  - intros H1 H2. by destruct (P H1 H2).
  - intros H1 H2 H3. by destruct (L H1 H2 H3).
Qed.

Lemma rl_park_inv e c : eng_inv e → en_relay e = RChunk c → ¬ has_room e →
  eng_inv (at_relay RTop (e <| en_pending := en_pending e ++ [c] |> <| en_overflow := true |>)) ∧
  eng_inv (at_relay (RBlocked c) (e <| en_overflow := true |>)).
Proof.
  intros I Hr Hroom. unfold has_room in Hroom. open_inv I Hr.
  assert (Hlen : (outboundCap < length (en_chunks e))%nat).
  { apply Permutation_length in O1. rewrite !length_app in O1. cbn in O1. lia. }
  split; constructor; cbn; unfold accounted; cbn; try done.
  - by exists [].
  - exists []. cbn in *. split; [rewrite <- O1; chunk_perm|done].
  - intros H1 H2 H3. by destruct (L H1 H2 H3).
  - by exists [].
  - by exists [].
Qed.

Lemma relay_step_inv e e' : relay_step e e' → eng_inv e → eng_inv e'.
Proof.
  intros Hs I. pose proof (gi_parked _ I) as HP. pose proof (gi_request _ I) as HQ. pose proof (gi_stop _ I) as HT.
  destruct Hs as [e Hr Hst|e rec q Hr Hq|e Hr|e rest Hr Hc|e Hr Hq Hst|e Hr Hp|e c ps Hr Hp Hroom|e Hr Hp Hst|e Hr Hp Hroom Hst
    |e Hr Hf|e Hr Hf|e c rest Hr Hw Hne Hc|e Hr|e c ps Hr Hp Hroom|e Hr Hp Hst|e Hr Hp|e c rest Hr Hw Hne Hc|e Hr Hc|e Hr Hc
    |e c Hr Hroom|e c Hr Hst|e c Hr Hroom Hst Hp|e c Hr Hroom Hst Hp|e c Hr Hroom|e c Hr Hst]; rewrite Hr in HP, HQ; cbn in HP, HQ.
  - apply relay_leave_inv; by rewrite ?Hr.
  - by apply rl_feed_inv.
  - apply relay_move_inv; rewrite ?Hr; cbn; naive_solver.
  - apply relay_leave_inv; rewrite ?Hr; auto.
  - apply relay_move_inv; rewrite ?Hr; cbn; naive_solver.
  - apply relay_move_inv; rewrite ?Hr; cbn; naive_solver.
  - apply push_pending_inv; by rewrite ?Hr.
  - apply relay_leave_inv; by rewrite ?Hr.
  - apply relay_move_inv; rewrite ?Hr; cbn; naive_solver.
  - assert (Hpast : hs_past (en_hs e) = true) by auto. open_inv I Hr.
    constructor; cbn; unfold accounted; cbn; try done; [by exists []..|by auto].
  - apply relay_move_inv; rewrite ?Hr; cbn; naive_solver.
  - by apply rl_flush_chunk_inv.
  - apply relay_move_inv; rewrite ?Hr; cbn; naive_solver.
  - apply push_pending_inv; by rewrite ?Hr.
  - apply relay_leave_inv; by rewrite ?Hr.
  - assert (Hpast : hs_past (en_hs e) = true) by auto. open_inv I Hr.
    constructor; cbn; unfold accounted; cbn; try done; [by exists []..|by auto].
  - by apply rl_chunk_inv.
  - apply relay_move_inv; rewrite ?Hr; cbn; naive_solver.
  - apply relay_leave_inv; rewrite ?Hr; auto.
  - apply rl_push_inv; by rewrite ?Hr.
  - apply relay_leave_inv; by rewrite ?Hr.
  - by destruct (rl_park_inv e c I Hr Hroom).
  - by destruct (rl_park_inv e c I Hr Hroom).
  - apply rl_push_inv; by rewrite ?Hr.
  - apply relay_leave_inv; by rewrite ?Hr.
Qed.

(** A step of the handshake goroutine that moves no bytes. *)
Lemma hs_move_inv e h late req : eng_inv e → hs_past h = true → h ≠ HsPublish None → hs_past (en_hs e) = true ∨ (en_writing e = [] ∨ en_closed e = true) →
  (hs_waited h = true → late = true ∨ en_flushDone e = true) → (req = true → en_flushReq e = true ∨ hs_past (en_hs e) = true) →
  en_established e = false → en_handshakeDone e = None → (∀ err out got, en_caller e ≠ CDrain err out got) →
  eng_inv (e <| en_hs := h |> <| en_late := late |> <| en_flushReq := req |>).
Proof.
  intros [F O B P V Q S L W E U A D T G K] H1 Hh H2 H3 H4 He Hd Hc.
  constructor; cbn; unfold accounted in *; cbn; rewrite ?He, ?Hd in *; try done.
  - intros _ Ha Hcl. destruct H2 as [?|[?|H]]; [by auto|done|apply T in H; congruence].
  - intros err out got E'. by destruct (Hc err out got).
Qed.

Lemma not_established e : eng_inv e → en_hs e ≠ HsEnd → (∀ err, en_hs e ≠ HsPublish err) →
  en_established e = false ∧ en_handshakeDone e = None ∧ (∀ err out got, en_caller e ≠ CDrain err out got).
Proof.
  intros I H1 H2. split_and!.
  - destruct (en_established e) eqn:E; [|done]. by destruct (gi_established _ I E) as [H|H]; [destruct (H2 None)|].
  - destruct (en_handshakeDone e) eqn:E; [|done]. destruct H1. apply (gi_published _ I). by rewrite E.
  - intros err out got E. destruct H1. by destruct (gi_drain _ I _ _ _ E).
Qed.

(** The TLS client writes: during the handshake, or with application data. *)
Lemma cl_write_inv e b : eng_inv e → client_active e → en_writing e = [] →
  eng_inv (e <| en_writing := b |> <| en_produced := en_produced e ++ b |>
             <| en_app := en_app e || bool_decide (en_hs e ≠ HsRunning) |>).
Proof.
  intros [F O B P V Q S L W E U (A1 & A2 & A3) D T G K] Ha Hw.
  assert (Hin : en_hs e ≠ HsRunning → inside (en_caller e) = true) by (by destruct Ha).
  constructor; cbn; unfold accounted in *; cbn; try done.
  - rewrite B, Hw. by rewrite app_nil_r.
  - intros Hp [_ Hd%bool_decide_eq_false]%orb_false_iff _. exfalso. apply Hd. by intros Hh; rewrite Hh in Hp.
  - intros Hf [_ Hd%bool_decide_eq_false]%orb_false_iff _. exfalso. apply Hd. intros Hh.
    specialize (Q (or_intror (or_intror Hf))). by rewrite Hh in Q.
  - split_and!; [|intros Hcol|done].
    + intros [?|Hd%bool_decide_eq_true]%orb_true_iff; [by auto|]. specialize (Hin Hd). destruct K as [_ ->].
      destruct (en_caller e); try done; cbn; auto.
    + rewrite (A2 Hcol). cbn. apply bool_decide_eq_false. intros Hd. specialize (Hin Hd). by destruct (en_caller e).
Qed.

Lemma cl_read_inv e c rest : eng_inv e → en_relay e = RWrite (c ++ rest) →
  eng_inv (at_relay (RWrite rest) e <| en_read := en_read e ++ c |>).
Proof.
  intros I Hr. open_inv I Hr. constructor; cbn; unfold accounted; cbn; try done.
  - exists []. split; [|done]. rewrite F1. cbn. by rewrite <- !app_assoc.
  - by exists [].
  - intros H1 H2. by destruct (P H1 H2).
Qed.

Lemma hs_finish_inv e h est done : eng_inv e → hs_past h = true → hs_waited (en_hs e) = true → hs_waited h = true →
  en_handshakeDone e = None → (∀ err out got, en_caller e ≠ CDrain err out got) →
  (en_established e = true → est = true) → (est = true → h = HsPublish None ∨ h = HsEnd) →
  (done ≠ None → h = HsEnd) → (done = Some None → est = true) → (h = HsPublish None → est = true) →
  eng_inv (e <| en_hs := h |> <| en_established := est |> <| en_handshakeDone := done |>).
Proof.
  intros [F O B P V Q S L W E U (A1 & A2 & A3) D T G K] H1 H2 H3 Hd Hc He1 He2 Hd1 Hd2 Hd3.
  assert (Hpast : hs_past (en_hs e) = true) by by destruct (en_hs e).
  constructor; cbn; unfold accounted in *; cbn; try done.
  - auto.
  - auto.
  - split_and!; auto. intros Ha. destruct (A1 Ha); auto.
  - intros err out got E'. by destruct (Hc err out got).
Qed.

Lemma client_step_inv e e' : client_step e e' → eng_inv e → eng_inv e'.
Proof.
  intros Hs I. destruct Hs as [e b Ha Hw Hb Hc|e c rest Ha Hr Hne Hc|e err Hh Hw|e err Hh|e err Hh Hst|e err Hh Hf|e err Hh|e err Hh|e err Hh].
  - by apply cl_write_inv.
  - by apply cl_read_inv.
  - destruct (not_established e I) as (N1 & N2 & N3); [by rewrite Hh..|].
    apply (hs_move_inv e (HsRequest err) (en_late e) (en_flushReq e) I); auto; rewrite ?Hh; try done.
    right. destruct Hw as [?|[? _]]; auto.
  - destruct (not_established e I) as (N1 & N2 & N3); [by rewrite Hh..|].
    apply (hs_move_inv e (HsWait err) (en_late e) true I); rewrite ?Hh; first [done | by auto].
  - destruct (not_established e I) as (N1 & N2 & N3); [by rewrite Hh..|].
    apply (hs_move_inv e (HsStore err) true (en_flushReq e) I); rewrite ?Hh; first [done | by auto].
  - destruct (not_established e I) as (N1 & N2 & N3); [by rewrite Hh..|].
    apply (hs_move_inv e (HsStore err) (en_late e) (en_flushReq e) I); rewrite ?Hh; first [done | by auto].
  - destruct (not_established e I) as (N1 & N2 & N3); [by rewrite Hh..|].
    apply (hs_move_inv e (HsStore err) true (en_flushReq e) I); rewrite ?Hh; first [done | by auto].
  - destruct (not_established e I) as (N1 & N2 & N3); [by rewrite Hh..|].
    apply (hs_finish_inv e (HsPublish err) (bool_decide (err = None)) (en_handshakeDone e) I); rewrite ?Hh, ?N1, ?N2; auto; try done.
    + intros ->%bool_decide_eq_true. by left.
    + intros [= ->]. by apply bool_decide_eq_true.
  - assert (N2 : en_handshakeDone e = None).
    { destruct (en_handshakeDone e) eqn:E; [|done]. destruct (gi_published _ I) as [H _]. rewrite Hh in H. by discriminate H; rewrite E. }
    apply (hs_finish_inv e HsEnd (en_established e) (Some err) I); rewrite ?Hh; try first [done | by auto].
    + intros e1 out got Ec. destruct (gi_drain _ I _ _ _ Ec) as [H _]. congruence.
    + intros [= ->]. by apply (gi_published _ I).
Qed.

(** A call returns or proceeds without moving bytes. *)
Lemma caller_move_inv e c r : eng_inv e → en_stop e = closing c → (collecting c = true → en_app e = false) → (working c = true → en_established e = true) →
  (∀ err out got, c = CDrain err out got → en_hs e = HsEnd ∧ (err = None → en_established e = true)) →
  eng_inv (e <| en_caller := c |> <| en_result := r |>).
Proof.
  intros [F O B P V Q S L W E U (A1 & A2 & A3) D T G [K _]] Hk H1 H2 H3. by constructor.
Qed.

(** The caller takes the head of the queue. *)
Lemma take_out_inv e c q k : eng_inv e → en_stop e = closing k → en_outbound e = c :: q → (collecting k = true → en_app e = false) →
  (working k = true → en_established e = true) →
  (∀ err out got, k = CDrain err out got → en_hs e = HsEnd ∧ (err = None → en_established e = true)) →
  eng_inv (take_out c q e <| en_caller := k |>).
Proof.
  intros [F (lo & O1 & O2 & O3) B P V Q S L W E U (A1 & A2 & A3) D T G [K _]] Hk Hq H1 H2 H3. unfold accounted in *. rewrite Hq in *.
  constructor; cbn; try done. exists lo. unfold accounted. cbn. rewrite <- !app_assoc. done.
Qed.

(** A record is fed. *)
Lemma feed_inv e rec k : eng_inv e → en_stop e = closing k → (collecting k = true → en_app e = false) → (working k = true → en_established e = true) →
  (∀ err out got, k ≠ CDrain err out got) →
  eng_inv (e <| en_inbound := en_inbound e ++ [rec] |> <| en_fed := en_fed e ++ rec |> <| en_caller := k |>).
Proof.
  intros [(lf & F1 & F2) O B P V Q S L W E U (A1 & A2 & A3) D T G [K _]] Hk H1 H2 H3. constructor; cbn; try done.
  - exists lf. split; [|done]. rewrite F1, concat_app. cbn. by rewrite app_nil_r, <- !app_assoc.
  - intros err out got E'. by destruct (H3 err out got).
Qed.

Lemma caller_step_inv e e' : caller_step e e' → eng_inv e → eng_inv e'.
Proof.
  intros Hs I. pose proof (gi_app _ I) as (A1 & A2 & A3). pose proof (gi_drain _ I) as D. pose proof (gi_close _ I) as (K1 & K2).
  destruct Hs as [Hs|[Hs|[Hs|Hs]]]; [destruct Hs as [e rec Hc He Hl|e Hc He|e Hc Hw|e rec Hc He Hl|e Hc Hw]
    |destruct Hs as [e out got c q Hc Hq|e out got err Hc Hd|e out got Hc Hd|e err out got c q Hc Hq|e err out got Hc Hq]
    |destruct Hs as [e out c q Hc Hq|e out Hc]|destruct Hs as [e Hc|e Hc|e Hc|e Hc Hg]]; rewrite Hc in *; cbn in A2, A3, K2.
  - apply feed_inv; try done. intros _. destruct (en_app e); [|done]. unfold Feed_refuses in He.
    destruct A1 as [H|H]; [done|rewrite H in He; by destruct (en_started e)|congruence].
  - by apply (caller_move_inv e CProtect (en_result e)).
  - by apply (caller_move_inv e (CQuiet []) (en_result e)).
  - by apply feed_inv.
  - by apply (caller_move_inv e CIdle (en_result e)).
  - apply take_out_inv; try done.
  - pose proof (gi_published _ I) as (U1 & U2 & U3). rewrite Hd in U1, U2.
    destruct I as [F O B P V Q S L W E U A _ T G _]. constructor; cbn; try done.
    intros e1 o1 g1 [= <- <- <-]. split; [by apply U1|]. intros ->. by apply U2.
  - by apply (caller_move_inv e CIdle).
  - apply take_out_inv; try done. intros e1 o1 g1 [= <- _ _]. by eapply D.
  - by apply (caller_move_inv e CIdle).
  - by apply take_out_inv.
  - by apply (caller_move_inv e CIdle).
  - destruct I as [F O B P V Q S L W E U _ _ T G _]. constructor; cbn; auto; try done.
  - destruct I as [F O B P V Q S L W E U _ _ T G _]. constructor; cbn; auto; try done.
  - by apply (caller_move_inv e CWaitGroup (en_result e)).
  - by rewrite K1 in Hg.
Qed.

Lemma engine_reachable_inv e : engine_reachable e → eng_inv e.
Proof.
  intros H. unfold engine_reachable in H. pose proof launch_inv as I. revert I.
  induction H as [|e0 e1 e2 [Hs|[Hs|Hs]] _ IH]; [done|..]; intros I; apply IH.
  - by apply (relay_step_inv _ _ Hs).
  - by apply (client_step_inv _ _ Hs).
  - by apply (caller_step_inv _ _ Hs).
Qed.

(* ------------------------------------------------------------------ *)
(** ** Termination of [Close] *)

Definition relay_work (e : Eng) : nat :=
  let i := (2 * length (en_inbound e))%nat in
  let p := length (en_pending e) in
  match en_relay e with
  | RTop => i + 1 | RWrite _ | RBlocked _ | RChunk _ => i + 2 | RRead => 1 | RFlushSend => i + p + 2 | RFlushRead => i + p + 3
  | RFlushCheck => i + p + 4 | RPending => i + p + 5 | RDone => 0
  end%nat.
Definition hs_work (h : Hs) : nat :=
  match h with HsRunning => 5 | HsRequest _ => 4 | HsWait _ => 3 | HsStore _ => 2 | HsPublish _ => 1 | HsEnd => 0 end.
Definition close_work (e : Eng) : nat := (relay_work e + hs_work (en_hs e))%nat.

(** The two goroutines [Close] waits for. *)
Definition background_step (e e' : Eng) : Prop := relay_step e e' ∨ client_step e e'.

Lemma background_work e e' : background_step e e' → en_stop e = true → en_closed e = true →
  (close_work e' < close_work e)%nat ∧ en_stop e' = true ∧ en_closed e' = true.
Proof.
  unfold close_work, relay_work. intros [Hs|Hs] Hst Hcl; destruct Hs; cbn;
    repeat match goal with H : en_relay _ = _ |- _ => rewrite H; clear H | H : en_hs _ = _ |- _ => rewrite H; clear H
      | H : en_inbound _ = _ |- _ => rewrite H; clear H | H : en_pending _ = _ |- _ => rewrite H; clear H end;
    cbn in *; try congruence; (split; [lia|done]).
Qed.

Lemma background_progress e : en_stop e = true → en_closed e = true →
  (en_relay e = RDone ∧ en_hs e = HsEnd) ∨ ∃ e', background_step e e'.
Proof.
  intros Hst Hcl. destruct (decide (en_hs e = HsEnd)) as [Hh|Hh].
  - destruct (en_relay e) as [|rest| | | | | |c|c|] eqn:Hr; [right|right|right|right|right|right|right|right|right|by left].
    + eexists. left. by apply rl_stop.
    + eexists. left. by eapply rl_write_closed.
    + destruct (en_pending e) eqn:Hp; eexists; left; [by apply rl_pending_none|by apply rl_pending_stop; [|rewrite Hp|]].
    + destruct (en_flushReq e) eqn:Hf; eexists; left; [by apply rl_flush|by apply rl_no_flush].
    + eexists. left. by apply rl_flush_quiet.
    + destruct (en_pending e) eqn:Hp; eexists; left; [by apply rl_flush_done|by apply rl_flush_stop; [|rewrite Hp|]].
    + eexists. left. by apply rl_read_closed.
    + eexists. left. by eapply rl_send_stop.
    + eexists. left. by eapply rl_block_stop.
  - right. destruct (en_hs e) as [|err|err|err|err|] eqn:He; [..|done]; eexists; right.
    + by apply (hs_return _ (Some "io: read/write on closed pipe")); [|right].
    + by eapply hs_request.
    + by eapply hs_late.
    + by eapply hs_store.
    + by eapply hs_publish.
Qed.

(** Nothing reopens the engine. *)
Lemma stop_stays e e' : rtc engine_step e e' → en_stop e = true → en_stop e' = true.
Proof.
  induction 1 as [|e0 e1 e2 Hs _ IH]; [done|]. intros H. apply IH. by destruct Hs as [Hs|[Hs|[Hs|[Hs|[Hs|Hs]]]]]; destruct Hs.
Qed.

(* ------------------------------------------------------------------ *)
(** ** Schedules *)

(** One step of a schedule, by the rule that allows it. *)
Ltac sched_side := first [ done | reflexivity | by left | by right | unfold has_room, outboundCap, inboundCap; cbn; lia | by vm_compute; lia ].
Tactic Notation "sched" uconstr(rule) :=
  eapply rtc_l; [first [left; eapply rule | right; left; eapply rule | right; right; left; eapply rule
    | right; right; right; left; eapply rule | do 4 right; left; eapply rule | do 5 right; eapply rule]; sched_side|]; cbn.

(* ------------------------------------------------------------------ *)
(** ** Properties *)

(** The key PEAP exports. Before the tunnel is established there is none. Over
    TLS 1.3 it is the first 64 of the 128 bytes the connection exports, under RFC
    9190's label with the context byte 0x19, or under strongSwan's label without
    context. Over TLS 1.2 it is the first 64 bytes of RFC 5246's
    [P_hash(master secret, label + client random + server random)], which are two
    blocks of SHA-256 or of SHA-384. In all cases it is 64 bytes long. *)
Theorem msk_export {C : Crypto} {L : CryptoLaws} (opts : Options) (c : Connection) :
  (∃ text, ExportMSK opts false c = Err text) ∧
  (VersionTLS13 <= cs_Version c → ∀ keymat,
     (if Opt_StrongswanCompatible opts then cs_Export c (ascii_bytes "client EAP encryption") None 128
      else cs_Export c (ascii_bytes "EXPORTER_EAP_TLS_Key_Material") (Some [25]) 128) = Ok keymat →
     len keymat = 128 → ExportMSK opts true c = Ok (take 64 keymat)) ∧
  (cs_Version c < VersionTLS13 → ∀ clientRandom serverRandom sha384,
     hs_Hello c = Some clientRandom → hs_ServerHello c = Some (serverRandom, sha384) → hs_MasterSecret c ≠ [] →
     ExportMSK opts true c =
       Ok (take 64 (P_hash (if sha384 : bool then HashSHA384 else HashSHA256) (hs_MasterSecret c)
         (ascii_bytes "client EAP encryption" ++ clientRandom ++ serverRandom) 2))) ∧
  (∀ established msk, ExportMSK opts established c = Ok msk → len msk = 64 ∧ established = true).
Proof.
  split_and!.
  - by eexists.
  - intros Hv keymat Hk Hl. unfold ExportMSK. cbn [negb]. rewrite (proj2 (Z.leb_le _ _) Hv).
    destruct (Opt_StrongswanCompatible opts); unfold ExportLabelCompat, ExportLabelRFC, ExportContextPEAP;
      rewrite Hk; cbn [wrap mbind res_bind]; rewrite Hl; by apply (slice_take keymat 64); lia.
  - intros Hv cr sr sha Hh Hs Hm. unfold ExportMSK. cbn [negb]. rewrite (proj2 (Z.leb_gt _ _) Hv), Hh, Hs.
    assert (Hne : (len (hs_MasterSecret c) =? 0) = false) by (destruct (hs_MasterSecret c); [done|apply Z.eqb_neq; llia]).
    rewrite Hne, (tls12PRF_stream sha _ _ _ MSKLen 2) by (destruct sha; done). cbn [mbind res_bind].
    set (k := take _ _). assert (Hk : len k = 64) by (subst k; rewrite len_take, len_P_hash; by destruct sha).
    rewrite Hk. rewrite slice_take by (rewrite Hk; done). cbn. unfold MSKLen. f_equal.
    apply take_ge. unfold len in Hk. lia.
  - intros est msk. unfold ExportMSK. destruct est; [|done]. intros Hk. split; [|done]. revert Hk. cbn [negb].
    destruct (_ <=? _).
    + destruct (Opt_StrongswanCompatible opts); destruct (cs_Export _ _ _ _); try done; cbn; case_match; try done; apply slice_len.
    + destruct (hs_Hello c), (hs_ServerHello c) as [[]|]; try done. destruct (_ =? 0); [done|]. destruct (tls12PRF _ _ _ _ _); try done.
      cbn. case_match; [done|]. apply slice_len.
Qed.


(** [C36] [Close]. Once it has stopped the relay and closed the pipe, the relay and
    the handshake goroutine, whatever they were doing, take a bounded number of
    steps, and they can move until both are gone. The call itself never comes back
    from an engine that was launched: it waits for a group that [launch] raised by
    two and that neither goroutine lowers. *)
Theorem tls_close (e e' : Eng) (n : nat) :
  engine_reachable e → en_closed e = true → nsteps background_step n e e' →
  (n + close_work e' <= close_work e)%nat ∧
  ((∀ e'', ¬ background_step e' e'') → en_relay e' = RDone ∧ en_hs e' = HsEnd) ∧
  (∀ e'', rtc engine_step e e'' → closing (en_caller e'') = true).
Proof.
  intros Hr Hc Hn. pose proof (engine_reachable_inv _ Hr) as I. pose proof (gi_stop _ I Hc) as Hs. clear I.
  assert (H : (n + close_work e' <= close_work e)%nat ∧ en_stop e' = true ∧ en_closed e' = true).
  { clear Hr. induction Hn as [|n e0 e1 e2 H _ IH]; [done|]. destruct (background_work _ _ H Hs Hc) as (H1 & H2 & H3).
    destruct (IH H3 H2) as (H4 & H5 & H6). split; [lia|done]. }
  destruct H as (H1 & H2 & H3). split_and!; [done|..].
  - intros Hno. destruct (background_progress e' H2 H3) as [?|[e'' Hb]]; [done|]. by destruct (Hno e'').
  - intros e'' He. pose proof (engine_reachable_inv _ (transitivity Hr He)) as I.
    destruct (gi_close _ I) as [_ <-]. by apply (stop_stays _ _ He).
Qed.


(** [Close] in the middle of a handshake. *)
Lemma tls_close_witness : ∃ e e', engine_reachable e ∧ en_closed e = true ∧ nsteps background_step 1 e e' ∧
  closing (en_caller e) = true.
Proof.
  assert (H : ∃ e e', engine_reachable e ∧ en_closed e = true ∧ nsteps background_step 1 e e').
  { eexists. eexists. split; [|split].
    - unfold engine_reachable. sched (cl_write _ [22; 3]). sched ca_timer. sched ca_close. sched ca_close_pipe. apply rtc_refl.
    - done.
    - apply nsteps_once. left. by apply rl_stop. }
  destruct H as (e & e' & H1 & H2 & H3). exists e, e'. split_and!; try done.
  by apply (tls_close e e' 1 H1 H2 H3).
Defined.

(** A TLS 1.2 session. *)
Definition legacy_connection : Connection := mkConnection 771 (λ _ _ _, Err "unused") [1; 2] (Some [3]) (Some ([4], false)).

Lemma msk_export_witness : VersionTLS13 <= 772 ∧ cs_Version legacy_connection < VersionTLS13 ∧
  ExportMSK (C := xor_crypto) (mkOptions 1024 0 true true false) true legacy_connection =
  Ok (take 64 (P_hash (C := xor_crypto) HashSHA256 [1; 2] (ascii_bytes "client EAP encryption" ++ [3] ++ [4]) 2)).
Proof.
  split_and!; [done..|].
  by apply (proj1 (proj2 (proj2 (msk_export (C := xor_crypto) (L := xor_crypto_laws) (mkOptions 1024 0 true true false) legacy_connection))) eq_refl [3] [4] false).
Defined.

(* ------------------------------------------------------------------ *)
(** ** A full queue *)

(** The engine with [k] chunks queued and nobody collecting. *)
Definition queued (k : nat) : Eng :=
  launch <| en_caller := CIdle |> <| en_result := Some ([], false, false, None) |> <| en_outbound := replicate k [1] |>
    <| en_chunks := replicate k [1] |> <| en_produced := concat (replicate k [1]) |>.

Lemma queued_reachable k : (k <= outboundCap)%nat → engine_reachable (queued k).
Proof.
  induction k as [|k IH]; intros Hk.
  - unfold engine_reachable. sched ca_timer. apply rtc_refl.
  - eapply (transitivity (R := rtc engine_step)); [apply IH; lia|]. unfold queued.
    assert (Hr : [1] :: replicate k [1] = replicate k [1] ++ [[1]]) by apply (replicate_S_end k).
    assert (Hc : 1 :: concat (replicate k [1]) = concat (replicate k [1]) ++ [1]).
    { change (concat ([1] :: replicate k [1]) = concat (replicate k [1]) ++ [1]). by rewrite Hr, concat_app. }
    sched (cl_write _ [1]). sched rl_nothing. sched rl_pending_none. sched rl_no_flush. sched (rl_chunk _ [1] []).
    eapply rtc_l; [left; eapply rl_send; [done|unfold has_room; cbn; rewrite length_replicate; lia]|]. cbn.
    rewrite Hr, Hc. apply rtc_refl.
Qed.

(** The order of the chunks is lost when the queue overflows: the chunk that finds
    it full is parked, and a chunk read while the caller makes room goes first. *)
Theorem parked_chunk_overtaken : ∃ e, engine_reachable e ∧ en_stop e = false ∧
  en_chunks e = replicate 32 [1] ++ [[2]; [3]] ∧
  en_taken e ++ en_outbound e ++ relay_chunk (en_relay e) ++ en_pending e = replicate 32 [1] ++ [[3]; [2]].
Proof.
  eexists. split; [|split].
  - eapply (transitivity (R := rtc engine_step)); [apply (queued_reachable 32); unfold outboundCap; lia|]. unfold queued. cbn.
    sched (cl_write _ [2]). sched rl_nothing. sched rl_pending_none. sched rl_no_flush. sched (rl_chunk _ [2] []).
    sched rl_park. sched (cl_write _ [3]). sched rl_nothing. sched rl_pending_full. sched (ca_feed _ [9]). sched ca_chunk.
    sched (rl_chunk _ [3] []). sched rl_send. apply rtc_refl.
  - done.
  - by split.
Qed.
