(* ===== verification/PublicConfig.v ===== *)
(** * The public configuration (src/config.go, src/options.go, src/errors.go)

    The configuration a caller fills, its validation, the options, how
    [NewSession] decomposes it for the control layer (src/session.go), and the
    formatting of the public error. *)

From S2P Require Import Prelude Suite Payload Eap State Mschap Handshake ClassifyID.

(* ------------------------------------------------------------------ *)
(** ** config.go *)

Record QueueSizes := mkQueueSizes { Q_Rx : Z; Q_Ctl : Z; Q_Esp : Z; Q_Data : Z; Q_Events : Z }.

(** [Config]; text is bytes, a nil PeerIP is [None]. [Timeouts], [Lifetime] and
    [RekeyConfig] have the fields of the control layer's; the float
    [NearWrapThreshold] is not represented. *)
Record PublicConfig := mkPublicConfig {
  PC_PeerIP : option (list Z);
  PC_LocalIP : list Z;
  PC_IKEProposals : list Suite.Proposal;
  PC_ESPProposals : list Suite.Proposal;
  PC_IDI : list Z;
  PC_RightID : list Z;
  PC_AAAIdentity : list Z;
  PC_EAP : EapConfig;
  PC_InsecureSkipPeerCertVerify : bool;
  PC_Queue : QueueSizes;
  PC_Timeouts : Timeouts;
  PC_Rekey : RekeyConfig }.
#[global] Instance eta_PublicConfig : Eta PublicConfig := λ c,
  mkPublicConfig (PC_PeerIP c) (PC_LocalIP c) (PC_IKEProposals c) (PC_ESPProposals c) (PC_IDI c) (PC_RightID c)
    (PC_AAAIdentity c) (PC_EAP c) (PC_InsecureSkipPeerCertVerify c) (PC_Queue c) (PC_Timeouts c) (PC_Rekey c).

Definition second : Z := 1000000000.

Definition DefaultConfig (peerIP : list Z) : PublicConfig :=
  mkPublicConfig (match peerIP with [] => None | _ => Some peerIP end) [] [] [] [] [] []
    (mkEapConfig "peap" [] [] [] 1024 32 false false false) false (mkQueueSizes 128 128 128 128 128)
    (mkTimeouts second (8 * second) 5 (20 * second) (15 * second))
    (mkRekeyConfig (mkLifetime (4 * 3600 * second) 0 0) (mkLifetime (3600 * second) 0 0) true 0 (30 * second)).

Definition ParseStrongswanProposals (ikeSpec espSpec : string) : res (list Suite.Proposal * list Suite.Proposal) :=
  ikePs ← (if bool_decide (ikeSpec = ""%string) then Ok [] else wrap "swan: parse ike proposals: " (ParseProposals ikeSpec));
  espPs ← (if bool_decide (espSpec = ""%string) then Ok [] else wrap "swan: parse esp proposals: " (ParseProposals espSpec));
  Ok (ikePs, espPs).

(** The checks of [Validate] on durations and rekey policy. *)
Definition validate_timing (c : PublicConfig) : res unit :=
  let t := PC_Timeouts c in
  let r := PC_Rekey c in
  if (InitialRTO t <=? 0) || (MaxRTO t <=? 0) then Err "swan: timeouts must be > 0"
  else if MaxRTO t <? InitialRTO t then Err "swan: MaxRTO must be >= InitialRTO"
  else if MaxRetries t =? 0 then Err "swan: MaxRetries must be > 0"
  else if Keepalive t <=? 0 then Err "swan: Keepalive must be > 0"
  else if Cfg_SkfReassemblyTimeout t <=? 0 then Err "swan: SkfReassemblyTimeout must be > 0"
  else if Life_Time (Rekey_IKE r) <=? 0 then Err "swan: Rekey.IKE.Time must be > 0"
  else if Life_Time (Rekey_Child r) <=? 0 then Err "swan: Rekey.Child.Time must be > 0"
  else if (0 <? RandTime r) && (Life_Time (Rekey_IKE r) <? RandTime r) then Err "swan: Rekey.RandTime must be <= Rekey.IKE.Time"
  else if (0 <? RandTime r) && (Life_Time (Rekey_Child r) <? RandTime r) then Err "swan: Rekey.RandTime must be <= Rekey.Child.Time"
  else if RetryInterval r <=? 0 then Err "swan: Rekey.RetryInterval must be > 0"
  else if ChildPFS r && negb (existsb (λ esp, 0 <? len (DHs esp)) (PC_ESPProposals c)) then
    Err "swan: ChildPFS requires at least one ESP proposal with a DH group"
  else Ok tt.

Definition empty (s : list Z) : bool := bool_decide (s = []).

Definition Validate (c : PublicConfig) : res unit :=
  let e := PC_EAP c in
  let q := PC_Queue c in
  if bool_decide (PC_PeerIP c = None) then Err "swan: PeerIP is required"
  else if len (PC_IKEProposals c) =? 0 then Err "swan: IKEProposals are required"
  else if len (PC_ESPProposals c) =? 0 then Err "swan: ESPProposals are required"
  else if empty (PC_IDI c) then Err "swan: IDI is required"
  else if empty (EapIdentity e) then Err "swan: EAP.Identity is required"
  else if empty (EapPassword e) then Err "swan: EAP.Password is required"
  else if bool_decide (EapMethodName e = "peap"%string) && empty (PC_AAAIdentity c) && empty (EapServerName e) then
    Err "swan: AAAIdentity (or EAP.ServerName) is required for peap"
  else if (Q_Rx q <=? 0) || (Q_Ctl q <=? 0) || (Q_Esp q <=? 0) || (Q_Data q <=? 0) || (Q_Events q <=? 0) then
    Err "swan: queue sizes must be > 0"
  else validate_timing c.

(* ------------------------------------------------------------------ *)
(** ** options.go *)

Inductive Option := WithLogger | WithQueueSizes (q : QueueSizes) | WithTimeouts (t : Timeouts).
Record options := mkOptions { opt_queueSizes : option QueueSizes; opt_timeouts : option Timeouts }.

(** The options in order; a nil option is skipped. *)
Definition apply_option (o : options) (opt : option Option) : options :=
  match opt with
  | None | Some WithLogger => o
  | Some (WithQueueSizes q) => mkOptions (Some q) (opt_timeouts o)
  | Some (WithTimeouts t) => mkOptions (opt_queueSizes o) (Some t)
  end.
Definition apply_options (opts : list (option Option)) : options := foldl apply_option (mkOptions None None) opts.

(* ------------------------------------------------------------------ *)
(** ** session.go: NewSession *)

Definition firstNonEmpty (a b : list Z) : list Z := if empty a then b else a.

(** Text as the control layer keeps it. *)
Definition text (s : list Z) : string := String.string_of_list_ascii (Ascii.ascii_of_N ∘ Z.to_N <$> s).

Definition controlConfig (c : PublicConfig) (idi rightID : ID) : Config :=
  let e := PC_EAP c in
  let server := if empty (EapServerName e) && negb (empty (PC_AAAIdentity c)) then PC_AAAIdentity c else EapServerName e in
  let insecure := if PC_InsecureSkipPeerCertVerify c then true else InsecureSkipVerify e in
  let e := mkEapConfig (EapMethodName e) (EapIdentity e) (EapPassword e) server (FragmentSize e) (MaxMessageCount e)
             (IncludeLength e) (EapStrongswanCompatible e) insecure in
  mkConfig (default [] (PC_PeerIP c)) (PC_LocalIP c) (PC_IKEProposals c) (PC_ESPProposals c) idi rightID
    (text (firstNonEmpty (PC_AAAIdentity c) server)) e (PC_InsecureSkipPeerCertVerify c) (EapStrongswanCompatible e)
    (PC_Rekey c) (PC_Timeouts c) 1024 true.

(** [ID{}] *)
Definition no_id : ID := mkID 0 [].

(** The responder identity: the wildcards mean none. *)
Definition right_id (right : list Z) : res ID :=
  let right := if bool_decide (right = ascii_bytes "%any") || bool_decide (right = ascii_bytes "*") then [] else right in
  if empty right then Ok no_id else wrap "swan: classify RightID %q: " (ClassifyID right).

(** [NewSession]: the public and the control configuration it keeps and the
    control state. *)
Definition NewSession (wire : bool) (cfg : option PublicConfig) (opts : list (option Option)) :
    res (PublicConfig * Config * State) :=
  if negb wire then Err "swan: nil wire"
  else match cfg with
  | None => Err "swan: nil config"
  | Some c =>
      let o := apply_options opts in
      let c := match opt_queueSizes o with Some q => c <| PC_Queue := q |> | None => c end in
      let c := match opt_timeouts o with Some t => c <| PC_Timeouts := t |> | None => c end in
      _ ← Validate c;
      idi ← wrap "swan: classify IDI %q: " (ClassifyID (PC_IDI c));
      rightID ← right_id (PC_RightID c);
      '(ctrl, st) ← control_New (Some (controlConfig c idi rightID));
      Ok (c, ctrl, st)
  end.

(* ------------------------------------------------------------------ *)
(** ** errors.go *)

Inductive ErrorKind := ErrorDecode | ErrorProtocol | ErrorNegotiation | ErrorAuth | ErrorPeerIdentity | ErrorClosed
  | ErrorOther (k : Z).
Definition ErrorKind_String (k : ErrorKind) : list Z :=
  ascii_bytes match k with
  | ErrorDecode => "decode" | ErrorProtocol => "protocol" | ErrorNegotiation => "negotiation" | ErrorAuth => "auth"
  | ErrorPeerIdentity => "peer_identity" | ErrorClosed => "closed" | ErrorOther _ => "unknown"
  end%string.

(** The digits of [n], written from the end of a buffer with [room] free bytes
    before [acc]. *)
Fixpoint itoa_digits (room : nat) (n : Z) (acc : list Z) : res (nat * list Z) :=
  if 0 <? n then
    match room with
    | O => Panic
    | S room => itoa_digits room (n / 10) (u8 (48 + n mod 10) :: acc)
    end
  else Ok (room, acc).

Definition itoa (n : Z) : res (list Z) :=
  if n =? 0 then Ok [48]
  else
  let neg := n <? 0 in
  let n := if neg then i64 (- n) else n in
  '(room, acc) ← itoa_digits 20 n [];
  if neg then match room with O => Panic | S _ => Ok (45 :: acc) end else Ok acc.

Record Error := mkError { Error_Kind : ErrorKind; Error_Op : list Z; Error_Section : list Z; Error_Offset : Z; Error_Err : option (list Z) }.

Definition Error_Error (e : option Error) : res (list Z) :=
  match e with
  | None => Ok (ascii_bytes "<nil>")
  | Some e =>
      let sep := ascii_bytes ": " in
      let b := ErrorKind_String (Error_Kind e) in
      let b := if empty (Error_Op e) then b else b ++ sep ++ Error_Op e in
      b ← (if empty (Error_Section e) then Ok b
           else let b := b ++ sep ++ Error_Section e in
                if 0 <=? Error_Offset e then n ← itoa (Error_Offset e); Ok (b ++ ascii_bytes "@" ++ n) else Ok b);
      Ok (match Error_Err e with Some t => b ++ sep ++ t | None => b end)
  end.

(* ------------------------------------------------------------------ *)
(** ** Lemmas *)

(** Every check of a chain of [if]s that returned [Ok] was passed. *)
Ltac passed H := repeat match type of H with (if ?b then Err _ else _) = Ok _ => let E := fresh "G" in destruct b eqn:E; [discriminate H|] end.

Record timing_ok (c : PublicConfig) : Prop := {
  to_timeouts : 0 < InitialRTO (PC_Timeouts c) ∧ InitialRTO (PC_Timeouts c) <= MaxRTO (PC_Timeouts c) ∧
    MaxRetries (PC_Timeouts c) ≠ 0 ∧ 0 < Keepalive (PC_Timeouts c) ∧ 0 < Cfg_SkfReassemblyTimeout (PC_Timeouts c);
  to_rekey : 0 < Life_Time (Rekey_IKE (PC_Rekey c)) ∧ 0 < Life_Time (Rekey_Child (PC_Rekey c)) ∧ 0 < RetryInterval (PC_Rekey c);
  to_rand : RandTime (PC_Rekey c) <= Z.max 0 (Z.min (Life_Time (Rekey_IKE (PC_Rekey c))) (Life_Time (Rekey_Child (PC_Rekey c))));
  to_pfs : ChildPFS (PC_Rekey c) && negb (existsb (λ esp, 0 <? len (DHs esp)) (PC_ESPProposals c)) = false }.

Lemma validate_timing_inv c : validate_timing c = Ok tt → timing_ok c.
Proof. unfold validate_timing. intros H. cbv zeta in H. passed H. constructor; [lia..|done]. Qed.

Lemma Validate_inv c : Validate c = Ok tt → timing_ok c ∧ PC_PeerIP c ≠ None ∧ PC_IKEProposals c ≠ [] ∧ PC_ESPProposals c ≠ [] ∧
  (EapMethodName (PC_EAP c) = "peap"%string → PC_AAAIdentity c ≠ [] ∨ EapServerName (PC_EAP c) ≠ []).
Proof.
  unfold Validate. intros H. cbv zeta in H. passed H. apply validate_timing_inv in H. split; [done|].
  apply bool_decide_eq_false in G. split; [done|]. split; [by intros E; rewrite E in G0|].
  split; [by intros E; rewrite E in G1|]. intros Hp. unfold empty in G5. rewrite Hp in G5.
  rewrite bool_decide_true in G5 by done. cbn [andb] in G5.
  apply andb_false_iff in G5 as [G5|G5]; apply bool_decide_eq_false in G5; auto.
Qed.

(** A validated configuration needs none of the control layer's defaults. *)
Lemma normalize_validated c idi right : timing_ok c →
  normalizeConfig (controlConfig c idi right) = controlConfig c idi right.
Proof.
  intros [(T1 & T2 & T3 & T4 & T5) (R1 & R2 & R3) Hr _]. unfold normalizeConfig, controlConfig. cbv zeta. cbn -[Z.max Z.min].
  destruct (PC_Rekey c) as [[it ib ip] [ct cb cp] pfs rand ri], (PC_Timeouts c) as [rto mrto mr ka skf]. cbn -[Z.max Z.min] in *.
  replace (it <=? 0) with false by lia. replace (ct <=? 0) with false by lia. replace (ri <=? 0) with false by lia.
  replace (rto <=? 0) with false by lia. replace (mrto <=? 0) with false by lia. replace (mr =? 0) with false by lia.
  replace (skf <=? 0) with false by lia.
  assert (E : (if (0 <? rand) && (it <? rand) then it else rand) = rand) by (destruct (_ && _) eqn:E; lia).
  rewrite E. clear E. assert (E' : (if (0 <? rand) && (ct <? rand) then ct else rand) = rand) by (destruct (_ && _) eqn:E'; lia).
  by rewrite E'.
Qed.

Lemma text_nil s : text s = ""%string → s = [].
Proof. by destruct s. Qed.

Lemma control_accepts c idi right : Validate c = Ok tt → ID_Data idi ≠ [] →
  control_New (Some (controlConfig c idi right)) = Ok (controlConfig c idi right, NewState).
Proof.
  intros (Ht & _ & Hike & Hesp & Hpeap)%Validate_inv Hid. unfold control_New. rewrite normalize_validated by done.
  assert (E : Config_Validate (controlConfig c idi right) = Ok tt); [|by rewrite E].
  destruct Ht as [(T1 & T2 & T3 & T4 & T5) (R1 & R2 & R3) _ Hpfs]. unfold Config_Validate. cbv zeta.
  cbn [Cfg_IKE Cfg_ESP IDI Cfg_Timeouts Cfg_Rekey Cfg_FragmentPlaintextLimit controlConfig].
  assert (Hn : ∀ {A} (l : list A), l ≠ [] → (len l =? 0) = false).
  { intros A [|x l] Hl; [done|]. rewrite len_cons. pose proof (len_nonneg l). lia. }
  rewrite (Hn _ _ Hike), (Hn _ _ Hesp), (Hn _ _ Hid).
  replace (InitialRTO _ <=? 0) with false by lia. replace (MaxRTO _ <=? 0) with false by lia.
  replace (MaxRetries _ =? 0) with false by lia. replace (Keepalive _ <=? 0) with false by lia.
  replace (Cfg_SkfReassemblyTimeout _ <=? 0) with false by lia. replace (Life_Time (Rekey_IKE _) <=? 0) with false by lia.
  replace (Life_Time (Rekey_Child _) <=? 0) with false by lia. replace (RetryInterval _ <=? 0) with false by lia.
  rewrite Hpfs. cbn [Z.leb Z.compare].
  replace (bool_decide _ && bool_decide _) with false; [done|]. symmetry. apply andb_false_iff.
  cbn [Cfg_EAP EapMethodName AAAIdentity]. destruct (decide (EapMethodName (PC_EAP c) = "peap"%string)) as [Hp|Hp]; [right|left; by apply bool_decide_false].
  apply bool_decide_false. intros Hx%text_nil. unfold firstNonEmpty, empty in Hx. destruct (Hpeap Hp) as [Ha|Hs];
    destruct (PC_AAAIdentity c), (EapServerName (PC_EAP c)); done.
Qed.

(** A session that passes the public checks is never refused by the control
    layer, and gets what was asked for. When the wire and the configuration are
    there, the configuration with the options applied validates and its
    identities can be classified, [NewSession] succeeds; the control layer keeps
    the decomposed configuration as it is (none of its defaults replaces a value
    of the caller) and starts from the initial state. *)
Theorem new_session_accepts (c : PublicConfig) (opts : list (option Option)) (idi right : ID) :
  let o := apply_options opts in
  let c' := c <| PC_Queue := default (PC_Queue c) (opt_queueSizes o) |>
              <| PC_Timeouts := default (PC_Timeouts c) (opt_timeouts o) |> in
  Validate c' = Ok tt → ClassifyID (PC_IDI c') = Ok idi → right_id (PC_RightID c') = Ok right →
  NewSession true (Some c) opts = Ok (c', controlConfig c' idi right, NewState).
Proof.
  cbv zeta. intros Hv Hi Hr. unfold NewSession. cbv zeta.
  set (c' := c <| PC_Queue := _ |> <| PC_Timeouts := _ |>) in *.
  assert (E : match opt_timeouts (apply_options opts) with
    | Some t => (match opt_queueSizes (apply_options opts) with Some q => c <| PC_Queue := q |> | None => c end) <| PC_Timeouts := t |>
    | None => match opt_queueSizes (apply_options opts) with Some q => c <| PC_Queue := q |> | None => c end end = c').
  { unfold c'. by destruct c, (apply_options opts) as [[q|] [t|]]. }
  cbn [negb]. rewrite E, Hv. unfold mbind, res_bind. rewrite Hi. cbn [wrap]. rewrite Hr.
  by rewrite control_accepts; [|done|apply (iw_data _ (ClassifyID_wf _ _ Hi))].
Qed.

(** The value of a decimal text with an optional sign. *)
Definition atoi (s : list Z) : Z := match s with 45 :: ds => - decimal ds | _ => decimal s end.

Lemma decimal_snoc ds d : decimal (ds ++ [d]) = decimal ds * 10 + (d - 48).
Proof. unfold decimal. by rewrite foldl_app. Qed.

Lemma itoa_digits_spec spare room : ∀ n acc, 0 <= n < 10 ^ Z.of_nat room →
  ∃ ds room', itoa_digits (room + spare) n acc = Ok (room', ds ++ acc) ∧ Forall (λ c, isDigit c = true) ds ∧ decimal ds = n ∧
    (length ds + room' = room + spare)%nat ∧ (length ds <= room)%nat.
Proof.
  induction room as [|room IH]; intros n acc Hn.
  { assert (n = 0) as -> by (cbn in Hn; lia). exists [], spare. by destruct spare. }
  cbn [Nat.add itoa_digits]; destruct (Z.ltb_spec 0 n) as [Hp|Hp].
  - destruct (IH (n / 10) (u8 (48 + n mod 10) :: acc)) as (ds & room' & E & Hf & Hd & Hl & Hr).
    { rewrite Nat2Z.inj_succ, Z.pow_succ_r in Hn by lia. split; [apply Z.div_pos; lia|apply Z.div_lt_upper_bound; lia]. }
    pose proof (Z.mod_pos_bound n 10 ltac:(lia)) as Hm. assert (Hu : u8 (48 + n mod 10) = 48 + n mod 10) by (apply Z.mod_small; lia).
    exists (ds ++ [48 + n mod 10]), room'. rewrite E, Hu, <- app_assoc. split; [done|]. split_and!.
    + apply Forall_app. split; [done|]. constructor; [|done]. unfold isDigit, between. lia.
    + rewrite decimal_snoc, Hd. pose proof (Z.div_mod n 10). lia.
    + rewrite length_app. cbn. lia.
    + rewrite length_app. cbn. lia.
  - exists [], (S (room + spare)). split; [done|]. split; [done|]. split; [cbn; lia|]. cbn. lia.
Qed.

(** A signed text reads back as the number. *)
Lemma atoi_digits ds : Forall (λ c, isDigit c = true) ds → atoi ds = decimal ds.
Proof. intros [|c ds' Hc _]; [done|]. unfold atoi. unfold isDigit, between in Hc. destruct c as [|p|p]; try lia. repeat (destruct p; try done). Qed.

(** Numbers in error texts. For every int but the least one the text fits the
    20-byte buffer (no index panic) and reads back as the number; the least int
    has no negation and is printed as a lone sign. *)
Theorem itoa_roundtrip (n : Z) : - 2 ^ 63 <= n < 2 ^ 63 →
  ∃ s, itoa n = Ok s ∧ (length s <= 20)%nat ∧ (if bool_decide (n = - 2 ^ 63) then s = [45] else atoi s = n).
Proof.
  intros Hn. unfold itoa. destruct (Z.eqb_spec n 0) as [->|Hz]; [by exists [48]; cbn; split; [|split; [lia|]]|].
  destruct (decide (n = - 2 ^ 63)) as [->|Hm].
  { exists [45]. split; [vm_compute; reflexivity|]. split; [cbn; lia|]. by rewrite bool_decide_true. }
  rewrite bool_decide_false by done. destruct (Z.ltb_spec n 0) as [Hneg|Hneg].
  - assert (Hi : i64 (- n) = - n) by (unfold i64; rewrite Z.mod_small by lia; lia).
    rewrite Hi. destruct (itoa_digits_spec 1 19 (- n) []) as (ds & room' & E & Hf & Hd & Hl & Hr); [lia|].
    change (19 + 1)%nat with 20%nat in E, Hl. rewrite E, app_nil_r. destruct room' as [|room']; [lia|].
    exists (45 :: ds). split; [done|]. split; [cbn; lia|]. cbn. lia.
  - destruct (itoa_digits_spec 1 19 n []) as (ds & room' & E & Hf & Hd & Hl & Hr); [lia|].
    change (19 + 1)%nat with 20%nat in E, Hl. rewrite E, app_nil_r.
    exists ds. split; [done|]. split; [lia|]. by rewrite atoi_digits.
Qed.

(* ------------------------------------------------------------------ *)
(** ** Witnesses *)

Definition demo_proposals : list Suite.Proposal * list Suite.Proposal :=
  match ParseStrongswanProposals "aes256-sha256-prfsha256-curve25519" "aes256-sha256-curve25519" with Ok p => p | _ => ([], []) end.
Definition demo_public : PublicConfig :=
  DefaultConfig [192; 0; 2; 1] <| PC_IKEProposals := demo_proposals.1 |> <| PC_ESPProposals := demo_proposals.2 |>
    <| PC_IDI := ascii_bytes "user@example.org" |> <| PC_RightID := ascii_bytes "%any" |>
    <| PC_EAP := mkEapConfig "peap" (ascii_bytes "user") (ascii_bytes "secret") (ascii_bytes "radius") 1024 32 false false false |>.

Lemma new_session_accepts_witness :
  let opts := [None; Some (WithTimeouts (mkTimeouts 1 2 3 4 5))] in
  let c' := demo_public <| PC_Timeouts := mkTimeouts 1 2 3 4 5 |> in
  NewSession true (Some demo_public) opts = Ok (c', controlConfig c' (mkID 3 (ascii_bytes "user@example.org")) no_id, NewState).
Proof.
  cbv zeta. apply (new_session_accepts demo_public [None; Some (WithTimeouts (mkTimeouts 1 2 3 4 5))]); vm_compute; reflexivity.
Defined.

Lemma itoa_roundtrip_witness : ∃ s, itoa (-4500) = Ok s ∧ (length s <= 20)%nat ∧ atoi s = -4500.
Proof. apply (itoa_roundtrip (-4500)). lia. Defined.
