(* ===== verification/Session.v ===== *)
(** * The session (src/session.go)

    What the session adds around the layers: which key halves a CHILD_SA gives
    to each direction of the data plane, how control-plane updates reach the
    pipeline and the tunnel, and the lifecycle of [Start], [Stop] and the
    goroutines that watch the layers, as a step relation over their
    interleavings. *)

From stdpp Require Import relations.
From S2P Require Import Prelude Suite Crypto Cipher Replay Keying Esp State Handshake Rekey Running Tunnel PublicConfig.

(* ------------------------------------------------------------------ *)
(** ** Key halves of a CHILD_SA *)

(** The session's view of the keys: its own role first. *)
Definition own_keys (child : ChildSA) (keys : ChildKeys) : ChildKeys :=
  if LocalChildInitiator child
  then mkChildKeys (Child_SKei keys) (Child_SKai keys) (Child_SKer keys) (Child_SKar keys)
  else mkChildKeys (Child_SKer keys) (Child_SKar keys) (Child_SKei keys) (Child_SKai keys).

Definition childInboundConfig (child : ChildSA) (sel : option Selection) (keys : ChildKeys) : InboundConfig :=
  mkInboundConfig (InboundSPI child) sel (Some (own_keys child keys)).

(** [warnAt] is [uint32(float64(^uint32(0)) * threshold)]. *)
Definition childOutboundConfig (c : PublicConfig) (warnAt : Z) (child : ChildSA) (sel : option Selection) (keys : ChildKeys) :
    OutboundConfig :=
  mkOutboundConfig (OutboundSPI child) sel (Some (own_keys child keys)) (if warnAt =? 0 then 1 else warnAt) true
    (mkFlowLimit (Life_Bytes (Rekey_Child (PC_Rekey c))) (Life_Packets (Rekey_Child (PC_Rekey c)))).

(* ------------------------------------------------------------------ *)
(** ** Control-plane updates *)

(** What [watchControlUpdates] works on, with what it did: the acknowledgements
    and the snapshots it announced. *)
Record DataPlane := mkDataPlane {
  dp_tunnel : Tunnel;
  dp_pipeline : Pipeline;
  dp_acks : Z;
  dp_announced : list AssignedConfig }.
#[global] Instance eta_DataPlane : Eta DataPlane := λ d,
  mkDataPlane (dp_tunnel d) (dp_pipeline d) (dp_acks d) (dp_announced d).

Section Updates.
Context (c : PublicConfig) (warnAt : Z).

Definition currentChild (d : DataPlane) : ChildSA := tunnel_ChildSA (dp_tunnel d).

(** The codecs of a child; both constructors keep a failure inside. *)
Definition child_codecs (child : ChildSA) (sel : option Selection) (keys : ChildKeys) : res (Inbound * Outbound) :=
  i ← NewInbound (childInboundConfig child sel keys);
  o ← NewOutbound (childOutboundConfig c warnAt child sel keys);
  Ok (i, o).

(** One update of [watchControlUpdates]. *)
Definition apply_update (u : DataplaneUpdate) (d : DataPlane) : res DataPlane :=
  match u with
  | UpdateChildInstalled child keys sel =>
      let old := InboundSPI (currentChild d) in
      '(i, o) ← child_codecs child (Some sel) keys;
      Ok (d <| dp_pipeline := ReplaceChild (dp_pipeline d) (Some i) (Some o) old |>
            <| dp_tunnel := setChildSA child (dp_tunnel d) |> <| dp_acks := dp_acks d + 1 |>)
  | UpdateChildDeleted child =>
      if OutboundSPI (currentChild d) =? OutboundSPI child
      then Ok (d <| dp_tunnel := markEnded (dp_tunnel d) |>)
      else Ok (d <| dp_pipeline := DropInboundSPI (dp_pipeline d) (InboundSPI child) |>)
  | UpdateAssigned a =>
      Ok (d <| dp_tunnel := setAssigned a (dp_tunnel d) |> <| dp_announced := dp_announced d ++ [a] |>)
  end.

Fixpoint apply_updates (us : list DataplaneUpdate) (d : DataPlane) : res DataPlane :=
  match us with [] => Ok d | u :: us => d ← apply_update u d; apply_updates us d end.

(** The data plane [Start] commits for the established child. *)
Definition start_dataplane (est : Established) (cap : nat) : res DataPlane :=
  '(i, o) ← child_codecs (Est_Child est) (Some (Est_Selection est)) (Est_ChildKeys est);
  Ok (mkDataPlane (setChildSA (Est_Child est) (setAssigned (Est_Assigned est) (new_tunnel cap)))
        (NewPipeline (Some i) (Some o)) 0 []).
End Updates.

(* ------------------------------------------------------------------ *)
(** ** Both ends of a CHILD_SA *)

(** The peer's record of the same CHILD_SA. *)
Definition mirrored (a b : ChildSA) : Prop :=
  InboundSPI b = OutboundSPI a ∧ OutboundSPI b = InboundSPI a ∧ LocalChildInitiator b = negb (LocalChildInitiator a).

(** Keys as the key derivation cuts them for a suite. *)
Record keys_fit (enc : EncryptionAlg) (ig : Integrity) (keys : ChildKeys) : Prop := {
  kf_ei : len (Child_SKei keys) = Enc_KeyLen enc; kf_er : len (Child_SKer keys) = Enc_KeyLen enc;
  kf_ai : len (Child_SKai keys) = Integ_KeyLen ig; kf_ar : len (Child_SKar keys) = Integ_KeyLen ig;
  kf_bytes : bytes (Child_SKei keys) ∧ bytes (Child_SKer keys) }.

Lemma own_keys_fit enc ig keys child : keys_fit enc ig keys → keys_fit enc ig (own_keys child keys).
Proof. intros [H1 H2 H3 H4 [H5 H6]]. unfold own_keys. by destruct (LocalChildInitiator child). Qed.

Lemma own_keys_mirrored a b keys : mirrored a b →
  Child_SKer (own_keys b keys) = Child_SKei (own_keys a keys) ∧ Child_SKar (own_keys b keys) = Child_SKai (own_keys a keys).
Proof. intros (_ & _ & E). unfold own_keys. rewrite E. by destruct (LocalChildInitiator a). Qed.

Lemma child_codecs_ok c warnAt child sel keys enc ig : negotiated sel enc ig → keys_fit enc ig keys →
  ∃ i o, child_codecs c warnAt child sel keys = Ok (i, o) ∧ codec_spi i = InboundSPI child ∧ Out_SPI (o_cfg o) = OutboundSPI child ∧
    NewInbound (childInboundConfig child sel keys) = Ok i ∧ NewOutbound (childOutboundConfig c warnAt child sel keys) = Ok o.
Proof.
  intros Hn Hk%(own_keys_fit _ _ _ child). destruct Hk as [H1 H2 H3 H4 _]. unfold child_codecs.
  destruct (NewInbound_ok (C := xor_crypto) (childInboundConfig child sel keys) enc ig _ Hn eq_refl H2 H4) as (i & Ei & Hi & _).
  destruct (NewOutbound_ok (C := xor_crypto) (childOutboundConfig c warnAt child sel keys) enc ig _ Hn eq_refl H1 H3) as (o & Eo & Ho & _ & _).
  exists i, o. rewrite Ei, Eo. split; [done|]. split_and!; [|..|done|done].
  - unfold NewInbound in Ei. destruct (prepareInbound _) as [[]| | |]; by simplify_eq.
  - unfold NewOutbound in Eo. destruct (prepareOutbound _) as [[]| | |]; by simplify_eq.
Qed.

(** The two ends of a CHILD_SA understand each other. When two sessions hold
    mirrored records of a child (the one's inbound SPI is the other's outbound
    SPI, exactly one of them initiated the child) with the same suite and keys,
    the codecs each installs fit: whatever packets one sends, in either role,
    the other's inbound codec delivers each of them once, under reordering, loss
    and duplication, as the replay specification says. *)
Theorem session_children_agree {C : Crypto} {L : CryptoLaws} (ca cb : PublicConfig) (wa wb : Z) (a b : ChildSA)
    (sel : option Selection) (enc : EncryptionAlg) (ig : Integrity) (keys : ChildKeys)
    (sends : list ((Z → res (list Z)) * list Z)) (order : list nat) :
  mirrored a b → negotiated sel enc ig → keys_fit enc ig keys → 0 <= OutboundSPI a < 2 ^ 32 →
  Forall (λ s, valid_send enc s.1 s.2) sends → len sends < 2 ^ 32 → Forall (λ k, (k < length sends)%nat) order →
  ∃ ia oa ib ob ds, child_codecs ca wa a sel keys = Ok (ia, oa) ∧ child_codecs cb wb b sel keys = Ok (ib, ob) ∧
    (send_all oa sends).2 = Ok <$> ds ∧ length ds = length sends ∧
    (receive_all ib ((λ k, ds !!! k) <$> order)).2 =
      zip_with delivery ((λ k, (snd <$> sends) !!! k) <$> order) (spec_all ∅ ((λ k, Z.of_nat k + 1) <$> order)).2.
Proof.
  intros Hm Hn Hk Hspi Hv Hlen Hord. pose proof (own_keys_fit _ _ _ a Hk) as [K1 _ K3 _ [K5 _]].
  destruct (child_codecs_ok ca wa a sel keys enc ig Hn Hk) as (ia & oa & Ea & _ & _ & _ & Eoa).
  destruct (child_codecs_ok cb wb b sel keys enc ig Hn Hk) as (ib & ob & Eb & _ & _ & Eib & _).
  destruct (own_keys_mirrored a b keys Hm) as [M1 M2]. destruct Hm as (Hs & _ & _).
  destruct (esp_delivers (childOutboundConfig ca wa a sel keys) (childInboundConfig b sel keys) enc ig
    (own_keys a keys) (own_keys b keys) sends order) as (o & i & ds & Eo & Ei & Hd); try done.
  exists ia, oa, ib, ob, ds. split; [done|]. split; [done|]. rewrite Eo in Eoa. rewrite Ei in Eib. by simplify_eq.
Qed.

(* ------------------------------------------------------------------ *)
(** ** The data plane follows the control plane *)

(** The pipeline serves the child the tunnel shows. *)
Record dp_inv (d : DataPlane) : Prop := {
  di_inbound : ∃ table i, pl_inbound (dp_pipeline d) = Some table ∧ table !! InboundSPI (currentChild d) = Some i ∧
    codec_spi i = InboundSPI (currentChild d);
  di_outbound : ∃ o, pl_outbound (dp_pipeline d) = Some o ∧ Out_SPI (o_cfg o) = OutboundSPI (currentChild d) }.

(** An update the control plane sends: an installed child has the keys of its
    suite, and a deleted one that is not the current one has an inbound SPI of
    its own. *)
Definition update_ok (current : ChildSA) (u : DataplaneUpdate) : Prop :=
  match u with
  | UpdateChildInstalled child keys sel => ∃ enc ig, negotiated (Some sel) enc ig ∧ keys_fit enc ig keys
  | UpdateChildDeleted child => OutboundSPI child = OutboundSPI current ∨ InboundSPI child ≠ InboundSPI current
  | UpdateAssigned _ => True
  end.
Definition next_child (current : ChildSA) (u : DataplaneUpdate) : ChildSA :=
  match u with UpdateChildInstalled child _ _ => child | _ => current end.
Fixpoint updates_ok (current : ChildSA) (us : list DataplaneUpdate) : Prop :=
  match us with [] => True | u :: us => update_ok current u ∧ updates_ok (next_child current u) us end.

(** Whether an update ends the tunnel. *)
Definition ends (current : ChildSA) (u : DataplaneUpdate) : bool :=
  match u with UpdateChildDeleted child => OutboundSPI current =? OutboundSPI child | _ => false end.
Fixpoint ended_by (current : ChildSA) (us : list DataplaneUpdate) : bool :=
  match us with [] => false | u :: us => ends current u || ended_by (next_child current u) us end.
Definition is_install (u : DataplaneUpdate) : bool := match u with UpdateChildInstalled _ _ _ => true | _ => false end.
Definition assigned_of (u : DataplaneUpdate) : option AssignedConfig := match u with UpdateAssigned a => Some a | _ => None end.

Lemma DropInboundSPI_other p table spi s : pl_inbound p = Some table → s ≠ spi →
  ∃ table', pl_inbound (DropInboundSPI p spi) = Some table' ∧ table' !! s = table !! s.
Proof.
  intros Hp Hne. destruct (decide (spi = 0)) as [->|Hz]; [by exists table|].
  destruct (DropInboundSPI_lookup p table spi s Hp Hz) as (table' & E & H). exists table'. split; [done|].
  by rewrite decide_False in H.
Qed.

Lemma DropInboundSPI_outbound p spi : pl_outbound (DropInboundSPI p spi) = pl_outbound p.
Proof. unfold DropInboundSPI. destruct (spi =? 0); [done|]. destruct (pl_inbound p) as [t|]; [|done]. by destruct (t !! spi). Qed.

Lemma markEnded_closed t : tn_closed (markEnded t) = true ∧ tn_childSA (markEnded t) = tn_childSA t.
Proof. done. Qed.

Lemma apply_update_spec c warnAt u d : dp_inv d → update_ok (currentChild d) u →
  ∃ d', apply_update c warnAt u d = Ok d' ∧ dp_inv d' ∧ currentChild d' = next_child (currentChild d) u ∧
    tn_closed (dp_tunnel d') = (tn_closed (dp_tunnel d) || ends (currentChild d) u) ∧
    dp_acks d' = dp_acks d + (if is_install u then 1 else 0) ∧
    dp_announced d' = dp_announced d ++ option_list (assigned_of u) ∧
    (∀ spi i, (pl_inbound (dp_pipeline d) ≫= λ t, t !! spi) = Some i → spi ≠ InboundSPI (next_child (currentChild d) u) →
       (∀ child, u = UpdateChildDeleted child → spi ≠ InboundSPI child) →
       (pl_inbound (dp_pipeline d') ≫= λ t, t !! spi) = Some i).
Proof.
  intros [(table & i & Hp & Hl & Hs) (o & Ho & Hos)] Hu. destruct u as [child keys sel|child|a]; cbn [apply_update update_ok] in *.
  - destruct Hu as (enc & ig & Hn & Hk).
    destruct (child_codecs_ok c warnAt child (Some sel) keys enc ig Hn Hk) as (i' & o' & E & Hi & Ho' & _).
    rewrite E. eexists. split; [reflexivity|]. cbn [mbind res_bind]. cbv zeta.
    assert (Hlook : ∀ spi, ∃ table', pl_inbound (ReplaceChild (dp_pipeline d) (Some i') (Some o') (InboundSPI (currentChild d))) = Some table' ∧
      table' !! spi = if decide (spi = codec_spi i') then Some i' else table !! spi) by (intros spi; by apply ReplaceChild_lookup).
    split_and!; cbn; try done; [|by rewrite orb_false_r|by rewrite app_nil_r|].
    + constructor; [|by exists o'; cbn; rewrite Ho']. destruct (Hlook (InboundSPI child)) as (table' & E1 & E2).
      exists table', i'. split; [exact E1|]. cbn. rewrite E2, Hi, decide_True by done. done.
    + intros spi x Hx Hne _. destruct (Hlook spi) as (table' & E1 & E2). cbn in E1. injection E1 as <-.
      rewrite Hp in Hx. cbn in Hx. rewrite E2, Hi, decide_False by done. done.
  - destruct (Z.eqb_spec (OutboundSPI (currentChild d)) (OutboundSPI child)) as [Heq|Hneq].
    + eexists. split; [reflexivity|]. split_and!; cbn; try done; [by constructor; [by exists table, i|by exists o]| |by rewrite Z.add_0_r|by rewrite app_nil_r].
      rewrite Heq, Z.eqb_refl. by rewrite orb_true_r.
    + destruct Hu as [Hu|Hu]; [congruence|].
      destruct (DropInboundSPI_other _ _ (InboundSPI child) (InboundSPI (currentChild d)) Hp (not_eq_sym Hu)) as (table' & E & E').
      eexists. split; [reflexivity|]. split_and!; cbn; try done; [| |by rewrite Z.add_0_r|by rewrite app_nil_r|].
      * constructor; [exists table', i; split; [exact E|split; [exact (eq_trans E' Hl)|exact Hs]]|exists o; cbn]. by rewrite DropInboundSPI_outbound.
      * replace (OutboundSPI (currentChild d) =? OutboundSPI child) with false by lia. by rewrite orb_false_r.
      * intros spi x Hx _ Hd. rewrite Hp in Hx. cbn in Hx.
        destruct (DropInboundSPI_other _ _ (InboundSPI child) spi Hp (Hd child eq_refl)) as (t2 & E2 & E3). rewrite E2. cbn. by rewrite E3.
  - eexists. split; [reflexivity|]. split_and!; cbn; try done; [by constructor; [by exists table, i|by exists o]|by rewrite orb_false_r|by rewrite Z.add_0_r].
Qed.

Lemma start_dataplane_spec c warnAt est cap enc ig : negotiated (Some (Est_Selection est)) enc ig →
  keys_fit enc ig (Est_ChildKeys est) → ∃ d, start_dataplane c warnAt est cap = Ok d ∧ dp_inv d ∧ currentChild d = Est_Child est ∧
    tn_closed (dp_tunnel d) = false ∧ dp_acks d = 0 ∧ dp_announced d = [].
Proof.
  intros Hn Hk. destruct (child_codecs_ok c warnAt (Est_Child est) _ _ enc ig Hn Hk) as (i & o & E & Hi & Ho & _).
  unfold start_dataplane. rewrite E. eexists. split; [reflexivity|]. split; [|done].
  constructor; [|by exists o]. exists {[codec_spi i := i]}, i. split; [done|]. cbn. rewrite Hi. split; [|done].
  apply lookup_singleton_eq.
Qed.

Lemma apply_updates_spec c warnAt us : ∀ d, dp_inv d → updates_ok (currentChild d) us →
  ∃ d', apply_updates c warnAt us d = Ok d' ∧ dp_inv d' ∧ currentChild d' = foldl next_child (currentChild d) us ∧
    tn_closed (dp_tunnel d') = (tn_closed (dp_tunnel d) || ended_by (currentChild d) us) ∧
    dp_acks d' = dp_acks d + len (filter (λ u, is_install u = true) us) ∧
    dp_announced d' = dp_announced d ++ omap assigned_of us.
Proof.
  induction us as [|u us IH]; intros d I Hus; cbn [apply_updates].
  { exists d. cbn. rewrite orb_false_r, Z.add_0_r, app_nil_r. done. }
  destruct Hus as [Hu Hus]. destruct (apply_update_spec c warnAt u d I Hu) as (d1 & E & I1 & Hc & He & Ha & Hn & _).
  rewrite <- Hc in Hus. destruct (IH d1 I1 Hus) as (d2 & E2 & I2 & Hc2 & He2 & Ha2 & Hn2). exists d2. rewrite E. cbn [mbind res_bind].
  split; [done|]. split; [done|]. split; [by rewrite Hc2, Hc|]. split; [by rewrite He2, He, Hc, <- orb_assoc|]. split.
  - rewrite Ha2, Ha, filter_cons. destruct (is_install u) eqn:Ei.
    + rewrite decide_True, len_cons by done. lia.
    + rewrite decide_False by done. lia.
  - rewrite Hn2, Hn, <- app_assoc. f_equal. cbn. by destruct (assigned_of u).
Qed.


(* ------------------------------------------------------------------ *)
(** ** Witnesses *)

Definition demo_child (inbound outbound : Z) (initiator : bool) : ChildSA := mkChildSA inbound outbound [] [] initiator.

Lemma sample_keys_fit : keys_fit sample_enc sample_integ sample_keys.
Proof. constructor; try reflexivity. split; by apply (bool_decide_unpack _). Qed.

Lemma session_children_agree_witness : ∃ ia oa ib ob ds,
    child_codecs demo_public 5 (demo_child 9 4096 false) sample_selection sample_keys = Ok (ia, oa) ∧
    child_codecs demo_public 0 (demo_child 4096 9 true) sample_selection sample_keys = Ok (ib, ob) ∧
    (send_all (C := xor_crypto) oa sample_sends).2 = Ok <$> ds ∧ length ds = length sample_sends ∧
    (receive_all (C := xor_crypto) ib ((λ k, ds !!! k) <$> [1%nat; 1%nat])).2 =
      zip_with delivery ((λ k, (snd <$> sample_sends) !!! k) <$> [1%nat; 1%nat])
        (spec_all ∅ ((λ k, Z.of_nat k + 1) <$> [1%nat; 1%nat])).2.
Proof.
  apply (session_children_agree (C := xor_crypto) (L := xor_crypto_laws) _ _ _ _ _ _ _ sample_enc sample_integ).
  - done.
  - exact sample_negotiated.
  - exact sample_keys_fit.
  - cbn. lia.
  - exact sample_sends_valid.
  - vm_compute. reflexivity.
  - by apply (bool_decide_unpack _).
Defined.

Definition demo_selection : Selection := mkSelection (Some sample_enc) (Some sample_integ) None None.
Definition demo_est : Established :=
  mkEstablished (mkAssignedConfig [] [] 0 [] [] 0) (demo_child 4096 9 true) NewState None sample_keys demo_selection.
Definition demo_updates : list DataplaneUpdate :=
  [UpdateChildInstalled (demo_child 4097 10 true) sample_keys demo_selection; UpdateChildDeleted (demo_child 4096 9 true);
   UpdateAssigned (mkAssignedConfig [10; 0; 0; 2] [] 0 [] [] 0); UpdateChildDeleted (demo_child 4097 10 true)].

