(* ===== verification/EndToEnd.v ===== *)
(** * The data plane end to end

    Two sessions with a child SA in common: what one application writes to its
    tunnel goes through the outbound worker and its codec, the writer of the
    transport, a network, the reader of the transport, the inbound worker and its
    codec, and the tunnel of the other application. The theorem composes the
    models of src/tunnel.go, src/esp and src/transport along the channels that
    [Session.Start] (src/session.go) connects. *)

From S2P Require Import Prelude Suite Crypto Cipher Keying Replay Esp State Transport Tunnel PipelineRun PublicConfig Session.

(* ------------------------------------------------------------------ *)
(** ** Sequences *)

Lemma prefix_fmap {A B} (f : A → B) (l k : list A) : l `prefix_of` k → (f <$> l) `prefix_of` (f <$> k).
Proof. intros [r ->]. exists (f <$> r). by rewrite fmap_app. Qed.

Lemma prefix_omap {A B} (f : A → option B) (l k : list A) : l `prefix_of` k → omap f l `prefix_of` omap f k.
Proof. intros [r ->]. exists (omap f r). apply omap_app. Qed.

Lemma prefix_concat {A} (l k : list (list A)) : l `prefix_of` k → concat l `prefix_of` concat k.
Proof. intros [r ->]. exists (concat r). apply concat_app. Qed.

Lemma prefix_elem {A} (l k : list A) x : l `prefix_of` k → x ∈ l → x ∈ k.
Proof. intros [r ->] H. apply elem_of_app. by left. Qed.

Lemma prefix_filter {A} (P : A → Prop) `{!∀ x, Decision (P x)} (l k : list A) :
  l `prefix_of` k → filter P l `prefix_of` filter P k.
Proof. intros [r ->]. exists (filter P r). apply filter_app. Qed.

(** A list as the elements at its indices, and a sublist as some of them. *)
Lemma lookup_all {A} `{!Inhabited A} (l : list A) : l = (λ k, l !!! k) <$> seq 0 (length l).
Proof.
  apply list_eq. intros i. rewrite list_lookup_fmap. destruct (decide (i < length l)%nat) as [Hi|Hi].
  - rewrite lookup_seq_lt by done. cbn. by apply list_lookup_lookup_total_lt.
  - rewrite !lookup_ge_None_2; [done|by rewrite length_seq; lia|lia].
Qed.

Lemma picks {A} `{!Inhabited A} (l k : list A) : (∀ x, x ∈ l → x ∈ k) →
  ∃ order, l = (λ i, k !!! i) <$> order ∧ Forall (λ i, i < length k)%nat order.
Proof.
  induction l as [|x l IH]; intros H; [by exists []|].
  destruct IH as (order & E & F); [intros y Hy; apply H; by right|].
  destruct (list_elem_of_lookup_1 k x) as [i Hi]; [apply H; by left|].
  exists (i :: order). cbn. rewrite (list_lookup_total_correct k i x Hi). split; [by f_equal|].
  constructor; [by eapply lookup_lt_Some|done].
Qed.

Lemma prefix_picks {A} `{!Inhabited A} (l k : list A) : l `prefix_of` k → l = (λ i, k !!! i) <$> seq 0 (length l).
Proof.
  intros [r ->]. rewrite (lookup_all l) at 1. apply list_fmap_ext. intros i j [-> Hj]%lookup_seq.
  by rewrite lookup_total_app_l by lia.
Qed.

(* ------------------------------------------------------------------ *)
(** ** The sender *)

(** The child is not replaced; its inbound SPI stays. *)
Definition keeps_out (log : list pl_event) : Prop :=
  Forall (λ e, match e with EvReplace (Some _) (Some _) _ => False | _ => True end) log.
Definition keeps_in (spi : Z) (log : list pl_event) : Prop :=
  Forall (λ e, match e with EvReplace (Some c) _ _ => codec_spi c ≠ spi | EvDrop s => s ≠ spi | _ => True end) log.

Section Codecs.
Context {C : Crypto}.

Lemma send_all_app s1 : ∀ o s2, send_all o (s1 ++ s2) =
  ((send_all (send_all o s1).1 s2).1, (send_all o s1).2 ++ (send_all (send_all o s1).1 s2).2).
Proof.
  induction s1 as [|[rnd pkt] s1 IH]; intros o s2; cbn; [by destruct (send_all o s2)|].
  destruct (process o rnd pkt) as [[o1 w] r]. rewrite IH. by destruct (send_all o1 s1) as [o2 rs].
Qed.

Lemma encrypt_valid sends : ∀ o ds, (send_all o sends).2 = Ok <$> ds →
  (encrypt o sends).1 = ((send_all o sends).1, ds, GroupSent).
Proof.
  induction sends as [|[rnd pkt] sends IH]; intros o ds; cbn; [by destruct ds|].
  destruct (process o rnd pkt) as [[o1 w] r]. specialize (IH o1). destruct (send_all o1 sends) as [o2 rs]. cbn.
  intros E. destruct ds as [|d ds]; [done|]. injection E as -> E. specialize (IH ds E).
  destruct (encrypt o1 sends) as [[[o3 ds3] e] w3]. cbn in *. by simplify_eq.
Qed.

(** The datagrams of a history are those of its packets, one after the other. *)
Lemma log_datagrams_sends log : ∀ p o ds, pl_outbound p = Some o → keeps_out log →
  (send_all o (log_sends log)).2 = Ok <$> ds → log_datagrams p log = ds.
Proof.
  unfold log_datagrams. induction log as [|e log IH]; intros p o ds Ho Hk; cbn [pipe_run].
  { cbn. by destruct ds. }
  apply Forall_cons in Hk as [He Hk]. change (e :: log) with ([e] ++ log). rewrite log_sends_app, send_all_app. cbn [snd].
  destruct e as [d|sends|i o' old|spi].
  - cbn. intros E. destruct (processInbound_keeps p d) as [_ Hp]. destruct (processInbound p d) as [p1 r]. cbn in Hp.
    specialize (IH p1 o ds ltac:(congruence) Hk E). by destruct (pipe_run p1 log) as [[]].
  - unfold log_sends at 1. cbn [fmap list_fmap concat]. rewrite app_nil_r. intros E. symmetry in E.
    apply fmap_app_inv in E as (ds1 & ds2 & E1 & E2 & ->). pose proof (encrypt_valid sends o ds1 E1) as Ee.
    cbn [apply_event]. unfold seal_group. rewrite Ho. destruct (encrypt o sends) as [[[o1 ds'] e] w]. cbn in Ee. simplify_eq.
    set (p1 := mkPipeline _ _ _).
    assert (E2' : (send_all (send_all o sends).1 (log_sends log)).2 = Ok <$> ds2).
    { rewrite <- E2. unfold log_sends at 2. cbn [fmap list_fmap concat]. by rewrite app_nil_r. }
    specialize (IH p1 _ ds2 eq_refl Hk E2'). destruct (pipe_run p1 log) as [[p2 i2] o2]. cbn in *. by subst.
  - cbn. intros E. assert (Hp : pl_outbound (ReplaceChild p i o' old) = Some o) by (destruct i, o'; try done).
    specialize (IH _ o ds Hp Hk E). by destruct (pipe_run (ReplaceChild p i o' old) log) as [[]].
  - cbn. intros E. assert (Hp : pl_outbound (DropInboundSPI p spi) = Some o).
    { unfold DropInboundSPI. destruct (spi =? 0); [done|]. destruct (pl_inbound p) as [t|]; [|done]. by destruct (t !! spi). }
    specialize (IH _ o ds Hp Hk E). by destruct (pipe_run (DropInboundSPI p spi) log) as [[]].
Qed.

(* ------------------------------------------------------------------ *)
(** ** The receiver *)

Definition ok_of (r : res (list Z)) : option (list Z) := match r with Ok x => Some x | _ => None end.

Definition has_spi (spi : Z) (d : list Z) : Prop := 4 <= len d ∧ (b ← d.[0, 4]; beUint32 b) = Ok spi.

(** The packets of a history for one SPI are those its codec gives, whatever
    other children are installed and removed meanwhile. *)
Lemma log_ips_receive spi log : ∀ p t i, pl_inbound p = Some t → t !! spi = Some i → keeps_in spi log →
  Forall (has_spi spi) (log_in log) → log_ips p log = omap ok_of (receive_all i (log_in log)).2.
Proof.
  unfold log_ips. induction log as [|e log IH]; intros p t i Hp Ht Hk Hs; cbn [pipe_run]; [done|].
  apply Forall_cons in Hk as [He Hk]. change (e :: log) with ([e] ++ log) in *. rewrite log_in_app in *.
  destruct e as [d|sends|j o' old|s].
  - apply Forall_cons in Hs as [[Hl Hd] Hs]. cbn [apply_event]. rewrite (processInbound_known p t spi i d Hp Hl Hd Ht).
    change (log_in [EvIn d]) with [d]. cbn [app receive_all]. destruct (ProcessPooled i d) as [i1 r]. cbn [fst snd].
    set (p1 := mkPipeline _ _ _). specialize (IH p1 _ i1 eq_refl (lookup_insert_eq t spi i1) Hk Hs).
    destruct (pipe_run p1 log) as [[p2 ins] outs]. destruct (receive_all i1 (log_in log)) as [i2 rs]. cbn in *.
    rewrite IH. by destruct r.
  - cbn [apply_event app]. assert (Hin : pl_inbound (seal_group p sends).1.1.1 = Some t).
    { unfold seal_group. destruct (pl_outbound p) as [o|]; [|done]. destruct (encrypt o sends) as [[[o1 ds] e] w]. cbn.
      destruct e; try done. unfold reportFatal. cbn. by destruct (pl_fatal p). }
    destruct (seal_group p sends) as [[[p1 ds] e] w]. cbn in Hin.
    specialize (IH p1 t i Hin Ht Hk Hs). by destruct (pipe_run p1 log) as [[]].
  - cbn [apply_event app]. destruct j as [c|].
    + destruct (ReplaceChild_lookup p c o' old t spi Hp) as (t1 & E1 & L1). rewrite decide_False in L1 by done. rewrite Ht in L1.
      specialize (IH _ t1 i E1 L1 Hk Hs). by destruct (pipe_run (ReplaceChild p (Some c) o' old) log) as [[]].
    + cbn [ReplaceChild]. specialize (IH p t i Hp Ht Hk Hs). by destruct (pipe_run p log) as [[]].
  - cbn [apply_event app]. assert (∃ t1, pl_inbound (DropInboundSPI p s) = Some t1 ∧ t1 !! spi = Some i) as (t1 & E1 & L1).
    { destruct (decide (s = 0)) as [->|Hz]; [by exists t|].
      destruct (DropInboundSPI_lookup p t s spi Hp Hz) as (t1 & E1 & L1). exists t1. by rewrite decide_False in L1 by done; rewrite L1. }
    specialize (IH _ t1 i E1 L1 Hk Hs). by destruct (pipe_run (DropInboundSPI p s) log) as [[]].
Qed.

End Codecs.

(* ------------------------------------------------------------------ *)
(** ** One direction of a child SA *)

(** The two ends' configurations of it: same selection and SPI, and the sender's
    SK_e, SK_a are the receiver's. *)
Record matched (ocfg : OutboundConfig) (icfg : InboundConfig) (enc : EncryptionAlg) (ig : Integrity)
    (kx ky : ChildKeys) : Prop := {
  ma_sel : negotiated (Out_Selection ocfg) enc ig ∧ In_Selection icfg = Out_Selection ocfg;
  ma_spi : In_SPI icfg = Out_SPI ocfg ∧ 0 < Out_SPI ocfg < 2 ^ 32;
  ma_keys : Out_Keys ocfg = Some kx ∧ In_Keys icfg = Some ky;
  ma_halves : Child_SKer ky = Child_SKei kx ∧ Child_SKar ky = Child_SKai kx;
  ma_lens : bytes (Child_SKei kx) ∧ len (Child_SKei kx) = Enc_KeyLen enc ∧ len (Child_SKai kx) = Integ_KeyLen ig }.

(** The indices whose verdict is positive. *)
Definition chosen {A} (order : list A) (vs : list bool) : list A := fst <$> filter (λ p, p.2 = true) (zip order vs).

Lemma chosen_fmap {A B} (f : A → B) order : ∀ vs, chosen (f <$> order) vs = f <$> chosen order vs.
Proof.
  unfold chosen. induction order as [|x order IH]; intros [|v vs]; try done.
  cbn [fmap list_fmap zip zip_with]. specialize (IH vs).
  destruct v; [rewrite !filter_cons_True by done; cbn [fmap list_fmap]; by f_equal|by rewrite !filter_cons_False by done].
Qed.

Lemma delivered_chosen {A} (f : A → list Z) order : ∀ vs,
  omap ok_of (zip_with delivery (f <$> order) vs) = f <$> chosen order vs.
Proof.
  unfold chosen. induction order as [|x order IH]; intros [|v vs]; try done.
  cbn [fmap list_fmap zip zip_with]. specialize (IH vs).
  destruct v; [rewrite filter_cons_True by done; cbn [fmap list_fmap]; by rewrite <- IH|by rewrite filter_cons_False by done].
Qed.

Lemma chosen_all {A} (order : list A) vs : length vs = length order → Forall (λ v, v = true) vs → chosen order vs = order.
Proof.
  unfold chosen. intros Hl Hv. revert order Hl. induction Hv as [|v vs -> _ IH]; intros [|x order] Hl; try done.
  cbn [zip zip_with]. rewrite filter_cons_True by done. cbn. f_equal. apply IH. simpl in Hl. lia.
Qed.

(** In order, nothing is a replay. *)
Lemma spec_all_ascending n : ∀ seen m, 0 <= m → (∀ s, s ∈ seen → 0 <= s <= m) →
  (spec_all seen ((λ k, m + Z.of_nat k + 1) <$> seq 0 n)).2 = replicate n true.
Proof.
  induction n as [|n IH]; intros seen m Hm Hseen; [done|]. cbn [seq fmap list_fmap spec_all replicate].
  unfold spec_step. replace (spec_accepts seen (m + Z.of_nat 0 + 1)) with true.
  - specialize (IH ({[m + Z.of_nat 0 + 1]} ∪ seen) (m + 1) ltac:(lia)).
    rewrite <- fmap_S_seq, <- list_fmap_compose. unfold compose.
    rewrite (list_fmap_ext _ (λ k, m + 1 + Z.of_nat k + 1) (seq 0 n)) by (intros; lia).
    destruct (spec_all _ _) as [w vs]. cbn in *. f_equal. apply IH. intros s [->%elem_of_singleton|Hs]%elem_of_union; [lia|].
    specialize (Hseen s Hs). lia.
  - symmetry. unfold spec_accepts. apply bool_decide_eq_true. destruct (top_spec seen) as [_ Htop]; [intros s Hs; by apply Hseen|].
    split_and!; [lia|intros Hin; apply Hseen in Hin; lia|]. unfold window_size.
    destruct Htop as [[_ ->]|Hin]; [lia|apply Hseen in Hin; lia].
Qed.

Lemma spec_all_length seqs : ∀ seen, length (spec_all seen seqs).2 = length seqs.
Proof.
  induction seqs as [|s seqs IH]; intros seen; cbn; [done|]. destruct (spec_step seen s) as [seen' v].
  specialize (IH seen'). destruct (spec_all seen' seqs). cbn in *. lia.
Qed.

Section Channel.
Context {C : Crypto} {L : CryptoLaws}.

(** A datagram that carries a packet, as the transport and the pipeline see it. *)
Lemma carries_wire spi enc ig ek ik seq packet d : 0 < spi < 2 ^ 32 → carries spi enc ig ek ik seq packet d →
  has_spi spi d ∧ Classify d = KindESP ∧ d ≠ [] ∧ len d <= MaxWireDatagram.
Proof.
  intros Hs (Hlen & padLen & nh & iv & ct & icv & _ & _ & _ & _ & Hd). destruct Hd as [Hshape _ _ _ _ _].
  unfold esp_header in Hshape. rewrite <- !app_assoc in Hshape.
  set (rest := putUint32 seq ++ iv ++ ct ++ icv) in Hshape.
  assert (H4 : 4 <= len d) by (rewrite Hshape, len_app, len_putUint32; pose proof (len_nonneg rest); lia).
  assert (Hspi : (b ← d.[0, 4]; beUint32 b) = Ok spi).
  { rewrite Hshape. rewrite slice_prefix by done. run. apply beUint32_put'. lia. }
  split; [done|]. split_and!; [|by intros ->|done].
  unfold Classify. rewrite bool_decide_eq_false_2 by (intros ->; unfold len in H4; cbn in H4; lia).
  destruct (all_zeros _) eqn:Hz; [|by rewrite andb_false_r]. exfalso.
  rewrite Hshape in Hz. cbn in Hz. apply andb_prop in Hz as [Z1 Hz]. apply andb_prop in Hz as [Z2 Hz].
  apply andb_prop in Hz as [Z3 Hz]. apply andb_prop in Hz as [Z4 _].
  assert (E : putUint32 spi = [0; 0; 0; 0]) by (unfold putUint32 in *; repeat f_equal; lia).
  pose proof (beUint32_put' spi ltac:(lia)) as P. rewrite E in P. vm_compute in P. injection P as P. lia.
Qed.

(** Sender and receiver: the datagrams the packets become, and what any choice
    of them in any order gives at the other end. *)
Lemma channel_spec ocfg icfg enc ig kx ky o i (sends : list ((Z → res (list Z)) * list Z)) :
  matched ocfg icfg enc ig kx ky → NewOutbound ocfg = Ok o → NewInbound icfg = Ok i →
  Forall (λ s, valid_send enc s.1 s.2) sends → len sends < 2 ^ 32 →
  ∃ ds, (send_all o sends).2 = Ok <$> ds ∧ length ds = length sends ∧
    Forall (λ d, has_spi (Out_SPI ocfg) d ∧ Classify d = KindESP ∧ d ≠ [] ∧ len d <= MaxWireDatagram) ds ∧
    ∀ order, Forall (λ k, k < length sends)%nat order → ∃ vs,
      omap ok_of (receive_all i ((λ k, ds !!! k) <$> order)).2 = (λ k, (snd <$> sends) !!! k) <$> chosen order vs ∧
      NoDup (chosen order vs) ∧ (∀ n, order = seq 0 n → chosen order vs = order).
Proof.
  intros [[Hn Hsel] [Hspi Hr] [Hkx Hky] [He Ha] (Hb & Hle & Hla)] Eo Ei Hv Hlen.
  destruct (NewOutbound_ok ocfg enc ig kx Hn Hkx Hle Hla) as (o1 & Eo1 & Ho & Hw & Hs). rewrite Eo in Eo1. injection Eo1 as <-.
  destruct (NewInbound_ok icfg enc ig ky) as (i1 & Ei1 & Hi & Hwin); [by rewrite Hsel|done|congruence..|].
  rewrite Ei in Ei1. injection Ei1 as <-. rewrite Hspi, He, Ha in Hi.
  destruct (send_all_spec (Out_SPI ocfg) enc ig (Child_SKei kx) (Child_SKai kx) sends Hb o) as (ds & Eds & Hdl & Hall);
    [done|done|lia|lia|done|].
  exists ds. split; [done|]. split; [done|]. split.
  - apply Forall_forall. intros d Hd. apply list_elem_of_lookup_1 in Hd as [k Hk].
    destruct (lookup_lt_is_Some_2 sends k) as [s Hsk]; [rewrite <- Hdl; by eapply lookup_lt_Some|].
    eapply carries_wire; [done|by apply (Hall k d s)].
  - intros order Hord. set (seqs := (λ k, Z.of_nat k + 1) <$> order). exists (spec_all ∅ seqs).2.
    assert (Hf : Forall (λ '(seq, packet, d), 1 <= seq < 2 ^ 32 ∧
      carries (Out_SPI ocfg) enc ig (Child_SKei kx) (Child_SKai kx) seq packet d)
      ((λ k, (Z.of_nat k + 1, (snd <$> sends) !!! k, ds !!! k)) <$> order)).
    { apply Forall_fmap. eapply Forall_impl; [exact Hord|]. intros k Hk. cbv beta in Hk. unfold compose.
      split; [unfold len in Hlen; lia|].
      destruct (lookup_lt_is_Some_2 ds k) as [d Hd]; [lia|]. destruct (lookup_lt_is_Some_2 sends k) as [[rnd pkt] Hp]; [lia|].
      rewrite (list_lookup_total_correct ds k d Hd).
      rewrite (list_lookup_total_correct (snd <$> sends) k pkt) by by rewrite list_lookup_fmap, Hp.
      replace (Z.of_nat k + 1) with (o_seq o + Z.of_nat k) by lia. by apply (Hall k d (rnd, pkt)). }
    pose proof (receive_all_spec (Out_SPI ocfg) enc ig (Child_SKei kx) (Child_SKai kx) _ Hb ltac:(lia) Hf i Hi) as Hrec.
    rewrite Hwin, <- !list_fmap_compose in Hrec. unfold compose in Hrec. cbn [fst snd] in Hrec. fold seqs in Hrec.
    assert (Hok : seqs_ok seqs).
    { apply Forall_fmap. eapply Forall_impl; [exact Hord|]. intros k Hk. cbv beta in Hk. unfold compose. unfold len in Hlen. lia. }
    destruct (AcceptAll_refines _ _ _ zero_window_rep Hok) as [EA _]. rewrite EA in Hrec.
    rewrite Hrec, delivered_chosen. split; [done|]. split.
    + pose proof (proj1 (spec_all_fresh seqs ∅)) as Hnd. unfold accepted in Hnd. fold (chosen seqs (spec_all ∅ seqs).2) in Hnd.
      unfold seqs at 1 in Hnd. rewrite chosen_fmap in Hnd. by apply NoDup_fmap_1 in Hnd.
    + intros n En. apply chosen_all; [unfold seqs; by rewrite spec_all_length, length_fmap|].
      assert ((spec_all ∅ seqs).2 = replicate n true) as ->; [|by apply Forall_replicate].
      unfold seqs. rewrite En. exact (spec_all_ascending n ∅ 0 ltac:(lia) ltac:(set_solver)).
Qed.

End Channel.

(* ------------------------------------------------------------------ *)
(** ** The path *)

(** Batches of the reader: none of their packets is nil. *)
Definition channel_batches (bs : list (list Packet)) : list (list (option Packet)) :=
  map (λ b : list Packet, Some <$> b) bs.

(** The channels of the two sessions: tunnel to outbound worker, outbound worker
    to writer (which also gets the frames of the control plane), reader to
    inbound worker, inbound worker to tunnel. *)
Record connected (ta : Tunnel) (wa : Workers) (events : list tx_event) (rx : Rx) (wb : Workers) (tb : Tunnel) : Prop := {
  cn_write : wk_ip_taken wa `prefix_of` (Some <$> tn_accepted ta);
  cn_frames : filter (λ f, fr_kind f = KindESP) (queued events) `prefix_of` wk_tx wa;
  cn_batches : wk_esp_taken wb `prefix_of` channel_batches (rx_esp rx);
  cn_read : tn_arrived tb `prefix_of` concat (wk_ipOut wb) }.

(** Nothing is on its way: every channel is empty and everybody waits. *)
Record drained (ta : Tunnel) (wa : Workers) (events : list tx_event) (t : Tx) (out : option (res unit)) (rx : Rx)
    (wb : Workers) (tb : Tunnel) : Prop := {
  dr_write : wk_ip_taken wa = Some <$> tn_accepted ta ∧ out_settled wa;
  dr_frames : filter (λ f, fr_kind f = KindESP) (queued events) = wk_tx wa;
  dr_tx : out = None ∧ live (tx_frames t) = [];
  dr_wire : rx_wire rx = tx_wire t;
  dr_rx : rx_closed rx = false ∧ rx_result rx = None ∧ rx_reader rx = RdIdle ∧ rx_batch rx = [];
  dr_batches : wk_esp_taken wb = channel_batches (rx_esp rx) ∧ in_settled wb;
  dr_read : tn_arrived tb = concat (wk_ipOut wb) }.

Lemma frames_fit (fs : list Frame) (ds : list (list Z)) :
  Forall (λ f, fr_kind f ≠ KindESP → fits f) fs →
  (∀ d, d ∈ fr_payload <$> filter (λ f, fr_kind f = KindESP) fs → d ∈ ds) →
  Forall (λ d, Classify d = KindESP ∧ d ≠ [] ∧ len d <= MaxWireDatagram) ds →
  Forall fits fs ∧ Forall plain_frame fs.
Proof.
  intros Hc Hin Hds. rewrite Forall_forall in Hc. rewrite Forall_forall in Hds.
  assert (He : ∀ f, f ∈ fs → fr_kind f = KindESP →
    Classify (fr_payload f) = KindESP ∧ fr_payload f ≠ [] ∧ len (fr_payload f) <= MaxWireDatagram).
  { intros f Hf Hk. apply Hds, Hin, list_elem_of_fmap. exists f. split; [done|]. by apply list_elem_of_filter. }
  split; apply Forall_forall; intros f Hf; destruct (fr_kind f) eqn:Hk; try (by apply Hc; rewrite ?Hk);
    unfold plain_frame; rewrite ?Hk; try done; destruct (He f Hf Hk) as (H1 & H2 & H3); [|done].
  exists (fr_payload f). unfold shapedPayload. rewrite Hk. by replace (MaxWireDatagram <? _) with false by lia.
Qed.

(** The ESP datagrams on the wire are those of the outbound worker, in order. *)
Lemma tx_datagrams wire events t out (frames : list Frame) (ds : list (list Z)) :
  wire_takes wire → tx_run wire events (mkTx [] false false 0 [] []) = (t, out) →
  Forall (λ f, fr_kind f ≠ KindESP → fits f) (queued events) →
  filter (λ f, fr_kind f = KindESP) (queued events) `prefix_of` frames → (fr_payload <$> frames) `prefix_of` ds →
  Forall (λ d, Classify d = KindESP ∧ d ≠ [] ∧ len d <= MaxWireDatagram) ds →
  of_kind KindESP (tx_wire t) `prefix_of` ds ∧
  (out = None → live (tx_frames t) = [] → filter (λ f, fr_kind f = KindESP) (queued events) = frames →
     of_kind KindESP (tx_wire t) = fr_payload <$> frames).
Proof.
  intros Hw Hrun Hc Hq Hp Hds.
  destruct (frames_fit (queued events) ds Hc) as [Hf Hpl]; [|done|].
  { intros d Hd. eapply prefix_elem; [exact Hp|]. eapply prefix_elem; [by apply prefix_fmap|done]. }
  destruct (tx_run_spec wire events t out Hw Hf Hrun) as (sent & rest & Eq & Et & _ & Hout).
  rewrite Eq in Hf, Hpl. apply Forall_app in Hf as [Hf _], Hpl as [Hpl _].
  destruct (of_kind_shape sent Hf Hpl) as [Ek _]. rewrite Et, Ek. unfold payloads_of. split.
  - etransitivity; [|exact Hp]. apply prefix_fmap. etransitivity; [|exact Hq]. apply prefix_filter. by exists rest.
  - intros -> Hl <-. rewrite Hl in Hout. subst rest. by rewrite Eq, app_nil_r.
Qed.

Lemma payloads_in_batches (bs : list (list Packet)) : payloads_in (concat (channel_batches bs)) = pk_payload <$> concat bs.
Proof.
  unfold payloads_in, channel_batches. induction bs as [|b bs IH]; [done|]. cbn. rewrite omap_app, !fmap_app, IH. f_equal.
  induction b as [|k b IHb]; [done|]. cbn. f_equal. exact IHb.
Qed.

(** What the inbound worker decrypts comes from the wire, in order. *)
Lemma rx_datagrams {C : Crypto} (pb : Pipeline) (rx : Rx) (wb : Workers) :
  rx_reachable rx → run_reachable pb wb → wk_esp_taken wb `prefix_of` channel_batches (rx_esp rx) →
  log_in (wk_log wb) `prefix_of` of_kind KindESP (rx_wire rx) ∧
  (rx_closed rx = false → rx_result rx = None → rx_reader rx = RdIdle → rx_batch rx = [] →
     wk_esp_taken wb = channel_batches (rx_esp rx) → in_settled wb → log_in (wk_log wb) = of_kind KindESP (rx_wire rx)).
Proof.
  intros [_ I2 I3 _ _ _ _ _ _ (lost & E & Hl) _ _]%rx_reachable_inv Hr Hb.
  destruct (run_facts pb wb Hr) as (F1 & _ & F3 & _). split.
  - etransitivity; [exact F1|]. etransitivity; [by apply (prefix_fmap pk_payload), prefix_omap, prefix_concat|].
    change (fmap pk_payload (omap id ?l)) with (payloads_in l). rewrite payloads_in_batches. etransitivity; [exact I2|].
    apply prefix_filter. rewrite E. by eexists.
  - intros Hc Hn Hrd Hba Ht Hs. destruct (F3 Hs) as [-> _]. rewrite Ht, payloads_in_batches. rewrite Hrd in E, Hl.
    destruct lost; [|by destruct Hl]. cbn in E. rewrite app_nil_r in E. rewrite E, (I3 Hn), Hba. by rewrite app_nil_r.
Qed.

Lemma prefix_of_fmap {A B} (f : A → B) (l : list B) (c : list A) : l `prefix_of` (f <$> c) → l = f <$> take (length l) c.
Proof.
  intros [r E]. by rewrite fmap_take, E, take_app_length.
Qed.

Lemma filter_keep {A} (P : A → Prop) `{!∀ x, Decision (P x)} (l : list A) : Forall P l → filter P l = l.
Proof. induction 1 as [|x l Hx _ IH]; [done|]. rewrite filter_cons_True by done. by rewrite IH. Qed.

Lemma omap_Some {A} (l : list A) : omap id (Some <$> l) = l.
Proof. induction l as [|x l IH]; [done|]. cbn. f_equal. exact IH. Qed.

(** What a network that only loses, repeats and reorders delivers, by index. *)
Lemma network_order (sent got : list (list Z)) (ds inp : list (list Z)) :
  of_kind KindESP sent `prefix_of` ds → inp `prefix_of` of_kind KindESP got → (∀ d, d ∈ got → d ∈ sent) →
  ∃ order, inp = (λ k, ds !!! k) <$> order ∧ Forall (λ k, k < length ds)%nat order ∧
    (got `prefix_of` sent → order = seq 0 (length order)).
Proof.
  intros T R Hnet. destruct (decide (got `prefix_of` sent)) as [Hp|Hp].
  - assert (Hlp : inp `prefix_of` ds) by (etransitivity; [exact R|]; etransitivity; [by apply prefix_filter|exact T]).
    exists (seq 0 (length inp)). split; [by apply prefix_picks|]. rewrite length_seq. split; [|done].
    apply Forall_seq. intros j Hj. apply prefix_length in Hlp. lia.
  - destruct (picks inp ds) as (order & E & F); [|by exists order]. intros d Hd. eapply prefix_elem; [exact T|].
    apply (prefix_elem _ _ _ R), list_elem_of_filter in Hd as [Hk Hd]. apply list_elem_of_filter. auto.
Qed.

Section Path.
Context {C : Crypto} {L : CryptoLaws}.
Context (ocfg : OutboundConfig) (icfg : InboundConfig) (enc : EncryptionAlg) (ig : Integrity) (kx ky : ChildKeys).
Context (o : Outbound) (i : Inbound) (pa pb : Pipeline) (table : gmap Z Inbound).

(** The sessions have installed the two codecs of the child, and keep them. *)
Record sharing (wa wb : Workers) : Prop := {
  sh_matched : matched ocfg icfg enc ig kx ky;
  sh_out : NewOutbound ocfg = Ok o ∧ pl_outbound pa = Some o;
  sh_in : NewInbound icfg = Ok i ∧ pl_inbound pb = Some table ∧ table !! Out_SPI ocfg = Some i;
  sh_runs : run_reachable pa wa ∧ run_reachable pb wb;
  sh_keeps : keeps_out (wk_log wa) ∧ keeps_in (Out_SPI ocfg) (wk_log wb);
  sh_valid : Forall (λ s, valid_send enc s.1 s.2) (log_sends (wk_log wa)) ∧ len (log_sends (wk_log wa)) < 2 ^ 32 }.

(** From the packets of the sender to the packets of the receiver. *)
Lemma path_spec ta wa wire events t out rx wb tb : sharing wa wb →
  wire_takes wire → tx_run wire events (mkTx [] false false 0 [] []) = (t, out) → rx_reachable rx →
  Forall (λ f, fr_kind f ≠ KindESP → fits f) (queued events) →
  connected ta wa events rx wb tb → (∀ d, d ∈ rx_wire rx → d ∈ tx_wire t) →
  ∃ ks, NoDup ks ∧ Forall (λ k, k < length (tn_accepted ta))%nat ks ∧
    pkt_IP <$> concat (wk_ipOut wb) = (λ k, tn_accepted ta !!! k) <$> ks ∧
    Forall (λ k, tn_accepted ta !!! k ≠ []) ks ∧
    (rx_wire rx `prefix_of` tx_wire t → ks = seq 0 (length ks)) ∧
    (drained ta wa events t out rx wb tb → length ks = length (tn_accepted ta)).
Proof.
  intros [Hm [Eo Hpo] (Ei & Hpi & Hti) [Hra Hrb] [Hko Hki] [Hv Hlen]] Hw Hrun Hrx Hctl [Cw Cf Cb Cr] Hnet.
  set (sends := log_sends (wk_log wa)) in *.
  destruct (channel_spec ocfg icfg enc ig kx ky o i sends Hm Eo Ei Hv Hlen) as (ds & Eds & Hdl & Hds & Hrec).
  destruct (run_facts pa wa Hra) as (_ & _ & _ & F4 & F5 & F6).
  rewrite (log_datagrams_sends (wk_log wa) pa o ds Hpo Hko Eds) in F5, F6.
  destruct (tx_datagrams wire events t out (wk_tx wa) ds Hw Hrun Hctl Cf F5) as [T1 T2].
  { eapply Forall_impl; [exact Hds|]. cbv beta. tauto. }
  destruct (rx_datagrams pb rx wb Hrx Hrb Cb) as [R1 R2].
  destruct (network_order (tx_wire t) (rx_wire rx) ds (log_in (wk_log wb)) T1 R1 Hnet) as (order & Eord & Hord & Hseq).
  rewrite Hdl in Hord. destruct (Hrec order Hord) as (vs & Evs & Hnd & Hall).
  assert (Hspis : Forall (has_spi (Out_SPI ocfg)) (log_in (wk_log wb))).
  { rewrite Eord. apply Forall_fmap. eapply Forall_impl; [exact Hord|]. intros k Hk. cbv beta in Hk. unfold compose.
    destruct (lookup_lt_is_Some_2 ds k) as [d Hd]; [lia|]. rewrite (list_lookup_total_correct _ _ _ Hd).
    by destruct (Forall_lookup_1 _ _ _ _ Hds Hd). }
  pose proof (log_ips_receive (Out_SPI ocfg) (wk_log wb) pb table i Hpi Hti Hki Hspis) as Eips. rewrite Eord, Evs in Eips.
  destruct (run_facts pb wb Hrb) as (_ & G2 & G3 & _). rewrite Eips in G2, G3.
  set (n := length (concat (wk_ipOut wb))). set (ks := chosen order vs) in *. exists (take n ks).
  apply prefix_of_fmap in G2. rewrite length_fmap in G2. fold n in G2.
  assert (Hacc : (snd <$> sends) `prefix_of` tn_accepted ta).
  { etransitivity; [exact F4|]. rewrite <- (omap_Some (tn_accepted ta)). by apply prefix_omap. }
  assert (Hks : Forall (λ k, k < length sends)%nat (take n ks)).
  { apply Forall_take. apply Forall_forall. intros k [[k' v] [-> [_ Hk]%list_elem_of_filter]]%list_elem_of_fmap.
    apply elem_of_zip_l in Hk. rewrite Forall_forall in Hord. by apply Hord. }
  assert (Hsame : ∀ k, (k < length sends)%nat → (snd <$> sends) !!! k = tn_accepted ta !!! k ∧ (snd <$> sends) !!! k ≠ []).
  { intros k Hk. destruct Hacc as [rest ->]. rewrite lookup_total_app_l by (by rewrite length_fmap). split; [done|].
    destruct (lookup_lt_is_Some_2 sends k Hk) as [[rnd pkt] Hp].
    rewrite (list_lookup_total_correct (snd <$> sends) k pkt) by by rewrite list_lookup_fmap, Hp.
    destruct (Forall_lookup_1 _ _ _ _ Hv Hp) as [_ _ _ (b & r & E & _)]. cbn in E. by rewrite E. }
  split; [rewrite <- (take_drop n ks) in Hnd; by apply NoDup_app in Hnd as [? _]|]. split_and!.
  - eapply Forall_impl; [exact Hks|]. cbv beta. intros k Hk. apply prefix_length in Hacc. rewrite length_fmap in Hacc. lia.
  - rewrite G2. apply list_fmap_ext. intros j k Hj. apply Hsame. by apply (Forall_lookup_1 _ _ _ _ Hks Hj).
  - eapply Forall_impl; [exact Hks|]. cbv beta. intros k Hk. destruct (Hsame k Hk) as [<- ?]. done.
  - intros Hp. specialize (Hseq Hp). pose proof (Hall _ Hseq) as Ek. fold ks in Ek. rewrite Ek, Hseq, take_seq.
    by rewrite length_seq.
  - intros [[D1 D2] D3 [D4 D5] D6 (D7 & D8 & D9 & D10) [D11 D12] D13].
    assert (Hp : rx_wire rx `prefix_of` tx_wire t) by by rewrite D6.
    specialize (Hseq Hp). pose proof (Hall _ Hseq) as Ek. fold ks in Ek.
    destruct (F6 D2) as [F7 F8], (G3 D12) as [_ G5]. specialize (R2 D7 D8 D9 D10 D11 D12).
    rewrite D6, (T2 D4 D5 D3), F8, Eord in R2. apply (f_equal length) in R2, G5. rewrite !length_fmap in *.
    fold n in G5. rewrite D1, omap_Some in F7. rewrite <- F7, length_fmap, length_take, G5, Ek. fold sends. lia.
Qed.

End Path.

(* ------------------------------------------------------------------ *)
(** ** Two sessions *)

(** The two sessions hold mirrored records of a child with the same suite and
    keys; the sender's pipeline started with the codecs it builds for the child,
    the receiver's has the codec it builds for it. Until now the sender has not
    replaced the child and the receiver kept its inbound SPI, whatever other
    children it installed and removed. The application wrote IP packets. *)
Record session_pair {C : Crypto} (ca cb : PublicConfig) (warnA warnB : Z) (a b : ChildSA) (sel : option Selection)
    (enc : EncryptionAlg) (ig : Integrity) (keys : ChildKeys) (pa pb : Pipeline) (wa wb : Workers) : Prop := {
  sp_child : mirrored a b ∧ negotiated sel enc ig ∧ keys_fit enc ig keys ∧ 0 < OutboundSPI a < 2 ^ 32;
  sp_out : ∃ ia oa, child_codecs ca warnA a sel keys = Ok (ia, oa) ∧ pl_outbound pa = Some oa;
  sp_in : ∃ ib ob table, child_codecs cb warnB b sel keys = Ok (ib, ob) ∧ pl_inbound pb = Some table ∧
    table !! InboundSPI b = Some ib;
  sp_runs : run_reachable pa wa ∧ run_reachable pb wb;
  sp_keeps : keeps_out (wk_log wa) ∧ keeps_in (InboundSPI b) (wk_log wb);
  sp_valid : Forall (λ s, valid_send enc s.1 s.2) (log_sends (wk_log wa)) ∧ len (log_sends (wk_log wa)) < 2 ^ 32 }.

Lemma session_pair_sharing {C : Crypto} ca cb warnA warnB a b sel enc ig keys pa pb wa wb :
  session_pair ca cb warnA warnB a b sel enc ig keys pa pb wa wb →
  ∃ o i table, sharing (childOutboundConfig ca warnA a sel keys) (childInboundConfig b sel keys) enc ig
    (own_keys a keys) (own_keys b keys) o i pa pb table wa wb.
Proof.
  intros [(Hm & Hn & Hk & Hspi) (ia & oa & Ea & Hpa) (ib & ob & table & Eb & Hpb & Ht) Hr Hke Hv].
  pose proof (own_keys_fit _ _ _ a Hk) as [K1 _ K3 _ [K5 _]]. destruct (own_keys_mirrored a b keys Hm) as [M1 M2].
  destruct (child_codecs_ok ca warnA a sel keys enc ig Hn Hk) as (ia' & oa' & Ea' & _ & _ & _ & Eoa).
  destruct (child_codecs_ok cb warnB b sel keys enc ig Hn Hk) as (ib' & ob' & Eb' & _ & _ & Eib & _).
  rewrite Ea in Ea'. rewrite Eb in Eb'. simplify_eq. destruct Hm as (Hs & _ & _).
  rewrite Hs in Ht, Hke. by exists oa', ib', table.
Qed.

Lemma client_reads (cap : nat) (calls : list (nat * list turn)) (t : Tunnel) (outs : list (list Z)) :
  client calls (new_tunnel cap) = (t, Ok <$> outs) →
  (abs_reads (fst <$> calls) (payloads (tn_arrived t))).1 = outs.
Proof.
  intros Hc. destruct (client_spec calls (new_tunnel cap) t _ (new_tunnel_inv cap) Hc) as (extra & A & _ & H).
  specialize (H outs eq_refl). cbn in A. change (abs (new_tunnel cap)) with (@nil (list Z)) in H. cbn [app] in H.
  by rewrite A, H.
Qed.

(** [C1] End to end. Two sessions share a child SA. Whatever the schedules of the
    workers, the transport's writer and reader and the control traffic that shares
    them, and whatever the network does short of making up datagrams: the packets
    that arrive in the receiver's tunnel are packets the sender's application
    wrote, unchanged and none of them twice ([ks] says which), and the receiver's
    reads return exactly their bytes, packet by packet. When the network keeps the
    order nothing is lost before the end: they are the first ones written, in the
    order written. When moreover nothing is on its way any more, they are all
    that was written. *)
Theorem end_to_end {C : Crypto} {L : CryptoLaws} (ca cb : PublicConfig) (warnA warnB : Z) (a b : ChildSA)
    (sel : option Selection) (enc : EncryptionAlg) (ig : Integrity) (keys : ChildKeys) (pa pb : Pipeline)
    (ta : Tunnel) (wa : Workers) (wire : Wire) (events : list tx_event) (t : Tx) (out : option (res unit))
    (rx : Rx) (wb : Workers) (tb : Tunnel) (cap : nat) (calls : list (nat * list turn)) (outs : list (list Z)) :
  session_pair ca cb warnA warnB a b sel enc ig keys pa pb wa wb →
  wire_takes wire → tx_run wire events (mkTx [] false false 0 [] []) = (t, out) →
  Forall (λ f, fr_kind f ≠ KindESP → fits f) (queued events) → rx_reachable rx →
  client calls (new_tunnel cap) = (tb, Ok <$> outs) → connected ta wa events rx wb tb →
  (∀ d, d ∈ rx_wire rx → d ∈ tx_wire t) →
  ∃ ks, NoDup ks ∧ Forall (λ k, k < length (tn_accepted ta))%nat ks ∧
    pkt_IP <$> tn_arrived tb = (λ k, tn_accepted ta !!! k) <$> ks ∧
    (abs_reads (fst <$> calls) ((λ k, tn_accepted ta !!! k) <$> ks)).1 = outs ∧
    (rx_wire rx `prefix_of` tx_wire t → ks = seq 0 (length ks)) ∧
    (drained ta wa events t out rx wb tb → pkt_IP <$> tn_arrived tb = tn_accepted ta).
Proof.
  intros (o & i & table & Hs)%session_pair_sharing Hw Hrun Hctl Hrx Hc Hcn Hnet.
  destruct (path_spec _ _ _ _ _ _ _ _ _ _ _ ta wa wire events t out rx wb tb Hs Hw Hrun Hrx Hctl Hcn Hnet)
    as (ks & Hnd & Hlt & Eip & Hne & Hord & Hdr).
  pose proof (prefix_fmap pkt_IP _ _ (cn_read _ _ _ _ _ _ Hcn)) as Hp. rewrite Eip in Hp. apply prefix_of_fmap in Hp.
  rewrite length_fmap in Hp. set (n := length (tn_arrived tb)) in Hp. exists (take n ks).
  split; [rewrite <- (take_drop n ks) in Hnd; by apply NoDup_app in Hnd as [? _]|]. split; [by apply Forall_take|].
  split; [done|]. split.
  - rewrite <- (client_reads cap calls tb outs Hc). unfold payloads. rewrite Hp. do 2 f_equal. symmetry.
    apply filter_keep, Forall_fmap, Forall_take. exact Hne.
  - split; [intros Hpre; rewrite (Hord Hpre), take_seq; by rewrite length_seq|]. intros Hd. pose proof (Hdr Hd) as Hl.
    
    assert (Hpre : rx_wire rx `prefix_of` tx_wire t) by by rewrite (dr_wire _ _ _ _ _ _ _ _ Hd).
    rewrite (dr_read _ _ _ _ _ _ _ _ Hd), Eip, (Hord Hpre), Hl. symmetry. apply lookup_all.
Qed.

(* ------------------------------------------------------------------ *)
(** ** Witnesses *)

(** The responder of a child sends two packets to its initiator; an IKE message
    shares the wire. *)
Definition end_a : ChildSA := demo_child 9 4096 false.
Definition end_b : ChildSA := demo_child 4096 9 true.
Definition end_pipeline (child : ChildSA) : Pipeline :=
  match child_codecs demo_public 5 child sample_selection sample_keys with
  | Ok (i, o) => NewPipeline (Some i) (Some o)
  | _ => NewPipeline None None
  end.
Definition end_turns : list turn := replicate 4 (mkTurn [] false).
Definition end_ta : Tunnel := (Write [96; 7] end_turns (Write [69; 1; 2] end_turns (new_tunnel 4)).1).1.
Definition end_moves_a : list move :=
  [PutIp (Some [69; 1; 2]); PutIp (Some [96; 7])] ++ replicate 6 (MoveOut demo_random false).
Definition end_wa : Workers := default (start_workers (end_pipeline end_a))
  (do_moves (C := xor_crypto) end_moves_a (start_workers (end_pipeline end_a))).
Definition end_datagram (k : nat) : list Z := default [] (fr_payload <$> wk_tx end_wa !! k).
Definition end_events : list tx_event := TxQueue (Some demo_ike) :: ((λ f, TxQueue (Some f)) <$> wk_tx end_wa) ++ [TxBurst].
Definition end_tx : Tx := (tx_run demo_wire end_events (mkTx [] false false 0 [] [])).1.

(** One read brings the three datagrams; the second ESP packet waits for the tick. *)
Definition end_rx (d1 d2 : list Z) : Rx :=
  let ds := [[0; 0; 0; 0; 1; 2]; d1; d2] in
  mkRx 3 0 false RdIdle None [] true None None [mkPacket KindIKE [1; 2] 0]
    [[mkPacket KindESP d1 1]; [mkPacket KindESP d2 2]] [] ds ds.

Lemma end_rx_reachable d1 d2 : Classify d1 = KindESP → Classify d2 = KindESP → rx_reachable (end_rx d1 d2).
Proof.
  intros H1 H2.
  eapply rtc_l; [apply (rx_read _ [[0; 0; 0; 0; 1; 2]; d1; d2] 0 None); done|].
  eapply rtc_l; [eapply (rx_deliver _ 0 _ _ _ _ true); [reflexivity|done|done]|].
  eapply rtc_l; [eapply (rx_deliver _ 1 _ _ _ _ true); [reflexivity|done|done]|].
  unfold classifyAndDeliver at 1. rewrite H1.
  eapply rtc_l; [eapply (rx_run_taken _ false); reflexivity|].
  eapply rtc_l; [eapply (rx_deliver _ 2 _ _ _ _ true); [reflexivity|done|done]|].
  unfold classifyAndDeliver at 1. rewrite H2.
  eapply rtc_l; [eapply rx_run_tick; reflexivity|].
  eapply rtc_l; [eapply (rx_run_taken _ true); reflexivity|].
  eapply rtc_l; [eapply rx_read_done; reflexivity|]. apply rtc_refl.
Qed.

Definition end_moves_b : list move :=
  (PutEsp <$> channel_batches (rx_esp (end_rx (end_datagram 0) (end_datagram 1)))) ++ replicate 8 (MoveIn false).
Definition end_wb : Workers := default (start_workers (end_pipeline end_b))
  (do_moves (C := xor_crypto) end_moves_b (start_workers (end_pipeline end_b))).
Definition end_calls : list (nat * list turn) :=
  [(2%nat, [mkTurn [] false; mkTurn (Arrive <$> wk_ipOut end_wb) false]); (9%nat, []); (9%nat, end_turns)].
Definition end_tb : Tunnel := (client end_calls (new_tunnel 4)).1.

Lemma end_pair : session_pair (C := xor_crypto) demo_public demo_public 5 5 end_a end_b sample_selection sample_enc
  sample_integ sample_keys (end_pipeline end_a) (end_pipeline end_b) end_wa end_wb.
Proof.
  constructor.
  - split_and!; [done|exact sample_negotiated|exact sample_keys_fit|done|done].
  - eexists _, _. split; vm_compute; reflexivity.
  - eexists _, _, _. split; [vm_compute; reflexivity|]. split; vm_compute; reflexivity.
  - split; [apply (do_moves_sound (C := xor_crypto) end_moves_a)|apply (do_moves_sound (C := xor_crypto) end_moves_b)];
      vm_compute; reflexivity.
  - assert (Ea : wk_log end_wa = [EvGroup (log_sends (wk_log end_wa))]) by (vm_compute; reflexivity).
    assert (Eb : wk_log end_wb = EvIn <$> log_in (wk_log end_wb)) by (vm_compute; reflexivity).
    rewrite Ea, Eb. split; [by repeat constructor|]. apply Forall_fmap, Forall_true. done.
  - assert (E : log_sends (wk_log end_wa) = sample_sends) by (vm_compute; reflexivity). rewrite E.
    split; [exact sample_sends_valid|done].
Qed.

Lemma end_connected : connected end_ta end_wa end_events (end_rx (end_datagram 0) (end_datagram 1)) end_wb end_tb.
Proof. constructor; exists []; vm_compute; reflexivity. Qed.

Lemma end_drained : drained end_ta end_wa end_events end_tx None (end_rx (end_datagram 0) (end_datagram 1)) end_wb end_tb.
Proof.
  constructor.
  - split; [vm_compute; reflexivity|left; vm_compute; reflexivity].
  - vm_compute. reflexivity.
  - split; vm_compute; reflexivity.
  - vm_compute. reflexivity.
  - done.
  - split; [vm_compute; reflexivity|left; vm_compute; reflexivity].
  - vm_compute. reflexivity.
Qed.

Lemma end_control_fits : Forall (λ f, fr_kind f ≠ KindESP → fits f) (queued end_events).
Proof.
  assert (E : filter (λ f, fr_kind f ≠ KindESP) (queued end_events) = [demo_ike]) by (vm_compute; reflexivity).
  apply Forall_forall. intros f Hf Hk.
  pose proof (proj2 (list_elem_of_filter (λ f, fr_kind f ≠ KindESP) (queued end_events) f) (conj Hk Hf)) as Hin.
  rewrite E in Hin. clear E Hf Hk. apply list_elem_of_singleton in Hin as ->. by exists [0; 0; 0; 0; 1; 2].
Qed.

Lemma end_to_end_witness : pkt_IP <$> tn_arrived end_tb = tn_accepted end_ta ∧
  tn_accepted end_ta = [[69; 1; 2]; [96; 7]] ∧ (client end_calls (new_tunnel 4)).2 = Ok <$> [[69; 1]; [2]; [96; 7]].
Proof.
  split; [|split; vm_compute; reflexivity].
  destruct (end_to_end (C := xor_crypto) (L := xor_crypto_laws) demo_public demo_public 5 5 end_a end_b sample_selection
    sample_enc sample_integ sample_keys (end_pipeline end_a) (end_pipeline end_b) end_ta end_wa demo_wire end_events end_tx
    None (end_rx (end_datagram 0) (end_datagram 1)) end_wb end_tb 4 end_calls [[69; 1]; [2]; [96; 7]])
    as (ks & _ & _ & _ & _ & _ & H).
  - exact end_pair.
  - exact demo_wire_takes.
  - vm_compute. reflexivity.
  - exact end_control_fits.
  - apply end_rx_reachable; vm_compute; reflexivity.
  - vm_compute. reflexivity.
  - exact end_connected.
  - intros d Hd. rewrite <- (dr_wire _ _ _ _ _ _ _ _ end_drained). exact Hd.
  - exact (H end_drained).
Defined.
