(* ===== verification/Lifecycle.v ===== *)
(** * The lifecycle of a session (src/session.go: Start, Stop, fail, the watchers)

    [Start], [Stop] and the goroutines that watch the layers run concurrently
    around a mutex, two [sync.Once] and the event hub. A state holds the fields
    of the session, where each of them is, and what they did; a step is one of
    them passing one critical section, one emission or one wait. A bounded wait
    may end at any time, and a worker of the transport may exit at any time. *)

From stdpp Require Import relations.
From S2P Require Import Prelude.

(** The events of the lifecycle; [Hs]: emitted by the handshake's failure path. *)
Inductive sevent :=
  | EvStarting | EvHandshakeStarted | EvHsBroken | EvHsStopped
  | EvHandshakeCompleted | EvConfigAssigned | EvStarted
  | EvAssignedUpdated | EvBroken | EvStopping | EvStopped.
#[global] Instance sevent_eq_dec : EqDecision sevent.
Proof. solve_decision. Defined.

(** Where a call of [Start] is. *)
Inductive start_pc := SIdle | SEmitStarting | SEmitHandshake | SInstall | SHandshake | SReturn.

(** A goroutine: [monitorTransport] of a generation of workers, [watchRunning],
    [watchDataFatal], [watchControlUpdates]; then [fail] before its check and
    after it, and a call of [Stop] that has not entered [stopOnce] yet. *)
Inductive thread := TMonitor (gen : nat) | TRunning | TFatal | TUpdates | TFail | TBroken | TStop.

(** Where the body of [stopOnce] is, with what it snapshot. *)
Inductive stop_pc :=
  | PNot | PLock
  | PNeverStopped | PNeverDone
  | PEmit (tunnel : bool) | PEnd (tunnel : bool) | PWait | PClose (exited : bool) | PWorkers | PChannel | PStopped | PDone
  | PHub | PReturned.

#[global] Instance stop_pc_eq_dec : EqDecision stop_pc.
Proof. solve_decision. Defined.

(** [s_gen]: generations of rx/tx workers created ([s.rx != nil] iff positive);
    [s_dead]: those of which a worker has exited; [s_runningDone]: nil, open or
    closed; [s_ended]: the tunnel surface is; [s_close]: the close sequence ran;
    [s_done], [s_pktOut]: how often those channels were closed. *)
Record Session := mkSession {
  s_started : bool;
  s_starting : bool;
  s_stopping : bool;
  s_tunnel : bool;
  s_gen : nat;
  s_dead : list nat;
  s_runningDone : option bool;
  s_ended : bool;
  s_cancelled : bool;
  s_close : bool;
  s_done : nat;
  s_pktOut : nat;
  s_hub_closed : bool;
  s_broken : bool;
  s_start : start_pc;
  s_stop : stop_pc;
  s_threads : list thread;
  s_log : list sevent }.
#[global] Instance eta_Session : Eta Session := λ s,
  mkSession (s_started s) (s_starting s) (s_stopping s) (s_tunnel s) (s_gen s) (s_dead s) (s_runningDone s) (s_ended s)
    (s_cancelled s) (s_close s) (s_done s) (s_pktOut s) (s_hub_closed s) (s_broken s) (s_start s) (s_stop s)
    (s_threads s) (s_log s).

Definition new_session : Session :=
  mkSession false false false false 0 [] None false false false 0 0 false false SIdle PNot [] [].

(** [emit]: the hub takes it unless it is closed. *)
Definition emit (ev : sevent) (s : Session) : Session :=
  if s_hub_closed s then s else s <| s_log := s_log s ++ [ev] |>.

(* ------------------------------------------------------------------ *)
(** ** Start *)

(** The guards of [Start]. *)
Definition Start_guard (s : Session) : res unit :=
  if s_started s || s_starting s then Err "swan: session already started"
  else if s_stopping s then Err "swan: session is stopping"
  else Ok tt.

(** A call of [Start]: rejected, or under way. *)
Definition Start_call (s : Session) : Session :=
  match Start_guard s with Ok _ => s <| s_starting := true |> <| s_start := SEmitStarting |> | _ => s end.

(** The pre-handshake actors are installed under the mutex. *)
Definition start_install (s : Session) : Session :=
  if s_stopping s then s <| s_start := SReturn |>
  else s <| s_gen := S (s_gen s) |> <| s_threads := s_threads s ++ [TMonitor (s_gen s)] |> <| s_start := SHandshake |>.

(** The handshake fails: the control layer has announced it; the workers are
    closed and [Start] returns the error. *)
Definition start_failed (s : Session) : Session :=
  emit EvHsStopped (emit EvHsBroken s) <| s_start := SReturn |>.

(** The handshake succeeds: the running state is committed under the mutex,
    unless a [Stop] has arrived. *)
Definition start_commit (s : Session) : Session :=
  if s_stopping s then s <| s_start := SReturn |>
  else
  emit EvStarted (emit EvConfigAssigned (emit EvHandshakeCompleted
    (s <| s_tunnel := true |> <| s_started := true |> <| s_runningDone := Some false |>)))
    <| s_threads := s_threads s ++ [TRunning; TFatal; TUpdates] |> <| s_start := SReturn |>.

Definition start_return (s : Session) : Session := s <| s_starting := false |> <| s_start := SIdle |>.

(* ------------------------------------------------------------------ *)
(** ** The watchers *)

(** Goroutine [i] becomes [t], or ends. *)
Definition become (i : nat) (t : option thread) (s : Session) : Session :=
  match t with
  | Some t => s <| s_threads := <[i := t]> (s_threads s) |>
  | None => s <| s_threads := delete i (s_threads s) |>
  end.

(** [monitorTransport] after a worker of its generation exited. *)
Definition monitor_wakes (i : nat) (s : Session) : Session :=
  become i (if s_started s && negb (s_stopping s) then Some TFail else None) s.

(** How the Running actor exits. *)
Inductive exit := ExitClean | ExitCancelled | ExitError.
Definition running_exits (i : nat) (e : exit) (s : Session) : Session :=
  let s := s <| s_runningDone := Some true |> in
  match e with
  | ExitClean => become i (Some TStop) s
  | ExitCancelled => become i (if s_stopping s then None else Some TStop) s
  | ExitError => become i (Some TFail) s
  end.

(** [fail]: its check, and the announcement. *)
Definition fail_check (i : nat) (s : Session) : Session := become i (if s_stopping s then None else Some TBroken) s.
Definition fail_broken (i : nat) (s : Session) : Session :=
  become i (Some TStop) (if s_broken s then s else emit EvBroken s <| s_broken := true |>).

(* ------------------------------------------------------------------ *)
(** ** Stop *)

(** A call reaches [stopOnce]: the first one runs the body, one that finds it
    done returns. *)
Definition stop_call (i : nat) (s : Session) : Session :=
  match s_stop s with
  | PNot => become i None s <| s_stop := PLock |>
  | _ => become i None s
  end.

Definition stop_step (s : Session) : Session :=
  match s_stop s with
  | PNot | PReturned => s
  | PLock =>
      if negb (s_started s) && negb (s_tunnel s) && (s_gen s =? 0)%nat
      then s <| s_stopping := true |> <| s_stop := PNeverStopped |>
      else if s_stopping s then s <| s_stop := PReturned |>
      else s <| s_stopping := true |> <| s_stop := PEmit (s_tunnel s) |>
  | PNeverStopped => emit EvStopped s <| s_stop := PNeverDone |>
  | PNeverDone => s <| s_done := S (s_done s) |> <| s_stop := PHub |>
  | PEmit t => emit EvStopping s <| s_stop := PEnd t |>
  | PEnd t => s <| s_ended := s_ended s || t |> <| s_cancelled := true |> <| s_stop := PWait |>
  | PWait => s <| s_stop := PClose false |>
  | PClose exited => s <| s_close := s_close s || exited |> <| s_stop := PWorkers |>
  | PWorkers => s <| s_stop := PChannel |>
  | PChannel => s <| s_pktOut := S (s_pktOut s) |> <| s_stop := PStopped |>
  | PStopped => emit EvStopped s <| s_stop := PDone |>
  | PDone => s <| s_done := S (s_done s) |> <| s_stop := PHub |>
  | PHub => s <| s_hub_closed := true |> <| s_stop := PReturned |>
  end.

Inductive step : Session → Session → Prop :=
  | step_Start s : step s (Start_call s)
  | step_Stop s : step s (s <| s_threads := s_threads s ++ [TStop] |>)
  | step_starting s : s_start s = SEmitStarting → step s (emit EvStarting s <| s_start := SEmitHandshake |>)
  | step_handshake s : s_start s = SEmitHandshake → step s (emit EvHandshakeStarted s <| s_start := SInstall |>)
  | step_install s : s_start s = SInstall → step s (start_install s)
  | step_failed s : s_start s = SHandshake → step s (start_failed s)
  | step_commit s : s_start s = SHandshake → step s (start_commit s)
  | step_return s : s_start s = SReturn → step s (start_return s)
  | step_exit s g : (g < s_gen s)%nat → step s (s <| s_dead := s_dead s ++ [g] |>)
  | step_monitor s i g : s_threads s !! i = Some (TMonitor g) → g ∈ s_dead s → step s (monitor_wakes i s)
  | step_running s i e : s_threads s !! i = Some TRunning → step s (running_exits i e s)
  | step_fatal s i : s_threads s !! i = Some TFatal → step s (become i (Some TFail) s)
  | step_fatal_end s i : s_threads s !! i = Some TFatal → (0 < s_done s)%nat → step s (become i None s)
  | step_update s i : s_threads s !! i = Some TUpdates → step s (emit EvAssignedUpdated s)
  | step_update_end s i : s_threads s !! i = Some TUpdates → (0 < s_done s)%nat → step s (become i None s)
  | step_fail s i : s_threads s !! i = Some TFail → step s (fail_check i s)
  | step_broken s i : s_threads s !! i = Some TBroken → step s (fail_broken i s)
  | step_stop_call s i : s_threads s !! i = Some TStop → s_stop s = PNot ∨ s_stop s = PReturned → step s (stop_call i s)
  | step_stop s : step s (stop_step s)
  | step_wait s : s_stop s = PWait → s_runningDone s = Some true → step s (s <| s_stop := PClose true |>).

Definition reachable : Session → Prop := rtc step new_session.

(* ------------------------------------------------------------------ *)
(** ** The invariant *)

(** The events of a log among [K]. *)
Definition only (K : list sevent) (log : list sevent) : list sevent := filter (λ e, e ∈ K) log.
#[global] Arguments only : simpl never.

Lemma only_in K log e : e ∈ K → only K (log ++ [e]) = only K log ++ [e].
Proof. intros H. unfold only. by rewrite filter_app, filter_cons_True. Qed.
Lemma only_out K log e : e ∉ K → only K (log ++ [e]) = only K log.
Proof. intros H. unfold only. rewrite filter_app, filter_cons_False by done. apply app_nil_r. Qed.

Definition fate_events : list sevent := [EvStarted; EvStopping; EvStopped].
Definition success_events : list sevent := [EvHandshakeCompleted; EvConfigAssigned; EvStarted].
Definition broken_events : list sevent := [EvStarted; EvBroken].

(** What the body of [Stop] has announced so far. *)
Definition stop_said (s : Session) : list sevent :=
  match s_stop s with
  | PNot | PLock | PNeverStopped | PEmit _ => []
  | PNeverDone => [EvStopped]
  | PEnd _ | PWait | PClose _ | PWorkers | PChannel | PStopped => [EvStopping]
  | PDone => [EvStopping; EvStopped]
  | PHub | PReturned => if (s_pktOut s =? 0)%nat then [EvStopped] else [EvStopping; EvStopped]
  end.

(** Goroutines that exist only once the session is established. *)
Definition late (t : thread) : bool := match t with TMonitor _ | TStop => false | _ => true end.

Record inv (s : Session) : Prop := {
  iv_stopping : s_stopping s = match s_stop s with PNot | PLock => false | _ => true end;
  iv_done : s_done s = match s_stop s with PHub | PReturned => 1%nat | _ => 0%nat end;
  iv_pktOut : match s_stop s with PStopped | PDone => s_pktOut s = 1%nat | PHub | PReturned => (s_pktOut s <= 1)%nat | _ => s_pktOut s = 0%nat end;
  iv_hub : s_hub_closed s = match s_stop s with PReturned => true | _ => false end;
  iv_never : match s_stop s with PNeverStopped | PNeverDone => s_started s = false
             | PHub | PReturned => s_pktOut s = 0%nat → s_started s = false | _ => True end;
  iv_tunnel : s_tunnel s = s_started s;
  iv_running : (s_started s = false → s_runningDone s = None);
  iv_fate : only fate_events (s_log s) = (if s_started s then [EvStarted] else []) ++ stop_said s;
  iv_success : only success_events (s_log s) = if s_started s then success_events else [];
  iv_broken : only broken_events (s_log s) =
    (if s_started s then [EvStarted] else []) ++ (if bool_decide (EvBroken ∈ s_log s) then [EvBroken] else []);
  iv_said : EvBroken ∈ s_log s → s_broken s = true ∧ s_started s = true;
  iv_late : ∀ i t, s_threads s !! i = Some t → late t = true → s_started s = true;
  iv_close : (s_close s = true ∨ s_stop s = PClose true) → s_runningDone s = Some true;
  iv_snapshot : match s_stop s with PEmit t | PEnd t => t = s_tunnel s | _ => True end;
  iv_ended : match s_stop s with PNot | PLock | PEmit _ | PEnd _ => True | _ => s_tunnel s = true → s_ended s = true end;
  iv_starting : s_starting s = match s_start s with SIdle => false | _ => true end;
  iv_handshake : s_start s ≠ SIdle → s_start s ≠ SReturn → s_started s = false }.

Lemma inv_init : inv new_session.
Proof. constructor; cbn; try done; [by intros H%not_elem_of_nil|by intros [H|H]]. Qed.

(** Emissions that concern none of the selections. *)
Definition silent (e : sevent) : Prop := (e ∉ fate_events) ∧ (e ∉ success_events) ∧ (e ∉ broken_events).
Lemma emit_silent e s : silent e → let s' := emit e s in
  only fate_events (s_log s') = only fate_events (s_log s) ∧ only success_events (s_log s') = only success_events (s_log s) ∧
  only broken_events (s_log s') = only broken_events (s_log s) ∧ (EvBroken ∈ s_log s' ↔ EvBroken ∈ s_log s).
Proof.
  intros (H1 & H2 & H3). unfold emit. destruct (s_hub_closed s); [done|]. cbn. rewrite !only_out by done.
  split_and!; [done..|]. rewrite elem_of_app, list_elem_of_singleton. split; [|by left]. intros [|<-]; [done|].
  destruct H3. right. left.
Qed.

(** A step of [Start] or of a watcher that announces nothing of interest leaves
    the session's fields and [Stop] alone. *)
Record same (s s' : Session) : Prop := {
  sm_core : (s_started s', s_stopping s', s_tunnel s', s_runningDone s', s_ended s', s_close s', s_done s', s_pktOut s',
             s_hub_closed s', s_broken s', s_stop s') =
            (s_started s, s_stopping s, s_tunnel s, s_runningDone s, s_ended s, s_close s, s_done s, s_pktOut s,
             s_hub_closed s, s_broken s, s_stop s);
  sm_fate : only fate_events (s_log s') = only fate_events (s_log s);
  sm_success : only success_events (s_log s') = only success_events (s_log s);
  sm_broken : only broken_events (s_log s') = only broken_events (s_log s);
  sm_said : EvBroken ∈ s_log s' ↔ EvBroken ∈ s_log s }.

Lemma same_refl s s' : (s_started s', s_stopping s', s_tunnel s', s_runningDone s', s_ended s', s_close s', s_done s', s_pktOut s',
             s_hub_closed s', s_broken s', s_stop s') =
            (s_started s, s_stopping s, s_tunnel s, s_runningDone s, s_ended s, s_close s, s_done s, s_pktOut s,
             s_hub_closed s, s_broken s, s_stop s) → s_log s' = s_log s → same s s'.
Proof. intros H E. constructor; rewrite ?E; done. Qed.

Lemma same_emit e s s1 : silent e → same s s1 → same s (emit e s1).
Proof.
  intros He [H1 H2 H3 H4 H5]. destruct (emit_silent e s1 He) as (E1 & E2 & E3 & E4).
  constructor; [rewrite <- H1; unfold emit; destruct (s_hub_closed s1) eqn:Eh; cbn; by rewrite ?Eh|by rewrite E1|by rewrite E2|by rewrite E3|by rewrite E4].
Qed.

Lemma inv_same s s' : inv s → same s s' →
  s_starting s' = match s_start s' with SIdle => false | _ => true end →
  (s_start s' ≠ SIdle → s_start s' ≠ SReturn → s_started s = false) →
  (∀ i t, s_threads s' !! i = Some t → late t = true → s_started s = true) → inv s'.
Proof.
  intros I [Hc H1 H2 H3 H4] Hs Hh Hl. destruct I, s, s'; cbn in *. simplify_eq.
  assert (Hb : bool_decide (EvBroken ∈ s_log1) = bool_decide (EvBroken ∈ s_log0)) by (by apply bool_decide_ext).
  constructor; unfold stop_said; cbn; rewrite ?H1, ?H2, ?H3, ?Hb; try done. by rewrite H4.
Qed.

Lemma silent_dec e : e ∈ [EvStarting; EvHandshakeStarted; EvHsBroken; EvHsStopped; EvAssignedUpdated] → silent e.
Proof. intros H. split_and!; intros H'; destruct e; set_solver. Qed.

(** The goroutines after one of them changed. *)
Lemma become_threads i t s : ∀ j u, s_threads (become i t s) !! j = Some u →
  (∃ k, s_threads s !! k = Some u) ∨ t = Some u.
Proof.
  intros j u. unfold become. destruct t as [t|]; cbn.
  - intros H. destruct (decide (i = j)) as [->|Hne].
    + destruct (lookup_lt_is_Some_2 (s_threads s) j) as [x Hx].
      { apply lookup_lt_Some in H. by rewrite length_insert in H. }
      rewrite list_lookup_insert_eq in H by (by eapply lookup_lt_Some). injection H as <-. by right.
    + rewrite list_lookup_insert_ne in H by done. left. by exists j.
  - intros H%list_elem_of_lookup_2. left. apply list_elem_of_lookup_1.
    rewrite delete_take_drop, elem_of_app in H. rewrite <- (take_drop i (s_threads s)), elem_of_app.
    destruct H as [H|H]; [by left|]. right. rewrite <- (Nat.add_1_r i), <- drop_drop in H.
    rewrite <- (take_drop 1 (drop i (s_threads s))), elem_of_app. by right.
Qed.

Lemma become_same i t s : same s (become i t s).
Proof. apply same_refl; by destruct t. Qed.

Lemma inv_become s i t : inv s → (∀ u, t = Some u → late u = true → s_started s = true) → inv (become i t s).
Proof.
  intros I Ht. eapply inv_same; [exact I|apply become_same| | |].
  - unfold become. destruct t; apply (iv_starting _ I).
  - intros H1 H2. apply (iv_handshake _ I); by destruct t.
  - intros j u Hj Hl. destruct (become_threads _ _ _ _ _ Hj) as [[k Hk]|Hu]; [by apply (iv_late _ I k u)|by apply (Ht u)].
Qed.

(** A step of [Start] that goes on. *)
Lemma inv_start s s' : inv s → same s s' → s_threads s' = s_threads s → s_starting s' = s_starting s →
  s_start s ≠ SIdle → s_start s' ≠ SIdle → (s_start s' ≠ SReturn → s_start s ≠ SReturn) → inv s'.
Proof.
  intros I Hs Ht Hst H1 H2 H3. eapply inv_same; [exact I|exact Hs| | |].
  - rewrite Hst, (iv_starting _ I). by destruct (s_start s), (s_start s').
  - intros _ H. apply (iv_handshake _ I); auto.
  - rewrite Ht. apply (iv_late _ I).
Qed.

Lemma inv_commit s : inv s → s_start s = SHandshake → inv (start_commit s).
Proof.
  intros I Hp. unfold start_commit. destruct (s_stopping s) eqn:Es.
  { apply (inv_start s); [done|by apply same_refl|done|done|by rewrite Hp|done|by rewrite Hp]. }
  pose proof (iv_handshake _ I) as Hn. rewrite Hp in Hn. specialize (Hn ltac:(done) ltac:(done)).
  pose proof (iv_stopping _ I) as Hst. rewrite Es in Hst. assert (Hh : s_hub_closed s = false) by (rewrite (iv_hub _ I); by destruct (s_stop s)).
  unfold emit. do 3 (cbn; rewrite ?Hh). cbn.
  assert (Hb : ¬ EvBroken ∈ s_log s) by (intros [_ H]%(iv_said _ I); congruence).
  destruct I. rewrite Hn in *. constructor; cbn; try done.
  - by destruct (s_stop s).
  - by destruct (s_stop s).
  - unfold stop_said in *. cbn. rewrite only_in by (left). rewrite !only_out, iv_fate0 by (by apply (bool_decide_unpack _)).
    destruct (s_stop s); done.
  - rewrite !only_in, iv_success0 by (by apply (bool_decide_unpack _)). done.
  - rewrite only_in by (left). rewrite !only_out, iv_broken0 by (by apply (bool_decide_unpack _)).
    rewrite !bool_decide_false; [done| |done]. rewrite !elem_of_app, !list_elem_of_singleton. intuition congruence.
  - rewrite !elem_of_app, !list_elem_of_singleton. intuition congruence.
  - intros H. apply iv_close0 in H. rewrite iv_running0 in H by done. discriminate H.
  - by destruct (s_stop s).
  - by destruct (s_stop s).
  - by rewrite iv_starting0, Hp.
Qed.

(** The announcement of [fail]. *)
Lemma inv_say_broken s : inv s → s_started s = true → s_broken s = false → inv (emit EvBroken s <| s_broken := true |>).
Proof.
  intros I Hs Hb. assert (Hn : ¬ EvBroken ∈ s_log s) by (intros [H _]%(iv_said _ I); congruence).
  unfold emit. destruct (s_hub_closed s) eqn:Eh; destruct I; constructor; cbn; try done.
  - rewrite only_out by (by apply (bool_decide_unpack _)). exact iv_fate0.
  - by rewrite only_out by (by apply (bool_decide_unpack _)).
  - rewrite only_in, iv_broken0 by (by apply (bool_decide_unpack _)). rewrite bool_decide_false by done.
    rewrite bool_decide_true; [by rewrite Hs|]. apply elem_of_app. right. by apply list_elem_of_singleton.
Qed.

Lemma broken_snoc e log : e ≠ EvBroken → EvBroken ∈ log ++ [e] ↔ EvBroken ∈ log.
Proof. intros H. rewrite elem_of_app, list_elem_of_singleton. split; [intros [|E]; [done|by destruct H]|by left]. Qed.
Lemma broken_snoc_dec e log : e ≠ EvBroken → bool_decide (EvBroken ∈ log ++ [e]) = bool_decide (EvBroken ∈ log).
Proof. intros H. by apply bool_decide_ext, broken_snoc. Qed.

(** The announcements of [Stop], and its other steps. *)
Lemma inv_stop_step s : inv s → inv (stop_step s).
Proof.
  intros I. unfold stop_step. destruct (s_stop s) eqn:Ep; [exact I|..|exact I].
  all: destruct I; unfold stop_said in *; rewrite Ep in *; cbn in *.
  1: destruct (negb (s_started s) && negb (s_tunnel s) && (s_gen s =? 0)%nat) eqn:En;
     [apply andb_prop in En as [En _]; apply andb_prop in En as [En _]; apply negb_true_iff in En|];
     try rewrite iv_stopping0.
  all: unfold emit; rewrite ?iv_hub0; constructor; cbn; unfold stop_said; cbn; try done; try (by intros; congruence).
  all: rewrite ?only_in, ?only_out by (by apply (bool_decide_unpack _));
    rewrite ?iv_fate0, ?iv_pktOut0, ?broken_snoc, ?broken_snoc_dec, ?app_nil_r, <- ?app_assoc by done; try done.
  all: try (intros [H|H]; [auto|done]).
  - lia.
  - intros H. by rewrite iv_snapshot0, H, orb_true_r.
  - apply iv_close0. apply orb_prop in H as [H|H]; [by left|right; by rewrite H].
Qed.

Lemma inv_wait s : inv s → s_stop s = PWait → s_runningDone s = Some true → inv (s <| s_stop := PClose true |>).
Proof.
  intros I Ep Hr. destruct I; unfold stop_said in *; rewrite Ep in *. constructor; cbn; try done.
Qed.

(** The Running actor exits, which only an established session has. *)
Lemma inv_running_done s : inv s → s_started s = true → inv (s <| s_runningDone := Some true |>).
Proof. intros I Hs. destruct I. constructor; cbn; try done. congruence. Qed.

Lemma inv_Start s : inv s → inv (Start_call s).
Proof.
  intros I. unfold Start_call, Start_guard. destruct (s_started s || s_starting s) eqn:E; [done|].
  apply orb_false_elim in E as [E1 E2]. destruct (s_stopping s); [done|].
  eapply inv_same; [exact I|by apply same_refl|done|done|]. apply (iv_late _ I).
Qed.

Lemma inv_install s : inv s → s_start s = SInstall → inv (start_install s).
Proof.
  intros I Ep. unfold start_install. pose proof (iv_handshake _ I) as Hn. rewrite Ep in Hn.
  destruct (s_stopping s) eqn:Es.
  { apply (inv_start s); [done|by apply same_refl|done|done|by rewrite Ep|done|done]. }
  eapply inv_same; [exact I|by apply same_refl| |by intros _ _; apply Hn|].
  - cbn. by rewrite (iv_starting _ I), Ep.
  - intros i t Hi Hl. apply lookup_app_Some in Hi as [Hi|[_ Hi]]; [by apply (iv_late _ I i t)|].
    cbn in Hi. apply list_lookup_singleton_Some in Hi as [_ <-]. done.
Qed.

Lemma same_start s s1 p : same s s1 → same s (s1 <| s_start := p |>).
Proof. by intros []. Qed.

Lemma emit_fields e s : s_threads (emit e s) = s_threads s ∧ s_starting (emit e s) = s_starting s ∧ s_start (emit e s) = s_start s.
Proof. unfold emit. by destruct (s_hub_closed s). Qed.

Lemma same_id s : same s s.
Proof. by apply same_refl. Qed.

(** [Start] announces [es] and goes on to [p]. *)
Lemma inv_announce s e p : inv s → silent e → s_start s ≠ SIdle → s_start s ≠ SReturn → p ≠ SIdle →
  inv (emit e s <| s_start := p |>).
Proof.
  intros I He H1 H2 H3. destruct (emit_fields e s) as (E1 & E2 & E3).
  apply (inv_start s); [done|by apply same_start, same_emit, same_id|exact E1|exact E2|done|done|done].
Qed.

Lemma inv_step s s' : step s s' → inv s → inv s'.
Proof.
  intros Hs I. destruct Hs.
  - by apply inv_Start.
  - eapply inv_same; [exact I|by apply same_refl|apply (iv_starting _ I)|apply (iv_handshake _ I)|].
    intros i t Hi Hl. apply lookup_app_Some in Hi as [Hi|[_ Hi]]; [by apply (iv_late _ I i t)|].
    cbn in Hi. apply list_lookup_singleton_Some in Hi as [_ <-]. done.
  - apply inv_announce; [done|apply silent_dec; set_solver|by rewrite H..|done].
  - apply inv_announce; [done|apply silent_dec; set_solver|by rewrite H..|done].
  - by apply inv_install.
  - unfold start_failed. destruct (emit_fields EvHsBroken s) as (E1 & E2 & E3).
    destruct (emit_fields EvHsStopped (emit EvHsBroken s)) as (F1 & F2 & F3).
    apply (inv_start s); [done| |cbn; congruence..|by rewrite H|done|by rewrite H].
    apply same_start, same_emit; [apply silent_dec; set_solver|]. apply same_emit; [apply silent_dec; set_solver|apply same_id].
  - by apply inv_commit.
  - eapply inv_same; [exact I|by apply same_refl|done|done|apply (iv_late _ I)].
  - eapply inv_same; [exact I|by apply same_refl|apply (iv_starting _ I)|apply (iv_handshake _ I)|apply (iv_late _ I)].
  - apply inv_become; [done|]. intros u. destruct (s_started s); [done|]. done.
  - assert (Hst : s_started s = true) by (by apply (iv_late _ I i TRunning)).
    unfold running_exits. destruct e; (apply inv_become; [by apply inv_running_done|done]).
  - apply inv_become; [done|]. intros _ _ _. by apply (iv_late _ I i TFatal).
  - by apply inv_become.
  - destruct (emit_fields EvAssignedUpdated s) as (E1 & E2 & E3).
    eapply inv_same; [exact I|apply same_emit; [apply silent_dec; set_solver|apply same_id]|..]; rewrite ?E1, ?E2, ?E3; apply I.
  - by apply inv_become.
  - apply inv_become; [done|]. intros _ _ _. by apply (iv_late _ I i TFail).
  - assert (Hst : s_started s = true) by (by apply (iv_late _ I i TBroken)). unfold fail_broken.
    apply inv_become; [|by intros u [= <-]]. destruct (s_broken s) eqn:Eb; [done|]. by apply inv_say_broken.
  - unfold stop_call. assert (Hb : inv (become i None s)) by (by apply inv_become).
    destruct (s_stop s) eqn:Ep; try done.
    assert (Ep' : s_stop (become i None s) = PNot) by done. generalize dependent (become i None s). intros s1 I1 Ep1.
    destruct I1; unfold stop_said in *; rewrite Ep1 in *. constructor; cbn; try done. intros [Hc|Hc]; [auto|done].
  - by apply inv_stop_step.
  - by apply inv_wait.
Qed.

Lemma reachable_inv s : reachable s → inv s.
Proof.
  intros H. unfold reachable in H. pose proof inv_init as I. revert I.
  induction H as [|s0 s1 s2 Hs _ IH]; [done|]. intros I. by apply IH, (inv_step _ _ Hs).
Qed.

(* ------------------------------------------------------------------ *)
(** ** Progress and finality *)

(** The steps the body of [Stop] still needs. *)
Definition stop_rank (p : stop_pc) : nat :=
  match p with
  | PNot => 12 | PLock => 11 | PEmit _ => 10 | PEnd _ => 9 | PWait => 8 | PClose _ => 7 | PWorkers => 6 | PChannel => 5
  | PStopped => 4 | PNeverStopped => 4 | PDone => 3 | PNeverDone => 3 | PHub => 2 | PReturned => 1
  end.

Lemma emit_more e s : s_stop (emit e s) = s_stop s ∧ s_stopping (emit e s) = s_stopping s ∧ s_started (emit e s) = s_started s.
Proof. unfold emit. by destruct (s_hub_closed s). Qed.

Lemma stop_step_rank s : (stop_rank (s_stop (stop_step s)) <= stop_rank (s_stop s))%nat ∧
  (s_stop s ≠ PNot → s_stop s ≠ PReturned → stop_rank (s_stop (stop_step s)) < stop_rank (s_stop s))%nat.
Proof.
  unfold stop_step. destruct (s_stop s) eqn:E; cbn; rewrite ?E; cbn; try (split; [lia|by intros; lia]); [split; [lia|done]| |split; [lia|done]].
  destruct (_ && _); cbn; [split; lia|]. destruct (s_stopping s); cbn; split; lia.
Qed.

Lemma become_fields i t s : s_stop (become i t s) = s_stop s ∧ s_stopping (become i t s) = s_stopping s ∧ s_started (become i t s) = s_started s.
Proof. by destruct t. Qed.

(** No goroutine takes [Stop] back, and a session that is stopping stays so and
    is not established any more. *)
Lemma step_final s s' : step s s' → (stop_rank (s_stop s') <= stop_rank (s_stop s))%nat ∧
  (s_stopping s = true → s_stopping s' = true ∧ s_started s' = s_started s).
Proof.
  intros Hs. destruct Hs; try (split; [done|done]).
  - unfold Start_call. by destruct (Start_guard s).
  - cbn. destruct (emit_more EvStarting s) as (-> & -> & ->). done.
  - cbn. destruct (emit_more EvHandshakeStarted s) as (-> & -> & ->). done.
  - unfold start_install. by destruct (s_stopping s) eqn:E; cbn; rewrite ?E.
  - unfold start_failed. cbn. destruct (emit_more EvHsStopped (emit EvHsBroken s)) as (-> & -> & ->).
    destruct (emit_more EvHsBroken s) as (-> & -> & ->). done.
  - unfold start_commit. destruct (s_stopping s) eqn:E; [by cbn; rewrite E|]. split; [|done]. cbn.
    by do 3 (rewrite (proj1 (emit_more _ _))).
  - unfold monitor_wakes. by destruct (become_fields i (if s_started s && negb (s_stopping s) then Some TFail else None) s) as (-> & -> & ->).
  - unfold running_exits. destruct e; cbn; [done| |done]. by destruct (s_stopping s) eqn:E; cbn; rewrite ?E.
  - cbn. by destruct (emit_more EvAssignedUpdated s) as (-> & -> & ->).
  - unfold fail_check. by destruct (s_stopping s) eqn:E; cbn; rewrite ?E.
  - unfold fail_broken. cbn. destruct (s_broken s); [done|]. cbn. by destruct (emit_more EvBroken s) as (-> & -> & ->).
  - unfold stop_call. destruct (s_stop s) eqn:E; cbn; rewrite ?E; cbn; split; auto; lia.
  - split; [apply stop_step_rank|]. intros Hst. unfold stop_step. destruct (s_stop s); cbn; try done;
      try (by destruct (emit_more EvStopped s) as (_ & -> & ->)); try (by destruct (emit_more EvStopping s) as (_ & -> & ->)).
    destruct (_ && _); cbn; [done|]. by rewrite Hst.
  - rewrite H. cbn. split; [lia|done].
Qed.

Lemma steps_final s s' : rtc step s s' → s_stopping s = true → s_stopping s' = true ∧ s_started s' = s_started s.
Proof.
  induction 1 as [|s s1 s' Hs _ IH]; [done|]. intros Hst. destruct (step_final _ _ Hs) as [_ H].
  destruct (H Hst) as [H1 H2]. destruct (IH H1) as [H3 H4]. split; [done|congruence].
Qed.

Lemma stop_runs n : ∀ s, s_stop s ≠ PNot → (stop_rank (s_stop s) <= S n)%nat →
  s_stop (Nat.iter n stop_step s) = PReturned ∧ rtc step s (Nat.iter n stop_step s).
Proof.
  induction n as [|n IH]; intros s Hn Hr.
  - split; [|apply rtc_refl]. cbn. destruct (s_stop s); cbn in Hr; try lia; done.
  - rewrite Nat.iter_succ_r. destruct (stop_step_rank s) as [H1 H2].
    destruct (IH (stop_step s)) as [E1 E2].
    + unfold stop_step. destruct (s_stop s) eqn:E; cbn; rewrite ?E; try done. destruct (_ && _); [done|]. by destruct (s_stopping s).
    + destruct (decide (s_stop s = PReturned)) as [E|E]; [rewrite E in H1; cbn in H1; lia|]. specialize (H2 Hn E). lia.
    + split; [done|]. eapply rtc_l; [apply step_stop|exact E2].
Qed.

(* ------------------------------------------------------------------ *)
(** ** Properties *)


(** [C28] Stopping ends, and is final. From every reachable state in which [Stop] was
    entered, at most eleven steps of its body (every wait is bounded) reach its
    return, whatever the others have done; and once the session is stopping,
    whatever happens afterwards, it stays so, it is not established by a
    handshake that completes late, and every [Start] is refused. *)
Theorem session_stop_final (s : Session) : reachable s → s_stop s ≠ PNot →
  s_stop (Nat.iter 11 stop_step s) = PReturned ∧ reachable (Nat.iter 11 stop_step s) ∧
  s_done (Nat.iter 11 stop_step s) = 1%nat ∧
  (s_stopping s = true → ∀ s', rtc step s s' → s_started s' = s_started s ∧ ∃ e, Start_guard s' = Err e).
Proof.
  intros Hr Hn. destruct (stop_runs 11 s Hn) as [E1 E2]; [destruct (s_stop s); cbn; try done; lia|].
  assert (Hr' : reachable (Nat.iter 11 stop_step s)) by (unfold reachable in *; by etrans).
  split; [done|]. split; [done|]. split; [rewrite (iv_done _ (reachable_inv _ Hr')); by rewrite E1|].
  intros Hst s' Hs. destruct (steps_final _ _ Hs Hst) as [H1 H2]. split; [done|].
  unfold Start_guard. destruct (s_started s' || s_starting s'); [eauto|]. rewrite H1. eauto.
Qed.

(* ------------------------------------------------------------------ *)
(** ** Reachable surprises, and witnesses *)

(** A run given by its steps. *)
Ltac run_step tac := eapply rtc_l; [tac; try reflexivity|cbn].

(** A failed [Start] leaves its monitor behind; when it wakes after the next
    [Start] has succeeded, it takes the healthy session for a broken one. *)
Definition stale : Session :=
  mkSession true false false true 2 [0%nat] (Some false) false false false 0 0 false true SIdle PNot
    [TStop; TMonitor 1; TRunning; TFatal; TUpdates]
    [EvStarting; EvHandshakeStarted; EvHsBroken; EvHsStopped; EvStarting; EvHandshakeStarted;
     EvHandshakeCompleted; EvConfigAssigned; EvStarted; EvBroken].

Lemma stale_monitor : reachable stale ∧ (1%nat ∉ s_dead stale) ∧ s_gen stale = 2%nat ∧ EvBroken ∈ s_log stale.
Proof.
  split; [|split; [by apply (bool_decide_unpack _)|split; [done|by apply (bool_decide_unpack _)]]].
  run_step ltac:(apply step_Start). run_step ltac:(apply step_starting). run_step ltac:(apply step_handshake).
  run_step ltac:(apply step_install). run_step ltac:(apply step_failed). run_step ltac:(apply step_return).
  run_step ltac:(apply (step_exit _ 0); cbn; lia).
  run_step ltac:(apply step_Start). run_step ltac:(apply step_starting). run_step ltac:(apply step_handshake).
  run_step ltac:(apply step_install). run_step ltac:(apply step_commit). run_step ltac:(apply step_return).
  run_step ltac:(apply (step_monitor _ 0 0); [reflexivity|by left]).
  run_step ltac:(apply (step_fail _ 0)). run_step ltac:(apply (step_broken _ 0)). apply rtc_refl.
Qed.

(** A [Stop] during the handshake makes it fail, and its failure path announces
    Broken. *)
Definition stopped_handshake : Session :=
  mkSession false true true false 1 [] None false true false 0 0 false false SReturn PWait [TMonitor 0]
    [EvStarting; EvHandshakeStarted; EvStopping; EvHsBroken; EvHsStopped].

Lemma stop_announces_broken : reachable stopped_handshake.
Proof.
  run_step ltac:(apply step_Start). run_step ltac:(apply step_starting). run_step ltac:(apply step_handshake).
  run_step ltac:(apply step_install). run_step ltac:(apply step_Stop).
  run_step ltac:(apply (step_stop_call _ 1); [reflexivity|by left]).
  run_step ltac:(apply step_stop). run_step ltac:(apply step_stop). run_step ltac:(apply step_stop).
  run_step ltac:(apply step_failed). apply rtc_refl.
Qed.


Lemma session_stop_final_witness : s_done (Nat.iter 11 stop_step stopped_handshake) = 1%nat.
Proof. refine (proj1 (proj2 (proj2 (session_stop_final stopped_handshake stop_announces_broken _)))). discriminate. Defined.
